(* ===== verification/_CoqProject ===== *)
-Q . S2P
Prelude.v
Text.v
EpollLoop.v
IoUringLoop.v
AsyncSync.v
Channel.v
Stream.v
Actor.v
Combinators.v
AsyncTime.v
TimerWheel.v
Futex.v
FutexMutex.v
RecursiveMutex.v
RwMutex.v
FutexSemaphore.v
Latch.v
Once.v
SharedSync.v
SpinSync.v
RateLimiter.v
Cron.v
Supervisor.v
Health.v
ThreadPool.v
PeriodicScheduler.v
Topology.v
Observability.v
Threads.v
ThreadControl.v
Descriptors.v
Ipc.v
UnixSocket.v
Process.v
ProcessBuilder.v
ProcessControl.v
ProcessGroup.v
Signal.v
AsyncIo.v
Task.v
RtControl.v
LoopObjects.v
StreamObjects.v
ThreadOwners.v
CleanupGuards.v
PoolPlacement.v
NumaAlloc.v
CondVar.v
AsyncGuards.v
ChannelHandles.v
ThreadEvents.v
LockOrder.v
PoolTimes.v
SysCalls.v
AsyncSleep.v
TimeoutResults.v
CombinatorCalls.v
ActorLifetime.v
