(* ===== verification/Prelude.v ===== *)
(** * pman: a verification development for the C++ concurrency library pman

    pman is a Linux library of threads, processes and synchronisation, with a
    coroutine runtime on top.  This development models the parts of it that
    keep state and make decisions: the event loops, the coroutine
    synchronisation primitives, channels, streams, actors, combinators and
    timeouts; the timer wheel, the rate limiters, the cron and periodic
    schedulers; the futex-based primitives and the spinning ones; thread
    objects and their control; the process supervisor, the health monitor and
    the thread pools; the parsers of /proc and /sys; processes, their builder
    and groups, pipes, shared memory, message queues, sockets, files and
    signals; coroutine tasks; scheduling and memory controls.

    ** How the parts fit together

    An event loop runs timers, posted callbacks and descriptor callbacks on one
    thread.  Coroutine primitives suspend a coroutine by queueing its handle
    and resume it by posting to the loop; actors talk through channels, and the
    timeout awaiters put timers into the loop.  The pools, the schedulers, the
    monitors and the supervisor run threads of their own around a table guarded
    by a mutex; the periodic scheduler puts its tasks into the timer wheel and
    runs them on a pool; the rate limiters wait on the futex condition
    variable; threads take their affinity from the topology.  Everything that
    holds a descriptor is a small owning class; the process builder makes pipes
    and launches a process with them, a process handle owns the descriptor it
    waits on, the groups hold handles, and asynchronous sockets register their
    descriptors with the loop.

    ** Files

    - [Prelude]: results of C++ calls ([outcome]: returned, thrown, blocked for
      ever), machine integers with their wrap-around, tactics, hint databases
      and the shared list lemmas.  [Text]: text as lists of characters, with
      [std::stoi], stream extraction and decimal printing.
    - [EpollLoop]: src/async/epoll_loop.cpp.  State [EpollLoop]: the timer
      multimap as a list sorted by expiry, the index from ids to its nodes,
      descriptors, posted callbacks.  A dangling iterator is a lookup that
      fails, so the theorem that every reachable state is safe says that none
      is ever used.
    - [IoUringLoop]: src/async/io_uring_loop.cpp.  The same timer table beside
      the submission and completion rings with their 32-bit indices; the kernel
      is a parameter constrained by [KernelOk].
    - [AsyncSync]: include/pman/async/mutex.hpp, semaphore.hpp, rwlock.hpp.  The
      class [AsyncPrim] is what a primitive offers to coroutines and
      [AsyncPrimLaws] what it must satisfy; exclusion and the absence of lost
      wake-ups are proved once against the class and discharged by the three
      instances.
    - [Channel]: include/pman/async/channel.hpp, refined to a bounded closable
      first-in first-out queue: runs are labelled with the calls and their
      answers, and those of the channel are runs of the queue.  [Actor]: actor.hpp, the registry, links, monitors and names over
      mailboxes of [Channel].
    - [Stream]: include/pman/async/stream.hpp; the class [Stream] is the
      [next] interface, each combinator an instance, equal to the list function
      it stands for.
    - [Combinators]: combinators.hpp; the class [Combinator] is what [all] and
      [any] share, a state and what it does when a task ends, and the loop of
      [await_suspend] is modelled once over it.
    - [AsyncTime]: time.hpp, sleep.hpp, timeout.hpp and interval, on the timers
      of [EpollLoop], and the thread's current loop (event_loop.cpp).
    - [TimerWheel]: src/timer_wheel.cpp.
    - [Futex]: the machine of threads over futex words, with waits that expire;
      [FutexMutex], [RecursiveMutex], [RwMutex], [FutexSemaphore], [Latch],
      [Once] and [SharedSync]: src/futex.cpp, recursive_mutex.cpp,
      rw_mutex.cpp, semaphore.cpp, latch.cpp, once.cpp and shared_sync.cpp as
      programs of it, one program counter per atomic operation, and their
      properties over every interleaving.  [SpinSync]: rw_spinlock.hpp,
      barrier.hpp and seqlock.hpp on the same machine; the sequence lock's reader
      also on one that performs its second load of the number early.
    - [RateLimiter]: src/rate_limiter.cpp, on the condition variable of
      [FutexMutex].
    - [Cron]: src/cron_scheduler.cpp.  [PeriodicScheduler]:
      src/periodic_scheduler.cpp on [TimerWheel] and [ThreadPool].
    - [Supervisor]: src/process_supervisor.cpp.  [Health]: process_health.cpp,
      its checks and the monitor thread interleaved with clients.
    - [ThreadPool]: src/enhanced_thread_pool.cpp and thread_pool.cpp; a submission
      is three steps, its id, its sequence number and the locked push.
    - [Topology]: cpu_set.hpp, numa.cpp and topology.cpp; [Observability]:
      observability.cpp; both over the text of the files they read.
    - [Threads]: thread.cpp, thread_group.cpp and thread_config.cpp, objects
      over system threads.  [ThreadControl]: cancellable_thread.cpp,
      pausable_thread.cpp and structured.hpp, as small monitors, and deadlines.
    - [Descriptors]: the table of open descriptors, with the close of one that
      is not open recorded as misuse; the class [FdObject] is what an owning
      class offers, [FdLaws] what its operations do to the table, and
      [store_sound] shows ownership once for every instance.
    - [Ipc]: pipe.cpp, shared_memory.cpp and message_queue.cpp; [UnixSocket]:
      unix_socket.cpp; [AsyncIo]: async/file.hpp and async/socket.hpp, the
      latter over [EpollLoop].
    - [Process]: process.cpp's launch by fork and exec and by posix_spawn, in
      the parent and in the child, and diagnostics.cpp; [ProcessBuilder]:
      process_builder.cpp; [ProcessControl]: the operations of a handle, over
      the set of unreaped children and the errors of [waitpid];
      [ProcessGroup]: process_group.cpp.
    - [Signal]: signal.cpp, the dispatcher's thread interleaved with starts and
      any number of stops, and signal_stream.hpp.
    - [Task]: task.hpp and async/task.cpp, who owns which coroutine frame and
      whom its end resumes.
    - [RtControl]: scheduling.cpp and rt_memory.cpp.
    - [LoopObjects]: how both loop backends are set up and torn down, the
      interface [EventLoopImpl] with what it promises ([EventLoopLaws]), its two
      instances, and the class EventLoop of event_loop.cpp over it.
    - [StreamObjects]: streams over channels, and which objects of a pipeline
      are kept alive.  [ThreadOwners]: the objects of cancellable_thread.cpp and
      pausable_thread.cpp, over [Threads] and a class [Control] whose instances
      come from [ThreadControl], with the threads that were let go recorded; [CleanupGuards]: guard objects, refined to
      [ThreadControl.Cancel].
    - [PoolPlacement]: the placement of the pools' and groups' threads;
      [PoolTimes]: the pool of [ThreadPool] with its clock, and the times among
      its metrics; [LockOrder]: which mutexes the pool's operations lock in which
      order; [NumaAlloc]: numa.hpp.
    - [CondVar]: the condition variable of futex.cpp with [FutexMutex], as a
      monitor of consumers and producers on the machine of [Futex]; [SysCalls]:
      the system calls the futex wrappers of all files and the io_uring wrappers
      make.  [ThreadEvents]: the thread observer of diagnostics.cpp and the
      events of thread.cpp.
    - Objects over the coroutine components: [AsyncGuards], the guards of
      [AsyncSync]'s locks, refined to its owners; [ChannelHandles], the senders
      and receivers that share a [Channel], with the tasks of [send] and [recv],
      which act when they are started; [AsyncSleep], any number of sleeping
      coroutines on one [EpollLoop], with the batch of callbacks a pass has
      collected; [TimeoutResults], the four timeout awaiters around any task, with
      the timer in the loop or in such a batch; [CombinatorCalls], [all], [any] and [first] as calls, with
      the versions for tasks without a value as images of the general ones;
      [ActorLifetime], who owns an actor of [Actor], with its mailbox as ends of
      [ChannelHandles].

    ** Conventions

    Times are integers in nanoseconds (seconds in [Cron.nextAfter]).  Clock
    reads, results of system calls and callback effects are arguments of the
    definitions, in the order the code makes them.  Callables are integers.
    Operations that run under one mutex are single steps; the lock-free code is
    modelled one atomic operation at a time, sequentially consistent unless said
    otherwise.  An object
    that is used after it is gone is recorded in a flag ([dangling],
    [misuse]).  Doubles are IEEE binary64 numbers of [SpecFloat].

    ** What the theorems show

    - invariants over every reachable state: [epoll_reachable_safe],
      [uring_iteration_inv], [channel_fifo], [timerwheel_reachable],
      [pool_tasks_once], [supervisor_restart_bounds], [semaphore_permits],
      [recursive_mutex_depth], [semaphore_sound], [registry_names_ok],
      [managed_thread_ownership], [cancel_runs_handlers_once],
      [task_ownership], [wrappers_own_descriptors], [handle_signals_own],
      [dispatcher_stop_quiet], [loop_objects_safe], [no_runaway_thread],
      [uring_setup_undone], [channel_handles_safe], [thread_events_exact];
    - mutual exclusion and absence of lost wake-ups: [mutex_exclusion],
      [rwlock_exclusion], [futex_mutex_exclusion], [rw_mutex_exclusion],
      [shared_mutex_exclusion], [rwspin_exclusion], [async_no_lost_wakeup],
      [latch_opens], [once_at_most_once], [once_completes],
      [condvar_notify_all], [condvar_no_lost_notification], [write_guard_alone],
      [barrier_separates], [seqlock_consistent], [pause_holds]; freedom from
      deadlock for lock orders that are kept: [pool_lock_order];
    - refinement and equivalence: [channel_refines_queue],
      [guard_objects_refine], [guards_refine_owners], [timeout_decides],
      [void_combinators_forget], [stream_combinators], [health_hysteresis], [launch_paths_agree];
      well-formedness of what is parsed: [load_wellformed]; the round trips
      [cron_roundtrip], [cpulist_roundtrip], [fd_passing],
      [socket_addr_roundtrip], [deadline_scope_restores];
    - functional behaviour on every branch: [collectTimers_spec],
      [cancelTimer_spec], [processExpired_spec], [timer_fires], [cancel_spec],
      [child_exit_spec], [cron_pass_spec], [cron_nextAfter_sound],
      [pool_pop_order], [submitTimerOp_arms], [exit_takes_component],
      [monitors_get_down], [all_waits_for_all], [any_takes_first],
      [timeout_race], [scope_join_complete], [buildNodeMask_bits],
      [launch_redirects], [terminate_reaps], [group_ends],
      [shm_construct_spec], [socket_paths], [socket_send_spec],
      [wait_signal_wakes], [distribute_balanced], [allocate_spec],
      [sleepers_wake], [pool_times_exact], [timeUntilAvailable_spec],
      [futex_wrappers], [context_ops];
    - bounds and termination: [epollTimeout_bounds], [getSqe_fresh_slot],
      [sliding_window_bound], [processCqes_drains], [stream_consumers],
      [notifyExit_total];
    - what the code does where it departs from what it means to do:
      [futex_mutex_lost_wakeup], [rw_downgrade_lost_wakeup],
      [latch_underflow_strands] and [once_exception_strands] (sleepers nobody
      wakes), [schedule_running_hangs], [periodic_never_runs] and
      [callback_reenters_hangs] (a mutex locked twice), [pause_stuck],
      [race_misses_completion], [timer_thread_late], [blocked_send_moved],
      [addFd_mask_mismatch], [sliding_acquire_timeout], [stop_process_stale],
      [pool_waitIdle_early], [name_leak], [stat_fields_shifted],
      [combinator_dangles], [scope_late_spawn], [run_keeps_thread],
      [captured_wait_blocks], [waitAny_leaves_stale], [signal_stream_silent],
      [write_wait_hangs], [pipeline_dangles], [deadline_always_waits],
      [sender_gone_stays_open], [last_handle_orphans],
      [linked_receiver_orphaned], [race_outcomes], [created_after_finished],
      [replaced_observer_called], [request_above_burst].

    ** Fuel and bounds

    [Stream]'s loops take fuel because a source may be endless;
    [stream_consumers] shows that some fuel is enough exactly for streams that
    end.  [IoUringLoop.cqeLoop] is given the 32-bit distance between the
    completion indices, and [processCqes_drains] shows it stops there.  The
    recursion of [Actor.notifyExit_] is given one level per registered actor,
    and [notifyExit_total] shows that this is enough.  The loop of
    [Cron.nextAfter] has the code's own iteration limit, 366 * 24 * 60.  Range
    loops of [Cron] have one unit of fuel per value of the field, and one more.
    Waiting loops ([RateLimiter.sw_acquire], [Health.command_loop],
    [ProcessControl.waitFor_loop], [AsyncIo.send_loop],
    [RtControl.nanosleep_until]) take a list of passes; running out of it means
    still waiting.  [EpollLoop.run] and [IoUringLoop.uring_run] take the answers of
    their passes in the same way.  Releasing a stream ([StreamObjects.release]) has one unit per
    object, as each level destroys one.  Decimal printing has one
    unit of fuel per bit.  Identifier counters are assumed not to have wrapped
    at 2^64, those of the pool, the loops and the sequence lock among them; the
    reader-writer mutex is shown for fewer than 2^29 - 1 threads,
    as many as its word can count; the semaphore and the
    condition variable as long as their words do not overflow, and the health monitor's counters are
    unbounded.

    ** Not modelled

    [SharedRingBuffer] of message_queue.hpp, which has declarations and no
    bodies.  The kernel is a parameter wherever it is called.  Weak memory
    orders, apart from the reordered loads of the sequence lock.  What a coroutine does
    between two suspensions is a step of the relation in [Task], not derived
    from its source.  The programs under examples/ are not part of the
    library. *)

From stdpp Require Export base gmap list strings fin_maps relations sorting.
From Stdlib Require Export ZArith Lia Sorted.
Close Scope nat_scope.
Open Scope Z_scope.

(** ** Results of C++ calls *)

(** The exception classes the sources throw. *)
Inductive exn :=
  | InvalidArgument
  | RuntimeError
  | LogicError
  | OutOfRange
  | SystemError (code : Z).

(** A call returns, throws, or blocks for ever ([Hang]: the calling thread
    locks a non-recursive mutex it already holds, or waits for what does not
    come). *)
Inductive outcome (A : Type) :=
  | Ok (a : A)
  | Throw (e : exn)
  | Hang.
Arguments Ok {A} a.
Arguments Throw {A} e.
Arguments Hang {A}.

Definition obind {A B} (m : outcome A) (f : A → outcome B) : outcome B :=
  match m with
  | Ok a => f a
  | Throw e => Throw e
  | Hang => Hang
  end.

Declare Scope pman_scope.
Delimit Scope pman_scope with pman.
Notation "'let*' x ':=' m 'in' k" := (obind m (fun x => k))
  (at level 10, x pattern, m at level 100, k at level 200) : pman_scope.
Open Scope pman_scope.

#[export] Instance exn_eq_dec : EqDecision exn.
Proof. solve_decision. Defined.

(** ** Machine integers *)

Definition wrap (w n : Z) : Z := n mod 2 ^ w.
Definition u64 (n : Z) : Z := wrap 64 n.
Definition u32 (n : Z) : Z := wrap 32 n.

(** Two's complement reading of a [w]-bit pattern. *)
Definition swrap (w n : Z) : Z :=
  let m := n mod 2 ^ w in if m <? 2 ^ (w - 1) then m else m - 2 ^ w.
Definition i32 (n : Z) : Z := swrap 32 n.

(** The range test for a signed 64-bit count; outside it, C++ arithmetic on
    [std::chrono::nanoseconds] is undefined. *)
Definition in_i64 (n : Z) : bool := (- 2 ^ 63 <=? n) && (n <? 2 ^ 63).

(** Nanoseconds per millisecond and per second. *)
Definition ns_per_ms : Z := 1000000.
Definition ns_per_s : Z := 1000000000.

(** ** Lists *)

(** The longest prefix on which [p] holds, and the rest. *)
Fixpoint span {A} (p : A → bool) (l : list A) : list A * list A :=
  match l with
  | [] => ([], [])
  | x :: l' => if p x then let '(a, b) := span p l' in (x :: a, b) else ([], l)
  end.

(** ** Tactics *)

(** Turn boolean comparisons in the context into propositions. *)
Ltac bool_hyps :=
  repeat match goal with
  | H : (_ && _)%bool = true |- _ => apply andb_true_iff in H as [? ?]
  | H : (_ || _)%bool = false |- _ => apply orb_false_iff in H as [? ?]
  | H : negb _ = true |- _ => apply negb_true_iff in H
  | H : negb _ = false |- _ => apply negb_false_iff in H
  | H : context [(_ >? _)%Z] |- _ => rewrite Z.gtb_ltb in H
  | H : context [(_ >=? _)%Z] |- _ => rewrite Z.geb_leb in H
  | H : (_ <? _)%Z = true |- _ => apply Z.ltb_lt in H
  | H : (_ <? _)%Z = false |- _ => apply Z.ltb_ge in H
  | H : (_ <=? _)%Z = true |- _ => apply Z.leb_le in H
  | H : (_ <=? _)%Z = false |- _ => apply Z.leb_gt in H
  | H : (_ =? _)%Z = true |- _ => apply Z.eqb_eq in H
  | H : (_ =? _)%Z = false |- _ => apply Z.eqb_neq in H
  | H : (_ <? _)%nat = true |- _ => apply Nat.ltb_lt in H
  | H : (_ <? _)%nat = false |- _ => apply Nat.ltb_ge in H
  | H : (_ <=? _)%nat = true |- _ => apply Nat.leb_le in H
  | H : (_ <=? _)%nat = false |- _ => apply Nat.leb_gt in H
  | H : (_ =? _)%nat = true |- _ => apply Nat.eqb_eq in H
  | H : (_ =? _)%nat = false |- _ => apply Nat.eqb_neq in H
  end.

(** Split every [if]/[match] of the goal, keeping the tests as propositions. *)
Ltac split_cases :=
  repeat (case_match; simpl in *; simplify_eq; bool_hyps).

(** Prove a closed decidable proposition by evaluating its decision. *)
Ltac by_decision :=
  match goal with |- ?P => refine (bool_decide_eq_true_1 P _); vm_compute; reflexivity end.

(** ** Shared lemmas *)

Lemma span_app {A} (p : A → bool) l :
  (span p l).1 ++ (span p l).2 = l.
Proof.
  induction l as [|x l IH]; simpl; [done|].
  destruct (p x); [|done]. destruct (span p l); simpl in *. by rewrite IH.
Qed.

Lemma span_prefix {A} (p : A → bool) l :
  Forall (λ x, p x = true) (span p l).1.
Proof.
  induction l as [|x l IH]; simpl; [constructor|].
  destruct (p x) eqn:E; [|constructor]. destruct (span p l); simpl in *. by constructor.
Qed.

Lemma span_rest {A} (p : A → bool) l x r :
  (span p l).2 = x :: r → p x = false.
Proof.
  induction l as [|y l IH]; simpl; [done|].
  destruct (p y) eqn:E; [|intros; by simplify_eq/=].
  destruct (span p l); simpl in *. done.
Qed.

(** A property closed under every step holds in every reachable state. *)
Lemma rtc_invariant {S} (R : relation S) (I : S → Prop) s s' :
  (∀ a b, R a b → I a → I b) → rtc R s s' → I s → I s'.
Proof. intros Hstep. induction 1; eauto. Qed.

Lemma Z_quot_bounds a b : 0 <= a → 0 < b → b * (a ÷ b) <= a < b * (a ÷ b + 1).
Proof.
  intros Ha Hb. rewrite Z.quot_div_nonneg by lia.
  pose proof (Z.mul_div_le a b ltac:(lia)).
  pose proof (Z.mul_succ_div_gt a b ltac:(lia)). lia.
Qed.

Lemma wrap_small w n : 0 <= n < 2 ^ w → wrap w n = n.
Proof. intros. by apply Z.mod_small. Qed.

Lemma wrap_range w n : 0 <= w → 0 <= wrap w n < 2 ^ w.
Proof. intros. apply Z.mod_pos_bound. apply Z.pow_pos_nonneg; lia. Qed.

Lemma swrap_small w n : 0 < w → 0 <= n < 2 ^ (w - 1) → swrap w n = n.
Proof.
  intros Hw H. unfold swrap. replace (2 ^ w) with (2 * 2 ^ (w - 1)) by (rewrite <- Z.pow_succ_r by lia; f_equal; lia).
  rewrite Z.mod_small by lia. destruct (Z.ltb_spec n (2 ^ (w - 1))); lia.
Qed.

Lemma i32_small n : 0 <= n < 2 ^ 31 → i32 n = n.
Proof.
  intros H. unfold i32, swrap. rewrite Z.mod_small by lia.
  destruct (Z.ltb_spec n (2 ^ (32 - 1))); lia.
Qed.

(** A list without duplicates stays so when elements are dropped. *)
Lemma NoDup_sub {A} (l k : list A) : l ⊆+ k → NoDup k → NoDup l.
Proof. intros [l' ->]%submseteq_Permutation Hn. by apply NoDup_app in Hn as [? _]. Qed.

Lemma filter_all {A} (P : A → Prop) `{!∀ x, Decision (P x)} l : Forall P l → filter P l = l.
Proof. induction 1; [done|]. rewrite filter_cons_True by done. by f_equal. Qed.

Lemma filter_none {A} (P : A → Prop) `{!∀ x, Decision (P x)} l :
  Forall (λ x, ¬ P x) l → filter P l = [].
Proof. induction 1; [done|]. by rewrite filter_cons_False. Qed.

Lemma omap_ext_in {A B} (f g : A → option B) (l : list A) :
  (∀ x, x ∈ l → f x = g x) → omap f l = omap g l.
Proof.
  induction l as [|x l IH]; intros Hfg; [done|]. cbn. rewrite (Hfg x) by left.
  destruct (g x); [f_equal|]; apply IH; intros y Hy; apply Hfg; by right.
Qed.

Create HintDb pman.
Create Rewrite HintDb pman.
#[export] Hint Rewrite @span_app : pman.
#[export] Hint Resolve wrap_range span_prefix : pman.
