(* ===== verification/Text.v ===== *)
(** * Text as the sources read it

    The parts of the C++ library the parsers use, on lists of characters:
    [std::stoi] and [std::stoll], formatted extraction from an [istream] with
    its failure state, [std::getline] with a delimiter, [std::sort] followed by
    [std::unique]; and decimal printing, with the lemmas that reading inverts
    it. *)

From Stdlib Require Export Ascii.
From S2P Require Import Prelude.

Abbreviation text := (list ascii).

Definition is_space (c : ascii) : bool :=
  let n := nat_of_ascii c in Nat.eqb n 32 || (Nat.leb 9 n && Nat.leb n 13).

Definition is_digit (c : ascii) : bool :=
  let n := nat_of_ascii c in Nat.leb 48 n && Nat.leb n 57.

Definition comma : ascii := ","%char.
Definition dash : ascii := "-"%char.
Definition space : ascii := " "%char.
Definition plus : ascii := "+"%char.

Definition digits_value (l : text) : Z :=
  foldl (λ a c, a * 10 + (Z.of_nat (nat_of_ascii c) - 48)) 0 l.

(** ** Splitting *)

(** The text between commas, nothing after a final comma: what
    [std::getline(ss, token, ',')] yields one token at a time. *)
Fixpoint parts (s : text) (cur : text) : list text :=
  match s with
  | [] => match cur with [] => [] | _ => [cur] end
  | c :: s' => if decide (c = comma) then cur :: parts s' [] else parts s' (cur ++ [c])
  end.

(** [find(c)] and [rfind(c)] as the text before and after. *)
Definition find_char (c : ascii) (s : text) : option (text * text) :=
  match span (λ x, negb (bool_decide (x = c))) s with
  | (a, _ :: b) => Some (a, b)
  | (_, []) => None
  end.

Definition rfind_char (c : ascii) (s : text) : option (text * text) :=
  match find_char c (reverse s) with
  | Some (b, a) => Some (reverse a, reverse b)
  | None => None
  end.

(** ** Numbers *)

(** An optional sign and the longest run of digits after it: whether there is a
    digit, the value, and the rest. *)
Definition scan_int (s : text) : option Z * text :=
  let '(neg, s1) := match s with
                    | c :: s' => if decide (c = dash) then (true, s')
                                 else if decide (c = plus) then (false, s') else (false, s)
                    | [] => (false, s)
                    end in
  match span is_digit s1 with
  | ([], r) => (None, r)
  | (ds, r) => (Some (if neg then - digits_value ds else digits_value ds), r)
  end.

(** [std::stoi] ([w] is 32) and [std::stoll] ([w] is 64). *)
Definition sto (w : Z) (s : text) : outcome Z :=
  match (scan_int (span is_space s).2).1 with
  | None => Throw InvalidArgument
  | Some v => if (- 2 ^ (w - 1) <=? v) && (v <? 2 ^ (w - 1)) then Ok v else Throw OutOfRange
  end.
Definition stoi : text → outcome Z := sto 32.
Definition stoll : text → outcome Z := sto 64.

(** An input stream: what is left to read and whether an extraction failed. *)
Record istream := MkStream { rest : text; failed : bool }.

(** [>>] into a [char]; on failure the target keeps its value. *)
Definition get_char (old : ascii) (s : istream) : ascii * istream :=
  if failed s then (old, s)
  else match (span is_space (rest s)).2 with
       | [] => (old, MkStream [] true)
       | c :: r => (c, MkStream r false)
       end.

(** [>>] into a signed [w]-bit integer: at the end of the input the target keeps
    its value, without digits it becomes 0, out of range the nearest bound; in
    these cases the stream fails and later extractions do nothing. *)
Definition get_int (w old : Z) (s : istream) : Z * istream :=
  if failed s then (old, s)
  else match (span is_space (rest s)).2 with
       | [] => (old, MkStream [] true)
       | t =>
           match scan_int t with
           | (None, r) => (0, MkStream r true)
           | (Some v, r) =>
               if v <? - 2 ^ (w - 1) then (- 2 ^ (w - 1), MkStream r true)
               else if v <? 2 ^ (w - 1) then (v, MkStream r false)
               else (2 ^ (w - 1) - 1, MkStream r true)
           end
       end.

(** [n] extractions into a variable that is not used. *)
Fixpoint skip_ints (n : nat) (s : istream) : istream :=
  match n with O => s | S n' => skip_ints n' (get_int 64 0 s).2 end.

(** Whether [s] starts with [p], as [s.rfind(p, 0) == 0] tests. *)
Fixpoint starts_with (p s : text) : bool :=
  match p, s with
  | [], _ => true
  | c :: p', d :: s' => bool_decide (c = d) && starts_with p' s'
  | _ :: _, [] => false
  end.

(** ** Sorting *)

(** [std::unique]: of equal neighbours the first is kept. *)
Fixpoint unique (l : list Z) : list Z :=
  match l with
  | x :: ((y :: _) as l') => if x =? y then unique l' else x :: unique l'
  | _ => l
  end.

Definition sort_unique (l : list Z) : list Z := unique (merge_sort Z.le l).

(** ** Printing *)

Definition digit (n : Z) : ascii := ascii_of_nat (48 + Z.to_nat n).

Fixpoint print_digits (fuel : nat) (n : Z) : text :=
  match fuel with
  | O => []
  | S f => if n <? 10 then [digit n] else print_digits f (n / 10) ++ [digit (n mod 10)]
  end.

(** The decimal notation, as [%d] and [%lld] print it. *)
Definition print_nat (n : Z) : text := print_digits (S (Z.to_nat (Z.log2 n))) n.
Definition print_Z (n : Z) : text := if n <? 0 then dash :: print_nat (- n) else print_nat n.

(** ** Lemmas *)

Lemma span_all_then {A} (p : A → bool) l r :
  Forall (λ x, p x = true) l → match r with [] => True | x :: _ => p x = false end → span p (l ++ r) = (l, r).
Proof.
  intros Hl Hr. induction Hl as [|x l Hx Hl IH]; simpl.
  - destruct r as [|x r]; [done|]. simpl. by rewrite Hr.
  - by rewrite Hx, IH.
Qed.

Lemma digit_spec n : 0 <= n < 10 → is_digit (digit n) = true ∧ Z.of_nat (nat_of_ascii (digit n)) - 48 = n.
Proof.
  intros Hn. unfold is_digit, digit. rewrite nat_ascii_embedding by lia.
  split; [|lia]. apply andb_true_iff. split; apply Nat.leb_le; lia.
Qed.

Lemma print_digits_spec f n :
  0 <= n < 2 ^ Z.of_nat f →
  (f ≠ O → print_digits f n ≠ []) ∧ Forall (λ c, is_digit c = true) (print_digits f n) ∧ digits_value (print_digits f n) = n.
Proof.
  revert n. induction f as [|f IH]; intros n Hn; [split_and!; [done|constructor|cbn in *; lia]|].
  cbn [print_digits]. destruct (Z.ltb_spec n 10).
  { destruct (digit_spec n) as [Hd Hv]; [lia|]. split_and!; [done|by repeat constructor|].
    unfold digits_value. cbn. lia. }
  destruct (IH (n / 10)) as (_ & Hf & Hv).
  { rewrite Nat2Z.inj_succ, Z.pow_succ_r in Hn by lia. split; [apply Z.div_pos; lia|].
    apply Z.div_lt_upper_bound; lia. }
  destruct (digit_spec (n mod 10)) as [Hd Hw]; [apply Z.mod_pos_bound; lia|].
  split_and!; [by destruct (print_digits f (n / 10))|by apply Forall_app; split; [|repeat constructor]|].
  unfold digits_value in *. rewrite foldl_app, Hv. cbn. rewrite Hw. pose proof (Z_div_mod_eq_full n 10). lia.
Qed.

Lemma print_nat_spec n :
  0 <= n → print_nat n ≠ [] ∧ Forall (λ c, is_digit c = true) (print_nat n) ∧ digits_value (print_nat n) = n.
Proof.
  intros Hn. destruct (print_digits_spec (S (Z.to_nat (Z.log2 n))) n) as (H1 & H2 & H3).
  { rewrite Nat2Z.inj_succ, Z2Nat.id by apply Z.log2_nonneg.
    destruct (Z.eq_dec n 0) as [->|]; [cbn; lia|]. pose proof (Z.log2_spec n). lia. }
  split_and!; [by apply H1|done|done].
Qed.

Lemma is_digit_plain c : is_digit c = true → is_space c = false ∧ c ≠ dash ∧ c ≠ plus ∧ c ≠ comma.
Proof.
  intros H. split; [|split_and!; by intros ->]. unfold is_digit, is_space in *. bool_hyps.
  apply orb_false_iff. split; [apply Nat.eqb_neq; lia|apply andb_false_iff; right; apply Nat.leb_gt; lia].
Qed.

(** The characters of a printed number. *)
Definition is_numeric (c : ascii) : bool := is_digit c || bool_decide (c = dash).

Lemma print_Z_numeric n : print_Z n ≠ [] ∧ Forall (λ c, is_numeric c = true) (print_Z n).
Proof.
  assert (Hw : ∀ l, Forall (λ c, is_digit c = true) l → Forall (λ c, is_numeric c = true) l).
  { intros l Hl. eapply Forall_impl; [exact Hl|]. intros c Hc. cbn in *. unfold is_numeric. by rewrite Hc. }
  unfold print_Z. destruct (Z.ltb_spec n 0).
  - destruct (print_nat_spec (- n)) as (? & ? & _); [lia|]. split; [done|]. constructor; [done|by apply Hw].
  - destruct (print_nat_spec n) as (? & ? & _); [lia|]. split; [done|by apply Hw].
Qed.

(** Scanning a printed number gives it back and stops where it ends. *)
Lemma scan_print n r :
  match r with [] => True | c :: _ => is_digit c = false end → scan_int (print_Z n ++ r) = (Some n, r).
Proof.
  intros Hr. unfold print_Z, scan_int. destruct (Z.ltb_spec n 0).
  - destruct (print_nat_spec (- n)) as (Hne & Hd & Hv); [lia|].
    cbn [app]. rewrite decide_True by done. rewrite span_all_then by done.
    destruct (print_nat (- n)) eqn:E; [done|]. rewrite Hv. f_equal. f_equal. lia.
  - destruct (print_nat_spec n) as (Hne & Hd & Hv); [lia|].
    destruct (print_nat n) as [|c l] eqn:E; [done|]. cbn [app].
    destruct (is_digit_plain c) as (_ & ? & ? & _); [by inversion Hd|].
    rewrite !decide_False by done. change (c :: l ++ r) with ((c :: l) ++ r).
    rewrite span_all_then by done. by rewrite Hv.
Qed.

Lemma numeric_not_space c : is_numeric c = true → is_space c = false.
Proof.
  unfold is_numeric. intros [H|H]%orb_true_iff; [by apply is_digit_plain|].
  apply bool_decide_eq_true in H. by subst.
Qed.

Lemma span_space_print n r : (span is_space (print_Z n ++ r)).2 = print_Z n ++ r.
Proof.
  destruct (print_Z_numeric n) as [Hne Hc]. destruct (print_Z n) as [|c l]; [done|].
  cbn. rewrite numeric_not_space; [done|by inversion Hc].
Qed.

(** [std::stoi] and [std::stoll] of a printed number, whatever follows it. *)
Lemma sto_print w n r :
  - 2 ^ (w - 1) <= n < 2 ^ (w - 1) → match r with [] => True | c :: _ => is_digit c = false end →
  sto w (print_Z n ++ r) = Ok n.
Proof.
  intros Hn Hr. unfold sto. rewrite span_space_print, scan_print by done. cbn.
  rewrite (proj2 (andb_true_iff _ _)); [done|]. split; [apply Z.leb_le|apply Z.ltb_lt]; lia.
Qed.

(** Numbers, each after a space. *)
Definition print_fields (fs : list Z) : text := fs ≫= λ f, space :: print_Z f.

Lemma get_int_print w old n r :
  - 2 ^ (w - 1) <= n < 2 ^ (w - 1) → match r with [] => True | c :: _ => is_digit c = false end →
  get_int w old (MkStream (space :: print_Z n ++ r) false) = (n, MkStream r false).
Proof.
  intros Hn Hr. unfold get_int. cbn [failed rest].
  assert (E : (span is_space (space :: print_Z n ++ r)).2 = print_Z n ++ r).
  { rewrite <- (span_space_print n r) at 2. cbn. by destruct (span is_space (print_Z n ++ r)). }
  rewrite E. destruct (print_Z_numeric n) as [Hne _].
  destruct (print_Z n ++ r) as [|c l] eqn:Ep; [by destruct (print_Z n)|]. rewrite <- Ep, scan_print by done.
  destruct (Z.ltb_spec n (- 2 ^ (w - 1))); [lia|]. by destruct (Z.ltb_spec n (2 ^ (w - 1))); [|lia].
Qed.

(** What may follow the fields: nothing or something that is no digit. *)
Definition ends_number (r : text) : Prop := match r with [] => True | c :: _ => is_digit c = false end.

Lemma print_fields_ends fs r : ends_number r → ends_number (print_fields fs ++ r).
Proof. by destruct fs. Qed.

Lemma print_fields_cons f fs r :
  print_fields (f :: fs) ++ r = space :: print_Z f ++ print_fields fs ++ r.
Proof. unfold print_fields. cbn. by rewrite <- (assoc_L (++)). Qed.

Definition fits (w n : Z) : Prop := - 2 ^ (w - 1) <= n < 2 ^ (w - 1).

Lemma skip_ints_print k fs r :
  Forall (fits 64) fs → ends_number r → (k <= List.length fs)%nat →
  skip_ints k (MkStream (print_fields fs ++ r) false) = MkStream (print_fields (drop k fs) ++ r) false.
Proof.
  intros Hf Hr. revert fs Hf. induction k as [|k IH]; intros fs Hf Hk; [done|].
  destruct fs as [|f fs]; [cbn in Hk; lia|]. inversion_clear Hf as [|? ? Hff Hfs].
  rewrite print_fields_cons. cbn [skip_ints]. rewrite get_int_print; [|exact Hff|by apply print_fields_ends].
  cbn [snd drop]. apply IH; [done|cbn in Hk; lia].
Qed.

(** The next field after the first [k]. *)
Lemma get_field_print k old fs f r :
  Forall (fits 64) fs → ends_number r → fs !! k = Some f →
  get_int 64 old (MkStream (print_fields (drop k fs) ++ r) false) =
    (f, MkStream (print_fields (drop (S k) fs) ++ r) false).
Proof.
  intros Hf Hr Hk. rewrite (drop_S fs f k) by done. rewrite print_fields_cons.
  apply get_int_print; [|by apply print_fields_ends]. eapply Forall_lookup_1 in Hf; eauto.
Qed.

(** *** Finding a character *)

Lemma find_char_app c a b : c ∉ a → find_char c (a ++ c :: b) = Some (a, b).
Proof.
  intros Ha. unfold find_char. rewrite span_all_then; [done| |by rewrite bool_decide_true].
  apply Forall_forall. intros x Hx. apply negb_true_iff, bool_decide_false. by intros ->.
Qed.

Lemma rfind_char_app c a b : c ∉ b → rfind_char c (a ++ c :: b) = Some (a, b).
Proof.
  intros Hb. unfold rfind_char. rewrite reverse_app, reverse_cons, <- (assoc_L (++)). cbn [app].
  rewrite find_char_app by (by rewrite elem_of_reverse). by rewrite !reverse_involutive.
Qed.

(** *** Sorting *)

Lemma elem_of_unique x l : x ∈ unique l ↔ x ∈ l.
Proof.
  induction l as [|y [|z l] IH]; [done|done|]. cbn [unique]. destruct (Z.eqb_spec y z) as [->|].
  - rewrite IH. rewrite !elem_of_cons. tauto.
  - rewrite !elem_of_cons, <- (elem_of_cons l x z). change (z :: l) with (z :: l). rewrite IH. tauto.
Qed.

Lemma unique_sorted l : Sorted Z.le l → StronglySorted Z.lt (unique l).
Proof.
  intros Hs. apply Sorted_StronglySorted in Hs; [|intros x y z; lia].
  induction l as [|y [|z l] IH]; [constructor|repeat constructor|]. cbn [unique].
  inversion_clear Hs as [|? ? Hs' Hy]. destruct (Z.eqb_spec y z) as [->|]; [by apply IH|].
  constructor; [by apply IH|]. apply Forall_forall. intros x Hx. change (x ∈ unique (z :: l)) in Hx.
  rewrite elem_of_unique in Hx. inversion_clear Hy as [|? ? Hyz Hyl].
  apply elem_of_cons in Hx as [->|Hx]; [lia|]. inversion_clear Hs' as [|? ? _ Hz].
  rewrite Forall_forall in Hz. specialize (Hz x Hx). lia.
Qed.

Lemma sort_unique_sorted l : StronglySorted Z.lt (sort_unique l).
Proof. apply unique_sorted, Sorted_merge_sort. intros x y. lia. Qed.

Lemma elem_of_sort_unique x l : x ∈ sort_unique l ↔ x ∈ l.
Proof. unfold sort_unique. by rewrite elem_of_unique, merge_sort_Permutation. Qed.

Lemma sort_unique_nil l : sort_unique l = [] → l = [].
Proof.
  intros H. destruct l as [|x l]; [done|]. assert (x ∈ sort_unique (x :: l)) as Hx by (apply elem_of_sort_unique; left).
  rewrite H in Hx. by apply elem_of_nil in Hx.
Qed.
