(* ===== verification/EpollLoop.v ===== *)
(** * The epoll event loop (src/src/async/epoll_loop.cpp, epoll_loop.hpp)

    The timer table (a multimap ordered by expiry plus an index from timer id
    to multimap iterator), the posted-callback queue, the descriptor table and
    one iteration of [run] and of [runOnce].  A multimap iterator is the
    address of its node, so erasing through a stale iterator is visible: it
    makes [cancelTimer] undefined ([None]).  The clock reads of an operation
    are arguments, in the order the code makes them. *)

From S2P Require Import Prelude.

(** ** Data *)

(** [struct TimerEntry]; a callback is the identity of a [std::function],
    [None] the empty one. *)
Record TimerEntry := MkTimerEntry {
  te_id : Z;
  te_callback : option Z;
  te_period : Z
}.

(** A node of [std::multimap<TimePoint, TimerEntry>]. *)
Record Node := MkNode {
  node_key : Z;
  node_it : Z;
  node_entry : TimerEntry
}.

Record EpollLoop := MkEpollLoop {
  running_ : bool;
  timersByExpiry_ : list Node;
  timerById_ : gmap Z Z;
  nextTimerId_ : Z;
  nextNode : Z;                       (* next node address of the allocator *)
  fdCallbacks_ : gmap Z Z;
  epollSet : gmap Z Z;                (* kernel interest list: fd to mask *)
  postedCallbacks_ : list (option Z);
  eventCount : Z                      (* counter of eventFd_ *)
}.

(** The bits of [enum class Event] and the kernel's epoll bits. *)
Definition Event_Read : Z := Z.shiftl 1 0.
Definition Event_Write : Z := Z.shiftl 1 1.
Definition Event_Error : Z := Z.shiftl 1 2.
Definition Event_HangUp : Z := Z.shiftl 1 3.
Definition Event_or (a b : Z) : Z := Z.lor a b.
Definition EPOLLIN : Z := 1.
Definition EPOLLOUT : Z := 4.
Definition EPOLLERR : Z := 8.
Definition EPOLLHUP : Z := 16.

Definition initLoop : EpollLoop := {|
  running_ := false; timersByExpiry_ := []; timerById_ := ∅; nextTimerId_ := 1;
  nextNode := 0; fdCallbacks_ := ∅; epollSet := ∅; postedCallbacks_ := [];
  eventCount := 0 |}.

(** ** Field updates *)

Definition set_running b s := {|
  running_ := b; timersByExpiry_ := timersByExpiry_ s; timerById_ := timerById_ s;
  nextTimerId_ := nextTimerId_ s; nextNode := nextNode s; fdCallbacks_ := fdCallbacks_ s;
  epollSet := epollSet s; postedCallbacks_ := postedCallbacks_ s; eventCount := eventCount s |}.
Definition set_timers l ix s := {|
  running_ := running_ s; timersByExpiry_ := l; timerById_ := ix;
  nextTimerId_ := nextTimerId_ s; nextNode := nextNode s; fdCallbacks_ := fdCallbacks_ s;
  epollSet := epollSet s; postedCallbacks_ := postedCallbacks_ s; eventCount := eventCount s |}.
Definition set_nextTimerId n s := {|
  running_ := running_ s; timersByExpiry_ := timersByExpiry_ s; timerById_ := timerById_ s;
  nextTimerId_ := n; nextNode := nextNode s; fdCallbacks_ := fdCallbacks_ s;
  epollSet := epollSet s; postedCallbacks_ := postedCallbacks_ s; eventCount := eventCount s |}.
Definition set_nextNode n s := {|
  running_ := running_ s; timersByExpiry_ := timersByExpiry_ s; timerById_ := timerById_ s;
  nextTimerId_ := nextTimerId_ s; nextNode := n; fdCallbacks_ := fdCallbacks_ s;
  epollSet := epollSet s; postedCallbacks_ := postedCallbacks_ s; eventCount := eventCount s |}.
Definition set_fds cbs ks s := {|
  running_ := running_ s; timersByExpiry_ := timersByExpiry_ s; timerById_ := timerById_ s;
  nextTimerId_ := nextTimerId_ s; nextNode := nextNode s; fdCallbacks_ := cbs;
  epollSet := ks; postedCallbacks_ := postedCallbacks_ s; eventCount := eventCount s |}.
Definition set_posted p n s := {|
  running_ := running_ s; timersByExpiry_ := timersByExpiry_ s; timerById_ := timerById_ s;
  nextTimerId_ := nextTimerId_ s; nextNode := nextNode s; fdCallbacks_ := fdCallbacks_ s;
  epollSet := epollSet s; postedCallbacks_ := p; eventCount := n |}.

(** ** Timers *)

(** [multimap::emplace]: after every node whose key is not greater. *)
Fixpoint multimap_emplace (n : Node) (l : list Node) : list Node :=
  match l with
  | [] => [n]
  | m :: l' => if node_key n <? node_key m then n :: l else m :: multimap_emplace n l'
  end.

(** [multimap::erase(iterator)]; undefined when no node has that address. *)
Fixpoint multimap_erase (it : Z) (l : list Node) : option (list Node) :=
  match l with
  | [] => None
  | m :: l' => if node_it m =? it then Some l' else cons m <$> multimap_erase it l'
  end.

(** [auto it = timersByExpiry_.emplace(expiry, entry); timerById_[id] = it;] *)
Definition emplaceTimer (expiry : Z) (e : TimerEntry) (s : EpollLoop) : EpollLoop :=
  let it := nextNode s in
  set_nextNode (it + 1)
    (set_timers (multimap_emplace (MkNode expiry it e) (timersByExpiry_ s))
                (<[te_id e := it]> (timerById_ s)) s).

Definition addTimer (now duration : Z) (callback : option Z) (s : EpollLoop) : Z * EpollLoop :=
  let id := nextTimerId_ s in
  let s1 := set_nextTimerId (u64 (id + 1)) s in
  let expiry := now + duration in
  (id, emplaceTimer expiry (MkTimerEntry id callback 0) s1).

Definition addPeriodicTimer (now period : Z) (callback : option Z) (s : EpollLoop) : Z * EpollLoop :=
  let id := nextTimerId_ s in
  let s1 := set_nextTimerId (u64 (id + 1)) s in
  let expiry := now + period in
  (id, emplaceTimer expiry (MkTimerEntry id callback period) s1).

Definition cancelTimer (timerId : Z) (s : EpollLoop) : option (bool * EpollLoop) :=
  match timerById_ s !! timerId with
  | None => Some (false, s)
  | Some it =>
      l ← multimap_erase it (timersByExpiry_ s);
      Some (true, set_timers l (delete timerId (timerById_ s)) s)
  end.

(** The [while] loop of [processTimers]: the remaining nodes, the index, the
    batch and the timers to reschedule. *)
Fixpoint collect (now : Z) (l : list Node) (ix : gmap Z Z) (batch : list Z)
    (toReschedule : list (Z * TimerEntry))
  : list Node * gmap Z Z * list Z * list (Z * TimerEntry) :=
  match l with
  | [] => ([], ix, batch, toReschedule)
  | n :: l' =>
      if node_key n >? now then (l, ix, batch, toReschedule)
      else
        let e := node_entry n in
        let ix' := delete (te_id e) ix in
        let toReschedule' :=
          if te_period e >? 0 then toReschedule ++ [(now + te_period e, e)] else toReschedule in
        let batch' :=
          match te_callback e with Some c => batch ++ [c] | None => batch end in
        collect now l' ix' batch' toReschedule'
  end.

(** [processTimers] up to the execution of the batch. *)
Definition collectTimers (now : Z) (s : EpollLoop) : list Z * EpollLoop :=
  let '(l, ix, batch, rs) := collect now (timersByExpiry_ s) (timerById_ s) [] [] in
  (batch, foldl (λ st p, emplaceTimer p.1 p.2 st) (set_timers l ix s) rs).

(** [getNextTimerTimeout], in milliseconds. *)
Definition getNextTimerTimeout (now : Z) (s : EpollLoop) : Z :=
  match timersByExpiry_ s with
  | [] => 1000
  | n :: _ => if node_key n <=? now then 0 else (node_key n - now) ÷ ns_per_ms
  end.

(** [int timeoutMs = timeout.count();] the argument [run] gives to epoll_wait. *)
Definition epollTimeoutArg (now : Z) (s : EpollLoop) : Z := i32 (getNextTimerTimeout now s).

Definition activeTimers (s : EpollLoop) : nat := size (timerById_ s).
Definition activeFds (s : EpollLoop) : nat := size (fdCallbacks_ s).

(** ** Posting, stopping and descriptors *)

Definition stop (s : EpollLoop) : EpollLoop :=
  let s1 := set_running false s in
  set_posted (postedCallbacks_ s1) (eventCount s1 + 1) s1.

Definition post (callback : option Z) (s : EpollLoop) : EpollLoop :=
  set_posted (postedCallbacks_ s ++ [callback]) (eventCount s + 1) s.

(** [addFd]; [ctl] is whether epoll_ctl(EPOLL_CTL_ADD) succeeded. *)
Definition addFd (ctl : bool) (fd events callback : Z) (s : EpollLoop) : outcome EpollLoop :=
  if negb ctl then Throw RuntimeError
  else Ok (set_fds (<[fd := callback]> (fdCallbacks_ s)) (<[fd := events]> (epollSet s)) s).

(** [modifyFd]; the result of epoll_ctl(EPOLL_CTL_MOD) is ignored. *)
Definition modifyFd (ctl : bool) (fd events : Z) (s : EpollLoop) : EpollLoop :=
  if ctl then set_fds (fdCallbacks_ s) (<[fd := events]> (epollSet s)) s else s.

Definition removeFd (fd : Z) (s : EpollLoop) : EpollLoop :=
  set_fds (delete fd (fdCallbacks_ s)) (delete fd (epollSet s)) s.

(** ** Callbacks *)

(** What callback code can do to the loop: the public operations. *)
Inductive api_step : EpollLoop → EpollLoop → Prop :=
  | api_addTimer s now d c :
      nextTimerId_ s + 1 < 2 ^ 64 → api_step s (addTimer now d c s).2
  | api_addPeriodicTimer s now d c :
      nextTimerId_ s + 1 < 2 ^ 64 → api_step s (addPeriodicTimer now d c s).2
  | api_cancelTimer s id b s' : cancelTimer id s = Some (b, s') → api_step s s'
  | api_post s c : api_step s (post c s)
  | api_stop s : api_step s (stop s)
  | api_addFd s ctl fd ev c s' : addFd ctl fd ev c s = Ok s' → api_step s s'
  | api_modifyFd s ctl fd ev : api_step s (modifyFd ctl fd ev s)
  | api_removeFd s fd : api_step s (removeFd fd s).

(** A call the loop makes: a timer or posted callback, or a descriptor
    callback with the reported event mask. *)
Inductive call :=
  | CallPlain (c : Z)
  | CallFd (c : Z) (event : Z).

(** The program's callbacks: running one changes the loop only through its
    public operations; the flag tells that it threw. *)
Class LoopCallbacks := {
  exec : call → EpollLoop → EpollLoop * bool;
  exec_api c s : rtc api_step s (exec c s).1
}.

Section Iteration.
Context `{!LoopCallbacks}.

(** Calls in order; an exception leaves the rest uncalled. *)
Fixpoint runCalls (cs : list call) (s : EpollLoop) : EpollLoop * bool :=
  match cs with
  | [] => (s, false)
  | c :: cs' => let '(s1, threw) := exec c s in if threw then (s1, true) else runCalls cs' s1
  end.

Definition processTimers (now : Z) (s : EpollLoop) : EpollLoop * bool :=
  let '(batch, s1) := collectTimers now s in runCalls (CallPlain <$> batch) s1.

Definition processPostedCallbacks (s : EpollLoop) : EpollLoop * bool :=
  match postedCallbacks_ s with
  | [] => (s, false)
  | callbacks =>
      runCalls (CallPlain <$> omap (λ c, c) callbacks) (set_posted [] (eventCount s) s)
  end.

(** The loop over the ready descriptors; [eventFd] is drained. *)
Fixpoint dispatchFds (eventFd : Z) (ready : list (Z * Z)) (s : EpollLoop) : EpollLoop * bool :=
  match ready with
  | [] => (s, false)
  | (fd, revents) :: ready' =>
      if fd =? eventFd then dispatchFds eventFd ready' (set_posted (postedCallbacks_ s) 0 s)
      else match fdCallbacks_ s !! fd with
           | None => dispatchFds eventFd ready' s
           | Some c =>
               let '(s1, threw) := exec (CallFd c revents) s in
               if threw then (s1, true) else dispatchFds eventFd ready' s1
           end
  end.

(** What epoll_wait returned. *)
Inductive epoll_result :=
  | Ready (events : list (Z * Z))
  | Interrupted
  | Failed.

(** One pass through the body of [run]'s loop: the new state and whether an
    exception left [run].  [now] is the clock read of [processTimers]. *)
Definition runIteration (eventFd : Z) (r : epoll_result) (now : Z) (s : EpollLoop)
  : EpollLoop * bool :=
  match r with
  | Interrupted => (s, false)
  | Failed => (s, true)
  | Ready events =>
      let '(s1, e1) := processTimers now s in
      if e1 then (s1, true) else
      let '(s2, e2) := dispatchFds eventFd events s1 in
      if e2 then (s2, true) else processPostedCallbacks s2
  end.

(** [run] on the results of its successive waits. *)
Fixpoint runLoop (eventFd : Z) (waits : list (epoll_result * Z)) (s : EpollLoop)
  : EpollLoop * bool :=
  match waits with
  | [] => (s, false)
  | (r, now) :: waits' =>
      if running_ s then
        let '(s1, threw) := runIteration eventFd r now s in
        if threw then (s1, true) else runLoop eventFd waits' s1
      else (s, false)
  end.

Definition run (eventFd : Z) (waits : list (epoll_result * Z)) (s : EpollLoop)
  : EpollLoop * bool :=
  runLoop eventFd waits (set_running true s).

(** [runOnce]: the returned flag, the state and whether it threw. *)
Definition runOnce (eventFd : Z) (r : epoll_result) (now1 now2 : Z) (s : EpollLoop)
  : bool * EpollLoop * bool :=
  match r with
  | Failed => (false, s, false)
  | _ =>
      let events := match r with Ready l => l | _ => [] end in
      let '(s1, e1) :=
        match timersByExpiry_ s with
        | n :: _ => if node_key n <=? now1 then processTimers now2 s else (s, false)
        | [] => (s, false)
        end in
      if e1 then (false, s1, true) else
      let '(s2, e2) := dispatchFds eventFd events s1 in
      if e2 then (false, s2, true) else
      let '(s3, e3) := processPostedCallbacks s2 in
      if e3 then (false, s3, true) else
      (negb (Nat.eqb (length events) 0), s3, false)
  end.

End Iteration.

(** ** The timer-table invariant *)

Definition node_id (n : Node) : Z := te_id (node_entry n).
Definition key_le (a b : Node) : Prop := node_key a <= node_key b.

(** The multimap is ordered, its nodes have distinct addresses and ids, and
    the index maps an id to an address exactly when the multimap holds that
    node: no iterator of the index dangles. *)
Record LoopInv (s : EpollLoop) : Prop := {
  inv_next : 0 < nextTimerId_ s;
  inv_sorted : StronglySorted key_le (timersByExpiry_ s);
  inv_its : NoDup (node_it <$> timersByExpiry_ s);
  inv_its_lt : Forall (λ n, node_it n < nextNode s) (timersByExpiry_ s);
  inv_ids : NoDup (node_id <$> timersByExpiry_ s);
  inv_ids_lt : Forall (λ n, node_id n < nextTimerId_ s) (timersByExpiry_ s);
  inv_index id it :
    timerById_ s !! id = Some it ↔
    ∃ n, n ∈ timersByExpiry_ s ∧ node_it n = it ∧ node_id n = id
}.

Lemma multimap_emplace_perm n l : multimap_emplace n l ≡ₚ n :: l.
Proof.
  induction l as [|m l IH]; simpl; [done|].
  case_match; [done|]. rewrite IH. by apply Permutation_swap.
Qed.

Lemma multimap_emplace_sorted n l :
  StronglySorted key_le l → StronglySorted key_le (multimap_emplace n l).
Proof.
  induction 1 as [|m l Hl IH Hm]; simpl.
  - repeat constructor.
  - case_match; bool_hyps.
    + constructor; [by constructor|]. constructor; [unfold key_le; lia|].
      eapply Forall_impl; [exact Hm|]. unfold key_le; simpl; lia.
    + constructor; [done|]. rewrite multimap_emplace_perm. constructor; [|done].
      unfold key_le; lia.
Qed.

Lemma multimap_erase_perm it l l' :
  multimap_erase it l = Some l' → ∃ n, node_it n = it ∧ l ≡ₚ n :: l'.
Proof.
  revert l'. induction l as [|m l IH]; simpl; [done|]. intros l'.
  case_match; bool_hyps.
  - intros [= <-]. eauto.
  - destruct (multimap_erase it l) as [r|]; simpl; [|done]. intros [= <-].
    destruct (IH r eq_refl) as (n & ? & Hp). exists n. split; [done|].
    rewrite Hp. by apply Permutation_swap.
Qed.

Lemma multimap_erase_sorted it l l' :
  StronglySorted key_le l → multimap_erase it l = Some l' → StronglySorted key_le l'.
Proof.
  intros H. revert l'. induction H as [|m l Hl IH Hm]; simpl; [done|]. intros l'.
  case_match.
  - by intros [= <-].
  - destruct (multimap_erase it l) as [r|] eqn:E; simpl; [|done]. intros [= <-].
    constructor; [by apply IH|].
    destruct (multimap_erase_perm _ _ _ E) as (n & _ & Hp).
    rewrite Hp in Hm. by inversion Hm.
Qed.

Lemma multimap_erase_some it l :
  it ∈ (node_it <$> l) → is_Some (multimap_erase it l).
Proof.
  induction l as [|m l IH]; simpl; [by rewrite elem_of_nil|].
  rewrite elem_of_cons. case_match; bool_hyps; [eauto|].
  intros [?|Hin]; [congruence|]. destruct (IH Hin) as [r ->]. simpl; eauto.
Qed.

(** Adding a node whose id is fresh keeps the table well formed. *)
Lemma emplaceTimer_inv k e s :
  LoopInv s → te_id e ∉ (node_id <$> timersByExpiry_ s) → te_id e < nextTimerId_ s →
  LoopInv (emplaceTimer k e s).
Proof.
  intros [H0 Hs Hi Hil Hd Hdl Hx] Hfresh Hlt.
  assert (Hp := multimap_emplace_perm (MkNode k (nextNode s) e) (timersByExpiry_ s)).
  constructor; simpl; [done|..].
  - by apply multimap_emplace_sorted.
  - rewrite Hp. simpl. constructor; [|done].
    rewrite list_elem_of_fmap. intros (n & Hn & Hin).
    rewrite Forall_forall in Hil. specialize (Hil _ Hin). lia.
  - rewrite Hp. constructor; [simpl; lia|]. eapply Forall_impl; [exact Hil|]. simpl; lia.
  - rewrite Hp. by constructor.
  - rewrite Hp. by constructor.
  - intros id it. rewrite lookup_insert. setoid_rewrite Hp. setoid_rewrite elem_of_cons.
    case_decide as E.
    + subst id. split.
      * intros [= <-]. eexists. split; [by left|done].
      * intros (n & [->|Hin] & <- & Hid); [done|]. exfalso. apply Hfresh.
        rewrite <- Hid. by apply list_elem_of_fmap_2.
    + rewrite Hx. split.
      * intros (n & ? & ? & ?). eauto 10.
      * intros (n & [->|Hin] & ? & Hid); [by destruct E|]. eauto.
Qed.

Lemma addTimer_inv_gen now d c p s :
  LoopInv s → nextTimerId_ s + 1 < 2 ^ 64 →
  LoopInv (emplaceTimer (now + d) (MkTimerEntry (nextTimerId_ s) c p)
            (set_nextTimerId (u64 (nextTimerId_ s + 1)) s)).
Proof.
  intros HI Hw. assert (HI' := HI). destruct HI' as [H0 Hs Hi Hil Hd Hdl Hx].
  unfold u64. rewrite wrap_small by lia. apply emplaceTimer_inv; simpl.
  - constructor; simpl; try done; [lia|]. eapply Forall_impl; [exact Hdl|]. simpl; lia.
  - rewrite list_elem_of_fmap. intros (n & Hn' & Hin).
    rewrite Forall_forall in Hdl. specialize (Hdl _ Hin). lia.
  - lia.
Qed.

(** Removing one node together with its index entry. *)
Lemma remove_node_inv n l s :
  LoopInv s → timersByExpiry_ s ≡ₚ n :: l → StronglySorted key_le l →
  LoopInv (set_timers l (delete (node_id n) (timerById_ s)) s).
Proof.
  intros [H0 Hs Hi Hil Hd Hdl Hx] Hp Hl.
  rewrite Hp in Hi, Hil, Hd, Hdl. simpl in *.
  apply NoDup_cons in Hi as [Hni Hi]. apply NoDup_cons in Hd as [Hnd Hd].
  apply Forall_cons in Hil as [_ Hil]. apply Forall_cons in Hdl as [_ Hdl].
  constructor; simpl; try done. intros id it. rewrite lookup_delete_Some, Hx.
  setoid_rewrite Hp. setoid_rewrite elem_of_cons. split.
  - intros (Hne & m & [->|Hin] & ? & ?); [done|]. eauto.
  - intros (m & Hin & <- & <-). split; [|by eauto].
    intros E. apply Hnd. rewrite E. by apply list_elem_of_fmap_2.
Qed.

Lemma inv_tail n l s :
  LoopInv s → timersByExpiry_ s = n :: l →
  LoopInv (set_timers l (delete (node_id n) (timerById_ s)) s).
Proof.
  intros HI E. apply remove_node_inv; [done|by rewrite E|].
  destruct HI as [_ Hs]. rewrite E in Hs. by inversion Hs.
Qed.

(** Cancelling a live timer never goes through a dangling iterator. *)
Lemma cancelTimer_inv id s :
  LoopInv s → ∃ b s', cancelTimer id s = Some (b, s') ∧ LoopInv s'.
Proof.
  intros HI. unfold cancelTimer. destruct (timerById_ s !! id) as [it|] eqn:E; [|eauto].
  apply HI in E as (n & Hin & Hit & Hid).
  destruct (multimap_erase_some it (timersByExpiry_ s)) as [l Hl].
  { rewrite <- Hit. by apply list_elem_of_fmap_2. }
  rewrite Hl. simpl. eexists _, _. split; [done|].
  destruct (multimap_erase_perm _ _ _ Hl) as (m & Hm & Hp).
  assert (m = n) as ->.
  { assert (Hin' := Hin). rewrite Hp in Hin'. apply elem_of_cons in Hin' as [|Hin']; [done|].
    pose proof (inv_its _ HI) as Hnd. rewrite Hp in Hnd. simpl in Hnd.
    apply NoDup_cons in Hnd as [Hnot _]. destruct Hnot.
    rewrite Hm, <- Hit. by apply list_elem_of_fmap_2. }
  rewrite <- Hid. apply remove_node_inv; [done..|].
  eapply multimap_erase_sorted; [apply HI|done].
Qed.

(** ** What [processTimers] collects *)

Definition due (now : Z) (n : Node) : bool := node_key n <=? now.
Definition rescheduled (now : Z) (l : list Node) : list (Z * TimerEntry) :=
  omap (λ n, if te_period (node_entry n) >? 0
             then Some (now + te_period (node_entry n), node_entry n) else None) l.
Definition callbacks (l : list Node) : list Z := omap (λ n, te_callback (node_entry n)) l.

Lemma collect_spec now l ix b r :
  collect now l ix b r =
  ((span (due now) l).2,
   foldl (λ m n, delete (node_id n) m) ix (span (due now) l).1,
   b ++ callbacks (span (due now) l).1,
   r ++ rescheduled now (span (due now) l).1).
Proof.
  revert ix b r. induction l as [|n l IH]; intros ix b r; simpl; [by rewrite !app_nil_r|].
  assert (Hd : (node_key n >? now) = negb (due now n)).
  { unfold due. by rewrite Z.gtb_ltb, Z.ltb_antisym. }
  rewrite Hd. destruct (due now n); simpl.
  - rewrite IH. destruct (span (due now) l) as [d a]; simpl.
    unfold callbacks, rescheduled; simpl.
    repeat case_match; simpl; rewrite <- ?app_assoc; done.
  - unfold callbacks, rescheduled. by rewrite !app_nil_r.
Qed.

Lemma drop_prefix_inv d a s :
  LoopInv s → timersByExpiry_ s = d ++ a →
  LoopInv (set_timers a (foldl (λ m n, delete (node_id n) m) (timerById_ s) d) s).
Proof.
  revert s. induction d as [|n d IH]; simpl; intros s HI E.
  - rewrite <- E. by destruct s.
  - pose proof (IH _ (inv_tail n (d ++ a) s HI E) eq_refl) as H. exact H.
Qed.

Lemma emplaceTimer_ids k e s :
  (node_id <$> timersByExpiry_ (emplaceTimer k e s)) ≡ₚ te_id e :: (node_id <$> timersByExpiry_ s).
Proof. simpl. by rewrite multimap_emplace_perm. Qed.

Lemma reschedule_inv rs s :
  LoopInv s → NoDup ((λ p, te_id p.2) <$> rs) →
  Forall (λ p, (te_id p.2 ∉ (node_id <$> timersByExpiry_ s)) ∧ te_id p.2 < nextTimerId_ s) rs →
  LoopInv (foldl (λ st p, emplaceTimer p.1 p.2 st) s rs).
Proof.
  revert s. induction rs as [|[k e] rs IH]; simpl; intros s HI Hnd Hf; [done|].
  apply NoDup_cons in Hnd as [Hn Hnd]. apply Forall_cons in Hf as [[Hf1 Hf2] Hf].
  apply IH; [by apply emplaceTimer_inv|done|].
  rewrite Forall_forall in Hf |- *. intros p Hp. destruct (Hf p Hp) as [Ha Hb].
  split; [|done]. rewrite emplaceTimer_ids, elem_of_cons. intros [Heq|]; [|done].
  apply Hn. simpl. rewrite <- Heq. by apply (list_elem_of_fmap_2 (λ p, te_id p.2)).
Qed.

Lemma rescheduled_elem now l p :
  p ∈ rescheduled now l ↔
  ∃ n, n ∈ l ∧ 0 < te_period (node_entry n) ∧
       p = (now + te_period (node_entry n), node_entry n).
Proof.
  unfold rescheduled. rewrite list_elem_of_omap. split.
  - intros (n & Hn & E). case_match; bool_hyps; [|done]. simplify_eq. eauto.
  - intros (n & Hn & Hp & ->). exists n. split; [done|].
    rewrite Z.gtb_ltb. apply Z.ltb_lt in Hp as ->. done.
Qed.

Lemma rescheduled_ids_sublist now l :
  ((λ p, te_id p.2) <$> rescheduled now l) `sublist_of` (node_id <$> l).
Proof.
  induction l as [|n l IH]; simpl; [constructor|]. unfold rescheduled in *. simpl.
  destruct (te_period (node_entry n) >? 0); simpl.
  - by apply sublist_skip.
  - by apply sublist_cons.
Qed.

Lemma due_split now s :
  timersByExpiry_ s =
  (span (due now) (timersByExpiry_ s)).1 ++ (span (due now) (timersByExpiry_ s)).2.
Proof. by rewrite span_app. Qed.

Lemma collectTimers_inv now s : LoopInv s → LoopInv (collectTimers now s).2.
Proof.
  intros HI. unfold collectTimers. rewrite collect_spec. simpl.
  assert (E := due_split now s).
  destruct (span (due now) (timersByExpiry_ s)) as [d a] eqn:Es. simpl in *.
  assert (Hnd := inv_ids _ HI). rewrite E, fmap_app in Hnd.
  apply NoDup_app in Hnd as (Hd & Hdis & _).
  apply reschedule_inv.
  - by apply drop_prefix_inv.
  - by eapply sublist_NoDup, rescheduled_ids_sublist.
  - apply Forall_forall. intros p Hp. apply rescheduled_elem in Hp as (n & Hn & _ & ->).
    simpl. split.
    + apply Hdis. by apply (list_elem_of_fmap_2 node_id).
    + assert (Hl := inv_ids_lt _ HI). rewrite E in Hl.
      rewrite Forall_forall in Hl. apply Hl. apply elem_of_app. by left.
Qed.

(** ** Every operation keeps the invariant *)

Lemma api_step_inv s s' : api_step s s' → LoopInv s → LoopInv s'.
Proof.
  intros Hstep HI. inversion Hstep; subst; try (destruct HI; by constructor).
  - by apply addTimer_inv_gen.
  - by apply addTimer_inv_gen.
  - destruct (cancelTimer_inv id s HI) as (b' & s'' & E & ?). simplify_eq/=. congruence.
  - unfold addFd in *. destruct ctl; simplify_eq/=. destruct HI; by constructor.
  - unfold modifyFd. destruct ctl; [|done]. destruct HI; by constructor.
Qed.

Section IterationInv.
Context `{!LoopCallbacks}.

Lemma exec_inv c s : LoopInv s → LoopInv (exec c s).1.
Proof. intros HI. eapply rtc_invariant; [apply api_step_inv|apply exec_api|done]. Qed.

Lemma runCalls_inv cs s : LoopInv s → LoopInv (runCalls cs s).1.
Proof.
  revert s. induction cs as [|c cs IH]; simpl; intros s HI; [done|].
  pose proof (exec_inv c s HI). destruct (exec c s) as [s1 []]; simpl in *; auto.
Qed.

Lemma processTimers_inv now s : LoopInv s → LoopInv (processTimers now s).1.
Proof.
  intros HI. unfold processTimers. pose proof (collectTimers_inv now s HI) as HI'.
  destruct (collectTimers now s) as [b s1]. by apply runCalls_inv.
Qed.

Lemma processPostedCallbacks_inv s : LoopInv s → LoopInv (processPostedCallbacks s).1.
Proof.
  intros HI. unfold processPostedCallbacks. destruct (postedCallbacks_ s); [done|].
  apply runCalls_inv. destruct HI; by constructor.
Qed.

Lemma dispatchFds_inv fd ready s : LoopInv s → LoopInv (dispatchFds fd ready s).1.
Proof.
  revert s. induction ready as [|[f ev] r IH]; simpl; intros s HI; [done|].
  case_match; [apply IH; destruct HI; by constructor|].
  case_match; [|by apply IH]. pose proof (exec_inv (CallFd z ev) s HI).
  destruct (exec _ s) as [s1 []]; simpl in *; auto.
Qed.
#[local] Hint Resolve processTimers_inv dispatchFds_inv processPostedCallbacks_inv : core.

Lemma runIteration_inv fd r now s : LoopInv s → LoopInv (runIteration fd r now s).1.
Proof.
  intros HI. destruct r; simpl; try done.
  pose proof (processTimers_inv now s HI) as H1.
  destruct (processTimers now s) as [s1 []]; simpl in *; [done|].
  pose proof (dispatchFds_inv fd events s1 H1) as H2.
  destruct (dispatchFds fd events s1) as [s2 []]; simpl in *; [done|]. auto.
Qed.

Lemma run_inv fd waits s : LoopInv s → LoopInv (run fd waits s).1.
Proof.
  intros HI. unfold run.
  assert (Hr : LoopInv (set_running true s)) by (destruct HI; by constructor).
  revert Hr. generalize (set_running true s). clear HI s.
  induction waits as [|[r now] w IH]; simpl; intros s HI; [done|].
  case_match; [|done]. pose proof (runIteration_inv fd r now s HI).
  destruct (runIteration fd r now s) as [s1 []]; simpl in *; auto.
Qed.

Lemma runOnce_inv fd r now1 now2 s : LoopInv s → LoopInv (runOnce fd r now1 now2 s).1.2.
Proof.
  intros HI. unfold runOnce. destruct r as [ev| |]; [| |done].
  all: set (t := match timersByExpiry_ s with [] => _ | _ => _ end);
    assert (H1 : LoopInv t.1) by (subst t; repeat case_match; simpl; auto);
    destruct t as [s1 []]; simpl in *; [done|].
  - pose proof (dispatchFds_inv fd ev s1 H1) as H2.
    destruct (dispatchFds fd ev s1) as [s2 []]; simpl in *; [done|].
    pose proof (processPostedCallbacks_inv s2 H2).
    destruct (processPostedCallbacks s2) as [s3 []]; done.
  - pose proof (processPostedCallbacks_inv s1 H1).
    destruct (processPostedCallbacks s1) as [s3 []]; done.
Qed.

End IterationInv.

(** ** Reachable states *)

Inductive loop_step `{!LoopCallbacks} : EpollLoop → EpollLoop → Prop :=
  | step_api s s' : api_step s s' → loop_step s s'
  | step_run fd waits s : loop_step s (run fd waits s).1
  | step_runOnce fd r now1 now2 s : loop_step s (runOnce fd r now1 now2 s).1.2.

Lemma initLoop_inv : LoopInv initLoop.
Proof.
  constructor; [done|apply SSorted_nil|apply NoDup_nil_2|by apply Forall_nil|
    apply NoDup_nil_2|by apply Forall_nil|].
  intros id it. simpl. rewrite lookup_empty. split; [done|].
  intros (n & Hn & _). by apply elem_of_nil in Hn.
Qed.

Lemma loop_step_inv `{!LoopCallbacks} s s' : loop_step s s' → LoopInv s → LoopInv s'.
Proof.
  intros [] HI; [by eapply api_step_inv|by apply run_inv|by apply runOnce_inv].
Qed.

(** A sample program: callback 1 adds a 5 ns timer for callback 2, callback 2
    posts callback 1, every other callback stops the loop. *)
Definition sampleExec (c : call) (s : EpollLoop) : EpollLoop * bool :=
  match c with
  | CallPlain 1 =>
      if nextTimerId_ s + 1 <? 2 ^ 64 then ((addTimer 0 5 (Some 2) s).2, false) else (s, true)
  | CallPlain 2 => (post (Some 1) s, false)
  | _ => (stop s, false)
  end.

Lemma sampleExec_api c s : rtc api_step s (sampleExec c s).1.
Proof.
  unfold sampleExec. repeat case_match; simpl; try apply rtc_refl;
    apply rtc_once; bool_hyps; constructor; lia.
Qed.

#[export] Instance sampleCallbacks : LoopCallbacks :=
  { exec := sampleExec; exec_api := sampleExec_api }.

(** ** Contents of the table after a batch *)

Lemma foldl_emplace_elem rs s k e :
  (∃ n, n ∈ timersByExpiry_ (foldl (λ st p, emplaceTimer p.1 p.2 st) s rs) ∧
        node_key n = k ∧ node_entry n = e) ↔
  (k, e) ∈ rs ∨ ∃ n, n ∈ timersByExpiry_ s ∧ node_key n = k ∧ node_entry n = e.
Proof.
  revert s. induction rs as [|[k' e'] rs IH]; simpl; intros s.
  { rewrite elem_of_nil. tauto. }
  rewrite IH. setoid_rewrite multimap_emplace_perm. setoid_rewrite elem_of_cons. split.
  - intros [?|(n & [->|?] & ? & ?)]; simplify_eq/=; eauto 10.
  - intros [[?|?]|(n & ? & ? & ?)]; simplify_eq/=; eauto 10.
Qed.

Lemma span_sorted_due now l n :
  StronglySorted key_le l →
  (n ∈ (span (due now) l).1 ↔ n ∈ l ∧ node_key n <= now) ∧
  (n ∈ (span (due now) l).2 ↔ n ∈ l ∧ now < node_key n).
Proof.
  induction 1 as [|m l Hs IH Hm]; simpl.
  { rewrite elem_of_nil. tauto. }
  unfold due at 1 3. destruct (node_key m <=? now) eqn:E; bool_hyps.
  - destruct (span (due now) l); simpl in *. rewrite !elem_of_cons.
    destruct IH as [IH1 IH2]. rewrite IH1, IH2. split; [naive_solver|].
    split; [naive_solver|]. intros [[->|?] ?]; [lia|done].
  - rewrite Forall_forall in Hm. simpl. rewrite elem_of_nil, elem_of_cons.
    assert (∀ x, x ∈ l → now < node_key x).
    { intros x Hx. specialize (Hm x Hx). unfold key_le in Hm. lia. }
    split; [|naive_solver]. split; [done|]. intros [[->|Hin] ?]; [lia|].
    specialize (H _ Hin). lia.
Qed.

Lemma span_sorted_filter now l :
  StronglySorted key_le l →
  (span (due now) l).1 = filter (λ n, node_key n <= now) l.
Proof.
  induction 1 as [|m l Hs IH Hm]; simpl; [done|].
  unfold due at 1. rewrite filter_cons. destruct (node_key m <=? now) eqn:E; bool_hyps.
  - rewrite decide_True by done. destruct (span (due now) l); simpl in *. by rewrite IH.
  - rewrite decide_False by lia. symmetry. simpl.
    clear IH Hs.
    induction Hm as [|x l Hx _ IH']; [done|]. rewrite filter_cons, decide_False; [done|].
    unfold key_le in Hx. lia.
Qed.

(** C1: In every state the epoll loop can reach, through its public operations,
    [run] and [runOnce] and whatever its callbacks do through those
    operations, the timer multimap is ordered by expiry, ids and nodes are
    unique and the id index and the multimap hold exactly the same timers; so
    [cancelTimer] never erases through a dangling iterator. *)
Theorem epoll_reachable_safe `{!LoopCallbacks} s :
  rtc loop_step initLoop s → LoopInv s ∧ ∀ id, cancelTimer id s ≠ None.
Proof.
  intros Hr. assert (HI : LoopInv s).
  { eapply rtc_invariant; [apply loop_step_inv|done|apply initLoop_inv]. }
  split; [done|]. intros id. destruct (cancelTimer_inv id s HI) as (b & s' & E & _). congruence.
Qed.

Lemma epoll_reachable_safe_witness :
  let s := (run 3 [(Ready [], 10); (Ready [(3, 1)], 20)] (addTimer 0 7 (Some 1) initLoop).2).1 in
  activeTimers s = 1%nat ∧ LoopInv s ∧ ∀ id, cancelTimer id s ≠ None.
Proof.
  split; [vm_compute; reflexivity|]. apply epoll_reachable_safe.
  eapply rtc_l; [apply step_api, api_addTimer; vm_compute; reflexivity|].
  apply rtc_once, step_run.
Defined.

(** The batch of [processTimers] and the timers it leaves. *)
Lemma collectTimers_batch now s :
  LoopInv s →
  (collectTimers now s).1 =
    callbacks (filter (λ n, node_key n <= now) (timersByExpiry_ s)) ∧
  ∀ k e,
    (∃ n, n ∈ timersByExpiry_ (collectTimers now s).2 ∧ node_key n = k ∧ node_entry n = e) ↔
    (∃ n, n ∈ timersByExpiry_ s ∧ node_entry n = e ∧
       ((now < node_key n ∧ k = node_key n) ∨
        (node_key n <= now ∧ 0 < te_period e ∧ k = now + te_period e))).
Proof.
  intros HI. pose proof (inv_sorted _ HI) as Hs. unfold collectTimers.
  rewrite collect_spec. simpl. split; [by rewrite span_sorted_filter|]. intros k e.
  rewrite foldl_emplace_elem, rescheduled_elem. simpl.
  setoid_rewrite (λ n, proj1 (span_sorted_due now _ n Hs)).
  setoid_rewrite (λ n, proj2 (span_sorted_due now _ n Hs)). split.
  - intros [(n & [? ?] & ? & E)|(n & [? ?] & ? & ?)]; simplify_eq; eauto 10.
  - intros (n & Hn & <- & [[? ->]|(? & ? & ->)]); [right|left]; eauto 10.
Qed.

(** One timer pass fires exactly the timers whose expiry has passed, in the
    order of the table; afterwards every timer left is in the future, a
    one-shot timer that fired is gone, and a periodic one is back under its id
    at [now + period]. *)
Theorem collectTimers_spec now s :
  LoopInv s →
  (collectTimers now s).1 =
    callbacks (filter (λ n, node_key n <= now) (timersByExpiry_ s)) ∧
  ∀ k e,
    (∃ n, n ∈ timersByExpiry_ (collectTimers now s).2 ∧ node_key n = k ∧ node_entry n = e) ↔
    (∃ n, n ∈ timersByExpiry_ s ∧ node_entry n = e ∧
       ((now < node_key n ∧ k = node_key n) ∨
        (node_key n <= now ∧ 0 < te_period e ∧ k = now + te_period e))).
Proof. apply collectTimers_batch. Qed.

Lemma collectTimers_spec_witness :
  let s := (addPeriodicTimer 0 3 (Some 8) (addTimer 0 9 (Some 7) initLoop).2).2 in
  LoopInv s ∧ (collectTimers 5 s).1 = [8] ∧
  (∃ n, n ∈ timersByExpiry_ (collectTimers 5 s).2 ∧ node_key n = 8 ∧
        node_entry n = MkTimerEntry 2 (Some 8) 3).
Proof.
  assert (HI : LoopInv (addPeriodicTimer 0 3 (Some 8) (addTimer 0 9 (Some 7) initLoop).2).2).
  { eapply api_step_inv; [apply api_addPeriodicTimer; vm_compute; reflexivity|].
    eapply api_step_inv; [apply api_addTimer; vm_compute; reflexivity|]. apply initLoop_inv. }
  split; [exact HI|]. split.
  - rewrite (proj1 (collectTimers_spec 5 _ HI)). vm_compute. reflexivity.
  - apply (proj2 (collectTimers_spec 5 _ HI)). eexists. split; [left|].
    split; [reflexivity|]. right. simpl. lia.
Defined.

(** [cancelTimer] answers true exactly for a live timer, and removes that
    timer and no other; a second cancel of the same id answers false. *)
Theorem cancelTimer_spec id s :
  LoopInv s →
  ∃ s', cancelTimer id s = Some (bool_decide (id ∈ (node_id <$> timersByExpiry_ s)), s') ∧
        (∀ n, n ∈ timersByExpiry_ s' ↔ n ∈ timersByExpiry_ s ∧ node_id n ≠ id) ∧
        cancelTimer id s' = Some (false, s').
Proof.
  intros HI. destruct (cancelTimer_inv id s HI) as (b & s' & E & HI').
  assert (Hb : b = bool_decide (id ∈ (node_id <$> timersByExpiry_ s)) ∧
    (∀ n, n ∈ timersByExpiry_ s' ↔ n ∈ timersByExpiry_ s ∧ node_id n ≠ id)).
  { unfold cancelTimer in E. destruct (timerById_ s !! id) as [it|] eqn:Eit; simplify_eq.
    - destruct (multimap_erase it _) as [l|] eqn:El; simplify_eq/=.
      apply HI in Eit as (n & Hin & Hit & Hid). split.
      { symmetry. apply bool_decide_eq_true. rewrite <- Hid. by apply list_elem_of_fmap_2. }
      destruct (multimap_erase_perm _ _ _ El) as (m & Hm & Hp).
      pose proof (inv_ids _ HI) as Hnd. pose proof (inv_its _ HI) as Hni.
      rewrite Hp in Hnd, Hni, Hin. simpl in *. apply NoDup_cons in Hnd as [Hnd _].
      apply NoDup_cons in Hni as [Hni _].
      assert (n = m) as ->.
      { apply elem_of_cons in Hin as [|Hin]; [done|]. destruct Hni.
        rewrite Hm, <- Hit. by apply list_elem_of_fmap_2. }
      intros x. rewrite Hp, elem_of_cons. split; [|by intros [[->|] ?]; [congruence|]].
      intros Hx. split; [by right|]. intros <-. apply Hnd. rewrite Hid.
      by apply (list_elem_of_fmap_2 node_id).
    - assert (Hno : id ∉ (node_id <$> timersByExpiry_ s')).
      { rewrite list_elem_of_fmap. intros (n & -> & Hn).
        assert (timerById_ s' !! node_id n = Some (node_it n)) by (apply HI; eauto). congruence. }
      split; [by rewrite bool_decide_eq_false_2|]. intros n. split; [|tauto].
      intros Hn. split; [done|]. intros <-. apply Hno. by apply list_elem_of_fmap_2. }
  destruct Hb as [-> Hrem]. exists s'. split; [done|]. split; [done|].
  unfold cancelTimer. destruct (timerById_ s' !! id) as [it|] eqn:Eit; [|done].
  apply HI' in Eit as (n & Hn & _ & Hid). apply Hrem in Hn as [_ ?]. done.
Qed.

Lemma cancelTimer_spec_witness :
  let s := (addTimer 0 9 (Some 7) initLoop).2 in
  LoopInv s ∧ ∃ s', cancelTimer 1 s = Some (true, s') ∧ timersByExpiry_ s' = [].
Proof.
  assert (HI : LoopInv (addTimer 0 9 (Some 7) initLoop).2).
  { eapply api_step_inv; [apply api_addTimer; vm_compute; reflexivity|]. apply initLoop_inv. }
  split; [exact HI|]. destruct (cancelTimer_spec 1 _ HI) as (s' & E & _).
  exists s'. split; [exact E|]. vm_compute in E. injection E as <-. reflexivity.
Defined.

(** C39: The timeout [run] computes is 1 s without timers, 0 when a timer is due,
    and otherwise never past the next expiry and less than one millisecond
    short of it; the value handed to epoll_wait is that number as long as the
    next expiry is less than 2^31 ms away.  A timer 2^31 ms away makes the
    narrowed argument negative, which epoll_wait reads as "no timeout". *)
Theorem epollTimeout_bounds now s :
  (timersByExpiry_ s = [] → epollTimeoutArg now s = 1000) ∧
  (∀ n l, timersByExpiry_ s = n :: l →
     (node_key n <= now → epollTimeoutArg now s = 0) ∧
     (now < node_key n < now + 2 ^ 31 * ns_per_ms →
        let t := epollTimeoutArg now s in
        0 <= t ∧ now + t * ns_per_ms <= node_key n < now + (t + 1) * ns_per_ms)) ∧
  epollTimeoutArg 0 (addTimer 0 (2 ^ 31 * ns_per_ms) None initLoop).2 < 0.
Proof.
  unfold epollTimeoutArg, getNextTimerTimeout.
  split; [by intros ->|]. split; [|vm_compute; done].
  intros n l ->. split; intros H.
  - destruct (Z.leb_spec (node_key n) now); [done|lia].
  - destruct (Z.leb_spec (node_key n) now); [lia|]. unfold ns_per_ms in *.
    pose proof (Z_quot_bounds (node_key n - now) 1000000 ltac:(lia) ltac:(lia)) as Hq.
    rewrite i32_small by lia. lia.
Qed.

(** The masks [addFd] and [modifyFd] register are the [Event] bits as they
    are, which are not the kernel's: a registration for [Event::Write] (or for
    Read and Write) never asks for EPOLLOUT, [Event::Error] is the bit of
    EPOLLOUT and [Event::HangUp] that of EPOLLERR; only [Event::Read] is
    EPOLLIN. *)
Theorem addFd_mask_mismatch fd c s s' :
  addFd true fd Event_Write c s = Ok s' →
  (∃ m, epollSet s' !! fd = Some m ∧ Z.land m EPOLLOUT = 0) ∧
  (∃ m, epollSet (modifyFd true fd (Event_or Event_Read Event_Write) s') !! fd = Some m ∧
        Z.land m EPOLLOUT = 0 ∧ Z.land m EPOLLIN = EPOLLIN) ∧
  Event_Read = EPOLLIN ∧ Event_Error = EPOLLOUT ∧ Event_HangUp = EPOLLERR.
Proof.
  unfold addFd. simpl. intros [= <-]. simpl. split_and!; try reflexivity.
  - exists Event_Write. by rewrite lookup_insert_eq.
  - exists (Event_or Event_Read Event_Write). by rewrite lookup_insert_eq.
Qed.

Lemma addFd_mask_mismatch_witness :
  ∃ s', addFd true 5 Event_Write 1 initLoop = Ok s' ∧
        ∃ m, epollSet s' !! 5 = Some m ∧ Z.land m EPOLLOUT = 0.
Proof.
  eexists. split; [reflexivity|].
  exact (proj1 (addFd_mask_mismatch 5 1 initLoop _ eq_refl)).
Defined.
