(* ===== verification/IoUringLoop.v ===== *)
(** * The io_uring event loop (src/src/async/io_uring_loop.cpp)

    The timer table and the posted-callback queue are the code of the epoll
    loop again, on the same containers; they are its definitions lifted to
    this loop's state.  What is new is the pair of rings shared with the
    kernel: 32-bit free-running indices masked into power-of-two arrays.  The
    kernel's side of io_uring_enter is an argument of the loop body. *)

From S2P Require Import Prelude EpollLoop.

(** ** Data *)

Record Sqe := MkSqe { sqe_opcode : Z; sqe_timeout : Z * Z; sqe_len : Z; sqe_user_data : Z }.
Record Cqe := MkCqe { cqe_user_data : Z; cqe_res : Z }.

(** [struct IoUringState]: the shared ring memory. *)
Record Ring := MkRing {
  sq_head : Z;
  sq_tail : Z;
  sq_entries : Z;
  sq_mask : Z;
  sq_array : gmap Z Z;
  sqes : gmap Z Sqe;
  cq_head : Z;
  cq_tail : Z;
  cq_mask : Z;
  cqes : gmap Z Cqe
}.

Record IoUringLoop := MkIoUringLoop {
  core : EpollLoop;                       (* running_, timers, posted callbacks *)
  ring_ : Ring;
  userDataCallbacks_ : gmap Z Z;
  timerOpPending_ : bool;
  currentTimeout_ : Z * Z;
  sqPendingCount_ : Z
}.

Definition with_core (c : EpollLoop) (s : IoUringLoop) : IoUringLoop :=
  MkIoUringLoop c (ring_ s) (userDataCallbacks_ s) (timerOpPending_ s) (currentTimeout_ s)
    (sqPendingCount_ s).

Definition IORING_OP_TIMEOUT : Z := 11.
Definition IORING_ENTER_GETEVENTS : Z := 1.
Definition EINTR : Z := 4.
Definition ETIME : Z := 62.

(** ** Timers and posting *)

Definition uring_addTimer (now d : Z) (cb : option Z) (s : IoUringLoop) : Z * IoUringLoop :=
  let '(id, c) := addTimer now d cb (core s) in (id, with_core c s).
Definition uring_addPeriodicTimer (now p : Z) (cb : option Z) (s : IoUringLoop) : Z * IoUringLoop :=
  let '(id, c) := addPeriodicTimer now p cb (core s) in (id, with_core c s).
Definition uring_cancelTimer (id : Z) (s : IoUringLoop) : option (bool * IoUringLoop) :=
  '(b, c) ← cancelTimer id (core s); Some (b, with_core c s).
Definition uring_stop (s : IoUringLoop) : IoUringLoop := with_core (stop (core s)) s.
Definition uring_post (cb : option Z) (s : IoUringLoop) : IoUringLoop :=
  with_core (post cb (core s)) s.

(** ** The submission ring *)

(** [getSqe]: the slot index, or [None] when the queue is full. *)
Definition getSqe (s : IoUringLoop) : option Z * IoUringLoop :=
  let r := ring_ s in
  let head := sq_head r in
  let tail := sq_tail r in
  if u32 (tail - head) >=? sq_entries r then (None, s)
  else
    let index := Z.land tail (sq_mask r) in
    let r' := MkRing head (u32 (tail + 1)) (sq_entries r) (sq_mask r)
                (<[index := index]> (sq_array r)) (sqes r)
                (cq_head r) (cq_tail r) (cq_mask r) (cqes r) in
    (Some index,
     MkIoUringLoop (core s) r' (userDataCallbacks_ s) (timerOpPending_ s) (currentTimeout_ s)
       (u32 (sqPendingCount_ s + 1))).

Definition write_sqe (index : Z) (e : Sqe) (s : IoUringLoop) : IoUringLoop :=
  let r := ring_ s in
  MkIoUringLoop (core s)
    (MkRing (sq_head r) (sq_tail r) (sq_entries r) (sq_mask r) (sq_array r)
       (<[index := e]> (sqes r)) (cq_head r) (cq_tail r) (cq_mask r) (cqes r))
    (userDataCallbacks_ s) (timerOpPending_ s) (currentTimeout_ s) (sqPendingCount_ s).

Definition submitTimerOp (now : Z) (s : IoUringLoop) : IoUringLoop :=
  match timersByExpiry_ (core s) with
  | [] => s
  | n :: _ =>
      if timerOpPending_ s then s
      else if node_key n <=? now then s
      else
        let ns := node_key n - now in
        let ts := (ns ÷ ns_per_s, Z.rem ns ns_per_s) in
        let s1 := MkIoUringLoop (core s) (ring_ s) (userDataCallbacks_ s) (timerOpPending_ s)
                    ts (sqPendingCount_ s) in
        let '(sqe, s2) := getSqe s1 in
        match sqe with
        | None => s2
        | Some index =>
            let s3 := write_sqe index (MkSqe IORING_OP_TIMEOUT ts 1 0) s2 in
            MkIoUringLoop (core s3) (ring_ s3) (userDataCallbacks_ s3) true
              (currentTimeout_ s3) (sqPendingCount_ s3)
        end
  end.

(** ** The completion ring and the loop *)

Section Loop.
Context `{!LoopCallbacks}.

(** The [while (head != tail)] loop of [processCqes], with the ring index that
    it has reached; [fuel] bounds the number of completions. *)
Fixpoint cqeLoop (fuel : nat) (head : Z) (s : IoUringLoop) : Z * IoUringLoop * bool :=
  if head =? cq_tail (ring_ s) then (head, s, false)
  else match fuel with
  | O => (head, s, false)
  | S fuel' =>
      let cqe := default (MkCqe 0 0) (cqes (ring_ s) !! Z.land head (cq_mask (ring_ s))) in
      if cqe_user_data cqe =? 0 then
        cqeLoop fuel' (u32 (head + 1))
          (MkIoUringLoop (core s) (ring_ s) (userDataCallbacks_ s) false (currentTimeout_ s)
             (sqPendingCount_ s))
      else match userDataCallbacks_ s !! cqe_user_data cqe with
           | None => cqeLoop fuel' (u32 (head + 1)) s
           | Some c =>
               let '(c1, threw) := exec (CallFd c (cqe_res cqe)) (core s) in
               let s1 := MkIoUringLoop c1 (ring_ s)
                           (delete (cqe_user_data cqe) (userDataCallbacks_ s))
                           (timerOpPending_ s) (currentTimeout_ s) (sqPendingCount_ s) in
               if threw then (head, with_core c1 s, true)
               else cqeLoop fuel' (u32 (head + 1)) s1
           end
  end.

Definition set_cq_head (h : Z) (s : IoUringLoop) : IoUringLoop :=
  let r := ring_ s in
  MkIoUringLoop (core s)
    (MkRing (sq_head r) (sq_tail r) (sq_entries r) (sq_mask r) (sq_array r) (sqes r)
       h (cq_tail r) (cq_mask r) (cqes r))
    (userDataCallbacks_ s) (timerOpPending_ s) (currentTimeout_ s) (sqPendingCount_ s).

(** [processCqes]; the number of completions is the index distance. *)
Definition processCqes (s : IoUringLoop) : IoUringLoop * bool :=
  let r := ring_ s in
  let fuel := Z.to_nat (u32 (cq_tail r - cq_head r)) in
  let '(head, s1, threw) := cqeLoop fuel (cq_head r) s in
  if threw then (s1, true) else (set_cq_head head s1, false).

Definition uring_processTimers (now : Z) (s : IoUringLoop) : IoUringLoop * bool :=
  let '(c, threw) := processTimers now (core s) in (with_core c s, threw).
Definition uring_processPosted (s : IoUringLoop) : IoUringLoop * bool :=
  let '(c, threw) := processPostedCallbacks (core s) in (with_core c s, threw).

(** [io_uring_enter(fd, to_submit, min_complete, flags)]: the ring the kernel
    leaves and the error number ([None]: success). *)
Definition kernel_t : Type := Z → Z → Z → Ring → Ring * option Z.

(** How one pass of [run]'s body ended. *)
Inductive pass := Again | Break | Raised.

Definition with_ring (r : Ring) (n : Z) (s : IoUringLoop) : IoUringLoop :=
  MkIoUringLoop (core s) r (userDataCallbacks_ s) (timerOpPending_ s) (currentTimeout_ s) n.

Definition uring_runIteration (kernel : kernel_t) (now1 now2 : Z) (s : IoUringLoop)
  : IoUringLoop * pass :=
  let '(s1, e1) := uring_processTimers now1 s in
  if e1 then (s1, Raised) else
  let s2 := submitTimerOp now2 s1 in
  let to_submit := sqPendingCount_ s2 in
  let wait := (to_submit >? 0) || timerOpPending_ s2 in
  let flags := if wait then IORING_ENTER_GETEVENTS else 0 in
  let min_complete := if wait then 1 else 0 in
  let '(r, err) := kernel to_submit min_complete flags (ring_ s2) in
  let s3 := with_ring r 0 s2 in
  if match err with Some e => negb (e =? EINTR) && negb (e =? ETIME) | None => false end
  then (s3, Raised) else
  let '(s4, e4) := processCqes s3 in
  if e4 then (s4, Raised) else
  let '(s5, e5) := uring_processPosted s4 in
  if e5 then (s5, Raised) else
  match timersByExpiry_ (core s5), postedCallbacks_ (core s5), timerOpPending_ s5 with
  | [], [], false => (s5, Break)
  | _, _, _ => (s5, Again)
  end.

(** [run] over the clock readings of its successive passes; whether it threw.
    Leaving by [break] keeps [running_]. *)
Fixpoint uring_runLoop (kernel : kernel_t) (clocks : list (Z * Z)) (s : IoUringLoop) : IoUringLoop * bool :=
  match clocks with
  | [] => (s, false)
  | (now1, now2) :: clocks' =>
      if running_ (core s) then
        match uring_runIteration kernel now1 now2 s with
        | (s1, Again) => uring_runLoop kernel clocks' s1
        | (s1, Break) => (s1, false)
        | (s1, Raised) => (s1, true)
        end
      else (s, false)
  end.

Definition uring_run (kernel : kernel_t) (clocks : list (Z * Z)) (s : IoUringLoop) : IoUringLoop * bool :=
  uring_runLoop kernel clocks (with_core (set_running true (core s)) s).

Definition uring_runOnce (kernel : kernel_t) (now1 now2 : Z) (s : IoUringLoop)
  : option bool * IoUringLoop :=
  let '(s1, e1) := uring_processTimers now1 s in
  if e1 then (None, s1) else
  let s2 := submitTimerOp now2 s1 in
  let '(r, err) := kernel (sqPendingCount_ s2) 1 IORING_ENTER_GETEVENTS (ring_ s2) in
  let s3 := with_ring r 0 s2 in
  if match err with Some e => negb (e =? EINTR) && negb (e =? ETIME) | None => false end
  then (Some false, s3) else
  let '(s4, e4) := processCqes s3 in
  if e4 then (None, s4) else
  let '(s5, e5) := uring_processPosted s4 in
  if e5 then (None, s5) else (Some true, s5).

End Loop.

(** ** Ring invariant *)

(** The sizes io_uring_setup guarantees (powers of two, mask one less) and
    indices that are at most one ring apart. *)
Definition SqInv (r : Ring) : Prop :=
  ∃ k, 0 <= k <= 31 ∧ sq_entries r = 2 ^ k ∧ sq_mask r = 2 ^ k - 1 ∧
       0 <= sq_tail r < 2 ^ 32 ∧ u32 (sq_tail r - sq_head r) <= sq_entries r.

(** The array slots the kernel has not consumed yet. *)
Definition pending_slot (r : Ring) (i : Z) : Prop :=
  ∃ j, 0 <= j < u32 (sq_tail r - sq_head r) ∧ i = Z.land (u32 (sq_head r + j)) (sq_mask r).

Lemma u32_mod_pow2 x k : 0 <= k <= 32 → u32 x mod 2 ^ k = x mod 2 ^ k.
Proof.
  intros Hk. unfold u32, wrap. apply Z.mod_mod_divide.
  exists (2 ^ (32 - k)). rewrite <- Z.pow_add_r by lia. f_equal. lia.
Qed.

Lemma land_mask x k : 0 <= k → Z.land x (2 ^ k - 1) = x mod 2 ^ k.
Proof.
  intros Hk. rewrite <- Z.land_ones by lia. f_equal. rewrite Z.ones_equiv. lia.
Qed.

Lemma land_u32_mask x k : 0 <= k <= 32 → Z.land (u32 x) (2 ^ k - 1) = x mod 2 ^ k.
Proof. intros Hk. rewrite land_mask by lia. by apply u32_mod_pow2. Qed.

Lemma slot_distinct h t j k :
  0 <= k <= 31 → 0 <= j < u32 (t - h) → u32 (t - h) < 2 ^ k →
  (h + j) mod 2 ^ k ≠ t mod 2 ^ k.
Proof.
  intros Hk Hj Hd Heq.
  assert (Ht : t mod 2 ^ k = (h + u32 (t - h)) mod 2 ^ k).
  { rewrite Z.add_mod, u32_mod_pow2 by lia. rewrite <- Z.add_mod by lia. f_equal. lia. }
  rewrite Ht in Heq. set (d := u32 (t - h)) in *.
  assert (Hz : (d - j) mod 2 ^ k = 0).
  { replace (d - j) with ((h + d) - (h + j)) by lia.
    rewrite Zminus_mod, Heq, Z.sub_diag. apply Z.mod_0_l. lia. }
  rewrite Z.mod_small in Hz by lia. lia.
Qed.

Lemma u32_succ_dist h t :
  u32 (t - h) < 2 ^ 31 → u32 (u32 (t + 1) - h) = u32 (t - h) + 1.
Proof.
  intros Hd. unfold u32, wrap in *. rewrite Zminus_mod_idemp_l.
  replace (t + 1 - h) with ((t - h) + 1) by lia.
  rewrite <- Zplus_mod_idemp_l. apply Z.mod_small.
  pose proof (Z.mod_pos_bound (t - h) (2 ^ 32)). lia.
Qed.

Lemma getSqe_inv s : SqInv (ring_ s) → SqInv (ring_ (getSqe s).2).
Proof.
  intros (k & Hk & He & Hm & Ht & Hd). unfold getSqe.
  destruct (_ >=? _) eqn:E; bool_hyps; simpl; [by exists k|].
  rewrite He in *. assert (2 ^ k <= 2 ^ 31) by (apply Z.pow_le_mono_r; lia).
  exists k. simpl. rewrite u32_succ_dist by lia. repeat split; try done; try lia.
  all: pose proof (wrap_range 32 (sq_tail (ring_ s) + 1)); unfold u32; lia.
Qed.

Lemma submitTimerOp_inv now s : SqInv (ring_ s) → SqInv (ring_ (submitTimerOp now s)).
Proof.
  intros HI. unfold submitTimerOp. destruct (timersByExpiry_ (core s)); [done|].
  case_match; [done|]. case_match; [done|].
  match goal with |- context [getSqe ?x] =>
    pose proof (getSqe_inv x HI) as Hg; destruct (getSqe x) as [[i|] s2] end; done.
Qed.

Lemma submitTimerOp_core now s : core (submitTimerOp now s) = core s.
Proof.
  unfold submitTimerOp, getSqe. repeat case_match; simplify_eq/=; try done.
Qed.

(** ** Completions *)

(** The completions between [head] and the tail, oldest first. *)
Definition completion (r : Ring) (i : Z) : Cqe :=
  default (MkCqe 0 0) (cqes r !! Z.land (u32 i) (cq_mask r)).
Fixpoint completions (r : Ring) (head : Z) (n : nat) : list Cqe :=
  match n with
  | O => []
  | S n' => completion r head :: completions r (u32 (head + 1)) n'
  end.
Definition is_timer_completion (c : Cqe) : bool := cqe_user_data c =? 0.

Lemma u32_dist_succ h t :
  0 <= h < 2 ^ 32 → 0 <= t < 2 ^ 32 → h ≠ t →
  u32 (t - h) = 1 + u32 (t - u32 (h + 1)).
Proof.
  intros Hh Ht Hne. unfold u32, wrap. rewrite Zminus_mod_idemp_r.
  destruct (Z.lt_trichotomy h t) as [H|[H|H]]; [|lia|].
  - rewrite !Z.mod_small by lia. lia.
  - rewrite <- (Z.mod_unique (t - h) (2 ^ 32) (-1) (t - h + 2 ^ 32)) by lia.
    rewrite <- (Z.mod_unique (t - (h + 1)) (2 ^ 32) (-1) (t - (h + 1) + 2 ^ 32)) by lia. lia.
Qed.

Section Cqes.
Context `{!LoopCallbacks}.

Lemma cqeLoop_spec fuel head s :
  0 <= head < 2 ^ 32 → 0 <= cq_tail (ring_ s) < 2 ^ 32 →
  fuel = Z.to_nat (u32 (cq_tail (ring_ s) - head)) →
  let '(h, s', threw) := cqeLoop fuel head s in
  ring_ s' = ring_ s ∧
  (LoopInv (core s) → LoopInv (core s')) ∧
  (threw = false →
     h = cq_tail (ring_ s) ∧
     timerOpPending_ s' =
       timerOpPending_ s && negb (existsb is_timer_completion (completions (ring_ s) head fuel))).
Proof.
  revert head s. induction fuel as [|fuel IH]; intros head s Hh Ht Hf; simpl.
  { destruct (Z.eqb_spec head (cq_tail (ring_ s))) as [E|E]; simpl.
    - split; [done|]. split; [done|]. intros _. split; [done|]. by rewrite andb_true_r.
    - exfalso. rewrite (u32_dist_succ head) in Hf by done.
      pose proof (wrap_range 32 (cq_tail (ring_ s) - u32 (head + 1)) ltac:(lia)).
      unfold u32 in *. lia. }
  destruct (Z.eqb_spec head (cq_tail (ring_ s))) as [E|E].
  { rewrite E, Z.sub_diag in Hf. done. }
  rewrite (u32_dist_succ head) in Hf by done.
  pose proof (wrap_range 32 (head + 1) ltac:(lia)) as Hr.
  assert (Hf' : fuel = Z.to_nat (u32 (cq_tail (ring_ s) - u32 (head + 1)))).
  { pose proof (wrap_range 32 (cq_tail (ring_ s) - u32 (head + 1)) ltac:(lia)).
    unfold u32 in *. lia. }
  unfold completion. assert (u32 head = head) as -> by (apply wrap_small; lia).
  set (cqe := default (MkCqe 0 0) _).
  change (is_timer_completion cqe) with (cqe_user_data cqe =? 0).
  destruct (cqe_user_data cqe =? 0); simpl.
  - set (s1 := MkIoUringLoop _ _ _ _ _ _). specialize (IH (u32 (head + 1)) s1 Hr Ht Hf').
    destruct (cqeLoop fuel (u32 (head + 1)) s1) as [[h s'] th].
    destruct IH as (H1 & H2 & H3). split; [done|]. split; [done|]. intros Hth.
    destruct (H3 Hth) as [-> ->]. split; [done|]. simpl. by rewrite andb_false_r.
  - destruct (userDataCallbacks_ s !! cqe_user_data cqe) as [c|]; [|by apply IH].
    pose proof (λ HI, exec_inv (CallFd c (cqe_res cqe)) (core s) HI) as He.
    destruct (exec (CallFd c (cqe_res cqe)) (core s)) as [c1 th]. simpl in He.
    destruct th; simpl; [split; [done|]; split; [done|discriminate]|].
    set (s1 := MkIoUringLoop _ _ _ _ _ _). specialize (IH (u32 (head + 1)) s1 Hr Ht Hf').
    destruct (cqeLoop fuel (u32 (head + 1)) s1) as [[h s'] th].
    destruct IH as (H1 & H2 & H3). split; [done|]. split; [auto|]. done.
Qed.

End Cqes.

Lemma getSqe_spec s :
  SqInv (ring_ s) →
  match getSqe s with
  | (None, s') => s' = s ∧ u32 (sq_tail (ring_ s) - sq_head (ring_ s)) = sq_entries (ring_ s)
  | (Some i, s') =>
      0 <= i < sq_entries (ring_ s) ∧ ~ pending_slot (ring_ s) i ∧
      pending_slot (ring_ s') i ∧ sq_array (ring_ s') !! i = Some i ∧ SqInv (ring_ s')
  end.
Proof.
  intros HI. pose proof (getSqe_inv s HI) as HI'. destruct HI as (k & Hk & He & Hm & Ht & Hd).
  unfold getSqe in *. rewrite He, Hm in *.
  destruct (_ >=? _) eqn:E; bool_hyps; simpl in *; [split; [done|lia]|].
  assert (2 ^ k <= 2 ^ 31) by (apply Z.pow_le_mono_r; lia).
  rewrite land_mask by lia. split; [apply Z.mod_pos_bound; lia|]. split; [|split; [|split; [|done]]].
  - intros (j & Hj & Heq). rewrite Hm, land_u32_mask in Heq by lia.
    symmetry in Heq. by eapply slot_distinct in Heq.
  - exists (u32 (sq_tail (ring_ s) - sq_head (ring_ s))). simpl.
    rewrite u32_succ_dist by lia. pose proof (wrap_range 32 (sq_tail (ring_ s) - sq_head (ring_ s))).
    split; [unfold u32 in *; lia|]. rewrite ?Hm, land_u32_mask by lia.
    rewrite Z.add_mod, u32_mod_pow2 by lia. rewrite <- Z.add_mod by lia. f_equal. lia.
  - by rewrite lookup_insert_eq.
Qed.

(** [getSqe] hands out a slot only when the submission ring has room; the
    slot lies inside the ring, is none of the slots still waiting for the
    kernel (also when the 32-bit indices wrap), and the ring invariant is
    kept; on a full ring nothing changes. *)
Theorem getSqe_fresh_slot s :
  SqInv (ring_ s) →
  match getSqe s with
  | (None, s') => s' = s ∧ u32 (sq_tail (ring_ s) - sq_head (ring_ s)) = sq_entries (ring_ s)
  | (Some i, s') =>
      0 <= i < sq_entries (ring_ s) ∧ ~ pending_slot (ring_ s) i ∧
      pending_slot (ring_ s') i ∧ sq_array (ring_ s') !! i = Some i ∧ SqInv (ring_ s')
  end.
Proof. apply getSqe_spec. Qed.

(** A ring of four entries whose tail is about to wrap, two of them pending. *)
Definition sampleUring : IoUringLoop :=
  MkIoUringLoop initLoop
    (MkRing (2 ^ 32 - 3) (2 ^ 32 - 1) 4 3 ∅ ∅
       (2 ^ 32 - 1) 1 7 {[7 := MkCqe 0 (-62); 0 := MkCqe 5 0]})
    ∅ true (0, 0) 0.

Lemma getSqe_fresh_slot_witness :
  SqInv (ring_ sampleUring) ∧ (getSqe sampleUring).1 = Some 3 ∧ ~ pending_slot (ring_ sampleUring) 3.
Proof.
  assert (HI : SqInv (ring_ sampleUring)) by (exists 2; vm_compute; done).
  split; [exact HI|]. split; [vm_compute; reflexivity|].
  exact (proj1 (proj2 (getSqe_fresh_slot sampleUring HI))).
Defined.

(** C38: [processCqes] terminates after exactly the completions between the two
    completion indices (their 32-bit distance): unless a callback throws, it
    publishes the head at the tail, and the timeout operation counts as
    finished exactly when one of those completions was the timer's. *)
Theorem processCqes_drains `{!LoopCallbacks} s s' :
  0 <= cq_head (ring_ s) < 2 ^ 32 → 0 <= cq_tail (ring_ s) < 2 ^ 32 →
  processCqes s = (s', false) →
  cq_head (ring_ s') = cq_tail (ring_ s) ∧
  timerOpPending_ s' =
    timerOpPending_ s &&
    negb (existsb is_timer_completion
            (completions (ring_ s) (cq_head (ring_ s))
               (Z.to_nat (u32 (cq_tail (ring_ s) - cq_head (ring_ s)))))).
Proof.
  intros Hh Ht. unfold processCqes.
  pose proof (cqeLoop_spec _ (cq_head (ring_ s)) s Hh Ht eq_refl) as Hc.
  destruct (cqeLoop _ _ s) as [[h s1] []]; [done|]. intros [= <-].
  destruct Hc as (_ & _ & Hc). exact (Hc eq_refl).
Qed.

Lemma processCqes_drains_witness :
  let s' := (processCqes sampleUring).1 in
  cq_head (ring_ s') = 1 ∧ timerOpPending_ s' = false.
Proof.
  destruct (processCqes_drains sampleUring (processCqes sampleUring).1) as [H1 H2];
    [vm_compute; split; congruence..|vm_compute; reflexivity|].
  simpl. rewrite H1, H2. split; vm_compute; reflexivity.
Defined.

(** The timeout armed for the next timer is a normalised timespec equal to
    the time left, stored in the submission entry the ring publishes; while an
    earlier timeout operation is pending nothing is armed at all, whatever the
    next expiry is now. *)
Theorem submitTimerOp_arms now s n l :
  SqInv (ring_ s) → timersByExpiry_ (core s) = n :: l →
  (timerOpPending_ s = true → submitTimerOp now s = s) ∧
  (timerOpPending_ s = false → now < node_key n →
   u32 (sq_tail (ring_ s) - sq_head (ring_ s)) < sq_entries (ring_ s) →
   let s' := submitTimerOp now s in
   let '(sec, nsec) := currentTimeout_ s' in
   timerOpPending_ s' = true ∧ 0 <= sec ∧ 0 <= nsec < ns_per_s ∧
   sec * ns_per_s + nsec = node_key n - now ∧
   ∃ i, pending_slot (ring_ s') i ∧
        sqes (ring_ s') !! i = Some (MkSqe IORING_OP_TIMEOUT (sec, nsec) 1 0)).
Proof.
  intros HI El. unfold submitTimerOp. rewrite El. split; [by intros ->|]. intros -> Hlt Hroom.
  destruct (Z.leb_spec (node_key n) now); [lia|].
  match goal with |- context [getSqe ?x] => set (s1 := x) end.
  pose proof (getSqe_spec s1 HI) as Hg. unfold getSqe in *. subst s1. simpl in *.
  destruct (_ >=? _) eqn:E; bool_hyps; [lia|]. simpl.
  destruct Hg as (_ & _ & Hp & _). unfold ns_per_s.
  pose proof (Z.quot_pos (node_key n - now) 1000000000 ltac:(lia) ltac:(lia)).
  pose proof (Z.rem_bound_pos (node_key n - now) 1000000000 ltac:(lia) ltac:(lia)).
  pose proof (Z.quot_rem' (node_key n - now) 1000000000).
  split; [done|]. split; [done|]. split; [done|]. split; [lia|].
  eexists. split; [exact Hp|]. by rewrite lookup_insert_eq.
Qed.

Lemma submitTimerOp_arms_witness :
  let s := MkIoUringLoop (addTimer 0 2500000000 (Some 1) initLoop).2 (ring_ sampleUring) ∅ false (0, 0) 0 in
  SqInv (ring_ s) ∧ currentTimeout_ (submitTimerOp 1 s) = (2, 499999999) ∧
  timerOpPending_ (submitTimerOp 1 s) = true.
Proof.
  assert (HI : SqInv (ring_ sampleUring)) by (exists 2; vm_compute; done).
  split; [exact HI|]. split; [vm_compute; reflexivity|].
  pose proof (proj2 (submitTimerOp_arms 1
    (MkIoUringLoop (addTimer 0 2500000000 (Some 1) initLoop).2 (ring_ sampleUring) ∅ false (0, 0) 0)
    _ _ HI eq_refl) eq_refl eq_refl eq_refl) as H.
  cbv zeta in H. simpl in H. exact (proj1 H).
Defined.

(** ** The loop invariant *)

(** What the loop relies on of the kernel: it consumes entries from the head
    of the submission ring only, and its completion indices are 32-bit. *)
Definition KernelOk (kernel : kernel_t) : Prop :=
  ∀ a b c r, SqInv r → SqInv (kernel a b c r).1 ∧
    0 <= cq_head (kernel a b c r).1 < 2 ^ 32 ∧ 0 <= cq_tail (kernel a b c r).1 < 2 ^ 32.

Definition UringInv (s : IoUringLoop) : Prop := LoopInv (core s) ∧ SqInv (ring_ s).

Section UringInvariant.
Context `{!LoopCallbacks} (kernel : kernel_t) (Hkernel : KernelOk kernel).

Lemma uring_processTimers_inv now s : UringInv s → UringInv (uring_processTimers now s).1.
Proof.
  intros [Hc Hr]. unfold uring_processTimers. pose proof (processTimers_inv now (core s) Hc).
  by destruct (processTimers now (core s)).
Qed.

Lemma uring_processPosted_inv s : UringInv s → UringInv (uring_processPosted s).1.
Proof.
  intros [Hc Hr]. unfold uring_processPosted. pose proof (processPostedCallbacks_inv (core s) Hc).
  by destruct (processPostedCallbacks (core s)).
Qed.

Lemma processCqes_inv s :
  UringInv s → 0 <= cq_head (ring_ s) < 2 ^ 32 → 0 <= cq_tail (ring_ s) < 2 ^ 32 →
  UringInv (processCqes s).1.
Proof.
  intros [Hc Hr] Hh Ht. unfold processCqes.
  pose proof (cqeLoop_spec _ (cq_head (ring_ s)) s Hh Ht eq_refl) as Hl.
  destruct (cqeLoop _ _ s) as [[h s1] th]. destruct Hl as (E & Hi & _).
  destruct th; simpl; (split; [by apply Hi|]); by rewrite <- E in Hr.
Qed.

Lemma kernel_step_inv a b c s :
  UringInv s →
  let s' := with_ring (kernel a b c (ring_ s)).1 0 s in
  UringInv s' ∧ 0 <= cq_head (ring_ s') < 2 ^ 32 ∧ 0 <= cq_tail (ring_ s') < 2 ^ 32.
Proof. intros [Hc Hr]. destruct (Hkernel a b c _ Hr) as (? & ? & ?). done. Qed.

(** Every pass of the io_uring loop's [run] and every [runOnce] keeps the
    timer table and the submission ring well formed, whatever the callbacks do
    and however the kernel answers within its contract. *)
Theorem uring_iteration_inv now1 now2 s :
  UringInv s →
  UringInv (uring_runIteration kernel now1 now2 s).1 ∧
  UringInv (uring_runOnce kernel now1 now2 s).2.
Proof.
  intros HI. unfold uring_runIteration, uring_runOnce.
  pose proof (uring_processTimers_inv now1 s HI) as H1.
  destruct (uring_processTimers now1 s) as [s1 []]; simpl in *; [done|].
  assert (H2 : UringInv (submitTimerOp now2 s1)).
  { destruct H1. split; [by rewrite submitTimerOp_core|by apply submitTimerOp_inv]. }
  set (s2 := submitTimerOp now2 s1) in *. clearbody s2. split.
  all: match goal with |- context [kernel ?a ?b ?c ?r] =>
         destruct (kernel_step_inv a b c s2 H2) as (H3 & Hh & Ht);
         destruct (kernel a b c r) as [r' err] end; simpl in *;
       (case_match; [done|]); pose proof (processCqes_inv _ H3 Hh Ht) as H4;
       destruct (processCqes _) as [s4 []]; simpl in *; [done|];
       pose proof (uring_processPosted_inv _ H4) as H5;
       destruct (uring_processPosted s4) as [s5 []]; simpl in *; try done.
  by repeat case_match.
Qed.

Lemma uring_run_inv clocks s : UringInv s → UringInv (uring_run kernel clocks s).1.
Proof.
  intros [Hc Hr]. unfold uring_run. set (s0 := with_core _ s).
  assert (HI : UringInv s0) by (split; [by destruct Hc|done]). clearbody s0. clear Hc Hr.
  revert s0 HI. induction clocks as [|[n1 n2] clocks IH]; intros s0 HI; cbn; [done|].
  case_match; [|done]. pose proof (proj1 (uring_iteration_inv n1 n2 s0 HI)) as H1.
  destruct (uring_runIteration kernel n1 n2 s0) as [s1 []]; [by apply IH|done|done].
Qed.

End UringInvariant.

(** A kernel that takes every submitted entry and reports no completion. *)
Definition sampleKernel : kernel_t := λ _ _ _ r,
  (MkRing (sq_tail r) (sq_tail r) (sq_entries r) (sq_mask r) (sq_array r) (sqes r) 0 0
     (cq_mask r) (cqes r), None).

Lemma sampleKernel_ok : KernelOk sampleKernel.
Proof.
  intros a b c r (k & Hk & He & Hm & Ht & _). split; [|simpl; lia]. exists k. simpl.
  rewrite Z.sub_diag, He. repeat split; try done; try lia. apply Z.pow_nonneg. lia.
Qed.

Lemma sampleUring_inv : UringInv sampleUring.
Proof. split; [apply initLoop_inv|]. exists 2. vm_compute. done. Qed.

Lemma uring_iteration_inv_witness :
  KernelOk sampleKernel ∧ UringInv sampleUring ∧
  UringInv (uring_runIteration sampleKernel 5 6 sampleUring).1.
Proof.
  split; [exact sampleKernel_ok|]. split; [exact sampleUring_inv|].
  exact (proj1 (uring_iteration_inv sampleKernel sampleKernel_ok 5 6 sampleUring sampleUring_inv)).
Defined.
