(* ===== verification/AsyncSync.v ===== *)
(** * Coroutine synchronisation: async Mutex, Semaphore and RwLock
    (src/include/pman/async/mutex.hpp, semaphore.hpp, rwlock.hpp)

    The three primitives share one protocol with the coroutines that use them:
    [await_ready] tries to acquire, [await_suspend] queues the handle, and a
    release hands the resource to queued handles, which are posted to the event
    loop (or resumed at once when there is none).  The class [AsyncPrim] is that
    protocol with the laws the primitives promise; the coroutine system and its
    theorems are stated against it, and each primitive is an instance.  All of
    them run on the one thread of an event loop, so an atomic compare-exchange
    succeeds when its comparison does. *)

From S2P Require Import Prelude.

(** ** The interface *)

(** A primitive with state [P] and acquisition modes [M]; a coroutine handle
    is a number. *)
Class AsyncPrim (P M : Type) := {
  (* await_ready: whether the resource was acquired, and the new state *)
  await_ready : M → P → bool * P;
  await_suspend : M → Z → P → P;
  (* giving one acquisition back: the handles that now own the resource *)
  release : M → P → list (Z * M) * P;
  (* handles queued inside the primitive *)
  waiting : P → list (Z * M)
}.

(** [consistent p g]: the state [p] accounts for the outstanding acquisitions
    with modes [g].  [constructed p]: [p] is as a constructor leaves it.
    [barren p]: nobody can ever acquire [p] (a semaphore made with no permits). *)
Class AsyncPrimLaws (P M : Type) `{!AsyncPrim P M} := {
  consistent : P → list M → Prop;
  constructed : P → Prop;
  barren : P → Prop;
  constructed_consistent p : constructed p → consistent p [] ∧ waiting p = [];
  consistent_perm p g g' : g ≡ₚ g' → consistent p g → consistent p g';
  ready_acquires m p p' g :
    consistent p g → await_ready m p = (true, p') →
    consistent p' (m :: g) ∧ waiting p' = waiting p;
  ready_refuses m p p' : await_ready m p = (false, p') → p' = p;
  suspend_queues m h p g :
    consistent p g → await_ready m p = (false, p) →
    consistent (await_suspend m h p) g ∧
    waiting (await_suspend m h p) ≡ₚ (h, m) :: waiting p;
  release_hands m p p' w g :
    consistent p (m :: g) → release m p = (w, p') →
    consistent p' (w.*2 ++ g) ∧ w ++ waiting p' ≡ₚ waiting p;
  (* a queued handle always has an outstanding acquisition to wait for *)
  waiting_has_owner p g : consistent p g → waiting p ≠ [] → g ≠ [] ∨ barren p
}.

(** ** Coroutines over a primitive *)

Section System.
Context {P M : Type} `{!AsyncPrim P M}.

(** [held]: coroutines with a live guard; [posted]: handles the loop will
    resume, which own the resource already. *)
Record Sys := MkSys {
  prim : P;
  held : list (Z * M);
  posted : list (Z * M)
}.

Definition handles (s : Sys) : list Z := (held s ++ posted s ++ waiting (prim s)).*1.

(** One step of the system; [step_release] and [step_release_direct] are the
    two branches of [EventLoop::current()]. *)
Inductive sys_step : Sys → Sys → Prop :=
  | step_acquire h m s p' :
      h ∉ handles s → await_ready m (prim s) = (true, p') →
      sys_step s (MkSys p' ((h, m) :: held s) (posted s))
  | step_suspend h m s p' :
      h ∉ handles s → await_ready m (prim s) = (false, p') →
      sys_step s (MkSys (await_suspend m h p') (held s) (posted s))
  | step_release h m l1 l2 s w p' :
      held s = l1 ++ (h, m) :: l2 → release m (prim s) = (w, p') →
      sys_step s (MkSys p' (l1 ++ l2) (posted s ++ w))
  | step_release_direct h m l1 l2 s w p' :
      held s = l1 ++ (h, m) :: l2 → release m (prim s) = (w, p') →
      sys_step s (MkSys p' (w ++ l1 ++ l2) (posted s))
  | step_resume h m q s :
      posted s = (h, m) :: q →
      sys_step s (MkSys (prim s) ((h, m) :: held s) q).

Definition modes (s : Sys) : list M := (held s ++ posted s).*2.

End System.
Arguments Sys P M : clear implicits.
Arguments MkSys {P M}.

(** ** async::Mutex *)

Record Mutex := MkMutex { locked_ : bool; mutex_waiters_ : list Z }.

Definition Mutex_init : Mutex := MkMutex false [].

(** [LockAwaiter::await_ready] and [tryLock]: CAS false to true. *)
Definition Mutex_await_ready (m : Mutex) : bool * Mutex :=
  if locked_ m then (false, m) else (true, MkMutex true (mutex_waiters_ m)).
Definition Mutex_await_suspend (h : Z) (m : Mutex) : Mutex :=
  MkMutex (locked_ m) (mutex_waiters_ m ++ [h]).
Definition Mutex_tryLock (m : Mutex) : bool * Mutex := Mutex_await_ready m.
Definition Mutex_isLocked (m : Mutex) : bool := locked_ m.

(** [unlock]: the handle woken, which keeps [locked_] set. *)
Definition Mutex_unlock (m : Mutex) : option Z * Mutex :=
  match mutex_waiters_ m with
  | h :: q => (Some h, MkMutex (locked_ m) q)
  | [] => (None, MkMutex false [])
  end.

#[export] Instance Mutex_prim : AsyncPrim Mutex unit := {
  await_ready _ := Mutex_await_ready;
  await_suspend _ := Mutex_await_suspend;
  release _ m := let '(o, m') := Mutex_unlock m in
                 (match o with Some h => [(h, tt)] | None => [] end, m');
  waiting m := (λ h, (h, tt)) <$> mutex_waiters_ m
}.

(** ** async::Semaphore *)

Record Semaphore := MkSemaphore { count_ : Z; capacity_ : Z; sem_waiters_ : list Z }.

Definition Semaphore_init (count : Z) : Semaphore := MkSemaphore count count [].

(** The CAS loop of [await_ready] and [tryAcquire]. *)
Definition Semaphore_await_ready (s : Semaphore) : bool * Semaphore :=
  if count_ s >? 0 then (true, MkSemaphore (count_ s - 1) (capacity_ s) (sem_waiters_ s))
  else (false, s).
Definition Semaphore_await_suspend (h : Z) (s : Semaphore) : Semaphore :=
  MkSemaphore (count_ s) (capacity_ s) (sem_waiters_ s ++ [h]).
Definition Semaphore_tryAcquire (s : Semaphore) : bool * Semaphore := Semaphore_await_ready s.

Definition Semaphore_release (s : Semaphore) : option Z * Semaphore :=
  match sem_waiters_ s with
  | h :: q => (Some h, MkSemaphore (count_ s) (capacity_ s) q)
  | [] => (None, MkSemaphore (u64 (count_ s + 1)) (capacity_ s) [])
  end.
Definition Semaphore_available (s : Semaphore) : Z := count_ s.

#[export] Instance Semaphore_prim : AsyncPrim Semaphore unit := {
  await_ready _ := Semaphore_await_ready;
  await_suspend _ := Semaphore_await_suspend;
  release _ s := let '(o, s') := Semaphore_release s in
                 (match o with Some h => [(h, tt)] | None => [] end, s');
  waiting s := (λ h, (h, tt)) <$> sem_waiters_ s
}.

(** ** async::RwLock *)

Inductive rw_mode := Read | Write.

(** [state_]: number of readers, or -1 for a writer. *)
Record RwLock := MkRwLock {
  state_ : Z;
  readWaiters_ : list Z;
  writeWaiters_ : list Z
}.

Definition RwLock_init : RwLock := MkRwLock 0 [] [].

(** The CAS loop of [ReadLockAwaiter::await_ready] and [tryReadLock]. *)
Definition RwLock_read_ready (l : RwLock) : bool * RwLock :=
  if state_ l >=? 0 then (true, MkRwLock (state_ l + 1) (readWaiters_ l) (writeWaiters_ l))
  else (false, l).
Definition RwLock_read_suspend (h : Z) (l : RwLock) : RwLock :=
  MkRwLock (state_ l) (readWaiters_ l ++ [h]) (writeWaiters_ l).
(** [WriteLockAwaiter::await_ready] and [tryWriteLock]: CAS 0 to -1. *)
Definition RwLock_write_ready (l : RwLock) : bool * RwLock :=
  if state_ l =? 0 then (true, MkRwLock (-1) (readWaiters_ l) (writeWaiters_ l))
  else (false, l).
Definition RwLock_write_suspend (h : Z) (l : RwLock) : RwLock :=
  MkRwLock (state_ l) (readWaiters_ l) (writeWaiters_ l ++ [h]).

Definition RwLock_hasReaders (l : RwLock) : bool := state_ l >? 0.
Definition RwLock_hasWriter (l : RwLock) : bool := state_ l <? 0.

(** [unlockRead]: the last reader hands over to the first waiting writer. *)
Definition RwLock_unlockRead (l : RwLock) : list (Z * rw_mode) * RwLock :=
  let prev := state_ l in
  let st := prev - 1 in
  match writeWaiters_ l with
  | h :: q =>
      if (prev =? 1) && (st =? 0) then ([(h, Write)], MkRwLock (-1) (readWaiters_ l) q)
      else ([], MkRwLock st (readWaiters_ l) (h :: q))
  | [] => ([], MkRwLock st (readWaiters_ l) [])
  end.

(** [unlockWrite]: the first waiting writer, else every waiting reader. *)
Definition RwLock_unlockWrite (l : RwLock) : list (Z * rw_mode) * RwLock :=
  match writeWaiters_ l with
  | h :: q => ([(h, Write)], MkRwLock (-1) (readWaiters_ l) q)
  | [] =>
      match readWaiters_ l with
      | [] => ([], MkRwLock 0 [] [])
      | toWake => ((λ h, (h, Read)) <$> toWake, MkRwLock (Z.of_nat (length toWake)) [] [])
      end
  end.

#[export] Instance RwLock_prim : AsyncPrim RwLock rw_mode := {
  await_ready m := match m with Read => RwLock_read_ready | Write => RwLock_write_ready end;
  await_suspend m := match m with Read => RwLock_read_suspend | Write => RwLock_write_suspend end;
  release m := match m with Read => RwLock_unlockRead | Write => RwLock_unlockWrite end;
  waiting l := ((λ h, (h, Read)) <$> readWaiters_ l) ++ ((λ h, (h, Write)) <$> writeWaiters_ l)
}.

(** ** The laws of the three primitives *)

#[export, refine] Instance Mutex_laws : AsyncPrimLaws Mutex unit := {
  consistent m g :=
    (locked_ m = true ∧ length g = 1%nat) ∨
    (locked_ m = false ∧ g = [] ∧ mutex_waiters_ m = []);
  constructed m := m = Mutex_init;
  barren _ := False
}.
Proof.
  - intros p ->. split; [by right|done].
  - intros p g g' Hp [[? Hl]|(? & -> & ?)].
    + left. by rewrite <- Hp.
    + apply Permutation_nil_l in Hp as ->. by right.
  - intros [] p p' g Hc. simpl. unfold Mutex_await_ready. intros E.
    destruct Hc as [[Hl ?]|(Hl & -> & Hw)]; rewrite Hl in E; simplify_eq/=. auto.
  - intros [] p p'. simpl. unfold Mutex_await_ready. by destruct (locked_ p); intros; simplify_eq.
  - intros [] h p g Hc. simpl. unfold Mutex_await_ready, Mutex_await_suspend.
    destruct (locked_ p) eqn:E; [|done]. intros _. simpl. split.
    + destruct Hc as [[? ?]|[? ?]]; [by left|congruence].
    + rewrite fmap_app. simpl. by rewrite Permutation_app_comm.
  - intros [] p p' w g Hc. simpl. unfold Mutex_unlock.
    destruct (mutex_waiters_ p) as [|h q] eqn:E; intros; simplify_eq/=.
    + split; [|done]. right. destruct Hc as [[_ Hl]|(_ & ? & _)]; [|done].
      by destruct g.
    + split; [|done]. destruct Hc as [[? ?]|(? & ? & ?)]; [by left|done].
  - intros p g [[_ Hl]|(_ & -> & Hw)] Hne; left; [by destruct g|]. simpl in Hne. by rewrite Hw in Hne.
Defined.

#[export, refine] Instance Semaphore_laws : AsyncPrimLaws Semaphore unit := {
  consistent s g :=
    0 <= count_ s ∧ 0 <= capacity_ s < 2 ^ 64 ∧
    count_ s + Z.of_nat (length g) = capacity_ s ∧ (sem_waiters_ s ≠ [] → count_ s = 0);
  constructed s := ∃ n, 0 <= n < 2 ^ 64 ∧ s = Semaphore_init n;
  barren s := capacity_ s = 0
}.
Proof.
  - intros p (n & Hn & ->). simpl. split_and!; try lia; done.
  - intros p g g' Hp. by rewrite Hp.
  - intros [] p p' g (? & ? & ? & ?). simpl. unfold Semaphore_await_ready.
    case_match; bool_hyps; intros; simplify_eq/=. split; [|done].
    split_and!; try lia. intros. naive_solver lia.
  - intros [] p p'. simpl. unfold Semaphore_await_ready. case_match; intros; by simplify_eq.
  - intros [] h p g (? & ? & ? & ?). simpl. unfold Semaphore_await_ready, Semaphore_await_suspend.
    case_match; bool_hyps; [done|]. intros _. simpl. split; [split_and!; lia|].
    rewrite fmap_app. simpl. by rewrite Permutation_app_comm.
  - intros [] p p' w g (? & ? & Hg & Hw). simpl in *. unfold Semaphore_release.
    destruct (sem_waiters_ p) as [|h q] eqn:E; intros; simplify_eq/=.
    + split; [|done]. unfold u64. rewrite wrap_small by lia. split_and!; try lia. done.
    + specialize (Hw ltac:(done)). split; [|done]. split_and!; lia.
  - intros p g (? & ? & Hg & Hw) Hne. destruct g as [|m g]; [right|by left]. simpl in *.
    assert (count_ p = 0); [|lia]. apply Hw. intros E. by rewrite E in Hne.
Defined.

#[export, refine] Instance RwLock_laws : AsyncPrimLaws RwLock rw_mode := {
  consistent l g :=
    (g = [Write] ∧ state_ l = -1) ∨
    (readWaiters_ l = [] ∧ Forall (eq Read) g ∧ state_ l = Z.of_nat (length g) ∧
     (writeWaiters_ l ≠ [] → g ≠ []));
  constructed l := l = RwLock_init;
  barren _ := False
}.
Proof.
  - intros p ->. split; [by right|done].
  - intros p g g' Hp [[-> ?]|(? & Hf & ? & Hw)].
    + apply Permutation_singleton_l in Hp as ->. by left.
    + right. rewrite Hp in Hf. split_and!; [done|done|by rewrite <- Hp|].
      intros Hne ->. apply Permutation_nil_r in Hp. by apply Hw.
  - intros m p p' g Hc E. destruct m; simpl in E;
      [unfold RwLock_read_ready in E|unfold RwLock_write_ready in E];
      case_match; bool_hyps; simplify_eq/=; (split; [|done]).
    + destruct Hc as [[_ ?]|(? & ? & ? & ?)]; [lia|]. right.
      split_and!; [done|by constructor|lia|done].
    + destruct Hc as [[_ ?]|(? & ? & ? & ?)]; [lia|]. left. destruct g; [done|simpl in *; lia].
  - intros m p p' E. destruct m; simpl in E;
      [unfold RwLock_read_ready in E|unfold RwLock_write_ready in E]; case_match; by simplify_eq.
  - intros m h p g Hc E. destruct m; simpl in E;
      [unfold RwLock_read_ready in E|unfold RwLock_write_ready in E];
      case_match; bool_hyps; simplify_eq/=; rewrite fmap_app; simpl.
    + destruct Hc as [[-> ?]|(? & ? & ? & ?)]; [|lia]. split; [by left|].
      rewrite <- app_assoc. simpl. by rewrite <- Permutation_middle.
    + split.
      * destruct Hc as [[-> ?]|(? & ? & ? & ?)]; [by left|]. right.
        split_and!; try done. intros _ ->. simpl in *. lia.
      * rewrite app_assoc. by rewrite (Permutation_app_comm _ [_]).
  - intros m p p' w g Hc. destruct m; simpl.
    + destruct Hc as [[? ?]|(Hr & Hf & Hst & Hw)]; [done|].
      apply Forall_cons in Hf as [_ Hf]. simpl in Hst. unfold RwLock_unlockRead.
      destruct (writeWaiters_ p) as [|h q]; [|case_match]; intros; simplify_eq/=; rewrite Hr.
      * split; [right; simpl; split_and!; first [done|lia]|done].
      * bool_hyps. split; [|done]. left. destruct g; [done|simpl in *; lia].
      * split; [|done]. right. split_and!; [done|done|lia|]. intros _ ->.
        simpl in *. by rewrite Hst in *.
    + destruct Hc as [[? ?]|(_ & Hf & _)]; [|by apply Forall_cons in Hf as [? _]].
      simplify_eq. unfold RwLock_unlockWrite.
      destruct (writeWaiters_ p) as [|h q]; intros; simplify_eq/=.
      * destruct (readWaiters_ p) as [|r rs]; simplify_eq/=; (split; [right|by rewrite ?app_nil_r]).
        -- split_and!; first [done|constructor].
        -- rewrite app_nil_r. split_and!; [done| |by rewrite !length_fmap|done].
           constructor; [done|]. apply Forall_forall. intros x.
           rewrite list_elem_of_fmap. intros (y & -> & Hy).
           apply list_elem_of_fmap in Hy as (z & -> & _). done.
      * split; [by left|]. by rewrite <- Permutation_middle.
  - intros p g [[-> _]|(Hr & _ & _ & Hw)] Hne; left; [done|]. simpl in Hne. rewrite Hr in Hne.
    apply Hw. intros E. by rewrite E in Hne.
Defined.

(** ** Theorems about any primitive with the laws *)

Section SystemTheory.
Context {P M : Type} `{!AsyncPrim P M, !AsyncPrimLaws P M}.

Definition SysInv (s : Sys P M) : Prop :=
  consistent (prim s) (modes s) ∧ NoDup (handles s).

Lemma modes_split (l1 l2 q : list (Z * M)) x :
  ((l1 ++ x :: l2) ++ q).*2 ≡ₚ x.2 :: ((l1 ++ l2) ++ q).*2.
Proof. rewrite !fmap_app. simpl. by rewrite <- Permutation_middle. Qed.

Lemma release_inv h m l1 l2 (s : Sys P M) w p' hs q :
  SysInv s → held s = l1 ++ (h, m) :: l2 → release m (prim s) = (w, p') →
  hs ++ q ≡ₚ w ++ (l1 ++ l2) ++ posted s → SysInv (MkSys p' hs q).
Proof.
  intros [Hc Hn] Eh Er Hp. unfold SysInv, modes, handles in *. simpl. rewrite Eh in Hc, Hn.
  eapply consistent_perm in Hc; [|apply modes_split].
  simpl in Hc. destruct (release_hands m _ _ _ _ Hc Er) as [Hc' Hw].
  split.
  - eapply consistent_perm; [|exact Hc']. by rewrite Hp, !fmap_app.
  - assert (Hperm : h :: (hs ++ q ++ waiting p').*1 ≡ₚ
      ((l1 ++ (h, m) :: l2) ++ posted s ++ waiting (prim s)).*1).
    { rewrite app_assoc, Hp, <- Hw, !fmap_app. simpl. rewrite <- Permutation_middle. simpl.
      apply Permutation_skip. rewrite <- !app_assoc, (Permutation_app_comm (w.*1)).
      rewrite <- !app_assoc. do 3 f_equiv. apply Permutation_app_comm. }
    rewrite <- Hperm in Hn. by apply NoDup_cons in Hn as [_ Hn].
Qed.

Lemma sys_step_inv (s s' : Sys P M) : sys_step s s' → SysInv s → SysInv s'.
Proof.
  intros Hs HI. destruct Hs as [h m s p' Hf E|h m s p' Hf E|h m l1 l2 s w p' Eh Er
    |h m l1 l2 s w p' Eh Er|h m q s Eq].
  - destruct HI as [Hc Hn]. destruct (ready_acquires _ _ _ _ Hc E) as [Hc' Hw].
    split; [done|]. unfold handles in *. simpl. rewrite Hw. by constructor.
  - destruct HI as [Hc Hn]. pose proof (ready_refuses _ _ _ E) as ->.
    destruct (suspend_queues m h _ _ Hc E) as [Hc' Hw]. split; [done|].
    unfold handles in *. simpl. rewrite Hw.
    assert (Hp : (held s ++ posted s ++ (h, m) :: waiting (prim s)).*1 ≡ₚ
                 h :: (held s ++ posted s ++ waiting (prim s)).*1).
    { rewrite !fmap_app. simpl. by rewrite <- !Permutation_middle. }
    rewrite Hp. by constructor.
  - eapply release_inv; [done..|]. by rewrite (Permutation_app_comm (posted s)), app_assoc,
      (Permutation_app_comm (l1 ++ l2)), <- app_assoc.
  - eapply release_inv; [done..|]. by rewrite <- app_assoc.
  - destruct HI as [Hc Hn]. unfold SysInv, modes, handles in *. simpl. rewrite Eq in *. split.
    + eapply consistent_perm; [|exact Hc]. rewrite !fmap_app. simpl.
      by rewrite <- Permutation_middle.
    + rewrite !fmap_app in *. simpl in *. by rewrite Permutation_middle.
Qed.

Lemma sys_reachable_inv (s s' : Sys P M) : rtc sys_step s s' → SysInv s → SysInv s'.
Proof. apply rtc_invariant. apply sys_step_inv. Qed.

(** Each coroutine of [a] is somewhere in [b]. *)
Lemma handles_kept (s s' : Sys P M) :
  sys_step s s' → SysInv s → ∀ x, x ∈ waiting (prim s) →
  x ∈ waiting (prim s') ∨ x ∈ posted s' ∨ x ∈ held s'.
Proof.
  intros Hs [Hc Hn] x Hx. destruct Hs as [h m s p' Hf E|h m s p' Hf E|h m l1 l2 s w p' Eh Er
    |h m l1 l2 s w p' Eh Er|h m q s Eq]; simpl.
  - destruct (ready_acquires _ _ _ _ Hc E) as [_ ->]. by left.
  - pose proof (ready_refuses _ _ _ E) as ->.
    destruct (suspend_queues m h _ _ Hc E) as [_ ->]. left. by right.
  - unfold modes in Hc. rewrite Eh in Hc. eapply consistent_perm in Hc; [|apply modes_split].
    destruct (release_hands m _ _ _ _ Hc Er) as [_ Hw]. rewrite <- Hw, elem_of_app in Hx.
    rewrite elem_of_app. tauto.
  - unfold modes in Hc. rewrite Eh in Hc. eapply consistent_perm in Hc; [|apply modes_split].
    destruct (release_hands m _ _ _ _ Hc Er) as [_ Hw]. rewrite <- Hw, elem_of_app in Hx.
    rewrite !elem_of_app. tauto.
  - by left.
Qed.

(** For the async Mutex, Semaphore and RwLock alike: in every state reachable
    from a consistent one, a coroutine suspended on the primitive is never
    dropped (each step leaves it queued, posted or holding), and as long as
    one is suspended some other coroutine owns the resource or is about to be
    resumed with it, so a release or a resumption is always possible, unless
    the primitive is a semaphore made with no permits. *)
Theorem async_no_lost_wakeup (s0 s : Sys P M) :
  SysInv s0 → rtc sys_step s0 s →
  (∀ s' x, sys_step s s' → x ∈ waiting (prim s) →
     x ∈ waiting (prim s') ∨ x ∈ posted s' ∨ x ∈ held s') ∧
  (waiting (prim s) ≠ [] → held s ≠ [] ∨ posted s ≠ [] ∨ barren (prim s)).
Proof.
  intros H0 Hr. pose proof (sys_reachable_inv _ _ Hr H0) as HI. split.
  - intros s' x Hs. by apply handles_kept.
  - intros Hw. destruct HI as [Hc _].
    destruct (waiting_has_owner _ _ Hc Hw) as [Hg|Hb]; [|by right; right]. unfold modes in Hg.
    destruct (held s); [right|by left]. left. by destruct (posted s).
Qed.

End SystemTheory.

Definition mutex_sys : Sys Mutex unit := MkSys Mutex_init [] [].
Definition semaphore_sys (n : Z) : Sys Semaphore unit := MkSys (Semaphore_init n) [] [].
Definition rwlock_sys : Sys RwLock rw_mode := MkSys RwLock_init [] [].

Lemma constructed_sys_inv {P M} `{AsyncPrimLaws P M} (p : P) : constructed p → SysInv (MkSys p [] []).
Proof. intros [Hc Hw]%constructed_consistent. split; [done|]. unfold handles. simpl. rewrite Hw. constructor. Qed.

Lemma mutex_sys_inv : SysInv mutex_sys.
Proof. by apply constructed_sys_inv. Qed.
Lemma semaphore_sys_inv n : 0 <= n < 2 ^ 64 → SysInv (semaphore_sys n).
Proof. intros Hn. apply constructed_sys_inv. by exists n. Qed.
Lemma rwlock_sys_inv : SysInv rwlock_sys.
Proof. by apply constructed_sys_inv. Qed.

(** Coroutine 1 holds the write lock while reader 2 is suspended. *)
Definition sample_rw : Sys RwLock rw_mode := MkSys (MkRwLock (-1) [2] []) [(1, Write)] [].

Lemma sample_rw_reachable : rtc sys_step rwlock_sys sample_rw.
Proof.
  eapply rtc_l; [apply (step_acquire 1 Write); [set_solver|reflexivity]|].
  eapply rtc_l; [apply (step_suspend 2 Read); [set_solver|reflexivity]|]. apply rtc_refl.
Qed.

Lemma async_no_lost_wakeup_witness :
  waiting (prim sample_rw) ≠ [] ∧ (held sample_rw ≠ [] ∨ posted sample_rw ≠ [] ∨ barren (prim sample_rw)).
Proof.
  split; [done|].
  apply (async_no_lost_wakeup rwlock_sys sample_rw rwlock_sys_inv sample_rw_reachable). done.
Defined.

(** At most one coroutine owns an async Mutex at any time (with a live guard
    or posted for resumption with it), [isLocked] says exactly whether one
    does, [tryLock] fails exactly then, and coroutines queue only behind an
    owner. *)
Theorem mutex_exclusion (s : Sys Mutex unit) :
  rtc sys_step mutex_sys s →
  (length (held s) + length (posted s) <= 1)%nat ∧
  (Mutex_isLocked (prim s) = true ↔ held s ++ posted s ≠ []) ∧
  (Mutex_tryLock (prim s)).1 = negb (Mutex_isLocked (prim s)) ∧
  (mutex_waiters_ (prim s) ≠ [] → Mutex_isLocked (prim s) = true).
Proof.
  intros Hr. destruct (sys_reachable_inv _ _ Hr mutex_sys_inv) as [Hc _].
  unfold Mutex_isLocked, Mutex_tryLock, Mutex_await_ready. simpl in Hc. unfold modes in Hc.
  assert (Hne : held s ++ posted s ≠ [] ↔ length (held s ++ posted s) ≠ 0%nat).
  { by rewrite length_zero_iff_nil. }
  rewrite Hne. rewrite length_app in *. destruct Hc as [[Hl Hg]|(Hl & Hg & Hw)].
  - rewrite length_fmap, length_app in Hg. rewrite Hl. split_and!; try done; lia.
  - apply (f_equal length) in Hg. rewrite length_fmap, length_app in Hg. simpl in Hg.
    rewrite Hl. split_and!; try done; lia.
Qed.

(** Coroutine 1 holds, 2 waits; 1 unlocks and 2 is posted. *)
Definition sample_mutex : Sys Mutex unit := MkSys (MkMutex true []) [] [(2, tt)].

Lemma mutex_exclusion_witness :
  rtc sys_step mutex_sys sample_mutex ∧
  (length (held sample_mutex) + length (posted sample_mutex) <= 1)%nat.
Proof.
  assert (Hr : rtc sys_step mutex_sys sample_mutex).
  { eapply rtc_l; [apply (step_acquire 1 tt); [set_solver|reflexivity]|].
    eapply rtc_l; [apply (step_suspend 2 tt); [set_solver|reflexivity]|].
    eapply rtc_l; [apply (step_release 1 tt [] []); reflexivity|]. apply rtc_refl. }
  split; [exact Hr|]. exact (proj1 (mutex_exclusion sample_mutex Hr)).
Defined.

(** Permits of an async Semaphore are conserved: available permits plus
    owners is always the capacity, so never more coroutines than the capacity
    are inside, and coroutines queue only when no permit is available. *)
Theorem semaphore_permits n (s : Sys Semaphore unit) :
  0 <= n < 2 ^ 64 → rtc sys_step (semaphore_sys n) s →
  Semaphore_available (prim s) + Z.of_nat (length (held s) + length (posted s)) = n ∧
  0 <= Semaphore_available (prim s) ∧
  (sem_waiters_ (prim s) ≠ [] → Z.of_nat (length (held s) + length (posted s)) = n) ∧
  ((Semaphore_tryAcquire (prim s)).1 = true ↔ 0 < Semaphore_available (prim s)).
Proof.
  intros Hn Hr. pose proof (sys_reachable_inv _ _ Hr (semaphore_sys_inv n Hn)) as [Hc _].
  assert (Hcap : capacity_ (prim s) = n).
  { refine (rtc_invariant sys_step (λ s, capacity_ (prim s) = n) _ _ _ Hr eq_refl).
    intros a b Hs. destruct Hs; simpl in *; unfold Semaphore_await_ready, Semaphore_release in *;
      repeat case_match; simplify_eq/=; done. }
  simpl in Hc. unfold modes in Hc. rewrite length_fmap, length_app in Hc.
  destruct Hc as (H1 & H2 & H3 & H4). unfold Semaphore_available, Semaphore_tryAcquire, Semaphore_await_ready.
  split_and!; [lia|lia|intros Hw; specialize (H4 Hw); lia|].
  case_match; bool_hyps; simpl; split; try done; lia.
Qed.

Definition sample_semaphore : Sys Semaphore unit :=
  MkSys (MkSemaphore 0 2 [9]) [(8, tt); (7, tt)] [].

Lemma semaphore_permits_witness :
  rtc sys_step (semaphore_sys 2) sample_semaphore ∧
  Semaphore_available (prim sample_semaphore) + 2 = 2.
Proof.
  assert (Hr : rtc sys_step (semaphore_sys 2) sample_semaphore).
  { eapply rtc_l; [apply (step_acquire 7 tt); [set_solver|reflexivity]|].
    eapply rtc_l; [apply (step_acquire 8 tt); [set_solver|reflexivity]|].
    eapply rtc_l; [apply (step_suspend 9 tt); [set_solver|reflexivity]|]. apply rtc_refl. }
  split; [exact Hr|].
  exact (proj1 (semaphore_permits 2 sample_semaphore ltac:(lia) Hr)).
Defined.

(** An async RwLock is owned by one writer or by any number of readers, never
    both, and [state_] counts them; readers queue only while a writer owns it,
    writers only while somebody does.  A reader that arrives while readers own
    the lock is let in even when writers are queued. *)
Theorem rwlock_exclusion (s : Sys RwLock rw_mode) :
  rtc sys_step rwlock_sys s →
  ((modes s = [Write] ∧ RwLock_hasWriter (prim s) = true ∧ RwLock_hasReaders (prim s) = false) ∨
   (Forall (eq Read) (modes s) ∧ state_ (prim s) = Z.of_nat (length (modes s)) ∧
    readWaiters_ (prim s) = [] ∧ RwLock_hasWriter (prim s) = false ∧
    (writeWaiters_ (prim s) ≠ [] → RwLock_hasReaders (prim s) = true) ∧
    (await_ready Read (prim s)).1 = true)).
Proof.
  intros Hr. destruct (sys_reachable_inv _ _ Hr rwlock_sys_inv) as [Hc _]. simpl in Hc.
  unfold RwLock_hasWriter, RwLock_hasReaders. simpl. unfold RwLock_read_ready.
  destruct Hc as [[Hg Hs]|(Hrw & Hf & Hs & Hw)].
  - left. rewrite Hs. done.
  - right. rewrite Hs in *. split_and!; try done.
    + destruct (Z.ltb_spec (Z.of_nat (length (modes s))) 0); [lia|done].
    + intros Hne. specialize (Hw Hne). destruct (modes s); [done|simpl]. rewrite Z.gtb_ltb.
      apply Z.ltb_lt. lia.
    + rewrite Z.geb_leb. destruct (Z.leb_spec 0 (Z.of_nat (length (modes s)))); [done|lia].
Qed.

Lemma rwlock_exclusion_witness :
  modes sample_rw = [Write] ∧ RwLock_hasWriter (prim sample_rw) = true.
Proof.
  destruct (rwlock_exclusion sample_rw sample_rw_reachable) as [(H1 & H2 & _)|(H & _)].
  - split; [exact H1|exact H2].
  - exfalso. apply Forall_cons in H as [H _]. discriminate H.
Defined.
