(* ===== verification/Channel.v ===== *)
(** * Bounded MPMC channel (src/include/pman/async/channel.hpp)

    [ChannelImpl] with its two waiter queues, the awaiters and the [Sender] and
    [Receiver] coroutines, run on an event loop: [resumeHandle] posts the handle
    to the current loop, and [resume] runs the oldest posted one.  The history
    fields [accepted] and [received] record what entered and left the buffer.
    Moving out of a C++ object leaves it in the state [moved_from] gives
    (the identity for trivially copyable types). *)

From S2P Require Import Prelude.

(** Which awaiter a posted handle belongs to. *)
Inductive side := SendSide | RecvSide.
#[export] Instance side_eq_dec : EqDecision side.
Proof. solve_decision. Defined.

(** The outcome of a coroutine call: finished with a value, or suspended. *)
Inductive co (A : Type) := Done (a : A) | Suspended.
Arguments Done {A} a.
Arguments Suspended {A}.

Section Channel.
Context {T : Type} (moved_from : T → T).

(** [struct SendWaiter]; its shared [sent_flag] is the flag of its handle. *)
Record SendWaiter := MkSendWaiter { sw_handle : Z; sw_value : T }.

Record ChannelImpl := MkChannel {
  capacity_ : nat;
  closed_ : bool;
  buffer_ : list T;
  recvWaiters_ : list Z;
  sendWaiters_ : list SendWaiter;
  sent_flags : gmap Z bool;             (* the shared_ptr<bool> of each sender *)
  posted : list (Z * side);             (* handles posted to the event loop *)
  accepted : list T;
  received : list T
}.

Definition channel (capacity : nat) : ChannelImpl :=
  MkChannel capacity false [] [] [] ∅ [] [] [].

(** ** The implementation object *)

Definition resumeHandle (h : Z) (k : side) (c : ChannelImpl) : ChannelImpl :=
  MkChannel (capacity_ c) (closed_ c) (buffer_ c) (recvWaiters_ c) (sendWaiters_ c)
    (sent_flags c) (posted c ++ [(h, k)]) (accepted c) (received c).

Definition push_back (v : T) (c : ChannelImpl) : ChannelImpl :=
  MkChannel (capacity_ c) (closed_ c) (buffer_ c ++ [v]) (recvWaiters_ c) (sendWaiters_ c)
    (sent_flags c) (posted c) (accepted c ++ [v]) (received c).

Definition wakeNextReceiverLocked (c : ChannelImpl) : ChannelImpl :=
  match recvWaiters_ c with
  | [] => c
  | h :: q =>
      resumeHandle h RecvSide
        (MkChannel (capacity_ c) (closed_ c) (buffer_ c) q (sendWaiters_ c)
           (sent_flags c) (posted c) (accepted c) (received c))
  end.

Definition wakeNextSenderLocked (c : ChannelImpl) : ChannelImpl :=
  match sendWaiters_ c with
  | [] => c
  | w :: q =>
      if Nat.ltb (length (buffer_ c)) (capacity_ c) then
        let c1 := MkChannel (capacity_ c) (closed_ c) (buffer_ c) (recvWaiters_ c) q
                    (<[sw_handle w := true]> (sent_flags c)) (posted c) (accepted c) (received c) in
        resumeHandle (sw_handle w) SendSide (wakeNextReceiverLocked (push_back (sw_value w) c1))
      else c
  end.

(** Popping the front of a non-empty buffer, then waking a sender. *)
Definition pop_front (v : T) (b : list T) (c : ChannelImpl) : ChannelImpl :=
  wakeNextSenderLocked
    (MkChannel (capacity_ c) (closed_ c) b (recvWaiters_ c) (sendWaiters_ c)
       (sent_flags c) (posted c) (accepted c) (received c ++ [v])).

Definition trySend (v : T) (c : ChannelImpl) : bool * ChannelImpl :=
  if closed_ c then (false, c)
  else if Nat.leb (capacity_ c) (length (buffer_ c)) then (false, c)
  else (true, wakeNextReceiverLocked (push_back v c)).

Definition tryRecv (c : ChannelImpl) : option T * ChannelImpl :=
  match buffer_ c with
  | [] => (None, c)
  | v :: b => (Some v, pop_front v b c)
  end.

Definition close (c : ChannelImpl) : ChannelImpl :=
  if closed_ c then c
  else MkChannel (capacity_ c) true (buffer_ c) [] [] (sent_flags c)
         (posted c ++ ((λ h, (h, RecvSide)) <$> recvWaiters_ c)
                   ++ ((λ w, (sw_handle w, SendSide)) <$> sendWaiters_ c))
         (accepted c) (received c).

(** ** Awaiters *)

Definition SendAwaiter_ready (c : ChannelImpl) : bool :=
  if closed_ c then true else Nat.ltb (length (buffer_ c)) (capacity_ c).
Definition SendAwaiter_suspend (h : Z) (v : T) (c : ChannelImpl) : ChannelImpl :=
  MkChannel (capacity_ c) (closed_ c) (buffer_ c) (recvWaiters_ c)
    (sendWaiters_ c ++ [MkSendWaiter h v]) (<[h := false]> (sent_flags c))
    (posted c) (accepted c) (received c).
Definition SendAwaiter_resume (h : Z) (c : ChannelImpl) : bool :=
  if closed_ c then false else default false (sent_flags c !! h).

Definition RecvAwaiter_ready (c : ChannelImpl) : bool :=
  if closed_ c then true else match buffer_ c with [] => false | _ => true end.
Definition RecvAwaiter_suspend (h : Z) (c : ChannelImpl) : ChannelImpl :=
  MkChannel (capacity_ c) (closed_ c) (buffer_ c) (recvWaiters_ c ++ [h]) (sendWaiters_ c)
    (sent_flags c) (posted c) (accepted c) (received c).
Definition RecvAwaiter_resume (c : ChannelImpl) : option T * ChannelImpl := tryRecv c.

(** ** Sender and Receiver coroutines *)

(** [Sender::send] run by coroutine [h]: [std::move(value)] goes to [trySend]
    by value, and what is left of it to the awaiter. *)
Definition send (h : Z) (v : T) (c : ChannelImpl) : co bool * ChannelImpl :=
  if closed_ c then (Done false, c)
  else
    let '(ok, c1) := trySend v c in
    if ok then (Done true, c1)
    else if SendAwaiter_ready c1 then (Done (SendAwaiter_resume h (
           MkChannel (capacity_ c1) (closed_ c1) (buffer_ c1) (recvWaiters_ c1) (sendWaiters_ c1)
             (<[h := false]> (sent_flags c1)) (posted c1) (accepted c1) (received c1))), c1)
    else (Suspended, SendAwaiter_suspend h (moved_from v) c1).

Definition recv (h : Z) (c : ChannelImpl) : co (option T) * ChannelImpl :=
  let '(v, c1) := tryRecv c in
  match v with
  | Some x => (Done (Some x), c1)
  | None =>
      if closed_ c1 then (Done None, c1)
      else if RecvAwaiter_ready c1 then let '(r, c2) := RecvAwaiter_resume c1 in (Done r, c2)
      else (Suspended, RecvAwaiter_suspend h c1)
  end.

(** What a resumed coroutine's [co_await] yields. *)
Inductive resumed := SendResult (ok : bool) | RecvResult (v : option T).

(** The loop runs the oldest posted handle. *)
Definition resume (c : ChannelImpl) : option (Z * resumed * ChannelImpl) :=
  match posted c with
  | [] => None
  | (h, k) :: q =>
      let c1 := MkChannel (capacity_ c) (closed_ c) (buffer_ c) (recvWaiters_ c) (sendWaiters_ c)
                  (sent_flags c) q (accepted c) (received c) in
      match k with
      | SendSide => Some (h, SendResult (SendAwaiter_resume h c1), c1)
      | RecvSide => let '(r, c2) := RecvAwaiter_resume c1 in Some (h, RecvResult r, c2)
      end
  end.

(** ** Runs *)

Inductive chan_step : ChannelImpl → ChannelImpl → Prop :=
  | st_trySend v c : chan_step c (trySend v c).2
  | st_tryRecv c : chan_step c (tryRecv c).2
  | st_send h v c : chan_step c (send h v c).2
  | st_recv h c : chan_step c (recv h c).2
  | st_close c : chan_step c (close c)
  | st_resume c h r c' : resume c = Some (h, r, c') → chan_step c c'.

(** ** Invariant *)

Definition posted_receivers (c : ChannelImpl) : nat :=
  length (filter (λ p, p.2 = RecvSide) (posted c)).

(** The buffer is what was accepted and not yet received, in order, within the
    capacity; senders wait only on a full buffer; while receivers wait, each
    buffered item has a receiver already posted for it; a closed channel has
    no waiters. *)
Record ChanInv (c : ChannelImpl) : Prop := {
  ci_fifo : accepted c = received c ++ buffer_ c;
  ci_cap : (length (buffer_ c) <= capacity_ c)%nat;
  ci_full : sendWaiters_ c ≠ [] → length (buffer_ c) = capacity_ c;
  ci_recv : recvWaiters_ c ≠ [] → (length (buffer_ c) <= posted_receivers c)%nat;
  ci_closed : closed_ c = true → recvWaiters_ c = [] ∧ sendWaiters_ c = []
}.

Lemma posted_receivers_app l k :
  length (filter (λ p : Z * side, p.2 = RecvSide) (l ++ [k])) =
  (length (filter (λ p, p.2 = RecvSide) l) + if decide (k.2 = RecvSide) then 1 else 0)%nat.
Proof.
  rewrite filter_app, length_app, filter_cons. destruct (decide (k.2 = RecvSide)); done.
Qed.

(** Pushing into a buffer with room, whoever waits for room being dealt with
    first, and waking a receiver. *)
Lemma push_inv v c :
  accepted c = received c ++ buffer_ c → (length (buffer_ c) < capacity_ c)%nat →
  (sendWaiters_ c ≠ [] → S (length (buffer_ c)) = capacity_ c) →
  (recvWaiters_ c ≠ [] → (length (buffer_ c) <= posted_receivers c)%nat) →
  (closed_ c = true → recvWaiters_ c = [] ∧ sendWaiters_ c = []) →
  ChanInv (wakeNextReceiverLocked (push_back v c)).
Proof.
  intros Hf Hc Hs Hr Hcl. unfold wakeNextReceiverLocked. simpl.
  destruct (recvWaiters_ c) as [|h q] eqn:E; constructor; simpl;
    rewrite ?Hf, ?length_app, ?app_assoc, ?E; simpl; try done; try lia.
  - intros Hne. specialize (Hs Hne). lia.
  - intros Hne. specialize (Hs Hne). lia.
  - intros _. unfold posted_receivers in *. simpl. rewrite posted_receivers_app. simpl.
    specialize (Hr ltac:(done)). lia.
  - intros Hx. by destruct (Hcl Hx).
Qed.

Lemma resumeHandle_inv h k c : ChanInv c → ChanInv (resumeHandle h k c).
Proof.
  intros [Hf Hc Hs Hr Hcl]. constructor; simpl; try done. intros Hne.
  specialize (Hr Hne). unfold posted_receivers in *. simpl. rewrite posted_receivers_app. lia.
Qed.

(** Popping, with one receiver fewer posted than there are items. *)
Lemma pop_front_inv v b c :
  accepted c = received c ++ v :: b → (S (length b) <= capacity_ c)%nat →
  (sendWaiters_ c ≠ [] → S (length b) = capacity_ c) →
  (recvWaiters_ c ≠ [] → (length b <= posted_receivers c)%nat) →
  (closed_ c = true → recvWaiters_ c = [] ∧ sendWaiters_ c = []) →
  ChanInv (pop_front v b c).
Proof.
  intros Hf Hc Hs Hr Hcl. unfold pop_front, wakeNextSenderLocked.
  simpl. destruct (sendWaiters_ c) as [|w q] eqn:Es.
  - constructor; simpl; rewrite ?Hf, <- ?app_assoc; try done. lia.
  - specialize (Hs ltac:(done)). destruct (Nat.ltb_spec (length b) (capacity_ c)); [|lia].
    apply resumeHandle_inv, push_inv; simpl; try done.
    + by rewrite Hf, <- app_assoc.
    + intros Hx. destruct (Hcl Hx). done.
Qed.

Lemma trySend_inv v c : ChanInv c → ChanInv (trySend v c).2.
Proof.
  intros HI. unfold trySend. destruct (closed_ c) eqn:Ec; [done|].
  destruct (Nat.leb_spec (capacity_ c) (length (buffer_ c))); [done|]. simpl.
  destruct HI as [Hf Hc Hs Hr Hcl]. apply push_inv; try done.
  intros Hne. specialize (Hs Hne). lia.
Qed.

Lemma tryRecv_inv c : ChanInv c → ChanInv (tryRecv c).2.
Proof.
  intros HI. unfold tryRecv. destruct (buffer_ c) as [|v b] eqn:E; [done|].
  destruct HI as [Hf Hc Hs Hr Hcl]. rewrite E in *. simpl in *. apply pop_front_inv; try done.
  intros Hne. specialize (Hr Hne). lia.
Qed.

Lemma send_inv h v c : ChanInv c → ChanInv (send h v c).2.
Proof.
  intros HI. unfold send. destruct (closed_ c) eqn:Ec; [done|].
  pose proof (trySend_inv v c HI) as H1. unfold trySend in *. rewrite Ec in *.
  destruct (Nat.leb_spec (capacity_ c) (length (buffer_ c))); simpl in *; [|done].
  unfold SendAwaiter_ready. rewrite Ec.
  destruct (Nat.ltb_spec (length (buffer_ c)) (capacity_ c)); [done|]. simpl.
  destruct H1 as [Hf Hc Hs Hr Hcl]. constructor; simpl; try done; [lia|]. congruence.
Qed.

Lemma recv_inv h c : ChanInv c → ChanInv (recv h c).2.
Proof.
  intros HI. unfold recv, RecvAwaiter_ready, RecvAwaiter_resume.
  pose proof (tryRecv_inv c HI) as H1. unfold tryRecv in *.
  destruct (buffer_ c) as [|v b] eqn:E; [|done]. rewrite E. simpl in *.
  destruct (closed_ c) eqn:Ec; simpl; [done|].
  destruct H1 as [Hf Hc Hs Hr Hcl]. constructor; simpl; try done; [|congruence].
  intros _. rewrite E. simpl. lia.
Qed.

Lemma resume_inv c h r c' : ChanInv c → resume c = Some (h, r, c') → ChanInv c'.
Proof.
  intros [Hf Hc Hs Hr Hcl]. unfold resume, RecvAwaiter_resume, tryRecv.
  unfold posted_receivers in *.
  destruct (posted c) as [|[h' k] q] eqn:Ep; [done|]. rewrite filter_cons in Hr. destruct k; simpl in *.
  - intros; simplify_eq. by constructor.
  - destruct (buffer_ c) as [|v b] eqn:E; intros; simplify_eq.
    + constructor; simpl; rewrite ?E; try done. lia.
    + apply pop_front_inv; simpl in *; try done.
      intros Hne. specialize (Hr Hne). unfold posted_receivers. simpl. lia.
Qed.

Lemma chan_step_inv c c' : chan_step c c' → ChanInv c → ChanInv c'.
Proof.
  intros [] HI; eauto using trySend_inv, tryRecv_inv, send_inv, recv_inv, resume_inv.
  unfold close. destruct (closed_ c0) eqn:Ec; [done|].
  destruct HI as [Hf Hc Hs Hr Hcl]. by constructor.
Qed.

Lemma channel_inv n : ChanInv (channel n).
Proof. constructor; simpl; try done. lia. Qed.

(** ** The abstract queue *)

(** What a client sees: a call with its arguments and its answer, or the answer
    that a suspended call gets later. *)
Inductive label :=
  | LTrySend (v : T) (ok : bool)
  | LTryRecv (r : option T)
  | LSend (h : Z) (v : T) (r : co bool)
  | LRecv (h : Z) (r : co (option T))
  | LClose
  | LResume (h : Z) (r : resumed).

Inductive chan_lstep : ChannelImpl → label → ChannelImpl → Prop :=
  | ls_trySend v c : chan_lstep c (LTrySend v (trySend v c).1) (trySend v c).2
  | ls_tryRecv c : chan_lstep c (LTryRecv (tryRecv c).1) (tryRecv c).2
  | ls_send h v c : chan_lstep c (LSend h v (send h v c).1) (send h v c).2
  | ls_recv h c : chan_lstep c (LRecv h (recv h c).1) (recv h c).2
  | ls_close c : chan_lstep c LClose (close c)
  | ls_resume c h r c' : resume c = Some (h, r, c') → chan_lstep c (LResume h r) c'.

(** What a channel promises: a bounded first-in first-out queue of [items] that
    can be closed.  [offers] are the values of suspended senders, oldest first,
    which enter as room appears; [entered] the senders whose value has;
    [asleep] the suspended calls, each of which is answered once. *)
Record Queue := MkQueue {
  items : list T;
  offers : list (Z * T);
  entered : gset Z;
  q_closed : bool;
  asleep : list (Z * side)
}.

Definition empty_queue : Queue := MkQueue [] [] ∅ false [].

Definition put (v : T) (q : Queue) : Queue := MkQueue (items q ++ [v]) (offers q) (entered q) (q_closed q) (asleep q).

Definition top_up (n : nat) (q : Queue) : Queue :=
  match offers q with
  | (h, v) :: os =>
      if (length (items q) <? n)%nat
      then MkQueue (items q ++ [v]) os ({[h]} ∪ entered q) (q_closed q) (asleep q) else q
  | [] => q
  end.

(** The front leaves, and an offer takes the room. *)
Definition take (n : nat) (rest : list T) (q : Queue) : Queue :=
  top_up n (MkQueue rest (offers q) (entered q) (q_closed q) (asleep q)).

Definition answered (l : list (Z * side)) (q : Queue) : Queue :=
  MkQueue (items q) (offers q) (entered q) (q_closed q) l.

Inductive queue_step (n : nat) : Queue → label → Queue → Prop :=
  | q_trySend v q : q_closed q = false → (length (items q) < n)%nat → queue_step n q (LTrySend v true) (put v q)
  | q_trySend_no v q : q_closed q = true ∨ (n <= length (items q))%nat → queue_step n q (LTrySend v false) q
  | q_tryRecv v rest q : items q = v :: rest → queue_step n q (LTryRecv (Some v)) (take n rest q)
  | q_tryRecv_no q : items q = [] → queue_step n q (LTryRecv None) q
  | q_send h v q : q_closed q = false → (length (items q) < n)%nat → queue_step n q (LSend h v (Done true)) (put v q)
  | q_send_closed h v q : q_closed q = true → queue_step n q (LSend h v (Done false)) q
  | q_send_waits h v q :
      q_closed q = false → (n <= length (items q))%nat →
      queue_step n q (LSend h v Suspended)
        (MkQueue (items q) (offers q ++ [(h, moved_from v)]) (entered q ∖ {[h]}) false ((h, SendSide) :: asleep q))
  | q_recv h v rest q : items q = v :: rest → queue_step n q (LRecv h (Done (Some v))) (take n rest q)
  | q_recv_closed h q : items q = [] → q_closed q = true → queue_step n q (LRecv h (Done None)) q
  | q_recv_waits h q :
      items q = [] → q_closed q = false →
      queue_step n q (LRecv h Suspended) (answered ((h, RecvSide) :: asleep q) q)
  | q_close q : queue_step n q LClose (MkQueue (items q) [] (entered q) true (asleep q))
  | q_resume_send h l q :
      asleep q ≡ₚ (h, SendSide) :: l →
      queue_step n q (LResume h (SendResult (negb (q_closed q) && bool_decide (h ∈ entered q)))) (answered l q)
  | q_resume_recv h v rest l q :
      asleep q ≡ₚ (h, RecvSide) :: l → items q = v :: rest →
      queue_step n q (LResume h (RecvResult (Some v))) (take n rest (answered l q))
  | q_resume_none h l q :
      asleep q ≡ₚ (h, RecvSide) :: l → items q = [] →
      queue_step n q (LResume h (RecvResult None)) (answered l q).

(** A run with what the clients see. *)
Inductive run_of {S} (step : S → label → S → Prop) : S → list label → S → Prop :=
  | run_nil s : run_of step s [] s
  | run_cons s l s1 ls s2 : step s l s1 → run_of step s1 ls s2 → run_of step s (l :: ls) s2.

(** ** The channel implements the queue *)

Definition queued (c : ChannelImpl) : list (Z * side) :=
  ((λ h, (h, RecvSide)) <$> recvWaiters_ c) ++ ((λ w, (sw_handle w, SendSide)) <$> sendWaiters_ c) ++ posted c.

Record Implements (c : ChannelImpl) (q : Queue) : Prop := {
  im_items : items q = buffer_ c;
  im_offers : offers q = (λ w, (sw_handle w, sw_value w)) <$> sendWaiters_ c;
  im_entered h : bool_decide (h ∈ entered q) = default false (sent_flags c !! h);
  im_closed : q_closed q = closed_ c;
  im_asleep : asleep q ≡ₚ queued c
}.

Lemma wakeNextReceiver_implements c q : Implements c q → Implements (wakeNextReceiverLocked c) q.
Proof.
  intros [H1 H2 H3 H4 H5]. unfold wakeNextReceiverLocked. destruct (recvWaiters_ c) as [|h l] eqn:E; [done|].
  split; try done. rewrite H5. unfold queued. cbn. rewrite E. cbn. solve_Permutation.
Qed.

Lemma push_implements v c q : Implements c q → Implements (push_back v c) (put v q).
Proof. intros [H1 H2 H3 H4 H5]. split; try done. cbn. by rewrite H1. Qed.

Lemma top_up_implements c q : Implements c q → Implements (wakeNextSenderLocked c) (top_up (capacity_ c) q).
Proof.
  intros HI. pose proof HI as [H1 H2 H3 H4 H5]. unfold wakeNextSenderLocked, top_up. rewrite H2, H1.
  destruct (sendWaiters_ c) as [|w l] eqn:E; [done|]. cbn -[Nat.ltb]. destruct (Nat.ltb (length (buffer_ c)) (capacity_ c)); [|done].
  set (c1 := MkChannel (capacity_ c) (closed_ c) (buffer_ c) (recvWaiters_ c) l
               (<[sw_handle w := true]> (sent_flags c)) (posted c ++ [(sw_handle w, SendSide)]) (accepted c) (received c)).
  assert (H : Implements (wakeNextReceiverLocked (push_back (sw_value w) c1))
                (MkQueue (buffer_ c ++ [sw_value w]) ((λ w, (sw_handle w, sw_value w)) <$> l)
                   ({[sw_handle w]} ∪ entered q) (q_closed q) (asleep q))).
  { apply wakeNextReceiver_implements. split; try done.
    - intros h. cbn. destruct (decide (h = sw_handle w)) as [->|Hh].
      + rewrite lookup_insert_eq. apply bool_decide_eq_true. set_solver.
      + rewrite lookup_insert_ne, <- H3 by done. apply bool_decide_ext. set_solver.
    - cbn [asleep]. rewrite H5. unfold queued. cbn. rewrite E. cbn. solve_Permutation. }
  destruct H as [G1 G2 G3 G4 G5]. split; cbn in *.
  - rewrite G1. unfold wakeNextReceiverLocked. by destruct (recvWaiters_ _).
  - rewrite G2. unfold wakeNextReceiverLocked. by destruct (recvWaiters_ _).
  - intros h. rewrite G3. unfold wakeNextReceiverLocked. by destruct (recvWaiters_ _).
  - rewrite G4. unfold wakeNextReceiverLocked. by destruct (recvWaiters_ _).
  - rewrite G5. unfold wakeNextReceiverLocked, queued. cbn. destruct (recvWaiters_ c); cbn; solve_Permutation.
Qed.

Lemma pop_implements v b c q :
  Implements c q → Implements (pop_front v b c) (take (capacity_ c) b q).
Proof.
  intros [H1 H2 H3 H4 H5]. unfold pop_front, take.
  refine (top_up_implements (MkChannel (capacity_ c) (closed_ c) b _ _ _ _ _ (received c ++ [v])) _ _). by split.
Qed.

Lemma chan_step_capacity c c' : chan_step c c' → capacity_ c' = capacity_ c.
Proof.
  intros []; unfold trySend, tryRecv, send, recv, close, resume, RecvAwaiter_ready,
    RecvAwaiter_resume, SendAwaiter_ready, trySend, tryRecv, pop_front, wakeNextSenderLocked,
    wakeNextReceiverLocked in *; repeat (case_match; simplify_eq/=); done.
Qed.

Lemma resumed_implements h k l c q :
  Implements c q → posted c = (h, k) :: l →
  ∃ ls, asleep q ≡ₚ (h, k) :: ls ∧
    Implements (MkChannel (capacity_ c) (closed_ c) (buffer_ c) (recvWaiters_ c) (sendWaiters_ c) (sent_flags c) l
                  (accepted c) (received c)) (answered ls q).
Proof.
  intros [H1 H2 H3 H4 H5] E.
  exists (((λ h, (h, RecvSide)) <$> recvWaiters_ c) ++ ((λ w, (sw_handle w, SendSide)) <$> sendWaiters_ c) ++ l).
  split; [|by split]. rewrite H5. unfold queued. rewrite E. solve_Permutation.
Qed.

(** Each step of the channel is the step of the queue with the same label. *)
Lemma chan_step_refines c l c' q :
  chan_lstep c l c' → ChanInv c → Implements c q →
  ∃ q', queue_step (capacity_ c) q l q' ∧ Implements c' q'.
Proof.
  intros Hs HC HI. pose proof HI as [H1 H2 H3 H4 H5].
  destruct Hs as [v c|c|h v c|h c|c|c h r c' Hr].
  - unfold trySend. destruct (closed_ c) eqn:Ec; [exists q; split; [apply q_trySend_no; left; congruence|done]|].
    destruct (Nat.leb_spec (capacity_ c) (length (buffer_ c))); cbn.
    + exists q. split; [apply q_trySend_no; right; by rewrite H1|done].
    + exists (put v q). split; [apply q_trySend; [congruence|by rewrite H1]|].
      by apply wakeNextReceiver_implements, push_implements.
  - unfold tryRecv. destruct (buffer_ c) as [|v b] eqn:E; cbn; [exists q; split; [by apply q_tryRecv_no|done]|].
    eexists. split; [by apply q_tryRecv|by apply pop_implements].
  - unfold send, trySend. destruct (closed_ c) eqn:Ec; [exists q; split; [apply q_send_closed; congruence|done]|].
    destruct (Nat.leb_spec (capacity_ c) (length (buffer_ c))); cbn.
    + unfold SendAwaiter_ready. rewrite Ec. destruct (Nat.ltb_spec (length (buffer_ c)) (capacity_ c)); [lia|]. cbn.
      eexists. split; [apply q_send_waits; [congruence|by rewrite H1]|]. split; cbn; try congruence.
      * by rewrite H2, fmap_app.
      * intros x. destruct (decide (x = h)) as [->|Hx].
        -- rewrite lookup_insert_eq. apply bool_decide_eq_false. set_solver.
        -- rewrite lookup_insert_ne, <- H3 by done. apply bool_decide_ext. set_solver.
      * cbn [asleep answered]. rewrite H5. unfold queued. cbn. rewrite fmap_app. cbn. solve_Permutation.
    + exists (put v q). split; [apply q_send; [congruence|by rewrite H1]|].
      by apply wakeNextReceiver_implements, push_implements.
  - unfold recv, tryRecv, RecvAwaiter_ready. destruct (buffer_ c) as [|v b] eqn:E; cbn.
    + destruct (closed_ c) eqn:Ec; cbn; [exists q; split; [by apply q_recv_closed; congruence|done]|].
      rewrite E. eexists. split; [apply q_recv_waits; congruence|]. split; cbn; try congruence; try done.
      cbn [asleep answered]. rewrite H5. unfold queued. cbn. rewrite fmap_app. cbn. solve_Permutation.
    + eexists. split; [by apply q_recv|by apply pop_implements].
  - eexists. split; [apply q_close|]. unfold close. destruct (closed_ c) eqn:Ec; split; cbn; try congruence; try done.
    + destruct HC as [_ _ _ _ Hcl]. by destruct (Hcl Ec) as [_ ->].
    + cbn [asleep]. rewrite H5. unfold queued. cbn. solve_Permutation.
  - unfold resume in Hr. destruct (posted c) as [|[h' k] l] eqn:E; [done|].
    destruct (resumed_implements h' k l c q HI E) as (ls & Hls & HI').
    destruct k; simplify_eq.
    + replace (SendAwaiter_resume h _) with (negb (q_closed q) && bool_decide (h ∈ entered q)).
      2:{ unfold SendAwaiter_resume. cbn. rewrite H4, H3. by destruct (closed_ c). }
      exists (answered ls q). split; [by apply q_resume_send|done].
    + unfold RecvAwaiter_resume, tryRecv in Hr. cbn in Hr. destruct (buffer_ c) as [|v b] eqn:Eb; simplify_eq.
      * exists (answered ls q). split; [apply q_resume_none; [done|congruence]|]. by rewrite ?Eb in *.
      * eexists. split; [apply (q_resume_recv _ h v b ls); [done|congruence]|].
        pose proof (pop_implements v b _ _ HI') as Hp. exact Hp.
Qed.

Lemma lstep_step c l c' : chan_lstep c l c' → chan_step c c'.
Proof. intros [v x|x|h v x|h x|x|x h r x' E]; econstructor; exact E. Qed.

End Channel.


Definition string_moved (s : string) : string := "".


(** In every reachable state the values received are a prefix of the values
    accepted and the buffer is the rest, in order (nothing is lost,
    duplicated or reordered); the buffer never exceeds the capacity; a sender
    is suspended only while the buffer is full; and while receivers are
    suspended every buffered item has a receiver posted to take it. *)
Theorem channel_fifo {T} (moved_from : T → T) n (c : ChannelImpl) :
  rtc (chan_step moved_from) (channel n) c →
  accepted c = received c ++ buffer_ c ∧
  (length (buffer_ c) <= n)%nat ∧
  (sendWaiters_ c ≠ [] → length (buffer_ c) = n) ∧
  (recvWaiters_ c ≠ [] → (length (buffer_ c) <= posted_receivers c)%nat) ∧
  (closed_ c = true → recvWaiters_ c = [] ∧ sendWaiters_ c = []).
Proof.
  intros Hr. assert (HI : ChanInv c).
  { eapply rtc_invariant; [apply (chan_step_inv moved_from)|exact Hr|apply channel_inv]. }
  assert (Hn : capacity_ c = n).
  { refine (rtc_invariant _ (λ c, capacity_ c = n) _ _ _ Hr eq_refl).
    intros a b Hab <-. by eapply chan_step_capacity. }
  destruct HI as [Hf Hc Hs Hw Hcl]. rewrite Hn in *. done.
Qed.

Lemma channel_fifo_witness :
  let c := (send string_moved 2 "b" (trySend "a" (channel 1)).2).2 in
  sendWaiters_ c ≠ [] ∧ length (buffer_ c) = 1%nat.
Proof.
  split; [discriminate|].
  refine (proj1 (proj2 (proj2 (channel_fifo string_moved 1 _ _))) _); [|discriminate].
  eapply rtc_l; [apply (st_trySend string_moved "a")|]. apply rtc_once, st_send.
Defined.

(** A [send] that has to wait queues what [std::move] left of the value, not
    the value: the argument was already moved into the failed [trySend].  On a
    full channel of capacity 1 holding [a], the blocked send of [b] later
    delivers [moved_from b] (for a string, typically the empty one), and
    reports success. *)
Theorem blocked_send_moved {T} (moved_from : T → T) h v c :
  closed_ c = false → (capacity_ c <= length (buffer_ c))%nat →
  (send moved_from h v c).1 = Suspended ∧
  sendWaiters_ (send moved_from h v c).2 = sendWaiters_ c ++ [MkSendWaiter h (moved_from v)] ∧
  (∀ a b, let c1 := (send moved_from 2 b (trySend a (channel 1)).2).2 in
          let '(r1, c2) := tryRecv c1 in
          let '(r2, c3) := tryRecv c2 in
          r1 = Some a ∧ r2 = Some (moved_from b) ∧
          (resume c3 = Some (2, SendResult true, (MkChannel 1 false [] [] [] {[2 := true]} []
             [a; moved_from b] [a; moved_from b])))).
Proof.
  intros Hcl Hfull. unfold send, trySend. rewrite Hcl.
  destruct (Nat.leb_spec (capacity_ c) (length (buffer_ c))); [|lia].
  unfold SendAwaiter_ready. rewrite Hcl.
  destruct (Nat.ltb_spec (length (buffer_ c)) (capacity_ c)); [lia|].
  split_and!; [done..|]. intros a b. vm_compute. done.
Qed.

Lemma blocked_send_moved_witness :
  let c := (trySend "full" (channel 1)).2 in
  (send string_moved 7 "hello" c).1 = Suspended ∧
  sendWaiters_ (send string_moved 7 "hello" c).2 = [MkSendWaiter 7 ""%string].
Proof.
  destruct (blocked_send_moved string_moved 7 "hello" (trySend "full" (channel 1)).2 eq_refl (le_n 1))
    as (H1 & H2 & _).
  split; [exact H1|]. exact H2.
Defined.

(** [recv] can complete with "none" on an open channel: a receiver that was
    suspended and posted for an item finds the buffer empty when another
    receiver takes the item first. *)
Theorem recv_spurious_none {T} (moved_from : T → T) (a : T) :
  ∃ c c', rtc (chan_step moved_from) (channel 1) c ∧
    resume c = Some (1, RecvResult None, c') ∧ closed_ c' = false ∧ accepted c' = [a].
Proof.
  eexists _, _. split.
  - eapply rtc_l; [apply (st_recv moved_from 1)|].
    eapply rtc_l; [apply (st_trySend moved_from a)|]. apply rtc_once, st_tryRecv.
  - vm_compute. done.
Qed.

(** A channel created with capacity 0 never transfers anything: in every
    reachable state nothing has been accepted, so a waiting sender and a
    waiting receiver stay suspended until the channel is closed. *)
Theorem channel_zero_capacity {T} (moved_from : T → T) (c : ChannelImpl) :
  rtc (chan_step moved_from) (channel 0) c → accepted c = [] ∧ received c = [].
Proof.
  intros Hr.
  assert (H : accepted c = [] ∧ received c = [] ∧ buffer_ c = [] ∧ capacity_ c = 0%nat).
  { refine (rtc_invariant _ (λ c, accepted c = [] ∧ received c = [] ∧ buffer_ c = [] ∧
      capacity_ c = 0%nat) _ _ _ Hr _); [|done].
    intros x y Hs (Ha & Hv & Hb & Hc).
    destruct Hs; unfold trySend, tryRecv, send, recv, close, resume, RecvAwaiter_ready,
      RecvAwaiter_resume, SendAwaiter_ready, trySend, tryRecv in *; simpl in *;
      rewrite ?Hb, ?Hc in *; simpl in *;
      repeat (case_match; simplify_eq/=; rewrite ?Hb in *); done. }
  tauto.
Qed.

Lemma channel_zero_capacity_witness :
  let c := (recv 2 (send string_moved 1 "x" (channel 0)).2).2 in
  length (sendWaiters_ c) = 1%nat ∧ recvWaiters_ c = [2] ∧ accepted c = [].
Proof.
  split; [reflexivity|]. split; [reflexivity|].
  refine (proj1 (channel_zero_capacity string_moved _ _)).
  eapply rtc_l; [apply (st_send string_moved 1 "x")|]. apply rtc_once, st_recv.
Defined.

(** Closing wakes every suspended coroutine (receivers first, each in its
    order), makes every later send fail without touching the buffer, lets
    receivers drain what is buffered and then gives them "none"; a sender
    resumed after the close reports failure, and closing twice is closing
    once. *)
Theorem close_spec {T} (moved_from : T → T) (c : ChannelImpl) :
  closed_ c = false →
  let c' := close c in
  posted c' = posted c ++ ((λ h, (h, RecvSide)) <$> recvWaiters_ c)
                       ++ ((λ w, (sw_handle w, SendSide)) <$> sendWaiters_ c) ∧
  recvWaiters_ c' = [] ∧ sendWaiters_ c' = [] ∧ buffer_ c' = buffer_ c ∧
  (∀ h v, send moved_from h v c' = (Done false, c') ∧ trySend v c' = (false, c') ∧
          SendAwaiter_resume h c' = false) ∧
  (∀ h, (recv h c').1 = Done (head (buffer_ c)) ∧ buffer_ (recv h c').2 = tail (buffer_ c)) ∧
  close c' = c'.
Proof.
  intros Hc. unfold close. rewrite Hc. simpl. split_and!; try done.
  intros h. unfold recv, tryRecv. simpl.
  destruct (buffer_ c); simpl; done.
Qed.

Lemma close_spec_witness :
  let c := (trySend "a" (channel 1)).2 in
  closed_ c = false ∧ (recv 3 (close c)).1 = Done (Some "a"%string) ∧ close (close c) = close c.
Proof.
  destruct (close_spec string_moved (trySend "a" (channel 1)).2 eq_refl)
    as (_ & _ & _ & _ & _ & H & H2).
  split; [reflexivity|]. split; [exact (proj1 (H 3))|exact H2].
Defined.
