(* ===== verification/Stream.v ===== *)
(** * Async streams (src/include/pman/async/stream.hpp)

    [Stream<T>] is a class with one virtual operation, [next]; the combinators
    are classes that hold a source stream and small counters.  Here [Stream] is
    a type class over the stream's state, and each combinator an instance over
    any source instance.  [next] takes fuel because [filter] and [skip] loop
    over their source; [None] means the fuel ran out, and fuel is monotone.
    The combinators keep a pointer to their source, so the source's position
    is part of their state. *)

From S2P Require Import Prelude.

(** ** The interface *)

Class Stream (S T : Type) := {
  next : nat → S → option (option T * S);
  next_mono n m s r : next n s = Some r → (n <= m)%nat → next m s = Some r
}.

Section Consumers.
Context {S T : Type} `{!Stream S T}.

(** [collect]: the values up to the first "none", and the stream left behind. *)
Fixpoint collect (fuel : nat) (s : S) : option (list T * S) :=
  match fuel with
  | O => None
  | Datatypes.S f =>
      match next f s with
      | None => None
      | Some (None, s') => Some ([], s')
      | Some (Some v, s1) =>
          match collect f s1 with
          | None => None
          | Some (l, s') => Some (v :: l, s')
          end
      end
  end.

(** [count]: the same loop, counting. *)
Fixpoint count (fuel n : nat) (s : S) : option (nat * S) :=
  match fuel with
  | O => None
  | Datatypes.S f =>
      match next f s with
      | None => None
      | Some (None, s') => Some (n, s')
      | Some (Some _, s1) => count f (Datatypes.S n) s1
      end
  end.

(** [forEach], with the effect of the function on an accumulator. *)
Fixpoint forEach {A} (func : A → T → A) (fuel : nat) (a : A) (s : S) : option (A * S) :=
  match fuel with
  | O => None
  | Datatypes.S f =>
      match next f s with
      | None => None
      | Some (None, s') => Some (a, s')
      | Some (Some v, s1) => forEach func f (func a v) s1
      end
  end.

End Consumers.

(** ** Sources and combinators *)

Record VectorStream (T : Type) := MkVector { values_ : list T; index_ : nat }.
Arguments MkVector {T}. Arguments values_ {T}. Arguments index_ {T}.

Definition vector_next {T} (s : VectorStream T) : option T * VectorStream T :=
  match values_ s !! index_ s with
  | Some v => (Some v, MkVector (values_ s) (Datatypes.S (index_ s)))
  | None => (None, s)
  end.

Record MapStream (S T U : Type) := MkMap { map_source : S; map_func : T → U }.
Record FilterStream (S T : Type) := MkFilter { filter_source : S; filter_pred : T → bool }.
Record TakeStream (S : Type) := MkTake { take_source : S; take_n : nat; take_count : nat }.
Record SkipStream (S : Type) := MkSkip { skip_source : S; skip_n : nat; skipped_ : nat }.
Record TakeWhileStream (S T : Type) :=
  MkTakeWhile { tw_source : S; tw_pred : T → bool; tw_done : bool }.
Record ChainStream (S1 S2 : Type) :=
  MkChain { chain_first : S1; chain_second : S2; on_second_ : bool }.
Arguments MkMap {S T U}. Arguments map_source {S T U}. Arguments map_func {S T U}.
Arguments MkFilter {S T}. Arguments filter_source {S T}. Arguments filter_pred {S T}.
Arguments MkTake {S}. Arguments take_source {S}. Arguments take_n {S}. Arguments take_count {S}.
Arguments MkSkip {S}. Arguments skip_source {S}. Arguments skip_n {S}. Arguments skipped_ {S}.
Arguments MkTakeWhile {S T}. Arguments tw_source {S T}. Arguments tw_pred {S T}.
Arguments tw_done {S T}.
Arguments MkChain {S1 S2}. Arguments chain_first {S1 S2}. Arguments chain_second {S1 S2}.
Arguments on_second_ {S1 S2}.

Section Combinators.
Context {S T : Type} `{!Stream S T}.

Definition map_next {U} (fuel : nat) (s : MapStream S T U) : option (option U * MapStream S T U) :=
  match next fuel (map_source s) with
  | None => None
  | Some (None, src) => Some (None, MkMap src (map_func s))
  | Some (Some v, src) => Some (Some (map_func s v), MkMap src (map_func s))
  end.

Fixpoint filter_next (fuel : nat) (s : FilterStream S T) : option (option T * FilterStream S T) :=
  match fuel with
  | O => None
  | Datatypes.S f =>
      match next f (filter_source s) with
      | None => None
      | Some (None, src) => Some (None, MkFilter src (filter_pred s))
      | Some (Some v, src) =>
          if filter_pred s v then Some (Some v, MkFilter src (filter_pred s))
          else filter_next f (MkFilter src (filter_pred s))
      end
  end.

Definition take_next (fuel : nat) (s : TakeStream S) : option (option T * TakeStream S) :=
  if Nat.leb (take_n s) (take_count s) then Some (None, s)
  else match next fuel (take_source s) with
       | None => None
       | Some (r, src) => Some (r, MkTake src (take_n s) (Datatypes.S (take_count s)))
       end.

Fixpoint skip_next (fuel : nat) (s : SkipStream S) : option (option T * SkipStream S) :=
  match fuel with
  | O => None
  | Datatypes.S f =>
      match next f (skip_source s) with
      | None => None
      | Some (r, src) =>
          if Nat.ltb (skipped_ s) (skip_n s) then
            match r with
            | None => Some (None, MkSkip src (skip_n s) (skipped_ s))
            | Some _ => skip_next f (MkSkip src (skip_n s) (Datatypes.S (skipped_ s)))
            end
          else Some (r, MkSkip src (skip_n s) (skipped_ s))
      end
  end.

Definition takeWhile_next (fuel : nat) (s : TakeWhileStream S T)
  : option (option T * TakeWhileStream S T) :=
  if tw_done s then Some (None, s)
  else match next fuel (tw_source s) with
       | None => None
       | Some (Some v, src) =>
           if tw_pred s v then Some (Some v, MkTakeWhile src (tw_pred s) false)
           else Some (None, MkTakeWhile src (tw_pred s) true)
       | Some (None, src) => Some (None, MkTakeWhile src (tw_pred s) true)
       end.

Definition chain_next {S2} `{!Stream S2 T} (fuel : nat) (s : ChainStream S S2)
  : option (option T * ChainStream S S2) :=
  let second (f : S) :=
    match next fuel (chain_second s) with
    | None => None
    | Some (r, src) => Some (r, MkChain f src true)
    end in
  if on_second_ s then second (chain_first s)
  else match next fuel (chain_first s) with
       | None => None
       | Some (Some v, src) => Some (Some v, MkChain src (chain_second s) false)
       | Some (None, src) => second src
       end.

End Combinators.

(** ** Instances *)

#[export, refine] Instance vector_stream {T} : Stream (VectorStream T) T :=
  { next _ s := Some (vector_next s) }.
Proof. by intros. Defined.

#[export, refine] Instance map_stream {S T U} `{!Stream S T} : Stream (MapStream S T U) U :=
  { next := map_next }.
Proof.
  intros n m s r Hr Hle. unfold map_next in *.
  destruct (next n (map_source s)) as [r'|] eqn:E; [|done].
  by rewrite (next_mono n m _ _ E Hle).
Defined.

#[export, refine] Instance filter_stream {S T} `{!Stream S T} : Stream (FilterStream S T) T :=
  { next := filter_next }.
Proof.
  induction n as [|n IH]; intros m s r Hr Hle; [done|]. destruct m as [|m]; [lia|]. simpl in *.
  destruct (next n (filter_source s)) as [r'|] eqn:E; [|done].
  rewrite (next_mono n m _ _ E) by lia. destruct r' as [[v|] src]; [|done].
  destruct (filter_pred s v); [done|]. apply IH; [done|lia].
Defined.

#[export, refine] Instance take_stream {S T} `{!Stream S T} : Stream (TakeStream S) T :=
  { next := take_next }.
Proof.
  intros n m s r Hr Hle. unfold take_next in *. destruct (Nat.leb _ _); [done|].
  destruct (next n (take_source s)) as [r'|] eqn:E; [|done].
  by rewrite (next_mono n m _ _ E Hle).
Defined.

#[export, refine] Instance skip_stream {S T} `{!Stream S T} : Stream (SkipStream S) T :=
  { next := skip_next }.
Proof.
  induction n as [|n IH]; intros m s r Hr Hle; [done|]. destruct m as [|m]; [lia|]. simpl in *.
  destruct (next n (skip_source s)) as [r'|] eqn:E; [|done].
  rewrite (next_mono n m _ _ E) by lia. destruct r' as [[v|] src]; [|done].
  destruct (Nat.ltb _ _); [|done]. apply IH; [done|lia].
Defined.

#[export, refine] Instance takeWhile_stream {S T} `{!Stream S T} : Stream (TakeWhileStream S T) T :=
  { next := takeWhile_next }.
Proof.
  intros n m s r Hr Hle. unfold takeWhile_next in *. destruct (tw_done s); [done|].
  destruct (next n (tw_source s)) as [r'|] eqn:E; [|done].
  by rewrite (next_mono n m _ _ E Hle).
Defined.

#[export, refine] Instance chain_stream {S1 S2 T} `{!Stream S1 T, !Stream S2 T} :
  Stream (ChainStream S1 S2) T := { next := chain_next }.
Proof.
  intros n m s r Hr Hle. unfold chain_next in *.
  assert (H2 : ∀ x, match next n (chain_second s) with
      | None => None | Some (r, src) => Some (r, MkChain x src true) end = Some r →
    match next m (chain_second s) with
      | None => None | Some (r, src) => Some (r, MkChain x src true) end = Some r).
  { intros x. destruct (next n (chain_second s)) as [r'|] eqn:E; [|done].
    by rewrite (next_mono n m _ _ E Hle). }
  destruct (on_second_ s); [by apply H2|].
  destruct (next n (chain_first s)) as [r'|] eqn:E; [|done].
  rewrite (next_mono n m _ _ E Hle). destruct r' as [[v|] src]; [done|]. by apply H2.
Defined.

(** ** Finite streams *)

Section Produces.
Context {S T : Type} `{!Stream S T}.

(** [next] answers, given enough fuel. *)
Definition next_to (s : S) (r : option T) (s' : S) : Prop := ∃ n, next n s = Some (r, s').

(** The stream yields the values [l] and then "none", ending in [s']. *)
Inductive produces : S → list T → S → Prop :=
  | produces_end s s' : next_to s None s' → produces s [] s'
  | produces_value s v s1 l s' :
      next_to s (Some v) s1 → produces s1 l s' → produces s (v :: l) s'.

Lemma collect_mono n m s r : collect n s = Some r → (n <= m)%nat → collect m s = Some r.
Proof.
  revert m s r. induction n as [|n IH]; intros m s r Hr Hle; [done|].
  destruct m as [|m]; [lia|]. simpl in *.
  destruct (next n s) as [r'|] eqn:E; [|done]. rewrite (next_mono n m _ _ E) by lia.
  destruct r' as [[v|] s1]; [|done].
  destruct (collect n s1) as [r''|] eqn:Ec; [|done]. by rewrite (IH m s1 r'' Ec) by lia.
Qed.

Lemma produces_collect s l s' : produces s l s' → ∃ fuel, collect fuel s = Some (l, s').
Proof.
  induction 1 as [s s' [n Hn]|s v s1 l s' [n Hn] _ [f Hf]].
  - exists (Datatypes.S n). simpl. by rewrite Hn.
  - exists (Datatypes.S (n + f)). simpl.
    rewrite (next_mono n (n + f) _ _ Hn) by lia. by rewrite (collect_mono f (n + f) _ _ Hf) by lia.
Qed.

Lemma collect_produces fuel s l s' : collect fuel s = Some (l, s') → produces s l s'.
Proof.
  revert s l. induction fuel as [|n IH]; intros s l; simpl; [done|].
  destruct (next n s) as [[[v|] s1]|] eqn:E; [| |done].
  - destruct (collect n s1) as [[l1 s2]|] eqn:Ec; [|done]. intros; simplify_eq.
    econstructor; [by exists n|]. by apply IH.
  - intros; simplify_eq. constructor. by exists n.
Qed.

End Produces.

#[export] Hint Constructors produces : pman.

Section CombinatorSpecs.
Context {S T : Type} `{!Stream S T}.

Lemma vector_produces (l : list T) i :
  produces (MkVector l i) (drop i l) (MkVector l (max i (length l))).
Proof.
  remember (drop i l) as r eqn:Er. revert i Er. induction r as [|v r IH]; intros i Er.
  - symmetry in Er. assert (Hl : (length l <= i)%nat).
    { apply (f_equal length) in Er. rewrite length_drop in Er. simpl in Er. lia. }
    rewrite Nat.max_l by lia. constructor. exists O. simpl. unfold vector_next. simpl.
    by rewrite lookup_ge_None_2 by lia.
  - assert (Hi : l !! i = Some v).
    { rewrite <- (Nat.add_0_r i), <- lookup_drop, <- Er. done. }
    assert (Hr : r = drop (Datatypes.S i) l).
    { rewrite <- Nat.add_1_r, <- drop_drop, <- Er. done. }
    pose proof (lookup_lt_Some _ _ _ Hi).
    replace (max i (length l)) with (max (Datatypes.S i) (length l)) by lia.
    econstructor; [|by apply IH]. exists O. simpl. unfold vector_next. simpl. by rewrite Hi.
Qed.

Lemma map_produces {U} (f : T → U) s l s' :
  produces s l s' → produces (MkMap s f) (f <$> l) (MkMap s' f).
Proof.
  induction 1 as [s s' [n Hn]|s v s1 l s' [n Hn] _ IH]; simpl.
  - constructor. exists n. simpl. unfold map_next. simpl. by rewrite Hn.
  - econstructor; [|exact IH]. exists n. simpl. unfold map_next. simpl. by rewrite Hn.
Qed.

Lemma filter_skip (p : T → bool) s v s1 r s' :
  next_to s (Some v) s1 → p v = false →
  next_to (MkFilter s1 p) r s' → next_to (MkFilter s p) r s'.
Proof.
  intros [n Hn] Hp [m Hm]. exists (Datatypes.S (n + m)). simpl.
  rewrite (next_mono n (n + m) _ _ Hn) by lia. rewrite Hp.
  exact (next_mono m (n + m) _ _ Hm ltac:(lia)).
Qed.

Lemma filter_produces (p : T → bool) s l s' :
  produces s l s' → produces (MkFilter s p) (filter (λ v, p v = true) l) (MkFilter s' p).
Proof.
  induction 1 as [s s' [n Hn]|s v s1 l s' Hn _ IH]; simpl.
  - constructor. exists (Datatypes.S n). simpl. by rewrite Hn.
  - rewrite filter_cons. destruct (p v) eqn:Ep; simpl.
    + destruct Hn as [n Hn]. econstructor; [|exact IH]. exists (Datatypes.S n). simpl.
      by rewrite Hn, Ep.
    + inversion IH as [? ? Hx|? ? ? ? ? Hx Hy]; subst.
      * constructor. by eapply filter_skip.
      * econstructor; [by eapply filter_skip|done].
Qed.

Lemma take_produces k s l s' c :
  produces s l s' → ∃ s'', produces (MkTake s (k + c) c) (take k l) s''.
Proof.
  intros Hp. revert k c. induction Hp as [s s' [n Hn]|s v s1 l s' [n Hn] _ IH]; intros k c.
  - rewrite take_nil. destruct k as [|k]; eexists; constructor.
    + exists O. simpl. unfold take_next. simpl. by rewrite Nat.leb_refl.
    + exists n. cbn [next take_stream]. unfold take_next. cbn [take_n take_count take_source].
      destruct (Nat.leb_spec (Datatypes.S k + c) c); [lia|].
      by rewrite Hn.
  - destruct k as [|k].
    + eexists. constructor. exists O. simpl. unfold take_next. simpl. by rewrite Nat.leb_refl.
    + destruct (IH k (Datatypes.S c)) as [s'' Hs]. exists s''. econstructor; [|exact Hs].
      exists n. cbn [next take_stream]. unfold take_next. cbn [take_n take_count take_source].
      destruct (Nat.leb_spec (Datatypes.S k + c) c); [lia|].
      rewrite Hn. by rewrite Nat.add_succ_r.
Qed.

Lemma skip_produces k s l s' c :
  produces s l s' → ∃ s'', produces (MkSkip s (k + c) c) (drop k l) s''.
Proof.
  intros Hp. revert k c. induction Hp as [s s' [n Hn]|s v s1 l s' [n Hn] Hp IH]; intros k c.
  - rewrite drop_nil. eexists. constructor. exists (Datatypes.S n). simpl. rewrite Hn.
    by destruct (Nat.ltb _ _).
  - destruct k as [|k]; simpl.
    + destruct (IH O c) as [s'' Hs]. exists s''. econstructor; [|by rewrite drop_0 in Hs].
      exists (Datatypes.S n). simpl. rewrite Hn. by rewrite Nat.ltb_irrefl.
    + destruct (IH k (Datatypes.S c)) as [s'' Hs]. rewrite Nat.add_succ_r in Hs. exists s''.
      assert (Hstep : ∀ r x, next_to (MkSkip s1 (Datatypes.S (k + c)) (Datatypes.S c)) r x →
        next_to (MkSkip s (Datatypes.S (k + c)) c) r x).
      { intros r x [m Hm]. exists (Datatypes.S (n + m)). simpl.
        rewrite (next_mono n (n + m) _ _ Hn) by lia.
        destruct (Nat.ltb_spec c (Datatypes.S (k + c))); [|lia].
        exact (next_mono m (n + m) _ _ Hm ltac:(lia)). }
      inversion Hs; subst; [constructor|econstructor]; eauto.
Qed.

Lemma takeWhile_produces (p : T → bool) s l s' :
  produces s l s' → ∃ s'', produces (MkTakeWhile s p false) (span p l).1 s''.
Proof.
  induction 1 as [s s' [n Hn]|s v s1 l s' [n Hn] _ [s'' IH]]; simpl.
  - eexists. constructor. exists n. simpl. unfold takeWhile_next. simpl. by rewrite Hn.
  - destruct (p v) eqn:Ep.
    + exists s''. destruct (span p l); simpl in *. econstructor; [|exact IH].
      exists n. simpl. unfold takeWhile_next. simpl. by rewrite Hn, Ep.
    + eexists. constructor. exists n. simpl. unfold takeWhile_next. simpl. by rewrite Hn, Ep.
Qed.

Lemma chain_produces {S2} `{!Stream S2 T} (s1 : S) l1 (s1' : S) (s2 : S2) l2 (s2' : S2) :
  produces s1 l1 s1' → produces s2 l2 s2' →
  ∃ x, produces (MkChain s1 s2 false) (l1 ++ l2) x.
Proof.
  intros H1 H2.
  assert (Hsec : ∀ f : S, ∃ x, produces (MkChain f s2 true) l2 x).
  { intros f. clear H1. induction H2 as [s s' [n Hn]|s v sm l s' [n Hn] _ [x IH]].
    - eexists. constructor. exists n. simpl. unfold chain_next. simpl. by rewrite Hn.
    - exists x. econstructor; [|exact IH]. exists n. simpl. unfold chain_next. simpl. by rewrite Hn. }
  induction H1 as [s s' [n Hn]|s v sm l s' [n Hn] _ [x IH]]; simpl.
  - destruct (Hsec s') as [x Hx]. exists x.
    assert (Hstep : ∀ r y, next_to (MkChain s' s2 true) r y → next_to (MkChain s s2 false) r y).
    { intros r y [m Hm]. exists (n + m)%nat. simpl in *. unfold chain_next in *. simpl in *.
      rewrite (next_mono n (n + m) _ _ Hn) by lia.
      destruct (next m s2) as [r'|] eqn:E; [|done].
      by rewrite (next_mono m (n + m) _ _ E) by lia. }
    inversion Hx; subst; [constructor|econstructor]; eauto.
  - exists x. econstructor; [|exact IH]. exists n. simpl. unfold chain_next. simpl. by rewrite Hn.
Qed.

End CombinatorSpecs.

(** C24: Every stream combinator computes the list function it is named after,
    over any source that produces a finite list: vector, map, filter, take,
    skip, takeWhile (the longest prefix on which the predicate holds) and
    chain, in any nesting. *)
Theorem stream_combinators {S S2 T : Type} `{!Stream S T, !Stream S2 T} (s s' : S) (s2 s2' : S2) l l2 :
  produces s l s' → produces s2 l2 s2' →
  (∀ U (f : T → U), produces (MkMap s f) (f <$> l) (MkMap s' f)) ∧
  (∀ p, produces (MkFilter s p) (filter (λ v, p v = true) l) (MkFilter s' p)) ∧
  (∀ n, ∃ x, produces (MkTake s n 0) (take n l) x) ∧
  (∀ n, ∃ x, produces (MkSkip s n 0) (drop n l) x) ∧
  (∀ p, ∃ x, produces (MkTakeWhile s p false) (span p l).1 x) ∧
  (∃ x, produces (MkChain s s2 false) (l ++ l2) x) ∧
  produces (MkVector l 0) l (MkVector l (length l)).
Proof.
  intros H1 H2. split_and!.
  - intros U f. by apply map_produces.
  - intros p. by apply filter_produces.
  - intros n. pose proof (take_produces n s l s' 0 H1) as Ht. by rewrite Nat.add_0_r in Ht.
  - intros n. pose proof (skip_produces n s l s' 0 H1) as Ht. by rewrite Nat.add_0_r in Ht.
  - intros p. by eapply takeWhile_produces.
  - exact (chain_produces s l s' s2 l2 s2' H1 H2).
  - apply (vector_produces l 0).
Qed.

Lemma stream_combinators_witness :
  ∃ x, produces (MkTake (MkFilter (MkMap (MkVector [1; 2; 3; 4] 0) (Z.mul 3)) Z.even) 1 0) [6] x.
Proof.
  pose proof (vector_produces [1; 2; 3; 4] 0) as Hv.
  destruct (stream_combinators _ _ _ _ _ _ Hv Hv) as (Hmap & _).
  destruct (stream_combinators _ _ _ _ _ _ (Hmap Z (Z.mul 3)) Hv) as (_ & Hfil & _).
  destruct (stream_combinators _ _ _ _ _ _ (Hfil Z.even) Hv) as (_ & _ & Htake & _).
  destruct (Htake 1%nat) as [x Hx]. exists x. exact Hx.
Defined.

(** The consumers agree and terminate: on a stream that produces the finite
    list [l] some fuel makes [collect] return exactly [l], and with the same
    fuel [count] returns its length and [forEach] folds its function over it
    in order; conversely what [collect] returns is what the stream produces. *)
Theorem stream_consumers {S T A : Type} `{!Stream S T} (s s' : S) l (f : A → T → A) (a : A) :
  produces s l s' ↔
  ∃ fuel, collect fuel s = Some (l, s') ∧ count fuel 0 s = Some (length l, s') ∧
          forEach f fuel a s = Some (foldl f a l, s').
Proof.
  split; [|intros (fuel & H & _); by eapply collect_produces].
  intros Hp. destruct (produces_collect _ _ _ Hp) as [fuel Hf]. exists fuel.
  split; [done|]. clear Hp.
  assert (Hgen : ∀ k a, count fuel k s = Some ((k + length l)%nat, s') ∧
                        forEach f fuel a s = Some (foldl f a l, s')).
  { clear a. revert s l Hf. induction fuel as [|n IH]; intros s l Hf k a; [done|]. simpl in *.
    destruct (next n s) as [[[v|] s1]|]; [| |done].
    - destruct (collect n s1) as [[l1 sx]|] eqn:Ec; simplify_eq.
      destruct (IH s1 l1 Ec (Datatypes.S k) (f a v)) as [-> ->]. simpl. split; [|done].
      do 2 f_equal. lia.
    - simplify_eq. simpl. by rewrite Nat.add_0_r. }
  destruct (Hgen O a) as [-> ->]. done.
Qed.
