(* ===== verification/Actor.v ===== *)
(** * Actors and the process registry (include/pman/async/actor.hpp)

    Actors are objects shared between the registry and their own coroutines; an
    object is identified by the process id it was given, which is never reused.
    [actors_] holds the ids the registry still knows, [heap] the objects.  Each
    actor's mailbox is the channel of [Channel].  The user's [run] and an
    overridden [handleExitSignal] appear as what they do to the model: how [run]
    ends, and whether the actor traps exits. *)

From S2P Require Import Prelude Channel.

Inductive ExitReason := Normal | Killed | Exception | Linked.
#[export] Instance ExitReason_eq_dec : EqDecision ExitReason.
Proof. solve_decision. Defined.

(** [DownMessage], and the payloads users send. *)
Inductive Payload := User (n : Z) | Down (pid monitor : Z) (reason : ExitReason).

(** A moved-from [shared_ptr] is null. *)
Record Message := MkMsg { from : Z; payload : option Payload }.
Definition moved_msg (m : Message) : Message := MkMsg (from m) None.

Definition INVALID_PID : Z := 0.

Record Actor := MkActor {
  mailbox : @ChannelImpl Message;
  stopped_ : bool;
  started_ : bool;
  links_ : gset Z;
  monitors_ : gset Z;
  traps : bool                    (* overrides handleExitSignal *)
}.

(** [Actor::Actor]. *)
Definition newActor (trap : bool) : Actor := MkActor (channel 1000) false false ∅ ∅ trap.

Record Registry := MkReg {
  next_pid_ : Z;
  actors_ : gset Z;
  heap : gmap Z Actor;
  names_ : gmap string Z;
  reverse_names_ : gmap Z string;
  next_handle : Z                 (* coroutine handles *)
}.

Definition newRegistry : Registry := MkReg 1 ∅ ∅ ∅ ∅ 1.

Definition with_heap (h : gmap Z Actor) (s : Registry) : Registry :=
  MkReg (next_pid_ s) (actors_ s) h (names_ s) (reverse_names_ s) (next_handle s).
Definition with_names (n : gmap string Z) (r : gmap Z string) (s : Registry) : Registry :=
  MkReg (next_pid_ s) (actors_ s) (heap s) n r (next_handle s).
Definition with_actors (a : gset Z) (s : Registry) : Registry :=
  MkReg (next_pid_ s) a (heap s) (names_ s) (reverse_names_ s) (next_handle s).

Definition on_actor (f : Actor → Actor) (pid : Z) (s : Registry) : Registry :=
  with_heap (alter f pid (heap s)) s.

(** ** Operations of an actor *)

(** [Actor::stop]. *)
Definition stop_actor (a : Actor) : Actor :=
  if stopped_ a then a
  else MkActor (close (mailbox a)) true (started_ a) (links_ a) (monitors_ a) (traps a).

Definition isAlive (a : Actor) : bool := negb (stopped_ a).

(** [Actor::sendMessage], awaited by coroutine [h]. *)
Definition sendMessage (h : Z) (m : Message) (a : Actor) : co bool * Actor :=
  if stopped_ a then (Done false, a)
  else
    let '(r, c) := send moved_msg h m (mailbox a) in
    (r, MkActor c (stopped_ a) (started_ a) (links_ a) (monitors_ a) (traps a)).

(** [Actor::receive]. *)
Definition receive (h : Z) (a : Actor) : co (option Message) * Actor :=
  let '(r, c) := recv h (mailbox a) in
  (r, MkActor c (stopped_ a) (started_ a) (links_ a) (monitors_ a) (traps a)).

(** ** Operations of the registry *)

(** [getActor]. *)
Definition getActor (pid : Z) (s : Registry) : option Actor :=
  if decide (pid ∈ actors_ s) then heap s !! pid else None.

Definition registerName (name : string) (pid : Z) (s : Registry) : bool * Registry :=
  match names_ s !! name with
  | Some _ => (false, s)
  | None => (true, with_names (<[name := pid]> (names_ s)) (<[pid := name]> (reverse_names_ s)) s)
  end.

Definition unregisterName (name : string) (s : Registry) : Registry :=
  match names_ s !! name with
  | Some pid => with_names (delete name (names_ s)) (delete pid (reverse_names_ s)) s
  | None => s
  end.

Definition whereis (name : string) (s : Registry) : option Z := names_ s !! name.

(** [send] by process id. *)
Definition sendTo (to src : Z) (p : Payload) (s : Registry) : co bool * Registry :=
  match getActor to s with
  | None => (Done false, s)
  | Some a =>
      let '(r, a') := sendMessage (next_handle s) (MkMsg src (Some p)) a in
      (r, MkReg (next_pid_ s) (actors_ s) (<[to := a']> (heap s)) (names_ s) (reverse_names_ s)
            (next_handle s + 1))
  end.

(** [send] by name. *)
Definition sendName (name : string) (src : Z) (p : Payload) (s : Registry) : co bool * Registry :=
  match whereis name s with
  | None => (Done false, s)
  | Some pid => sendTo pid src p s
  end.

Definition add_link (pid : Z) (a : Actor) : Actor :=
  MkActor (mailbox a) (stopped_ a) (started_ a) ({[pid]} ∪ links_ a) (monitors_ a) (traps a).
Definition add_monitor (pid : Z) (a : Actor) : Actor :=
  MkActor (mailbox a) (stopped_ a) (started_ a) (links_ a) ({[pid]} ∪ monitors_ a) (traps a).

Definition link (pid1 pid2 : Z) (s : Registry) : Registry :=
  match getActor pid1 s, getActor pid2 s with
  | Some _, Some _ => on_actor (add_link pid1) pid2 (on_actor (add_link pid2) pid1 s)
  | _, _ => s
  end.

Definition monitor (watcher watched : Z) (s : Registry) : Z * Registry :=
  match getActor watched s with
  | None => (INVALID_PID, s)
  | Some _ => (watcher, on_actor (add_monitor watcher) watched s)
  end.

Section exits.
(** The order in which a [std::unordered_set] is walked. *)
Context (walk : gset Z → list Z).

(** The block of [notifyExit] that drops the registered name. *)
Definition drop_name (pid : Z) (s : Registry) : Registry :=
  match reverse_names_ s !! pid with
  | Some name => with_names (delete name (names_ s)) (delete pid (reverse_names_ s)) s
  | None => s
  end.

(** The monitors' part of [notifyExit]: the send is started and not awaited. *)
Definition send_down (pid : Z) (reason : ExitReason) (m : Z) (s : Registry) : Registry :=
  match getActor m s with
  | Some _ => (sendTo m INVALID_PID (Down pid m reason) s).2
  | None => s
  end.

(** The links' part of [notifyExit]: each linked actor that is still known gets
    [handleExitSignal], which by default is [handleCrash]. *)
Fixpoint visit_links (notify : Z → Registry → option Registry) (ls : list Z) (s : Registry) : option Registry :=
  match ls with
  | [] => Some s
  | l :: ls' =>
      s' ← match getActor l s with
           | Some b => if traps b then Some s else notify l (on_actor stop_actor l s)
           | None => Some s
           end;
      visit_links notify ls' s'
  end.

(** [notifyExit]; the depth of the recursion is bounded by [fuel]. *)
Fixpoint notifyExit_ (fuel : nat) (pid : Z) (reason : ExitReason) (s : Registry) : option Registry :=
  match fuel with
  | O => None
  | S fuel' =>
      let actor := getActor pid s in
      let s1 := drop_name pid (with_actors (actors_ s ∖ {[pid]}) s) in
      match actor with
      | None => Some s1
      | Some a =>
          s2 ← visit_links (λ l, notifyExit_ fuel' l Linked) (walk (links_ a)) s1;
          Some (foldl (λ s m, send_down pid reason m s) s2 (walk (monitors_ a)))
      end
  end.

(** As many levels as there are actors are enough ([notifyExit_total]). *)
Definition notifyExit (pid : Z) (reason : ExitReason) (s : Registry) : Registry :=
  default s (notifyExit_ (S (size (actors_ s))) pid reason s).

(** [Actor::handleCrash]. *)
Definition handleCrash (pid : Z) (reason : ExitReason) (s : Registry) : Registry :=
  notifyExit pid reason (on_actor stop_actor pid s).

(** How [run] ended: the rest of the coroutine [runTask] of [Actor::start]. *)
Inductive run_end := RunReturned | RunThrew.
Definition runTask_end (pid : Z) (e : run_end) (s : Registry) : Registry :=
  handleCrash pid (match e with RunReturned => Normal | RunThrew => Exception end) s.

(** [ActorContext::exit]: notify, then throw, which ends [run]. *)
Definition context_exit (pid : Z) (reason : ExitReason) (s : Registry) : Registry :=
  runTask_end pid RunThrew (notifyExit pid reason s).

(** [Actor::start]: [body] is what [run] does up to its first suspension, and
    how it ended if it did. *)
Definition start (body : Registry → Registry * option run_end) (pid : Z) (s : Registry) : Registry :=
  match heap s !! pid with
  | None => s
  | Some a =>
      if started_ a then s
      else
        let s1 := on_actor (λ a, MkActor (mailbox a) (stopped_ a) true (links_ a) (monitors_ a) (traps a)) pid s in
        let '(s2, e) := body s1 in
        match e with Some e => runTask_end pid e s2 | None => s2 end
  end.

(** [spawn]. *)
Definition spawn (trap : bool) (body : Z → Registry → Registry * option run_end) (s : Registry) : Z * Registry :=
  let pid := next_pid_ s in
  let s1 := MkReg (u64 (pid + 1)) ({[pid]} ∪ actors_ s) (<[pid := newActor trap]> (heap s))
              (names_ s) (reverse_names_ s) (next_handle s) in
  (pid, start (body pid) pid s1).


(** ** What an exit leaves alone *)

(** Objects stay, with their links, monitors and handlers; a stopped actor stays
    stopped, and mailboxes only grow. *)
Definition mail_grows (c c' : @ChannelImpl Message) : Prop :=
  capacity_ c' = capacity_ c ∧ accepted c `prefix_of` accepted c' ∧
  (length (buffer_ c) <= length (buffer_ c'))%nat.

(** The mailbox is closed when the actor is stopped, and only then. *)
Definition mail_ok (a : Actor) : Prop := closed_ (mailbox a) = stopped_ a.

Definition kept (a a' : Actor) : Prop :=
  links_ a' = links_ a ∧ monitors_ a' = monitors_ a ∧ traps a' = traps a ∧
  (stopped_ a = true → stopped_ a' = true) ∧
  mail_grows (mailbox a) (mailbox a') ∧ (mail_ok a → mail_ok a').

Definition Frame (s s' : Registry) : Prop :=
  ∀ q, option_Forall2 kept (heap s !! q) (heap s' !! q).

#[local] Instance mail_grows_preorder : PreOrder mail_grows.
Proof.
  split; [done|]. intros a b c (?&?&?) (?&?&?). split_and!; [congruence|by etrans|lia].
Qed.

#[local] Instance kept_preorder : PreOrder kept.
Proof.
  split; [done|]. intros a b c (?&?&?&?&?&?) (?&?&?&?&?&?). split_and!; [congruence..|auto|by etrans|auto].
Qed.

#[local] Instance Frame_preorder : PreOrder Frame.
Proof.
  split.
  - intros s q. destruct (heap s !! q); constructor. done.
  - intros a b c H1 H2 q. specialize (H1 q). specialize (H2 q).
    destruct H1; inversion H2; constructor. by etrans.
Qed.

Lemma alter_Frame f pid s : (∀ a, kept a (f a)) → Frame s (on_actor f pid s).
Proof.
  intros Hf q. unfold on_actor. simpl. destruct (decide (q = pid)) as [->|Hq].
  - rewrite lookup_alter_eq. destruct (heap s !! pid); constructor. apply Hf.
  - rewrite lookup_alter_ne by done. destruct (heap s !! q); by constructor.
Qed.

Lemma stop_kept a : kept a (stop_actor a).
Proof.
  unfold stop_actor. destruct (stopped_ a) eqn:E; [done|]. unfold kept, mail_ok, mail_grows, close.
  destruct (closed_ (mailbox a)) eqn:Ec; cbn; rewrite ?E, ?Ec; done.
Qed.

(** A send to an open channel that ends with room has put its message in. *)
Lemma send_grows h m (c : @ChannelImpl Message) :
  let c' := (send moved_msg h m c).2 in
  mail_grows c c' ∧ closed_ c' = closed_ c ∧
  (closed_ c = false → (length (buffer_ c') < capacity_ c')%nat → m ∈ accepted c').
Proof.
  unfold send, trySend, SendAwaiter_ready. destruct (closed_ c) eqn:Ec; [done|].
  destruct (Nat.leb_spec (capacity_ c) (length (buffer_ c))) as [Hf|Hf]; simpl.
  - rewrite Ec. destruct (Nat.ltb_spec (length (buffer_ c)) (capacity_ c)); [lia|]. cbn.
    split_and!; try done. lia.
  - unfold wakeNextReceiverLocked. simpl. destruct (recvWaiters_ c); simpl.
    all: unfold mail_grows; simpl; rewrite ?length_app; split_and!; try done; [by eexists|lia|set_solver].
Qed.

Lemma sendMessage_kept h m a : kept a (sendMessage h m a).2.
Proof.
  unfold sendMessage. destruct (stopped_ a) eqn:E; [done|].
  pose proof (send_grows h m (mailbox a)) as Hg. destruct (send _ _ _ _) as [res c]. simpl in Hg.
  destruct Hg as (Hg & Hc & _). unfold kept, mail_ok. cbn. split_and!; try done; congruence.
Qed.

Lemma send_down_props pid r m s :
  Frame s (send_down pid r m s) ∧ actors_ (send_down pid r m s) = actors_ s ∧
  names_ (send_down pid r m s) = names_ s ∧ reverse_names_ (send_down pid r m s) = reverse_names_ s.
Proof.
  unfold send_down, sendTo. destruct (getActor m s) as [a|] eqn:E; [|done].
  destruct (sendMessage _ _ a) as [res a'] eqn:Es. simpl. split_and!; try done.
  intros q. simpl. destruct (decide (q = m)) as [->|Hq].
  - rewrite lookup_insert_eq. unfold getActor in E. case_decide; [|done]. rewrite E. constructor.
    pose proof (sendMessage_kept (next_handle s) (MkMsg INVALID_PID (Some (Down pid m r))) a) as Hk. by rewrite Es in Hk.
  - rewrite lookup_insert_ne by done. destruct (heap s !! q); by constructor.
Qed.

Lemma send_downs_props pid r ms s :
  let s' := foldl (λ s m, send_down pid r m s) s ms in
  Frame s s' ∧ actors_ s' = actors_ s ∧ names_ s' = names_ s ∧ reverse_names_ s' = reverse_names_ s.
Proof.
  revert s. induction ms as [|m ms IH]; intros s; simpl; [done|].
  destruct (send_down_props pid r m s) as (H1 & H2 & H3 & H4). destruct (IH (send_down pid r m s)) as (I1 & I2 & I3 & I4).
  split_and!; [by etrans|congruence..].
Qed.

Lemma drop_name_props pid s : heap (drop_name pid s) = heap s ∧ actors_ (drop_name pid s) = actors_ s.
Proof. unfold drop_name. by case_match. Qed.


(** ** Who goes with an exiting actor *)

Hypothesis walk_elements : ∀ X, walk X ≡ₚ elements X.

Lemma elem_of_walk X q : q ∈ walk X ↔ q ∈ X.
Proof. by rewrite walk_elements, elem_of_elements. Qed.

(** The registry knows objects only. *)
Definition RegWf (s : Registry) : Prop := ∀ q, q ∈ actors_ s → is_Some (heap s !! q).

Definition stopped_in (s : Registry) (q : Z) : Prop := ∃ a, heap s !! q = Some a ∧ stopped_ a = true.

(** [q] receives the exit of [p] and does not trap it. *)
Definition edge (s : Registry) (p q : Z) : Prop :=
  ∃ a b, heap s !! p = Some a ∧ q ∈ links_ a ∧ heap s !! q = Some b ∧ traps b = false.

(** ... while the registry still knows it. *)
Definition live_edge (s : Registry) (p q : Z) : Prop := edge s p q ∧ q ∈ actors_ s.

Lemma edge_Frame s s' p q : Frame s s' → edge s p q ↔ edge s' p q.
Proof.
  intros HF. pose proof (HF p) as Hp. pose proof (HF q) as Hq. unfold edge. split.
  - intros (a & b & Ha & Hl & Hb & Ht). rewrite Ha in Hp. rewrite Hb in Hq.
    inversion Hp as [? a' (E1 & _) E|]; subst. inversion Hq as [? b' (_ & _ & E3 & _) E'|]; subst.
    exists a', b'. split_and!; congruence.
  - intros (a & b & Ha & Hl & Hb & Ht). rewrite Ha in Hp. rewrite Hb in Hq.
    inversion Hp as [a' ? (E1 & _) E|]; subst. inversion Hq as [b' ? (_ & _ & E3 & _) E'|]; subst.
    exists a', b'. split_and!; congruence.
Qed.

Lemma RegWf_Frame s s' : Frame s s' → actors_ s' ⊆ actors_ s → RegWf s → RegWf s'.
Proof.
  intros HF Hsub Hwf q Hq. destruct (Hwf q (Hsub q Hq)) as [a Ha]. specialize (HF q). rewrite Ha in HF.
  inversion HF. eauto.
Qed.

Lemma stopped_Frame s s' q : Frame s s' → stopped_in s q → stopped_in s' q.
Proof.
  intros HF (a & Ha & Hs). specialize (HF q). rewrite Ha in HF. inversion HF as [? a' (_ & _ & _ & H & _) E|]; subst.
  exists a'. auto.
Qed.

(** What going from [s] to [s'] by exits does: the registry forgets actors only,
    and with each actor those that get its exit. *)
Definition Exits (s s' : Registry) : Prop :=
  Frame s s' ∧ actors_ s' ⊆ actors_ s ∧
  ∀ q r, q ∈ actors_ s → q ∉ actors_ s' → edge s q r → r ∉ actors_ s'.

Lemma Exits_trans s1 s2 s3 : Exits s1 s2 → Exits s2 s3 → Exits s1 s3.
Proof.
  intros (F1 & S1 & C1) (F2 & S2 & C2). split_and!; [by etrans|set_solver|].
  intros q r Hq Hn He. destruct (decide (q ∈ actors_ s2)) as [H2|H2].
  - apply (C2 q r H2 Hn). by apply (edge_Frame s1).
  - specialize (C1 q r Hq H2 He). set_solver.
Qed.

Lemma live_edge_mono s s' p q :
  Frame s s' → actors_ s' ⊆ actors_ s → rtc (live_edge s') p q → rtc (live_edge s) p q.
Proof.
  intros HF Hsub. induction 1 as [|x y z [He Hy] _ IH]; [done|]. eapply rtc_l; [|exact IH].
  split; [by apply (edge_Frame s s')|set_solver].
Qed.

(** The specification of a recursive call, for the induction. *)
Definition notify_ok (notify : Z → Registry → option Registry) : Prop :=
  ∀ l s s', RegWf s → notify l s = Some s' →
    Exits s s' ∧ (l ∉ actors_ s') ∧
    (∀ q, q ∈ actors_ s → q ∉ actors_ s' → rtc (live_edge s) l q ∧ (q = l ∨ stopped_in s' q)).

Lemma stop_stopped l s : RegWf s → l ∈ actors_ s → stopped_in (on_actor stop_actor l s) l.
Proof.
  intros Hwf Hl. destruct (Hwf l Hl) as [a Ha]. exists (stop_actor a). unfold on_actor. simpl.
  rewrite lookup_alter_eq, Ha. split; [done|]. unfold stop_actor. by destruct (stopped_ a) eqn:E.
Qed.

Lemma visit_links_ok notify ls s s' :
  notify_ok notify → RegWf s → visit_links notify ls s = Some s' →
  Exits s s' ∧ (∀ l b, l ∈ ls → heap s !! l = Some b → traps b = false → l ∉ actors_ s') ∧
  ∀ q, q ∈ actors_ s → q ∉ actors_ s' →
    (∃ l b, l ∈ ls ∧ l ∈ actors_ s ∧ heap s !! l = Some b ∧ traps b = false ∧ rtc (live_edge s) l q) ∧ stopped_in s' q.
Proof.
  intros Hok. revert s. induction ls as [|l ls IH]; intros s Hwf E; simpl in E.
  { simplify_eq. split_and!; [|set_solver|done..]. split_and!; [done|done|]. intros q r Hq Hn. done. }
  apply bind_Some in E as (s1 & E1 & E2).
  assert (Hcall : Exits s s1 ∧ (∀ b, heap s !! l = Some b → traps b = false → l ∉ actors_ s1) ∧
    ∀ q, q ∈ actors_ s → q ∉ actors_ s1 →
      (∃ b, l ∈ actors_ s ∧ heap s !! l = Some b ∧ traps b = false ∧ rtc (live_edge s) l q) ∧ stopped_in s1 q).
  { assert (Hrefl : Exits s s) by (split_and!; [done|done|by intros]).
    unfold getActor in E1. destruct (decide (l ∈ actors_ s)) as [Hl|Hl]; simplify_eq; [|done].
    destruct (Hwf l Hl) as [b Hb]. rewrite Hb in E1. destruct (traps b) eqn:Et; simplify_eq.
    { split_and!; [done|intros; simplify_eq; congruence|done]. }
    pose proof (alter_Frame stop_actor l s stop_kept) as HF.
    destruct (Hok l _ s1 (RegWf_Frame _ _ HF ltac:(done) Hwf) E1) as (HE & Hn & Hq).
    assert (HE0 : Exits s (on_actor stop_actor l s)) by (split_and!; [done|done|by intros]).
    split_and!; [by eapply Exits_trans|done|]. intros q Hqs Hqn. destruct (Hq q Hqs Hqn) as [Hr Hst]. split.
    - exists b. split_and!; try done. by eapply live_edge_mono.
    - destruct Hst as [->|]; [|done]. eapply stopped_Frame; [apply HE|]. by apply stop_stopped. }
  destruct Hcall as ((F1 & S1 & C1) & Hl & Hq1).
  destruct (IH s1 (RegWf_Frame _ _ F1 S1 Hwf) E2) as ((F2 & S2 & C2) & Hl2 & Hq2).
  split_and!.
  - by apply (Exits_trans s s1 s').
  - intros k b [->|Hk]%elem_of_cons Hb Ht; [specialize (Hl b Hb Ht); set_solver|].
    pose proof (F1 k) as Fk. rewrite Hb in Fk. inversion Fk as [? b' (_ & _ & Et & _) Eb|]; subst.
    eapply Hl2; [done|done|congruence].
  - intros q Hqs Hqn. destruct (decide (q ∈ actors_ s1)) as [Hq|Hq].
    + destruct (Hq2 q Hq Hqn) as [(k & b' & Hk & Hks & Hb' & Ht' & Hr) Hst]. split; [|done].
      pose proof (F1 k) as Fk. rewrite Hb' in Fk. inversion Fk as [b0 ? (_ & _ & Et & _) Eb|]; subst.
      exists k, b0. split_and!; [by right|set_solver|done|congruence|]. by eapply live_edge_mono.
    + destruct (Hq1 q Hqs Hq) as [(b & H1 & H2 & H3 & H4) Hst]. split.
      * exists l, b. split_and!; try done. left.
      * by eapply stopped_Frame.
Qed.

Lemma getActor_Some pid s a : getActor pid s = Some a → pid ∈ actors_ s ∧ heap s !! pid = Some a.
Proof. unfold getActor. by case_decide. Qed.

Lemma notifyExit_ok fuel r : notify_ok (λ l, notifyExit_ fuel l r).
Proof.
  revert r. induction fuel as [|fuel IH]; intros r pid s s' Hwf E; simpl in E; [done|].
  set (s1 := drop_name pid (with_actors (actors_ s ∖ {[pid]}) s)) in E.
  destruct (drop_name_props pid (with_actors (actors_ s ∖ {[pid]}) s)) as [Hh1 Ha1].
  fold s1 in Hh1, Ha1. simpl in Hh1, Ha1.
  assert (F1 : Frame s s1) by (intros q; rewrite Hh1; destruct (heap s !! q); by constructor).
  assert (S1 : actors_ s1 ⊆ actors_ s) by (rewrite Ha1; set_solver).
  destruct (getActor pid s) as [a|] eqn:Ea.
  - apply getActor_Some in Ea as [Hpid Ha]. apply bind_Some in E as (s2 & E2 & E3). simplify_eq.
    destruct (visit_links_ok _ _ _ _ (IH Linked) (RegWf_Frame _ _ F1 S1 Hwf) E2) as ((F2 & S2 & C2) & Hl2 & Hq2).
    destruct (send_downs_props pid r (walk (monitors_ a)) s2) as (F3 & A3 & _ & _).
    set (s3 := foldl _ s2 _) in *.
    assert (F13 : Frame s s3) by (by do 2 (etrans; [eassumption|])).
    unfold Exits. split_and!; [done|rewrite A3; set_solver| |rewrite A3; set_solver|].
    + intros q x Hq Hn He. rewrite A3 in *. destruct (decide (q = pid)) as [->|Hqp].
      * destruct He as (a' & b & Ha' & Hx & Hb & Ht). simplify_eq.
        apply (Hl2 x b); [by apply elem_of_walk|by rewrite Hh1|done].
      * apply (C2 q x); [rewrite Ha1; set_solver|done|by apply (edge_Frame s s1)].
    + intros q Hq Hn. rewrite A3 in *. destruct (decide (q = pid)) as [->|Hqp]; [split; [done|by left]|].
      destruct (Hq2 q ltac:(rewrite Ha1; set_solver) Hn) as [(l & b & Hl & Hls & Hb & Ht & Hr) Hst]. split.
      * eapply rtc_l; [|exact (live_edge_mono s s1 l q F1 S1 Hr)]. split; [|set_solver]. exists a, b.
        rewrite Hh1 in Hb. split_and!; try done. by apply elem_of_walk.
      * right. exact (stopped_Frame s2 s3 q F3 Hst).
  - injection E as <-. assert (Hpid : pid ∉ actors_ s).
    { intros Hp. destruct (Hwf pid Hp) as [a Ha]. unfold getActor in Ea. case_decide; congruence. }
    assert (Heq : actors_ s1 = actors_ s) by (rewrite Ha1; set_solver).
    unfold Exits. split_and!; [done|done| |by rewrite Heq|]; intros q; rewrite Heq; done.
Qed.

(** As many levels of recursion as there are actors are enough. *)
Lemma notifyExit_total fuel pid r s :
  RegWf s → (size (actors_ s) < fuel)%nat → is_Some (notifyExit_ fuel pid r s).
Proof.
  revert pid r s. induction fuel as [|fuel IH]; intros pid r s Hwf Hsz; [lia|]. simpl.
  set (s1 := drop_name pid (with_actors (actors_ s ∖ {[pid]}) s)).
  destruct (drop_name_props pid (with_actors (actors_ s ∖ {[pid]}) s)) as [Hh1 Ha1].
  fold s1 in Hh1, Ha1. simpl in Hh1, Ha1.
  destruct (getActor pid s) as [a|] eqn:Ea; [|eauto]. apply getActor_Some in Ea as [Hpid Ha].
  enough (Hv : ∀ ls s', RegWf s' → actors_ s' ⊆ actors_ s1 →
    is_Some (visit_links (λ l, notifyExit_ fuel l Linked) ls s')).
  { destruct (Hv (walk (links_ a)) s1) as [s2 ->]; [|done|simpl; eauto].
    intros q Hq. rewrite Hh1. apply Hwf. rewrite Ha1 in Hq. set_solver. }
  induction ls as [|l ls IHl]; intros s' Hwf' Hsub; simpl; [eauto|].
  destruct (getActor l s') as [b|] eqn:Eb; [|simpl; by apply IHl].
  apply getActor_Some in Eb as [Hl Hb]. destruct (traps b); [simpl; by apply IHl|].
  pose proof (alter_Frame stop_actor l s' stop_kept) as HF.
  assert (Hwf2 : RegWf (on_actor stop_actor l s')) by by eapply RegWf_Frame.
  assert (Hsz2 : (size (actors_ s') < fuel)%nat).
  { assert (size (actors_ s') <= size (actors_ s1))%nat by by apply subseteq_size.
    rewrite Ha1, size_difference, size_singleton in H by set_solver.
    assert (size (actors_ s) ≠ 0%nat) by (intros Hz; apply size_empty_inv in Hz; set_solver). lia. }
  destruct (IH l Linked (on_actor stop_actor l s') Hwf2 Hsz2) as [s2 E2]. rewrite E2. simpl.
  destruct (notifyExit_ok fuel Linked l _ s2 Hwf2 E2) as ((F2 & S2 & _) & _). apply IHl.
  - by eapply RegWf_Frame.
  - etrans; [exact S2|exact Hsub].
Qed.

Lemma handleCrash_ok pid r s :
  RegWf s → let s' := handleCrash pid r s in
  Exits s s' ∧ (pid ∉ actors_ s') ∧
  ∀ q, q ∈ actors_ s → q ∉ actors_ s' → rtc (live_edge s) pid q ∧ stopped_in s' q.
Proof.
  intros Hwf. unfold handleCrash, notifyExit. pose proof (alter_Frame stop_actor pid s stop_kept) as HF.
  assert (Hwf2 : RegWf (on_actor stop_actor pid s)) by by eapply RegWf_Frame.
  destruct (notifyExit_total (S (size (actors_ (on_actor stop_actor pid s)))) pid r _ Hwf2 ltac:(lia)) as [s' E].
  rewrite E. simpl. destruct (notifyExit_ok _ r pid _ s' Hwf2 E) as ((F & S & C) & Hn & Hq).
  assert (F' : Frame s s') by by etrans. unfold Exits. split_and!; [done|done| |done|].
  - intros q x Hqs Hqn He. apply (C q x); [done|done|by apply (edge_Frame s)].
  - intros q Hqs Hqn. destruct (Hq q Hqs Hqn) as [Hr Hst]. split; [exact (live_edge_mono s _ pid q HF ltac:(done) Hr)|].
    destruct Hst as [->|]; [|done]. eapply stopped_Frame; [exact F|by apply stop_stopped].
Qed.

Lemma component_forgotten pid q s s' :
  Exits s s' → pid ∈ actors_ s → pid ∉ actors_ s' → rtc (live_edge s) pid q → q ∉ actors_ s'.
Proof.
  intros (_ & _ & C) Hp Hn Hr.
  apply (rtc_invariant _ (λ x, x ∈ actors_ s ∧ x ∉ actors_ s') _ _) in Hr; [by destruct Hr| |done].
  intros x y [He Hy] [Hx Hnx]. split; [done|]. by apply (C x y).
Qed.

(** ** Who is left as it was *)

(** Running or stopped, with its mailbox open or closed, as before. *)
Definition same_life (a a' : Actor) : Prop :=
  stopped_ a' = stopped_ a ∧ started_ a' = started_ a ∧ closed_ (mailbox a') = closed_ (mailbox a).

#[local] Instance same_life_preorder : PreOrder same_life.
Proof. split; [done|]. intros a b c (?&?&?) (?&?&?). split_and!; congruence. Qed.

(** [q] is not one of the actors that the registry forgets. *)
Definition spared (s s' : Registry) (q : Z) : Prop := q ∈ actors_ s' ∨ q ∉ actors_ s.

(** [q] watches none of the actors that the registry forgets. *)
Definition unwatching (s s' : Registry) (q : Z) : Prop :=
  ∀ p a, p ∈ actors_ s → p ∉ actors_ s' → heap s !! p = Some a → q ∉ monitors_ a.

Definition LeftAlone (s s' : Registry) : Prop :=
  ∀ q, spared s s' q →
    option_Forall2 same_life (heap s !! q) (heap s' !! q) ∧ (unwatching s s' q → heap s' !! q = heap s !! q).

Lemma same_life_refl (o : option Actor) : option_Forall2 same_life o o.
Proof. destruct o; by constructor. Qed.

Lemma left_alone_trans s1 s2 s3 :
  Frame s1 s2 → actors_ s2 ⊆ actors_ s1 → actors_ s3 ⊆ actors_ s2 →
  LeftAlone s1 s2 → LeftAlone s2 s3 → LeftAlone s1 s3.
Proof.
  intros HF S1 S2 H1 H2 q Hq.
  assert (Hq1 : spared s1 s2 q) by (destruct Hq; [left|by right]; set_solver).
  assert (Hq2 : spared s2 s3 q) by (destruct Hq; [by left|right]; set_solver).
  destruct (H1 q Hq1) as [L1 E1], (H2 q Hq2) as [L2 E2]. split.
  - destruct L1; inversion L2; subst; constructor. by etrans.
  - intros Hu. rewrite E2, E1; [done| |].
    + intros p a Hp Hn. apply Hu; [done|set_solver].
    + intros p a' Hp Hn Ha'. pose proof (HF p) as Fp. rewrite Ha' in Fp. inversion Fp as [a ? (_ & Em & _) Ea|]; subst.
      rewrite Em. apply (Hu p a); [set_solver|done|done].
Qed.

Lemma send_down_alone pid r m s q :
  option_Forall2 same_life (heap s !! q) (heap (send_down pid r m s) !! q) ∧
  (q ≠ m → heap (send_down pid r m s) !! q = heap s !! q).
Proof.
  unfold send_down, sendTo. destruct (getActor m s) as [a|] eqn:E; [|split; [apply same_life_refl|done]].
  unfold sendMessage. destruct (stopped_ a) eqn:Es.
  - cbn. destruct (decide (q = m)) as [->|Hq].
    + unfold getActor in E. case_decide; [|done]. rewrite lookup_insert_eq, E. split; [by constructor|done].
    + rewrite lookup_insert_ne by done. split; [apply same_life_refl|done].
  - pose proof (send_grows (next_handle s) (MkMsg INVALID_PID (Some (Down pid m r))) (mailbox a)) as (_ & Hc & _).
    destruct (send _ _ _ _) as [res c]. cbn in *. destruct (decide (q = m)) as [->|Hq].
    + unfold getActor in E. case_decide; [|done]. rewrite lookup_insert_eq, E. split; [|done]. constructor.
      split_and!; done.
    + rewrite lookup_insert_ne by done. split; [apply same_life_refl|done].
Qed.

Lemma send_downs_alone pid r ms s q :
  let s' := foldl (λ s m, send_down pid r m s) s ms in
  option_Forall2 same_life (heap s !! q) (heap s' !! q) ∧ (q ∉ ms → heap s' !! q = heap s !! q).
Proof.
  revert s. induction ms as [|m ms IH]; intros s; cbn; [split; [apply same_life_refl|done]|].
  destruct (send_down_alone pid r m s q) as [L1 E1], (IH (send_down pid r m s)) as [L2 E2]. split.
  - destruct L1; inversion L2; subst; constructor. by etrans.
  - intros [Hqm Hq]%not_elem_of_cons. by rewrite E2, E1.
Qed.

Lemma stop_alone l s q : q ≠ l → heap (on_actor stop_actor l s) !! q = heap s !! q.
Proof. intros Hq. by apply lookup_alter_ne. Qed.

(** Stopping an actor that goes next. *)
Lemma stop_then_alone l s s' :
  l ∈ actors_ s → l ∉ actors_ s' → LeftAlone (on_actor stop_actor l s) s' → LeftAlone s s'.
Proof.
  intros Hl Hn H q Hq. assert (Hql : q ≠ l) by (intros ->; destruct Hq; done).
  destruct (H q Hq) as [L E]. rewrite stop_alone in L, E by done. split; [done|]. intros Hu. apply E.
  intros p a Hp Hpn Ha. destruct (decide (p = l)) as [->|Hpl].
  - unfold on_actor in Ha. cbn in Ha. rewrite lookup_alter_eq in Ha. destruct (heap s !! l) as [b|] eqn:Eb; simplify_eq/=.
    pose proof (Hu l b Hl Hn Eb) as Hm. unfold stop_actor. by destruct (stopped_ b).
  - rewrite stop_alone in Ha by done. by apply (Hu p).
Qed.

Lemma visit_links_alone notify ls s s' :
  notify_ok notify → (∀ l s s', RegWf s → notify l s = Some s' → LeftAlone s s') →
  RegWf s → visit_links notify ls s = Some s' → LeftAlone s s'.
Proof.
  intros Hok Hal. revert s. induction ls as [|l ls IH]; intros s Hwf E; cbn in E.
  { simplify_eq. intros q _. split; [apply same_life_refl|done]. }
  destruct (getActor l s) as [b|] eqn:Eb; [|by apply IH]. destruct (traps b); [by apply IH|].
  apply getActor_Some in Eb as [Hl Hb]. apply bind_Some in E as (s1 & E1 & E2).
  pose proof (alter_Frame stop_actor l s stop_kept) as HF.
  assert (Hwf0 : RegWf (on_actor stop_actor l s)) by by eapply RegWf_Frame.
  destruct (Hok l _ s1 Hwf0 E1) as ((F1 & S1 & _) & Hn & _).
  assert (Hwf1 : RegWf s1) by by eapply RegWf_Frame.
  destruct (visit_links_ok notify ls s1 s' Hok Hwf1 E2) as ((_ & S2 & _) & _).
  apply (left_alone_trans s s1 s'); [by etrans|done|done| |by apply IH].
  apply (stop_then_alone l); [done|done|by apply (Hal l)].
Qed.

Lemma notifyExit_alone fuel r pid s s' : RegWf s → notifyExit_ fuel pid r s = Some s' → LeftAlone s s'.
Proof.
  revert r pid s s'. induction fuel as [|fuel IH]; intros r pid s s' Hwf E; cbn in E; [done|].
  destruct (drop_name_props pid (with_actors (actors_ s ∖ {[pid]}) s)) as [Hh Ha].
  set (s1 := drop_name pid _) in *. cbn in Hh, Ha.
  destruct (getActor pid s) as [a|] eqn:Ea.
  2:{ simplify_eq. intros q _. rewrite Hh. split; [apply same_life_refl|done]. }
  apply getActor_Some in Ea as [Hp Hpa]. apply bind_Some in E as (s2 & E2 & E3). simplify_eq.
  assert (Hwf1 : RegWf s1) by (intros x Hx; rewrite Hh; apply Hwf; rewrite Ha in Hx; set_solver).
  assert (H12 : LeftAlone s1 s2).
  { eapply visit_links_alone; [apply notifyExit_ok| |done|exact E2]. intros l t t'. apply IH. }
  destruct (visit_links_ok _ _ _ _ (notifyExit_ok fuel Linked) Hwf1 E2) as ((_ & S2 & _) & _).
  destruct (send_downs_props pid r (walk (monitors_ a)) s2) as (_ & A3 & _).
  intros q Hq. destruct (send_downs_alone pid r (walk (monitors_ a)) s2 q) as [L3 D3]. set (s3 := foldl _ s2 _) in *.
  assert (Hq' : spared s1 s2 q).
  { destruct Hq as [Hq|Hq]; [left; by rewrite A3 in Hq|right; rewrite Ha; set_solver]. }
  destruct (H12 q Hq') as [L2 D2]. rewrite Hh in L2, D2. split.
  - destruct L2; inversion L3; subst; constructor. by etrans.
  - intros Hu. rewrite D3, D2; [done| |].
    + intros p b Hp' Hn Hb. rewrite Hh in Hb. rewrite Ha in Hp'. apply (Hu p b); [set_solver|by rewrite A3|done].
    + rewrite elem_of_walk. apply (Hu pid a); [done|rewrite A3; set_solver|done].
Qed.

Lemma handleCrash_alone pid r s : RegWf s → pid ∈ actors_ s → LeftAlone s (handleCrash pid r s).
Proof.
  intros Hwf Hp. destruct (handleCrash_ok pid r s Hwf) as (_ & Hn & _). revert Hn. unfold handleCrash, notifyExit.
  pose proof (alter_Frame stop_actor pid s stop_kept) as HF.
  assert (Hwf0 : RegWf (on_actor stop_actor pid s)) by by eapply RegWf_Frame.
  destruct (notifyExit_total (S (size (actors_ (on_actor stop_actor pid s)))) pid r _ Hwf0 ltac:(lia)) as [s' E].
  rewrite E. cbn. intros Hn. apply (stop_then_alone pid); [done|done|by eapply notifyExit_alone].
Qed.

(** C3: The end of an actor takes exactly its link component with it: when an
    actor the registry knows ends, the notification terminates, and the actors
    the registry then forgets are those reachable from it by links through actors
    that do not trap exits; all of them are stopped.  Every other actor, those
    that trap exits included, is running or stopped as it was, with the same
    links and monitors and its mailbox open or closed as it was; and its mailbox
    is untouched unless it monitors one of the actors that went. *)
Theorem exit_takes_component pid r s :
  RegWf s → pid ∈ actors_ s →
  let s' := handleCrash pid r s in
  (∀ q, q ∈ actors_ s → (q ∉ actors_ s' ↔ rtc (live_edge s) pid q)) ∧
  (∀ q, q ∈ actors_ s → q ∉ actors_ s' → stopped_in s' q) ∧
  actors_ s' ⊆ actors_ s ∧ Frame s s' ∧
  (∀ q a, heap s !! q = Some a → spared s s' q →
     ∃ a', heap s' !! q = Some a' ∧ same_life a a' ∧ (unwatching s s' q → a' = a)).
Proof.
  intros Hwf Hpid s'. destruct (handleCrash_ok pid r s Hwf) as (HE & Hn & Hq).
  fold s' in HE, Hn, Hq. pose proof HE as (F & S & _).
  split_and!; [|intros q H1 H2; by apply (Hq q H1 H2)|done|done|].
  - intros q Hqs. split; [intros H; by apply (Hq q Hqs H)|]. intros Hr. by apply (component_forgotten pid q s s').
  - intros q a Ha Hsp. destruct (handleCrash_alone pid r s Hwf Hpid q Hsp) as [L E]. fold s' in L, E. rewrite Ha in L, E.
    destruct (heap s' !! q) as [a'|]; inversion L as [? ? Hl|]; subst. exists a'. split_and!; [done|done|].
    intros Hu. specialize (E Hu). congruence.
Qed.

(** ** Monitors *)

Lemma Frame_lookup s s' q a' :
  Frame s s' → heap s' !! q = Some a' → ∃ a, heap s !! q = Some a ∧ kept a a'.
Proof. intros HF Hq. specialize (HF q). rewrite Hq in HF. inversion HF; subst. eauto. Qed.

Lemma send_down_accepted pid r m s s' b b' :
  m ∈ actors_ s → heap s !! m = Some b → mail_ok b →
  Frame (send_down pid r m s) s' → heap s' !! m = Some b' → stopped_ b' = false →
  (length (buffer_ (mailbox b')) < capacity_ (mailbox b'))%nat →
  MkMsg INVALID_PID (Some (Down pid m r)) ∈ accepted (mailbox b').
Proof.
  intros Hm Hb Hok HF Hb' Hst Hroom. destruct (Frame_lookup _ _ _ _ HF Hb') as (b1 & Hb1 & Hk).
  destruct Hk as (_ & _ & _ & Hs1 & (Hcap & Hpre & Hlen) & _).
  unfold send_down, sendTo, getActor in Hb1. rewrite decide_True, Hb in Hb1 by done.
  unfold sendMessage in Hb1. destruct (stopped_ b) eqn:Es.
  - cbn in Hb1. rewrite lookup_insert_eq in Hb1. simplify_eq. rewrite Hs1 in Hst; done.
  - pose proof (send_grows (next_handle s) (MkMsg INVALID_PID (Some (Down pid m r))) (mailbox b)) as Hg.
    destruct (send _ _ _ _) as [res c]. cbn in *. rewrite lookup_insert_eq in Hb1. simplify_eq. cbn in *.
    destruct Hg as (_ & _ & Hin). unfold mail_ok in Hok. rewrite Es in Hok.
    eapply elem_of_prefix; [|exact Hpre]. apply Hin; [done|lia].
Qed.

Lemma downs_accepted pid r ms m s b b' :
  let s' := foldl (λ s m, send_down pid r m s) s ms in
  m ∈ ms → m ∈ actors_ s → heap s !! m = Some b → mail_ok b → heap s' !! m = Some b' →
  stopped_ b' = false → (length (buffer_ (mailbox b')) < capacity_ (mailbox b'))%nat →
  MkMsg INVALID_PID (Some (Down pid m r)) ∈ accepted (mailbox b').
Proof.
  revert s b. induction ms as [|k ms IH]; intros s b s' Hin Hm Hb Hok Hb' Hst Hroom; [by apply elem_of_nil in Hin|].
  destruct (send_down_props pid r k s) as (F1 & A1 & _ & _).
  destruct (send_downs_props pid r ms (send_down pid r k s)) as (F2 & _).
  apply elem_of_cons in Hin as [->|Hin].
  - by apply (send_down_accepted pid r k s s' b b').
  - pose proof (F1 m) as Fm. rewrite Hb in Fm. inversion Fm as [? b1 (_ & _ & _ & _ & _ & Hok1) E|]; subst.
    apply (IH (send_down pid r k s) b1); [done|by rewrite A1|done|by apply Hok1|done..].
Qed.

(** A monitor hears of the end of the actor it watches: every monitor of an
    ending actor that the registry still knows afterwards has been sent the
    [DownMessage] with the actor's id and reason, unless it is stopped or its
    mailbox was full. *)
Theorem monitors_get_down pid r s a m b' :
  RegWf s → pid ∈ actors_ s → heap s !! pid = Some a → m ∈ monitors_ a →
  (∀ b, heap s !! m = Some b → mail_ok b) →
  let s' := handleCrash pid r s in
  m ∈ actors_ s' → heap s' !! m = Some b' → stopped_ b' = false →
  (length (buffer_ (mailbox b')) < capacity_ (mailbox b'))%nat →
  MkMsg INVALID_PID (Some (Down pid m r)) ∈ accepted (mailbox b').
Proof.
  intros Hwf Hpid Ha Hmon Hok s'. subst s'. unfold handleCrash, notifyExit.
  pose proof (alter_Frame stop_actor pid s stop_kept) as HF. set (s0 := on_actor stop_actor pid s) in *.
  assert (Hwf0 : RegWf s0) by by eapply RegWf_Frame.
  destruct (notifyExit_total (S (size (actors_ s0))) pid r s0 Hwf0 ltac:(lia)) as [s' E]. rewrite E. cbn [default id].
  intros Hm Hb' Hst Hroom. cbn [notifyExit_] in E.
  assert (Ha0 : ∃ a0, getActor pid s0 = Some a0 ∧ monitors_ a0 = monitors_ a).
  { pose proof (HF pid) as Fp. rewrite Ha in Fp. inversion Fp as [? a0 (_ & Em & _) Ea|]; subst.
    exists a0. split; [|done]. unfold getActor. by rewrite decide_True. }
  destruct Ha0 as (a0 & Ega & Em). rewrite Ega in E. apply bind_Some in E as (s2 & E2 & E3). injection E3 as <-.
  set (s1 := drop_name pid (with_actors (actors_ s0 ∖ {[pid]}) s0)) in *.
  destruct (drop_name_props pid (with_actors (actors_ s0 ∖ {[pid]}) s0)) as [Hh1 Ha1].
  fold s1 in Hh1, Ha1. cbn [with_actors heap actors_] in Hh1, Ha1.
  assert (F1 : Frame s0 s1) by (intros q; rewrite Hh1; destruct (heap s0 !! q); by constructor).
  assert (Hwf1 : RegWf s1) by (apply (RegWf_Frame s0); [done|rewrite Ha1; set_solver|done]).
  destruct (visit_links_ok _ _ _ _ (notifyExit_ok _ Linked) Hwf1 E2) as ((F2 & S2 & _) & _).
  destruct (send_downs_props pid r (walk (monitors_ a0)) s2) as (F3 & A3 & _).
  destruct (Frame_lookup _ _ _ _ F3 Hb') as (b2 & Hb2 & _).
  destruct (Frame_lookup s s2 m b2 ltac:(do 2 (etrans; [eassumption|]); done) Hb2) as (b & Hb & (_ & _ & _ & _ & _ & Hok2)).
  apply (downs_accepted pid r (walk (monitors_ a0)) m s2 b2 b'); try done.
  - apply elem_of_walk. by rewrite Em.
  - by rewrite A3 in Hm.
  - by apply Hok2, Hok.
Qed.

(** ** Names *)

(** The two name tables are inverse to each other, and names belong to actors
    the registry knows. *)
Definition NamesOk (s : Registry) : Prop :=
  (∀ n p, names_ s !! n = Some p ↔ reverse_names_ s !! p = Some n) ∧
  (∀ n p, names_ s !! n = Some p → p ∈ actors_ s).

Lemma drop_name_ok pid s :
  NamesOk s → NamesOk (drop_name pid (with_actors (actors_ s ∖ {[pid]}) s)).
Proof.
  intros [Hinv Hlive]. unfold drop_name. cbn [reverse_names_ with_actors names_].
  destruct (reverse_names_ s !! pid) as [name|] eqn:E; split; cbn.
  - intros n p. rewrite !lookup_delete_Some. rewrite Hinv. split; intros [Hne H]; (split; [|done]).
    + intros ->. congruence.
    + intros ->. apply Hinv in E. apply Hinv in H. congruence.
  - intros n p [Hne H]%lookup_delete_Some. pose proof (Hlive n p H). apply Hinv in H.
    assert (p ≠ pid) by congruence. set_solver.
  - done.
  - intros n p H. pose proof (Hlive n p H). assert (p ≠ pid) by (intros ->; apply Hinv in H; congruence). set_solver.
Qed.

Lemma NamesOk_same s s' :
  actors_ s' = actors_ s → names_ s' = names_ s → reverse_names_ s' = reverse_names_ s →
  NamesOk s → NamesOk s'.
Proof. unfold NamesOk. intros -> -> ->. done. Qed.

Lemma notifyExit_names fuel pid r s s' :
  NamesOk s → notifyExit_ fuel pid r s = Some s' → NamesOk s'.
Proof.
  revert pid r s s'. induction fuel as [|fuel IH]; intros pid r s s' Hok E; [done|]. cbn [notifyExit_] in E.
  apply (drop_name_ok pid) in Hok. set (s1 := drop_name _ _) in *.
  destruct (getActor pid s) as [a|]; [|by injection E as <-]. apply bind_Some in E as (s2 & E2 & E3).
  injection E3 as <-. destruct (send_downs_props pid r (walk (monitors_ a)) s2) as (_ & A3 & N3 & R3).
  apply (NamesOk_same s2); [done..|]. clear A3 N3 R3. clearbody s1. revert s1 Hok E2.
  induction (walk (links_ a)) as [|l ls IHl]; intros s1 Hok E2; cbn in E2; [by injection E2 as <-|].
  apply bind_Some in E2 as (s3 & E3 & E4). apply (IHl s3); [|done].
  destruct (getActor l s1) as [b|]; [|by injection E3 as <-]. destruct (traps b); [by injection E3 as <-|].
  apply (IH l Linked (on_actor stop_actor l s1)); [|done]. by apply (NamesOk_same s1).
Qed.

(** Registering an actor under a first name, unregistering and ending actors
    keep the tables inverse and free of dead actors. *)
Lemma registry_names_ok s :
  NamesOk s →
  (∀ n pid, pid ∈ actors_ s → reverse_names_ s !! pid = None → NamesOk (registerName n pid s).2) ∧
  (∀ n, NamesOk (unregisterName n s)) ∧
  (∀ pid r, NamesOk (handleCrash pid r s)).
Proof.
  intros [Hinv Hlive]. split_and!.
  - intros n pid Hp Hr. unfold registerName. destruct (names_ s !! n) as [q|] eqn:E; [done|]. split; cbn.
    + intros n' p'. destruct (decide (n' = n)) as [->|Hn], (decide (p' = pid)) as [->|Hp'];
        rewrite ?lookup_insert_eq, ?lookup_insert_ne by done; try done.
      * split; [congruence|]. intros H. apply Hinv in H. congruence.
      * split; [|congruence]. intros H. apply Hinv in H. congruence.
    + intros n' p'. destruct (decide (n' = n)) as [->|Hn]; [rewrite lookup_insert_eq; congruence|].
      rewrite lookup_insert_ne by done. apply Hlive.
  - intros n. unfold unregisterName. destruct (names_ s !! n) as [q|] eqn:E; [|done]. split; cbn.
    + intros n' p'. rewrite !lookup_delete_Some, Hinv. split; intros [Hne H]; (split; [|done]).
      * intros ->. apply Hinv in E. congruence.
      * intros ->. apply Hinv in H. congruence.
    + intros n' p' [_ H]%lookup_delete_Some. by apply (Hlive n').
  - intros pid r. unfold handleCrash, notifyExit.
    assert (H0 : NamesOk (on_actor stop_actor pid s)) by by apply (NamesOk_same s).
    destruct (notifyExit_ _ pid r _) as [s'|] eqn:E; [|done]. by eapply notifyExit_names.
Qed.

End exits.

(** ** A registry in use *)

(** [run] bodies that suspend at once. *)
Definition waits_for_mail (pid : Z) (s : Registry) : Registry * option run_end := (s, None).

(** Actors 1 to 5: 1, 2 and 3 linked in a chain, 4 linked to 3 and trapping
    exits, 5 monitoring 1. *)
Definition five : Registry :=
  let sp t s := (spawn elements t waits_for_mail s).2 in
  (monitor 5 1 (link 3 4 (link 2 3 (link 1 2 (sp false (sp true (sp false (sp false (sp false newRegistry)))))))) ).2.

Lemma five_wf : RegWf five.
Proof.
  intros q Hq.
  assert (Hs : actors_ five = {[1; 2; 3; 4; 5]}) by (vm_compute; reflexivity). rewrite Hs in Hq.
  repeat (apply elem_of_union in Hq as [Hq|Hq]); apply elem_of_singleton in Hq as ->; vm_compute; eauto.
Qed.

Lemma exit_takes_component_witness :
  let s' := handleCrash elements 2 Exception five in
  actors_ s' = {[4; 5]} ∧ stopped_in s' 1 ∧ stopped_in s' 3.
Proof.
  intros s'.
  destruct (exit_takes_component elements ltac:(done) 2 Exception five five_wf ltac:(by_decision))
    as (_ & H2 & _).
  split; [vm_compute; reflexivity|].
  split; apply H2; by_decision.
Defined.

Lemma monitors_get_down_witness :
  let s' := handleCrash elements 1 Normal five in
  ∃ b', heap s' !! 5 = Some b' ∧ MkMsg INVALID_PID (Some (Down 1 5 Normal)) ∈ accepted (mailbox b').
Proof.
  intros s'. destruct (heap s' !! 5) as [b'|] eqn:Hb; [|vm_compute in Hb; discriminate].
  exists b'. split; [done|].
  destruct (heap five !! 1) as [a|] eqn:Ha; [|vm_compute in Ha; discriminate].
  refine (monitors_get_down elements ltac:(done) 1 Normal five a 5 b' five_wf _ Ha _ _ _ Hb _ _).
  - by_decision.
  - vm_compute in Ha. injection Ha as <-. by_decision.
  - intros b Hb'. vm_compute in Hb'. injection Hb' as <-. reflexivity.
  - by_decision.
  - vm_compute in Hb. injection Hb as <-. reflexivity.
  - vm_compute in Hb. injection Hb as <-. vm_compute. lia.
Defined.

(** A second name outlives its actor: registering two names for one actor
    overwrites the reverse entry, so when the actor ends only the later name is
    dropped; the earlier one keeps resolving to a process that is gone, sends to
    it fail, and the name cannot be registered again. *)
Theorem name_leak :
  let s := (registerName "b" 1 (registerName "a" 1 five).2).2 in
  let s' := handleCrash elements 1 Normal s in
  whereis "a" s' = Some 1 ∧ getActor 1 s' = None ∧ whereis "b" s' = None ∧
  (sendName "a" 4 (User 7) s').1 = Done false ∧ ∀ p, registerName "a" p s' = (false, s').
Proof. vm_compute. split_and!; reflexivity. Qed.
