(* ===== verification/Combinators.v ===== *)
(** * Waiting for several tasks (include/pman/async/combinators.hpp)

    [all] and [any] as state machines: the shared state, what each wrapper
    coroutine does when its task ends, and the loop of [await_suspend], in which
    a task may end at once, before the next one is started.  Resuming the
    waiting coroutine ends the awaiter's life; a later access to it by the loop
    is recorded in [dangling].  The tasks are a parameter: each ends with a value
    or an exception, in any order. *)

From S2P Require Import Prelude.

Inductive result := Value (v : Z) | Failure (e : exn).

(** A child in the log of completions. *)
Abbreviation entry := (nat * result)%type.

(** ** Shared states *)

Record AllState := MkAll {
  completed : nat;
  hasError : bool;
  results : list (option Z);
  error : option exn;
  total : nat;
  all_resumed : nat              (* calls of the continuation *)
}.

Definition newAllState (n : nat) : AllState := MkAll 0 false (replicate n None) None n 0.

(** What the wrapper of [AllAwaiter] does when its task ends. *)
Definition all_store (idx : nat) (r : result) (s : AllState) : AllState :=
  match r with
  | Value v => MkAll (completed s) (hasError s) (<[idx := Some v]> (results s)) (error s) (total s) (all_resumed s)
  | Failure e =>
      if hasError s then s
      else MkAll (completed s) true (results s) (Some e) (total s) (all_resumed s)
  end.

Definition all_wrapper (idx : nat) (r : result) (s0 : AllState) : AllState :=
  let s := all_store idx r s0 in
  let c := S (completed s) in
  MkAll c (hasError s) (results s) (error s) (total s)
    (if (c =? total s)%nat then S (all_resumed s) else all_resumed s).

(** [AllAwaiter::await_resume]. *)
Definition all_await_resume (s : AllState) : outcome (list Z) :=
  match error s with
  | Some e => Throw e
  | None => Ok (omap id (results s))
  end.

(** The specialisation for [void]: no results are kept. *)
Definition all_void_wrapper (threw : option exn) (s : AllState) : AllState :=
  let c := S (completed s) in
  MkAll c (hasError s || bool_decide (is_Some threw)) (results s)
    (match threw with Some e => if hasError s then error s else Some e | None => error s end) (total s)
    (if (c =? total s)%nat then S (all_resumed s) else all_resumed s).
Definition all_void_await_resume (s : AllState) : outcome unit :=
  match error s with Some e => Throw e | None => Ok tt end.

Record AnyState := MkAny {
  done_ : bool;
  winnerIndex : option nat;
  any_result : option Z;
  any_error : option exn;
  any_resumed : nat
}.

Definition newAnyState : AnyState := MkAny false None None None 0.

(** What the wrapper of [AnyAwaiter] does when its task ends: the first one
    wins, and resumes. *)
Definition any_wrapper (idx : nat) (r : result) (s : AnyState) : AnyState :=
  if done_ s then s
  else match r with
       | Value v => MkAny true (Some idx) (Some v) (any_error s) (S (any_resumed s))
       | Failure e => MkAny true (winnerIndex s) (any_result s) (Some e) (S (any_resumed s))
       end.

(** [AnyAwaiter::await_resume]; dereferencing an empty result is undefined
    ([None]). *)
Definition any_await_resume (s : AnyState) : option (outcome (nat * Z)) :=
  match any_error s with
  | Some e => Some (Throw e)
  | None => v ← any_result s; Some (Ok (default 0%nat (winnerIndex s), v))
  end.

(** The specialisation for [void]: the index alone. *)
Definition any_void_wrapper (idx : nat) (threw : option exn) (s : AnyState) : AnyState :=
  if done_ s then s
  else match threw with
       | None => MkAny true (Some idx) (any_result s) (any_error s) (S (any_resumed s))
       | Some e => MkAny true (winnerIndex s) (any_result s) (Some e) (S (any_resumed s))
       end.
Definition any_void_await_resume (s : AnyState) : outcome nat :=
  match any_error s with Some e => Throw e | None => Ok (default 0%nat (winnerIndex s)) end.

(** ** The awaiters at work *)

(** What the two awaiters share: a state with its wrapper, and whether the
    waiting coroutine has been resumed. *)
Class Combinator (St : Type) := {
  wrapper : nat → result → St → St;
  resumed : St → nat
}.
#[export] Instance all_combinator : Combinator AllState := {| wrapper := all_wrapper; resumed := all_resumed |}.
#[export] Instance any_combinator : Combinator AnyState := {| wrapper := any_wrapper; resumed := any_resumed |}.

Section Awaiter.
Context {St : Type} `{Combinator St}.

(** The awaiter with [n] tasks: the loop index of [await_suspend], the tasks
    under way, the completions (latest first), whether a task ended inside the
    loop, and whether the loop touched an awaiter that was gone. *)
Record Awaiter := MkAwaiter {
  shared : St;
  ntasks : nat;
  next : nat;
  under_way : list nat;
  log : list entry;
  at_once : bool;
  dangling : bool
}.

Definition newAwaiter (s : St) (n : nat) : Awaiter := MkAwaiter s n 0 [] [] false false.

(** One turn of the loop of [await_suspend]: task [next] is started and either
    suspends or ends at once.  The loop's test then reads [tasks_]; the awaiter
    is gone if the coroutine that waits has been resumed. *)
Definition start_next (r : option result) (a : Awaiter) : Awaiter :=
  match r with
  | None => MkAwaiter (shared a) (ntasks a) (S (next a)) (under_way a ++ [next a]) (log a) (at_once a)
              (dangling a || (0 <? resumed (shared a))%nat)
  | Some r =>
      let s := wrapper (next a) r (shared a) in
      MkAwaiter s (ntasks a) (S (next a)) (under_way a) ((next a, r) :: log a) true
        (dangling a || (0 <? resumed s)%nat)
  end.

(** A task under way ends, resumed by the event loop. *)
Definition finish (idx : nat) (r : result) (a : Awaiter) : Awaiter :=
  MkAwaiter (wrapper idx r (shared a)) (ntasks a) (next a) (filter (λ i, i ≠ idx) (under_way a))
    ((idx, r) :: log a) (at_once a) (dangling a).

(** Tasks under way go on only when [await_suspend] has returned to the loop. *)
Inductive astep : relation Awaiter :=
  | A_start r a : (next a < ntasks a)%nat → astep a (start_next r a)
  | A_finish idx r a : next a = ntasks a → idx ∈ under_way a → astep a (finish idx r a).

(** Every task is either not started, under way, or in the log, once. *)
Record Places (a : Awaiter) : Prop := {
  pl_next : (next a <= ntasks a)%nat;
  pl_once : seq 0 (next a) ≡ₚ under_way a ++ (log a).*1
}.

Lemma filter_remove (l : list nat) i : NoDup l → i ∈ l → l ≡ₚ i :: filter (λ j, j ≠ i) l.
Proof.
  intros Hn Hi. apply NoDup_Permutation; [done| |].
  - constructor; [|by apply NoDup_filter]. rewrite list_elem_of_filter. tauto.
  - intros x. rewrite elem_of_cons, list_elem_of_filter. destruct (decide (x = i)); naive_solver.
Qed.

Lemma places_step a b : astep a b → Places a → Places b.
Proof.
  intros Hst [Hn Ho]. destruct Hst as [r a Hlt|idx r a Hd Hi].
  - assert (Hseq : seq 0 (S (next a)) = seq 0 (next a) ++ [next a]) by apply seq_S.
    split; [destruct r; cbn; lia|]. destruct r as [r|]; cbn [next start_next under_way log fmap list_fmap fst]; rewrite Hseq, Ho.
    + rewrite <- Permutation_cons_append, Permutation_middle. done.
    + rewrite <- !(assoc_L (++)). apply Permutation_app_head, Permutation_app_comm.
  - split; [done|]. cbn [next finish under_way log fmap list_fmap fst]. rewrite Ho.
    assert (NoDup (under_way a)) as Hnd.
    { pose proof (NoDup_seq 0 (next a)) as H0. rewrite Ho in H0. by apply NoDup_app in H0 as [? _]. }
    rewrite (filter_remove (under_way a) idx) at 1 by done. cbn. by rewrite Permutation_middle.
Qed.

(** Without a task that ends at once, the awaiter is alive throughout its
    loop. *)
Lemma no_dangling_step a b :
  astep a b →
  (at_once a = false → dangling a = false ∧ ((next a < ntasks a)%nat → log a = [] ∧ resumed (shared a) = 0%nat)) →
  at_once b = false → dangling b = false ∧ ((next b < ntasks b)%nat → log b = [] ∧ resumed (shared b) = 0%nat).
Proof.
  intros [r x Hlt|idx r x Hd Hi] Hx.
  - destruct r as [r|]; cbn; [done|]. intros Ha. destruct (Hx Ha) as [Hdg Hl]. destruct (Hl Hlt) as [Hlog Hres].
    rewrite Hdg, Hres. done.
  - cbn. intros Ha. destruct (Hx Ha) as [Hdg _]. split; [done|lia].
Qed.
End Awaiter.
Arguments Awaiter : clear implicits.

(** ** [all] *)

Definition failure_of (x : entry) : option exn := match x.2 with Failure e => Some e | Value _ => None end.

(** The first failure, in the order the tasks ended. *)
Definition first_failure (l : list entry) : option exn := head (omap failure_of (reverse l)).

Lemma first_failure_cons x l :
  first_failure (x :: l) = match first_failure l with Some e => Some e | None => failure_of x end.
Proof.
  unfold first_failure. rewrite reverse_cons, omap_app. destruct (omap failure_of (reverse l)); [|done].
  cbn. by destruct (failure_of x).
Qed.

Record AllInv (n : nat) (a : Awaiter AllState) : Prop := {
  ai_places : Places a;
  ai_n : ntasks a = n ∧ total (shared a) = n ∧ length (results (shared a)) = n;
  ai_completed : completed (shared a) = length (log a);
  ai_results : ∀ i v, results (shared a) !! i = Some (Some v) ↔ (i, Value v) ∈ log a;
  ai_error : error (shared a) = first_failure (log a) ∧ hasError (shared a) = bool_decide (is_Some (error (shared a)));
  ai_resumed : all_resumed (shared a) = if decide (length (log a) = n ∧ n ≠ 0%nat) then 1%nat else 0%nat;
  ai_dangling : at_once a = false → dangling a = false ∧ ((next a < ntasks a)%nat → log a = [] ∧ resumed (shared a) = 0%nat)
}.

(** A task that ends is a new entry of the log. *)
Lemma all_wrapper_spec n i r s (l : list entry) :
  (i < n)%nat → (length l < n)%nat → (∀ r', (i, r') ∉ l) →
  total s = n ∧ length (results s) = n → completed s = length l →
  (∀ i v, results s !! i = Some (Some v) ↔ (i, Value v) ∈ l) →
  error s = first_failure l ∧ hasError s = bool_decide (is_Some (error s)) →
  all_resumed s = 0%nat →
  let s' := all_wrapper i r s in
  (total s' = n ∧ length (results s') = n) ∧ completed s' = S (length l) ∧
  (∀ j v, results s' !! j = Some (Some v) ↔ (j, Value v) ∈ (i, r) :: l) ∧
  (error s' = first_failure ((i, r) :: l) ∧ hasError s' = bool_decide (is_Some (error s'))) ∧
  all_resumed s' = if decide (S (length l) = n ∧ n ≠ 0%nat) then 1%nat else 0%nat.
Proof.
  intros Hi Hlen Hnew [Ht Hl] Hc Hr [He Hh] Hres. rewrite first_failure_cons.
  unfold all_wrapper, all_store. destruct r as [v|e]; cbn [failure_of snd].
  - cbn -[Nat.eqb]. rewrite length_insert, Hc, Hres, Ht. split_and!; [done|done|done| |by rewrite He; destruct (first_failure l)|done|].
    + intros j w. rewrite elem_of_cons. destruct (decide (i = j)) as [<-|Hij].
      * rewrite list_lookup_insert_eq by lia. split; [intros [= ->]; by left|]. intros [[= ->]|H]; [done|]. by apply Hnew in H.
      * rewrite list_lookup_insert_ne, Hr by done. split; [by right|]. intros [[= -> ->]|?]; done.
    + destruct (Nat.eqb_spec (S (length l)) n); case_decide; lia || done.
  - assert (Hrs : ∀ j w, results s !! j = Some (Some w) ↔ (j, Value w) ∈ (i, Failure e) :: l).
    { intros j w. rewrite elem_of_cons, Hr. split; [by right|]. by intros [[=]|?]. }
    destruct (hasError s) eqn:Hhe; cbn -[Nat.eqb]; rewrite Hc, ?Hres, ?Ht; symmetry in Hh.
    + apply bool_decide_eq_true in Hh. rewrite <- He. destruct (error s) as [e0|] eqn:Ee; [|by destruct Hh].
      rewrite Hhe. split_and!; try done. destruct (Nat.eqb_spec (S (length l)) n); case_decide; lia || done.
    + apply bool_decide_eq_false in Hh. rewrite <- He. destruct (error s) as [e0|] eqn:Ee; [by destruct Hh|].
      split_and!; try done. destruct (Nat.eqb_spec (S (length l)) n); case_decide; lia || done.
Qed.

(** Where a task is that has not ended: room is left and it is not in the log. *)
Lemma places_room {St} `{Combinator St} (a : Awaiter St) i :
  Places a → (i ∈ under_way a ∨ i = next a) → (next a < ntasks a)%nat ∨ i ∈ under_way a →
  (i < ntasks a)%nat ∧ (length (log a) < ntasks a)%nat ∧ ∀ r, (i, r) ∉ log a.
Proof.
  intros [Hn Ho] Hi Hlt. pose proof (Permutation_length Ho) as Hlen. rewrite length_seq, length_app, length_fmap in Hlen.
  pose proof (NoDup_seq 0 (next a)) as Hnd. rewrite Ho in Hnd. apply NoDup_app in Hnd as (_ & Hdis & _).
  assert (Hmem : ∀ r, (i, r) ∈ log a → i ∈ (log a).*1) by (intros r Hr; apply list_elem_of_fmap; by exists (i, r)).
  destruct Hlt as [Hlt|Hu].
  - destruct Hi as [Hu| ->].
    + assert (i ∈ seq 0 (next a)) as Hs by (rewrite Ho; apply elem_of_app; by left). apply elem_of_seq in Hs.
      split_and!; [lia|lia|]. intros r Hr%Hmem. by apply (Hdis i).
    + split_and!; [lia|lia|]. intros r Hr%Hmem. assert (next a ∈ seq 0 (next a)) as Hs by (rewrite Ho; apply elem_of_app; by right).
      apply elem_of_seq in Hs. lia.
  - assert (i ∈ seq 0 (next a)) as Hs by (rewrite Ho; apply elem_of_app; by left). apply elem_of_seq in Hs.
    assert (0 < length (under_way a))%nat by (destruct (under_way a); [by apply elem_of_nil in Hu|cbn; lia]).
    split_and!; [lia|lia|]. intros r Hr%Hmem. by apply (Hdis i).
Qed.

Lemma all_step_inv n a b : astep a b → AllInv n a → AllInv n b.
Proof.
  intros Hst [Hpl (Hnt & Htot & Hlen) Hc Hr He Hres Hd].
  pose proof (places_step a b Hst Hpl) as Hpl'. pose proof (no_dangling_step a b Hst Hd) as Hd'.
  assert (Hfresh : (length (log a) < n)%nat → all_resumed (shared a) = 0%nat).
  { intros Hl. rewrite Hres. by rewrite decide_False by lia. }
  destruct Hst as [[r|] a Hlt|idx r a Hdone Hi].
  - destruct (places_room a (next a) Hpl) as (H1 & H2 & H3); [by right|by left|]. rewrite Hnt in *.
    destruct (all_wrapper_spec n (next a) r (shared a) (log a)) as ([? ?] & ? & ? & ? & ?); [done|done|done|done|done|done|done|by apply Hfresh|].
    by split.
  - split; done.
  - destruct (places_room a idx Hpl) as (H1 & H2 & H3); [by left|by right|]. rewrite Hnt in *.
    destruct (all_wrapper_spec n idx r (shared a) (log a)) as ([? ?] & ? & ? & ? & ?); [done|done|done|done|done|done|done|by apply Hfresh|].
    by split.
Qed.

Lemma all_inv_init n : AllInv n (newAwaiter (newAllState n) n).
Proof.
  split; cbn; try done.
  - split; cbn; [lia|done].
  - by rewrite length_replicate.
  - intros i v. split; [|by intros ?%elem_of_nil]. intros [? _]%lookup_replicate. done.
  - case_decide; [lia|done].
Qed.

Lemma omap_some_values (rs : list (option Z)) :
  Forall is_Some rs → ∃ vs, rs = Some <$> vs ∧ omap id rs = vs.
Proof.
  induction 1 as [|o rs [v ->] _ (vs & -> & E)]; [by exists []|]. exists (v :: vs). split; [done|]. cbn. by rewrite E.
Qed.

(** C35: [all] waits for every task and returns their values in the order of the
    tasks, however and in whatever order they end: the waiting coroutine is
    resumed exactly once, when the last task ends; it then gets, when no task
    failed, one value per task, and otherwise the exception of the task that
    failed first.  As long as every task suspends, the awaiter is alive while
    [await_suspend] uses it. *)
Theorem all_waits_for_all n a :
  (0 < n)%nat → rtc astep (newAwaiter (newAllState n) n) a →
  all_resumed (shared a) = (if decide (length (log a) = n) then 1%nat else 0%nat) ∧
  (at_once a = false → dangling a = false) ∧
  (length (log a) = n →
   match first_failure (log a) with
   | Some e => all_await_resume (shared a) = Throw e
   | None => ∃ vs, all_await_resume (shared a) = Ok vs ∧ length vs = n ∧ ∀ i v, vs !! i = Some v ↔ (i, Value v) ∈ log a
   end).
Proof.
  intros Hn Hr. destruct (rtc_invariant astep (AllInv n) _ a (all_step_inv n) Hr (all_inv_init n)) as [Hpl (Hnt & Ht & Hl) Hc Hrs [He _] Hres Hd].
  split_and!.
  - rewrite Hres. repeat case_decide; done || lia.
  - intros Ha. by apply Hd.
  - intros Hlen. unfold all_await_resume. rewrite He. destruct (first_failure (log a)) as [e|] eqn:Ef; [done|].
    assert (Hall : Forall is_Some (results (shared a))).
    { apply Forall_lookup. intros i o Ho. destruct Hpl as [Hnx Hp].
      pose proof (Permutation_length Hp) as Hpl. rewrite length_seq, length_app, length_fmap in Hpl.
      assert (under_way a = []) as Hu by (destruct (under_way a); [done|cbn in Hpl; lia]). rewrite Hu in Hp. cbn in Hp.
      assert (i ∈ seq 0 (next a)) as Hi. { apply elem_of_seq. apply lookup_lt_Some in Ho. rewrite Hu in Hpl. cbn in Hpl. lia. }
      rewrite Hp in Hi. apply list_elem_of_fmap in Hi as ([j r] & -> & Hin). cbn in *.
      destruct r as [v|e]; [apply Hrs in Hin; rewrite Hin in Ho; by injection Ho as <-|].
      exfalso. unfold first_failure in Ef. assert (e ∈ omap failure_of (reverse (log a))) as H'.
      { apply list_elem_of_omap. exists (j, Failure e). split; [by apply elem_of_reverse|done]. }
      destruct (omap failure_of (reverse (log a))); [by apply elem_of_nil in H'|done]. }
    destruct (omap_some_values _ Hall) as (vs & Evs & Eo). exists vs. rewrite Eo. split; [done|]. rewrite Evs, length_fmap in Hl.
    split; [done|]. intros i v. rewrite <- Hrs, Evs, list_lookup_fmap. destruct (vs !! i); cbn; split; congruence.
Qed.

(** Two tasks: the second ends first, with value 8, the first with value 7. *)
Definition all_sample : Awaiter AllState :=
  finish 0 (Value 7) (finish 1 (Value 8) (start_next None (start_next None (newAwaiter (newAllState 2) 2)))).

Lemma all_waits_for_all_witness :
  all_resumed (shared all_sample) = 1%nat ∧ all_await_resume (shared all_sample) = Ok [7; 8].
Proof.
  split; [|done]. refine (proj1 (all_waits_for_all 2 all_sample _ _)); [lia|].
  eapply rtc_l; [apply (A_start None); cbn; lia|]. eapply rtc_l; [apply (A_start None); cbn; lia|].
  eapply rtc_l; [apply (A_finish 1); [done|right; left]|]. apply rtc_once, (A_finish 0); [done|left].
Defined.

(** ** [any] *)

(** What [any] keeps of the task that ended first. *)
Definition any_kept (s : AnyState) (l : list entry) : Prop :=
  match last l with
  | None => s = newAnyState
  | Some (i, Value v) => s = MkAny true (Some i) (Some v) None 1
  | Some (i, Failure e) => s = MkAny true None None (Some e) 1
  end.

Lemma any_wrapper_spec i r s l : any_kept s l → any_kept (any_wrapper i r s) ((i, r) :: l).
Proof.
  unfold any_kept. rewrite last_cons. destruct (last l) as [[j [v|e]]|]; intros ->; [done|done|]. by destruct r.
Qed.

Lemma any_kept_resumed s l : any_kept s l → any_resumed s = if decide (l = []) then 0%nat else 1%nat.
Proof.
  unfold any_kept. destruct l as [|x l]; [intros ->; done|]. rewrite last_cons.
  destruct (default x (last l)) as [i [v|e]] eqn:E; destruct (last l) as [y|]; cbn in E; subst; intros ->; done.
Qed.

Lemma any_step_inv a b :
  astep a b →
  any_kept (shared a) (log a) ∧
    (at_once a = false → dangling a = false ∧ ((next a < ntasks a)%nat → log a = [] ∧ resumed (shared a) = 0%nat)) →
  any_kept (shared b) (log b) ∧
    (at_once b = false → dangling b = false ∧ ((next b < ntasks b)%nat → log b = [] ∧ resumed (shared b) = 0%nat)).
Proof.
  intros Hst [Hk Hd]. split; [|by apply (no_dangling_step a b Hst Hd)].
  destruct Hst as [[r|] x _|idx r x _ _]; cbn; [by apply any_wrapper_spec|done|by apply any_wrapper_spec].
Qed.

(** [any] takes the task that ends first: the waiting coroutine is resumed
    exactly once, by the first task that ends, and gets that task's index and
    value, or its exception even when others would succeed; later ends change
    nothing.  With no task at all there is no value and reading it is
    undefined.  As long as every task suspends, the awaiter is alive while
    [await_suspend] uses it. *)
Theorem any_takes_first n a :
  rtc astep (newAwaiter newAnyState n) a →
  any_resumed (shared a) = (if decide (log a = []) then 0%nat else 1%nat) ∧
  (at_once a = false → dangling a = false) ∧
  any_await_resume (shared a) = match last (log a) with
                                | Some (i, Value v) => Some (Ok (i, v))
                                | Some (_, Failure e) => Some (Throw e)
                                | None => None
                                end.
Proof.
  intros Hr. destruct (rtc_invariant astep _ _ a any_step_inv Hr) as [Hk Hd].
  { split; [done|]. done. }
  split_and!; [by apply any_kept_resumed|by intros; apply Hd|].
  unfold any_kept in Hk. destruct (last (log a)) as [[i [v|e]]|]; by rewrite Hk.
Qed.

Definition any_sample : Awaiter AnyState :=
  finish 0 (Value 7) (finish 1 (Value 8) (start_next None (start_next None (newAwaiter newAnyState 2)))).

Lemma any_takes_first_witness : any_await_resume (shared any_sample) = Some (Ok (1%nat, 8)).
Proof.
  refine (proj2 (proj2 (any_takes_first 2 any_sample _))).
  eapply rtc_l; [apply (A_start None); cbn; lia|]. eapply rtc_l; [apply (A_start None); cbn; lia|].
  eapply rtc_l; [apply (A_finish 1); [done|right; left]|]. apply rtc_once, (A_finish 0); [done|left].
Defined.

(** All tasks of the list end at once, in [await_suspend]. *)
Definition start_all {St} `{Combinator St} (rs : list result) (a : Awaiter St) : Awaiter St :=
  foldl (λ a r, start_next (Some r) a) a rs.

Lemma start_all_dangling {St} `{Combinator St} rs (a : Awaiter St) :
  dangling a = true → dangling (start_all rs a) = true.
Proof. revert a. induction rs as [|r rs IH]; intros a Ha; [done|]. apply IH. cbn. by rewrite Ha. Qed.

Lemma all_store_counts i r s : completed (all_store i r s) = completed s ∧ total (all_store i r s) = total s.
Proof. unfold all_store. destruct r; [done|by destruct (hasError s)]. Qed.

(** A task that ends without suspending pulls the awaiter away from under
    [await_suspend]: with [any], when the first task started does, and with
    [all], when all of them do, the waiting coroutine is resumed inside the
    loop and the loop's next test reads the destroyed awaiter. *)
Theorem combinator_dangles r rs :
  dangling (start_all (r :: rs) (newAwaiter newAnyState (S (length rs)))) = true ∧
  dangling (start_all (r :: rs) (newAwaiter (newAllState (S (length rs))) (S (length rs)))) = true.
Proof.
  split; [apply (start_all_dangling rs (start_next (Some r) _)); by destruct r|].
  assert (Hgen : ∀ rs (a : Awaiter AllState), rs ≠ [] → total (shared a) = (completed (shared a) + length rs)%nat →
    dangling (start_all rs a) = true).
  { clear. induction rs as [|r rs IH]; intros a Hne Ht; [done|]. destruct rs as [|r' rs].
    - unfold start_all, start_next. cbn [foldl dangling resumed all_combinator wrapper]. apply orb_true_iff. right.
      apply Nat.ltb_lt. unfold all_wrapper. cbn -[Nat.eqb].
      destruct (all_store_counts (next a) r (shared a)) as [-> ->]. cbn in Ht. destruct (Nat.eqb_spec (S (completed (shared a))) (total (shared a))); lia.
    - apply (IH (start_next (Some r) a)); [done|]. cbn in Ht |- *.
      destruct (all_store_counts (next a) r (shared a)) as [-> ->]. lia. }
  by apply Hgen.
Qed.
