(* ===== verification/AsyncTime.v ===== *)
(** * Sleeping, timeouts and the current loop
      (include/pman/async/time.hpp, sleep.hpp, timeout.hpp, interval.hpp,
       src/src/async/interval.cpp, event_loop.cpp)

    The awaiters over the timers of [EpollLoop].  An awaiter lives in the frame
    of the coroutine that awaits it and is gone once that coroutine has been
    resumed; a timer callback that still refers to it is recorded in
    [dangling]. *)

From S2P Require Import Prelude EpollLoop.

(** ** Durations and instants *)

Module Time.
Record Duration := MkDuration { nanos_ : Z }.
Definition fromNanos (n : Z) : Duration := MkDuration n.
Definition fromMicros (n : Z) : Duration := fromNanos (n * 1000).
Definition fromMillis (n : Z) : Duration := fromNanos (n * 1000000).
Definition fromSeconds (n : Z) : Duration := fromNanos (n * 1000000000).
Definition asNanos (d : Duration) : Z := nanos_ d.
Definition asMicros (d : Duration) : Z := nanos_ d ÷ 1000.
Definition asMillis (d : Duration) : Z := nanos_ d ÷ 1000000.
Definition asSeconds (d : Duration) : Z := nanos_ d ÷ 1000000000.
Definition plus (a b : Duration) : Duration := fromNanos (nanos_ a + nanos_ b).
Definition minus (a b : Duration) : Duration := fromNanos (nanos_ a - nanos_ b).
Definition le (a b : Duration) : bool := nanos_ a <=? nanos_ b.

Record Instant := MkInstant { tp_ : Z }.
Definition hasPassed (now : Z) (i : Instant) : bool := now >=? tp_ i.
Definition durationUntil (now : Z) (i : Instant) : Duration :=
  if now >=? tp_ i then fromNanos 0 else fromNanos (tp_ i - now).
Definition advance (i : Instant) (d : Duration) : Instant := MkInstant (tp_ i + nanos_ d).
Definition since (i j : Instant) : Duration := fromNanos (tp_ i - tp_ j).

(** [withDeadline]: the timeout it asks for; a rest of less than a millisecond
    counts as passed. *)
Definition withDeadline (now : Z) (deadline : Instant) : outcome Duration :=
  let d := since deadline (MkInstant now) in
  if asMillis d <=? 0 then Throw RuntimeError else Ok d.

Lemma units_roundtrip n :
  asMicros (fromMicros n) = n ∧ asMillis (fromMillis n) = n ∧ asSeconds (fromSeconds n) = n.
Proof. unfold asMicros, asMillis, asSeconds. cbn. rewrite !Z.quot_mul by lia. done. Qed.

(** Waiting for [durationUntil] reaches the instant, and not before. *)
Lemma durationUntil_spec now i :
  0 <= asNanos (durationUntil now i) ∧ (now < tp_ i → now + asNanos (durationUntil now i) = tp_ i).
Proof. unfold durationUntil. destruct (Z.geb_spec now (tp_ i)); cbn; lia. Qed.
End Time.

(** ** A task that sleeps, under a timeout *)

Module Timeout.

(** [SleepAwaiter]; it is gone ([None] below) once its coroutine goes on or is
    destroyed. *)
Record SleepAwaiter := MkSleep { sleepTimer_ : Z; sleepCompleted_ : bool }.

Record TimeoutAwaiter := MkTimeout { completed_ : bool; timedOut_ : bool; timerId_ : Z }.

(** What the awaiting coroutine gets. *)
Inductive timed := Completed (v : Z) | TimedOut.

(** A task that sleeps and then returns [value]; the callbacks of its two
    timers. *)
Record World := MkWorld {
  loop : EpollLoop;
  awaiter : option TimeoutAwaiter;
  sleeper : option SleepAwaiter;
  value : Z;
  outcome_ : option timed;
  resumes : nat;
  dangling : bool
}.

Definition cb_timeout : Z := 1.
Definition cb_sleep : Z := 2.

Definition touch_dead (w : World) : World :=
  MkWorld (loop w) (awaiter w) (sleeper w) (value w) (outcome_ w) (resumes w) true.

Definition cancel (id : Z) (w : World) : World :=
  match cancelTimer id (loop w) with
  | Some (_, l) => MkWorld l (awaiter w) (sleeper w) (value w) (outcome_ w) (resumes w) (dangling w)
  | None => touch_dead w
  end.

(** [~SleepAwaiter]. *)
Definition destroy_sleeper (w : World) : World :=
  match sleeper w with
  | None => w
  | Some a =>
      let w1 := if negb (sleepTimer_ a =? 0) then cancel (sleepTimer_ a) w else w in
      MkWorld (loop w1) (awaiter w1) None (value w1) (outcome_ w1) (resumes w1) (dangling w1)
  end.

(** [handle_.resume()]: [await_resume] cancels the timer and returns or throws;
    the awaiter is destroyed, and with it the task, suspended or finished. *)
Definition resume_waiting (a : TimeoutAwaiter) (w : World) : World :=
  let w1 := if negb (timerId_ a =? 0) then cancel (timerId_ a) w else w in
  let w2 := destroy_sleeper w1 in
  MkWorld (loop w2) None (sleeper w2) (value w2)
    (Some (if timedOut_ a then TimedOut else Completed (value w2))) (S (resumes w2)) (dangling w2).

Definition onTimeout (w : World) : World :=
  match awaiter w with
  | None => touch_dead w
  | Some a => if completed_ a then w else resume_waiting (MkTimeout true true (timerId_ a)) w
  end.

Definition onTaskComplete (w : World) : World :=
  match awaiter w with
  | None => touch_dead w
  | Some a => if completed_ a then w else resume_waiting (MkTimeout true false (timerId_ a)) w
  end.

(** The callback of the sleep: the awaiter is marked, the task goes on to its
    end and its continuation runs. *)
Definition sleep_fired (w : World) : World :=
  match sleeper w with
  | None => touch_dead w
  | Some a => onTaskComplete (MkWorld (loop w) (awaiter w) None (value w) (outcome_ w) (resumes w) (dangling w))
  end.

Definition fire (c : Z) (w : World) : World :=
  if c =? cb_timeout then onTimeout w else if c =? cb_sleep then sleep_fired w else w.

(** [await_suspend]: the timer is started, then the task, which reaches its
    sleep. *)
Definition await_suspend (now1 now2 t d v : Z) (l : EpollLoop) : World :=
  let '(id1, l1) := addTimer now1 t (Some cb_timeout) l in
  let '(id2, l2) := addTimer now2 d (Some cb_sleep) l1 in
  MkWorld l2 (Some (MkTimeout false false id1)) (Some (MkSleep id2 false)) v None 0 false.

(** [processTimers]: the batch of callbacks is collected before any of them
    runs. *)
Definition pass (now : Z) (w : World) : World :=
  let '(batch, l) := collectTimers now (loop w) in
  foldl (λ w c, fire c w) (MkWorld l (awaiter w) (sleeper w) (value w) (outcome_ w) (resumes w) (dangling w)) batch.

(** The two timers, in the order of the table. *)
Lemma await_suspend_timers now1 now2 t d v l :
  timersByExpiry_ l = [] → timerById_ l = ∅ → 0 < nextTimerId_ l < 2 ^ 64 - 2 →
  let id := nextTimerId_ l in
  let w := await_suspend now1 now2 t d v l in
  let n1 := MkNode (now1 + t) (nextNode l) (MkTimerEntry id (Some cb_timeout) 0) in
  let n2 := MkNode (now2 + d) (nextNode l + 1) (MkTimerEntry (id + 1) (Some cb_sleep) 0) in
  timersByExpiry_ (loop w) = (if now2 + d <? now1 + t then [n2; n1] else [n1; n2]) ∧
  timerById_ (loop w) = <[id + 1 := nextNode l + 1]> (<[id := nextNode l]> ∅) ∧
  awaiter w = Some (MkTimeout false false id) ∧ sleeper w = Some (MkSleep (id + 1) false) ∧
  value w = v ∧ outcome_ w = None ∧ resumes w = 0%nat ∧ dangling w = false.
Proof.
  intros Hl Hi Hn id w n1 n2. unfold w, await_suspend. cbn. rewrite Hl, Hi. cbn.
  unfold u64. rewrite (wrap_small 64 (nextTimerId_ l + 1)) by lia. done.
Qed.

Lemma two_deleted (a b x y : Z) :
  a ≠ b → size (delete a (delete b (<[b := y]> (<[a := x]> (∅ : gmap Z Z))))) = 0%nat.
Proof.
  intros Hab. rewrite map_size_empty_iff. apply map_eq. intros k.
  destruct (decide (a = k)) as [<-|]; [by simplify_map_eq|]. destruct (decide (b = k)) as [<-|]; by simplify_map_eq.
Qed.

Lemma cancel_absent id w : timerById_ (loop w) !! id = None → cancel id w = w.
Proof. intros H. unfold cancel, cancelTimer. rewrite H. by destruct w. Qed.

Lemma cancel_found id it l' w :
  timerById_ (loop w) !! id = Some it → multimap_erase it (timersByExpiry_ (loop w)) = Some l' →
  cancel id w = MkWorld (set_timers l' (delete id (timerById_ (loop w))) (loop w)) (awaiter w) (sleeper w) (value w)
                  (outcome_ w) (resumes w) (dangling w).
Proof. intros H He. unfold cancel, cancelTimer. rewrite H, He. done. Qed.

(** The timeout fires after its timer left the table: the sleep is cancelled. *)
Lemma onTimeout_cancels_sleep id1 id2 c w :
  awaiter w = Some (MkTimeout false false id1) → sleeper w = Some (MkSleep id2 c) → id2 ≠ 0 →
  timerById_ (loop w) !! id1 = None →
  onTimeout w = MkWorld (loop (cancel id2 w)) None None (value (cancel id2 w)) (Some TimedOut)
                  (S (resumes (cancel id2 w))) (dangling (cancel id2 w)).
Proof.
  intros Ha Hs Hz Hi. unfold onTimeout, resume_waiting. rewrite Ha. cbn [completed_ timerId_ timedOut_].
  assert (Hc : (if negb (id1 =? 0) then cancel id1 w else w) = w) by (destruct (id1 =? 0); [done|by apply cancel_absent]).
  rewrite Hc. unfold destroy_sleeper. rewrite Hs. cbn [sleepTimer_]. apply Z.eqb_neq in Hz. by rewrite Hz.
Qed.

(** The sleep fires first: the timeout's timer is cancelled. *)
Lemma sleep_fired_cancels_timeout id1 sl w :
  awaiter w = Some (MkTimeout false false id1) → sleeper w = Some sl → id1 ≠ 0 →
  sleep_fired w =
    let w1 := cancel id1 (MkWorld (loop w) (awaiter w) None (value w) (outcome_ w) (resumes w) (dangling w)) in
    MkWorld (loop w1) None (sleeper w1) (value w1) (Some (Completed (value w1))) (S (resumes w1)) (dangling w1).
Proof.
  intros Ha Hs Hz. unfold sleep_fired, onTaskComplete, resume_waiting. rewrite Hs, Ha. cbn. apply Z.eqb_neq in Hz. rewrite Hz. cbn.
  unfold destroy_sleeper, cancel. destruct (cancelTimer _ _) as [[? ?]|]; done.
Qed.

(** C9: A timeout around a sleeping task, at a pass of the event loop.  Before
    either deadline nothing happens.  If only the task's deadline has passed the
    coroutine is resumed once with the task's value, if only the timeout's it
    gets the timeout, and in both cases the other timer is cancelled and no
    timer is left.  But if one pass finds both deadlines passed, both callbacks
    are already in its batch: the second runs on an awaiter that the first has
    destroyed. *)
Theorem timeout_race now1 now2 t d v l n :
  timersByExpiry_ l = [] → timerById_ l = ∅ → 0 < nextTimerId_ l < 2 ^ 64 - 2 →
  let w := pass n (await_suspend now1 now2 t d v l) in
  (n < now1 + t → n < now2 + d → outcome_ w = None ∧ resumes w = 0%nat ∧ dangling w = false) ∧
  (now2 + d <= n → n < now1 + t →
     outcome_ w = Some (Completed v) ∧ resumes w = 1%nat ∧ activeTimers (loop w) = 0%nat ∧ dangling w = false) ∧
  (now1 + t <= n → n < now2 + d →
     outcome_ w = Some TimedOut ∧ resumes w = 1%nat ∧ activeTimers (loop w) = 0%nat ∧ dangling w = false) ∧
  (now1 + t <= n → now2 + d <= n → resumes w = 1%nat ∧ dangling w = true).
Proof.
  intros Hl Hi Hn. destruct (await_suspend_timers now1 now2 t d v l Hl Hi Hn) as (Ht & Hix & Ha & Hs & Hv & Ho & Hr & Hd).
  assert (Hne : nextTimerId_ l ≠ nextTimerId_ l + 1) by lia.
  cbn zeta. unfold pass, collectTimers. rewrite Ht, Hix, Ha, Hs, Hv, Ho, Hr, Hd.
  generalize (loop (await_suspend now1 now2 t d v l)). intros l2. clear Ht Hix Ha Hs Hv Ho Hr Hd.
  assert (Hnz : (nextTimerId_ l =? 0) = false ∧ (nextTimerId_ l + 1 =? 0) = false) by (split; apply Z.eqb_neq; lia).
  destruct Hnz as [Hz1 Hz2].
  destruct (Z.ltb_spec (now2 + d) (now1 + t)) as [Hlt|Hge]; cbn [collect node_key node_entry te_id te_callback te_period];
    rewrite !Z.gtb_ltb.
  - destruct (Z.ltb_spec n (now2 + d)); [split_and!; intros; done || lia|].
    destruct (Z.ltb_spec n (now1 + t)); split_and!; intros; try lia; cbn [foldl app fire];
      change (fire cb_sleep ?w) with (sleep_fired w); change (fire cb_timeout ?w) with (onTimeout w);
      rewrite (sleep_fired_cancels_timeout (nextTimerId_ l) (MkSleep (nextTimerId_ l + 1) false)) by (done || lia); cbn zeta.
    + erewrite cancel_found; [|by cbn; simplify_map_eq|by cbn; rewrite Z.eqb_refl]. cbn. split_and!; try done.
      by apply two_deleted.
    + rewrite cancel_absent by (cbn; by simplify_map_eq). done.
  - destruct (Z.ltb_spec n (now1 + t)); [split_and!; intros; done || lia|].
    destruct (Z.ltb_spec n (now2 + d)); split_and!; intros; try lia; cbn [foldl app fire];
      change (fire cb_sleep ?w) with (sleep_fired w); change (fire cb_timeout ?w) with (onTimeout w);
      rewrite (onTimeout_cancels_sleep (nextTimerId_ l) (nextTimerId_ l + 1) false) by (try done; try lia; cbn; by simplify_map_eq).
    + erewrite cancel_found; [|by cbn; simplify_map_eq|by cbn; rewrite Z.eqb_refl]. cbn. split_and!; try done.
      rewrite delete_delete. by apply two_deleted.
    + rewrite cancel_absent by (cbn; by simplify_map_eq). done.
Qed.

(** A sleep of one second under a timeout of one second, both found at once. *)
Lemma timeout_race_witness :
  resumes (pass 1500 (await_suspend 0 0 1000 1000 5 initLoop)) = 1%nat ∧
  dangling (pass 1500 (await_suspend 0 0 1000 1000 5 initLoop)) = true.
Proof.
  refine (proj2 (proj2 (proj2 (timeout_race 0 0 1000 1000 5 initLoop 1500 _ _ _))) _ _); [done|done|cbn; lia|lia|lia].
Defined.

(** [tryTimeout]: the timeout becomes an empty result. *)
Definition tryTimeout (r : timed) : option Z := match r with Completed v => Some v | TimedOut => None end.
End Timeout.

(** ** [race]: a timeout that lets the task go on *)

Module Race.

(** [NonCancellingTimeoutAwaiter]; [handle_] is the waiting coroutine once
    [await_suspend] has stored it. *)
Record Awaiter := MkRace {
  completed_ : bool;
  timedOut_ : bool;
  armed : bool;                  (* timerId_ *)
  handle_ : bool;
  resumes : nat
}.

Definition resume (a : Awaiter) : Awaiter :=
  MkRace (completed_ a) (timedOut_ a) (armed a) (handle_ a) (if handle_ a then S (resumes a) else resumes a).

Definition race_onTimeout (a : Awaiter) : Awaiter :=
  if completed_ a then a else resume (MkRace true true (armed a) (handle_ a) (resumes a)).

Definition race_onTaskComplete (a : Awaiter) : Awaiter :=
  if completed_ a then a else resume (MkRace true false (armed a) (handle_ a) (resumes a)).

(** The constructor starts the task, which may end at once; its continuation is
    [onTaskComplete], except for [void] tasks, which get none. *)
Definition race_construct (is_void ends_at_once : bool) : Awaiter :=
  let a := MkRace false false false false 0 in
  if negb is_void && ends_at_once then race_onTaskComplete a else a.

Definition race_await_suspend (a : Awaiter) : Awaiter :=
  MkRace (completed_ a) (timedOut_ a) true true (resumes a).

(** [await_resume] for [void]: whether the task was done in time. *)
Definition await_resume_void (a : Awaiter) : bool := negb (timedOut_ a).

(** What can happen after the suspension: the timer's callback and the end of
    the task. *)
Inductive event := Timer | TaskEnds.

Definition happen (is_void : bool) (a : Awaiter) (e : event) : Awaiter :=
  match e with
  | Timer => race_onTimeout a
  | TaskEnds => if is_void then a else race_onTaskComplete a
  end.

Definition race_run (is_void ends_at_once : bool) (es : list event) : Awaiter :=
  foldl (happen is_void) (race_await_suspend (race_construct is_void ends_at_once)) es.

(** [race] on a [void] task never reports that the task was done in time,
    and on a task with a result that ends at once it never resumes its caller.
    For [void] nothing tells the awaiter that the task ended, so the caller
    always waits for the timer and gets false; for a task that ends inside the
    constructor the flag is taken before there is a handle to resume, and the
    timer finds it taken. *)
Theorem race_misses_completion b es :
  ((0 < resumes (race_run true b es))%nat → await_resume_void (race_run true b es) = false) ∧
  (Timer ∉ es → resumes (race_run true b es) = 0%nat) ∧
  resumes (race_run false true es) = 0%nat.
Proof.
  split_and!.
  - assert (H : ∀ es a, (resumes a = 0%nat ∨ timedOut_ a = true) → resumes (foldl (happen true) a es) = 0%nat ∨ timedOut_ (foldl (happen true) a es) = true).
    { clear. induction es as [|[] es IH]; intros a Ha; [done| |by apply IH]. cbn. apply IH. unfold race_onTimeout. destruct (completed_ a); [done|]. by right. }
    intros Hp. unfold race_run in *. destruct (H es (race_await_suspend (race_construct true b))) as [E|E]; [by left|lia|]. unfold await_resume_void. by rewrite E.
  - intros Hno. unfold race_run. assert (Hr : resumes (race_await_suspend (race_construct true b)) = 0%nat) by done.
    revert Hno Hr. generalize (race_await_suspend (race_construct true b)). induction es as [|[] es IH]; intros a Hno Hr; [done| |].
    + by destruct Hno; left.
    + apply IH; [|done]. intros H. apply Hno. by right.
  - unfold race_run. assert (Hc : completed_ (race_await_suspend (race_construct false true)) = true) by done.
    assert (Hr : resumes (race_await_suspend (race_construct false true)) = 0%nat) by done.
    revert Hc Hr. generalize (race_await_suspend (race_construct false true)).
    induction es as [|[] es IH]; intros a Hc Hr; [done| |]; cbn; unfold race_onTimeout, race_onTaskComplete; rewrite Hc; by apply IH.
Qed.
End Race.

(** ** Intervals (src/src/async/interval.cpp) *)

Module Interval.
Record Interval := MkInterval { period_ : Z; tick_ : Z; stopped_ : bool }.

Definition create (period : Z) : Interval := MkInterval period 0 false.
Definition stop (i : Interval) : Interval := MkInterval (period_ i) (tick_ i) true.
Definition isStopped (i : Interval) : bool := stopped_ i.

(** [next] up to its sleep: ended at once, or the time it sleeps. *)
Definition next_begin (i : Interval) : option Z := if stopped_ i then None else Some (period_ i).

(** [next] after its sleep. *)
Definition next_end (i : Interval) : option Z * Interval :=
  if stopped_ i then (None, i) else (Some (tick_ i), MkInterval (period_ i) (u64 (tick_ i + 1)) (stopped_ i)).

Fixpoint ticks (n : nat) (i : Interval) : list (option Z) * Interval :=
  match n with
  | O => ([], i)
  | S n' => let '(r, i1) := next_end i in let '(rs, i2) := ticks n' i1 in (r :: rs, i2)
  end.

(** The ticks count up from the first one, until the interval is stopped. *)
Lemma ticks_count n i :
  stopped_ i = false → 0 <= tick_ i → tick_ i + Z.of_nat n < 2 ^ 64 →
  (ticks n i).1 = (λ k, Some (tick_ i + Z.of_nat k)) <$> seq 0 n ∧ (next_end (stop (ticks n i).2)).1 = None.
Proof.
  revert i. induction n as [|n IH]; intros i Hs H0 Hn; [done|]. cbn [ticks]. unfold next_end at 1. rewrite Hs.
  set (j := MkInterval (period_ i) (u64 (tick_ i + 1)) false).
  assert (Ht : tick_ j = tick_ i + 1) by (apply wrap_small; lia).
  destruct (IH j) as [Hl Hstop]; [done|rewrite Ht; lia|rewrite Ht; lia|].
  destruct (ticks n j) as [rs k]. cbn in *. split; [|done]. rewrite Hl, Ht.
  f_equal; [f_equal; lia|]. rewrite <- fmap_S_seq, <- list_fmap_compose. apply list_fmap_ext. intros m x _. cbn. f_equal. lia.
Qed.
End Interval.

(** ** The loop of a thread (src/src/async/event_loop.cpp) *)

Module Current.
Inductive BackendType := Auto | Epoll | IoUring | OtherBackend.

(** [createBackend]. *)
Definition createBackend (b : BackendType) : outcome BackendType :=
  match b with
  | Auto | Epoll => Ok Epoll
  | IoUring => Ok IoUring
  | OtherBackend => Throw InvalidArgument
  end.

(** [gCurrentLoop]: the address of the thread's loop. *)
Abbreviation current := (option Z).

(** [run] of loop [this]; [body] is what the backend's [run] ends with. *)
Definition run (this : Z) (body : outcome unit) (g : current) : outcome unit * current :=
  match g with
  | Some other => if other =? this then (body, Some this) else (Throw LogicError, g)
  | None => (body, Some this)
  end.

Definition runOnce (this : Z) (body : outcome bool) (g : current) : outcome bool * current :=
  match g with
  | None => (body, Some this)
  | Some other => if other =? this then (body, g) else (Throw LogicError, g)
  end.

Definition destroy (this : Z) (g : current) : current :=
  match g with Some other => if other =? this then None else g | None => None end.

(** A thread's loop stays current after [run] has returned: another loop of
    the same thread cannot be run, it gets the exception that says a loop is
    already running, until the first loop object is destroyed. *)
Theorem run_keeps_thread a b r r' g :
  a ≠ b → (run a (Ok tt) g).1 = Ok tt →
  (run b r (run a (Ok tt) g).2).1 = Throw LogicError ∧
  (runOnce b r' (run a (Ok tt) g).2).1 = Throw LogicError ∧
  (run b r (destroy a (run a (Ok tt) g).2)).1 = r.
Proof.
  intros Hab Hr. assert (Hg : (run a (Ok tt) g).2 = Some a) by (unfold run in *; destruct g as [o|]; [by destruct (o =? a)|done]).
  rewrite Hg. unfold run, runOnce, destroy. rewrite Z.eqb_refl. destruct (Z.eqb_spec a b); done.
Qed.

Lemma run_keeps_thread_witness :
  (run 1 (Ok tt) None).1 = Ok tt ∧ (run 2 (Ok tt) (run 1 (Ok tt) None).2).1 = Throw LogicError.
Proof.
  split; [done|]. refine (proj1 (run_keeps_thread 1 2 (Ok tt) (Ok true) None _ _)); [lia|done].
Defined.
End Current.
