(* ===== verification/TimerWheel.v ===== *)
(** * Hierarchical timer wheel (src/src/timer_wheel.cpp, include/pman/timer_wheel.hpp)

    The wheels, the current slot of each, the active-timer count and the flags
    shared with the entries; one definition per operation, with the mutex
    written out: an operation that takes [mutex_] again while it holds it hangs
    the calling thread.  Clock reads are arguments in the order the code makes
    them; when several entries are re-inserted, each insertion reads the clock
    and the reads come from a list. *)

From S2P Require Import Prelude.

(** ** Data *)

Record Config := MkConfig { tickDuration : Z; wheelSize : nat; numWheels : nat }.

(** [struct TimerEntry]; the shared [cancelled] flag is the flag of the id. *)
Record TimerEntry := MkEntry { id : Z; expiry : Z; period : Z; callback : Z }.

Record TimerWheel := MkWheel {
  config_ : Config;
  wheels_ : list (list (list TimerEntry));
  currentSlots_ : list nat;
  cancelled : gset Z;                 (* ids whose shared flag is set *)
  nextId_ : Z;
  activeCount_ : Z;
  running_ : bool
}.

Definition set_wheels ws s := {|
  config_ := config_ s; wheels_ := ws; currentSlots_ := currentSlots_ s;
  cancelled := cancelled s; nextId_ := nextId_ s; activeCount_ := activeCount_ s;
  running_ := running_ s |}.
Definition set_slots cs s := {|
  config_ := config_ s; wheels_ := wheels_ s; currentSlots_ := cs;
  cancelled := cancelled s; nextId_ := nextId_ s; activeCount_ := activeCount_ s;
  running_ := running_ s |}.
Definition set_active n s := {|
  config_ := config_ s; wheels_ := wheels_ s; currentSlots_ := currentSlots_ s;
  cancelled := cancelled s; nextId_ := nextId_ s; activeCount_ := n; running_ := running_ s |}.
Definition set_run b s := {|
  config_ := config_ s; wheels_ := wheels_ s; currentSlots_ := currentSlots_ s;
  cancelled := cancelled s; nextId_ := nextId_ s; activeCount_ := activeCount_ s;
  running_ := b |}.

(** The constructor. *)
Definition newTimerWheel (c : Config) : outcome TimerWheel :=
  if Nat.eqb (wheelSize c) 0 || Nat.eqb (numWheels c) 0 then Throw InvalidArgument
  else Ok (MkWheel c (replicate (numWheels c) (replicate (wheelSize c) []))
             (replicate (numWheels c) 0%nat) ∅ 1 0 false).

Definition defaultConfig : Config := MkConfig ns_per_ms 256 4.

(** ** Slots *)

(** [computeSlot]: [delay / (tickDuration * wheelSize^wheelIndex)] as size_t. *)
Definition computeSlot (c : Config) (delay : Z) (wheelIndex : nat) : Z :=
  let ticksPerSlot := tickDuration c * Z.of_nat (wheelSize c) ^ Z.of_nat wheelIndex in
  u64 (delay ÷ ticksPerSlot).

Definition slot_push (w slot : nat) (e : TimerEntry) (ws : list (list (list TimerEntry)))
  : list (list (list TimerEntry)) :=
  alter (alter (λ l, l ++ [e]) slot) w ws.

(** The loop of [insert] from wheel [w] on ([fuel] wheels left). *)
Fixpoint insert_at (fuel w : nat) (delay : Z) (e : TimerEntry) (s : TimerWheel) : TimerWheel :=
  match fuel with
  | O => s
  | S f =>
      let c := config_ s in
      let slot := computeSlot c delay w in
      if (slot <? Z.of_nat (wheelSize c)) || Nat.eqb w (numWheels c - 1) then
        let slot := Z.to_nat (Z.min slot (Z.of_nat (wheelSize c) - 1)) in
        let actualSlot := ((default 0%nat (currentSlots_ s !! w) + slot) mod wheelSize c)%nat in
        set_wheels (slot_push w actualSlot e (wheels_ s)) s
      else insert_at f (S w) delay e s
  end.

Definition insert (now : Z) (e : TimerEntry) (s : TimerWheel) : TimerWheel :=
  let delay := if expiry e >? now then expiry e - now else 0 in
  insert_at (numWheels (config_ s)) 0 delay e s.

(** Clock reads for a sequence of insertions; past the end the last one stays. *)
Fixpoint insert_all (nows : list Z) (last : Z) (es : list TimerEntry) (s : TimerWheel) : TimerWheel :=
  match es with
  | [] => s
  | e :: es' =>
      let now := default last (head nows) in
      insert_all (tail nows) now es' (insert now e s)
  end.

Definition is_cancelled (s : TimerWheel) (e : TimerEntry) : bool :=
  bool_decide (id e ∈ cancelled s).

(** [wheels_[w][j]]. *)
Definition slot_at (s : TimerWheel) (w j : nat) : list TimerEntry :=
  default [] (wheels_ s !! w ≫= λ x, x !! j).

Definition cascade (nows : list Z) (wheelIndex : nat) (s : TimerWheel) : TimerWheel :=
  if Nat.leb (numWheels (config_ s)) wheelIndex then s
  else
    let cur := default 0%nat (currentSlots_ s !! wheelIndex) in
    let entries := slot_at s wheelIndex cur in
    let s1 := set_wheels (alter (alter (λ _, []) cur) wheelIndex (wheels_ s)) s in
    insert_all nows 0 (filter (λ e, is_cancelled s1 e = false) entries) s1.

(** ** Clock advance *)

(** The [for w] loop of [advance] ([fuel] wheels left). *)
Fixpoint cascade_from (fuel w : nat) (nows : list Z) (s : TimerWheel) : TimerWheel :=
  match fuel with
  | O => s
  | S f =>
      let s1 := cascade nows w s in
      let cur := ((default 0%nat (currentSlots_ s1 !! w) + 1) mod wheelSize (config_ s1))%nat in
      let s2 := set_slots (<[w := cur]> (currentSlots_ s1)) s1 in
      if Nat.eqb cur 0 then cascade_from f (S w) nows s2 else s2
  end.

Definition advance_tick (nows : list Z) (s : TimerWheel) : TimerWheel :=
  let cur := ((default 0%nat (currentSlots_ s !! 0%nat) + 1) mod wheelSize (config_ s))%nat in
  let s1 := set_slots (<[0%nat := cur]> (currentSlots_ s)) s in
  if Nat.eqb cur 0 then cascade_from (numWheels (config_ s) - 1) 1 nows s1 else s1.

Definition advance (elapsed : Z) (nows : list Z) (s : TimerWheel) : TimerWheel :=
  Nat.iter (Z.to_nat (elapsed ÷ tickDuration (config_ s))) (advance_tick nows) s.

Definition tick (nows : list Z) (s : TimerWheel) : TimerWheel :=
  advance (tickDuration (config_ s)) nows s.

(** ** Queries *)

Definition all_entries (s : TimerWheel) : list TimerEntry := concat (concat (wheels_ s)).

Definition hours (n : Z) : Z := n * 3600 * ns_per_s.

Definition timeUntilNextExpiry (now : Z) (s : TimerWheel) : Z :=
  let earliest :=
    foldl (λ acc e, if is_cancelled s e then acc else if expiry e <? acc then expiry e else acc)
      (now + hours 24) (all_entries s) in
  if earliest <=? now then 0 else earliest - now.

Definition activeTimers (s : TimerWheel) : Z := activeCount_ s.

Definition pendingExpirations (now : Z) (s : TimerWheel) : nat :=
  length (filter (λ e, is_cancelled s e = false ∧ expiry e <= now) (all_entries s)).

(** The timespec [armTimerFd] programs. *)
Definition armTimerFd (now : Z) (s : TimerWheel) : Z * Z :=
  let t0 := timeUntilNextExpiry now s in
  let t1 := if t0 >? hours 1 then tickDuration (config_ s) else t0 in
  let t2 := if t1 <? tickDuration (config_ s) then tickDuration (config_ s) else t1 in
  let secs := t2 ÷ ns_per_s in
  let nsecs := t2 - secs * ns_per_s in
  if (secs =? 0) && (nsecs =? 0) then (0, 1) else (secs, nsecs).

(** ** Scheduling and cancelling *)

(** [schedule] holds [mutex_] when it calls [armTimerFd], whose
    [timeUntilNextExpiry] locks it again. *)
Definition schedule_entry (now1 now2 delay per : Z) (cb : option Z) (s : TimerWheel)
  : outcome (Z * TimerWheel) :=
  match cb with
  | None => Throw InvalidArgument
  | Some c =>
      let e := MkEntry (nextId_ s) (now1 + delay) per c in
      let s1 := {| config_ := config_ s; wheels_ := wheels_ s; currentSlots_ := currentSlots_ s;
                   cancelled := cancelled s; nextId_ := u64 (nextId_ s + 1);
                   activeCount_ := activeCount_ s; running_ := running_ s |} in
      let s2 := insert now2 e s1 in
      let s3 := set_active (activeCount_ s2 + 1) s2 in
      if running_ s3 then Hang else Ok (id e, s3)
  end.

Definition schedule (now1 now2 delay : Z) (cb : option Z) (s : TimerWheel)
  : outcome (Z * TimerWheel) := schedule_entry now1 now2 delay 0 cb s.

Definition schedulePeriodic (now1 now2 per : Z) (cb : option Z) (s : TimerWheel)
  : outcome (Z * TimerWheel) :=
  match cb with
  | None => Throw InvalidArgument
  | Some _ =>
      if per <=? 0 then Throw InvalidArgument else schedule_entry now1 now2 per per cb s
  end.

Definition cancel (timerId : Z) (s : TimerWheel) : bool * TimerWheel :=
  match list_find (λ e, id e = timerId ∧ is_cancelled s e = false) (all_entries s) with
  | Some _ =>
      (true, {| config_ := config_ s; wheels_ := wheels_ s; currentSlots_ := currentSlots_ s;
                cancelled := {[timerId]} ∪ cancelled s; nextId_ := nextId_ s;
                activeCount_ := activeCount_ s - 1; running_ := running_ s |})
  | None => (false, s)
  end.

(** ** Expiry *)

(** The scan of the current slot: erase cancelled entries, move due ones to
    [expired], keep the rest. *)
Definition scan_slot (now : Z) (s : TimerWheel) : list TimerEntry * TimerWheel :=
  let cur := default 0%nat (currentSlots_ s !! 0%nat) in
  let slot := slot_at s 0 cur in
  let live := filter (λ e, is_cancelled s e = false) slot in
  let due := filter (λ e, expiry e <= now) live in
  let rest := filter (λ e, ~ expiry e <= now) live in
  (due, set_wheels (alter (alter (λ _, rest) cur) 0%nat (wheels_ s)) s).

(** The callbacks of the expired entries, run outside the lock one after the
    other; [run] is what a callback does to the wheel before it returns or
    throws (exceptions are swallowed).  A one-shot entry is retired, a periodic
    one re-inserted unless it was cancelled meanwhile ([now1]: its new expiry,
    [now2]: the read of [insert]).  The fired callbacks are returned in order. *)
Fixpoint fire (run : Z → TimerWheel → TimerWheel) (es : list TimerEntry)
    (nows : list (Z * Z)) (s : TimerWheel) : list Z * TimerWheel :=
  match es with
  | [] => ([], s)
  | e :: es' =>
      let '(now1, now2) := default (0, 0) (head nows) in
      let '(fired, s2) :=
        if is_cancelled s e then ([], set_active (activeCount_ s - 1) s)
        else
          let s1 := run (callback e) s in
          ([callback e],
           if (period e >? 0) && negb (is_cancelled s1 e)
           then insert now2 (MkEntry (id e) (now1 + period e) (period e) (callback e)) s1
           else set_active (activeCount_ s1 - 1) s1) in
      let '(rest, s3) := fire run es' (tail nows) s2 in
      (fired ++ rest, s3)
  end.

Definition processExpired (run : Z → TimerWheel → TimerWheel) (now : Z) (nows : list (Z * Z))
    (s : TimerWheel) : nat * list Z * TimerWheel :=
  let '(expired, s1) := scan_slot now s in
  let '(fired, s2) := fire run expired nows s1 in
  (length expired, fired, s2).

(** [start] and [stop]; starting a running wheel does nothing. *)
Definition start (s : TimerWheel) : TimerWheel := if running_ s then s else set_run true s.
Definition stop (s : TimerWheel) : TimerWheel := set_run false s.

(** One wake-up of the timer thread: a single tick whatever the time slept,
    then the expired entries of the slot reached; the timerfd is re-armed from
    the state this leaves. *)
Definition thread_wakeup (run : Z → TimerWheel → TimerWheel) (nows : list Z) (now : Z)
    (nows2 : list (Z * Z)) (s : TimerWheel) : nat * list Z * TimerWheel :=
  processExpired run now nows2 (tick nows s).

(** ** Conservation of entries *)

Section alter_perm.
Context {A : Type}.

Lemma concat_alter_perm (f : list A → list A) i l x a b :
  l !! i = Some x → a ++ f x ≡ₚ b ++ x → a ++ concat (alter f i l) ≡ₚ b ++ concat l.
Proof.
  revert i. induction l as [|y l IH]; intros [|i] Hi Hp; simplify_eq/=.
  - by rewrite !(assoc_L (++)), Hp.
  - rewrite !(Permutation_app_swap_app _ y). by rewrite (IH i).
Qed.

Lemma concat2_alter_perm (f : list A → list A) i j (l : list (list (list A))) w x a b :
  l !! i = Some w → w !! j = Some x → a ++ f x ≡ₚ b ++ x →
  a ++ concat (concat (alter (alter f j) i l)) ≡ₚ b ++ concat (concat l).
Proof.
  revert i. induction l as [|y l IH]; intros [|i] Hi Hj Hp; simplify_eq/=.
  - rewrite !concat_app, !(assoc_L (++)).
    by rewrite (concat_alter_perm f j w x a b Hj Hp).
  - rewrite !concat_app, !(Permutation_app_swap_app _ (concat y)). by rewrite (IH i).
Qed.
End alter_perm.

(** Shape of the wheels: the sizes of the configuration, every current slot
    in range. *)
Definition wf (s : TimerWheel) : Prop :=
  (0 < wheelSize (config_ s))%nat ∧ (0 < numWheels (config_ s))%nat ∧
  0 < tickDuration (config_ s) ∧
  length (wheels_ s) = numWheels (config_ s) ∧
  Forall (λ w, length w = wheelSize (config_ s)) (wheels_ s) ∧
  length (currentSlots_ s) = numWheels (config_ s) ∧
  Forall (λ c, (c < wheelSize (config_ s))%nat) (currentSlots_ s).

(** Everything but the contents of the slots. *)
Definition same_frame (s s' : TimerWheel) : Prop :=
  config_ s' = config_ s ∧ cancelled s' = cancelled s ∧ nextId_ s' = nextId_ s ∧
  activeCount_ s' = activeCount_ s ∧ running_ s' = running_ s.

#[local] Instance same_frame_pre : PreOrder same_frame.
Proof.
  split; [by intros ?|].
  intros s1 s2 s3 (?&?&?&?&?) (?&?&?&?&?). repeat split; congruence.
Qed.

Definition live (s : TimerWheel) : list TimerEntry :=
  filter (λ e, is_cancelled s e = false) (all_entries s).

Lemma wheel_lookup s i j :
  wf s → (i < numWheels (config_ s))%nat → (j < wheelSize (config_ s))%nat →
  ∃ w x, wheels_ s !! i = Some w ∧ w !! j = Some x.
Proof.
  intros (_ & _ & _ & Hl & Hf & _) Hi Hj.
  destruct (lookup_lt_is_Some_2 (wheels_ s) i) as [w Hw]; [lia|].
  rewrite Forall_lookup in Hf. pose proof (Hf _ _ Hw) as Hlw.
  destruct (lookup_lt_is_Some_2 w j) as [x Hx]; [lia|]. eauto.
Qed.

Lemma slot_range s i : wf s → (default 0 (currentSlots_ s !! i) < wheelSize (config_ s))%nat.
Proof.
  intros (H0 & _ & _ & _ & _ & _ & Hf). destruct (currentSlots_ s !! i) eqn:E; simpl; [|done].
  rewrite Forall_lookup in Hf. eauto.
Qed.

Lemma wf_alter_slot f i j s : wf s → wf (set_wheels (alter (alter f j) i (wheels_ s)) s).
Proof.
  intros (?&?&?&?&Hf&?&?). split_and!; simpl; try done.
  - by rewrite length_alter.
  - apply Forall_alter; [done|]. intros w Hw Hl. by rewrite length_alter.
Qed.

Lemma wf_set_slot i c s :
  wf s → (c < wheelSize (config_ s))%nat → wf (set_slots (<[i := c]> (currentSlots_ s)) s).
Proof.
  intros (?&?&?&?&?&?&?) Hc. split_and!; simpl; try done.
  - by rewrite length_insert.
  - by apply Forall_insert.
Qed.

Lemma insert_at_spec fuel w d e s :
  wf s → 0 <= d → (w + fuel = numWheels (config_ s))%nat → (0 < fuel)%nat →
  wf (insert_at fuel w d e s) ∧ same_frame s (insert_at fuel w d e s) ∧
  currentSlots_ (insert_at fuel w d e s) = currentSlots_ s ∧
  all_entries (insert_at fuel w d e s) ≡ₚ e :: all_entries s.
Proof.
  revert w. induction fuel as [|f IH]; intros w Hwf Hd Hfl Hpos; [lia|]. cbn [insert_at].
  destruct ((computeSlot (config_ s) d w <? Z.of_nat (wheelSize (config_ s)))
            || (w =? numWheels (config_ s) - 1)%nat) eqn:E.
  - unfold slot_push. split_and!; [by apply wf_alter_slot|done..|].
    unfold all_entries. simpl.
    assert (Hw : (w < numWheels (config_ s))%nat) by lia.
    pose proof Hwf as (H0 & _).
    destruct (wheel_lookup s w
      ((default 0 (currentSlots_ s !! w) +
        Z.to_nat (Z.min (computeSlot (config_ s) d w) (Z.of_nat (wheelSize (config_ s)) - 1)))
         mod wheelSize (config_ s))%nat Hwf Hw) as (v & x & Hv & Hx).
    { apply Nat.mod_upper_bound. lia. }
    apply (concat2_alter_perm (λ l, l ++ [e]) _ _ (wheels_ s) v x [] [e] Hv Hx).
    simpl. by rewrite Permutation_app_comm.
  - apply orb_false_iff in E as [_ E]. apply Nat.eqb_neq in E. apply IH; try done; lia.
Qed.

Lemma insert_spec now e s :
  wf s →
  wf (insert now e s) ∧ same_frame s (insert now e s) ∧
  currentSlots_ (insert now e s) = currentSlots_ s ∧
  all_entries (insert now e s) ≡ₚ e :: all_entries s.
Proof.
  intros Hwf. pose proof Hwf as (_ & Hn & _). unfold insert.
  apply insert_at_spec; [done| |lia|done]. case_match; bool_hyps; lia.
Qed.

Lemma insert_all_spec nows last es s :
  wf s →
  wf (insert_all nows last es s) ∧ same_frame s (insert_all nows last es s) ∧
  currentSlots_ (insert_all nows last es s) = currentSlots_ s ∧
  all_entries (insert_all nows last es s) ≡ₚ es ++ all_entries s.
Proof.
  revert nows last s. induction es as [|e es IH]; intros nows last s Hwf; simpl; [done|].
  destruct (insert_spec (default last (head nows)) e s Hwf) as (Hw & Hf & Hc & Hp).
  destruct (IH (tail nows) (default last (head nows)) _ Hw) as (Hw' & Hf' & Hc' & Hp').
  split_and!; [done|by etrans|by rewrite Hc'|].
  rewrite Hp', Hp. by rewrite Permutation_middle.
Qed.

Lemma is_cancelled_eq s s' e : cancelled s' = cancelled s → is_cancelled s' e = is_cancelled s e.
Proof. unfold is_cancelled. by intros ->. Qed.

Lemma live_perm s s' :
  cancelled s' = cancelled s → all_entries s' ≡ₚ all_entries s → live s' ≡ₚ live s.
Proof. unfold live, is_cancelled. intros -> Hp. by rewrite Hp. Qed.

Lemma cascade_spec nows w s :
  wf s →
  wf (cascade nows w s) ∧ same_frame s (cascade nows w s) ∧
  currentSlots_ (cascade nows w s) = currentSlots_ s ∧
  live (cascade nows w s) ≡ₚ live s ∧
  all_entries (cascade nows w s) ⊆+ all_entries s.
Proof.
  intros Hwf. unfold cascade. destruct (Nat.leb_spec (numWheels (config_ s)) w) as [|Hw]; [done|].
  set (cur := default 0%nat (currentSlots_ s !! w)).
  set (s1 := set_wheels (alter (alter (λ _, []) cur) w (wheels_ s)) s).
  destruct (wheel_lookup s w cur Hwf Hw (slot_range _ _ Hwf)) as (v & x & Hv & Hx).
  assert (Hw1 : wf s1) by by apply wf_alter_slot.
  assert (He : x ++ all_entries s1 ≡ₚ all_entries s).
  { apply (concat2_alter_perm (λ _, []) _ _ (wheels_ s) v x x [] Hv Hx). by rewrite app_nil_r. }
  assert (slot_at s w cur = x) as -> by (unfold slot_at; rewrite Hv; simpl; by rewrite Hx).
  destruct (insert_all_spec nows 0 (filter (λ e, is_cancelled s1 e = false) x) s1 Hw1)
    as (Hw' & Hf' & Hc' & Hp'). split_and!; try done.
  - unfold live. assert (∀ e, is_cancelled (insert_all nows 0 (filter (λ e, is_cancelled s1 e = false) x) s1) e = is_cancelled s e) as Hcc.
    { intros e. by apply is_cancelled_eq; destruct Hf' as (_ & -> & _). }
    rewrite Hp', filter_app, <- He, filter_app, list_filter_filter. f_equiv.
    + rewrite (list_filter_iff _ (λ e, is_cancelled s e = false)); [done|].
      intros e. rewrite Hcc. unfold s1, is_cancelled. simpl. naive_solver.
    + rewrite (list_filter_iff _ (λ e, is_cancelled s e = false)); [done|].
      intros e. by rewrite Hcc.
  - rewrite Hp', <- He. apply submseteq_skips_r. apply sublist_submseteq, sublist_filter.
Qed.

(** What moving entries between wheels may change: the live entries stay the
    same, cancelled ones may be dropped. *)
Definition moved (s s' : TimerWheel) : Prop :=
  wf s' ∧ same_frame s s' ∧ live s' ≡ₚ live s ∧ all_entries s' ⊆+ all_entries s.

Lemma moved_trans s1 s2 s3 : moved s1 s2 → moved s2 s3 → moved s1 s3.
Proof.
  intros (?&?&H1&H2) (?&?&H3&H4). split_and!; [done|by etrans|by rewrite H3|by etrans].
Qed.

Lemma set_slot_moved i c s :
  wf s → (c < wheelSize (config_ s))%nat → moved s (set_slots (<[i := c]> (currentSlots_ s)) s).
Proof. intros. split_and!; [by apply wf_set_slot|done..]. Qed.

Lemma next_slot_range s i : wf s →
  ((default 0%nat (currentSlots_ s !! i) + 1) mod wheelSize (config_ s) < wheelSize (config_ s))%nat.
Proof. intros (?&_). apply Nat.mod_upper_bound. lia. Qed.

Lemma cascade_from_moved fuel w nows s : wf s → moved s (cascade_from fuel w nows s).
Proof.
  revert w s. induction fuel as [|f IH]; intros w s Hwf; cbn [cascade_from]; [by split_and!|].
  destruct (cascade_spec nows w s Hwf) as (Hw1 & Hf1 & _ & Hl1 & Hs1).
  assert (Hm : moved s (cascade nows w s)) by done.
  pose proof (set_slot_moved w _ _ Hw1 (next_slot_range _ w Hw1)) as Hm2.
  pose proof (moved_trans _ _ _ Hm Hm2) as Hm3. case_match; [|done].
  eapply moved_trans; [exact Hm3|]. apply IH, Hm2.
Qed.

Lemma advance_tick_moved nows s : wf s → moved s (advance_tick nows s).
Proof.
  intros Hwf. unfold advance_tick.
  pose proof (set_slot_moved 0 _ _ Hwf (next_slot_range _ 0 Hwf)) as Hm. case_match; [|done].
  eapply moved_trans; [exact Hm|]. apply cascade_from_moved, Hm.
Qed.

Lemma advance_moved elapsed nows s : wf s → moved s (advance elapsed nows s).
Proof.
  intros Hwf. unfold advance. generalize (Z.to_nat (elapsed ÷ tickDuration (config_ s))) as n.
  induction n as [|n IH]; simpl; [by split_and!|].
  eapply moved_trans; [exact IH|]. apply advance_tick_moved, IH.
Qed.

(** ** The invariant *)

(** [fl]: the entries [processExpired] has taken out and not yet settled. *)
Definition Inv (fl : list TimerEntry) (s : TimerWheel) : Prop :=
  wf s ∧ NoDup (id <$> fl ++ all_entries s) ∧
  Forall (λ e, id e < nextId_ s) (fl ++ all_entries s) ∧
  (0 < nextId_ s ∧ ∀ i, i ∈ cancelled s → i < nextId_ s) ∧
  activeCount_ s = Z.of_nat (length (live s) + length fl).

Lemma fresh_not_cancelled s e fl : Inv fl s → id e = nextId_ s → is_cancelled s e = false.
Proof.
  intros (_ & _ & _ & [_ Hc] & _) He. unfold is_cancelled. apply bool_decide_eq_false.
  intros Hin%Hc. lia.
Qed.

Lemma Inv_moved fl s s' : Inv fl s → moved s s' → Inv fl s'.
Proof.
  intros (Hw & Hn & Hf & Hc & Ha) (Hw' & (?&Hcc&Hni&Hac&_) & Hl & Hs).
  assert (Hsub : fl ++ all_entries s' ⊆+ fl ++ all_entries s) by by apply submseteq_skips_l.
  split; [done|]. split; [|split; [|split]].
  - eapply NoDup_sub; [|exact Hn]. by apply fmap_submseteq.
  - rewrite Hni. rewrite Forall_forall in Hf |- *. intros e He. apply Hf.
    by eapply elem_of_submseteq.
  - rewrite Hcc, Hni. done.
  - rewrite Hac, Ha, Hl. done.
Qed.

Lemma live_insert s s' e :
  cancelled s' = cancelled s → is_cancelled s e = false → all_entries s' ≡ₚ e :: all_entries s →
  live s' ≡ₚ e :: live s.
Proof.
  unfold live, is_cancelled. intros -> He Hp. by rewrite Hp, filter_cons_True.
Qed.

(** Putting an in-flight, uncancelled entry (or one with the next id) back. *)
Lemma Inv_insert fl now e s :
  Inv (e :: fl) s → is_cancelled s e = false → Inv fl (insert now e s).
Proof.
  intros (Hw & Hn & Hf & Hc & Ha) He.
  destruct (insert_spec now e s Hw) as (Hw' & (?&Hcc&Hni&Hac&_) & _ & Hp).
  split; [done|]. split; [|split; [|split]].
  - rewrite Hp, <- Permutation_middle. done.
  - rewrite Hp, <- Permutation_middle, Hni. done.
  - rewrite Hcc, Hni. done.
  - rewrite Hac, Ha, (live_insert s _ e Hcc He Hp). simpl. lia.
Qed.

Lemma schedule_entry_inv fl now1 now2 delay per cb s i s' :
  Inv fl s → nextId_ s < 2 ^ 64 - 1 →
  schedule_entry now1 now2 delay per cb s = Ok (i, s') →
  Inv fl s' ∧ i = nextId_ s ∧ nextId_ s' = nextId_ s + 1 ∧
  ∃ c, cb = Some c ∧ all_entries s' ≡ₚ MkEntry i (now1 + delay) per c :: all_entries s.
Proof.
  intros HI Hb. pose proof HI as (Hw & Hn & Hf & [Hpos Hc] & Ha). unfold schedule_entry.
  destruct cb as [c|]; [|done].
  set (e := MkEntry (nextId_ s) (now1 + delay) per c).
  match goal with |- context [insert now2 e ?x] => set (s1 := x) end.
  assert (Hu : u64 (nextId_ s + 1) = nextId_ s + 1) by (apply wrap_small; lia).
  assert (HI1 : Inv (e :: fl) (set_active (activeCount_ s + 1) s1)).
  { split_and!; simpl; try done.
    - apply NoDup_cons. split; [|done]. intros Hin. apply list_elem_of_fmap in Hin as (x & Hx & Hin).
      rewrite Forall_forall in Hf. specialize (Hf _ Hin). simpl in *. lia.
    - rewrite Hu. constructor; [simpl; lia|]. eapply Forall_impl; [exact Hf|]. simpl. lia.
    - lia.
    - rewrite Hu. intros j Hj%Hc. lia.
    - rewrite Ha. change (live (set_active _ s1)) with (live s). lia. }
  assert (Hne : is_cancelled (set_active (activeCount_ s + 1) s1) e = false).
  { change (is_cancelled s e = false). by eapply fresh_not_cancelled. }
  pose proof (Inv_insert fl now2 e _ HI1 Hne) as HI2.
  assert (Hcomm : ∀ f w d n, insert_at f w d e (set_active n s1) = set_active n (insert_at f w d e s1)).
  { intros f. induction f as [|f IH]; intros; simpl; [done|]. case_match; [done|]. apply IH. }
  pose proof (insert_spec now2 e s1 Hw) as (_ & (_&_&Hni&Hac&_) & _ & Hp).
  case_match; [done|]. intros [= <- <-]. split_and!; [|done|simpl; by rewrite Hni|].
  - simpl in Hac |- *. rewrite Hac. simpl. unfold insert in *. by rewrite <- Hcomm.
  - exists c. split; [done|]. exact Hp.
Qed.

Lemma cancel_spec_aux fl t s :
  Inv fl s →
  Inv fl (cancel t s).2 ∧
  ((cancel t s).1 = true → ∃ e, id e = t ∧ live s ≡ₚ e :: live (cancel t s).2) ∧
  ((cancel t s).1 = false → (cancel t s).2 = s ∧ t ∉ (id <$> live s)).
Proof.
  intros HI. pose proof HI as (Hw & Hn & Hf & [Hpos Hc] & Ha). unfold cancel.
  destruct (list_find _ _) as [[i e]|] eqn:E.
  - apply list_find_Some in E as (Hi & [Het Hec] & _).
    apply list_elem_of_lookup_2, elem_of_Permutation in Hi as [r Hr]. cbn [fst snd].
    match goal with |- Inv fl ?x ∧ _ => set (s' := x) end.
    assert (Hl : live s ≡ₚ e :: live s').
    { assert (Hrest : ∀ x, x ∈ r → id x ≠ t).
      { intros x Hx <-. apply NoDup_fmap_2 in Hn || idtac.
        rewrite Hr, fmap_app in Hn. apply NoDup_app in Hn as (_ & _ & Hn). simpl in Hn.
        apply NoDup_cons in Hn as [Hn _]. apply Hn. rewrite Het. by apply list_elem_of_fmap_2. }
      unfold live. change (all_entries s') with (all_entries s).
      rewrite Hr, filter_cons_True by done. rewrite filter_cons_False; last first.
      { unfold is_cancelled, s'. simpl. rewrite Het. rewrite bool_decide_eq_false. set_solver. }
      f_equiv. clear -Hrest. induction r as [|x r IH]; [done|].
      assert (is_cancelled s' x = is_cancelled s x) as Hx.
      { unfold is_cancelled, s'. simpl. apply bool_decide_ext.
        specialize (Hrest x ltac:(left)). set_solver. }
      assert (filter (λ e, is_cancelled s e = false) r ≡ₚ filter (λ e, is_cancelled s' e = false) r)
        as IH' by (apply IH; intros; apply Hrest; by right).
      rewrite !filter_cons, Hx. by case_decide; rewrite IH'. }
    split_and!; [|by exists e|done].
    split_and!; simpl; try done.
    + intros j [->%elem_of_singleton|Hj]%elem_of_union; [|by apply Hc].
      rewrite Forall_forall in Hf. rewrite <- Het. apply Hf. rewrite Hr. set_solver.
    + rewrite Ha, Hl. simpl. lia.
  - apply list_find_None in E. split_and!; [done|done|]. intros _. split; [done|].
    intros (x & -> & Hx)%list_elem_of_fmap. unfold live in Hx.
    apply list_elem_of_filter in Hx as [Hc' Hx]. rewrite Forall_forall in E. by apply (E x Hx).
Qed.

(** The due entries of the current slot leave the wheel, the cancelled ones
    are dropped. *)
Definition due_now (now : Z) (s : TimerWheel) : list TimerEntry :=
  filter (λ e, expiry e <= now)
    (filter (λ e, is_cancelled s e = false) (slot_at s 0 (default 0%nat (currentSlots_ s !! 0%nat)))).

Lemma scan_slot_spec now s :
  wf s →
  (scan_slot now s).1 = due_now now s ∧ wf (scan_slot now s).2 ∧
  same_frame s (scan_slot now s).2 ∧
  due_now now s ++ all_entries (scan_slot now s).2 ⊆+ all_entries s ∧
  live s ≡ₚ due_now now s ++ live (scan_slot now s).2.
Proof.
  intros Hwf. pose proof Hwf as (_ & Hn & _). unfold scan_slot.
  set (cur := default 0%nat (currentSlots_ s !! 0%nat)).
  destruct (wheel_lookup s 0 cur Hwf Hn (slot_range _ _ Hwf)) as (v & x & Hv & Hx).
  unfold due_now. fold cur.
  assert (slot_at s 0 cur = x) as -> by (unfold slot_at; rewrite Hv; simpl; by rewrite Hx).
  cbn [fst snd]. set (lv := filter (λ e, is_cancelled s e = false) x).
  set (due := filter (λ e, expiry e <= now) lv). set (rest := filter (λ e, ~ expiry e <= now) lv).
  set (s' := set_wheels (alter (alter (λ _, rest) cur) 0%nat (wheels_ s)) s).
  set (dead := filter (λ e, ~ is_cancelled s e = false) x).
  assert (Hp : (due ++ dead) ++ all_entries s' ≡ₚ all_entries s).
  { apply (concat2_alter_perm (λ _, rest) _ _ (wheels_ s) v x (due ++ dead) [] Hv Hx).
    simpl. rewrite <- (filter_app_complement (λ e, is_cancelled s e = false) x).
    rewrite <- (filter_app_complement (λ e, expiry e <= now) (filter _ x)).
    change ((due ++ dead) ++ rest ≡ₚ (due ++ rest) ++ dead).
    rewrite <- !app_assoc. by rewrite (Permutation_app_comm dead rest). }
  split_and!; [done|by apply wf_alter_slot|done| |].
  - rewrite <- Hp. apply submseteq_skips_r. rewrite <- (app_nil_r due) at 1.
    apply submseteq_skips_l, submseteq_nil_l.
  - unfold live. rewrite <- Hp, !filter_app.
    assert (filter (λ e, is_cancelled s e = false) due = due) as ->.
    { apply filter_all, Forall_forall. intros e He. apply list_elem_of_filter in He as [_ He].
      by apply list_elem_of_filter in He as [? _]. }
    assert (filter (λ e, is_cancelled s e = false) dead = []) as ->.
    { apply filter_none, Forall_forall. intros e He. by apply list_elem_of_filter in He as [? _]. }
    by rewrite app_nil_r.
Qed.

Lemma scan_slot_inv now s : Inv [] s → Inv (due_now now s) (scan_slot now s).2.
Proof.
  intros (Hw & Hn & Hf & Hc & Ha).
  destruct (scan_slot_spec now s Hw) as (_ & Hw' & (_&Hcc&Hni&Hac&_) & Hsub & Hl).
  split; [done|]. split; [|split; [|split]].
  - eapply NoDup_sub; [|exact Hn]. by apply fmap_submseteq.
  - rewrite Hni. rewrite Forall_forall in Hf |- *. intros e He. apply Hf.
    by eapply elem_of_submseteq.
  - by rewrite Hcc, Hni.
  - rewrite Hac, Ha, Hl, length_app. simpl. lia.
Qed.

(** Retiring an in-flight entry. *)
Lemma Inv_retire e fl s : Inv (e :: fl) s → Inv fl (set_active (activeCount_ s - 1) s).
Proof.
  intros (Hw & Hn & Hf & Hc & Ha). split; [done|]. split; [|split; [|split]]; simpl.
  - by apply NoDup_cons in Hn as [_ ?].
  - by apply Forall_cons in Hf as [_ ?].
  - done.
  - rewrite Ha. change (live (set_active _ s)) with (live s). simpl. lia.
Qed.

Lemma Inv_same_id e e' fl s : id e' = id e → Inv (e :: fl) s → Inv (e' :: fl) s.
Proof.
  intros He (Hw & Hn & Hf & Hc & Ha). split; [done|]. split; [|split; [|done]].
  - simpl in *. by rewrite He.
  - simpl in *. apply Forall_cons in Hf as [Hf ?]. constructor; [by rewrite He|done].
Qed.

Lemma fire_inv run es nows s :
  (∀ c fl s, Inv fl s → Inv fl (run c s)) → Inv es s → Inv [] (fire run es nows s).2.
Proof.
  intros Hrun. revert nows s. induction es as [|e es IH]; intros nows s HI; [done|].
  cbn [fire]. destruct (default (0, 0) (head nows)) as [now1 now2].
  match goal with
  | |- context [if is_cancelled s e then ?a else ?b] =>
      assert (Hs : Inv es (if is_cancelled s e then a else b).2);
      [|destruct (if is_cancelled s e then a else b) as [fired s2]]
  end.
  - destruct (is_cancelled s e) eqn:Ec; cbn [snd]; [by eapply Inv_retire|].
    pose proof (Hrun (callback e) _ _ HI) as HI1.
    destruct (period e >? 0) eqn:Ep; cbn [andb]; [|by eapply Inv_retire].
    destruct (is_cancelled (run (callback e) s) e) eqn:Ec1; cbn [negb]; [by eapply Inv_retire|].
    apply Inv_insert; [|exact Ec1]. by apply (Inv_same_id e).
  - pose proof (IH (tail nows) s2 Hs) as HI2. by destruct (fire run es (tail nows) s2).
Qed.

Lemma processExpired_inv run now nows s :
  (∀ c fl s, Inv fl s → Inv fl (run c s)) → Inv [] s → Inv [] (processExpired run now nows s).2.
Proof.
  intros Hrun HI. unfold processExpired.
  destruct (scan_slot_spec now s (proj1 HI)) as (Hd & _). pose proof (scan_slot_inv now s HI) as H1.
  destruct (scan_slot now s) as [es s1]. simpl in *. subst es.
  pose proof (fire_inv run _ nows _ Hrun H1) as H2. by destruct (fire _ _ _ _).
Qed.

(** ** Reachable states *)

(** The operations a client, or a callback on the timer thread, performs. *)
Inductive op_step : relation TimerWheel :=
  | st_schedule now1 now2 d cb s i s' :
      nextId_ s < 2 ^ 64 - 1 → schedule now1 now2 d cb s = Ok (i, s') → op_step s s'
  | st_schedulePeriodic now1 now2 d cb s i s' :
      nextId_ s < 2 ^ 64 - 1 → schedulePeriodic now1 now2 d cb s = Ok (i, s') → op_step s s'
  | st_cancel t s : op_step s (cancel t s).2
  | st_advance elapsed nows s : op_step s (advance elapsed nows s).

Inductive wheel_step : relation TimerWheel :=
  | st_op s s' : op_step s s' → wheel_step s s'
  | st_process run now nows s :
      (∀ c s, rtc op_step s (run c s)) → wheel_step s (processExpired run now nows s).2
  | st_start s : wheel_step s (start s)
  | st_stop s : wheel_step s (stop s).

Lemma op_step_inv fl s s' : op_step s s' → Inv fl s → Inv fl s'.
Proof.
  destruct 1 as [???? s i s' Hb E|???? s i s' Hb E|t s|el nows s]; intros HI.
  - by eapply schedule_entry_inv in E as [? _].
  - unfold schedulePeriodic in E. destruct cb; [|done]. destruct (d <=? 0); [done|].
    by eapply schedule_entry_inv in E as [? _].
  - by apply cancel_spec_aux.
  - eapply Inv_moved; [done|]. apply advance_moved, HI.
Qed.

Lemma wheel_step_inv s s' : wheel_step s s' → Inv [] s → Inv [] s'.
Proof.
  destruct 1 as [s s' Ho|run now nows s Hr|s|s]; intros HI.
  - by eapply op_step_inv.
  - apply processExpired_inv; [|done]. intros c fl x Hx.
    refine (rtc_invariant op_step (Inv fl) _ _ _ (Hr c x) Hx). intros a b. apply op_step_inv.
  - unfold start. by destruct (running_ s).
  - done.
Qed.

Lemma new_empty c s : newTimerWheel c = Ok s → all_entries s = [].
Proof.
  unfold newTimerWheel. case_match; [done|]. intros [= <-]. unfold all_entries. simpl. clear.
  induction (numWheels c) as [|m IH]; simpl; [done|]. rewrite concat_app, IH, app_nil_r.
  clear IH. induction (wheelSize c) as [|n IHn]; [done|]. exact IHn.
Qed.

Lemma new_inv c s : newTimerWheel c = Ok s → 0 < tickDuration c → Inv [] s.
Proof.
  intros Hn Ht. pose proof (new_empty _ _ Hn) as He. revert Hn.
  unfold newTimerWheel. case_match; [done|]. intros [= <-]. bool_hyps.
  split; [|split; [|split; [|split]]]; unfold live; rewrite ?He; simpl; try constructor; try done.
  - simpl. lia.
  - split_and!; simpl; rewrite ?length_replicate; try done; try lia.
    + apply Forall_replicate, length_replicate.
    + apply Forall_replicate. lia.
Qed.

(** C19: In every state the wheel can reach, from its constructor, by
    scheduling, cancelling, advancing the clock, running expired callbacks
    (which may themselves schedule, cancel and advance), starting and
    stopping: [activeTimers] is exactly the number of entries in the wheels
    that are not cancelled, no two entries share an id, and every entry that
    [timeUntilNextExpiry] can see lies in a slot of the configured shape. *)
Theorem timerwheel_reachable c s0 s :
  newTimerWheel c = Ok s0 → 0 < tickDuration c → rtc wheel_step s0 s →
  activeTimers s = Z.of_nat (length (live s)) ∧ NoDup (id <$> all_entries s) ∧
  length (wheels_ s) = numWheels (config_ s) ∧
  Forall (λ w, length w = wheelSize (config_ s)) (wheels_ s) ∧
  Forall (λ cur, (cur < wheelSize (config_ s))%nat) (currentSlots_ s).
Proof.
  intros Hn Ht Hr.
  pose proof (rtc_invariant wheel_step (Inv []) _ _ wheel_step_inv Hr (new_inv _ _ Hn Ht))
    as ((_&_&_&?&?&_&?) & ? & _ & _ & Ha).
  split_and!; try done. unfold activeTimers. rewrite Ha. simpl. lia.
Qed.

Definition wheel_state (r : outcome TimerWheel) : TimerWheel :=
  match r with Ok s => s | _ => MkWheel defaultConfig [] [] ∅ 0 0 false end.
Definition schedule_state (r : outcome (Z * TimerWheel)) : TimerWheel :=
  match r with Ok (_, s) => s | _ => MkWheel defaultConfig [] [] ∅ 0 0 false end.

Lemma timerwheel_reachable_witness :
  ∃ s0 s, newTimerWheel (MkConfig 1000 4 2) = Ok s0 ∧ rtc wheel_step s0 s ∧
          activeTimers s = Z.of_nat (length (live s)) ∧ activeTimers s = 1.
Proof.
  eexists _, (cancel 1 (schedule_state (schedule 0 0 9000 (Some 7)
    (schedule_state (schedule 0 0 2000 (Some 5) (wheel_state (newTimerWheel (MkConfig 1000 4 2)))))))).2.
  split; [reflexivity|].
  assert (Hr : rtc wheel_step (wheel_state (newTimerWheel (MkConfig 1000 4 2)))
    (cancel 1 (schedule_state (schedule 0 0 9000 (Some 7)
    (schedule_state (schedule 0 0 2000 (Some 5) (wheel_state (newTimerWheel (MkConfig 1000 4 2)))))))).2).
  { eapply rtc_l; [apply st_op; eapply (st_schedule 0 0 2000 (Some 5)); [|vm_compute; reflexivity]; vm_compute; reflexivity|].
    eapply rtc_l; [apply st_op; eapply (st_schedule 0 0 9000 (Some 7)); [|vm_compute; reflexivity]; vm_compute; reflexivity|].
    apply rtc_once. apply st_op. apply (st_cancel 1). }
  split; [exact Hr|]. split; [|reflexivity].
  apply (timerwheel_reachable (MkConfig 1000 4 2) _ _ eq_refl); [reflexivity|]. exact Hr.
Defined.

(** ** Wheel 0: an entry stays in its slot until it is reached *)

Lemma slot_at_alter f w k s i j :
  slot_at (set_wheels (alter (alter f k) w (wheels_ s)) s) i j =
  if decide (i = w ∧ j = k ∧ is_Some (wheels_ s !! w ≫= λ x, x !! k))
  then f (slot_at s i j) else slot_at s i j.
Proof.
  unfold slot_at. simpl. destruct (decide (i = w)) as [->|Hi].
  - rewrite list_lookup_alter_eq. destruct (wheels_ s !! w) as [x|]; simpl; [|by case_decide; naive_solver].
    destruct (decide (j = k)) as [->|Hj].
    + rewrite list_lookup_alter_eq. destruct (x !! k); simpl; case_decide; naive_solver.
    + rewrite list_lookup_alter_ne by done. case_decide; naive_solver.
  - rewrite list_lookup_alter_ne by done. case_decide; naive_solver.
Qed.

Lemma insert_at_slot_mono fuel w d e x s i j :
  x ∈ slot_at s i j → x ∈ slot_at (insert_at fuel w d e s) i j.
Proof.
  revert w. induction fuel as [|f IH]; intros w Hx; cbn [insert_at]; [done|].
  case_match; [|by apply IH]. unfold slot_push. rewrite slot_at_alter. case_decide; set_solver.
Qed.

Lemma insert_all_slot_mono nows last es x s i j :
  x ∈ slot_at s i j → x ∈ slot_at (insert_all nows last es s) i j.
Proof.
  revert nows last s. induction es; intros nows last s Hx; simpl; [done|].
  by apply IHes, insert_at_slot_mono.
Qed.

Lemma cascade_slot_mono nows w x s j :
  x ∈ slot_at s 0 j → x ∈ slot_at (cascade nows (S w) s) 0 j.
Proof.
  intros Hx. unfold cascade. case_match; [done|]. apply insert_all_slot_mono.
  rewrite slot_at_alter. case_decide; [|done]. naive_solver lia.
Qed.

Lemma cascade_from_wheel0 fuel w nows x s j :
  wf s → x ∈ slot_at s 0 j →
  x ∈ slot_at (cascade_from fuel (S w) nows s) 0 j ∧
  currentSlots_ (cascade_from fuel (S w) nows s) !! 0%nat = currentSlots_ s !! 0%nat.
Proof.
  revert w s. induction fuel as [|f IH]; intros w s Hwf Hx; [done|]. cbn [cascade_from].
  destruct (cascade_spec nows (S w) s Hwf) as (Hw1 & _ & Hc & _).
  pose proof (cascade_slot_mono nows w x s j Hx) as Hx1.
  pose proof (wf_set_slot (S w) _ _ Hw1 (next_slot_range _ (S w) Hw1)) as Hw2.
  case_match.
  - edestruct (IH (S w) _ Hw2) as [H1 H2]; [exact Hx1|]. split; [exact H1|].
    rewrite H2. simpl. rewrite list_lookup_insert_ne by lia. by rewrite Hc.
  - split; [exact Hx1|]. simpl. rewrite list_lookup_insert_ne by lia. by rewrite Hc.
Qed.

Lemma wf_head s : wf s → ∃ c, currentSlots_ s !! 0%nat = Some c ∧ (c < wheelSize (config_ s))%nat.
Proof.
  intros Hwf. pose proof (slot_range s 0 Hwf) as Hr. destruct Hwf as (_ & Hn & _ & _ & _ & Hl & _).
  destruct (lookup_lt_is_Some_2 (currentSlots_ s) 0) as [c Hc]; [lia|].
  exists c. by rewrite Hc in Hr.
Qed.

Lemma advance_tick_wheel0 nows x s j c :
  wf s → x ∈ slot_at s 0 j → currentSlots_ s !! 0%nat = Some c →
  x ∈ slot_at (advance_tick nows s) 0 j ∧
  currentSlots_ (advance_tick nows s) !! 0%nat = Some ((c + 1) mod wheelSize (config_ s))%nat.
Proof.
  intros Hwf Hx Hc. unfold advance_tick. rewrite Hc. cbn [default].
  assert (Hlt : ((c + 1) mod wheelSize (config_ s) < wheelSize (config_ s))%nat).
  { destruct Hwf. apply Nat.mod_upper_bound. lia. }
  pose proof (wf_set_slot 0 _ _ Hwf Hlt) as Hw1.
  assert (Hget : currentSlots_ (set_slots (<[0%nat := ((c + 1) mod wheelSize (config_ s))%nat]> (currentSlots_ s)) s) !! 0%nat
     = Some ((c + 1) mod wheelSize (config_ s))%nat).
  { simpl. apply list_lookup_insert_eq. by apply lookup_lt_Some in Hc. }
  case_match; [|done].
  edestruct (cascade_from_wheel0 (numWheels (config_ s) - 1) 0 nows x _ j Hw1) as [H1 H2]; [exact Hx|].
  split; [exact H1|]. exact (eq_trans H2 Hget).
Qed.

Lemma advance_wheel0 nows n x s j c :
  wf s → x ∈ slot_at s 0 j → currentSlots_ s !! 0%nat = Some c →
  x ∈ slot_at (Nat.iter n (advance_tick nows) s) 0 j ∧
  currentSlots_ (Nat.iter n (advance_tick nows) s) !! 0%nat
    = Some ((c + n) mod wheelSize (config_ s))%nat.
Proof.
  intros Hwf Hx Hc. induction n as [|n [IH1 IH2]]; cbn [Nat.iter nat_rect].
  - split; [done|]. rewrite Hc, Nat.add_0_r. f_equal. symmetry. apply Nat.mod_small.
    destruct (wf_head s Hwf) as (c' & ? & ?). by simplify_eq.
  - assert (Hm : moved s (Nat.iter n (advance_tick nows) s)).
    { clear -Hwf. induction n as [|n IH]; simpl; [by split_and!|].
      eapply moved_trans; [exact IH|]. apply advance_tick_moved, IH. }
    destruct Hm as (Hwn & (Hcfg & _) & _).
    destruct (advance_tick_wheel0 nows x _ j _ Hwn IH1 IH2) as [H1 H2]. split; [exact H1|].
    refine (eq_trans H2 _). rewrite Hcfg, Nat.Div0.add_mod_idemp_l. do 2 f_equal. lia.
Qed.

(** ** Firing *)

(** With callbacks that leave the wheel alone, every expired entry fires. *)
Lemma fire_quiet es nows s :
  wf s → Forall (λ e, is_cancelled s e = false) es →
  (fire (λ _ s, s) es nows s).1 = callback <$> es ∧
  cancelled (fire (λ _ s, s) es nows s).2 = cancelled s ∧
  id <$> live (fire (λ _ s, s) es nows s).2 ≡ₚ
    (id <$> filter (λ e, 0 < period e) es) ++ (id <$> live s).
Proof.
  revert nows s. induction es as [|e es IH]; intros nows s Hwf Hl; [done|].
  apply Forall_cons in Hl as [He Hl]. cbn [fire]. rewrite He.
  destruct (default (0, 0) (head nows)) as [now1 now2]. cbn [negb]. rewrite andb_true_r.
  destruct (period e >? 0) eqn:Ep; bool_hyps.
  - match goal with |- context [insert now2 ?x s] => set (e' := x) end.
    destruct (insert_spec now2 e' s Hwf) as (Hw & (_&Hcc&_) & _ & Hp).
    destruct (IH (tail nows) (insert now2 e' s) Hw) as (H1 & H2 & H3).
    { eapply Forall_impl; [exact Hl|]. intros x Hx. by rewrite (is_cancelled_eq s). }
    destruct (fire _ es _ _) as [r s3]. simpl in *. rewrite H1, H2. split_and!; [done|done|].
    rewrite H3, (live_insert s _ e' Hcc He Hp), filter_cons_True by done.
    simpl. by rewrite Permutation_middle.
  - destruct (IH (tail nows) (set_active (activeCount_ s - 1) s) Hwf Hl) as (H1 & H2 & H3).
    destruct (fire _ es _ _) as [r s3]. simpl in *. rewrite H1, H2. split_and!; [done|done|].
    rewrite H3, filter_cons_False by lia. done.
Qed.

Lemma due_now_live now s : Forall (λ e, is_cancelled s e = false ∧ expiry e <= now) (due_now now s).
Proof.
  apply Forall_forall. intros e He. unfold due_now in He.
  apply list_elem_of_filter in He as [? He]. by apply list_elem_of_filter in He as [? _].
Qed.

Lemma processExpired_quiet now nows s :
  wf s →
  (processExpired (λ _ s, s) now nows s).1 = (length (due_now now s), callback <$> due_now now s) ∧
  ∃ keep, live s ≡ₚ due_now now s ++ keep ∧
    id <$> live (processExpired (λ _ s, s) now nows s).2 ≡ₚ
      (id <$> filter (λ e, 0 < period e) (due_now now s)) ++ (id <$> keep).
Proof.
  intros Hwf. destruct (scan_slot_spec now s Hwf) as (Hd & Hw1 & (_&Hcc&_) & _ & Hl).
  unfold processExpired. destruct (scan_slot now s) as [es s1]. simpl in *. subst es.
  destruct (fire_quiet (due_now now s) nows s1 Hw1) as (H1 & H2 & H3).
  { eapply Forall_impl; [apply (due_now_live now)|]. intros x [Hx _]. by rewrite (is_cancelled_eq s). }
  destruct (fire _ _ _ _) as [r s2]. simpl in *. subst r. split; [done|].
  by exists (live s1).
Qed.

(** [processExpired] fires exactly the due entries of the current slot of
    the first wheel that are not cancelled, in slot order, and returns their
    number; the live entries afterwards are those that did not fire and the
    periodic ones among those that did. *)
Theorem processExpired_spec now nows s :
  wf s →
  ∃ keep, live s ≡ₚ due_now now s ++ keep ∧
    Forall (λ e, is_cancelled s e = false ∧ expiry e <= now) (due_now now s) ∧
    (processExpired (λ _ s, s) now nows s).1 = (length (due_now now s), callback <$> due_now now s) ∧
    id <$> live (processExpired (λ _ s, s) now nows s).2 ≡ₚ
      (id <$> filter (λ e, 0 < period e) (due_now now s)) ++ (id <$> keep).
Proof.
  intros Hwf. destruct (processExpired_quiet now nows s Hwf) as (H1 & keep & H2 & H3).
  exists keep. split_and!; [done|apply due_now_live|done|done].
Qed.

(** A two-wheel example with a one-shot and a periodic timer. *)
Definition demo_wheel : TimerWheel :=
  schedule_state (schedulePeriodic 0 0 1000 (Some 7)
    (schedule_state (schedule 0 0 1000 (Some 5) (wheel_state (newTimerWheel (MkConfig 1000 4 2)))))).

Lemma demo_wheel_inv : Inv [] demo_wheel.
Proof.
  unfold demo_wheel.
  set (s0 := wheel_state (newTimerWheel (MkConfig 1000 4 2))).
  set (s1 := schedule_state (schedule 0 0 1000 (Some 5) s0)).
  assert (H0 : Inv [] s0) by by apply (new_inv (MkConfig 1000 4 2)).
  assert (H1 : Inv [] s1) by by apply (op_step_inv [] s0 s1 (st_schedule 0 0 1000 (Some 5) s0 1 s1
    ltac:(reflexivity) ltac:(reflexivity))).
  apply (op_step_inv [] s1 _ (st_schedulePeriodic 0 0 1000 (Some 7) s1 2
    (schedule_state (schedulePeriodic 0 0 1000 (Some 7) s1))
    ltac:(reflexivity) ltac:(reflexivity))). done.
Qed.

Lemma processExpired_spec_witness :
  wf (tick [] demo_wheel) ∧
  (processExpired (λ _ s, s) 1000 [] (tick [] demo_wheel)).1 = (2%nat, [5; 7]) ∧
  ∃ keep, live (tick [] demo_wheel) ≡ₚ due_now 1000 (tick [] demo_wheel) ++ keep.
Proof.
  assert (Hw : wf (tick [] demo_wheel)) by apply advance_moved, demo_wheel_inv.
  split; [exact Hw|]. split; [reflexivity|].
  destruct (processExpired_spec 1000 [] (tick [] demo_wheel) Hw) as (keep & Hk & _).
  exists keep. exact Hk.
Defined.

Lemma pushed_in_slot s i j e :
  wf s → (i < numWheels (config_ s))%nat → (j < wheelSize (config_ s))%nat →
  e ∈ default [] (alter (alter (λ l, l ++ [e]) j) i (wheels_ s) !! i ≫= λ x, x !! j).
Proof.
  intros Hwf Hi Hj. destruct (wheel_lookup s i j Hwf Hi Hj) as (w & x & Hw & Hx).
  rewrite list_lookup_alter_eq, Hw. simpl. rewrite list_lookup_alter_eq, Hx. simpl. set_solver.
Qed.

(** A delay the first wheel covers puts the entry into its slot of that wheel. *)
Lemma schedule_slot0 now1 now2 d c s i s' cur :
  wf s → now1 <= now2 <= now1 + d → d < 2 ^ 63 →
  (now1 + d - now2) ÷ tickDuration (config_ s) < Z.of_nat (wheelSize (config_ s)) →
  schedule now1 now2 d (Some c) s = Ok (i, s') → currentSlots_ s !! 0%nat = Some cur →
  wheels_ s' = alter (alter (λ l, l ++ [MkEntry i (now1 + d) 0 c])
      ((cur + Z.to_nat ((now1 + d - now2) ÷ tickDuration (config_ s))) mod wheelSize (config_ s))%nat)
    0%nat (wheels_ s)
  ∧ currentSlots_ s' = currentSlots_ s ∧ config_ s' = config_ s ∧ cancelled s' = cancelled s.
Proof.
  intros Hwf Hnow Hd Hq E Hcur. pose proof Hwf as (Hsz & Hnw & Ht & _).
  set (r := now1 + d - now2) in *.
  unfold schedule, schedule_entry in E. case_match; [done|]. injection E as <- <-.
  set (e := MkEntry (nextId_ s) (now1 + d) 0 c).
  unfold insert. cbn [config_ expiry e].
  destruct (numWheels (config_ s)) as [|nw] eqn:Hn; [lia|]. cbn [insert_at config_ expiry].
  assert ((if now1 + d >? now2 then now1 + d - now2 else 0) = r) as ->.
  { rewrite Z.gtb_ltb. destruct (Z.ltb_spec now2 (now1 + d)); unfold r; lia. }
  assert (Hr0 : 0 <= r ÷ tickDuration (config_ s)) by (apply Z.quot_pos; unfold r; lia).
  assert (computeSlot (config_ s) r 0 = r ÷ tickDuration (config_ s)) as ->.
  { unfold computeSlot. simpl Z.of_nat. rewrite Z.pow_0_r, Z.mul_1_r. apply wrap_small.
    split; [done|]. apply Z.le_lt_trans with r; [|unfold r; lia].
    apply Z.quot_le_upper_bound; [lia|]. unfold r in *. nia. }
  destruct (Z.ltb_spec (r ÷ tickDuration (config_ s)) (Z.of_nat (wheelSize (config_ s)))); [|lia].
  cbn [orb]. split_and!; [|done|done|done].
  unfold slot_push. cbn [currentSlots_]. rewrite Hcur. cbn [default].
  rewrite Z.min_l by lia. done.
Qed.

(** A timer fires once its delay has been ticked off: after [schedule] with
    a delay that the first wheel covers, advancing the wheel by the time left
    and running the expired entries at or after the deadline calls its
    callback. *)
Theorem timer_fires now1 now2 d c s i s' nows now nows2 :
  Inv [] s → nextId_ s < 2 ^ 64 - 1 → now1 <= now2 <= now1 + d → d < 2 ^ 63 →
  (now1 + d - now2) ÷ tickDuration (config_ s) < Z.of_nat (wheelSize (config_ s)) →
  schedule now1 now2 d (Some c) s = Ok (i, s') → now1 + d <= now →
  c ∈ (processExpired (λ _ s, s) now nows2 (advance (now1 + d - now2) nows s')).1.2.
Proof.
  intros HI Hb Hnow Hd Hq E Hdue.
  destruct (wf_head s (proj1 HI)) as (cur & Hcur & Hlt).
  destruct (schedule_slot0 _ _ _ _ _ _ _ _ (proj1 HI) Hnow Hd Hq E Hcur) as (Hws & Hc' & Hcfg & Hcan).
  destruct (schedule_entry_inv [] _ _ _ _ _ _ _ _ HI Hb E) as (HI' & -> & _ & _).
  set (r := now1 + d - now2) in *. set (e := MkEntry (nextId_ s) (now1 + d) 0 c) in *.
  pose proof (advance_moved r nows s' (proj1 HI')) as (Hw2 & (_&Hcan2&_) & _).
  destruct (advance_wheel0 nows (Z.to_nat (r ÷ tickDuration (config_ s'))) e s'
    ((cur + Z.to_nat (r ÷ tickDuration (config_ s'))) mod wheelSize (config_ s'))%nat cur (proj1 HI'))
    as [H1 H2]; [|by rewrite Hc'|].
  { unfold slot_at. rewrite Hws, Hcfg. apply pushed_in_slot; [apply HI|..]; destruct HI as ((?&?&_)&_); [done|].
    apply Nat.mod_upper_bound. lia. }
  destruct (processExpired_quiet now nows2 _ Hw2) as [-> _]. cbn [snd].
  apply list_elem_of_fmap. exists e. split; [done|]. unfold due_now.
  apply list_elem_of_filter. split; [done|]. apply list_elem_of_filter.
  split; [|unfold advance; rewrite H2; exact H1].
  rewrite (is_cancelled_eq s); [|congruence]. by eapply fresh_not_cancelled.
Qed.

Lemma timer_fires_witness :
  9 ∈ (processExpired (λ _ s, s) 2500 [] (advance 2400 [] (schedule_state (schedule 0 100 2500 (Some 9) demo_wheel)))).1.2.
Proof.
  apply (timer_fires 0 100 2500 9 demo_wheel 3); try (vm_compute; done).
  exact demo_wheel_inv.
Defined.

(** ** Scheduling on a running wheel *)

(** Once the timer thread has been started no timer can be added: with
    the wheel running, [schedule] and [schedulePeriodic] called with valid
    arguments never return, because they hold [mutex_] when [armTimerFd] locks
    it again; on a stopped wheel the same calls return the next id and add
    exactly one entry. *)
Theorem schedule_running_hangs now1 now2 d c s :
  Inv [] s → nextId_ s < 2 ^ 64 - 1 → 0 < d →
  (running_ s = true → schedule now1 now2 d (Some c) s = Hang ∧
                       schedulePeriodic now1 now2 d (Some c) s = Hang) ∧
  (running_ s = false →
     (∃ s', schedule now1 now2 d (Some c) s = Ok (nextId_ s, s') ∧
        all_entries s' ≡ₚ MkEntry (nextId_ s) (now1 + d) 0 c :: all_entries s) ∧
     (∃ s', schedulePeriodic now1 now2 d (Some c) s = Ok (nextId_ s, s') ∧
        all_entries s' ≡ₚ MkEntry (nextId_ s) (now1 + d) d c :: all_entries s)).
Proof.
  intros HI Hb Hd. unfold schedulePeriodic. destruct (Z.leb_spec d 0); [lia|].
  assert (Hrun : ∀ per, running_ s = true → schedule_entry now1 now2 d per (Some c) s = Hang).
  { intros per Hr. unfold schedule_entry. simpl.
    match goal with |- context [insert now2 ?e ?x] =>
      destruct (insert_spec now2 e x (proj1 HI)) as (_ & (_&_&_&_&->) & _) end.
    simpl. by rewrite Hr. }
  assert (Hok : ∀ per, running_ s = false →
    ∃ s', schedule_entry now1 now2 d per (Some c) s = Ok (nextId_ s, s') ∧
          all_entries s' ≡ₚ MkEntry (nextId_ s) (now1 + d) per c :: all_entries s).
  { intros per Hr.
    destruct (schedule_entry now1 now2 d per (Some c) s) as [[i s']| |] eqn:E.
    - destruct (schedule_entry_inv [] _ _ _ _ _ _ _ _ HI Hb E) as (_ & -> & _ & c' & [= <-] & Hp).
      by exists s'.
    - unfold schedule_entry in E. by case_match.
    - unfold schedule_entry in E. simpl in E. revert E.
      match goal with |- context [insert now2 ?e ?x] =>
        destruct (insert_spec now2 e x (proj1 HI)) as (_ & (_&_&_&_&->) & _) end.
      simpl. by rewrite Hr. }
  split; intros Hr; split; [by apply Hrun|by apply Hrun|by apply Hok|by apply Hok].
Qed.

Lemma schedule_running_hangs_witness :
  schedule 0 0 1000 (Some 3) (start demo_wheel) = Hang ∧
  ∃ s', schedule 0 0 1000 (Some 3) demo_wheel = Ok (3, s').
Proof.
  split.
  - apply (schedule_running_hangs 0 0 1000 3 (start demo_wheel)); try (vm_compute; done).
    exact demo_wheel_inv.
  - destruct (schedule_running_hangs 0 0 1000 3 demo_wheel demo_wheel_inv ltac:(reflexivity) ltac:(lia))
      as [_ H]. destruct (H eq_refl) as [[s' [Hs' _]] _]. by exists s'.
Defined.

Lemma timeUntilNextExpiry_range now s : 0 <= timeUntilNextExpiry now s <= hours 24.
Proof.
  unfold timeUntilNextExpiry.
  assert (Hf : ∀ l a, a <= now + hours 24 →
    foldl (λ acc e, if is_cancelled s e then acc else if expiry e <? acc then expiry e else acc) a l
      <= now + hours 24).
  { intros l. induction l as [|e l IH]; intros a Ha; simpl; [done|]. apply IH.
    case_match; [done|]. case_match; bool_hyps; lia. }
  pose proof (Hf (all_entries s) (now + hours 24) ltac:(lia)).
  case_match; bool_hyps; unfold hours, ns_per_s in *; lia.
Qed.

(** [armTimerFd] always programs a valid, non-zero timerfd value: seconds
    and nanoseconds are those of the clamped time to the next expiry (at least
    one tick, and one tick when nothing expires within the hour), with the
    nanosecond field in range. *)
Lemma armTimerFd_val now s :
  wf s →
  let sec := (armTimerFd now s).1 in let nsec := (armTimerFd now s).2 in
  let t := timeUntilNextExpiry now s in
  let v := if hours 1 <? t then tickDuration (config_ s) else Z.max t (tickDuration (config_ s)) in
  0 <= sec ∧ 0 <= nsec < ns_per_s ∧ sec * ns_per_s + nsec = v ∧ 0 < v.
Proof.
  intros (_ & _ & Ht & _). unfold armTimerFd.
  pose proof (timeUntilNextExpiry_range now s) as Hr.
  set (t := timeUntilNextExpiry now s) in *. rewrite Z.gtb_ltb.
  set (v := if hours 1 <? t then tickDuration (config_ s) else Z.max t (tickDuration (config_ s))).
  assert (Hv : (if (if hours 1 <? t then tickDuration (config_ s) else t) <? tickDuration (config_ s)
                then tickDuration (config_ s)
                else if hours 1 <? t then tickDuration (config_ s) else t) = v).
  { unfold v. destruct (hours 1 <? t).
    - by rewrite Z.ltb_irrefl.
    - destruct (Z.ltb_spec t (tickDuration (config_ s))); lia. }
  rewrite Hv. assert (0 < v) by (unfold v; case_match; lia).
  pose proof (Z_quot_bounds v ns_per_s ltac:(lia) ltac:(unfold ns_per_s; lia)).
  assert (0 <= v ÷ ns_per_s) by (apply Z.quot_pos; unfold ns_per_s; lia).
  destruct ((v ÷ ns_per_s =? 0) && (v - v ÷ ns_per_s * ns_per_s =? 0)) eqn:E;
    cbn [fst snd]; [bool_hyps; lia|]. unfold ns_per_s in *. lia.
Qed.

(** [cancel] returns true exactly when a live entry has the id; that entry
    and no other stops being live, so [processExpired] will not fire it, and
    the active count drops by one; otherwise nothing changes. *)
Theorem cancel_spec t s :
  Inv [] s →
  ((cancel t s).1 = true ↔ t ∈ (id <$> live s)) ∧
  (t ∈ (id <$> live s) →
     (t ∉ (id <$> live (cancel t s).2)) ∧ activeTimers (cancel t s).2 = activeTimers s - 1 ∧
     ∃ e, id e = t ∧ (live s ≡ₚ e :: live (cancel t s).2)) ∧
  (t ∉ (id <$> live s) → (cancel t s).2 = s).
Proof.
  intros HI. destruct (cancel_spec_aux [] t s HI) as (HI' & Htrue & Hfalse).
  pose proof HI as (_ & _ & _ & _ & Ha). pose proof HI' as (_ & Hn & _ & _ & Ha').
  destruct (cancel t s).1 eqn:E.
  - destruct (Htrue eq_refl) as (e & He & Hp).
    assert (Hin : t ∈ (id <$> live s)) by (rewrite Hp; simpl; rewrite He; set_solver).
    assert (Hnd : NoDup (id <$> live s)).
    { eapply NoDup_sub; [|exact (proj1 (proj2 HI))]. apply fmap_submseteq. simpl.
      apply sublist_submseteq, sublist_filter. }
    split_and!; [done| |done]. intros _. split_and!; [| |by exists e].
    + rewrite Hp in Hnd. simpl in Hnd. apply NoDup_cons in Hnd as [Hnd _]. by rewrite He in Hnd.
    + unfold activeTimers. rewrite Ha, Ha', Hp. simpl length. lia.
  - destruct (Hfalse eq_refl) as [Hs Hni]. split_and!; [done|done|done].
Qed.

Lemma cancel_spec_witness : 1 ∈ (id <$> live demo_wheel) ∧ (cancel 1 demo_wheel).1 = true ∧
  1 ∉ (id <$> live (cancel 1 demo_wheel).2).
Proof.
  assert (E : id <$> live demo_wheel = [1; 2]) by reflexivity.
  assert (H1 : 1 ∈ (id <$> live demo_wheel)) by (rewrite E; set_solver).
  destruct (cancel_spec 1 demo_wheel demo_wheel_inv) as (Hiff & Hyes & _).
  split; [exact H1|]. split; [by apply Hiff|]. by apply Hyes.
Defined.

(** ** The timer thread *)

Lemma new_slots c s j :
  newTimerWheel c = Ok s → slot_at s 0 j = [] ∧ currentSlots_ s !! 0%nat = Some 0%nat ∧ config_ s = c
    ∧ cancelled s = ∅.
Proof.
  unfold newTimerWheel. case_match; [done|]. intros [= <-]. bool_hyps. unfold slot_at. simpl.
  split_and!; [|by apply lookup_replicate_2; lia|done|done].
  destruct (replicate (numWheels c) _ !! 0%nat) as [w|] eqn:E; simpl; [|done].
  apply lookup_replicate in E as [-> _].
  destruct (replicate _ _ !! j) as [x|] eqn:E; simpl; [|done]. by apply lookup_replicate in E as [-> _].
Qed.

(** One tick from slot 0 reaches slot 1, which an entry two or more slots away
    leaves as it was. *)
Lemma late_tick s0 s k e now nows :
  (2 <= k < wheelSize (config_ s))%nat → 0 < tickDuration (config_ s) →
  slot_at s0 0 1 = [] → currentSlots_ s !! 0%nat = Some 0%nat →
  wheels_ s = alter (alter (λ l, l ++ [e]) k) 0%nat (wheels_ s0) →
  due_now now (tick nows s) = [] ∧ tick nows s = set_slots (<[0%nat := 1%nat]> (currentSlots_ s)) s.
Proof.
  intros Hk Ht Hs1 Hcur Hws.
  assert (Htk : tick nows s = set_slots (<[0%nat := 1%nat]> (currentSlots_ s)) s).
  { unfold tick, advance. rewrite Z.quot_same by lia. simpl. unfold advance_tick.
    rewrite Hcur. simpl default. rewrite Nat.mod_small by lia. done. }
  split; [|done]. rewrite Htk. unfold due_now. simpl.
  rewrite list_lookup_insert_eq by (by apply lookup_lt_Some in Hcur). simpl default.
  assert (slot_at (set_slots (<[0%nat := 1%nat]> (currentSlots_ s)) s) 0 1 = []) as ->; [|done].
  unfold slot_at in Hs1 |- *. simpl. rewrite Hws, list_lookup_alter_eq.
  destruct (wheels_ s0 !! 0%nat) as [w|] eqn:Ew; simpl in *; [|done].
  rewrite list_lookup_alter_ne; [done|lia].
Qed.

(** The timer thread is late: a timer of two or more ticks on a fresh wheel
    arms the timerfd for exactly its delay, but the wake-up that follows, at or
    after the deadline, advances one slot only and fires nothing, although the
    entry counts as pending. *)
Theorem timer_thread_late c s0 d cb s now nows nows2 :
  newTimerWheel c = Ok s0 → 0 < tickDuration c → 2 <= d ÷ tickDuration c < Z.of_nat (wheelSize c) →
  d < hours 1 → schedule 0 0 d (Some cb) s0 = Ok (1, s) → d <= now →
  (armTimerFd 0 s).1 * ns_per_s + (armTimerFd 0 s).2 = d ∧
  (thread_wakeup (λ _ s, s) nows now nows2 s).1 = (0%nat, []) ∧
  pendingExpirations now (thread_wakeup (λ _ s, s) nows now nows2 s).2 = 1%nat.
Proof.
  intros Hnew Ht Hq Hd E Hnow. pose proof (new_inv _ _ Hnew Ht) as HI.
  pose proof (new_slots _ _ 1 Hnew) as (Hs1 & Hcur & Hcfg & Hcan).
  assert (Hid : nextId_ s0 < 2 ^ 64 - 1).
  { unfold newTimerWheel in Hnew. case_match; [done|]. by injection Hnew as <-. }
  assert (Hdt : 0 <= d ∧ tickDuration c <= d).
  { destruct (Z.le_gt_cases 0 d) as [|Hneg].
    - pose proof (Z_quot_bounds d (tickDuration c) ltac:(done) Ht). nia.
    - pose proof (Z.quot_opp_l d (tickDuration c) ltac:(lia)).
      pose proof (Z.quot_pos (- d) (tickDuration c) ltac:(lia) ltac:(lia)). lia. }
  destruct (schedule_entry_inv [] _ _ _ _ _ _ _ _ HI Hid E) as (HI' & _ & _ & cb' & [= <-] & Hp).
  rewrite (new_empty _ _ Hnew) in Hp. apply Permutation_singleton_r in Hp.
  destruct (schedule_slot0 0 0 d cb s0 1 s 0 (proj1 HI)) as (Hws & Hcs & Hcfg' & Hcan');
    [lia|unfold hours, ns_per_s in *; lia|rewrite Hcfg, Z.sub_0_r, Z.add_0_l; lia|done|done|].
  rewrite Hcfg in Hcfg', Hws. rewrite Z.sub_0_r, Z.add_0_l in Hws. rewrite Z.add_0_l in Hp. rewrite Nat.add_0_l in Hws.
  set (e := MkEntry 1 d 0 cb) in *.
  assert (Hlive : ∀ x, is_cancelled s x = false).
  { intros x. unfold is_cancelled. rewrite Hcan', Hcan. apply bool_decide_eq_false. set_solver. }
  rewrite Nat.mod_small in Hws by lia.
  destruct (late_tick s0 s (Z.to_nat (d ÷ tickDuration c)) e now nows) as [Hdue Htk];
    [rewrite Hcfg'; lia|by rewrite Hcfg'|done|by rewrite Hcs|done|].
  pose proof (advance_moved (tickDuration (config_ s)) nows s (proj1 HI')) as (Hw2 & _).
  change (wf (tick nows s)) in Hw2.
  destruct (scan_slot_spec now (tick nows s) Hw2) as (Hd1 & _ & (_&Hc2&_) & _ & Hl2).
  unfold thread_wakeup, processExpired. destruct (scan_slot now (tick nows s)) as [es s2].
  simpl in Hd1, Hl2, Hc2. subst es. rewrite Hdue in Hl2 |- *. simpl in Hl2 |- *.
  split_and!; [|done|].
  - destruct (armTimerFd_val 0 s (proj1 HI')) as (_ & _ & -> & _).
    assert (timeUntilNextExpiry 0 s = d) as ->.
    { unfold timeUntilNextExpiry. rewrite Hp. simpl. rewrite Hlive.
      destruct (Z.ltb_spec d (0 + hours 24)); [|unfold hours, ns_per_s in *; lia].
      destruct (Z.leb_spec d 0); lia. }
    destruct (Z.ltb_spec (hours 1) d); [lia|]. rewrite Hcfg'. lia.
  - unfold pendingExpirations.
    assert (Hle : filter (λ e, is_cancelled s2 e = false ∧ expiry e <= now) (all_entries s2)
                  = filter (λ e, expiry e <= now) (live s2)).
    { unfold live. rewrite list_filter_filter. apply list_filter_iff. naive_solver. }
    rewrite Hle, <- Hl2. unfold live. rewrite Htk. change (all_entries (set_slots _ s)) with (all_entries s).
    rewrite Hp. rewrite filter_cons_True by apply Hlive. simpl.
    by rewrite filter_cons_True.
Qed.

Lemma timer_thread_late_witness :
  (thread_wakeup (λ _ s, s) [] 3000 [] (schedule_state (schedule 0 0 3000 (Some 9)
     (wheel_state (newTimerWheel (MkConfig 1000 4 2)))))).1 = (0%nat, []).
Proof.
  refine (proj1 (proj2 (timer_thread_late (MkConfig 1000 4 2)
    (wheel_state (newTimerWheel (MkConfig 1000 4 2))) 3000 9
    (schedule_state (schedule 0 0 3000 (Some 9) (wheel_state (newTimerWheel (MkConfig 1000 4 2)))))
    3000 [] [] _ _ _ _ _ _)));
  solve [reflexivity|vm_compute; done].
Defined.
