(* ===== verification/Futex.v ===== *)
(** * Threads over futexes

    The machine the futex-based primitives of src/src/futex.cpp,
    recursive_mutex.cpp, rw_mutex.cpp, latch.cpp and once.cpp run on.  A thread
    is a program counter; the action at a program counter is one atomic
    operation on the shared words, one futex system call, or a rest between
    calls.  The interleaving is a sequence of moves.  Atomic operations are
    sequentially consistent; the argument of an atomic operation says whether a
    weak compare-and-exchange fails spuriously. *)

From S2P Require Import Prelude.

(** What a thread does next: an atomic operation; FUTEX_WAIT on a word (sleep
    if it still has the expected value, else go on); FUTEX_WAKE of at most [n]
    sleepers; asleep until woken, or until a timeout expires when it has one;
    or between calls, with the calls it may make. *)
Inductive faction (P Sh : Type) :=
  | Atomic (f : bool → Sh → P * Sh)
  | FWait (word : Sh → Z) (expected : Z) (asleep cont : P)
  | FWake (addr : nat) (n : Z) (cont : P)
  | Asleep (addr : nat) (woken : P) (expired : option P)
  | AtRest (calls : list P).
Arguments Atomic {P Sh} f.
Arguments FWait {P Sh} word expected asleep cont.
Arguments FWake {P Sh} addr n cont.
Arguments Asleep {P Sh} addr woken expired.
Arguments AtRest {P Sh} calls.

Class FutexProg (P Sh : Type) := action : P → faction P Sh.

Record config (P Sh : Type) := MkConf { shared : Sh; threads : list P }.
Arguments MkConf {P Sh} shared threads.
Arguments shared {P Sh} c.
Arguments threads {P Sh} c.

(** Scheduler moves: thread [i] performs its atomic operation or FUTEX_WAIT;
    starts its [k]-th possible call; wakes the sleepers [us]; is woken for no
    reason; or its timeout expires. *)
Inductive move :=
  | Step (i : nat) (spurious : bool)
  | Call (i k : nat)
  | Wake (i : nat) (us : list nat)
  | Spurious (i : nat)
  | Expire (i : nat).

(** INT_MAX, the count of a wake-all. *)
Definition wake_all : Z := 2 ^ 31 - 1.

Section machine.
Context {P Sh : Type} `{!FutexProg P Sh}.
Implicit Types (c : config P Sh) (p : P) (s : Sh) (l : list P).

Definition asleep_at (addr : nat) p : bool :=
  match action p with Asleep a _ _ => Nat.eqb a addr | _ => false end.

Definition rouse p : P := match action p with Asleep _ w _ => w | _ => p end.

Definition sleepers (addr : nat) l : nat := length (filter (λ p, asleep_at addr p = true) l).

(** The sleepers a wake of [n] may pick: distinct, on the word, and as many as
    there are up to [n]. *)
Definition wakeable (addr : nat) (n : Z) (us : list nat) l : bool :=
  bool_decide (NoDup us) &&
  forallb (λ u, match l !! u with Some p => asleep_at addr p | None => false end) us &&
  Z.eqb (Z.of_nat (length us)) (Z.min n (Z.of_nat (sleepers addr l))).

Definition rouse_all (us : list nat) l : list P := foldr (λ u l, alter rouse u l) l us.

Definition exec (m : move) c : option (config P Sh) :=
  match m with
  | Step i b =>
      p ← threads c !! i;
      match action p with
      | Atomic f => let '(p', s') := f b (shared c) in Some (MkConf s' (<[i := p']> (threads c)))
      | FWait word expected asleep cont =>
          Some (MkConf (shared c)
                  (<[i := if word (shared c) =? expected then asleep else cont]> (threads c)))
      | _ => None
      end
  | Call i k =>
      p ← threads c !! i;
      match action p with
      | AtRest calls => p' ← calls !! k; Some (MkConf (shared c) (<[i := p']> (threads c)))
      | _ => None
      end
  | Wake i us =>
      p ← threads c !! i;
      match action p with
      | FWake addr n cont =>
          if wakeable addr n us (threads c)
          then Some (MkConf (shared c) (<[i := cont]> (rouse_all us (threads c))))
          else None
      | _ => None
      end
  | Spurious i =>
      p ← threads c !! i;
      match action p with
      | Asleep _ w _ => Some (MkConf (shared c) (<[i := w]> (threads c)))
      | _ => None
      end
  | Expire i =>
      p ← threads c !! i;
      match action p with
      | Asleep _ _ (Some e) => Some (MkConf (shared c) (<[i := e]> (threads c)))
      | _ => None
      end
  end.

Definition fstep c c' : Prop := ∃ m, exec m c = Some c'.

(** A schedule, run from a configuration. *)
Fixpoint run_moves (ms : list move) c : option (config P Sh) :=
  match ms with
  | [] => Some c
  | m :: ms' => c' ← exec m c; run_moves ms' c'
  end.

Lemma run_moves_steps ms c c' : run_moves ms c = Some c' → rtc fstep c c'.
Proof.
  revert c. induction ms as [|m ms IH]; intros c E; simpl in E; simplify_eq; [done|].
  apply bind_Some in E as (c1 & E1 & E2). eapply rtc_l; [by exists m|]. by apply IH.
Qed.

(** ** Invariants by one thread at a time *)

(** What a move does to a single thread. *)
Inductive local_step : P → Sh → P → Sh → Prop :=
  | ls_atomic p s f b : action p = Atomic f → local_step p s (f b s).1 (f b s).2
  | ls_wait p s word e a k :
      action p = FWait word e a k → local_step p s (if word s =? e then a else k) s
  | ls_wake p s addr n k : action p = FWake addr n k → local_step p s k s
  | ls_woken p s addr w e : action p = Asleep addr w e → local_step p s w s
  | ls_expired p s addr w e : action p = Asleep addr w (Some e) → local_step p s e s
  | ls_call p s calls p' : action p = AtRest calls → p' ∈ calls → local_step p s p' s.

Definition lstep c c' : Prop :=
  ∃ i p p', threads c !! i = Some p ∧ local_step p (shared c) p' (shared c') ∧
            threads c' = <[i := p']> (threads c).

Lemma rouse_lstep s l u p addr w e :
  l !! u = Some p → action p = Asleep addr w e →
  lstep (MkConf s l) (MkConf s (alter rouse u l)).
Proof.
  intros Hu Ha. exists u, p, w. split_and!; [done|by eapply ls_woken|]. simpl.
  unfold rouse. apply list_eq. intros j. destruct (decide (j = u)) as [->|Hj].
  - rewrite list_lookup_alter_eq, Hu. simpl. rewrite Ha.
    rewrite list_lookup_insert_eq; [done|]. by eapply lookup_lt_Some.
  - by rewrite list_lookup_alter_ne, list_lookup_insert_ne.
Qed.

Lemma rouse_all_steps s addr us l :
  NoDup us → Forall (λ u, ∃ p w e, l !! u = Some p ∧ action p = Asleep addr w e) us →
  rtc lstep (MkConf s l) (MkConf s (rouse_all us l)) ∧
  (∀ j, j ∉ us → rouse_all us l !! j = l !! j).
Proof.
  induction us as [|u us IH]; intros Hn Hf; [by split|]. apply NoDup_cons in Hn as [Hu Hn].
  apply Forall_cons in Hf as [(p & w & e & Hp & Ha) Hf]. destruct (IH Hn Hf) as [H1 H2]. split.
  - eapply rtc_r; [exact H1|]. simpl. eapply rouse_lstep; [|exact Ha]. by rewrite H2.
  - intros j Hj. simpl. apply not_elem_of_cons in Hj as [? ?].
    rewrite list_lookup_alter_ne by done. by apply H2.
Qed.

Lemma exec_lsteps m c c' : exec m c = Some c' → rtc lstep c c'.
Proof.
  destruct m as [i b|i k|i us|i|i]; simpl; intros (p & Hp & E)%bind_Some.
  - destruct (action p) as [f|word e a k| | |] eqn:Ea; simplify_eq.
    + destruct (f b (shared c)) as [p' s'] eqn:Ef. simplify_eq. apply rtc_once. exists i, p, p'.
      split_and!; [done| |done]. simpl. pose proof (ls_atomic p (shared c) f b Ea) as Hl.
      by rewrite Ef in Hl.
    + apply rtc_once. eexists i, p, _. split_and!; [done|by apply ls_wait|done].
  - destruct (action p) eqn:Ea; simplify_eq. apply bind_Some in E as (p' & Hk & E). simplify_eq.
    apply rtc_once. exists i, p, p'. split_and!; [done| |done]. eapply ls_call; [done|].
    by eapply list_elem_of_lookup_2.
  - destruct (action p) as [| |addr n k| |] eqn:Ea; simplify_eq.
    destruct (wakeable addr n us (threads c)) eqn:Ew; simplify_eq.
    unfold wakeable in Ew. apply andb_true_iff in Ew as [Ew _].
    apply andb_true_iff in Ew as [Hn Hus]. apply bool_decide_eq_true in Hn.
    assert (Hf : Forall (λ u, ∃ p w e, threads c !! u = Some p ∧ action p = Asleep addr w e) us).
    { rewrite Forall_forall. intros u Hu. rewrite forallb_forall in Hus.
      specialize (Hus u (proj1 (list_elem_of_In _ _) Hu)). simpl in Hus.
      destruct (threads c !! u) as [q|] eqn:Eq; [|done]. unfold asleep_at in Hus.
      destruct (action q) eqn:Eqa; try done. apply Nat.eqb_eq in Hus as ->. eauto. }
    destruct (rouse_all_steps (shared c) addr us (threads c) Hn Hf) as [H1 H2].
    destruct c as [s l]. simpl in *. eapply rtc_r; [exact H1|].
    exists i, p, k. split_and!; [|by eapply ls_wake|done]. simpl. rewrite H2; [done|].
    intros Hi. rewrite Forall_forall in Hf. destruct (Hf i Hi) as (q & w & e & Hq & Hqa). simplify_eq.
    congruence.
  - destruct (action p) as [| | |addr w e|] eqn:Ea; simplify_eq. apply rtc_once.
    exists i, p, w. split_and!; [done|by eapply ls_woken|done].
  - destruct (action p) as [| | |addr w [e|]|] eqn:Ea; simplify_eq. apply rtc_once.
    exists i, p, e. split_and!; [done|by eapply ls_expired|done].
Qed.

(** An invariant closed under the moves of single threads holds in every
    reachable configuration. *)
Lemma fstep_invariant (I : config P Sh → Prop) c c' :
  (∀ s l i p p' s', I (MkConf s l) → l !! i = Some p → local_step p s p' s' →
     I (MkConf s' (<[i := p']> l))) →
  rtc fstep c c' → I c → I c'.
Proof.
  intros HI Hr Hc. refine (rtc_invariant fstep I _ _ _ Hr Hc).
  intros c1 c2 [m Hm] H1. apply exec_lsteps in Hm. refine (rtc_invariant lstep I _ _ _ Hm H1).
  intros [s l] [s' l'] (i & p & p' & Hp & Hl & E) Hi. simpl in *. subst l'. by eapply HI.
Qed.

(** ** Counting threads *)

Definition tally (h : P → bool) l : Z := Z.of_nat (length (filter (λ p, h p = true) l)).

Lemma tally_insert h l i p p' :
  l !! i = Some p → tally h (<[i := p']> l) = tally h l - Z.b2z (h p) + Z.b2z (h p').
Proof.
  unfold tally. revert i. induction l as [|q l IH]; intros [|i] Hi; simplify_eq/=.
  - rewrite !filter_cons. destruct (h p) eqn:E1, (h p') eqn:E2; simpl;
      repeat case_decide; simpl; try congruence; lia.
  - specialize (IH i Hi). rewrite !filter_cons. case_decide; simpl in *; lia.
Qed.

Lemma tally_nonneg h l : 0 <= tally h l.
Proof. unfold tally. lia. Qed.

Lemma tally_pos h l i p : l !! i = Some p → h p = true → 1 <= tally h l.
Proof.
  intros Hi Hp. unfold tally.
  assert (p ∈ filter (λ p, h p = true) l) as He.
  { apply list_elem_of_filter. split; [done|]. by eapply list_elem_of_lookup_2. }
  destruct (filter _ l); [by apply elem_of_nil in He|]. simpl. lia.
Qed.

Lemma tally_two h l i j p q :
  l !! i = Some p → l !! j = Some q → h p = true → h q = true → i ≠ j → 2 <= tally h l.
Proof.
  intros Hi Hj Hp Hq. revert i j Hi Hj. unfold tally.
  induction l as [|r l IH]; intros [|i] [|j] Hi Hj Hij; simplify_eq/=.
  - rewrite filter_cons_True by done. pose proof (tally_pos h l j q Hj Hq) as Hp2. unfold tally in Hp2. simpl. lia.
  - rewrite filter_cons_True by done. pose proof (tally_pos h l i p Hi Hp) as Hp2. unfold tally in Hp2. simpl. lia.
  - rewrite filter_cons. assert (i ≠ j) by congruence.
    pose proof (IH i j Hi Hj ltac:(done)). case_decide; simpl; lia.
Qed.

Lemma tally_le_length h l : tally h l <= Z.of_nat (length l).
Proof. unfold tally. pose proof (length_filter (λ p, h p = true) l). lia. Qed.

Lemma tally_replicate h p n : h p = false → tally h (replicate n p) = 0.
Proof.
  intros Hp. unfold tally. rewrite filter_none; [done|]. apply Forall_replicate. by rewrite Hp.
Qed.

(** ** Sums over the threads *)

Definition total (w : P → Z) l : Z := foldr (λ p acc, w p + acc) 0 l.

Lemma total_insert w l i p p' :
  l !! i = Some p → total w (<[i := p']> l) = total w l - w p + w p'.
Proof.
  revert i. induction l as [|q l IH]; intros [|i] Hi; simplify_eq/=; [lia|].
  rewrite (IH i Hi). lia.
Qed.

Lemma total_le w w' l : (∀ p, w p <= w' p) → total w l <= total w' l.
Proof. intros Hw. induction l as [|p l IH]; simpl; [lia|]. specialize (Hw p). lia. Qed.

Lemma total_nonneg w l : (∀ p, 0 <= w p) → 0 <= total w l.
Proof. intros Hw. induction l as [|p l IH]; simpl; [lia|]. specialize (Hw p). lia. Qed.

Lemma total_pos w l i p : (∀ p, 0 <= w p) → l !! i = Some p → w p <= total w l.
Proof.
  intros Hw. revert i. induction l as [|q l IH]; intros [|i] Hi; simplify_eq/=.
  - pose proof (total_nonneg w l Hw). lia.
  - pose proof (IH i Hi). specialize (Hw q). lia.
Qed.

Lemma total_zero w l : Forall (λ p, w p = 0) l → total w l = 0.
Proof. induction 1; simpl; lia. Qed.

Lemma total_le_length w l : (∀ p, w p <= 1) → total w l <= Z.of_nat (length l).
Proof. intros Hw. induction l as [|p l IH]; cbn; [lia|]. specialize (Hw p). unfold total in IH. lia. Qed.

(** A thread of weight zero leaves room in such a sum. *)
Lemma total_lt_length w l i p :
  (∀ p, w p <= 1) → l !! i = Some p → w p <= 0 → total w l <= Z.of_nat (length l) - 1.
Proof.
  intros Hw. revert i. induction l as [|q l IH]; intros [|i] Hi Hp; simplify_eq/=.
  - pose proof (total_le_length w l Hw). unfold total in *. lia.
  - specialize (IH i Hi Hp). specialize (Hw q). unfold total in *. lia.
Qed.

Lemma total_add w w' l : total (λ p, w p + w' p) l = total w l + total w' l.
Proof. unfold total. induction l as [|p l IH]; cbn; lia. Qed.

Lemma total_exists w l : 0 < total w l → ∃ p, p ∈ l ∧ 0 < w p.
Proof.
  induction l as [|p l IH]; simpl; intros H; [lia|].
  destruct (Z_lt_le_dec 0 (w p)); [exists p; split; [left|lia]|].
  destruct IH as (q & Hq & Hw); [lia|]. exists q. split; [by right|done].
Qed.

Lemma total_tally h l : total (λ p, Z.b2z (h p)) l = tally h l.
Proof.
  unfold tally. induction l as [|p l IH]; [done|]. rewrite filter_cons. simpl. rewrite IH.
  destruct (h p) eqn:E; case_decide; simpl; congruence || lia.
Qed.

Lemma tally_negb h l : tally h l + tally (λ p, negb (h p)) l = Z.of_nat (length l).
Proof.
  rewrite <- !total_tally. unfold total. induction l as [|p l IH]; cbn; [lia|].
  destruct (h p); simpl; lia.
Qed.

(** ** Wakes that count the sleepers they reach *)

Lemma wakeable_spec addr n us l :
  wakeable addr n us l = true →
  NoDup us ∧ Forall (λ u, ∃ p, l !! u = Some p ∧ asleep_at addr p = true) us ∧
  Z.of_nat (length us) = Z.min n (tally (asleep_at addr) l).
Proof.
  unfold wakeable. intros [[Hn Hf]%andb_true_iff Hl]%andb_true_iff.
  apply bool_decide_eq_true in Hn. apply Z.eqb_eq in Hl. split_and!; [done| |done].
  rewrite forallb_forall in Hf. apply Forall_forall. intros u Hu.
  specialize (Hf u (proj1 (list_elem_of_In _ _) Hu)). simpl in Hf. destruct (l !! u); [eauto|done].
Qed.

Lemma rouse_all_lookup addr us l :
  NoDup us → Forall (λ u, ∃ p, l !! u = Some p ∧ asleep_at addr p = true) us →
  (∀ j, j ∉ us → rouse_all us l !! j = l !! j) ∧
  ∀ w d, (∀ p, asleep_at addr p = true → w (rouse p) = w p + d) →
    total w (rouse_all us l) = total w l + d * Z.of_nat (length us).
Proof.
  induction us as [|u us IH]; intros Hn Hf; [split; [done|intros; simpl; lia]|].
  apply NoDup_cons in Hn as [Hu Hn]. apply Forall_cons in Hf as [(p & Hp & Ha) Hf].
  destruct (IH Hn Hf) as [H1 H2]. assert (Hp' : rouse_all us l !! u = Some p) by by rewrite H1.
  assert (E : rouse_all (u :: us) l = <[u := rouse p]> (rouse_all us l)).
  { simpl. apply list_eq. intros j. destruct (decide (j = u)) as [->|Hj].
    - rewrite list_lookup_alter_eq, Hp', list_lookup_insert_eq; [done|]. by eapply lookup_lt_Some.
    - by rewrite list_lookup_alter_ne, list_lookup_insert_ne. }
  rewrite E. split.
  - intros j [Hj Hj']%not_elem_of_cons. rewrite list_lookup_insert_ne by done. by apply H1.
  - intros w d Hw. rewrite (total_insert _ _ _ _ (rouse p) Hp'), (H2 w d Hw), (Hw p Ha). simpl. lia.
Qed.

(** The effect of a wake on a sum, and on the waker itself. *)
Lemma wake_total addr n us l i p k w d :
  l !! i = Some p → action p = FWake addr n k → wakeable addr n us l = true →
  (∀ p, asleep_at addr p = true → w (rouse p) = w p + d) →
  total w (<[i := k]> (rouse_all us l)) =
  total w l - w p + w k + d * Z.min n (tally (asleep_at addr) l).
Proof.
  intros Hi Ha (Hn & Hf & Hl)%wakeable_spec Hw.
  destruct (rouse_all_lookup addr us l Hn Hf) as [H1 H2].
  assert (Hu : i ∉ us).
  { intros Hu. rewrite Forall_forall in Hf. destruct (Hf i Hu) as (q & Hq & Hqa). simplify_eq.
    unfold asleep_at in Hqa. by rewrite Ha in Hqa. }
  rewrite (total_insert _ _ _ p) by by rewrite H1. rewrite (H2 w d Hw). lia.
Qed.

Lemma rouse_all_Forall (Q : P → Prop) us l :
  (∀ p, Q p → Q (rouse p)) → Forall Q l → Forall Q (rouse_all us l).
Proof. intros HQ Hl. induction us as [|u us IH]; simpl; [done|]. apply Forall_alter; auto. Qed.

Lemma length_rouse_all us l : length (rouse_all us l) = length l.
Proof. induction us as [|u us IH]; simpl; [done|]. by rewrite length_alter. Qed.

(** Reachability along configurations that satisfy [ok]. *)
Definition fstep_while (ok : config P Sh → Prop) c c' : Prop := ok c ∧ fstep c c'.

(** An invariant for code whose wakes matter: single moves, and a wake with
    everything it reaches. *)
Lemma fstep_wake_invariant (ok I : config P Sh → Prop) c c' :
  (∀ s l i p p' s', ok (MkConf s l) → I (MkConf s l) → l !! i = Some p → local_step p s p' s' →
     (∀ a n k, action p ≠ FWake a n k) → I (MkConf s' (<[i := p']> l))) →
  (∀ s l i p addr n k us, ok (MkConf s l) → I (MkConf s l) → l !! i = Some p →
     action p = FWake addr n k → wakeable addr n us l = true →
     I (MkConf s (<[i := k]> (rouse_all us l)))) →
  rtc (fstep_while ok) c c' → I c → I c'.
Proof.
  intros Hloc Hwake. apply rtc_invariant. intros [s l] c1 [Hok [m Hm]] HI.
  destruct m as [i b|i k|i us|i|i]; simpl in Hm; apply bind_Some in Hm as (p & Hp & E).
  - destruct (action p) as [f|word e a k| | |] eqn:Ea; simplify_eq.
    + pose proof (ls_atomic p s f b Ea) as Hl. destruct (f b s) as [p' s']. simplify_eq.
      eapply Hloc; eauto. by rewrite Ea.
    + eapply Hloc; eauto; [by apply ls_wait|by rewrite Ea].
  - destruct (action p) eqn:Ea; simplify_eq. apply bind_Some in E as (p' & Hk & E). simplify_eq.
    eapply Hloc; eauto; [|by rewrite Ea]. eapply ls_call; [done|]. by eapply list_elem_of_lookup_2.
  - destruct (action p) as [| |addr n k| |] eqn:Ea; simplify_eq.
    destruct (wakeable addr n us l) eqn:Ew; simplify_eq. by eapply Hwake.
  - destruct (action p) as [| | |addr w e|] eqn:Ea; simplify_eq.
    eapply Hloc; eauto; [by eapply ls_woken|by rewrite Ea].
  - destruct (action p) as [| | |addr w [e|]|] eqn:Ea; simplify_eq.
    eapply Hloc; eauto; [by eapply ls_expired|by rewrite Ea].
Qed.

(** A schedule run while the configurations pass a test. *)
Fixpoint run_while (okb : config P Sh → bool) (ms : list move) c : option (config P Sh) :=
  match ms with
  | [] => Some c
  | m :: ms' => if okb c then c' ← exec m c; run_while okb ms' c' else None
  end.

Lemma run_moves_while okb (ok : config P Sh → Prop) ms c c' :
  (∀ c, okb c = true → ok c) → run_while okb ms c = Some c' → rtc (fstep_while ok) c c'.
Proof.
  intros Hok. revert c. induction ms as [|m ms IH]; intros c E; simpl in E; simplify_eq; [done|].
  destruct (okb c) eqn:Eo; [|done]. apply bind_Some in E as (c1 & E1 & E2).
  eapply rtc_l; [split; [by apply Hok|by exists m]|]. by apply IH.
Qed.

(** A thread that has a move of its own: not asleep and not between calls. *)
Definition busy p : bool :=
  match action p with Asleep _ _ _ | AtRest _ => false | _ => true end.

Lemma tally_quiet h l :
  (∀ p, h p = true → busy p = true) → (∀ p, p ∈ l → busy p = false) → tally h l = 0.
Proof.
  intros Hh Hl. rewrite <- total_tally. apply total_zero, Forall_forall. intros p Hp.
  specialize (Hl p Hp). destruct (h p) eqn:E; [|done]. by rewrite (Hh p E) in Hl.
Qed.

End machine.

(** Case analysis of a local step on the program counter it starts from. *)
Ltac hnf_action Ha :=
  match type of Ha with ?l = ?r => let l' := eval hnf in l in change (l' = r) in Ha end.

Ltac solve_member Hin :=
  repeat (apply elem_of_cons in Hin as [->|Hin]); try (by apply elem_of_nil in Hin).

Ltac local_cases Hl :=
  let Ha := fresh "Ha" in let Hin := fresh "Hin" in
  inversion Hl as [? ? ? ? Ha|? ? ? ? ? ? Ha|? ? ? ? ? Ha|? ? ? ? ? Ha|? ? ? ? ? Ha|? ? ? ? Ha Hin]; subst; clear Hl;
  match type of Ha with action ?p = _ => destruct p end;
  hnf_action Ha; repeat (case_match; bool_hyps; try discriminate Ha);
  try discriminate Ha; try (injection Ha; clear Ha; intros; subst);
  try match type of Hin with _ ∈ _ => progress (repeat (apply elem_of_cons in Hin as [Hin|Hin])); subst; try (by apply elem_of_nil in Hin) end.
