(* ===== verification/FutexMutex.v ===== *)
(** * The futex mutex (src/src/futex.cpp, include/pman/futex.hpp) *)

From S2P Require Import Prelude Futex.

(** [FutexMutex::State]. *)
Definition Unlocked : Z := 0.
Definition Locked : Z := 1.
Definition Contended : Z := 2.

(** Program counters: inside [lock] ([MSpin k]: about to test [spins-- > 0]
    with [spins = k]; [MSpinCas k]: it read [Unlocked] and is about to try),
    inside [try_lock] and [unlock], and the two rests between calls. *)
Inductive mpc :=
  | MIdle | MHolding
  | MLock | MSpin (spins : Z) | MSpinCas (spins : Z) | MWait | MAsleep
  | MTryLock
  | MUnlock | MWake.

#[export] Instance mpc_eq_dec : EqDecision mpc.
Proof. solve_decision. Defined.

(** [FutexMutex::lock]; the shared word is [state_]. *)
Definition mutex_lock (p : mpc) : option (faction mpc Z) :=
  match p with
  | MLock => Some (Atomic (λ _ st, if st =? Unlocked then (MHolding, Locked) else (MSpin 1000, st)))
  | MSpin k =>
      Some (if k >? 0
            then Atomic (λ _ st, (if st =? Unlocked then MSpinCas (k - 1) else MSpin (k - 1), st))
            else Atomic (λ _ st, (if st =? Unlocked then MHolding else MWait, Contended)))
  | MSpinCas k => Some (Atomic (λ _ st, if st =? Unlocked then (MHolding, Locked) else (MSpin k, st)))
  | MWait => Some (FWait (λ st, st) Contended MAsleep (MSpin 1000))
  | MAsleep => Some (Asleep 0 (MSpin 1000) None)
  | _ => None
  end.

Definition mutex_try_lock (p : mpc) : option (faction mpc Z) :=
  match p with
  | MTryLock => Some (Atomic (λ _ st, if st =? Unlocked then (MHolding, Locked) else (MIdle, st)))
  | _ => None
  end.

Definition mutex_unlock (p : mpc) : option (faction mpc Z) :=
  match p with
  | MUnlock => Some (Atomic (λ _ st, (if st =? Contended then MWake else MIdle, Unlocked)))
  | MWake => Some (FWake 0 1 MIdle)
  | _ => None
  end.

(** A thread locks or tries to lock, and unlocks when it holds the mutex. *)
#[export] Instance mutex_prog : FutexProg mpc Z := λ p,
  match mutex_lock p with
  | Some a => a
  | None =>
      match mutex_try_lock p with
      | Some a => a
      | None =>
          match mutex_unlock p with
          | Some a => a
          | None => if decide (p = MHolding) then AtRest [MUnlock] else AtRest [MLock; MTryLock]
          end
      end
  end.

(** [n] threads at a fresh mutex. *)
Definition mutex_init (n : nat) : config mpc Z := MkConf Unlocked (replicate n MIdle).

(** ** Mutual exclusion *)

(** From the acquiring operation to the exchange of [unlock]. *)
Definition holds (p : mpc) : bool := match p with MHolding | MUnlock => true | _ => false end.

Definition locked (st : Z) : Z := if st =? Unlocked then 0 else 1.

Definition mutex_word (st : Z) : Prop := st = Unlocked ∨ st = Locked ∨ st = Contended.

Definition MutexInv (c : config mpc Z) : Prop :=
  mutex_word (shared c) ∧ tally holds (threads c) = locked (shared c).

(** What one thread's move does to the word and to its own claim on it. *)
Lemma mutex_local p s p' s' :
  local_step p s p' s' → mutex_word s → (holds p = true → s ≠ Unlocked) →
  mutex_word s' ∧ Z.b2z (holds p') - Z.b2z (holds p) = locked s' - locked s.
Proof.
  intros Hl Hw Hh. local_cases Hl.
  all: unfold mutex_word, locked, Unlocked, Locked, Contended in *; simpl in Hh |- *.
  all: destruct Hw as [Hw|[Hw|Hw]]; rewrite ?Hw; simpl; try lia.
Qed.

Lemma mutex_local_inv s l i p p' s' :
  MutexInv (MkConf s l) → l !! i = Some p → local_step p s p' s' →
  MutexInv (MkConf s' (<[i := p']> l)).
Proof.
  intros [Hw Ht] Hp Hl. simpl in *.
  destruct (mutex_local p s p' s' Hl Hw) as [Hw' Hb].
  { intros Hh ->. pose proof (tally_pos holds l i p Hp Hh). unfold locked in Ht. simpl in Ht. lia. }
  split; simpl; [done|]. rewrite (tally_insert _ _ _ _ p' Hp). lia.
Qed.

Lemma mutex_init_inv n : MutexInv (mutex_init n).
Proof. split; [by left|]. by apply tally_replicate. Qed.

Lemma mutex_reachable_inv n c : rtc fstep (mutex_init n) c → MutexInv c.
Proof.
  intros Hr. refine (fstep_invariant MutexInv _ _ _ Hr (mutex_init_inv n)).
  intros s l i p p' s'. apply mutex_local_inv.
Qed.

(** C16: The futex mutex excludes: in every interleaving of any number of
    threads that lock, try to lock and unlock, with spurious wake-ups, no two
    threads hold the mutex at once, and the word is [Unlocked] exactly when
    none does. *)
Theorem futex_mutex_exclusion n c :
  rtc fstep (mutex_init n) c →
  (∀ i j p q, threads c !! i = Some p → threads c !! j = Some q →
     holds p = true → holds q = true → i = j) ∧
  (shared c = Unlocked ↔ ∀ p, p ∈ threads c → holds p = false).
Proof.
  intros Hr. destruct (mutex_reachable_inv n c Hr) as [Hw Ht].
  assert (Hle : tally holds (threads c) <= 1) by (rewrite Ht; unfold locked; case_match; lia).
  split.
  - intros i j p q Hi Hj Hp Hq. destruct (decide (i = j)) as [|Hij]; [done|].
    pose proof (tally_two holds _ i j p q Hi Hj Hp Hq Hij). lia.
  - split.
    + intros Hs p [i Hi]%list_elem_of_lookup. destruct (holds p) eqn:Hh; [|done].
      pose proof (tally_pos holds _ i p Hi Hh). rewrite Ht, Hs in *. unfold locked in *. simpl in *. lia.
    + intros Hall. assert (Hz : tally holds (threads c) = 0).
      { unfold tally. rewrite filter_none; [done|]. apply Forall_forall. intros p Hp. by rewrite Hall. }
      rewrite Hz in Ht. unfold locked in Ht. by case_match; bool_hyps.
Qed.

(** One thread locks, a second spins, sleeps and a third too; both sleepers
    are counted in [Contended]. *)
Definition contend (i : nat) : list move := Call i 0 :: replicate 1003 (Step i false).

Definition pile_up : list move := [Call 0 0; Step 0 false] ++ contend 1 ++ contend 2.

Lemma futex_mutex_exclusion_witness :
  ∃ c, rtc fstep (mutex_init 3) c ∧ shared c = Contended ∧
       ∀ j q, threads c !! j = Some q → holds q = true → 0%nat = j.
Proof.
  exists (MkConf Contended [MHolding; MAsleep; MAsleep]).
  assert (Hr : rtc fstep (mutex_init 3) (MkConf Contended [MHolding; MAsleep; MAsleep])).
  { assert (E : run_moves pile_up (mutex_init 3) = Some (MkConf Contended [MHolding; MAsleep; MAsleep]))
      by (vm_compute; reflexivity).
    exact (run_moves_steps _ _ _ E). }
  split; [exact Hr|]. split; [reflexivity|]. intros j q Hj Hq.
  exact (proj1 (futex_mutex_exclusion 3 _ Hr) 0%nat j MHolding q eq_refl Hj eq_refl Hq).
Defined.

(** ** A wake-up is lost *)

(** The holder, thread 0, releases; the sleeper it wakes, thread 1, finds the
    word [Unlocked] while spinning, takes it with [Locked], and releases in
    turn. *)
Definition hand_over : list move :=
  [Call 0 0; Step 0 false; Wake 0 [1%nat]; Step 1 false; Step 1 false; Call 1 0; Step 1 false].

(** Thread 0 locks, threads 1 to [k] go to sleep behind it, and it hands over. *)
Definition lose (k : nat) : list move := [Call 0 0; Step 0 false] ++ (seq 1 k ≫= contend) ++ hand_over.

(** The mutex is unlocked and [k] threads sleep in [lock]; the others rest. *)
Definition forgotten (k m : nat) : config mpc Z :=
  MkConf Unlocked (MIdle :: MIdle :: replicate k MAsleep ++ replicate m MIdle).

(** No thread wakes without a reason. *)
Definition plain (m : move) : bool := match m with Spurious _ | Expire _ => false | _ => true end.

(** A move with which nobody wakes without a reason and nobody runs out of the
    1000 spins of [lock]. *)
Definition fast_step (c c' : config mpc Z) : Prop :=
  ∃ m, plain m = true ∧ exec m c = Some c' ∧ ∀ i b k, m = Step i b → threads c !! i = Some (MSpin k) → 0 < k.

Lemma run_moves_app ms ms' (c : config mpc Z) : run_moves (ms ++ ms') c = run_moves ms c ≫= run_moves ms'.
Proof. revert c. induction ms as [|m ms IH]; intros c; [done|]. cbn. destruct (exec m c); [apply IH|done]. Qed.

Lemma exec_length m (c c' : config mpc Z) : exec m c = Some c' → length (threads c') = length (threads c).
Proof.
  intros E%exec_lsteps. refine (rtc_invariant lstep (λ x, length (threads x) = length (threads c)) _ _ _ E eq_refl).
  intros c1 c2 (i & p & p' & _ & _ & H2) H1. by rewrite H2, length_insert.
Qed.

(** Spinning at a mutex that is held. *)
Lemma spin_down i k st l :
  st ≠ Unlocked → l !! i = Some (MSpin (Z.of_nat k)) →
  run_moves (replicate k (Step i false)) (MkConf st l) = Some (MkConf st (<[i := MSpin 0]> l)).
Proof.
  intros Hst. revert l. induction k as [|k IH]; intros l Hi; [by rewrite list_insert_id|].
  cbn [replicate run_moves exec threads shared]. rewrite Hi. cbn -[Z.of_nat Z.gtb Z.sub].
  rewrite (proj2 (Z.gtb_lt _ _)) by lia. cbn -[Z.of_nat Z.sub]. rewrite (proj2 (Z.eqb_neq st Unlocked)) by done.
  replace (Z.of_nat (S k) - 1) with (Z.of_nat k) by lia. cbn -[Z.of_nat].
  rewrite IH by (apply list_lookup_insert_eq; by eapply lookup_lt_Some). by rewrite list_insert_insert_eq.
Qed.

(** The moves of [lock] before and after the spinning, at a mutex that is held. *)
Lemma call_lock i st l : l !! i = Some MIdle → exec (Call i 0) (MkConf st l) = Some (MkConf st (<[i := MLock]> l)).
Proof. intros Hi. unfold exec. cbn [threads]. by rewrite Hi. Qed.

Lemma lock_fails i b st l :
  st ≠ Unlocked → l !! i = Some MLock → exec (Step i b) (MkConf st l) = Some (MkConf st (<[i := MSpin 1000]> l)).
Proof. intros Hst Hi. unfold exec. cbn [threads]. rewrite Hi. cbn. by rewrite (proj2 (Z.eqb_neq st Unlocked)). Qed.

Lemma lock_contends i b st l :
  st ≠ Unlocked → l !! i = Some (MSpin 0) → exec (Step i b) (MkConf st l) = Some (MkConf Contended (<[i := MWait]> l)).
Proof. intros Hst Hi. unfold exec. cbn [threads]. rewrite Hi. cbn. by rewrite (proj2 (Z.eqb_neq st Unlocked)). Qed.

Lemma lock_sleeps i b l :
  l !! i = Some MWait → exec (Step i b) (MkConf Contended l) = Some (MkConf Contended (<[i := MAsleep]> l)).
Proof. intros Hi. unfold exec. cbn [threads]. by rewrite Hi. Qed.

(** A thread that locks a mutex which is held all the while goes to sleep and
    leaves the word [Contended]. *)
Lemma contend_run i st l :
  st ≠ Unlocked → l !! i = Some MIdle → run_moves (contend i) (MkConf st l) = Some (MkConf Contended (<[i := MAsleep]> l)).
Proof.
  intros Hst Hi. pose proof (lookup_lt_Some _ _ _ Hi) as Hlen. unfold contend.
  replace (replicate 1003 (Step i false)) with ([Step i false] ++ replicate 1000 (Step i false) ++ [Step i false; Step i false]) by done.
  assert (Hlk : ∀ p, <[i := p]> l !! i = Some p) by (intros p; by apply list_lookup_insert_eq).
  rewrite app_comm_cons, run_moves_app. cbn [run_moves]. rewrite call_lock by done. cbn [mbind option_bind].
  rewrite lock_fails, list_insert_insert_eq by auto. cbn [mbind option_bind].
  rewrite run_moves_app, (spin_down i 1000), list_insert_insert_eq by auto. cbn [mbind option_bind run_moves].
  rewrite lock_contends, list_insert_insert_eq by auto. cbn [mbind option_bind].
  rewrite lock_sleeps, list_insert_insert_eq by auto. done.
Qed.

(** Threads [j] to [j + k - 1] go to sleep one after the other. *)
Lemma contend_all k m st (l : list mpc) :
  st ≠ Unlocked → st = Contended ∨ k ≠ 0%nat →
  run_moves (seq (length l) k ≫= contend) (MkConf st (l ++ replicate (k + m) MIdle)) =
    Some (MkConf Contended (l ++ replicate k MAsleep ++ replicate m MIdle)).
Proof.
  revert st l. induction k as [|k IH]; intros st l Hst Hk; [by destruct Hk as [->|]|].
  cbn [seq mbind list_bind Nat.add replicate]. rewrite run_moves_app, contend_run by (done || by apply list_lookup_middle).
  cbn [mbind option_bind].
  assert (E : <[length l := MAsleep]> (l ++ MIdle :: replicate (k + m) MIdle) = l ++ MAsleep :: replicate (k + m) MIdle)
    by (rewrite <-(Nat.add_0_r (length l)) at 1; by rewrite insert_app_r).
  rewrite E.
  replace (l ++ MAsleep :: replicate (k + m) MIdle) with ((l ++ [MAsleep]) ++ replicate (k + m) MIdle) by (by rewrite <-app_assoc).
  replace (S (length l)) with (length (l ++ [MAsleep])) by (rewrite length_app; cbn; lia).
  rewrite (IH Contended) by (done || by left). by rewrite <-app_assoc.
Qed.

(** From a mutex held with [Contended] behind which thread 1 sleeps, the hand-over
    leaves it unlocked and every other thread as it was. *)
Lemma hand_over_run l :
  run_moves hand_over (MkConf Contended (MHolding :: MAsleep :: l)) = Some (MkConf Unlocked (MIdle :: MIdle :: l)).
Proof.
  assert (Hw : wakeable 0 1 [1%nat] (MWake :: MAsleep :: l) = true).
  { unfold wakeable, sleepers. rewrite bool_decide_true by (repeat constructor; set_solver). cbn [forallb andb].
    rewrite filter_cons_False, filter_cons_True by done. cbn [length]. rewrite Z.min_l by lia. done. }
  assert (Hwake : exec (Wake 0 [1%nat]) (MkConf Unlocked (MWake :: MAsleep :: l)) = Some (MkConf Unlocked (MIdle :: MSpin 1000 :: l)))
    by (unfold exec; cbn [threads lookup list_lookup mbind option_bind]; cbn -[wakeable]; by rewrite Hw).
  change (run_moves hand_over (MkConf Contended (MHolding :: MAsleep :: l)))
    with (exec (Wake 0 [1%nat]) (MkConf Unlocked (MWake :: MAsleep :: l)) ≫=
            run_moves [Step 1 false; Step 1 false; Call 1 0; Step 1 false]).
  by rewrite Hwake.
Qed.

Lemma lose_run k m : run_moves (lose (S k)) (mutex_init (k + m + 2)) = Some (forgotten k m).
Proof.
  unfold lose, mutex_init. replace (k + m + 2)%nat with (S (S (k + m))) by lia.
  rewrite run_moves_app. change (run_moves [Call 0 0; Step 0 false] (MkConf Unlocked (replicate (S (S (k + m))) MIdle)))
    with (Some (MkConf Locked ([MHolding] ++ replicate (S k + m) MIdle))). cbn [mbind option_bind].
  rewrite run_moves_app. change 1%nat with (length [MHolding]) at 1. rewrite contend_all by (done || by right).
  cbn [mbind option_bind replicate app]. by rewrite hand_over_run.
Qed.

(** What the word and the threads are like ever after: no thread is on its way
    to sleep or to a wake, except those that sleep already. *)
Definition lively (p : mpc) : bool := match p with MWait | MAsleep | MWake => false | _ => true end.

Definition Forgotten (k : nat) (c : config mpc Z) : Prop :=
  shared c ≠ Contended ∧
  ∀ i p, threads c !! i = Some p → if decide (2 <= i < k + 2)%nat then p = MAsleep else lively p = true.

Lemma Forgotten_insert k st l i p :
  (¬ (2 <= i < k + 2)%nat) → lively p = true → Forgotten k (MkConf st l) → ∀ st', st' ≠ Contended → Forgotten k (MkConf st' (<[i := p]> l)).
Proof.
  intros Hi Hp [_ Hl] st' Hst'. split; [done|]. cbn in *. intros j q. rewrite list_lookup_insert. case_decide as E.
  - intros [= <-]. destruct E as [<- _]. by rewrite decide_False.
  - apply Hl.
Qed.

Lemma fast_step_forgotten k c c' : fast_step c c' → Forgotten k c → Forgotten k c'.
Proof.
  destruct c as [st l]. intros (m & Hp & E & Hspin) HF. pose proof HF as [Hw Hl]. cbn in Hw, Hl.
  assert (Hact : ∀ i p, l !! i = Some p → p ≠ MAsleep → ¬ (2 <= i < k + 2)%nat ∧ lively p = true).
  { intros i p Hi Hne. specialize (Hl i p Hi). by case_decide. }
  destruct m as [i b|i j|i us| |]; [| | |done|done]; cbn in E; apply bind_Some in E as (p & Hi & E).
  - destruct (Hact i p Hi) as [Hni Hlp]; [by intros ->|].
    assert (Hins : ∀ q st', lively q = true → st' ≠ Contended → Forgotten k (MkConf st' (<[i := q]> l)))
      by (intros; by eapply Forgotten_insert).
    destruct (decide (p = MIdle ∨ p = MHolding)) as [[-> | ->]|Hrest]; [by vm_compute in E..|].
    destruct p as [| | |spins| spins| | | | |]; try (by destruct Hrest; auto); cbn in E; try done.
    + destruct (st =? Unlocked); simplify_eq; by apply Hins.
    + specialize (Hspin i b spins eq_refl Hi). rewrite (proj2 (Z.gtb_lt spins 0)) in E by done. cbn in E. simplify_eq.
      apply Hins; [by case_match|done].
    + destruct (st =? Unlocked); simplify_eq; by apply Hins.
    + destruct (st =? Unlocked); simplify_eq; by apply Hins.
    + rewrite (proj2 (Z.eqb_neq st Contended)) in E by done. simplify_eq. by apply Hins.
  - destruct (Hact i p Hi) as [Hni Hlp]; [by intros ->|]. destruct (action p) as [| | | |calls] eqn:Ea; try done.
    apply bind_Some in E as (q & Hq & E). simplify_eq. eapply Forgotten_insert; try done.
    destruct (decide (p = MIdle ∨ p = MHolding)) as [[-> | ->]|Hrest].
    + change (@AtRest mpc Z [MLock; MTryLock] = AtRest calls) in Ea. injection Ea as <-. by destruct j as [|[|j]]; simplify_eq/=.
    + change (@AtRest mpc Z [MUnlock] = AtRest calls) in Ea. injection Ea as <-. by destruct j as [|j]; simplify_eq/=.
    + destruct p; try (by destruct Hrest; auto); cbn in Ea; by repeat case_match.
  - destruct (Hact i p Hi) as [Hni Hlp]; [by intros ->|].
    destruct (decide (p = MIdle ∨ p = MHolding)) as [[-> | ->]|Hrest]; [by vm_compute in E..|].
    destruct p; try (by destruct Hrest; auto); cbn in E; by repeat case_match.
Qed.

(** C40: The futex mutex loses wake-ups.  For any number [k] of threads there is a
    run, of [k + 2] threads and any number more, with no spurious wake-up in it,
    that ends with the mutex unlocked and [k] threads asleep inside [lock] while
    every other thread is done with the mutex, although every wake the code
    issues was delivered: the woken thread re-acquires with [Locked] while
    spinning, so its own [unlock] no longer sees [Contended].  From then on, as
    long as nobody wakes without a reason and nobody runs out of the 1000 spins,
    the [k] threads stay asleep, however the others lock, try to lock and unlock. *)
Theorem futex_mutex_lost_wakeup k m :
  run_moves (lose (S k)) (mutex_init (k + m + 2)) = Some (forgotten k m) ∧ Forall (λ mv, plain mv = true) (lose (S k)) ∧
  ∀ c, rtc fast_step (forgotten k m) c → ∀ i, (2 <= i < k + 2)%nat → threads c !! i = Some MAsleep.
Proof.
  split_and!; [apply lose_run| |].
  - unfold lose, contend, hand_over. rewrite !Forall_app, Forall_bind. split_and!; [by repeat constructor| |by repeat constructor].
    apply Forall_forall. intros i _. constructor; [done|]. by apply Forall_replicate.
  - intros c Hr i Hi.
    assert (HF : Forgotten k (forgotten k m)).
    { split; [done|]. cbn. intros j p. destruct j as [|[|j]]; [by intros [= <-]..|]. cbn.
      intros [Hj|[Hj Hm]]%lookup_app_Some; apply lookup_replicate in Hj || apply lookup_replicate in Hm.
      - destruct Hj as [-> Hj]. rewrite decide_True by lia. done.
      - destruct Hm as [-> Hm]. rewrite length_replicate in Hj. rewrite decide_False by lia. done. }
    assert (Hc : Forgotten k c ∧ length (threads c) = length (threads (forgotten k m))).
    { refine (rtc_invariant fast_step (λ c, Forgotten k c ∧ length (threads c) = _) _ _ _ Hr (conj HF eq_refl)).
      intros c1 c2 Hs [H1 H2]. split; [by eapply fast_step_forgotten|]. rewrite <-H2. destruct Hs as (mv & _ & E & _).
      by apply exec_length in E. }
    destruct Hc as [[_ Hc] Hlen]. destruct (threads c !! i) as [p|] eqn:Hp.
    + specialize (Hc i p Hp). rewrite decide_True in Hc by lia. by subst.
    + apply lookup_ge_None in Hp. cbn in Hlen. rewrite length_app, !length_replicate in Hlen. lia.
Qed.

(** ** The condition variable *)

(** What the FUTEX_WAIT system call reports. *)
Inductive wait_result := Woken | WaitErr (errno : Z).

Definition EINTR : Z := 4.
Definition EAGAIN : Z := 11.
Definition ETIMEDOUT : Z := 110.

(** [futex_wait_internal] on the successive results of the call; with none left
    the thread sleeps for ever. *)
Fixpoint futex_wait_internal (timed : bool) (rs : list wait_result) : outcome unit :=
  match rs with
  | [] => Hang
  | Woken :: _ => Ok tt
  | WaitErr e :: rs' =>
      if e =? EAGAIN then Ok tt
      else if negb (e =? EINTR) then Throw (SystemError e)
      else if timed then Ok tt
      else futex_wait_internal timed rs'
  end.

(** [FutexCondVar::wait_impl]: [seq] and [seq'] are the two reads of [seq_];
    the second component says whether the caller holds the mutex when the call
    ends. *)
Definition wait_impl (timed : bool) (rs : list wait_result) (seq seq' : Z) : outcome bool * bool :=
  match futex_wait_internal timed rs with
  | Ok _ => (Ok (negb (seq =? seq')), true)
  | Throw e => (Throw e, false)
  | Hang => (Hang, false)
  end.

(** The timespec of [FutexCondVar::wait_for]. *)
Definition wait_timespec (ns : Z) : Z * Z := (ns ÷ ns_per_s, Z.rem ns ns_per_s).

Definition wait_for (rs : list wait_result) (seq seq' : Z) : outcome bool * bool :=
  wait_impl true rs seq seq'.

(** A call that returns holds the mutex again; a timed wait returns only when
    woken, when the sequence had moved on, or on a signal; when the time runs
    out it throws and leaves the mutex unlocked. *)
Lemma wait_for_cases r rs seq seq' :
  wait_for (r :: rs) seq seq' =
  match r with
  | Woken => (Ok (negb (seq =? seq')), true)
  | WaitErr e => if (e =? EAGAIN) || (e =? EINTR) then (Ok (negb (seq =? seq')), true)
                 else (Throw (SystemError e), false)
  end.
Proof.
  unfold wait_for, wait_impl. destruct r as [|e]; simpl; [done|].
  destruct (e =? EAGAIN); simpl; [done|]. by destruct (e =? EINTR).
Qed.
