(* ===== verification/RecursiveMutex.v ===== *)
(** * The recursive futex mutex (src/src/recursive_mutex.cpp)

    Three shared variables ([owner_], [recursion_count_], [futex_state_]) and
    the programs of [lock], [try_lock] and [unlock] over them.  A thread
    carries its thread id and, in the program counters of calls made while it
    holds the mutex, how deep it holds it. *)

From S2P Require Import Prelude Futex.

Definition kUnlocked : Z := 0.
Definition kLocked : Z := 1.
Definition kContended : Z := 2.

Record RecursiveMutex := MkRec { owner_ : Z; recursion_count_ : Z; futex_state_ : Z }.

Definition set_owner t s := MkRec t (recursion_count_ s) (futex_state_ s).
Definition set_count n s := MkRec (owner_ s) n (futex_state_ s).
Definition set_state st s := MkRec (owner_ s) (recursion_count_ s) st.

(** The depth [d] in a program counter is the number of acquisitions the
    thread has not released. *)
Inductive rpc :=
  | RHolds (d : nat)                        (* between calls, 0: not holding *)
  | RLock (d : nat) | RInc (d : nat) | RCas | RSpin (spins : Z) | RSpinCas (spins : Z)
  | RWait | RAsleep | RSetOwner | RSetCount
  | RTryLock (d : nat) | RTryCas
  | RUnlock (d : nat) | RDec (d : nat) | RTest (d : nat) | RClear | RExchange | RWake.

Record rthread := MkT { self : Z; pc : rpc }.

Definition weak_cas (t : Z) (spurious : bool) (yes no : rpc) (s : RecursiveMutex)
  : rthread * RecursiveMutex :=
  if negb spurious && (futex_state_ s =? kUnlocked) then (MkT t yes, set_state kLocked s)
  else (MkT t no, s).

Definition strong_cas (t : Z) (yes no : rpc) (s : RecursiveMutex) : rthread * RecursiveMutex :=
  weak_cas t false yes no s.

(** [FutexRecursiveMutex::lock]. *)
Definition recursive_lock (t : Z) (p : rpc) : option (faction rthread RecursiveMutex) :=
  match p with
  | RLock d => Some (Atomic (λ _ s, (MkT t (if owner_ s =? t then RInc d else RCas), s)))
  | RInc d => Some (Atomic (λ _ s, (MkT t (RHolds (S d)), set_count (u32 (recursion_count_ s + 1)) s)))
  | RCas => Some (Atomic (λ _ s, strong_cas t RSetOwner (RSpin 1000) s))
  | RSpin k =>
      Some (if k >? 0
            then Atomic (λ _ s,
                   (MkT t (if futex_state_ s =? kUnlocked then RSpinCas (k - 1) else RSpin (k - 1)), s))
            else Atomic (λ _ s,
                   (MkT t (if futex_state_ s =? kUnlocked then RSetOwner else RWait),
                    set_state kContended s)))
  | RSpinCas k => Some (Atomic (λ b s, weak_cas t b RSetOwner (RSpin k) s))
  | RWait => Some (FWait futex_state_ kContended (MkT t RAsleep) (MkT t (RSpin 1000)))
  | RAsleep => Some (Asleep 0 (MkT t (RSpin 1000)) None)
  | RSetOwner => Some (Atomic (λ _ s, (MkT t RSetCount, set_owner t s)))
  | RSetCount => Some (Atomic (λ _ s, (MkT t (RHolds 1), set_count 1 s)))
  | _ => None
  end.

(** [FutexRecursiveMutex::try_lock]; a success goes on like that of [lock]. *)
Definition recursive_try_lock (t : Z) (p : rpc) : option (faction rthread RecursiveMutex) :=
  match p with
  | RTryLock d => Some (Atomic (λ _ s, (MkT t (if owner_ s =? t then RInc d else RTryCas), s)))
  | RTryCas => Some (Atomic (λ _ s, strong_cas t RSetOwner (RHolds 0) s))
  | _ => None
  end.

(** [FutexRecursiveMutex::unlock]; by a thread that is not the owner it throws
    [logic_error], which leaves the mutex alone. *)
Definition recursive_unlock (t : Z) (p : rpc) : option (faction rthread RecursiveMutex) :=
  match p with
  | RUnlock d => Some (Atomic (λ _ s, (MkT t (if owner_ s =? t then RDec d else RHolds d), s)))
  | RDec d => Some (Atomic (λ _ s, (MkT t (RTest d), set_count (u32 (recursion_count_ s - 1)) s)))
  | RTest d =>
      Some (Atomic (λ _ s, (MkT t (if recursion_count_ s >? 0 then RHolds (pred d) else RClear), s)))
  | RClear => Some (Atomic (λ _ s, (MkT t RExchange, set_owner 0 s)))
  | RExchange =>
      Some (Atomic (λ _ s, (MkT t (if futex_state_ s =? kContended then RWake else RHolds 0),
                            set_state kUnlocked s)))
  | RWake => Some (FWake 0 1 (MkT t (RHolds 0)))
  | _ => None
  end.

(** [recursion_depth], read by thread [t]. *)
Definition recursion_depth (t : Z) (s : RecursiveMutex) : Z :=
  if owner_ s =? t then recursion_count_ s else 0.

(** Between calls a thread may unlock, and lock unless its depth has reached
    the range of the counter. *)
Definition calls_at (t : Z) (d : nat) : list rthread :=
  MkT t (RUnlock d) ::
  (if Z.of_nat d <? 2 ^ 32 - 1 then [MkT t (RLock d); MkT t (RTryLock d)] else []).

#[export] Instance recursive_prog : FutexProg rthread RecursiveMutex := λ p,
  match recursive_lock (self p) (pc p) with
  | Some a => a
  | None =>
      match recursive_try_lock (self p) (pc p) with
      | Some a => a
      | None =>
          match recursive_unlock (self p) (pc p) with
          | Some a => a
          | None => match pc p with RHolds d => AtRest (calls_at (self p) d) | _ => AtRest [] end
          end
      end
  end.

(** Threads with ids 1 to [n] at a fresh mutex. *)
Definition recursive_init (n : nat) : config rthread RecursiveMutex :=
  MkConf (MkRec 0 0 kUnlocked) ((λ i, MkT (Z.of_nat i + 1) (RHolds 0)) <$> seq 0 n).

(** ** The invariant *)

(** The thread has taken [futex_state_] and not given it back. *)
Definition holds (p : rthread) : bool :=
  match pc p with
  | RHolds d | RLock d | RTryLock d | RUnlock d => Nat.ltb 0 d
  | RInc _ | RSetOwner | RSetCount | RDec _ | RTest _ | RClear | RExchange => true
  | _ => false
  end.

(** [owner_] names it. *)
Definition owns (p : rthread) : bool :=
  match pc p with RSetOwner | RExchange => false | _ => holds p end.

(** The value of [recursion_count_] while the thread owns the mutex. *)
Definition count_of (p : rthread) : option Z :=
  match pc p with
  | RHolds (S d) | RLock (S d) | RTryLock (S d) | RUnlock (S d) => Some (Z.of_nat (S d))
  | RInc d | RDec d => Some (Z.of_nat d)
  | RTest d => Some (Z.of_nat d - 1)
  | RClear => Some 0
  | _ => None
  end.

(** Depths stay in the range the program counter needs. *)
Definition depth_ok (p : rthread) : Prop :=
  match pc p with
  | RInc d => (0 < d)%nat ∧ Z.of_nat d < 2 ^ 32 - 1
  | RLock d | RTryLock d => Z.of_nat d < 2 ^ 32 - 1
  | RDec d | RTest d => (0 < d)%nat ∧ Z.of_nat d < 2 ^ 32
  | RHolds d | RUnlock d => Z.of_nat d < 2 ^ 32
  | _ => True
  end.

Definition locked (st : Z) : Z := if st =? kUnlocked then 0 else 1.

Definition word_ok (st : Z) : Prop := st = kUnlocked ∨ st = kLocked ∨ st = kContended.

Record RecInv (c : config rthread RecursiveMutex) : Prop := {
  ri_word : word_ok (futex_state_ (shared c));
  ri_tally : tally holds (threads c) = locked (futex_state_ (shared c));
  ri_self : ∀ i p, threads c !! i = Some p → self p = Z.of_nat i + 1;
  ri_owner : ∀ i p, threads c !! i = Some p → (owns p = true ↔ owner_ (shared c) = self p);
  ri_count : ∀ i p n, threads c !! i = Some p → count_of p = Some n → recursion_count_ (shared c) = n;
  ri_depth : ∀ i p, threads c !! i = Some p → depth_ok p
}.

(** What one thread's move does, from the facts about that thread alone. *)
Lemma recursive_local p s p' s' :
  local_step p s p' s' → word_ok (futex_state_ s) → 0 < self p →
  (owns p = true ↔ owner_ s = self p) →
  (∀ n, count_of p = Some n → recursion_count_ s = n) → depth_ok p →
  (holds p = true → futex_state_ s ≠ kUnlocked) →
  (self p' = self p ∧ word_ok (futex_state_ s') ∧
   Z.b2z (holds p') - Z.b2z (holds p) = locked (futex_state_ s') - locked (futex_state_ s)) ∧
  (owns p' = true ↔ owner_ s' = self p) ∧
  (∀ n, count_of p' = Some n → recursion_count_ s' = n) ∧ depth_ok p' ∧
  (owner_ s' = owner_ s ∨ owner_ s' = self p ∨ owner_ s' = 0) ∧
  (holds p = false → owner_ s' = owner_ s ∧ recursion_count_ s' = recursion_count_ s).
Proof.
  intros Hl Hw Hpos Ho Hc Hd Hh. destruct p as [t q].
  inversion Hl as [? ? f b Ha|? ? ? ? ? ? Ha|? ? ? ? ? Ha|? ? ? ? ? Ha|? ? ? ? ? Ha|? ? ? ? Ha Hin]; subst; clear Hl.
  all: destruct q as [[|d]|[|d]|d| |?|?| | | | |[|d]| |[|d]|d|d| | |]; hnf_action Ha; cbn [self pc] in *;
    try discriminate Ha; try (case_match; try discriminate Ha); injection Ha; clear Ha; intros; subst.
  all: try (unfold calls_at in Hin; case_match; bool_hyps;
    repeat (apply elem_of_cons in Hin as [Hin|Hin]); subst; try (by apply elem_of_nil in Hin)).
  all: unfold owns, holds, count_of, depth_ok, strong_cas, weak_cas, locked, word_ok, kUnlocked, kLocked, kContended,
    set_owner, set_count, set_state in *; cbn [self pc fst snd Nat.ltb Nat.leb Z.b2z pred] in *.
  all: try (specialize (Hc _ eq_refl)).
  all: try (specialize (Hh eq_refl)).
  all: try match goal with s : RecursiveMutex |- _ => destruct s as [ow cnt st]; cbn in * end.
  all: repeat (case_match; bool_hyps; cbn in *; simplify_eq); try lia.
  all: try (unfold u32, wrap; rewrite Z.mod_small by lia).
  all: try (split_and!; intros; simplify_eq; try done; try tauto; lia).
Qed.

Lemma recursive_local_inv s l i p p' s' :
  RecInv (MkConf s l) → l !! i = Some p → local_step p s p' s' →
  RecInv (MkConf s' (<[i := p']> l)).
Proof.
  intros [Hw Ht Hs Ho Hc Hd] Hp Hl. simpl in *.
  destruct (recursive_local p s p' s' Hl Hw) as ((Hse & Hw' & Hb) & Ho' & Hc' & Hd' & Hfr & Hun).
  { rewrite (Hs _ _ Hp). lia. }
  { by apply (Ho i). }
  { intros n. by apply (Hc i). }
  { by apply (Hd i). }
  { intros Hh Hz. pose proof (tally_pos holds l i p Hp Hh). rewrite Hz in Ht. unfold locked in Ht. simpl in Ht. lia. }
  assert (Hsolo : ∀ j q, l !! j = Some q → i ≠ j → holds q = true → holds p = false).
  { intros j q Hj Hij Hq. destruct (holds p) eqn:Hh; [|done].
    pose proof (tally_two holds l i j p q Hp Hj Hh Hq Hij). rewrite Ht in *. unfold locked in *. case_match; lia. }
  assert (Hown : ∀ q, owns q = true → holds q = true) by (intros [? []]; cbn; done).
  assert (Hcnt : ∀ q n, count_of q = Some n → depth_ok q → holds q = true).
  { intros [? q]. destruct q as [[|?]|[|?]|?| |?|?| | | | |[|?]| |[|?]|?|?| | |]; cbn; naive_solver. }
  split; simpl.
  - done.
  - rewrite (tally_insert _ _ _ _ p' Hp). lia.
  - intros j q [(-> & <- & _)|[Hij Hj]]%list_lookup_insert_Some; [by rewrite Hse; apply Hs|by apply Hs].
  - intros j q [(-> & <- & _)|[Hij Hj]]%list_lookup_insert_Some; [by rewrite Hse|].
    rewrite (Ho j q Hj). pose proof (Hs _ _ Hp). pose proof (Hs _ _ Hj).
    destruct (owns q) eqn:Hq.
    + destruct (Hun (Hsolo _ _ Hj Hij (Hown _ Hq))) as [-> _]. done.
    + assert (owner_ s ≠ self q) by (intros E; apply (Ho j q Hj) in E; congruence).
      split; intros; destruct Hfr as [Hf|[Hf|Hf]]; rewrite ?Hf in *; try done; lia.
  - intros j q n [(-> & <- & _)|[Hij Hj]]%list_lookup_insert_Some Hn; [by apply Hc'|].
    destruct (Hun (Hsolo _ _ Hj Hij (Hcnt _ _ Hn (Hd _ _ Hj)))) as [_ ->]. by eapply Hc.
  - intros j q [(-> & <- & _)|[Hij Hj]]%list_lookup_insert_Some; [done|by eapply Hd].
Qed.

Lemma recursive_init_inv n : RecInv (recursive_init n).
Proof.
  assert (Hl : ∀ i p, threads (recursive_init n) !! i = Some p → p = MkT (Z.of_nat i + 1) (RHolds 0)).
  { intros i p Hp. apply list_lookup_fmap_Some in Hp as (k & -> & Hk). by apply lookup_seq in Hk as [-> _]. }
  split.
  - by left.
  - unfold tally. rewrite filter_none; [done|]. apply Forall_lookup. intros i p ->%Hl. done.
  - by intros i p ->%Hl.
  - intros i p ->%Hl. cbn. split; [done|lia].
  - intros i p m ->%Hl. done.
  - intros i p ->%Hl. done.
Qed.

Lemma recursive_reachable_inv n c : rtc fstep (recursive_init n) c → RecInv c.
Proof.
  intros Hr. refine (fstep_invariant RecInv _ _ _ Hr (recursive_init_inv n)).
  intros s l i p p' s'. apply recursive_local_inv.
Qed.

(** The recursive mutex excludes other threads and counts exactly: in every
    interleaving at most one thread holds it, and for a thread between calls
    [recursion_depth] is the number of its locks and successful tries that it
    has not unlocked, 0 for a thread that does not hold it. *)
Theorem recursive_mutex_depth n c :
  rtc fstep (recursive_init n) c →
  (∀ i j p q, threads c !! i = Some p → threads c !! j = Some q →
     holds p = true → holds q = true → i = j) ∧
  (∀ i p d, threads c !! i = Some p → pc p = RHolds d →
     recursion_depth (self p) (shared c) = Z.of_nat d).
Proof.
  intros Hr. destruct (recursive_reachable_inv n c Hr) as [_ Ht _ Ho Hc _]. split.
  - intros i j p q Hi Hj Hp Hq. destruct (decide (i = j)) as [|Hij]; [done|].
    pose proof (tally_two holds _ i j p q Hi Hj Hp Hq Hij). rewrite Ht in *. unfold locked in *. case_match; lia.
  - intros i [t q] d Hp Hq. cbn in Hq. subst q. pose proof (Ho _ _ Hp) as Hop. cbn in Hop.
    unfold recursion_depth. cbn. destruct d as [|d]; cbn in Hop.
    + destruct (Z.eqb_spec (owner_ (shared c)) t) as [E|]; [|done]. by apply Hop in E.
    + rewrite (proj1 Hop eq_refl), Z.eqb_refl. by rewrite (Hc _ _ _ Hp eq_refl).
Qed.

(** Thread 1 locks twice; thread 2 tries and fails. *)
Definition nested : list move :=
  [Call 0 1; Step 0 false; Step 0 false; Step 0 false; Step 0 false;
   Call 0 2; Step 0 false; Step 0 false; Call 1 2; Step 1 false; Step 1 false].

Lemma recursive_mutex_depth_witness :
  ∃ c, rtc fstep (recursive_init 2) c ∧ recursion_depth 1 (shared c) = 2 ∧
       recursion_depth 2 (shared c) = 0.
Proof.
  exists (MkConf (MkRec 1 2 kLocked) [MkT 1 (RHolds 2); MkT 2 (RHolds 0)]).
  assert (E : run_moves nested (recursive_init 2)
    = Some (MkConf (MkRec 1 2 kLocked) [MkT 1 (RHolds 2); MkT 2 (RHolds 0)])) by (vm_compute; reflexivity).
  pose proof (run_moves_steps _ _ _ E) as Hr.
  split; [exact Hr|]. destruct (recursive_mutex_depth 2 _ Hr) as [_ Hd].
  split; [exact (Hd 0%nat _ 2%nat eq_refl eq_refl)|exact (Hd 1%nat _ 0%nat eq_refl eq_refl)].
Defined.
