(* ===== verification/RwMutex.v ===== *)
(** * The futex reader-writer mutex (src/src/rw_mutex.cpp, include/pman/rw_mutex.hpp)

    The state word packs the number of readers, a writer-waiting and a
    writer-holding bit; readers and writers sleep on two sequence words. *)

From S2P Require Import Prelude Futex.

Definition kWriterHolding : Z := Z.shiftl 1 30.
Definition kWriterWaiting : Z := Z.shiftl 1 29.
Definition kReaderMask : Z := Z.shiftl 1 29 - 1.

Record RwMutex := MkRw { state_ : Z; writer_futex_ : Z; reader_futex_ : Z }.

Definition set_state st s := MkRw st (writer_futex_ s) (reader_futex_ s).
Definition bump_writer s := MkRw (state_ s) (i32 (writer_futex_ s + 1)) (reader_futex_ s).
Definition bump_reader s := MkRw (state_ s) (writer_futex_ s) (i32 (reader_futex_ s + 1)).

Definition reader_word : nat := 0.
Definition writer_word : nat := 1.

(** Some writer holds or waits. *)
Definition writer_bits (st : Z) : bool := negb (Z.land st (Z.lor kWriterHolding kWriterWaiting) =? 0).

Inductive wpc :=
  | WIdle | WReading | WWriting
  | SLoad | SCas (st : Z) | SSeq | SCheck (seq : Z) | SWait (seq : Z) | SAsleep          (* lock_shared *)
  | TSLoad | TSTest (st : Z)                                                             (* try_lock_shared *)
  | USub | UBump | UWake                                                                 (* unlock_shared *)
  | LLoad | LCas | LOr | LSeq | LCheck (seq : Z) | LWait (seq : Z) | LAsleep | LTake     (* lock *)
  | TLock                                                                                (* try_lock *)
  | ULStore | ULBumpR | ULWakeR | ULBumpW | ULWakeW                                      (* unlock *)
  | TUpgrade                                                                             (* try_upgrade *)
  | DStore | DBumpR | DWakeR.                                                            (* downgrade *)

#[export] Instance wpc_eq_dec : EqDecision wpc.
Proof. solve_decision. Defined.

(** [lock_shared]. *)
Definition rw_lock_shared (p : wpc) : option (faction wpc RwMutex) :=
  match p with
  | SLoad => Some (Atomic (λ _ s, (if writer_bits (state_ s) then SSeq else SCas (state_ s), s)))
  | SCas st =>
      Some (Atomic (λ b s, if negb b && (state_ s =? st) then (WReading, set_state (st + 1) s)
                           else (SLoad, s)))
  | SSeq => Some (Atomic (λ _ s, (SCheck (reader_futex_ s), s)))
  | SCheck seq => Some (Atomic (λ _ s, (if writer_bits (state_ s) then SWait seq else SLoad, s)))
  | SWait seq => Some (FWait reader_futex_ seq SAsleep SLoad)
  | SAsleep => Some (Asleep reader_word SLoad None)
  | _ => None
  end.

(** [try_lock_shared]; a failed exchange leaves the current word in [state]. *)
Definition rw_try_lock_shared (p : wpc) : option (faction wpc RwMutex) :=
  match p with
  | TSLoad => Some (Atomic (λ _ s, (TSTest (state_ s), s)))
  | TSTest st =>
      Some (Atomic (λ b s, if writer_bits st then (WIdle, s)
                           else if negb b && (state_ s =? st) then (WReading, set_state (st + 1) s)
                           else (TSTest (state_ s), s)))
  | _ => None
  end.

(** [unlock_shared]. *)
Definition rw_unlock_shared (p : wpc) : option (faction wpc RwMutex) :=
  match p with
  | USub =>
      Some (Atomic (λ _ s,
        let prev := state_ s in
        let readers := Z.land prev kReaderMask - 1 in
        (if (readers =? 0) && negb (Z.land prev kWriterWaiting =? 0) then UBump else WIdle,
         set_state (prev - 1) s)))
  | UBump => Some (Atomic (λ _ s, (UWake, bump_writer s)))
  | UWake => Some (FWake writer_word 1 WIdle)
  | _ => None
  end.

(** [lock]; the weak exchange at [LCas] goes back to the load when it fails. *)
Definition rw_lock (p : wpc) : option (faction wpc RwMutex) :=
  match p with
  | LLoad =>
      Some (Atomic (λ _ s,
        (if state_ s =? 0 then LCas
         else if Z.land (state_ s) kWriterWaiting =? 0 then LOr else LSeq, s)))
  | LCas =>
      Some (Atomic (λ b s, if negb b && (state_ s =? 0) then (WWriting, set_state kWriterHolding s)
                           else (LLoad, s)))
  | LOr => Some (Atomic (λ _ s, (LSeq, set_state (Z.lor (state_ s) kWriterWaiting) s)))
  | LSeq => Some (Atomic (λ _ s, (LCheck (writer_futex_ s), s)))
  | LCheck seq =>
      Some (Atomic (λ _ s,
        (if negb (Z.land (state_ s) kReaderMask =? 0) || negb (Z.land (state_ s) kWriterHolding =? 0)
         then LWait seq else LTake, s)))
  | LWait seq => Some (FWait writer_futex_ seq LAsleep LLoad)
  | LAsleep => Some (Asleep writer_word LLoad None)
  | LTake =>
      Some (Atomic (λ _ s, if state_ s =? kWriterWaiting then (WWriting, set_state kWriterHolding s)
                           else (LLoad, s)))
  | _ => None
  end.

Definition rw_try_lock (p : wpc) : option (faction wpc RwMutex) :=
  match p with
  | TLock => Some (Atomic (λ _ s, if state_ s =? 0 then (WWriting, set_state kWriterHolding s)
                                  else (WIdle, s)))
  | _ => None
  end.

Definition rw_unlock (p : wpc) : option (faction wpc RwMutex) :=
  match p with
  | ULStore => Some (Atomic (λ _ s, (ULBumpR, set_state 0 s)))
  | ULBumpR => Some (Atomic (λ _ s, (ULWakeR, bump_reader s)))
  | ULWakeR => Some (FWake reader_word wake_all ULBumpW)
  | ULBumpW => Some (Atomic (λ _ s, (ULWakeW, bump_writer s)))
  | ULWakeW => Some (FWake writer_word 1 WIdle)
  | _ => None
  end.

Definition rw_try_upgrade (p : wpc) : option (faction wpc RwMutex) :=
  match p with
  | TUpgrade => Some (Atomic (λ _ s, if state_ s =? 1 then (WWriting, set_state kWriterHolding s)
                                     else (WReading, s)))
  | _ => None
  end.

Definition rw_downgrade (p : wpc) : option (faction wpc RwMutex) :=
  match p with
  | DStore => Some (Atomic (λ _ s, (DBumpR, set_state 1 s)))
  | DBumpR => Some (Atomic (λ _ s, (DWakeR, bump_reader s)))
  | DWakeR => Some (FWake reader_word wake_all WReading)
  | _ => None
  end.

Definition rw_rest (p : wpc) : faction wpc RwMutex :=
  match p with
  | WReading => AtRest [USub; TUpgrade]
  | WWriting => AtRest [ULStore; DStore]
  | _ => AtRest [SLoad; TSLoad; LLoad; TLock]
  end.

#[export] Instance rw_prog : FutexProg wpc RwMutex := λ p,
  default (rw_rest p)
    (union (rw_lock_shared p) (union (rw_try_lock_shared p) (union (rw_unlock_shared p)
    (union (rw_lock p) (union (rw_try_lock p) (union (rw_unlock p)
    (union (rw_try_upgrade p) (rw_downgrade p)))))))).

Definition rw_init (n : nat) : config wpc RwMutex := MkConf (MkRw 0 0 0) (replicate n WIdle).

(** ** Readers and writers *)

(** Counted in the reader bits: from the increment to the decrement; a
    downgraded writer from its store on. *)
Definition reads (p : wpc) : bool :=
  match p with WReading | USub | TUpgrade | DBumpR | DWakeR => true | _ => false end.

Definition writes (p : wpc) : bool :=
  match p with WWriting | ULStore | DStore => true | _ => false end.

(** The word: readers, plus the two writer bits. *)
Definition rw_word (st r w : Z) : Prop :=
  0 <= r < 2 ^ 29 ∧ (∃ ww, (ww = 0 ∨ ww = 1) ∧ st = r + 2 ^ 29 * ww + 2 ^ 30 * w) ∧
  (w = 0 ∨ w = 1 ∧ r = 0).

Definition RwInv (c : config wpc RwMutex) : Prop :=
  Z.of_nat (length (threads c)) + 1 < 2 ^ 29 ∧
  rw_word (state_ (shared c)) (tally reads (threads c)) (tally writes (threads c)).

Lemma rw_word_bits st r w ww :
  0 <= r < 2 ^ 29 → (ww = 0 ∨ ww = 1) → (w = 0 ∨ w = 1) → st = r + 2 ^ 29 * ww + 2 ^ 30 * w →
  Z.land st kReaderMask = r ∧ Z.land st kWriterWaiting = 2 ^ 29 * ww ∧
  Z.land st (Z.lor kWriterHolding kWriterWaiting) = 2 ^ 29 * ww + 2 ^ 30 * w ∧
  Z.lor st kWriterWaiting = r + 2 ^ 29 + 2 ^ 30 * w.
Proof.
  intros Hr Hww Hw ->.
  assert (Hlow : ∀ h, Z.land r (Z.shiftl h 29) = 0 ∧ r + Z.shiftl h 29 = Z.lor r (Z.shiftl h 29)).
  { intros h. assert (Hl : Z.land r (Z.shiftl h 29) = 0).
    { apply Z.bits_inj'. intros n Hn. rewrite Z.land_spec, Z.bits_0.
      destruct (Z.lt_ge_cases n 29).
      - rewrite (Z.shiftl_spec_low h 29 n) by lia. apply andb_false_r.
      - destruct (Z.eq_dec r 0) as [->|]; [by rewrite Z.bits_0|].
        rewrite (Z.bits_above_log2 r n); [done|lia|]. apply Z.log2_lt_pow2; [lia|].
        apply Z.lt_le_trans with (2 ^ 29); [lia|]. apply Z.pow_le_mono_r; lia. }
    split; [done|]. rewrite <- (Z.add_lor_land r), Hl. lia. }
  replace (r + 2 ^ 29 * ww + 2 ^ 30 * w) with (r + Z.shiftl (ww + 2 * w) 29)
    by (rewrite Z.shiftl_mul_pow2 by lia; lia).
  rewrite (proj2 (Hlow (ww + 2 * w))).
  assert (Hor : Z.lor (Z.lor r (Z.shiftl (ww + 2 * w) 29)) kWriterWaiting = r + 2 ^ 29 + 2 ^ 30 * w).
  { rewrite <- Z.lor_assoc.
    replace (Z.lor (Z.shiftl (ww + 2 * w) 29) kWriterWaiting) with (Z.shiftl (1 + 2 * w) 29)
      by (by destruct Hww as [->| ->], Hw as [->| ->]).
    rewrite <- (proj2 (Hlow (1 + 2 * w))), Z.shiftl_mul_pow2 by lia. lia. }
  assert (Hmask : Z.land r kReaderMask = r).
  { unfold kReaderMask. change (Z.shiftl 1 29 - 1) with (Z.ones 29). rewrite Z.land_ones by lia.
    by apply Z.mod_small. }
  rewrite !Z.land_lor_distr_l, Hmask, Hor.
  assert (Hz : Z.land r kWriterWaiting = 0 ∧ Z.land r (Z.lor kWriterHolding kWriterWaiting) = 0).
  { split; [apply (Hlow 1)|]. change (Z.lor kWriterHolding kWriterWaiting) with (Z.shiftl 3 29).
    apply (Hlow 3). }
  destruct Hz as [-> ->]. rewrite !Z.lor_0_l.
  destruct Hww as [->| ->], Hw as [->| ->]; cbn; rewrite ?Z.lor_0_r; done.
Qed.

(** Without writer bits only readers are counted. *)
Lemma rw_word_readers st r w : rw_word st r w → writer_bits st = false → st = r ∧ w = 0.
Proof.
  intros (Hr & (ww & Hww & ->) & Hw) Hb.
  destruct (rw_word_bits (r + 2 ^ 29 * ww + 2 ^ 30 * w) r w ww) as (_ & _ & Hl & _);
    [done|done|lia|done|].
  unfold writer_bits in Hb. rewrite Hl in Hb. bool_hyps. lia.
Qed.

Lemma rw_word_or st r w : rw_word st r w → rw_word (Z.lor st kWriterWaiting) r w.
Proof.
  intros (Hr & (ww & Hww & ->) & Hw).
  destruct (rw_word_bits (r + 2 ^ 29 * ww + 2 ^ 30 * w) r w ww) as (_ & _ & _ & Hl);
    [done|done|lia|done|].
  rewrite Hl. split_and!; [lia|lia|exists 1; lia|done].
Qed.

(** The words remembered for an exchange had no writer bits. *)
Definition cas_ok (p : wpc) : bool :=
  match p with SCas st => negb (writer_bits st) | _ => true end.

(** One thread's move, seen from the word and the two counts. *)
Lemma rw_local p s p' s' r w :
  local_step p s p' s' → rw_word (state_ s) r w → r + 1 < 2 ^ 29 →
  Z.b2z (reads p) <= r → Z.b2z (writes p) <= w → cas_ok p = true →
  rw_word (state_ s') (r + Z.b2z (reads p') - Z.b2z (reads p))
    (w + Z.b2z (writes p') - Z.b2z (writes p)) ∧ cas_ok p' = true.
Proof.
  intros Hl Hw Hr Hpr Hpw Hst. local_cases Hl.
  all: repeat match goal with
       | |- context [if ?b then _ else _] => destruct b eqn:?
       end; cbn [reads writes Z.b2z fst snd cas_ok state_ set_state bump_reader bump_writer] in *; bool_hyps; subst.
  all: rewrite ?Z.add_0_r, ?Z.sub_0_r.
  all: try (split; [exact Hw|done]).
  all: try (split; [exact Hw|by apply negb_true_iff]).
  all: try (split; [by apply rw_word_or|done]).
  all: split; [|done].
  all: try match goal with H : writer_bits _ = false |- _ => apply (rw_word_readers _ _ _ Hw) in H end.
  all: assert (kWriterHolding = 2 ^ 30) by reflexivity; assert (kWriterWaiting = 2 ^ 29) by reflexivity.
  all: destruct Hw as (? & (ww & ? & E) & ?).
  all: split; [lia|]; split; [|lia]; try (exists ww; lia).
  all: exists 0; lia.
Qed.

Definition RwInvAll (c : config wpc RwMutex) : Prop :=
  RwInv c ∧ ∀ i p, threads c !! i = Some p → cas_ok p = true.

Lemma rw_local_inv s l i p p' s' :
  RwInvAll (MkConf s l) → l !! i = Some p → local_step p s p' s' →
  RwInvAll (MkConf s' (<[i := p']> l)).
Proof.
  intros [[Hlen Hw] Hc] Hp Hl. simpl in *.
  assert (Hpr : Z.b2z (reads p) <= tally reads l).
  { destruct (reads p) eqn:E; [by eapply tally_pos|apply tally_nonneg]. }
  assert (Hpw : Z.b2z (writes p) <= tally writes l).
  { destruct (writes p) eqn:E; [by eapply tally_pos|apply tally_nonneg]. }
  destruct (rw_local p s p' s' (tally reads l) (tally writes l) Hl Hw) as [Hw' Hc'];
    [|done|done|by eapply Hc|].
  { pose proof (tally_le_length reads l). lia. }
  split.
  - split; simpl; [by rewrite length_insert|]. rewrite !(tally_insert _ _ _ _ p' Hp).
    replace (tally reads l - Z.b2z (reads p) + Z.b2z (reads p'))
      with (tally reads l + Z.b2z (reads p') - Z.b2z (reads p)) by lia.
    replace (tally writes l - Z.b2z (writes p) + Z.b2z (writes p'))
      with (tally writes l + Z.b2z (writes p') - Z.b2z (writes p)) by lia. done.
  - intros j q [(-> & <- & _)|[Hij Hj]]%list_lookup_insert_Some; [done|by eapply Hc].
Qed.

Lemma rw_reachable_inv n c :
  Z.of_nat n < 2 ^ 29 - 1 → rtc fstep (rw_init n) c → RwInvAll c.
Proof.
  intros Hn Hr. refine (fstep_invariant RwInvAll _ _ _ Hr _).
  - intros s l i p p' s'. apply rw_local_inv.
  - split; [split; simpl|].
    + rewrite length_replicate. lia.
    + rewrite !tally_replicate by done. split_and!; [lia|lia|exists 0; lia|by left].
    + intros i p Hp. simpl in Hp. by apply lookup_replicate in Hp as [-> _].
Qed.

(** C17: The reader-writer mutex excludes: in every interleaving of fewer than
    2^29 - 1 threads that lock, try, unlock, upgrade and downgrade, a thread
    that writes is alone, that is, no other thread reads or writes, and the
    reader bits of the word are exactly the number of readers. *)
Theorem rw_mutex_exclusion n c :
  Z.of_nat n < 2 ^ 29 - 1 → rtc fstep (rw_init n) c →
  Z.land (state_ (shared c)) kReaderMask = tally reads (threads c) ∧
  ∀ i p, threads c !! i = Some p → writes p = true →
    ∀ j q, threads c !! j = Some q → j ≠ i → reads q = false ∧ writes q = false.
Proof.
  intros Hn Hr. destruct (rw_reachable_inv n c Hn Hr) as [[_ (Hr' & (ww & Hww & E) & Hw)] _].
  split; [by eapply rw_word_bits; [..|exact E]; [|lia..]|].
  intros i p Hi Hp j q Hj Hij. pose proof (tally_pos writes _ i p Hi Hp).
  split.
  - destruct (reads q) eqn:Hq; [|done]. pose proof (tally_pos reads _ j q Hj Hq). lia.
  - destruct (writes q) eqn:Hq; [|done].
    pose proof (tally_two writes _ j i q p Hj Hi Hq Hp Hij). lia.
Qed.

(** Thread 0 locks; thread 1 announces itself and sleeps. *)
Definition writer_queues : list move :=
  [Call 0 2; Step 0 false; Step 0 false;
   Call 1 2; Step 1 false; Step 1 false; Step 1 false; Step 1 false; Step 1 false].

Lemma rw_mutex_exclusion_witness :
  ∃ c, rtc fstep (rw_init 2) c ∧ threads c = [WWriting; LAsleep] ∧
       Z.land (state_ (shared c)) kReaderMask = tally reads (threads c).
Proof.
  exists (MkConf (MkRw (2 ^ 29 + 2 ^ 30) 0 0) [WWriting; LAsleep]).
  assert (E : run_moves writer_queues (rw_init 2)
    = Some (MkConf (MkRw (2 ^ 29 + 2 ^ 30) 0 0) [WWriting; LAsleep])) by (vm_compute; reflexivity).
  pose proof (run_moves_steps _ _ _ E) as Hr. split; [exact Hr|]. split; [reflexivity|].
  apply (rw_mutex_exclusion 2 _ ltac:(lia) Hr).
Defined.

(** The writer downgrades, wakes the readers (there are none) and releases its
    read lock. *)
Definition downgrade_release : list move :=
  [Call 0 1; Step 0 false; Step 0 false; Wake 0 []; Call 0 0; Step 0 false].

Definition rw_stuck : config wpc RwMutex := MkConf (MkRw 0 0 1) [WIdle; LAsleep].

(** [downgrade] loses a waiting writer: it stores 1 over the
    writer-waiting bit, so the last reader's release sees no writer to wake.
    There is a run with no spurious wake-up after which the mutex is free, the
    only other thread has finished and the writer still sleeps in [lock]. *)
Theorem rw_downgrade_lost_wakeup :
  rtc fstep (rw_init 2) rw_stuck ∧ state_ (shared rw_stuck) = 0 ∧
  run_moves (writer_queues ++ downgrade_release) (rw_init 2) = Some rw_stuck ∧
  ∀ b, exec (Step 1 b) rw_stuck = None ∧ ∀ us, exec (Wake 0 us) rw_stuck = None.
Proof.
  assert (Hrun : run_moves (writer_queues ++ downgrade_release) (rw_init 2) = Some rw_stuck)
    by (vm_compute; reflexivity).
  split; [exact (run_moves_steps _ _ _ Hrun)|]. split; [reflexivity|]. split; [exact Hrun|].
  intros b. split; [reflexivity|]. intros us. reflexivity.
Qed.
