(* ===== verification/FutexSemaphore.v ===== *)
(** * Counting semaphores over a futex (src/src/semaphore.cpp,
      include/pman/semaphore.hpp, and SharedFutexSemaphore of
      src/src/shared_sync.cpp)

    Both classes run the same acquire loop over the words [count_] and
    [waiters_]; their [release] differs in one check, which is the parameter
    [checked] of the program.  A thread also carries the permits it has taken
    less those it has given, and how its last call ended. *)

From S2P Require Import Prelude Futex.

(** The [timeout] argument of [try_acquire_impl]: none, zero, positive, or one
    the kernel rejects with EINVAL. *)
Inductive wait_mode := Forever | Poll | Timed | Invalid.

#[export] Instance wait_mode_eq_dec : EqDecision wait_mode.
Proof. solve_decision. Defined.

(** [try_acquire_for]: the timespec of a duration in nanoseconds. *)
Definition timespec_of (ns : Z) : Z * Z := (ns ÷ ns_per_s, Z.rem ns ns_per_s).

Definition mode_of (ns : Z) : wait_mode :=
  let '(tv_sec, tv_nsec) := timespec_of ns in
  if (tv_sec =? 0) && (tv_nsec =? 0) then Poll
  else if (tv_sec <? 0) || (tv_nsec <? 0) then Invalid else Timed.

Record FutexSemaphore := MkSem { count_ : Z; waiters_ : Z }.

Definition set_count (n : Z) (s : FutexSemaphore) : FutexSemaphore := MkSem n (waiters_ s).
Definition add_waiters (d : Z) (s : FutexSemaphore) : FutexSemaphore :=
  MkSem (count_ s) (i32 (waiters_ s + d)).

(** The constructor. *)
Definition newSemaphore (initial_count : Z) : outcome FutexSemaphore :=
  if initial_count <? 0 then Throw InvalidArgument else Ok (MkSem initial_count 0).

(** How the last call ended. *)
Inductive sresult := NoCall | RetTrue | RetFalse | RetVoid | Threw (e : exn).

Inductive spc :=
  | SRest (r : sresult)
  | TLoad | TCas (current : Z)                                                     (* try_acquire *)
  | ALoad (m : wait_mode) | ACas (m : wait_mode) (current : Z) | AInc (m : wait_mode)
  | ARecheck (m : wait_mode) | ABack (m : wait_mode) | AWait (m : wait_mode) (current : Z)
  | AAsleep (m : wait_mode) | AWoken (m : wait_mode) | AExpired | AFailed          (* try_acquire_impl *)
  | RAdd (count : Z) | RLoad (count : Z) | RWake (n : Z).                          (* release *)

(** A thread: permits taken less permits given, and its program counter. *)
Record sthread := MkS { taken : Z; at_ : spc }.

Definition goto (t : sthread) (q : spc) : sthread := MkS (taken t) q.
Definition took (t : sthread) : sthread := MkS (taken t + 1) (SRest RetTrue).

Definition saction := faction sthread FutexSemaphore.

(** [try_acquire]; a failed exchange leaves the current count in [current]. *)
Definition try_acquire (t : sthread) : option saction :=
  match at_ t with
  | TLoad => Some (Atomic (λ _ s,
      (goto t (if count_ s >? 0 then TCas (count_ s) else SRest RetFalse), s)))
  | TCas current => Some (Atomic (λ b s,
      if negb b && (count_ s =? current) then (took t, set_count (current - 1) s)
      else (goto t (if count_ s >? 0 then TCas (count_ s) else SRest RetFalse), s)))
  | _ => None
  end.

(** After the inner loop: a zero timeout gives up, otherwise register. *)
Definition after_loop (m : wait_mode) : spc :=
  if decide (m = Poll) then SRest RetFalse else AInc m.

(** [try_acquire_impl]. *)
Definition try_acquire_impl (t : sthread) : option saction :=
  match at_ t with
  | ALoad m => Some (Atomic (λ _ s,
      (goto t (if count_ s >? 0 then ACas m (count_ s) else after_loop m), s)))
  | ACas m current => Some (Atomic (λ b s,
      if negb b && (count_ s =? current) then (took t, set_count (current - 1) s)
      else (goto t (if count_ s >? 0 then ACas m (count_ s) else after_loop m), s)))
  | AInc m => Some (Atomic (λ _ s, (goto t (ARecheck m), add_waiters 1 s)))
  | ARecheck m => Some (Atomic (λ _ s,
      (goto t (if count_ s >? 0 then ABack m else AWait m (count_ s)), s)))
  | ABack m => Some (Atomic (λ _ s, (goto t (ALoad m), add_waiters (-1) s)))
  | AWait m current =>
      Some (if decide (m = Invalid) then Atomic (λ _ s, (goto t AFailed, s))
            else FWait count_ current (goto t (AAsleep m)) (goto t (AWoken m)))
  | AAsleep m =>
      Some (Asleep 0 (goto t (AWoken m)) (if decide (m = Timed) then Some (goto t AExpired) else None))
  | AWoken m => Some (Atomic (λ _ s, (goto t (ALoad m), add_waiters (-1) s)))
  | AExpired => Some (Atomic (λ _ s, (goto t (SRest RetFalse), add_waiters (-1) s)))
  | AFailed => Some (Atomic (λ _ s, (goto t (SRest (Threw (SystemError 22))), add_waiters (-1) s)))
  | _ => None
  end.

(** [release]; only FutexSemaphore looks at the previous count. *)
Definition release (checked : bool) (t : sthread) : option saction :=
  match at_ t with
  | RAdd count => Some (Atomic (λ _ s,
      if count <=? 0 then (goto t (SRest (Threw InvalidArgument)), s)
      else
        let t' := MkS (taken t - count) (at_ t) in
        (goto t' (if checked && (count_ s <? 0) then SRest (Threw LogicError) else RLoad count),
         set_count (i32 (count_ s + count)) s)))
  | RLoad count => Some (Atomic (λ _ s,
      (goto t (if waiters_ s >? 0 then RWake (Z.min count (waiters_ s)) else SRest RetVoid), s)))
  | RWake n => Some (FWake 0 n (goto t (SRest RetVoid)))
  | _ => None
  end.

(** [count]. *)
Definition count (s : FutexSemaphore) : Z := count_ s.

(** ** The process-shared copy (src/src/shared_sync.cpp)

    [SharedFutexSemaphore] is the same code on a word in shared memory; only the
    test for a negative count in [release] is missing. *)

Definition newSharedSemaphore : Z → outcome FutexSemaphore := newSemaphore.
Definition shared_try_acquire : sthread → option saction := try_acquire.
Definition shared_try_acquire_impl : sthread → option saction := try_acquire_impl.
Definition shared_release : sthread → option saction := release false.
Definition shared_count : FutexSemaphore → Z := count.

Section semaphore.
(** Which [release] the threads run, and the counts they release. *)
Context (checked : bool) (ks : list Z).

Definition sem_calls : list spc :=
  [TLoad; ALoad Forever; ALoad Poll; ALoad Timed; ALoad Invalid] ++ (RAdd <$> ks).

#[export] Instance sem_prog : FutexProg sthread FutexSemaphore := λ t,
  match try_acquire t with
  | Some a => a
  | None =>
      match try_acquire_impl t with
      | Some a => a
      | None =>
          match release checked t with
          | Some a => a
          | None => AtRest (goto t <$> sem_calls)
          end
      end
  end.

(** [n] threads at a semaphore with [init] permits. *)
Definition sem_init (init : Z) (n : nat) : config sthread FutexSemaphore :=
  MkConf (MkSem init 0) (replicate n (MkS 0 (SRest NoCall))).

(** ** The invariant *)

(** Counted in [waiters_]. *)
Definition waiting (t : sthread) : bool :=
  match at_ t with
  | ARecheck _ | ABack _ | AWait _ _ | AAsleep _ | AWoken _ | AExpired | AFailed => true
  | _ => false
  end.

(** Calls that go on until they have a permit, unless they sleep. *)
Definition persistent (m : wait_mode) : bool := match m with Forever | Timed => true | _ => false end.

Definition awake (t : sthread) : bool :=
  match at_ t with
  | ALoad m | ACas m _ | AInc m | ARecheck m | ABack m | AWait m _ => persistent m
  | AWoken _ => true
  | _ => false
  end.

Definition asleep (t : sthread) : bool := match at_ t with AAsleep _ => true | _ => false end.

(** Wakes a thread inside [release] still owes. *)
Definition owed (t : sthread) : Z :=
  match at_ t with RLoad k => k | RWake n => n | _ => 0 end.

Definition sem_wf (t : sthread) : Prop :=
  match at_ t with
  | TCas c => 0 < c
  | ACas _ c => 0 < c
  | AInc m | ARecheck m | ABack m => m ≠ Poll
  | AWait m c => m ≠ Poll ∧ c <= 0
  | AAsleep m | AWoken m => persistent m = true
  | RLoad k | RWake k => 0 < k
  | _ => True
  end.

Definition sum_awake l := total (λ t, Z.b2z (awake t)) l.
Definition sum_asleep l := total (λ t, Z.b2z (asleep t)) l.
Definition sum_waiting l := total (λ t, Z.b2z (waiting t)) l.
Definition sum_owed l := total (λ t, Z.max 0 (owed t)) l.

(** Permits are matched by threads on their way to them, or every sleeper by a
    wake that is still to come. *)
Definition covered (s : FutexSemaphore) (l : list sthread) : Prop :=
  count_ s <= sum_awake l + sum_owed l ∨ sum_asleep l <= sum_owed l.

Definition SemInv (init : Z) (c : config sthread FutexSemaphore) : Prop :=
  Forall sem_wf (threads c) ∧ Z.of_nat (length (threads c)) < 2 ^ 31 - 1 ∧
  0 <= count_ (shared c) ∧ count_ (shared c) + total taken (threads c) = init ∧
  waiters_ (shared c) = sum_waiting (threads c) ∧ covered (shared c) (threads c).

(** No release in progress takes [count_] past INT_MAX. *)
Definition sem_room (c : config sthread FutexSemaphore) : Prop :=
  ∀ t k, t ∈ threads c → at_ t = RAdd k → count_ (shared c) + k < 2 ^ 31.

(** The calls a thread may make. *)
Lemma sem_calls_inv t p :
  p ∈ goto t <$> sem_calls →
  p = goto t (at_ p) ∧ ((∃ m, at_ p = ALoad m) ∨ at_ p = TLoad ∨ ∃ k, at_ p = RAdd k).
Proof.
  intros (q & -> & Hq)%list_elem_of_fmap. split; [done|]. unfold sem_calls in Hq. cbn [app] in Hq.
  repeat (apply elem_of_cons in Hq as [->|Hq]; [simpl; eauto|]).
  apply list_elem_of_fmap in Hq as (k & -> & _). simpl. eauto.
Qed.

(** What one move that is not a wake does. *)
Lemma sem_local p s p' s' :
  local_step p s p' s' → (∀ a n k, action p ≠ FWake a n k) → sem_wf p →
  0 <= count_ s → 0 <= waiters_ s < 2 ^ 31 - 1 → (waiting p = true → 1 <= waiters_ s) →
  (∀ k, at_ p = RAdd k → count_ s + k < 2 ^ 31) →
  sem_wf p' ∧ 0 <= count_ s' ∧ count_ s' + taken p' = count_ s + taken p ∧
  waiters_ s' = waiters_ s - Z.b2z (waiting p) + Z.b2z (waiting p') ∧
  (count_ s' - count_ s <= Z.b2z (awake p') + Z.max 0 (owed p') - Z.b2z (awake p) - Z.max 0 (owed p) ∧
     Z.b2z (asleep p') - Z.b2z (asleep p) <= Z.max 0 (owed p') - Z.max 0 (owed p)
   ∨ count_ s' = 0
   ∨ asleep p' = asleep p ∧ waiting p' = waiting p ∧ waiters_ s <= Z.max 0 (owed p')).
Proof.
  intros Hl Hnw Hwf Hc Hw Hw1 Hroom. destruct p as [tk q], s as [c w]. cbn [count_ waiters_] in *.
  inversion Hl as [? ? f b Ha|? ? ? ? ? ? Ha|? ? ? ? ? Ha|? ? ? ? ? Ha|? ? ? ? ? Ha|? ? ? ? Ha Hin];
    subst; clear Hl.
  all: try (by destruct (Hnw _ _ _ Ha)).
  all: clear Hnw; destruct q; try (match type of Ha with context [AWait ?m] => destruct m | context [AAsleep ?m] => destruct m end).
  all: hnf_action Ha; try discriminate Ha; injection Ha; clear Ha; intros; subst.
  all: try (apply sem_calls_inv in Hin as [Hp' Hq]; rewrite Hp'; clear Hp'; destruct Hq as [[m Hq]|[Hq|[k' Hq]]]; rewrite Hq; clear Hq p').
  all: unfold sem_wf, waiting, awake, asleep, owed, persistent, goto, took, after_loop, set_count, add_waiters in *;
    cbn [at_ taken count_ waiters_ fst snd] in *.
  all: try (specialize (Hw1 eq_refl)).
  all: try (specialize (Hroom _ eq_refl)).
  all: repeat (case_match; bool_hyps; cbn [at_ taken count_ waiters_ fst snd andb Z.b2z] in *; simplify_eq).
  all: rewrite ?i32_small by lia.
  all: cbn [Z.b2z] in *; split_and!; try done; try lia; tauto.
Qed.

Lemma asleep_at_sem t : asleep_at 0 t = asleep t.
Proof. destruct t as [tk []]; try reflexivity; by destruct m. Qed.

Lemma sum_asleep_tally l : sum_asleep l = tally (asleep_at 0) l.
Proof.
  rewrite <- total_tally. unfold sum_asleep. induction l as [|t l IH]; [done|].
  simpl. by rewrite IH, asleep_at_sem.
Qed.

(** Only [release] wakes, and it wakes on [count_]. *)
Lemma sem_wake_inv p addr n k :
  action p = FWake addr n k → at_ p = RWake n ∧ addr = 0%nat ∧ k = goto p (SRest RetVoid).
Proof.
  destruct p as [tk q]. intros Ha. destruct q; try (by destruct m); hnf_action Ha; try discriminate Ha.
  by simplify_eq.
Qed.

Lemma rouse_sem p :
  asleep_at 0 p = true → ∃ m, at_ p = AAsleep m ∧ rouse p = goto p (AWoken m).
Proof.
  rewrite asleep_at_sem. destruct p as [tk []]; try done. intros _. exists m. split; [done|].
  unfold rouse. by destruct m.
Qed.

Lemma sum_bounds l :
  0 <= sum_awake l ∧ 0 <= sum_owed l ∧ sum_asleep l <= sum_waiting l ∧
  0 <= sum_waiting l <= Z.of_nat (length l).
Proof.
  unfold sum_awake, sum_owed, sum_asleep, sum_waiting. split_and!.
  - apply total_nonneg. intros p. destruct (awake p); simpl; lia.
  - apply total_nonneg. intros p. lia.
  - apply total_le. intros [tk []]; simpl; lia.
  - apply total_nonneg. intros p. destruct (waiting p); simpl; lia.
  - rewrite total_tally. apply tally_le_length.
Qed.

Lemma sem_step_inv init s l i p p' s' :
  sem_room (MkConf s l) → SemInv init (MkConf s l) → l !! i = Some p → local_step p s p' s' →
  (∀ a n k, action p ≠ FWake a n k) → SemInv init (MkConf s' (<[i := p']> l)).
Proof.
  intros Hr (Hwf & Hlen & Hc & Ht & Hw & Hk) Hi Hl Hnw. cbn [shared threads] in *.
  destruct (sum_bounds l) as (Ba & Bo & Bs & Bw).
  assert (Hwp : sem_wf p) by by eapply Forall_lookup_1.
  assert (Hw1 : waiting p = true → 1 <= waiters_ s).
  { intros E. rewrite Hw. unfold sum_waiting. rewrite total_tally. by eapply tally_pos. }
  destruct (sem_local p s p' s' Hl Hnw Hwp Hc ltac:(lia) Hw1) as (Hwf' & Hc' & Ht' & Hw' & Hk').
  { intros k Hk1. apply (Hr p); [by eapply list_elem_of_lookup_2|done]. }
  unfold SemInv, covered, sum_awake, sum_owed, sum_asleep, sum_waiting in *; cbn [shared threads] in *.
  rewrite length_insert, !(total_insert _ _ _ _ p' Hi). split_and!; try lia.
  { by apply Forall_insert. }
  pose proof (tally_nonneg awake (<[i:=p']> l)) as Na. rewrite <- total_tally in Na.
  pose proof (total_pos (λ t, Z.max 0 (owed t)) (<[i:=p']> l) i p' ltac:(intros; lia)) as No.
  rewrite list_lookup_insert_eq in No by (by eapply lookup_lt_Some). specialize (No eq_refl).
  rewrite (total_insert _ _ _ _ p' Hi) in Na. rewrite (total_insert _ _ _ _ p' Hi) in No. cbv beta in *.
  destruct Hk' as [[H1 H2]|[H1|(H1 & H2 & H3)]]; [destruct Hk; lia|left; lia|]. right. rewrite H1. lia.
Qed.

Lemma sem_wake_step_inv init s l i p addr n k us :
  SemInv init (MkConf s l) → l !! i = Some p → action p = FWake addr n k →
  wakeable addr n us l = true → SemInv init (MkConf s (<[i := k]> (rouse_all us l))).
Proof.
  intros (Hwf & Hlen & Hc & Ht & Hw & Hk) Hi Ha Hus. cbn [shared threads] in *.
  destruct (sem_wake_inv p addr n k Ha) as (Hp & -> & ->).
  assert (Hn : 0 < n). { pose proof (Forall_lookup_1 _ _ _ _ Hwf Hi) as H. unfold sem_wf in H. by rewrite Hp in H. }
  pose proof (λ w d, wake_total 0 n us l i p _ w d Hi Ha Hus) as Hsum.
  pose proof (sum_asleep_tally l) as Has.
  pose proof (total_pos (λ t, Z.max 0 (owed t)) l i p ltac:(intros; lia) Hi) as Ho.
  unfold owed in Ho at 1. rewrite Hp in Ho.
  unfold SemInv, covered, sum_awake, sum_owed, sum_asleep, sum_waiting in *; cbn [shared threads] in *.
  rewrite length_insert, length_rouse_all.
  rewrite (Hsum taken 0), (Hsum (λ t, Z.b2z (waiting t)) 0), (Hsum (λ t, Z.b2z (awake t)) 1),
    (Hsum (λ t, Z.b2z (asleep t)) (-1)), (Hsum (λ t, Z.max 0 (owed t)) 0).
  all: try (intros q (m & Hq & Hr)%rouse_sem; rewrite Hr; unfold goto, waiting, awake, asleep, owed; rewrite ?Hq; simpl; lia).
  assert (waiting p = false ∧ awake p = false ∧ asleep p = false ∧ owed p = n) as (-> & -> & -> & ->)
    by (unfold waiting, awake, asleep, owed; by rewrite Hp).
  unfold goto. cbn [waiting awake asleep owed at_ taken Z.b2z]. split_and!; try lia.
  apply Forall_insert; [|done]. apply rouse_all_Forall; [|done].
  intros [tk []] H; try exact H; unfold rouse; destruct m; simpl; done.
Qed.

Lemma sem_reachable_inv init n c :
  0 <= init → Z.of_nat n < 2 ^ 31 - 1 →
  rtc (fstep_while sem_room) (sem_init init n) c → SemInv init c.
Proof.
  intros Hi Hn Hr. refine (fstep_wake_invariant sem_room (SemInv init) _ _ _ _ Hr _).
  - intros s l i p p' s'. apply sem_step_inv.
  - intros s l i p addr m k us _. apply sem_wake_step_inv.
  - assert (Hz : ∀ w, w (MkS 0 (SRest NoCall)) = 0 → total w (replicate n (MkS 0 (SRest NoCall))) = 0)
      by (intros w Hw; apply total_zero, Forall_replicate, Hw).
    unfold SemInv, covered, sum_awake, sum_owed, sum_asleep, sum_waiting, sem_init; cbn [shared threads count_ waiters_].
    rewrite length_replicate, !Hz by done. split_and!; try lia. by apply Forall_replicate.
Qed.

(** C2: The futex semaphores conserve permits and lose no wake-up: in every
    interleaving of any number of threads that acquire (blocking, polling or
    with a timeout) and release, with spurious wake-ups, the count is never
    negative and equals the initial count less the permits taken and not given
    back; and while permits are left and a thread sleeps, some thread is awake
    inside a call, so no sleeper is stranded. *)
Theorem semaphore_sound init n c :
  0 <= init → Z.of_nat n < 2 ^ 31 - 1 →
  rtc (fstep_while sem_room) (sem_init init n) c →
  0 <= count (shared c) ∧ count (shared c) = init - total taken (threads c) ∧
  (0 < count (shared c) → (∃ t, t ∈ threads c ∧ asleep t = true) →
   ∃ t, t ∈ threads c ∧ busy t = true).
Proof.
  intros Hi Hn Hr. destruct (sem_reachable_inv init n c Hi Hn Hr) as (_ & _ & Hc & Ht & _ & Hk).
  unfold count. split_and!; [lia|lia|]. intros Hpos (t & Hin & Has).
  assert (1 <= sum_asleep (threads c)) as Hs.
  { apply list_elem_of_lookup in Hin as [i Hi']. unfold sum_asleep. rewrite total_tally. by eapply tally_pos. }
  assert (0 < total (λ t, Z.b2z (awake t) + Z.max 0 (owed t)) (threads c)) as Hsum.
  { rewrite total_add. fold (sum_awake (threads c)) (sum_owed (threads c)).
    destruct (sum_bounds (threads c)) as (Ba & Bo & _). destruct Hk; lia. }
  destruct (total_exists _ _ Hsum) as (q & Hq & Hw). exists q. split; [done|].
  destruct q as [tk []]; cbn in Hw; try lia; try reflexivity; by destruct m.
Qed.

End semaphore.

(** A fresh semaphore, two threads; one blocks, the other releases two permits
    and wakes it. *)
Definition demo_prog : FutexProg sthread FutexSemaphore := sem_prog true [2].

Definition demo_moves : list move :=
  [Call 0 1; Step 0 false; Step 0 false; Step 0 false; Step 0 false;
   Call 1 5; Step 1 false; Step 1 false].

Definition demo_end : config sthread FutexSemaphore :=
  MkConf (MkSem 2 1) [MkS 0 (AAsleep Forever); MkS (-2) (RWake 1)].

(** A schedule all of whose configurations leave room for their releases. *)
Definition roomy (c : config sthread FutexSemaphore) : bool :=
  forallb (λ t, match at_ t with RAdd k => count_ (shared c) + k <? 2 ^ 31 | _ => true end) (threads c).

Lemma roomy_room c : roomy c = true → sem_room c.
Proof.
  intros H t k Ht Hk. unfold roomy in H. rewrite forallb_forall in H.
  specialize (H t (proj1 (list_elem_of_In _ _) Ht)). rewrite Hk in H. by apply Z.ltb_lt.
Qed.

Lemma semaphore_sound_witness :
  @rtc _ (@fstep_while _ _ demo_prog sem_room) (sem_init 0 2) demo_end ∧
  count (shared demo_end) = 2 ∧
  ∃ t, t ∈ threads demo_end ∧ @busy _ _ demo_prog t = true.
Proof.
  assert (Hr : @rtc _ (@fstep_while _ _ demo_prog sem_room) (sem_init 0 2) demo_end).
  { refine (@run_moves_while _ _ demo_prog roomy sem_room demo_moves _ _ roomy_room _).
    vm_compute. reflexivity. }
  split; [exact Hr|]. split; [reflexivity|].
  refine (proj2 (proj2 (semaphore_sound true [2] 0 2 demo_end ltac:(lia) ltac:(lia) Hr)) _ _);
    [vm_compute; reflexivity|].
  exists (MkS 0 (AAsleep Forever)). split; [left|reflexivity].
Defined.

(** Past INT_MAX the count wraps: the permits are gone, and the next release
    reports an underflow. *)
Lemma release_wraps t t' s :
  at_ t = RAdd 1 → at_ t' = RAdd 1 → count_ s = 2 ^ 31 - 1 →
  ∃ f f', release true t = Some (Atomic f) ∧ release true t' = Some (Atomic f') ∧
    count_ (f false s).2 = - 2 ^ 31 ∧ at_ (f false s).1 = RLoad 1 ∧
    at_ (f' false (f false s).2).1 = SRest (Threw LogicError).
Proof.
  intros Ht Ht' Hs. unfold release. rewrite Ht, Ht'. do 2 eexists. split_and!; [done|done|..].
  all: cbn; rewrite Hs; vm_compute; reflexivity.
Qed.
