(* ===== verification/Latch.v ===== *)
(** * The countdown latch (src/src/latch.cpp, include/pman/latch.hpp)

    Threads count the latch down, wait for it, or do both; the shared state is
    the counter and the futex word that sleepers watch. *)

From S2P Require Import Prelude Futex.

Record FutexLatch := MkLatch { counter_ : Z; futex_ : Z }.

(** The constructor. *)
Definition newLatch (expected : Z) : outcome FutexLatch :=
  if expected <? 0 then Throw InvalidArgument else Ok (MkLatch expected 0).

(** Program counters; the flag of [count_down] is set inside
    [arrive_and_wait], and [LDone] is the rest after a [wait] that returned. *)
Inductive lpc :=
  | LIdle | LDone | LThrew (e : exn)
  | CSub (n : Z) (then_wait : bool) | CBump (then_wait : bool) | CWake (then_wait : bool)
  | WLoad | WSeq | WCheck (seq : Z) | WWait (seq : Z) | WAsleep.

(** Where [count_down] goes when it returns. *)
Definition arrived (then_wait : bool) : lpc := if then_wait then WLoad else LIdle.

(** [count_down]. *)
Definition count_down (p : lpc) : option (faction lpc FutexLatch) :=
  match p with
  | CSub n k => Some (Atomic (λ _ s,
      if n <? 0 then (LThrew InvalidArgument, s)
      else
        let old := counter_ s in
        (if old =? n then CBump k else if old <? n then LThrew LogicError else arrived k,
         MkLatch (swrap 64 (old - n)) (futex_ s))))
  | CBump k => Some (Atomic (λ _ s, (CWake k, MkLatch (counter_ s) (i32 (futex_ s + 1)))))
  | CWake k => Some (FWake 0 wake_all (arrived k))
  | _ => None
  end.

Definition try_wait (s : FutexLatch) : bool := counter_ s <=? 0.

(** [wait]. *)
Definition wait (p : lpc) : option (faction lpc FutexLatch) :=
  match p with
  | WLoad => Some (Atomic (λ _ s, (if counter_ s <=? 0 then LDone else WSeq, s)))
  | WSeq => Some (Atomic (λ _ s, (WCheck (futex_ s), s)))
  | WCheck seq => Some (Atomic (λ _ s, (if counter_ s <=? 0 then LDone else WWait seq, s)))
  | WWait seq => Some (FWait futex_ seq WAsleep WLoad)
  | WAsleep => Some (Asleep 0 WLoad None)
  | _ => None
  end.

(** [arrive_and_wait]. *)
Definition arrive_and_wait (n : Z) : lpc := CSub n true.

Section latch.
(** The counts the threads count down by. *)
Context (ns : list Z).

Definition latch_calls : list lpc := WLoad :: ((λ n, CSub n false) <$> ns) ++ (arrive_and_wait <$> ns).

#[export] Instance latch_prog : FutexProg lpc FutexLatch := λ p,
  match count_down p with
  | Some a => a
  | None => match wait p with Some a => a | None => AtRest latch_calls end
  end.

Definition latch_init (expected : Z) (n : nat) : config lpc FutexLatch :=
  MkConf (MkLatch expected 0) (replicate n LIdle).

(** ** The invariant *)

Definition bumping (p : lpc) : bool := match p with CBump _ => true | _ => false end.
Definition waking (p : lpc) : bool := match p with CWake _ => true | _ => false end.
Definition sleeping (p : lpc) : bool := match p with WAsleep => true | _ => false end.

(** What a thread knows: a thread about to sleep expects 0; one that returned
    from [wait] saw the counter at zero, where it stays. *)
Definition latch_wf (s : FutexLatch) (b : Z) (p : lpc) : Prop :=
  match p with
  | CSub n _ => n ∈ ns
  | WCheck seq => 0 < counter_ s → seq = 0
  | WWait seq => seq = 0 ∧ (counter_ s <= 0 → b = 1 ∨ futex_ s = 1)
  | LDone => counter_ s = 0
  | _ => True
  end.

Definition LatchInv (c : config lpc FutexLatch) : Prop :=
  let s := shared c in let l := threads c in
  let b := tally bumping l in
  Z.of_nat (length l) < wake_all ∧ 0 <= counter_ s < 2 ^ 63 ∧
  0 <= futex_ s ∧ b + futex_ s <= 1 ∧ (0 < counter_ s → b + futex_ s = 0) ∧
  (1 <= tally sleeping l → counter_ s <= 0 → b = 1 ∨ 1 <= tally waking l) ∧
  Forall (latch_wf s b) l.

(** Nobody counts down past zero. *)
Definition no_underflow (c : config lpc FutexLatch) : Prop :=
  ∀ n k, CSub n k ∈ threads c → n <= counter_ (shared c).

Hypothesis ns_nonzero : 0 ∉ ns.

Lemma latch_wf_mono s s' b b' p :
  counter_ s' <= counter_ s → (counter_ s = 0 → counter_ s' = 0) →
  ((counter_ s <= 0 → b = 1 ∨ futex_ s = 1) → counter_ s' <= 0 → b' = 1 ∨ futex_ s' = 1) →
  latch_wf s b p → latch_wf s' b' p.
Proof. intros Hc Hz Hb. destruct p; simpl; try done; try lia; naive_solver lia. Qed.

Lemma latch_calls_inv p :
  p ∈ latch_calls → p = WLoad ∨ ∃ n k, p = CSub n k ∧ n ∈ ns.
Proof.
  unfold latch_calls, arrive_and_wait.
  intros [->|[(n & -> & Hn)%list_elem_of_fmap|(n & -> & Hn)%list_elem_of_fmap]%elem_of_app]%elem_of_cons;
    eauto 6.
Qed.

(** What a move that is not a wake does to the shared state and to the
    thread's own roles. *)
Lemma latch_local p s p' s' b :
  local_step p s p' s' → (∀ a n k, action p ≠ FWake a n k) → latch_wf s b p →
  (∀ n k, p = CSub n k → n <= counter_ s) →
  0 <= counter_ s < 2 ^ 63 → 0 <= futex_ s → 0 <= b → b + futex_ s <= 1 →
  (0 < counter_ s → b + futex_ s = 0) → (bumping p = true → b = 1) →
  let b' := b - Z.b2z (bumping p) + Z.b2z (bumping p') in
  0 <= counter_ s' <= counter_ s ∧ (counter_ s = 0 → counter_ s' = 0) ∧
  0 <= futex_ s' ∧ b' + futex_ s' <= 1 ∧ (0 < counter_ s' → b' + futex_ s' = 0) ∧
  (counter_ s' <= 0 → 0 < counter_ s → b' = 1) ∧
  (b = 1 → b' = 1 ∨ futex_ s' = 1 ∧ waking p' = true) ∧ (futex_ s = 1 → futex_ s' = 1) ∧
  (waking p = true → False) ∧
  (sleeping p' = true → sleeping p = true ∨ 0 < counter_ s' ∨ b = 1 ∧ b' = 1) ∧
  latch_wf s' b' p'.
Proof.
  intros Hl Hnw Hwf Hun Hc Hf Hb Hbf Hcb Hb1. destruct s as [cnt fx]; cbn [counter_ futex_] in *.
  inversion Hl as [? ? f b0 Ha|? ? ? ? ? ? Ha|? ? ? ? ? Ha|? ? ? ? ? Ha|? ? ? ? ? Ha|? ? ? ? Ha Hin]; subst; clear Hl.
  all: try (by destruct (Hnw _ _ _ Ha)).
  all: clear Hnw; destruct p; hnf_action Ha; try discriminate Ha; injection Ha; clear Ha; intros; subst.
  all: try (apply latch_calls_inv in Hin as [->|(n1 & k1 & -> & Hn1)]).
  all: try (specialize (Hb1 eq_refl)).
  all: try (specialize (Hun _ _ eq_refl)).
  all: cbn [bumping waking sleeping latch_wf counter_ futex_ fst snd Z.b2z] in *.
  all: try (assert (n ≠ 0) by congruence).
  all: repeat (case_match; bool_hyps; cbn [bumping waking sleeping latch_wf counter_ futex_ fst snd Z.b2z arrived] in *; simplify_eq).
  all: rewrite ?(swrap_small 64), ?i32_small by lia.
  all: try (match goal with |- context [arrived ?k'] => destruct k' end; cbn [arrived] in *; cbn [bumping waking sleeping latch_wf Z.b2z]).
  all: try (split_and!; intros; try done; lia).
Qed.

Lemma latch_step_inv s l i p p' s' :
  no_underflow (MkConf s l) → LatchInv (MkConf s l) → l !! i = Some p → local_step p s p' s' →
  (∀ a n k, action p ≠ FWake a n k) → LatchInv (MkConf s' (<[i := p']> l)).
Proof.
  intros Hun (Hlen & Hc & Hf & Hbf & Hcb & Hs & Hwf) Hi Hl Hnw. cbn [shared threads] in *.
  pose proof (tally_nonneg bumping l) as Hb0.
  assert (Hin : p ∈ l) by by eapply list_elem_of_lookup_2.
  destruct (latch_local p s p' s' (tally bumping l) Hl Hnw) as
    (Hc' & Hz' & Hf' & Hbf' & Hcb' & Hd' & Hb' & Hf1 & Hw' & Hs' & Hwf'); try done.
  { by eapply Forall_lookup_1. }
  { intros n k ->. by apply (Hun n k). }
  { intros Hb. pose proof (tally_pos bumping l i p Hi Hb). lia. }
  unfold LatchInv; cbn [shared threads]. rewrite length_insert.
  rewrite !(tally_insert _ _ _ _ p' Hi). split_and!; try lia.
  - intros H1 H2. pose proof (tally_nonneg waking l).
    destruct (waking p) eqn:Ewp; [done|]. cbn [Z.b2z] in *.
    destruct (Z_le_gt_dec 1 (tally sleeping l)) as [Hold|Hnew].
    + destruct (Z_le_gt_dec (counter_ s) 0); [|lia]. destruct Hs as [Hs|Hs]; [lia..| |].
      * destruct (Hb' Hs) as [?|[_ ->]]; simpl; lia.
      * destruct (waking p'); simpl; lia.
    + destruct (sleeping p') eqn:E1; cbn [Z.b2z] in *; [|destruct (sleeping p); simpl in *; lia].
      destruct (Hs' eq_refl) as [E2|[?|[? ?]]]; [|lia|lia].
      pose proof (tally_pos sleeping l i p Hi E2). lia.
  - apply Forall_insert; [|done]. eapply Forall_impl; [exact Hwf|]. intros q.
    apply latch_wf_mono; [lia|lia|]. intros H1 H2. destruct (Z_le_gt_dec (counter_ s) 0); [|lia].
    destruct (H1 ltac:(lia)) as [Hb1|Hf2]; [destruct (Hb' Hb1) as [?|[? _]]|]; lia.
Qed.

Lemma latch_wake_inv p addr n k :
  action p = FWake addr n k → ∃ w, p = CWake w ∧ addr = 0%nat ∧ n = wake_all ∧ k = arrived w.
Proof. intros Ha. destruct p; hnf_action Ha; try discriminate Ha. simplify_eq. eauto. Qed.

Lemma latch_wake_step_inv s l i p addr n k us :
  LatchInv (MkConf s l) → l !! i = Some p → action p = FWake addr n k →
  wakeable addr n us l = true → LatchInv (MkConf s (<[i := k]> (rouse_all us l))).
Proof.
  intros (Hlen & Hc & Hf & Hbf & Hcb & Hs & Hwf) Hi Ha Hus. cbn [shared threads] in *.
  destruct (latch_wake_inv p addr n k Ha) as (w & -> & -> & -> & ->).
  assert (Hsl : ∀ q, asleep_at 0 q = sleeping q) by by intros [].
  assert (Hr : ∀ q, asleep_at 0 q = true → rouse q = WLoad) by by intros [].
  pose proof (wake_total 0 _ us l i _ _ (λ q, Z.b2z (bumping q)) 0 Hi Ha Hus) as Eb.
  pose proof (wake_total 0 _ us l i _ _ (λ q, Z.b2z (sleeping q)) (-1) Hi Ha Hus) as Es.
  rewrite !total_tally in Eb. rewrite !total_tally in Es.
  assert (Et : tally (asleep_at 0) l = tally sleeping l).
  { rewrite <- !total_tally. clear. induction l as [|q l IH]; [done|]. cbn [total foldr] in *.
    unfold total in IH. rewrite IH. by destruct q. }
  rewrite Et in Es, Eb. pose proof (tally_le_length sleeping l) as Hle.
  rewrite Z.min_r in Es, Eb by lia.
  assert (Harr : bumping (arrived w) = false ∧ sleeping (arrived w) = false) by by destruct w.
  destruct Harr as [Ha1 Ha2]. rewrite Ha1 in Eb. rewrite Ha2 in Es. cbn [bumping sleeping Z.b2z] in *.
  rewrite Z.mul_0_l, !Z.add_0_r, Z.sub_0_r in Eb. 
  assert (Es' : tally sleeping (<[i:=arrived w]> (rouse_all us l)) = 0).
  { rewrite Es; [lia|]. intros q Hq. rewrite (Hr q Hq), <- (Hsl q), Hq. done. }
  assert (Eb' : tally bumping (<[i:=arrived w]> (rouse_all us l)) = tally bumping l).
  { apply Eb. intros q Hq. rewrite (Hr q Hq). by destruct q. }
  unfold LatchInv; cbn [shared threads]. rewrite length_insert, length_rouse_all, Es', Eb'.
  split_and!; try lia. apply Forall_insert; [|by destruct w].
  apply rouse_all_Forall; [|done]. by intros [].
Qed.

Lemma latch_reachable_inv expected n c :
  0 <= expected < 2 ^ 63 → Z.of_nat n < wake_all →
  rtc (fstep_while no_underflow) (latch_init expected n) c → LatchInv c.
Proof.
  intros He Hn Hr. refine (fstep_wake_invariant no_underflow LatchInv _ _ _ _ Hr _).
  - intros s l i p p' s'. apply latch_step_inv.
  - intros s l i p addr m k us _. apply latch_wake_step_inv.
  - unfold LatchInv, latch_init; cbn [shared threads counter_ futex_].
    rewrite length_replicate, !tally_replicate by done. split_and!; try lia. by apply Forall_replicate.
Qed.

(** The latch opens once and for all waiters: in every interleaving of
    threads that count it down (by positive amounts, not past zero), wait and
    do both, a [wait] returns only with the counter at zero; and when the
    counter is at zero and every call has returned or sleeps, nobody sleeps. *)
Theorem latch_opens expected n c :
  0 <= expected < 2 ^ 63 → Z.of_nat n < wake_all →
  rtc (fstep_while no_underflow) (latch_init expected n) c →
  0 <= counter_ (shared c) ∧
  (LDone ∈ threads c → try_wait (shared c) = true) ∧
  (try_wait (shared c) = true → (∀ p, p ∈ threads c → busy p = false) →
   ∀ p, p ∈ threads c → sleeping p = false).
Proof.
  intros He Hn Hr. destruct (latch_reachable_inv expected n c He Hn Hr) as (_ & Hc & _ & _ & _ & Hs & Hwf).
  split_and!; [lia| |].
  - intros Hd. rewrite Forall_forall in Hwf. specialize (Hwf _ Hd). simpl in Hwf.
    unfold try_wait. apply Z.leb_le. lia.
  - intros Ht Hq p [i Hi]%list_elem_of_lookup. destruct (sleeping p) eqn:E; [|done].
    unfold try_wait in Ht. apply Z.leb_le in Ht.
    rewrite (tally_quiet bumping), (tally_quiet waking) in Hs by (done || by intros []).
    pose proof (tally_pos sleeping _ i p Hi E). destruct Hs; lia.
Qed.

End latch.

(** Two threads at a latch of two; one waits, the other counts both down. *)
Definition demo_prog : FutexProg lpc FutexLatch := latch_prog [1; 2].

Definition count_ok (c : config lpc FutexLatch) : bool :=
  forallb (λ p, match p with CSub n _ => n <=? counter_ (shared c) | _ => true end) (threads c).

Lemma count_ok_room c : count_ok c = true → no_underflow c.
Proof.
  intros H n k Hin. unfold count_ok in H. rewrite forallb_forall in H.
  specialize (H _ (proj1 (list_elem_of_In _ _) Hin)). by apply Z.leb_le.
Qed.

Definition wait_then_open : list move :=
  [Call 0 0; Step 0 false; Step 0 false; Step 0 false; Step 0 false;
   Call 1 2; Step 1 false; Step 1 false; Wake 1 [0%nat]; Step 0 false].

Lemma latch_opens_witness :
  let c := MkConf (MkLatch 0 1) [LDone; LIdle] in
  @rtc _ (@fstep_while _ _ demo_prog no_underflow) (latch_init 2 2) c ∧
  try_wait (shared c) = true ∧ ∀ p, p ∈ threads c → sleeping p = false.
Proof.
  intros c. assert (Hr : @rtc _ (@fstep_while _ _ demo_prog no_underflow) (latch_init 2 2) c).
  { refine (@run_moves_while _ _ demo_prog count_ok no_underflow wait_then_open _ _ count_ok_room _).
    vm_compute. reflexivity. }
  destruct (latch_opens [1; 2] ltac:(set_solver by lia) 2 2 c ltac:(lia) ltac:(vm_compute; reflexivity) Hr)
    as (_ & H1 & H2).
  split; [exact Hr|]. split; [apply H1; left|]. apply H2; [reflexivity|].
  intros p Hp. repeat (apply elem_of_cons in Hp as [->|Hp]; [reflexivity|]). by apply elem_of_nil in Hp.
Defined.

(** Counting a latch down past zero strands its waiters: the call throws
    without waking anybody, so a thread that slept in [wait] sleeps on although
    the counter is below zero and [try_wait] answers true. *)
Theorem latch_underflow_strands :
  ∃ c, @run_moves _ _ demo_prog
         [Call 0 0; Step 0 false; Step 0 false; Step 0 false; Step 0 false; Call 1 2; Step 1 false]
         (latch_init 1 2) = Some c ∧
    threads c = [WAsleep; LThrew LogicError] ∧ try_wait (shared c) = true ∧
    ∀ p, p ∈ threads c → @busy _ _ demo_prog p = false.
Proof.
  eexists. split; [vm_compute; reflexivity|]. split; [reflexivity|]. split; [reflexivity|].
  intros p Hp. repeat (apply elem_of_cons in Hp as [->|Hp]; [reflexivity|]). by apply elem_of_nil in Hp.
Qed.
