(* ===== verification/Once.v ===== *)
(** * The once flag (src/src/once.cpp, include/pman/once.hpp)

    [call_once] runs its function in one thread while the others wait.  The
    shared state is the word [state_] and, for the statements, how often the
    function has returned normally.  Whether the function throws is the
    scheduler's choice at [ORun]. *)

From S2P Require Import Prelude Futex.

(** [FutexOnceFlag::State]. *)
Definition NotStarted : Z := 0.
Definition Running : Z := 1.
Definition Done : Z := 2.

Record OnceFlag := MkOnce { state_ : Z; runs : Z }.

Definition set_state (st : Z) (s : OnceFlag) : OnceFlag := MkOnce st (runs s).

Inductive opc :=
  | OIdle | OReturned | OThrew
  | OCas | ORun | OMark | OWakeAll | OReset
  | OLoad | OWait | OAsleep.

(** [mark_done_and_wake]. *)
Definition mark_done_and_wake (p : opc) : option (faction opc OnceFlag) :=
  match p with
  | OMark => Some (Atomic (λ _ s, (OWakeAll, set_state Done s)))
  | OWakeAll => Some (FWake 0 wake_all OReturned)
  | _ => None
  end.

(** [wait_for_completion]. *)
Definition wait_for_completion (p : opc) : option (faction opc OnceFlag) :=
  match p with
  | OLoad => Some (Atomic (λ _ s,
      (if state_ s =? Done then OReturned else if state_ s =? NotStarted then OReturned else OWait, s)))
  | OWait => Some (FWait state_ Running OAsleep OLoad)
  | OAsleep => Some (Asleep 0 OLoad None)
  | _ => None
  end.

(** [call_once]: the exchange, the function and the catch handler around it. *)
Definition call_once (p : opc) : option (faction opc OnceFlag) :=
  match p with
  | OCas => Some (Atomic (λ _ s,
      if state_ s =? NotStarted then (ORun, set_state Running s)
      else (if state_ s =? Done then OReturned else OLoad, s)))
  | ORun => Some (Atomic (λ throws s,
      if throws then (OReset, s) else (OMark, MkOnce (state_ s) (runs s + 1))))
  | OReset => Some (Atomic (λ _ s, (OThrew, set_state NotStarted s)))
  | _ => match mark_done_and_wake p with Some a => Some a | None => wait_for_completion p end
  end.

Definition has_run (s : OnceFlag) : bool := state_ s =? Done.

#[export] Instance once_prog : FutexProg opc OnceFlag := λ p,
  match call_once p with Some a => a | None => AtRest [OCas] end.

Definition once_init (n : nat) : config opc OnceFlag :=
  MkConf (MkOnce NotStarted 0) (replicate n OIdle).

(** ** The invariant *)

(** Between the exchange that claims the flag and the store that gives it up. *)
Definition inside (p : opc) : bool := match p with ORun | OMark | OReset => true | _ => false end.
Definition marking (p : opc) : bool := match p with OMark => true | _ => false end.
Definition waking (p : opc) : bool := match p with OWakeAll => true | _ => false end.
Definition sleeping (p : opc) : bool := match p with OAsleep => true | _ => false end.
Definition returned (p : opc) : bool := match p with OReturned => true | _ => false end.

Definition once_word (st : Z) : Prop := st = NotStarted ∨ st = Running ∨ st = Done.

Definition OnceInv (c : config opc OnceFlag) : Prop :=
  once_word (state_ (shared c)) ∧
  tally inside (threads c) = (if state_ (shared c) =? Running then 1 else 0) ∧
  runs (shared c) = tally marking (threads c) + (if state_ (shared c) =? Done then 1 else 0) ∧
  (1 <= tally waking (threads c) → state_ (shared c) = Done).

Lemma once_local p s p' s' :
  local_step p s p' s' → once_word (state_ s) → (inside p = true → state_ s = Running) →
  (waking p = true → state_ s = Done) →
  let isR st := if st =? Running then 1 else 0 in
  let isD st := if st =? Done then 1 else 0 in
  once_word (state_ s') ∧
  Z.b2z (inside p') - Z.b2z (inside p) = isR (state_ s') - isR (state_ s) ∧
  runs s' - runs s = Z.b2z (marking p') - Z.b2z (marking p) + isD (state_ s') - isD (state_ s) ∧
  (waking p' = true → state_ s' = Done) ∧ (state_ s = Done → state_ s' = Done) ∧
  (returned p' = true → p ≠ OReturned → p = OLoad ∧ state_ s' = NotStarted ∨ state_ s' = Done) ∧
  (sleeping p' = true → state_ s' = Running).
Proof.
  intros Hl Hw Hin Hwk. destruct s as [st r]. cbn [state_ runs] in *.
  inversion Hl as [? ? f b0 Ha|? ? ? ? ? ? Ha|? ? ? ? ? Ha|? ? ? ? ? Ha|? ? ? ? ? Ha|? ? ? ? Ha Hc]; subst; clear Hl.
  all: destruct p; hnf_action Ha; try discriminate Ha; injection Ha; clear Ha; intros; subst.
  all: try (apply elem_of_cons in Hc as [->|Hc]; [|by apply elem_of_nil in Hc]).
  all: try (specialize (Hin eq_refl)); try (specialize (Hwk eq_refl)).
  all: cbn [inside marking waking sleeping returned Z.b2z] in *.
  all: unfold once_word, NotStarted, Running, Done, set_state in *.
  all: try (destruct b0); cbn [fst snd state_ runs inside marking waking sleeping returned Z.b2z].
  all: destruct Hw as [Hw|[Hw|Hw]]; rewrite ?Hw in *; cbn; try lia; split_and!; intros; try done; try lia; tauto.
Qed.

Lemma inside_running s l i p :
  tally inside l = (if state_ s =? Running then 1 else 0) → l !! i = Some p → inside p = true →
  state_ s = Running.
Proof.
  intros Hin Hi E. pose proof (tally_pos inside l i p Hi E).
  destruct (Z.eqb_spec (state_ s) Running); [done|lia].
Qed.

Lemma once_local_inv s l i p p' s' :
  OnceInv (MkConf s l) → l !! i = Some p → local_step p s p' s' →
  OnceInv (MkConf s' (<[i := p']> l)).
Proof.
  intros (Hw & Hin & Hr & Hwk) Hi Hl. cbn [shared threads] in *.
  destruct (once_local p s p' s' Hl Hw) as (Hw' & Hin' & Hr' & Hwk' & Hd' & _).
  - by eapply inside_running.
  - intros E. apply Hwk. by eapply tally_pos.
  - unfold OnceInv; cbn [shared threads]. rewrite !(tally_insert _ _ _ _ p' Hi). split_and!; [done|lia|lia|].
    intros H1. destruct (waking p') eqn:E; [by apply Hwk'|]. apply Hd', Hwk. destruct (waking p); simpl in *; lia.
Qed.

Lemma once_init_inv n : OnceInv (once_init n).
Proof.
  unfold OnceInv, once_init; cbn [shared threads]. rewrite !tally_replicate by done.
  split_and!; [by left|done|done|lia].
Qed.

(** At most one thread runs the function of [call_once] at a time, and the
    function returns normally at most once, over every interleaving, exceptions
    and retries included; [has_run] answers true exactly when it has returned
    and the flag is marked. *)
Theorem once_at_most_once n c :
  rtc fstep (once_init n) c →
  tally inside (threads c) <= 1 ∧ 0 <= runs (shared c) <= 1 ∧
  (has_run (shared c) = true → runs (shared c) = 1 ∧ tally inside (threads c) = 0) ∧
  (runs (shared c) = 1 → has_run (shared c) = true ∨ tally marking (threads c) = 1).
Proof.
  intros Hr.
  destruct (fstep_invariant OnceInv _ _ once_local_inv Hr (once_init_inv n)) as (Hw & Hin & Hrun & _).
  assert (Hm : tally marking (threads c) <= tally inside (threads c)).
  { rewrite <- !total_tally. apply total_le. by intros []. }
  pose proof (tally_nonneg marking (threads c)). unfold has_run.
  destruct Hw as [Hw|[Hw|Hw]]; rewrite Hw in *; unfold NotStarted, Running, Done in *; simpl in *;
    split_and!; intros; try done; lia.
Qed.

(** ** Runs in which the function does not throw *)

Definition no_throw (c : config opc OnceFlag) : Prop := OReset ∉ threads c.

(** Waiters have seen the flag claimed; those that returned have seen it done. *)
Definition once_wf (s : OnceFlag) (p : opc) : Prop :=
  match p with
  | OLoad | OWait | OAsleep => state_ s ≠ NotStarted
  | OReturned => state_ s = Done
  | _ => True
  end.

Definition OnceOk (c : config opc OnceFlag) : Prop :=
  OnceInv c ∧ Z.of_nat (length (threads c)) < wake_all ∧ Forall (once_wf (shared c)) (threads c) ∧
  (1 <= tally sleeping (threads c) → state_ (shared c) = Running ∨ 1 <= tally waking (threads c)).

(** What the waiters rely on: the flag only moves forward. *)
Lemma once_forward p s p' s' :
  local_step p s p' s' → p ≠ OReset → once_word (state_ s) → once_wf s p →
  (inside p = true → state_ s = Running) → (waking p = true → state_ s = Done) →
  (∀ a n k, action p ≠ FWake a n k) →
  once_wf s' p' ∧ (state_ s ≠ NotStarted → state_ s' ≠ NotStarted) ∧ (state_ s = Done → state_ s' = Done) ∧
  (state_ s = Running → state_ s' = Running ∨ waking p' = true) ∧
  (sleeping p' = true → state_ s' = Running) ∧ waking p = false.
Proof.
  intros Hl Hne Hw Hwf Hin Hwk Hnw. destruct s as [st r]. cbn [state_ runs] in *.
  inversion Hl as [? ? f b0 Ha|? ? ? ? ? ? Ha|? ? ? ? ? Ha|? ? ? ? ? Ha|? ? ? ? ? Ha|? ? ? ? Ha Hc]; subst; clear Hl.
  all: try (by destruct (Hnw _ _ _ Ha)).
  all: clear Hnw; destruct p; hnf_action Ha; try discriminate Ha; injection Ha; clear Ha; intros; subst.
  all: try (apply elem_of_cons in Hc as [->|Hc]; [|by apply elem_of_nil in Hc]).
  all: try (specialize (Hin eq_refl)); try (specialize (Hwk eq_refl)); try done.
  all: cbn [inside waking sleeping once_wf] in *; unfold once_word, NotStarted, Running, Done, set_state in *.
  all: try (destruct b0); cbn [fst snd state_ runs].
  all: destruct Hw as [Hw|[Hw|Hw]]; rewrite ?Hw in *; cbn; try lia; split_and!; intros; try done; try lia; tauto.
Qed.

Lemma once_step_ok s l i p p' s' :
  no_throw (MkConf s l) → OnceOk (MkConf s l) → l !! i = Some p → local_step p s p' s' →
  (∀ a n k, action p ≠ FWake a n k) → OnceOk (MkConf s' (<[i := p']> l)).
Proof.
  intros Hno (Hinv & Hlen & Hwf & Hs) Hi Hl Hnw. pose proof Hinv as (Hw & Hin & _ & Hwk). cbn [shared threads] in *.
  assert (Hwp : once_wf s p) by by eapply Forall_lookup_1.
  assert (Hp : p ≠ OReset). { intros ->. apply Hno. by eapply list_elem_of_lookup_2. }
  destruct (once_forward p s p' s' Hl Hp Hw Hwp) as (Hwf' & H1 & H2 & H3 & H4 & H5); [..|done|].
  { by eapply inside_running. }
  { intros E. apply Hwk. by eapply tally_pos. }
  split_and!; cbn [shared threads].
  - by eapply once_local_inv.
  - by rewrite length_insert.
  - apply Forall_insert; [|done]. eapply Forall_impl; [exact Hwf|]. intros []; simpl; auto.
  - rewrite !(tally_insert _ _ _ _ p' Hi), H5. cbn [Z.b2z]. intros Hsl. pose proof (tally_nonneg waking l).
    destruct (sleeping p') eqn:E; [left; by apply H4|]. cbn [Z.b2z] in *.
    destruct Hs as [Hs|Hs]; [destruct (sleeping p); simpl in *; lia| |destruct (waking p'); simpl; lia].
    destruct (H3 Hs) as [?|Ew]; [by left|]. rewrite Ew. simpl. lia.
Qed.

Lemma once_wake_ok s l i p addr n k us :
  OnceOk (MkConf s l) → l !! i = Some p → action p = FWake addr n k →
  wakeable addr n us l = true → OnceOk (MkConf s (<[i := k]> (rouse_all us l))).
Proof.
  intros (Hinv & Hlen & Hwf & Hs) Hi Ha Hus. cbn [shared threads] in *.
  assert (p = OWakeAll ∧ addr = 0%nat ∧ n = wake_all ∧ k = OReturned) as (-> & -> & -> & ->).
  { destruct p; hnf_action Ha; try discriminate Ha. by simplify_eq. }
  destruct Hinv as (Hw & Hin & Hr & Hwk). cbn [shared threads] in *.
  assert (Hd : state_ s = Done) by (apply Hwk; by eapply tally_pos).
  assert (Hr' : ∀ q, asleep_at 0 q = true → q = OAsleep ∧ rouse q = OLoad) by by intros [].
  pose proof (λ h d, wake_total 0 _ us l i _ _ (λ q, Z.b2z (h q)) d Hi Ha Hus) as Hsum.
  assert (Et : tally (asleep_at 0) l = tally sleeping l).
  { rewrite <- !total_tally. clear. unfold total. induction l as [|q l IH]; [done|]. cbn. rewrite IH. by destruct q. }
  pose proof (tally_le_length sleeping l). rewrite Et, Z.min_r in Hsum by lia.
  assert (Hh : ∀ h d, (∀ q, q = OAsleep → Z.b2z (h OLoad) = Z.b2z (h OAsleep) + d) →
    tally h (<[i:=OReturned]> (rouse_all us l)) = tally h l - Z.b2z (h OWakeAll) + Z.b2z (h OReturned) + d * tally sleeping l).
  { intros h d Hd'. specialize (Hsum h d). rewrite !total_tally in Hsum. apply Hsum.
    intros q [-> ->]%Hr'. by apply (Hd' OAsleep). }
  unfold OnceOk, OnceInv; cbn [shared threads].
  rewrite (Hh inside 0), (Hh marking 0), (Hh waking 0), (Hh sleeping (-1)) by done.
  cbn [inside marking waking sleeping Z.b2z]. rewrite length_insert, length_rouse_all.
  split_and!; try done; try lia. apply Forall_insert; [|done]. apply rouse_all_Forall; [|done]. by intros [].
Qed.

(** When the function does not throw, [call_once] returns only after the
    function has returned, in the calling thread or another, and leaves nobody
    asleep: when no thread is inside a call and awake, no thread sleeps unless
    the function is still to be run by somebody. *)
Theorem once_completes n c :
  Z.of_nat n < wake_all → rtc (fstep_while no_throw) (once_init n) c →
  (OReturned ∈ threads c → has_run (shared c) = true ∧ runs (shared c) = 1) ∧
  ((∀ p, p ∈ threads c → busy p = false) → ∀ p, p ∈ threads c → sleeping p = false).
Proof.
  intros Hn Hr. assert (OnceOk c) as (Hinv & _ & Hwf & Hs).
  { refine (fstep_wake_invariant no_throw OnceOk _ _ _ _ Hr _).
    - intros s l i p p' s'. apply once_step_ok.
    - intros s l i p addr m k us _. apply once_wake_ok.
    - split; [apply once_init_inv|]. cbn [shared threads once_init]. rewrite length_replicate.
      split_and!; [done|by apply Forall_replicate|]. rewrite tally_replicate by done. lia. }
  destruct Hinv as (Hw & Hin & Hrun & Hwk). pose proof (tally_nonneg marking (threads c)) as Hm0.
  assert (Hm : tally marking (threads c) <= tally inside (threads c)).
  { rewrite <- !total_tally. apply total_le. by intros []. }
  split.
  - intros Hret. rewrite Forall_forall in Hwf. specialize (Hwf _ Hret). simpl in Hwf.
    unfold has_run. rewrite Hwf in *. simpl in *. split; [done|lia].
  - intros Hq p [i Hi]%list_elem_of_lookup. destruct (sleeping p) eqn:E; [|done].
    rewrite (tally_quiet inside) in Hin by (done || by intros []). rewrite (tally_quiet waking) in Hs by (done || by intros []).
    destruct Hs as [Hs|Hs]; [by eapply tally_pos| |lia]. by rewrite Hs in Hin.
Qed.

Definition throwsb (c : config opc OnceFlag) : bool :=
  forallb (λ p, match p with OReset => false | _ => true end) (threads c).

Lemma throwsb_ok c : throwsb c = true → no_throw c.
Proof.
  intros H Hin. unfold throwsb in H. rewrite forallb_forall in H.
  by specialize (H _ (proj1 (list_elem_of_In _ _) Hin)).
Qed.

(** Thread 0 claims the flag; thread 1 comes to wait and sleeps. *)
Definition claim_and_wait : list move :=
  [Call 0 0; Step 0 false; Call 1 0; Step 1 false; Step 1 false; Step 1 false].

Definition both_returned : config opc OnceFlag := MkConf (MkOnce Done 1) [OReturned; OReturned].

Lemma once_at_most_once_witness :
  rtc fstep (once_init 2) both_returned ∧ runs (shared both_returned) = 1 ∧
  tally inside (threads both_returned) = 0.
Proof.
  assert (Hr : rtc fstep (once_init 2) both_returned).
  { apply (run_moves_steps (claim_and_wait ++ [Step 0 false; Step 0 false; Wake 0 [1%nat]; Step 1 false])).
    vm_compute. reflexivity. }
  split; [exact Hr|]. apply (proj1 (proj2 (proj2 (once_at_most_once 2 _ Hr)))). reflexivity.
Defined.

Lemma once_completes_witness :
  rtc (fstep_while no_throw) (once_init 2) both_returned ∧
  has_run (shared both_returned) = true ∧ runs (shared both_returned) = 1.
Proof.
  assert (Hr : rtc (fstep_while no_throw) (once_init 2) both_returned).
  { refine (run_moves_while throwsb no_throw
      (claim_and_wait ++ [Step 0 false; Step 0 false; Wake 0 [1%nat]; Step 1 false]) _ _ throwsb_ok _).
    vm_compute. reflexivity. }
  split; [exact Hr|].
  apply (proj1 (once_completes 2 _ ltac:(vm_compute; reflexivity) Hr)). left.
Defined.

(** When the function throws, the waiters are forgotten: the handler resets
    the flag without a wake, so a thread asleep in [call_once] stays asleep with
    nobody left to run the function or to wake it; and a waiter that reads the
    reset flag returns although the function has never returned. *)
Theorem once_exception_strands :
  (∃ c, run_moves (claim_and_wait ++ [Step 0 true; Step 0 false]) (once_init 2) = Some c ∧
     threads c = [OThrew; OAsleep] ∧ state_ (shared c) = NotStarted ∧
     ∀ p, p ∈ threads c → busy p = false) ∧
  (∃ c, run_moves [Call 0 0; Step 0 false; Call 1 0; Step 1 false; Step 0 true; Step 0 false; Step 1 false]
          (once_init 2) = Some c ∧
     threads c = [OThrew; OReturned] ∧ runs (shared c) = 0 ∧ has_run (shared c) = false).
Proof.
  split; eexists; (split; [vm_compute; reflexivity|]); split_and!; try reflexivity.
  intros p Hp. repeat (apply elem_of_cons in Hp as [->|Hp]; [reflexivity|]). by apply elem_of_nil in Hp.
Qed.
