(* ===== verification/SharedSync.v ===== *)
(** * Process-shared mutex and condition variable (src/src/shared_sync.cpp,
      include/pman/shared_sync.hpp)

    The mutex is the futex mutex with an owner word and a robust mode.  Threads
    may die while they hold it, which is what the robust mode is for.  The
    semaphore of the same file is in [FutexSemaphore]. *)

From S2P Require Import Prelude Futex.

(** [SharedFutexMutex::State]. *)
Definition Unlocked : Z := 0.
Definition Locked : Z := 1.
Definition Contended : Z := 2.

Record SharedMutex := MkSM { state_ : Z; owner_ : Z; robust_ : bool; ownerDead_ : bool }.

Definition set_state (st : Z) (s : SharedMutex) : SharedMutex :=
  MkSM st (owner_ s) (robust_ s) (ownerDead_ s).
Definition set_owner (o : Z) (s : SharedMutex) : SharedMutex :=
  MkSM (state_ s) o (robust_ s) (ownerDead_ s).

(** Program counters; [KDead] is a thread whose process died while it held the
    mutex. *)
Inductive kpc :=
  | KIdle | KHolding | KThrew | KDead
  | KEnter | KCas | KSpin (spins : Z) | KSpinCas (spins : Z) | KWait | KAsleep | KOwner     (* lock *)
  | TEnter | TCas                                                                            (* try_lock *)
  | UOwner | UXchg | UWake                                                                   (* unlock *)
  | MRobust                                                                                  (* make_robust *)
  | SFlag | SState | SOwner.                                                                 (* consistent *)

(** A thread: its id, as [gettid] gives it, and its program counter. *)
Record kthread := MkK { tid : Z; pc : kpc }.

Definition at_pc (t : kthread) (q : kpc) : kthread := MkK (tid t) q.

Definition kaction := faction kthread SharedMutex.

(** Where a thread goes that has taken the word: in robust mode it stores its
    id first. *)
Definition acquired (t : kthread) (s : SharedMutex) : kthread :=
  at_pc t (if robust_ s then KOwner else KHolding).

(** [SharedFutexMutex::lock]. *)
Definition sm_lock (t : kthread) : option kaction :=
  match pc t with
  | KEnter => Some (Atomic (λ _ s, (at_pc t (if robust_ s && ownerDead_ s then KThrew else KCas), s)))
  | KCas => Some (Atomic (λ _ s,
      if state_ s =? Unlocked then (acquired t s, set_state Locked s) else (at_pc t (KSpin 1000), s)))
  | KSpin k =>
      Some (if k >? 0
            then Atomic (λ _ s, (at_pc t (if state_ s =? Unlocked then KSpinCas (k - 1) else KSpin (k - 1)), s))
            else Atomic (λ _ s, (if state_ s =? Unlocked then acquired t s else at_pc t KWait, set_state Contended s)))
  | KSpinCas k => Some (Atomic (λ b s,
      if negb b && (state_ s =? Unlocked) then (acquired t s, set_state Locked s) else (at_pc t (KSpin k), s)))
  | KWait => Some (FWait state_ Contended (at_pc t KAsleep) (at_pc t (KSpin 1000)))
  | KAsleep => Some (Asleep 0 (at_pc t (KSpin 1000)) None)
  | KOwner => Some (Atomic (λ _ s, (at_pc t KHolding, set_owner (tid t) s)))
  | _ => None
  end.

Definition sm_try_lock (t : kthread) : option kaction :=
  match pc t with
  | TEnter => Some (Atomic (λ _ s, (at_pc t (if robust_ s && ownerDead_ s then KIdle else TCas), s)))
  | TCas => Some (Atomic (λ _ s,
      if state_ s =? Unlocked then (acquired t s, set_state Locked s) else (at_pc t KIdle, s)))
  | _ => None
  end.

Definition sm_unlock (t : kthread) : option kaction :=
  match pc t with
  | UOwner => Some (Atomic (λ _ s, (at_pc t UXchg, if robust_ s then set_owner 0 s else s)))
  | UXchg => Some (Atomic (λ _ s,
      (at_pc t (if state_ s =? Contended then UWake else KIdle), set_state Unlocked s)))
  | UWake => Some (FWake 0 1 (at_pc t KIdle))
  | _ => None
  end.

Definition make_robust (t : kthread) : option kaction :=
  match pc t with
  | MRobust => Some (Atomic (λ _ s, (at_pc t KIdle, MkSM (state_ s) (owner_ s) true (ownerDead_ s))))
  | _ => None
  end.

Definition consistent (t : kthread) : option kaction :=
  match pc t with
  | SFlag => Some (Atomic (λ _ s, (at_pc t SState, MkSM (state_ s) (owner_ s) (robust_ s) false)))
  | SState => Some (Atomic (λ _ s, (at_pc t SOwner, set_state Unlocked s)))
  | SOwner => Some (Atomic (λ _ s, (at_pc t KIdle, set_owner 0 s)))
  | _ => None
  end.

Definition owner_dead (s : SharedMutex) : bool := ownerDead_ s.

(** Threads lock, try to lock, make the mutex robust, and unlock or die when
    they hold it; after an exception they may call [consistent], as the message
    of the exception says. *)
#[export] Instance shared_prog : FutexProg kthread SharedMutex := λ t,
  match sm_lock t with
  | Some a => a
  | None => match sm_try_lock t with
  | Some a => a
  | None => match sm_unlock t with
  | Some a => a
  | None => match make_robust t with
  | Some a => a
  | None => match consistent t with
  | Some a => a
  | None =>
      match pc t with
      | KHolding => AtRest [at_pc t UOwner; at_pc t KDead]
      | KDead => AtRest []
      | KThrew => AtRest [at_pc t SFlag]
      | _ => AtRest [at_pc t KEnter; at_pc t TEnter; at_pc t MRobust]
      end end end end end end.

Definition shared_init (n : nat) : config kthread SharedMutex :=
  MkConf (MkSM Unlocked 0 false false) ((λ i, MkK (Z.of_nat i + 1) KIdle) <$> seq 0 n).

(** ** Exclusion and the robust mode *)

Definition holds (t : kthread) : bool :=
  match pc t with KHolding | KOwner | UOwner | UXchg | KDead => true | _ => false end.

(** Inside [consistent], or on the way to it. *)
Definition repairing (t : kthread) : bool :=
  match pc t with KThrew | SFlag | SState | SOwner => true | _ => false end.

Definition locked (st : Z) : Z := if st =? Unlocked then 0 else 1.
Definition mutex_word (st : Z) : Prop := st = Unlocked ∨ st = Locked ∨ st = Contended.

Definition SharedInv (c : config kthread SharedMutex) : Prop :=
  mutex_word (state_ (shared c)) ∧ tally holds (threads c) = locked (state_ (shared c)) ∧
  ownerDead_ (shared c) = false ∧ Forall (λ t, repairing t = false) (threads c).

Lemma shared_local p s p' s' :
  local_step p s p' s' → mutex_word (state_ s) → (holds p = true → state_ s ≠ Unlocked) →
  ownerDead_ s = false → repairing p = false →
  mutex_word (state_ s') ∧ Z.b2z (holds p') - Z.b2z (holds p) = locked (state_ s') - locked (state_ s) ∧
  ownerDead_ s' = false ∧ repairing p' = false ∧ (pc p = KDead → p' = p).
Proof.
  intros Hl Hw Hh Hd Hr. destruct p as [t q], s as [st ow rb od]. cbn [state_ ownerDead_] in *. subst od.
  inversion Hl as [? ? f b0 Ha|? ? ? ? ? ? Ha|? ? ? ? ? Ha|? ? ? ? ? Ha|? ? ? ? ? Ha|? ? ? ? Ha Hin]; subst; clear Hl.
  all: destruct q; hnf_action Ha; try discriminate Ha; try (case_match; try discriminate Ha);
    injection Ha; clear Ha; intros; subst; try discriminate Hr.
  all: try (repeat (apply elem_of_cons in Hin as [->|Hin]); try (by apply elem_of_nil in Hin)).
  all: try (specialize (Hh eq_refl)).
  all: unfold mutex_word, locked, Unlocked, Locked, Contended, acquired, set_state, set_owner, at_pc in *;
    cbn [pc tid state_ ownerDead_ owner_ robust_ fst snd] in *.
  all: try (destruct b0); destruct rb; destruct Hw as [Hw|[Hw|Hw]]; rewrite ?Hw in *; cbn in *; split_and!; try done; lia.
Qed.

Lemma shared_step_inv s l i p p' s' :
  SharedInv (MkConf s l) → l !! i = Some p → local_step p s p' s' →
  SharedInv (MkConf s' (<[i := p']> l)).
Proof.
  intros (Hw & Ht & Hd & Hr) Hi Hl. cbn [shared threads] in *.
  destruct (shared_local p s p' s' Hl Hw) as (Hw' & Hb & Hd' & Hr' & _); [|done|by apply (Forall_lookup_1 _ _ _ _ Hr Hi)|].
  { intros Hh E. pose proof (tally_pos holds l i p Hi Hh). rewrite E in Ht. unfold locked in Ht. simpl in Ht. lia. }
  split_and!; cbn [shared threads]; [done| |done|by apply Forall_insert].
  rewrite (tally_insert _ _ _ _ p' Hi). lia.
Qed.

Lemma shared_init_inv n : SharedInv (shared_init n).
Proof.
  unfold SharedInv, shared_init; cbn [shared threads state_ ownerDead_]. split_and!; [by left| |done|].
  - rewrite <- total_tally. apply total_zero, Forall_fmap, Forall_forall. done.
  - apply Forall_fmap, Forall_forall. done.
Qed.

(** A thread that died stays where it is. *)
Lemma dead_stays c c' i t :
  rtc fstep c c' → SharedInv c → threads c !! i = Some t → pc t = KDead → threads c' !! i = Some t.
Proof.
  intros Hr Hc Hi Hp.
  enough (SharedInv c' ∧ threads c' !! i = Some t) by tauto.
  refine (fstep_invariant (λ c, SharedInv c ∧ threads c !! i = Some t) _ _ _ Hr (conj Hc Hi)).
  intros s l j p p' s' [HI Ht] Hj Hl. split; [by eapply shared_step_inv|].
  destruct HI as (Hw & Hta & Hd & Hre). cbn [shared threads] in *.
  destruct (decide (i = j)) as [<-|Hij]; [|by rewrite list_lookup_insert_ne].
  simplify_eq. rewrite list_lookup_insert_eq by by eapply lookup_lt_Some.
  destruct (shared_local t s p' s' Hl Hw) as (_ & _ & _ & _ & E); [|done| |by rewrite E].
  - intros Hh E. pose proof (tally_pos holds l i t Ht Hh). rewrite E in Hta. unfold locked in Hta. simpl in Hta. lia.
  - by apply (Forall_lookup_1 _ _ _ _ Hre Ht).
Qed.

(** The process-shared mutex excludes, and its robust mode never notices a
    dead owner: over every interleaving no two threads hold it, [owner_dead]
    stays false, and once the holder has died no other thread ever gets the
    mutex or an exception, however the run goes on. *)
Theorem shared_mutex_exclusion n c :
  rtc fstep (shared_init n) c →
  owner_dead (shared c) = false ∧
  (∀ i j p q, threads c !! i = Some p → threads c !! j = Some q →
     holds p = true → holds q = true → i = j) ∧
  (∀ c' i t, rtc fstep c c' → threads c !! i = Some t → pc t = KDead →
     ∀ j q, threads c' !! j = Some q → j ≠ i → holds q = false ∧ pc q ≠ KThrew).
Proof.
  intros Hr.
  assert (Hinv : ∀ c', rtc fstep (shared_init n) c' → SharedInv c').
  { intros c' Hr'. exact (fstep_invariant SharedInv _ _ shared_step_inv Hr' (shared_init_inv n)). }
  assert (Hex : ∀ c', SharedInv c' → ∀ i j p q, threads c' !! i = Some p → threads c' !! j = Some q →
     holds p = true → holds q = true → i = j).
  { intros c' (_ & Ht & _) i j p q Hi Hj Hp Hq. destruct (decide (i = j)) as [|Hij]; [done|].
    pose proof (tally_two holds _ i j p q Hi Hj Hp Hq Hij). unfold locked in Ht. case_match; lia. }
  split_and!; [by destruct (Hinv c Hr) as (_ & _ & ? & _)|by apply Hex, Hinv|].
  intros c' i t Hr' Hi Ht j q Hj Hij.
  assert (Hr2 : rtc fstep (shared_init n) c') by (by etrans).
  pose proof (dead_stays c c' i t Hr' (Hinv c Hr) Hi Ht) as Hi'. split.
  - destruct (holds q) eqn:Eq; [|done]. destruct Hij. apply (Hex c' (Hinv c' Hr2) j i q t Hj Hi' Eq).
    unfold holds. by rewrite Ht.
  - intros E. destruct (Hinv c' Hr2) as (_ & _ & _ & Hre). pose proof (Forall_lookup_1 _ _ _ _ Hre Hj) as H.
    unfold repairing in H. simpl in H. by rewrite E in H.
Qed.

(** Thread 0 makes the mutex robust, locks it and dies; thread 1 then tries. *)
Definition die_holding : list move :=
  [Call 0 2; Step 0 false; Call 0 0; Step 0 false; Step 0 false; Step 0 false; Call 0 1].

Lemma shared_mutex_exclusion_witness :
  let c := MkConf (MkSM Locked 1 true false) [MkK 1 KDead; MkK 2 KIdle] in
  rtc fstep (shared_init 2) c ∧ owner_dead (shared c) = false ∧
  ∀ c', rtc fstep c c' → ∀ q, threads c' !! 1%nat = Some q → holds q = false ∧ pc q ≠ KThrew.
Proof.
  intros c. assert (Hr : rtc fstep (shared_init 2) c).
  { apply (run_moves_steps die_holding). vm_compute. reflexivity. }
  destruct (shared_mutex_exclusion 2 c Hr) as (H1 & _ & H3).
  split; [exact Hr|]. split; [exact H1|]. intros c' Hr' q Hq.
  exact (H3 c' 0%nat (MkK 1 KDead) Hr' eq_refl eq_refl 1%nat q Hq ltac:(lia)).
Defined.

(** ** The condition variable *)

(** [SharedFutexCondVar], used with a mutex whose lock and unlock are single
    steps ([shared_mutex_exclusion] is what that stands on). *)
Module CondVar.

Record State := MkCv { seq_ : Z; held : bool }.

Inductive vpc :=
  | VOut | VIn                                                       (* without and with the mutex *)
  | VLock | VUnlock
  | VSeq | VRelease (seq : Z) | VWait (seq : Z) | VAsleep (seq : Z) | VRelock (timedOut : bool)   (* wait_impl *)
  | NBump (n : Z) | NWake (n : Z).                                   (* notify_one, notify_all *)

(** [wait_impl]; every end of the futex wait goes on to lock the mutex. *)
Definition wait_impl (timed : bool) (p : vpc) : option (faction vpc State) :=
  match p with
  | VSeq => Some (Atomic (λ _ s, (VRelease (seq_ s), s)))
  | VRelease v => Some (Atomic (λ _ s, (VWait v, MkCv (seq_ s) false)))
  | VWait v => Some (FWait seq_ v (VAsleep v) (VRelock false))
  | VAsleep v => Some (Asleep 0 (VRelock false) (if timed then Some (VRelock true) else None))
  | VRelock o => Some (Atomic (λ _ s, if held s then (VRelock o, s) else (VIn, MkCv (seq_ s) true)))
  | _ => None
  end.

(** [notify_one] and [notify_all], with the count of their wake. *)
Definition notify (p : vpc) : option (faction vpc State) :=
  match p with
  | NBump n => Some (Atomic (λ _ s, (NWake n, MkCv (i32 (seq_ s + 1)) (held s))))
  | NWake n => Some (FWake 0 n VOut)
  | _ => None
  end.

Definition mutex_calls (p : vpc) : option (faction vpc State) :=
  match p with
  | VLock => Some (Atomic (λ _ s, if held s then (VLock, s) else (VIn, MkCv (seq_ s) true)))
  | VUnlock => Some (Atomic (λ _ s, (VOut, MkCv (seq_ s) false)))
  | _ => None
  end.

Section condvar.
(** Whether the waits have a timeout, and the count the notifiers wake. *)
Context (timed : bool) (wakes : list Z).

#[export] Instance cv_prog : FutexProg vpc State := λ p,
  match wait_impl timed p with
  | Some a => a
  | None => match notify p with
  | Some a => a
  | None => match mutex_calls p with
  | Some a => a
  | None => match p with VIn => AtRest [VUnlock; VSeq] | _ => AtRest (VLock :: (NBump <$> wakes)) end
  end end end.

Definition cv_init (n : nat) : config vpc State := MkConf (MkCv 0 false) (replicate n VOut).

Definition notifying (p : vpc) : bool := match p with NWake _ => true | _ => false end.
Definition sleeping (p : vpc) : bool := match p with VAsleep _ => true | _ => false end.

(** A thread asleep on an old sequence number is owed a wake. *)
Definition CvInv (c : config vpc State) : Prop :=
  Z.of_nat (length (threads c)) < wake_all ∧
  Forall (λ p, match p with NBump n | NWake n => n = wake_all | _ => True end) (threads c) ∧
  Forall (λ p, match p with VAsleep v => v = seq_ (shared c) ∨ 1 <= tally notifying (threads c) | _ => True end)
    (threads c).

Hypothesis all_wakes : Forall (λ n, n = wake_all) wakes.

Lemma cv_local p s p' s' :
  local_step p s p' s' → (∀ a n k, action p ≠ FWake a n k) →
  match p with NBump n | NWake n => n = wake_all | _ => True end →
  match p' with NBump n | NWake n => n = wake_all | _ => True end ∧
  (seq_ s' = seq_ s ∨ notifying p' = true) ∧ notifying p = false ∧
  (∀ v, p' = VAsleep v → v = seq_ s').
Proof.
  intros Hl Hnw Hp.
  inversion Hl as [? ? f b0 Ha|? ? ? ? ? ? Ha|? ? ? ? ? Ha|? ? ? ? ? Ha|? ? ? ? ? Ha|? ? ? ? Ha Hin]; subst; clear Hl.
  all: try (by destruct (Hnw _ _ _ Ha)).
  all: clear Hnw; destruct p; hnf_action Ha; try discriminate Ha; injection Ha; clear Ha; intros; subst.
  all: try (destruct timed; simplify_eq).
  all: try (match type of Hin with _ ∈ VUnlock :: _ => solve_member Hin end).
  all: try (apply elem_of_cons in Hin as [->|Hin]; [|apply list_elem_of_fmap in Hin as (n & -> & Hn);
    rewrite Forall_forall in all_wakes; pose proof (all_wakes n Hn)]).
  all: split_and!; simpl; intros; repeat (case_match; bool_hyps; simplify_eq/=); try done; eauto.
Qed.

(** A thread that sleeps in [wait] either saw the current sequence number or is
    about to be woken, when notifiers wake everybody: no [notify_all] that
    returned has left a waiter behind. *)
Theorem condvar_notify_all n c :
  Z.of_nat n < wake_all → rtc (fstep_while (λ _, True)) (cv_init n) c →
  ∀ v, VAsleep v ∈ threads c → v = seq_ (shared c) ∨ ∃ m, NWake m ∈ threads c.
Proof.
  intros Hn Hr. assert (CvInv c) as (_ & _ & Hs).
  { refine (fstep_wake_invariant (λ _, True) CvInv _ _ _ _ Hr _).
    - intros s l i p p' s' _ (Hlen & Hw & Hs) Hi Hl Hnw. cbn [shared threads] in *.
      destruct (cv_local p s p' s' Hl Hnw (Forall_lookup_1 _ _ _ _ Hw Hi)) as (Hp' & Hseq & Hnp & Hsl).
      unfold CvInv; cbn [shared threads]. rewrite length_insert, (tally_insert _ _ _ _ p' Hi), Hnp.
      split_and!; [done|by apply Forall_insert|]. pose proof (tally_nonneg notifying l).
      apply Forall_insert; [|destruct p'; auto].
      eapply Forall_impl; [exact Hs|]. intros [] Hq; try done. cbn [Z.b2z].
      destruct Hseq as [Hsq|Hsq]; rewrite Hsq; [destruct Hq; [by left|right; destruct (notifying p'); simpl; lia]|simpl; right; lia].
    - intros s l i p addr m k us _ (Hlen & Hw & Hs) Hi Ha Hus. cbn [shared threads] in *.
      assert (p = NWake m ∧ addr = 0%nat ∧ k = VOut) as (-> & -> & ->).
      { destruct p; hnf_action Ha; try discriminate Ha. by simplify_eq. }
      assert (m = wake_all) as -> by apply (Forall_lookup_1 _ _ _ _ Hw Hi).
      assert (Hz : tally sleeping (<[i:=VOut]> (rouse_all us l)) = 0).
      { assert (Et : tally (asleep_at 0) l = tally sleeping l).
        { rewrite <- !total_tally. clear. unfold total. induction l as [|q l IH]; [done|]. cbn. rewrite IH. by destruct q. }
        pose proof (tally_le_length sleeping l). rewrite <- total_tally.
        rewrite (wake_total 0 _ us l i _ _ (λ q, Z.b2z (sleeping q)) (-1) Hi Ha Hus) by by intros [].
        rewrite Et, Z.min_r, total_tally by lia. simpl. lia. }
      unfold CvInv; cbn [shared threads]. rewrite length_insert, length_rouse_all. split_and!; [done| |].
      + apply Forall_insert; [|done]. apply rouse_all_Forall; [|done]. by intros [].
      + apply Forall_lookup_2. intros j q Hj. destruct (sleeping q) eqn:E; [|by destruct q].
        pose proof (tally_pos sleeping _ j q Hj E). lia.
    - unfold CvInv, cv_init; cbn [shared threads]. rewrite length_replicate. split_and!; [done|by apply Forall_replicate..]. }
  intros v Hv. rewrite Forall_forall in Hs. destruct (Hs _ Hv) as [?|Hp]; [by left|right].
  rewrite <- total_tally in Hp. destruct (total_exists (λ p, Z.b2z (notifying p)) (threads c) ltac:(lia)) as (q & Hq & H).
  destruct q; simpl in H; try lia. eauto.
Qed.
End condvar.
End CondVar.
