(* ===== verification/SpinSync.v ===== *)
(** * Spinning primitives: the reader-writer spin lock, the barrier and the
      sequence lock (include/pman/rw_spinlock.hpp, barrier.hpp, seqlock.hpp)

    Programs of the machine of [Futex] that never sleep. *)

From S2P Require Import Prelude Futex.

(** ** RwSpinLock *)

Module RwSpin.

Inductive ppc :=
  | PIdle | PReading | PWriting
  | PSLoad | PSCas (expected : Z) | PUSub | PLCas | PUStore.

(** The four operations; the shared state is [state_]. *)
Definition lock_shared (p : ppc) : option (faction ppc Z) :=
  match p with
  | PSLoad => Some (Atomic (λ _ st, (if st >=? 0 then PSCas st else PSLoad, st)))
  | PSCas e => Some (Atomic (λ b st, if negb b && (st =? e) then (PReading, e + 1) else (PSLoad, st)))
  | _ => None
  end.

Definition unlock_shared (p : ppc) : option (faction ppc Z) :=
  match p with PUSub => Some (Atomic (λ _ st, (PIdle, i32 (st - 1)))) | _ => None end.

Definition lock (p : ppc) : option (faction ppc Z) :=
  match p with
  | PLCas => Some (Atomic (λ b st, if negb b && (st =? 0) then (PWriting, -1) else (PLCas, st)))
  | _ => None
  end.

Definition unlock (p : ppc) : option (faction ppc Z) :=
  match p with PUStore => Some (Atomic (λ _ _, (PIdle, 0))) | _ => None end.

#[export] Instance rwspin_prog : FutexProg ppc Z := λ p,
  match lock_shared p with
  | Some a => a
  | None => match unlock_shared p with
  | Some a => a
  | None => match lock p with
  | Some a => a
  | None => match unlock p with
  | Some a => a
  | None =>
      match p with
      | PReading => AtRest [PUSub]
      | PWriting => AtRest [PUStore]
      | _ => AtRest [PSLoad; PLCas]
      end end end end end.

Definition rwspin_init (n : nat) : config ppc Z := MkConf 0 (replicate n PIdle).

Definition reads (p : ppc) : bool := match p with PReading | PUSub => true | _ => false end.
Definition writes (p : ppc) : bool := match p with PWriting | PUStore => true | _ => false end.

Definition RwSpinInv (c : config ppc Z) : Prop :=
  Z.of_nat (length (threads c)) < 2 ^ 31 ∧
  Forall (λ p, match p with PSCas e => 0 <= e | _ => True end) (threads c) ∧
  (tally writes (threads c) = 0 ∧ shared c = tally reads (threads c) ∨
   tally writes (threads c) = 1 ∧ tally reads (threads c) = 0 ∧ shared c = -1).

Lemma rwspin_local p s p' s' r w :
  local_step p s p' s' → 0 <= r < 2 ^ 31 → (w = 0 ∧ s = r ∨ w = 1 ∧ r = 0 ∧ s = -1) →
  (reads p = true → 1 <= r) → (writes p = true → 1 <= w) →
  match p with PSCas e => 0 <= e | _ => True end →
  let r' := r - Z.b2z (reads p) + Z.b2z (reads p') in
  let w' := w - Z.b2z (writes p) + Z.b2z (writes p') in
  (w' = 0 ∧ s' = r' ∨ w' = 1 ∧ r' = 0 ∧ s' = -1) ∧ match p' with PSCas e => 0 <= e | _ => True end.
Proof.
  intros Hl Hr Hs Hrp Hwp Hc.
  inversion Hl as [? ? f b0 Ha|? ? ? ? ? ? Ha|? ? ? ? ? Ha|? ? ? ? ? Ha|? ? ? ? ? Ha|? ? ? ? Ha Hin]; subst; clear Hl.
  all: destruct p; hnf_action Ha; try discriminate Ha; injection Ha; clear Ha; intros; subst.
  all: try (solve_member Hin).
  all: try (specialize (Hrp eq_refl)); try (specialize (Hwp eq_refl)).
  all: cbn [reads writes fst snd Z.b2z] in *; unfold i32 in *.
  all: repeat (case_match; bool_hyps; cbn [reads writes fst snd Z.b2z negb andb] in *; simplify_eq).
  all: try (rewrite (swrap_small 32) by lia).
  all: split; try done; lia.
Qed.

(** The reader-writer spin lock excludes: over every interleaving a writer
    holds it alone, and the word is minus one while it does and the number of
    readers otherwise. *)
Theorem rwspin_exclusion n c :
  Z.of_nat n < 2 ^ 31 → rtc fstep (rwspin_init n) c →
  (∀ i j p q, threads c !! i = Some p → threads c !! j = Some q →
     writes p = true → writes q || reads q = true → i = j) ∧
  (shared c = if bool_decide (tally writes (threads c) = 1) then -1 else tally reads (threads c)).
Proof.
  intros Hn Hr. assert (RwSpinInv c) as (Hlen & _ & Hs).
  { refine (fstep_invariant RwSpinInv _ _ _ Hr _).
    - intros s l i p p' s' (Hlen & Hc & Hs) Hi Hl. cbn [shared threads] in *.
      pose proof (tally_nonneg reads l). pose proof (tally_le_length reads l).
      destruct (rwspin_local p s p' s' (tally reads l) (tally writes l) Hl) as [Hs' Hc']; [lia|done|..].
      { intros E. by eapply tally_pos. }
      { intros E. by eapply tally_pos. }
      { by apply (Forall_lookup_1 _ _ _ _ Hc Hi). }
      unfold RwSpinInv; cbn [shared threads]. rewrite length_insert, !(tally_insert _ _ _ _ p' Hi).
      split_and!; [done|by apply Forall_insert|done].
    - unfold RwSpinInv, rwspin_init; cbn [shared threads]. rewrite length_replicate, !tally_replicate by done.
      split_and!; [done|by apply Forall_replicate|by left]. }
  split.
  - intros i j p q Hi Hj Hp Hq. destruct (decide (i = j)) as [|Hij]; [done|].
    pose proof (tally_pos writes _ i p Hi Hp). destruct (writes q) eqn:Ew.
    + pose proof (tally_two writes _ i j p q Hi Hj Hp Ew Hij). lia.
    + pose proof (tally_pos reads _ j q Hj Hq). lia.
  - case_bool_decide; lia.
Qed.

Lemma rwspin_exclusion_witness :
  let c := MkConf (-1) [PWriting; PSLoad] in
  rtc fstep (rwspin_init 2) c ∧ shared c = -1.
Proof.
  intros c. assert (Hr : rtc fstep (rwspin_init 2) c).
  { apply (run_moves_steps [Call 0 1; Step 0 true; Step 0 false; Call 1 0; Step 1 false]). vm_compute. reflexivity. }
  split; [exact Hr|]. exact (proj2 (rwspin_exclusion 2 c ltac:(lia) Hr)).
Defined.

End RwSpin.

(** ** Barrier *)

Module Spin_Barrier.

Record Barrier := MkBarrier { threshold_ : Z; count_ : Z; generation_ : Z }.

(** The constructor. *)
Definition newBarrier (count : Z) : outcome Barrier :=
  if count =? 0 then Throw InvalidArgument else Ok (MkBarrier count count 0).

Inductive qpc := QIdle | QLoad | QSub (gen : Z) | QStore | QAdd | QSpin (gen : Z).

(** A thread: how many [wait]s it has completed, and its program counter. *)
Record qthread := MkQ { rounds : Z; qat : qpc }.

Definition go (t : qthread) (q : qpc) : qthread := MkQ (rounds t) q.
Definition passed (t : qthread) : qthread := MkQ (rounds t + 1) QIdle.

(** [Barrier::wait]. *)
Definition wait (t : qthread) : option (faction qthread Barrier) :=
  match qat t with
  | QLoad => Some (Atomic (λ _ s, (go t (QSub (generation_ s)), s)))
  | QSub gen => Some (Atomic (λ _ s,
      (go t (if count_ s =? 1 then QStore else QSpin gen),
       MkBarrier (threshold_ s) (u64 (count_ s - 1)) (generation_ s))))
  | QStore => Some (Atomic (λ _ s, (go t QAdd, MkBarrier (threshold_ s) (threshold_ s) (generation_ s))))
  | QAdd => Some (Atomic (λ _ s,
      (passed t, MkBarrier (threshold_ s) (count_ s) (u64 (generation_ s + 1)))))
  | QSpin gen => Some (Atomic (λ _ s, (if generation_ s =? gen then t else passed t, s)))
  | QIdle => None
  end.

#[export] Instance barrier_prog : FutexProg qthread Barrier := λ t,
  match wait t with Some a => a | None => AtRest [go t QLoad] end.

(** As many threads as the barrier counts. *)
Definition barrier_init (n : nat) : config qthread Barrier :=
  MkConf (MkBarrier (Z.of_nat n) (Z.of_nat n) 0) (replicate n (MkQ 0 QIdle)).

(** Has counted itself in for the wait it is inside. *)
Definition arrived (t : qthread) : bool :=
  match qat t with QStore | QAdd | QSpin _ => true | _ => false end.

Definition storing (t : qthread) : bool := match qat t with QStore => true | _ => false end.
Definition adding (t : qthread) : bool := match qat t with QAdd => true | _ => false end.

(** Waiting for generation [G] to end. *)
Definition waits (G : Z) (t : qthread) : bool :=
  match qat t with QSpin _ => rounds t =? G | _ => false end.

(** What a thread may be doing in generation [G]. *)
Definition in_round (G : Z) (t : qthread) : Prop :=
  match qat t with
  | QSub g => rounds t = G ∧ g = u64 G
  | QSpin g => rounds t = G ∧ g = u64 G ∨ rounds t = G - 1 ∧ g = u64 (G - 1)
  | _ => rounds t = G
  end.

Definition BarrierInv (n : Z) (c : config qthread Barrier) : Prop :=
  ∃ G, let l := threads c in let s := shared c in
    Z.of_nat (length l) = n ∧ threshold_ s = n ∧ generation_ s = u64 G ∧ Forall (in_round G) l ∧
    (tally storing l = 0 ∧ tally adding l = 0 ∧ count_ s = n - tally (waits G) l ∨
     tally storing l = 1 ∧ tally adding l = 0 ∧ count_ s = 0 ∧ tally (waits G) l = n - 1 ∨
     tally storing l = 0 ∧ tally adding l = 1 ∧ count_ s = n ∧ tally (waits G) l = n - 1).

(** Disjoint roles add up to at most the number of threads, and to fewer when
    some thread has none of them. *)
Lemma roles_bound G l i p :
  l !! i = Some p → storing p = false → adding p = false → waits G p = false →
  tally storing l + tally adding l + tally (waits G) l <= Z.of_nat (length l) - 1.
Proof.
  intros Hi H1 H2 H3. rewrite <- !total_tally, <- !total_add.
  apply (total_lt_length _ _ i p); [|done|by rewrite H1, H2, H3].
  intros [r []]; cbn; try lia. destruct (r =? G); simpl; lia.
Qed.

(** When the roles are full and one thread leaves the spin, everybody else
    waits: the counts decide each thread. *)
Lemma all_wait G l i p :
  l !! i = Some p → waits G p = false → tally (waits G) l = Z.of_nat (length l) - 1 →
  ∀ j q, l !! j = Some q → j ≠ i → waits G q = true.
Proof.
  intros Hi Hp Ht j q Hj Hij. destruct (waits G q) eqn:E; [done|].
  assert (Hn : tally (λ t, negb (waits G t)) l = 1).
  { pose proof (tally_negb (waits G) l). lia. }
  pose proof (tally_two (λ t, negb (waits G t)) l i j p q Hi Hj ltac:(simpl; by rewrite Hp) ltac:(simpl; by rewrite E) ltac:(done)).
  lia.
Qed.

Lemma u64_next G : u64 (u64 G + 1) = u64 (G + 1).
Proof. unfold u64, wrap. by rewrite Zplus_mod_idemp_l. Qed.

Lemma u64_prev_ne G : u64 (G - 1) ≠ u64 G.
Proof.
  unfold u64, wrap. intros E. pose proof (Z.div_mod (G - 1) (2 ^ 64) ltac:(lia)).
  pose proof (Z.div_mod G (2 ^ 64) ltac:(lia)). rewrite E in *. nia.
Qed.

(** Moves that stay in the generation. *)
Lemma barrier_local p s p' s' G :
  local_step p s p' s' → in_round G p → adding p = false → generation_ s = u64 G →
  in_round G p' ∧ threshold_ s' = threshold_ s ∧ generation_ s' = u64 G ∧
  Z.b2z (adding p') = Z.b2z (storing p) ∧
  (storing p = true → count_ s' = threshold_ s ∧ waits G p' = false ∧ storing p' = false) ∧
  (storing p = false → (∀ g, qat p ≠ QSub g) → count_ s' = count_ s ∧ waits G p' = waits G p ∧ storing p' = false) ∧
  (∀ g, qat p = QSub g → count_ s' = u64 (count_ s - 1) ∧
     storing p' = (count_ s =? 1) ∧ waits G p' = negb (count_ s =? 1)).
Proof.
  intros Hl Hp Ha Hg. destruct p as [r q]. 
  inversion Hl as [? ? f b0 Hac|? ? ? ? ? ? Hac|? ? ? ? ? Hac|? ? ? ? ? Hac|? ? ? ? ? Hac|? ? ? ? Hac Hin]; subst; clear Hl.
  all: destruct q; hnf_action Hac; try discriminate Hac; injection Hac; clear Hac; intros; subst; try discriminate Ha.
  all: try (solve_member Hin).
  all: unfold in_round, waits, storing, adding, go, passed in *; cbn [qat rounds fst snd Z.b2z] in *.
  all: repeat match type of Hp with _ ∨ _ => destruct Hp as [Hp|Hp] | _ ∧ _ => destruct Hp as [-> ->] end.
  all: rewrite ?Hg, ?Z.eqb_refl.
  all: try (destruct (Z.eqb_spec (u64 G) (u64 (G - 1))) as [E|_]; [by destruct (u64_prev_ne G)|]).
  all: try (destruct (Z.eqb_spec (count_ s') 1)).
  all: repeat (case_match; bool_hyps; simplify_eq/=); split_and!; intros; simplify_eq/=; try done; try lia.
  all: rewrite ?Z.eqb_refl; try done; try (left; done); try (split_and!; done).
  all: match goal with H : ∀ g, QSub _ ≠ QSub g |- _ => by destruct (H _ eq_refl) end.
Qed.

(** The last thread opens the next generation: everybody else was waiting. *)
Lemma barrier_add n s l i p :
  0 < n → BarrierInv n (MkConf s l) → l !! i = Some p → qat p = QAdd →
  BarrierInv n (MkConf (MkBarrier (threshold_ s) (count_ s) (u64 (generation_ s + 1))) (<[i := passed p]> l)).
Proof.
  intros Hn0 (G & Hlen & Hth & Hg & Hf & Hc) Hi Hp. cbn [shared threads] in *.
  assert (Ha : adding p = true) by (unfold adding; by rewrite Hp).
  pose proof (tally_pos adding l i p Hi Ha).
  destruct Hc as [Hc|[Hc|(Hs0 & Ha1 & Hcn & Hw)]]; [lia..|].
  assert (Hwp : waits G p = false) by (unfold waits; by rewrite Hp).
  assert (Hall : ∀ j q, l !! j = Some q → j ≠ i → waits G q = true) by (apply (all_wait G l i p); [done..|lia]).
  assert (Hrp : rounds p = G).
  { pose proof (Forall_lookup_1 _ _ _ _ Hf Hi) as H1. unfold in_round in H1. by rewrite Hp in H1. }
  assert (Hother : ∀ j q, l !! j = Some q → j ≠ i → ∃ g, q = MkQ G (QSpin g) ∧ g = u64 G).
  { intros j q Hj Hij. specialize (Hall j q Hj Hij). pose proof (Forall_lookup_1 _ _ _ _ Hf Hj) as Hq.
    unfold waits in Hall. unfold in_round in Hq. destruct q as [r []]; try done. cbn in *. bool_hyps.
    subst r. exists gen. split; [done|]. lia. }
  exists (G + 1). cbn [shared threads threshold_ count_ generation_].
  rewrite length_insert, Hg, u64_next, !(tally_insert _ _ _ _ (passed p) Hi).
  assert (Hz : tally (waits (G + 1)) l = 0).
  { rewrite <- total_tally. apply total_zero, Forall_lookup_2. intros j q Hj. destruct (decide (j = i)) as [->|Hij].
    - simplify_eq. unfold waits. by rewrite Hp.
    - destruct (Hother j q Hj Hij) as (g & -> & _). unfold waits. cbn. destruct (Z.eqb_spec G (G + 1)); [lia|done]. }
  assert (storing p = false ∧ waits (G + 1) p = false) as [E1 E2] by (unfold storing, waits; by rewrite Hp).
  split_and!; try done.
  - apply Forall_lookup_2. intros j q Hj. destruct (decide (j = i)) as [->|Hij].
    + rewrite list_lookup_insert_eq in Hj by by eapply lookup_lt_Some. simplify_eq. unfold in_round. simpl. lia.
    + rewrite list_lookup_insert_ne in Hj by done. destruct (Hother j q Hj Hij) as (g & -> & ->).
      unfold in_round. cbn. right. split; [lia|f_equal; lia].
  - left. rewrite E1, E2, Ha, Hz, Hs0, Ha1. cbn. lia.
Qed.

Lemma barrier_stay n s l i p p' s' :
  0 < n < 2 ^ 64 → BarrierInv n (MkConf s l) → l !! i = Some p → local_step p s p' s' → adding p = false →
  BarrierInv n (MkConf s' (<[i := p']> l)).
Proof.
  intros Hn (G & Hlen & Hth & Hg & Hf & Hc) Hi Hl Ha. cbn [shared threads] in *.
  pose proof (Forall_lookup_1 _ _ _ _ Hf Hi) as Hp.
  destruct (barrier_local p s p' s' G Hl Hp Ha Hg) as (Hp' & Hth' & Hg' & Ha' & Hs1 & Hs2 & Hsub).
  exists G. cbn [shared threads]. rewrite length_insert, !(tally_insert _ _ _ _ p' Hi), Ha, Ha'.
  split_and!; try done; [by rewrite Hth'|by apply Forall_insert|].
  destruct (storing p) eqn:Es.
  { destruct (Hs1 eq_refl) as (-> & -> & ->). pose proof (tally_pos storing l i p Hi Es).
    assert (waits G p = false) as -> by (unfold storing, waits in *; by destruct (qat p)). cbn. lia. }
  destruct (qat p) as [| |g| | |] eqn:Eq.
  3: { destruct (Hsub g eq_refl) as (-> & -> & ->).
    assert (Hw : waits G p = false) by (unfold waits; by rewrite Eq).
    pose proof (roles_bound G l i p Hi Es Ha Hw). pose proof (tally_nonneg (waits G) l). rewrite Hw.
    destruct Hc as [(Hc1 & Hc2 & Hc3)|[Hc|Hc]]; [|lia..].
    unfold u64. rewrite wrap_small by lia. destruct (Z.eqb_spec (count_ s) 1); cbn; lia. }
  all: destruct (Hs2 eq_refl) as (-> & -> & ->); [by intros ?|]; cbn; lia.
Qed.

(** C32: The barrier holds everybody back: with as many threads as it counts,
    over every interleaving and any number of rounds, no thread completes its
    [k]-th [wait] before every thread has arrived at its own [k]-th, and no
    thread is ever more than one round ahead. *)
Theorem barrier_separates n c :
  0 < Z.of_nat n < 2 ^ 64 → rtc fstep (barrier_init n) c →
  ∀ t u, t ∈ threads c → u ∈ threads c → rounds t <= rounds u + Z.b2z (arrived u).
Proof.
  intros Hn Hr. assert (BarrierInv (Z.of_nat n) c) as (G & _ & _ & _ & Hf & _).
  { refine (fstep_invariant (BarrierInv (Z.of_nat n)) _ _ _ Hr _).
    - intros s l i p p' s' HI Hi Hl. destruct (adding p) eqn:Ea; [|by eapply barrier_stay].
      assert (Hq : qat p = QAdd) by (unfold adding in Ea; by destruct (qat p)).
      pose proof (barrier_add (Z.of_nat n) s l i p ltac:(lia) HI Hi Hq) as HA.
      destruct p as [r q]. simpl in Hq. subst q.
      inversion Hl as [? ? f b0 Hac|? ? ? ? ? ? Hac|? ? ? ? ? Hac|? ? ? ? ? Hac|? ? ? ? ? Hac|? ? ? ? Hac Hin]; subst; clear Hl;
        hnf_action Hac; try discriminate Hac; injection Hac; clear Hac; intros; subst. exact HA.
    - exists 0. unfold barrier_init; cbn [shared threads threshold_ count_ generation_].
      rewrite length_replicate, !tally_replicate by done. split_and!; try done; [by apply Forall_replicate|left; lia]. }
  intros t u Ht Hu. rewrite Forall_forall in Hf. pose proof (Hf t Ht) as H1. pose proof (Hf u Hu) as H2.
  unfold in_round, arrived in *. destruct (qat t), (qat u); simpl; lia.
Qed.

(** Thread 1 arrives last and passes; thread 0 is still inside. *)
Lemma barrier_separates_witness :
  let c := MkConf (MkBarrier 2 2 1) [MkQ 0 (QSpin 0); MkQ 1 QIdle] in
  rtc fstep (barrier_init 2) c ∧
  ∀ t u, t ∈ threads c → u ∈ threads c → rounds t <= rounds u + Z.b2z (arrived u).
Proof.
  intros c. assert (Hr : rtc fstep (barrier_init 2) c).
  { apply (run_moves_steps [Call 0 0; Step 0 false; Step 0 false; Step 0 false; Call 1 0; Step 1 false;
      Step 1 false; Step 1 false; Step 1 false]). vm_compute. reflexivity. }
  split; [exact Hr|]. exact (barrier_separates 2 c ltac:(lia) Hr).
Defined.

End Spin_Barrier.

(** ** SeqLock *)

(** Writers change two words inside [lock]/[unlock]; the function a reader
    passes to [read] loads both. *)
Module SeqLock_.

Record SeqLock := MkSeq { seq_ : Z; writerLock_ : bool; data : Z * Z }.

Definition bump (s : SeqLock) : SeqLock := MkSeq (u64 (seq_ s + 1)) (writerLock_ s) (data s).

Inductive epc :=
  | EIdle | EReturned (r : Z * Z)
  | ELock (v : Z * Z) | EEnter (v : Z * Z) | EFirst (v : Z * Z) | ESecond (v : Z * Z) | ELeave | EUnlock
  | RLoad | RFirst (version : Z) (again : option Z) | RSecond (version x : Z) (again : option Z)
  | RCheck (version x y : Z) (again : option Z).

(** [lock], and the writes of its holder. *)
Definition seq_lock (p : epc) : option (faction epc SeqLock) :=
  match p with
  | ELock v => Some (Atomic (λ _ s,
      if writerLock_ s then (ELock v, s) else (EEnter v, MkSeq (seq_ s) true (data s))))
  | EEnter v => Some (Atomic (λ _ s, (EFirst v, bump s)))
  | _ => None
  end.

Definition holder (p : epc) : option (faction epc SeqLock) :=
  match p with
  | EFirst v => Some (Atomic (λ _ s, (ESecond v, MkSeq (seq_ s) (writerLock_ s) (v.1, (data s).2))))
  | ESecond v => Some (Atomic (λ _ s, (ELeave, MkSeq (seq_ s) (writerLock_ s) ((data s).1, v.2))))
  | _ => None
  end.

Definition seq_unlock (p : epc) : option (faction epc SeqLock) :=
  match p with
  | ELeave => Some (Atomic (λ _ s, (EUnlock, bump s)))
  | EUnlock => Some (Atomic (λ _ s, (EIdle, MkSeq (seq_ s) false (data s))))
  | _ => None
  end.

(** [read] with a function that loads the two words.  The second load of [seq_]
    is an acquire load: it keeps later accesses after it, but not the earlier
    loads of the function before it.  On a machine that makes use of this
    ([reorders]) it may be performed before one of them or both; [again] is the
    value it has found. *)
Definition read (reorders : bool) (p : epc) : option (faction epc SeqLock) :=
  match p with
  | RLoad => Some (Atomic (λ _ s, (if Z.land (seq_ s) 1 =? 0 then RFirst (seq_ s) None else RLoad, s)))
  | RFirst v c => Some (Atomic (λ early s,
      (if reorders && early && bool_decide (c = None) then RFirst v (Some (seq_ s)) else RSecond v (data s).1 c, s)))
  | RSecond v x c => Some (Atomic (λ early s,
      (if reorders && early && bool_decide (c = None) then RSecond v x (Some (seq_ s)) else RCheck v x (data s).2 c, s)))
  | RCheck v x y c => Some (Atomic (λ _ s, (if default (seq_ s) c =? v then EReturned (x, y) else RLoad, s)))
  | _ => None
  end.

Section seqlock.
(** The machine, and the values the writers write. *)
Context (reorders : bool) (vals : list (Z * Z)).

#[export] Instance seqlock_prog : FutexProg epc SeqLock := λ p,
  match seq_lock p with
  | Some a => a
  | None => match holder p with
  | Some a => a
  | None => match seq_unlock p with
  | Some a => a
  | None => match read reorders p with
  | Some a => a
  | None => AtRest (RLoad :: (ELock <$> vals))
  end end end end.

Definition seqlock_init (d : Z * Z) (n : nat) : config epc SeqLock :=
  MkConf (MkSeq 0 false d) (replicate n EIdle).

(** Holding the writer lock, and between the two increments. *)
Definition owns (p : epc) : bool :=
  match p with EEnter _ | EFirst _ | ESecond _ | ELeave | EUnlock => true | _ => false end.
Definition writing (p : epc) : bool := match p with EFirst _ | ESecond _ | ELeave => true | _ => false end.

(** What a reader knows while the sequence number is still the one it read, when
    its loads are made in the order of the program. *)
Definition reader_ok (s : SeqLock) (p : epc) : Prop :=
  match p with
  | RFirst v c => c = None ∧ v mod 2 = 0 ∧ v <= seq_ s
  | RSecond v x c => c = None ∧ v mod 2 = 0 ∧ v <= seq_ s ∧ (seq_ s = v → x = (data s).1)
  | RCheck v x y c => c = None ∧ v mod 2 = 0 ∧ v <= seq_ s ∧ (seq_ s = v → (x, y) = data s)
  | _ => True
  end.

(** What writers write, and what readers have returned. *)
Definition value_ok (d : Z * Z) (s : SeqLock) (p : epc) : Prop :=
  match p with
  | ELock v | EEnter v | EFirst v => v ∈ vals
  | ESecond v => v ∈ vals ∧ (data s).1 = v.1
  | ELeave => data s ∈ d :: vals
  | EReturned r => r ∈ d :: vals
  | _ => True
  end.

Definition SeqInv (d : Z * Z) (c : config epc SeqLock) : Prop :=
  0 <= seq_ (shared c) < 2 ^ 64 ∧ tally owns (threads c) = Z.b2z (writerLock_ (shared c)) ∧
  seq_ (shared c) mod 2 = tally writing (threads c) ∧ Forall (reader_ok (shared c)) (threads c) ∧
  Forall (value_ok d (shared c)) (threads c) ∧ (seq_ (shared c) mod 2 = 0 → data (shared c) ∈ d :: vals).

(** The sequence number has not wrapped around. *)
Definition seq_room (c : config epc SeqLock) : Prop := seq_ (shared c) + 1 < 2 ^ 64.

Lemma land1 n : (Z.land n 1 =? 0) = (n mod 2 =? 0).
Proof. change 1 with (Z.ones 1). by rewrite Z.land_ones. Qed.

Hypothesis Hord : reorders = false.

Lemma seq_local d p s p' s' w :
  local_step p s p' s' → 0 <= seq_ s → seq_ s + 1 < 2 ^ 64 → reader_ok s p → value_ok d s p →
  (seq_ s mod 2 = 0 → data s ∈ d :: vals) →
  (owns p = true → writerLock_ s = true) → (writing p = true → w = 1) →
  (owns p = true → writing p = false → w = 0) → seq_ s mod 2 = w →
  let w' := w - Z.b2z (writing p) + Z.b2z (writing p') in
  0 <= seq_ s' < 2 ^ 64 ∧ reader_ok s' p' ∧ value_ok d s' p' ∧ (seq_ s' mod 2 = 0 → data s' ∈ d :: vals) ∧
  Z.b2z (owns p') - Z.b2z (owns p) = Z.b2z (writerLock_ s') - Z.b2z (writerLock_ s) ∧
  seq_ s' mod 2 = w' ∧ seq_ s <= seq_ s' ∧ (seq_ s' = seq_ s → data s' = data s ∨ seq_ s mod 2 = 1) ∧
  (data s' = data s ∨ writing p = true).
Proof.
  intros Hl H0 Hr Hp Hv Hd Ho Hw Hw0 Hm. destruct s as [q lk [d1 d2]]. cbn [seq_ writerLock_ data] in *.
  inversion Hl as [? ? f b0 Ha|? ? ? ? ? ? Ha|? ? ? ? ? Ha|? ? ? ? ? Ha|? ? ? ? ? Ha|? ? ? ? Ha Hin]; subst; clear Hl.
  all: destruct p; hnf_action Ha; try discriminate Ha; injection Ha; clear Ha; intros; subst.
  all: try (apply elem_of_cons in Hin as [->|Hin]; [|apply list_elem_of_fmap in Hin as (v' & -> & Hv')]).
  all: try (specialize (Ho eq_refl)); try (specialize (Hw eq_refl)); try (specialize (Hw0 eq_refl eq_refl)).
  all: rewrite ?Hord; unfold bump in *; cbn [owns writing reader_ok value_ok seq_ writerLock_ data fst snd Z.b2z andb] in *; rewrite ?land1.
  all: try (unfold u64; rewrite wrap_small by lia).
  all: repeat match goal with H : _ ∧ _ |- _ => destruct H end; subst; cbn [default] in *.
  all: repeat (case_match; bool_hyps; cbn [owns writing reader_ok value_ok seq_ writerLock_ data fst snd Z.b2z] in *; simplify_eq).
  all: try match type of Hw with _ → _ => clear Hw end; try match type of Hw0 with _ → _ => clear Hw0 end.
  all: try (rewrite <- (Zplus_mod_idemp_l q 1 2)).
  all: try (rewrite Hw); try (rewrite Hw0).
  all: split_and!; intros; cbn in *; try lia; try done; try (left; done); try naive_solver (lia || congruence).
  all: try (match goal with v : Z * Z |- _ => destruct v as [v1 v2]; cbn in *; subst; by right end).
Qed.

Lemma reader_ok_mono s s' p :
  seq_ s <= seq_ s' → (seq_ s' = seq_ s → data s' = data s ∨ seq_ s mod 2 = 1) →
  reader_ok s p → reader_ok s' p.
Proof.
  intros Hle Hd. destruct p as [| | | | | | | | |v c|v x c|v x y c]; simpl; try done.
  - naive_solver lia.
  - intros (Hc & Hv & Hl & Hx). split_and!; [done|done|lia|]. intros E. assert (seq_ s = v) as Es by lia.
    destruct (Hd ltac:(lia)) as [->|Ho]; [by apply Hx|]. rewrite Es in Ho. lia.
  - intros (Hc & Hv & Hl & Hx). split_and!; [done|done|lia|]. intros E. assert (seq_ s = v) as Es by lia.
    destruct (Hd ltac:(lia)) as [->|Ho]; [by apply Hx|]. rewrite Es in Ho. lia.
Qed.

(** A step that leaves the words alone, or that is made by the only writer. *)
Lemma value_ok_mono d s s' p q :
  (data s' = data s ∨ (writing p = true ∧ writing q = false)) → value_ok d s q → value_ok d s' q.
Proof. intros [E|[_ Hq]]; destruct q; cbn in *; try done; by rewrite E. Qed.

Lemma seq_step_inv d s l i p p' s' :
  seq_room (MkConf s l) → SeqInv d (MkConf s l) → l !! i = Some p → local_step p s p' s' →
  SeqInv d (MkConf s' (<[i := p']> l)).
Proof.
  intros Hroom (Hq & Ho & Hm & Hf & Hvs & Hdat) Hi Hl. unfold seq_room in Hroom. cbn [shared threads] in *.
  assert (Hle : tally writing l <= tally owns l).
  { rewrite <- !total_tally. apply total_le. by intros []. }
  assert (Hlock : owns p = true → writerLock_ s = true).
  { intros E. pose proof (tally_pos owns l i p Hi E). destruct (writerLock_ s); [done|simpl in *; lia]. }
  assert (Hb : tally owns l <= 1) by (rewrite Ho; destruct (writerLock_ s); simpl; lia).
  assert (Hone : owns p = true → ∀ j q, l !! j = Some q → writing q = true → j = i).
  { intros E1 j q Hj Eq. destruct (decide (j = i)) as [|Hne]; [done|]. exfalso.
    pose proof (tally_two owns l i j p q Hi Hj E1 ltac:(by destruct q) ltac:(done)). lia. }
  destruct (seq_local d p s p' s' (tally writing l) Hl) as (Hq' & Hp' & Hv' & Hd0' & Ho' & Hm' & Hs' & Hd' & Hwd); try done; try lia.
  - by apply (Forall_lookup_1 _ _ _ _ Hf Hi).
  - by apply (Forall_lookup_1 _ _ _ _ Hvs Hi).
  - intros E. pose proof (tally_pos writing l i p Hi E). lia.
  - intros E1 E2. destruct (decide (tally writing l = 0)) as [|Hne]; [done|]. exfalso.
    pose proof (tally_nonneg writing l).
    destruct (total_exists (λ q, Z.b2z (writing q)) l ltac:(rewrite total_tally; lia)) as (q & [j Hj]%list_elem_of_lookup & Hwq).
    destruct (writing q) eqn:Eq; [|simpl in Hwq; lia]. assert (j = i) as -> by by eapply Hone. simplify_eq. congruence.
  - unfold SeqInv; cbn [shared threads]. rewrite !(tally_insert _ _ _ _ p' Hi). split_and!; [lia|lia|lia|lia| | |done].
    + apply Forall_insert; [|done]. eapply Forall_impl; [exact Hf|]. intros q. by apply reader_ok_mono.
    + apply Forall_lookup. intros j q Hj. apply list_lookup_insert_Some in Hj as [(<- & <- & _)|[Hne Hj]]; [done|].
      apply (value_ok_mono d s s' p q); [|by apply (Forall_lookup_1 _ _ _ _ Hvs Hj)]. destruct Hwd as [|Hw]; [by left|right]. split; [done|].
      destruct (writing q) eqn:Eq; [|done]. exfalso. apply Hne. symmetry. apply (Hone ltac:(by destruct p) j q Hj Eq).
Qed.

Lemma seq_reachable_inv d n c : rtc (fstep_while seq_room) (seqlock_init d n) c → SeqInv d c.
Proof.
  intros Hr. refine (fstep_wake_invariant seq_room (SeqInv d) _ _ _ _ Hr _).
  - intros s l i p p' s' Hok HI Hi Hl _. by eapply seq_step_inv.
  - intros s l i p addr m k us _ _ Hi Ha. exfalso. by destruct p.
  - unfold SeqInv, seqlock_init; cbn [shared threads seq_ writerLock_]. rewrite !tally_replicate by done.
    split_and!; try done; try (by apply Forall_replicate). intros _. left.
Qed.
End seqlock.

(** C33: A sequence-lock read is consistent where the loads are made in the order
    of the program: over every interleaving in which the 64-bit sequence number has
    not wrapped, what [read] returns is the pair one write has written, or the
    initial one, and when its final check finds the number it started from, the two
    words are those in memory at that moment and no writer is between its two
    increments.  On a machine that performs the second load of the number before
    the loads of the function, which an acquire load allows, it is not: a read can
    return the first word from before a write and the second from after it. *)
Theorem seqlock_consistent vals d n c :
  @rtc _ (@fstep_while _ _ (seqlock_prog false vals) seq_room) (seqlock_init d n) c →
  (∀ r, EReturned r ∈ threads c → r ∈ d :: vals) ∧
  (∀ v x y a, RCheck v x y a ∈ threads c → default (seq_ (shared c)) a = v →
     (x, y) = data (shared c) ∧ data (shared c) ∈ d :: vals ∧ ∀ q, q ∈ threads c → writing q = false) ∧
  (∀ v, ∃ c', @rtc _ (@fstep_while _ _ (seqlock_prog true [v]) seq_room) (seqlock_init d 2) c' ∧
     EReturned (d.1, v.2) ∈ threads c').
Proof.
  intros Hr. destruct (seq_reachable_inv false vals eq_refl d n c Hr) as (_ & _ & Hm & Hf & Hv & Hd). split_and!.
  - intros r Hin. rewrite Forall_forall in Hv. exact (Hv _ Hin).
  - intros v x y a Hin Ha. rewrite Forall_forall in Hf. destruct (Hf _ Hin) as (-> & Hev & _ & Hx). cbn in Ha.
    split_and!; [by apply Hx|apply Hd; congruence|]. intros q [j Hj]%list_elem_of_lookup. destruct (writing q) eqn:E; [|done].
    pose proof (tally_pos writing _ j q Hj E). rewrite Ha, Hev in Hm. lia.
  - intros v. eexists. split.
    + refine (@run_moves_while _ _ (seqlock_prog true [v]) (λ c, seq_ (shared c) + 1 <? 2 ^ 64) seq_room
        [Call 0 0; Step 0 false; Step 0 true; Step 0 false; Call 1 1; Step 1 false; Step 1 false; Step 1 false; Step 1 false;
         Step 1 false; Step 1 false; Step 0 false; Step 0 false] _ _ _ _); [intros c0 H; by apply Z.ltb_lt|].
      vm_compute. reflexivity.
    + cbn. left.
Qed.

(** A reader starts, a writer writes both words and leaves, the reader starts
    again and reads both. *)
Lemma seqlock_consistent_witness :
  let c := MkConf (MkSeq 2 false (7, 8)) [RCheck 2 7 8 None; EIdle] in
  @rtc _ (@fstep_while _ _ (seqlock_prog false [(7, 8)]) seq_room) (seqlock_init (0, 0) 2) c ∧ (7, 8) = data (shared c) ∧
  ∃ c', @rtc _ (@fstep_while _ _ (seqlock_prog true [(7, 8)]) seq_room) (seqlock_init (0, 0) 2) c' ∧ EReturned (0, 8) ∈ threads c'.
Proof.
  intros c. assert (Hr : @rtc _ (@fstep_while _ _ (seqlock_prog false [(7, 8)]) seq_room) (seqlock_init (0, 0) 2) c).
  { refine (@run_moves_while _ _ (seqlock_prog false [(7, 8)]) (λ c, seq_ (shared c) + 1 <? 2 ^ 64) seq_room
      [Call 0 0; Step 0 false; Step 0 false; Call 1 1; Step 1 false; Step 1 false; Step 1 false; Step 1 false;
       Step 1 false; Step 1 false; Step 0 false; Step 0 false; Step 0 false; Step 0 false; Step 0 false] _ _ _ _).
    - intros c0 H. by apply Z.ltb_lt.
    - vm_compute. reflexivity. }
  destruct (seqlock_consistent [(7, 8)] (0, 0) 2 c Hr) as (_ & H2 & H3).
  split; [exact Hr|]. split; [|exact (H3 (7, 8))]. refine (proj1 (H2 2 7 8 None _ eq_refl)). left.
Defined.

End SeqLock_.
