(* ===== verification/RateLimiter.v ===== *)
(** * Rate limiters (src/src/rate_limiter.cpp, include/pman/rate_limiter.hpp)

    The sliding-window limiter over integer nanoseconds, and the token bucket
    over IEEE binary64 numbers ([spec_float] with 53 bits of precision).  Clock
    reads are arguments in the order the code makes them. *)

From Stdlib Require Import SpecFloat.
From S2P Require Import Prelude FutexMutex.

(** ** Sliding window *)

Record SlidingWindow := MkWindow {
  maxRequests : Z;
  windowDuration : Z;
  timestamps_ : list Z
}.

Definition set_timestamps ts s := MkWindow (maxRequests s) (windowDuration s) ts.

Definition newSlidingWindow (maxReq window : Z) : outcome SlidingWindow :=
  if maxReq =? 0 then Throw InvalidArgument
  else if window <=? 0 then Throw InvalidArgument
  else Ok (MkWindow maxReq window []).

(** [cleanup]: pop from the front while older than the cutoff. *)
Definition cleanup (now : Z) (s : SlidingWindow) : SlidingWindow :=
  let cutoff := now - windowDuration s in
  set_timestamps (span (λ ts, ts <? cutoff) (timestamps_ s)).2 s.

Definition has_room (s : SlidingWindow) : bool := Z.of_nat (length (timestamps_ s)) <? maxRequests s.

(** [tryAcquire]: [now1] is read by [cleanup], [now2] for the timestamp. *)
Definition sw_tryAcquire (now1 now2 : Z) (s : SlidingWindow) : bool * SlidingWindow :=
  let s1 := cleanup now1 s in
  if has_room s1 then (true, set_timestamps (timestamps_ s1 ++ [now2]) s1) else (false, s1).

(** How long [acquire] asks [wait_for] to wait. *)
Definition sw_waitTime (now : Z) (s : SlidingWindow) : Z :=
  let oldestExpiry := default 0 (head (timestamps_ s)) + windowDuration s in
  if oldestExpiry >? now then oldestExpiry - now else 0.

(** One pass of a waiting loop: the clock reads of [cleanup], of the timestamp
    and of the wait, and the result of the timed wait; nothing notifies the
    condition variable, so its sequence number stays. *)
Record pass := MkPass { p_now1 : Z; p_now2 : Z; p_now3 : Z; p_wait : list wait_result }.

(** [acquire], for as many passes as are given; past them it is still waiting. *)
Fixpoint sw_acquire (ps : list pass) (s : SlidingWindow) : outcome unit * SlidingWindow :=
  match ps with
  | [] => (Hang, s)
  | p :: ps' =>
      let '(ok, s1) := sw_tryAcquire (p_now1 p) (p_now2 p) s in
      if ok then (Ok tt, s1)
      else match (wait_for (p_wait p) 0 0).1 with
           | Ok _ => sw_acquire ps' s1
           | Throw e => (Throw e, s1)
           | Hang => (Hang, s1)
           end
  end.

(** [tryAcquireFor]: gives up at the deadline. *)
Fixpoint sw_tryAcquireFor (deadline : Z) (ps : list pass) (s : SlidingWindow)
  : outcome bool * SlidingWindow :=
  match ps with
  | [] => (Hang, s)
  | p :: ps' =>
      let '(ok, s1) := sw_tryAcquire (p_now1 p) (p_now2 p) s in
      if ok then (Ok true, s1)
      else if p_now3 p >=? deadline then (Ok false, s1)
      else match (wait_for (p_wait p) 0 0).1 with
           | Ok _ => sw_tryAcquireFor deadline ps' s1
           | Throw e => (Throw e, s1)
           | Hang => (Hang, s1)
           end
  end.

Definition remainingRequests (now : Z) (s : SlidingWindow) : Z :=
  let cutoff := now - windowDuration s in
  let valid := Z.of_nat (length (filter (λ ts, cutoff <= ts) (timestamps_ s))) in
  if maxRequests s >? valid then maxRequests s - valid else 0.

Definition timeUntilReset (now : Z) (s : SlidingWindow) : Z :=
  let cutoff := now - windowDuration s in
  match list_find (λ ts, cutoff <= ts) (timestamps_ s) with
  | Some (_, ts) => ts + windowDuration s - now
  | None => 0
  end.

(** ** The bound *)

(** Grants of a sequence of [tryAcquire] calls, as their timestamps. *)
Fixpoint sw_grants (calls : list (Z * Z)) (s : SlidingWindow) : list Z * SlidingWindow :=
  match calls with
  | [] => ([], s)
  | (now1, now2) :: calls' =>
      let '(ok, s1) := sw_tryAcquire now1 now2 s in
      let '(g, s2) := sw_grants calls' s1 in
      (if ok then now2 :: g else g, s2)
  end.

(** The clock of the calls never goes back. *)
Fixpoint monotone (clk : Z) (calls : list (Z * Z)) : Prop :=
  match calls with
  | [] => True
  | (now1, now2) :: calls' => clk <= now1 ∧ now1 <= now2 ∧ monotone now2 calls'
  end.

Definition in_window (t w : Z) (g : list Z) : Z :=
  Z.of_nat (length (filter (λ x, t <= x <= t + w) g)).

Lemma in_window_app t w a b : in_window t w (a ++ b) = in_window t w a + in_window t w b.
Proof. unfold in_window. rewrite filter_app, length_app. lia. Qed.

Lemma in_window_le t w g : 0 <= in_window t w g <= Z.of_nat (length g).
Proof. unfold in_window. pose proof (length_filter (λ x, t <= x <= t + w) g). lia. Qed.

Lemma in_window_old t w g : Forall (λ x, x < t) g → in_window t w g = 0.
Proof.
  intros Hf. unfold in_window. rewrite filter_none; [done|]. eapply Forall_impl; [exact Hf|]. simpl. lia.
Qed.

(** Granted so far: [old ++ timestamps_], the old ones out of reach. *)
Definition WindowInv (clk : Z) (old : list Z) (s : SlidingWindow) : Prop :=
  0 < windowDuration s ∧ 0 <= maxRequests s ∧
  Z.of_nat (length (timestamps_ s)) <= maxRequests s ∧
  Forall (λ x, x < clk - windowDuration s) old ∧
  Sorted Z.le (timestamps_ s) ∧ Forall (λ x, x <= clk) (timestamps_ s) ∧
  ∀ t, in_window t (windowDuration s) (old ++ timestamps_ s) <= maxRequests s.

Lemma tryAcquire_inv clk old s now1 now2 ok s' :
  WindowInv clk old s → clk <= now1 → now1 <= now2 → sw_tryAcquire now1 now2 s = (ok, s') →
  windowDuration s' = windowDuration s ∧ maxRequests s' = maxRequests s ∧
  (∃ old', WindowInv now2 old' s' ∧
     old' ++ timestamps_ s' = (old ++ timestamps_ s) ++ (if ok then [now2] else [])) ∧
  (ok = false → in_window (now1 - windowDuration s) (windowDuration s) (old ++ timestamps_ s) = maxRequests s).
Proof.
  intros (Hw & Hm & Hlen & Hold & Hsort & Hclk & Hb) H1 H2 E. unfold sw_tryAcquire, cleanup in E.
  pose proof (span_app (λ ts, ts <? now1 - windowDuration s) (timestamps_ s)) as Hsp.
  pose proof (span_prefix (λ ts, ts <? now1 - windowDuration s) (timestamps_ s)) as Hpre.
  pose proof (span_rest (λ ts, ts <? now1 - windowDuration s) (timestamps_ s)) as Hrest.
  destruct (span _ (timestamps_ s)) as [drop kept]. simpl in *. unfold has_room in E. simpl in E.
  assert (Hkept : Forall (λ x, now1 - windowDuration s <= x) kept ∧ Sorted Z.le kept ∧ Forall (λ x, x <= clk) kept).
  { rewrite <- Hsp in Hsort, Hclk. apply Forall_app in Hclk as [_ Hclk].
    assert (Hs : Sorted Z.le kept) by (clear -Hsort; induction drop; [done|]; apply IHdrop; by inversion Hsort).
    split_and!; [|done|done]. destruct kept as [|k kept]; [constructor|].
    specialize (Hrest k kept eq_refl). bool_hyps. apply Sorted_StronglySorted in Hs; [|intros ???; lia].
    inversion Hs as [|? ? _ Hall]; subst. constructor; [lia|]. eapply Forall_impl; [exact Hall|]. simpl. lia. }
  destruct Hkept as (Hk & Hks & Hkc).
  assert (Hdrop : Forall (λ x, x < now1 - windowDuration s) (old ++ drop)).
  { apply Forall_app. split; [eapply Forall_impl; [exact Hold|]; simpl; lia|].
    eapply Forall_impl; [exact Hpre|]. intros x Hx. simpl in Hx. bool_hyps. lia. }
  assert (Hlk : Z.of_nat (length kept) <= maxRequests s).
  { rewrite <- Hsp, length_app in Hlen. lia. }
  destruct (Z.of_nat (length kept) <? maxRequests s) eqn:Er; simplify_eq/=; bool_hyps.
  - split_and!; [done|done| |done]. exists (old ++ drop).
    split; [|by rewrite <- Hsp, !(assoc_L (++))]. split_and!; simpl; try done.
    + rewrite length_app. simpl. lia.
    + eapply Forall_impl; [exact Hdrop|]. simpl. lia.
    + clear -Hks Hkc H1 H2. induction Hks as [|k kept Hs IH Hd]; [by repeat constructor|].
      apply Forall_cons in Hkc as [? ?]. simpl. constructor; [by apply IH|].
      destruct kept; simpl; constructor; [lia|by inversion Hd].
    + apply Forall_app. split; [eapply Forall_impl; [exact Hkc|]; simpl; lia|by repeat constructor].
    + intros t. destruct (decide (t <= now2 <= t + windowDuration s)) as [Hin|Hout].
      * rewrite in_window_app, (in_window_old _ _ (old ++ drop)).
        { pose proof (in_window_le t (windowDuration s) (kept ++ [now2])) as Hl.
          rewrite length_app in Hl. simpl in Hl. lia. }
        eapply Forall_impl; [exact Hdrop|]. simpl. lia.
      * rewrite (assoc_L (++)), in_window_app, <- (assoc_L (++)), Hsp.
        assert (in_window t (windowDuration s) [now2] = 0) as ->
          by (unfold in_window; by rewrite filter_cons_False).
        specialize (Hb t). lia.
  - split_and!; [done|done| |].
    + exists (old ++ drop). rewrite app_nil_r. split; [|by rewrite <- Hsp, (assoc_L (++))].
      split_and!; simpl; try done.
      * eapply Forall_impl; [exact Hdrop|]. simpl. lia.
      * eapply Forall_impl; [exact Hkc|]. simpl. lia.
      * intros t. rewrite <- (assoc_L (++)), Hsp. apply Hb.
    + intros _. rewrite <- Hsp, (assoc_L (++)), in_window_app, (in_window_old _ _ _ Hdrop).
      assert (Hall : in_window (now1 - windowDuration s) (windowDuration s) kept = Z.of_nat (length kept)).
      { unfold in_window. rewrite filter_all; [done|]. rewrite Forall_forall in Hk, Hkc |- *.
        intros x Hx. specialize (Hk x Hx). specialize (Hkc x Hx). simpl in *. lia. }
      rewrite Hall. lia.
Qed.

Lemma sw_grants_bound calls : ∀ clk old s,
  WindowInv clk old s → monotone clk calls →
  ∀ t, in_window t (windowDuration s) ((old ++ timestamps_ s) ++ (sw_grants calls s).1) <= maxRequests s.
Proof.
  induction calls as [|[now1 now2] calls IH]; intros clk old s HI Hmono t; simpl in *.
  - rewrite app_nil_r. apply HI.
  - destruct Hmono as (H1 & H2 & Hmono).
    destruct (sw_tryAcquire now1 now2 s) as [ok s1] eqn:E.
    destruct (tryAcquire_inv _ _ _ _ _ _ _ HI H1 H2 E) as (Hwd & Hmx & (old' & HI' & Hh) & _).
    specialize (IH now2 old' s1 HI' Hmono t). rewrite Hwd, Hmx, Hh in IH.
    destruct (sw_grants calls s1) as [g s2]. simpl in *.
    destruct ok; [by rewrite <- (assoc_L (++)) in IH|by rewrite app_nil_r in IH].
Qed.

Lemma new_window_inv m w s clk : 0 <= m → newSlidingWindow m w = Ok s → WindowInv clk [] s ∧ windowDuration s = w ∧ maxRequests s = m.
Proof.
  intros Hm. unfold newSlidingWindow. case_match; [done|]. case_match; [done|]. intros [= <-]. bool_hyps.
  split_and!; simpl; try done; lia.
Qed.

(** C21: The sliding window is never exceeded and never refuses early: on a
    clock that does not go back, any sequence of [tryAcquire] calls on a fresh
    limiter is granted at most [maxRequests] times in any interval of one
    window length, and a call is refused only if that many grants lie in the
    window before it. *)
Theorem sliding_window_bound m w s calls :
  0 <= m → newSlidingWindow m w = Ok s → monotone 0 calls →
  (∀ t, in_window t w (sw_grants calls s).1 <= m) ∧
  ∀ now1 now2, monotone 0 (calls ++ [(now1, now2)]) →
    (sw_tryAcquire now1 now2 (sw_grants calls s).2).1 = false →
    in_window (now1 - w) w (sw_grants calls s).1 = m.
Proof.
  intros Hm Hn Hmono. destruct (new_window_inv m w s 0 Hm Hn) as (HI & Hw & Hmx).
  assert (Hts : timestamps_ s = []).
  { unfold newSlidingWindow in Hn. case_match; [done|]. case_match; [done|]. injection Hn as <-. done. }
  split.
  - intros t. pose proof (sw_grants_bound calls 0 [] s HI Hmono t) as Hb.
    by rewrite Hts, Hw, Hmx in Hb.
  - intros now1 now2 Hm2 Hf.
    assert (Hgen : ∀ clk old s, WindowInv clk old s → monotone clk (calls ++ [(now1, now2)]) →
      (sw_tryAcquire now1 now2 (sw_grants calls s).2).1 = false →
      in_window (now1 - windowDuration s) (windowDuration s) ((old ++ timestamps_ s) ++ (sw_grants calls s).1) = maxRequests s).
    { clear. induction calls as [|[a b] calls IH]; intros clk old s HI Hm Hf; simpl in *.
      - destruct (sw_tryAcquire now1 now2 s) as [ok s1] eqn:E. simpl in Hf. subst ok.
        destruct (tryAcquire_inv _ _ _ _ _ _ _ HI (proj1 Hm) (proj1 (proj2 Hm)) E) as (_ & _ & _ & Hr).
        rewrite app_nil_r. by apply Hr.
      - destruct Hm as (H1 & H2 & Hm). destruct (sw_tryAcquire a b s) as [ok s1] eqn:E.
        destruct (tryAcquire_inv _ _ _ _ _ _ _ HI H1 H2 E) as (Hwd & Hmx & (old' & HI' & Hh) & _).
        specialize (IH b old' s1 HI' Hm). rewrite Hwd, Hmx, Hh in IH.
        destruct (sw_grants calls s1) as [g s2]. simpl in *. specialize (IH Hf).
        destruct ok; [by rewrite <- (assoc_L (++)) in IH|by rewrite app_nil_r in IH]. }
    specialize (Hgen 0 [] s HI Hm2 Hf). by rewrite Hts, Hw, Hmx in Hgen.
Qed.

Lemma sliding_window_bound_witness :
  ∃ s, newSlidingWindow 2 10 = Ok s ∧ (sw_grants [(1, 1); (2, 3); (5, 5); (12, 12)] s).1 = [1; 3; 12] ∧
       in_window 3 10 [1; 3; 12] <= 2.
Proof.
  eexists. split; [reflexivity|]. split; [reflexivity|].
  refine (proj1 (sliding_window_bound 2 10 _ [(1, 1); (2, 3); (5, 5); (12, 12)] ltac:(lia) eq_refl _) 3).
  simpl. lia.
Defined.

(** An [acquire] that has to wait never gets its permit by waiting: when
    the window is full at its first check, the timed wait it then makes ends in
    [std::system_error] with ETIMEDOUT as soon as the time runs out, and the
    exception leaves [acquire] (the refused request is not recorded);
    [tryAcquireFor] fails the same way before its deadline. *)
Theorem sliding_acquire_timeout p ps s deadline :
  (sw_tryAcquire (p_now1 p) (p_now2 p) s).1 = false → p_wait p = [WaitErr ETIMEDOUT] →
  p_now3 p < deadline →
  sw_acquire (p :: ps) s = (Throw (SystemError ETIMEDOUT), cleanup (p_now1 p) s) ∧
  sw_tryAcquireFor deadline (p :: ps) s = (Throw (SystemError ETIMEDOUT), cleanup (p_now1 p) s).
Proof.
  intros Hf Hw Hd. assert (E : sw_tryAcquire (p_now1 p) (p_now2 p) s = (false, cleanup (p_now1 p) s)).
  { unfold sw_tryAcquire in *. by destruct (has_room _). }
  simpl. rewrite E, Hw. destruct (p_now3 p >=? deadline) eqn:G; bool_hyps; [lia|done].
Qed.

Lemma sliding_acquire_timeout_witness :
  sw_acquire [MkPass 5 5 6 [WaitErr ETIMEDOUT]] (MkWindow 1 10 [3])
    = (Throw (SystemError ETIMEDOUT), MkWindow 1 10 [3]).
Proof.
  exact (proj1 (sliding_acquire_timeout (MkPass 5 5 6 [WaitErr ETIMEDOUT]) [] (MkWindow 1 10 [3]) 100
    eq_refl eq_refl ltac:(reflexivity))).
Defined.

(** [remainingRequests] tells the truth: on a limiter whose timestamps are
    in order it is positive exactly when a [tryAcquire] at the same instant
    succeeds, and it is then the number of calls that would. *)
Theorem remaining_spec now s :
  Sorted Z.le (timestamps_ s) → 0 <= maxRequests s →
  (0 < remainingRequests now s ↔ (sw_tryAcquire now now s).1 = true) ∧
  remainingRequests now s = Z.max 0 (maxRequests s - Z.of_nat (length (timestamps_ (cleanup now s)))).
Proof.
  intros Hs Hm.
  assert (Hlen : filter (λ ts, now - windowDuration s <= ts) (timestamps_ s) = timestamps_ (cleanup now s)).
  { unfold cleanup. simpl. revert Hs. induction (timestamps_ s) as [|x l IH]; intros Hs; [done|].
    apply Sorted_StronglySorted in Hs as Hss; [|intros ???; lia]. inversion Hs; inversion Hss; subst.
    simpl. destruct (Z.ltb_spec x (now - windowDuration s)).
    - rewrite filter_cons_False by lia. specialize (IH ltac:(done)). by destruct (span _ l).
    - simpl. apply filter_all. constructor; [lia|]. eapply Forall_impl; [done|]. simpl. lia. }
  unfold remainingRequests, sw_tryAcquire, has_room. rewrite Hlen.
  change (maxRequests (cleanup now s)) with (maxRequests s). rewrite Z.gtb_ltb.
  destruct (Z.ltb_spec (Z.of_nat (length (timestamps_ (cleanup now s)))) (maxRequests s)); cbn [fst].
  - split; [split; [done|intros _; lia]|lia].
  - split; [split; [lia|done]|lia].
Qed.

Lemma remaining_spec_witness :
  Sorted Z.le [3; 9] ∧ remainingRequests 14 (MkWindow 3 10 [3; 9]) = 2 ∧
  (sw_tryAcquire 14 14 (MkWindow 3 10 [3; 9])).1 = true.
Proof.
  assert (Hs : Sorted Z.le [3; 9]) by (repeat constructor; lia).
  split; [exact Hs|]. split; [reflexivity|].
  apply (remaining_spec 14 (MkWindow 3 10 [3; 9]) Hs ltac:(simpl; lia)). reflexivity.
Defined.

(** ** Token bucket *)

(** binary64. *)
Definition prec : Z := 53.
Definition emax : Z := 1024.
Definition of_int (n : Z) : spec_float := binary_normalize prec emax n 0 false.
Definition fmin (a b : spec_float) : spec_float := if SFltb b a then b else a.

(** [std::chrono::duration<double>(ns).count()]. *)
Definition seconds (ns : Z) : spec_float := SFdiv prec emax (of_int ns) (of_int ns_per_s).

Record TokenBucket := MkBucket {
  tokensPerSecond : spec_float;
  burstSize : spec_float;
  tokens_ : spec_float;
  lastRefill_ : Z
}.

Definition set_tokens x last s := MkBucket (tokensPerSecond s) (burstSize s) x last.

Definition newTokenBucket (rate burst initial : spec_float) (now : Z) : outcome TokenBucket :=
  if SFleb rate (of_int 0) then Throw InvalidArgument
  else if SFleb burst (of_int 0) then Throw InvalidArgument
  else Ok (MkBucket rate burst (if SFleb (of_int 0) initial then initial else burst) now).

(** The refilled level at [now]. *)
Definition availableTokens (now : Z) (s : TokenBucket) : spec_float :=
  fmin (SFadd prec emax (tokens_ s) (SFmul prec emax (seconds (now - lastRefill_ s)) (tokensPerSecond s)))
       (burstSize s).

Definition refill (now : Z) (s : TokenBucket) : TokenBucket := set_tokens (availableTokens now s) now s.

Definition tb_take (now : Z) (tokens : spec_float) (s : TokenBucket) : bool * TokenBucket :=
  let s1 := refill now s in
  if SFleb tokens (tokens_ s1)
  then (true, set_tokens (SFsub prec emax (tokens_ s1) tokens) (lastRefill_ s1) s1)
  else (false, s1).

Definition tb_tryAcquire (now : Z) (tokens : spec_float) (s : TokenBucket)
  : outcome (bool * TokenBucket) :=
  if SFleb tokens (of_int 0) then Throw InvalidArgument else Ok (tb_take now tokens s).

(** The loop of [acquire]: per pass the clock read and the result of the wait. *)
Fixpoint tb_acquireLoop (ps : list (Z * list wait_result)) (tokens : spec_float) (s : TokenBucket)
  : outcome unit * TokenBucket :=
  match ps with
  | [] => (Hang, s)
  | (now, rs) :: ps' =>
      let '(ok, s1) := tb_take now tokens s in
      if ok then (Ok tt, s1)
      else match (wait_for rs 0 0).1 with
           | Ok _ => tb_acquireLoop ps' tokens s1
           | Throw e => (Throw e, s1)
           | Hang => (Hang, s1)
           end
  end.

Definition tb_acquire (ps : list (Z * list wait_result)) (tokens : spec_float) (s : TokenBucket)
  : outcome unit * TokenBucket :=
  if SFleb tokens (of_int 0) then (Throw InvalidArgument, s) else tb_acquireLoop ps tokens s.

(** [tryAcquireFor], with the clock read of the deadline test. *)
Fixpoint tb_tryAcquireFor (deadline : Z) (ps : list (Z * Z * list wait_result)) (tokens : spec_float)
    (s : TokenBucket) : outcome bool * TokenBucket :=
  match ps with
  | [] => (Hang, s)
  | (now, now2, rs) :: ps' =>
      let '(ok, s1) := tb_take now tokens s in
      if ok then (Ok true, s1)
      else if now2 >=? deadline then (Ok false, s1)
      else match (wait_for rs 0 0).1 with
           | Ok _ => tb_tryAcquireFor deadline ps' tokens s1
           | Throw e => (Throw e, s1)
           | Hang => (Hang, s1)
           end
  end.

(** A refill never leaves the level above the burst size, whatever the clock
    and the level were. *)
Lemma fmin_bound a b : SFltb b (fmin a b) = false.
Proof.
  unfold fmin. destruct (SFltb b a) eqn:E; [|done]. unfold SFltb.
  destruct (SFcompare b b) as [[]|] eqn:C; try done. exfalso.
  destruct b as [[]|[]| |[] m e]; simpl in C; try done.
  - by rewrite Z.compare_refl, Pos.compare_cont_refl in C.
  - by rewrite Z.compare_refl, Pos.compare_cont_refl in C.
Qed.

(** The token bucket spends only what it has: the level a request is
    compared with is the refilled one and is never above the burst size; a
    request is granted exactly if it is at most that level and is then
    subtracted from it; refused, it leaves the refilled level; and non-positive
    requests throw without touching the bucket. *)
Theorem token_bucket_spec now tokens s :
  SFltb (burstSize s) (availableTokens now s) = false ∧
  tb_tryAcquire now tokens s =
    (if SFleb tokens (of_int 0) then Throw InvalidArgument
     else if SFleb tokens (availableTokens now s)
     then Ok (true, MkBucket (tokensPerSecond s) (burstSize s)
                      (SFsub prec emax (availableTokens now s) tokens) now)
     else Ok (false, MkBucket (tokensPerSecond s) (burstSize s) (availableTokens now s) now)).
Proof.
  split; [apply fmin_bound|]. unfold tb_tryAcquire, tb_take, refill, set_tokens.
  cbn [tokens_ tokensPerSecond burstSize lastRefill_].
  destruct (SFleb tokens (of_int 0)); [done|]. by destruct (SFleb tokens (availableTokens now s)).
Qed.

(** [duration_cast<nanoseconds>] of a [duration<double>] in seconds: the product
    with 10^9, truncated; undefined ([None]) outside the 64-bit range. *)
Definition truncate (x : spec_float) : option Z :=
  match x with
  | S754_zero _ => Some 0
  | S754_finite sgn m e =>
      let v := if 0 <=? e then Z.pos m * 2 ^ e else Z.pos m ÷ 2 ^ (- e) in
      let n := if sgn then - v else v in
      if in_i64 n then Some n else None
  | _ => None
  end.

Definition cast_seconds (x : spec_float) : option Z := truncate (SFmul prec emax x (of_int ns_per_s)).

Definition timeUntilAvailable (now : Z) (tokens : spec_float) (s : TokenBucket) : option Z :=
  let current := availableTokens now s in
  if SFleb tokens current then Some 0
  else cast_seconds (SFdiv prec emax (SFsub prec emax tokens current) (tokensPerSecond s)).

(** A positive request that is granted now has no time to wait, and one that is
    refused is told the time its missing tokens take at the rate. *)
Lemma timeUntilAvailable_spec now tokens s :
  SFleb tokens (of_int 0) = false →
  timeUntilAvailable now tokens s =
    match tb_tryAcquire now tokens s with
    | Ok (true, _) => Some 0
    | _ => cast_seconds (SFdiv prec emax (SFsub prec emax tokens (availableTokens now s)) (tokensPerSecond s))
    end.
Proof.
  intros Hp. rewrite (proj2 (token_bucket_spec now tokens s)), Hp. unfold timeUntilAvailable.
  by destruct (SFleb tokens (availableTokens now s)).
Qed.

(** A request above the burst size is told a time although it is never granted:
    a full bucket of 5 at one token a second says that 10 tokens take five
    seconds, and refuses them then and an hour later. *)
Example request_above_burst :
  let b := MkBucket (of_int 1) (of_int 5) (of_int 5) 0 in
  timeUntilAvailable 0 (of_int 10) b = Some (5 * ns_per_s) ∧
  (tb_take (5 * ns_per_s) (of_int 10) b).1 = false ∧ (tb_take (3600 * ns_per_s) (of_int 10) b).1 = false.
Proof. vm_compute. done. Qed.
