(* ===== verification/Cron.v ===== *)
(** * Cron expressions and the cron scheduler (src/src/cron_scheduler.cpp)

    Bit sets are lists of booleans of the bit set's size; text is a list of
    characters.  [localtime_r] and [mktime] are parameters of [nextAfter].  An
    integer that [std::from_chars] leaves unset is read by the code; a parse
    that does so has no defined result ([Undefined]). *)

From Stdlib Require Import String.
From S2P Require Import Prelude Text.

(** ** Bit sets *)

Abbreviation bitset := (list bool).

Definition bitset_reset (n : nat) : bitset := replicate n false.
Definition bitset_all (n : nat) : bitset := replicate n true.

(** [set(static_cast<std::size_t>(i))]: out of range throws. *)
Definition bitset_set (i : Z) (b : bitset) : outcome bitset :=
  if u64 i <? Z.of_nat (List.length b) then Ok (<[Z.to_nat (u64 i) := true]> b) else Throw OutOfRange.

Definition bitset_test (i : Z) (b : bitset) : outcome bool :=
  match b !! Z.to_nat (u64 i) with Some x => Ok x | None => Throw OutOfRange end.

Record CronExpression := MkCron {
  minutes_ : bitset;
  hours_ : bitset;
  daysOfMonth_ : bitset;
  months_ : bitset;
  daysOfWeek_ : bitset
}.

Definition set_minutes b c := MkCron b (hours_ c) (daysOfMonth_ c) (months_ c) (daysOfWeek_ c).
Definition set_hours b c := MkCron (minutes_ c) b (daysOfMonth_ c) (months_ c) (daysOfWeek_ c).
Definition set_dom b c := MkCron (minutes_ c) (hours_ c) b (months_ c) (daysOfWeek_ c).
Definition set_months b c := MkCron (minutes_ c) (hours_ c) (daysOfMonth_ c) b (daysOfWeek_ c).
Definition set_dow b c := MkCron (minutes_ c) (hours_ c) (daysOfMonth_ c) (months_ c) b.

(** [setAll], and with it the constructor. *)
Definition setAll : CronExpression :=
  MkCron (bitset_all 60) (bitset_all 24) (<[0%nat := false]> (bitset_all 32))
         (<[0%nat := false]> (bitset_all 13)) (bitset_all 7).

(** ** Parsing *)

Definition star : text := ["*"%char].

(** Words as [operator>>] extracts them. *)
Fixpoint words (s : text) (cur : text) : list text :=
  match s with
  | [] => match cur with [] => [] | _ => [cur] end
  | c :: s' =>
      if is_space c then match cur with [] => words s' [] | _ => cur :: words s' [] end
      else words s' (cur ++ [c])
  end.

(** [std::from_chars] into an [int]: an optional minus sign, then at least one
    digit; out of the range of [int] the target is left alone. *)
Definition from_chars (s : text) : option Z :=
  let '(neg, s1) := match s with
                    | c :: s' => if decide (c = dash) then (true, s') else (false, s)
                    | [] => (false, s)
                    end in
  match (span is_digit s1).1 with
  | [] => None
  | ds => let v := if neg then - digits_value ds else digits_value ds in
          if (- 2 ^ 31 <=? v) && (v <? 2 ^ 31) then Some v else None
  end.

(** A result that depends on an unset integer. *)
Inductive parse_result (A : Type) := Parsed (r : outcome A) | Undefined.
Arguments Parsed {A} r.
Arguments Undefined {A}.

(** [for (i = start; i <= finish && size_t(i) <= maxVal; ++i) bitset.set(i)];
    [fuel] bounds the values up to [maxVal]. *)
Fixpoint set_range (fuel : nat) (i finish maxVal : Z) (b : bitset) : outcome bitset :=
  match fuel with
  | O => Ok b
  | S f =>
      if (i <=? finish) && (u64 i <=? maxVal)
      then let* b' := bitset_set i b in set_range f (i + 1) finish maxVal b'
      else Ok b
  end.

Definition split_dash (s : text) : option (text * text) :=
  match span (λ c, negb (bool_decide (c = dash))) s with
  | (a, _ :: b) => Some (a, b)
  | (_, []) => None
  end.

Definition parsePart (part : text) (maxVal : Z) (b : bitset) : parse_result bitset :=
  match split_dash part with
  | Some (l, r) =>
      match from_chars l, from_chars r with
      | Some start, Some finish => Parsed (set_range (Z.to_nat maxVal + 2) start finish maxVal b)
      | _, _ => Undefined
      end
  | None =>
      match from_chars part with
      | Some v => Parsed (if u64 v <=? maxVal then bitset_set v b else Ok b)
      | None => Undefined
      end
  end.

Fixpoint parseParts (ps : list text) (maxVal : Z) (b : bitset) : parse_result bitset :=
  match ps with
  | [] => Parsed (Ok b)
  | p :: ps' =>
      match parsePart p maxVal b with
      | Parsed (Ok b') => parseParts ps' maxVal b'
      | r => r
      end
  end.

(** [parseField]. *)
Definition parseField (field : text) (maxVal : Z) (b : bitset) : parse_result bitset :=
  if decide (field = star) then Parsed (set_range (Z.to_nat maxVal + 1) 0 maxVal maxVal b)
  else parseParts (parts field []) maxVal b.

Definition pbind {A B} (m : parse_result A) (f : A → parse_result B) : parse_result B :=
  match m with
  | Parsed (Ok a) => f a
  | Parsed (Throw e) => Parsed (Throw e)
  | Parsed Hang => Parsed Hang
  | Undefined => Undefined
  end.

Definition parse (expression : text) : parse_result CronExpression :=
  match words expression [] with
  | minStr :: hourStr :: domStr :: monthStr :: dowStr :: _ =>
      pbind (parseField minStr 59 (bitset_reset 60)) (λ mi,
      pbind (parseField hourStr 23 (bitset_reset 24)) (λ h,
      pbind (parseField domStr 31 (bitset_reset 32)) (λ d,
      pbind (parseField monthStr 12 (bitset_reset 13)) (λ mo,
      pbind (parseField dowStr 6 (bitset_reset 7)) (λ w,
      Parsed (Ok (MkCron mi h d mo w)))))))
  | _ => Parsed (Throw InvalidArgument)
  end.

(** ** Printing *)

(** Decimal digits of a value of at most two digits, as all values here are. *)
Definition print_int (n : Z) : text := if n <? 10 then [digit n] else [digit (n / 10); digit (n mod 10)].

Fixpoint join (ps : list text) : text :=
  match ps with
  | [] => []
  | [p] => p
  | p :: ps' => p ++ comma :: join ps'
  end.

Definition field_values (b : bitset) (maxVal : Z) : list Z :=
  filter (λ i, b !! Z.to_nat i = Some true) (Z.of_nat <$> seq 0 (Z.to_nat maxVal + 1)).

Definition fieldToString (b : bitset) (maxVal : Z) : text :=
  let values := field_values b maxVal in
  if Z.of_nat (List.length values) =? maxVal + 1 then star else join (print_int <$> values).

Definition toString (c : CronExpression) : text :=
  fieldToString (minutes_ c) 59 ++ space :: fieldToString (hours_ c) 23 ++ space ::
  fieldToString (daysOfMonth_ c) 31 ++ space :: fieldToString (months_ c) 12 ++ space ::
  fieldToString (daysOfWeek_ c) 6.

(** ** Builders *)

Definition everyMinute : CronExpression := setAll.
Definition everyHour : outcome CronExpression :=
  let* m := bitset_set 0 (bitset_reset 60) in Ok (set_minutes m setAll).

Definition daily (hour minute : Z) : outcome CronExpression :=
  let* m := bitset_set minute (bitset_reset 60) in
  let* h := bitset_set hour (bitset_reset 24) in
  Ok (set_hours h (set_minutes m setAll)).

Definition weekly (dayOfWeek hour minute : Z) : outcome CronExpression :=
  let* c := daily hour minute in
  let* d := bitset_set dayOfWeek (bitset_reset 7) in Ok (set_dow d c).

Definition monthly (dayOfMonth hour minute : Z) : outcome CronExpression :=
  let* c := daily hour minute in
  let* d := bitset_set dayOfMonth (bitset_reset 32) in Ok (set_dom d c).

Definition only (n : nat) (v : Z) : bitset := <[Z.to_nat v := true]> (bitset_reset n).

Definition minute (v : Z) (c : CronExpression) : CronExpression :=
  if (v >=? 0) && (v <? 60) then set_minutes (only 60 v) c else c.
Definition hour (v : Z) (c : CronExpression) : CronExpression :=
  if (v >=? 0) && (v <? 24) then set_hours (only 24 v) c else c.
Definition dayOfMonth (v : Z) (c : CronExpression) : CronExpression :=
  if (v >=? 1) && (v <=? 31) then set_dom (only 32 v) c else c.
Definition month (v : Z) (c : CronExpression) : CronExpression :=
  if (v >=? 1) && (v <=? 12) then set_months (only 13 v) c else c.
Definition dayOfWeek (v : Z) (c : CronExpression) : CronExpression :=
  if (v >=? 0) && (v <=? 6) then set_dow (only 7 v) c else c.

(** [for (i = start; i <= end && i < limit; ++i) bits.set(i)] after a reset;
    a negative start throws and leaves the field empty. *)
Fixpoint range_loop (fuel : nat) (i last limit : Z) (b : bitset) : outcome bitset :=
  match fuel with
  | O => Ok b
  | S f =>
      if (i <=? last) && (i <? limit)
      then let* b' := bitset_set i b in range_loop f (i + 1) last limit b'
      else Ok b
  end.

Definition minuteRange (start last : Z) (c : CronExpression) : outcome unit * CronExpression :=
  match range_loop 61 start last 60 (bitset_reset 60) with
  | Ok b => (Ok tt, set_minutes b c)
  | Throw e => (Throw e, set_minutes (bitset_reset 60) c)
  | Hang => (Hang, c)
  end.

Definition hourRange (start last : Z) (c : CronExpression) : outcome unit * CronExpression :=
  match range_loop 25 start last 24 (bitset_reset 24) with
  | Ok b => (Ok tt, set_hours b c)
  | Throw e => (Throw e, set_hours (bitset_reset 24) c)
  | Hang => (Hang, c)
  end.

(** ** Round trip *)

(** What the proofs need of the printed numbers, checked for each of them. *)
Definition plain (c : ascii) : bool :=
  negb (is_space c) && negb (bool_decide (c = comma)) && negb (bool_decide (c = dash)) &&
  negb (bool_decide (c = "*"%char)).

Definition prints_well (v : Z) : bool :=
  forallb plain (print_int v) && negb (bool_decide (print_int v = [])) &&
  bool_decide (from_chars (print_int v) = Some v).

Lemma print_int_ok v : 0 <= v < 100 → prints_well v = true.
Proof.
  intros Hv. assert (Hall : forallb prints_well (Z.of_nat <$> seq 0 100) = true) by (vm_compute; reflexivity).
  rewrite forallb_forall in Hall. apply Hall. apply list_elem_of_In, list_elem_of_fmap.
  exists (Z.to_nat v). split; [lia|]. apply elem_of_seq. lia.
Qed.

Lemma print_int_spec v :
  0 <= v < 100 →
  Forall (λ c, plain c = true) (print_int v) ∧ print_int v ≠ [] ∧ from_chars (print_int v) = Some v.
Proof.
  intros Hv. pose proof (print_int_ok v Hv) as Hp. unfold prints_well in Hp.
  apply andb_true_iff in Hp as [Hp Hf]. apply andb_true_iff in Hp as [Hp Hn].
  split_and!.
  - apply Forall_forall. intros c Hc. rewrite forallb_forall in Hp. by apply Hp, list_elem_of_In.
  - by apply negb_true_iff, bool_decide_eq_false in Hn.
  - by apply bool_decide_eq_true in Hf.
Qed.

Lemma plain_spec c : plain c = true → is_space c = false ∧ c ≠ comma ∧ c ≠ dash ∧ c ≠ "*"%char.
Proof.
  unfold plain. rewrite !andb_true_iff, !negb_true_iff, !bool_decide_eq_false. tauto.
Qed.

Lemma parts_plain p s cur :
  Forall (λ c, plain c = true) p → parts (p ++ s) cur = parts s (cur ++ p).
Proof.
  intros Hp. revert cur. induction Hp as [|c p Hc Hp IH]; intros cur; simpl; [by rewrite app_nil_r|].
  apply plain_spec in Hc as (_ & Hc & _). rewrite decide_False by done.
  rewrite IH. by rewrite <- (assoc_L (++)).
Qed.

Lemma parts_join ps :
  Forall (λ p, Forall (λ c, plain c = true) p ∧ p ≠ []) ps → parts (join ps) [] = ps.
Proof.
  induction 1 as [|p ps [Hp Hn] Hps IH]; [done|]. destruct ps as [|q ps].
  - simpl. pose proof (parts_plain p [] [] Hp) as E. rewrite app_nil_r in E. rewrite E.
    simpl. by destruct p.
  - change (join (p :: q :: ps)) with (p ++ comma :: join (q :: ps)).
    rewrite parts_plain by done. cbn [parts app]. rewrite decide_True by done. by rewrite IH.
Qed.

Lemma join_text ps :
  Forall (λ p, Forall (λ c, plain c = true) p ∧ p ≠ []) ps → ps ≠ [] →
  Forall (λ c, is_space c = false ∧ c ≠ "*"%char) (join ps) ∧ join ps ≠ [].
Proof.
  induction 1 as [|p ps [Hp Hn] Hps IH]; [done|]. intros _.
  assert (Hp' : Forall (λ c, is_space c = false ∧ c ≠ "*"%char) p).
  { eapply Forall_impl; [exact Hp|]. intros c (? & _ & _ & ?)%plain_spec. done. }
  destruct ps as [|q ps]; [done|]. change (join (p :: q :: ps)) with (p ++ comma :: join (q :: ps)).
  split; [|by destruct p]. apply Forall_app. split; [done|]. constructor; [done|]. by apply IH.
Qed.

(** Setting bits one by one. *)
Definition set_bits (vs : list Z) (b : bitset) : bitset := foldl (λ b v, <[Z.to_nat v := true]> b) b vs.

Lemma set_bits_length vs b : List.length (set_bits vs b) = List.length b.
Proof.
  revert b. induction vs as [|v vs IH]; intros b; [done|].
  change (set_bits (v :: vs) b) with (set_bits vs (<[Z.to_nat v := true]> b)).
  by rewrite IH, length_insert.
Qed.

Lemma set_bits_lookup vs b j :
  (j < List.length b)%nat → Forall (λ v, 0 <= v) vs →
  set_bits vs b !! j = if decide (Z.of_nat j ∈ vs) then Some true else b !! j.
Proof.
  revert b. induction vs as [|v vs IH]; intros b Hj Hv.
  - rewrite decide_False; [done|]. apply not_elem_of_nil.
  - change (set_bits (v :: vs) b) with (set_bits vs (<[Z.to_nat v := true]> b)).
    apply Forall_cons in Hv as [Hv Hvs]. rewrite IH by (by rewrite ?length_insert).
    destruct (decide (Z.of_nat j ∈ vs)); [by rewrite decide_True by (by right)|].
    destruct (decide (v = Z.of_nat j)) as [->|Hne].
    + rewrite decide_True by left. rewrite Nat2Z.id. by apply list_lookup_insert_eq.
    + rewrite decide_False by (by intros [?|?]%elem_of_cons). rewrite list_lookup_insert_ne by lia. done.
Qed.

Lemma bitset_set_ok v b :
  0 <= v < Z.of_nat (List.length b) → v < 2 ^ 64 → bitset_set v b = Ok (<[Z.to_nat v := true]> b).
Proof.
  intros Hv Hb. unfold bitset_set, u64. rewrite wrap_small by lia. by rewrite (proj2 (Z.ltb_lt _ _)) by lia.
Qed.

Lemma parsePart_print v maxVal b :
  0 <= v <= maxVal → maxVal < 100 → Z.of_nat (List.length b) = maxVal + 1 →
  parsePart (print_int v) maxVal b = Parsed (Ok (<[Z.to_nat v := true]> b)).
Proof.
  intros Hv Hm Hl. destruct (print_int_spec v ltac:(lia)) as (Hp & Hn & Hf).
  unfold parsePart, split_dash.
  assert (Hs : span (λ c, negb (bool_decide (c = dash))) (print_int v) = (print_int v, [])).
  { clear -Hp. induction Hp as [|c p Hc Hp IH]; simpl; [done|]. apply plain_spec in Hc as (_ & _ & Hc & _).
    rewrite bool_decide_eq_false_2 by done. simpl. by rewrite IH. }
  rewrite Hs, Hf. unfold u64. rewrite wrap_small by lia. rewrite (proj2 (Z.leb_le _ _)) by lia.
  by rewrite bitset_set_ok by lia.
Qed.

Lemma parseParts_print vs maxVal b :
  Forall (λ v, 0 <= v <= maxVal) vs → maxVal < 100 → Z.of_nat (List.length b) = maxVal + 1 →
  parseParts (print_int <$> vs) maxVal b = Parsed (Ok (set_bits vs b)).
Proof.
  intros Hv Hm. revert b. induction Hv as [|v vs Hv Hvs IH]; intros b Hl; simpl; [done|].
  rewrite parsePart_print by done. apply IH. by rewrite length_insert.
Qed.

Lemma field_values_spec b maxVal v :
  0 <= maxVal → v ∈ field_values b maxVal ↔ 0 <= v <= maxVal ∧ b !! Z.to_nat v = Some true.
Proof.
  intros Hm. unfold field_values. rewrite list_elem_of_filter, list_elem_of_fmap. split.
  - intros (Hb & k & -> & Hk). apply elem_of_seq in Hk. split; [lia|done].
  - intros (Hv & Hb). split; [done|]. exists (Z.to_nat v). split; [lia|]. apply elem_of_seq. lia.
Qed.

(** The five fields' largest values. *)
Definition field_max (m : Z) : Prop := m = 59 ∨ m = 23 ∨ m = 31 ∨ m = 12 ∨ m = 6.

Definition field_ok (b : bitset) (m : Z) : Prop :=
  Z.of_nat (List.length b) = m + 1 ∧ true ∈ b.

Lemma field_values_nonempty b m : 0 <= m → field_ok b m → field_values b m ≠ [].
Proof.
  intros Hm [Hl Ht] E. apply list_elem_of_lookup in Ht as [i Hi].
  assert (Hin : Z.of_nat i ∈ field_values b m).
  { apply field_values_spec; [done|]. rewrite Nat2Z.id. split; [|done].
    apply lookup_lt_Some in Hi. lia. }
  rewrite E in Hin. by apply elem_of_nil in Hin.
Qed.

Lemma set_bits_values b m :
  0 <= m → Z.of_nat (List.length b) = m + 1 →
  set_bits (field_values b m) (bitset_reset (List.length b)) = b.
Proof.
  intros Hm Hl. apply list_eq. intros j. destruct (decide (j < List.length b)%nat) as [Hj|Hj].
  - rewrite set_bits_lookup.
    + case_decide as Hd.
      * apply field_values_spec in Hd as [_ Hd]; [|done]. by rewrite Nat2Z.id in Hd.
      * unfold bitset_reset. rewrite lookup_replicate_2 by done.
        destruct (lookup_lt_is_Some_2 b j Hj) as [[] Hx]; [|done]. exfalso. apply Hd.
        apply field_values_spec; [done|]. rewrite Nat2Z.id. split; [lia|done].
    + unfold bitset_reset. by rewrite length_replicate.
    + apply Forall_forall. intros v Hv. apply field_values_spec in Hv; lia.
  - rewrite !lookup_ge_None_2; [done|lia|]. rewrite set_bits_length. unfold bitset_reset. rewrite length_replicate. lia.
Qed.

Lemma field_values_full b m :
  field_max m → Z.of_nat (List.length b) = m + 1 →
  Z.of_nat (List.length (field_values b m)) = m + 1 → b = bitset_all (Z.to_nat (m + 1)).
Proof.
  intros Hm Hl Hf. assert (Hpos : 0 <= m) by (unfold field_max in Hm; lia).
  assert (Hall : ∀ l, List.length (filter (λ i, b !! Z.to_nat i = Some true) l) = List.length l →
    Forall (λ i, b !! Z.to_nat i = Some true) l).
  { intros l. induction l as [|x l IH]; [constructor|]. rewrite filter_cons.
    case_decide; simpl; intros E; [constructor; [done|]; apply IH; lia|].
    pose proof (length_filter (λ i, b !! Z.to_nat i = Some true) l). lia. }
  specialize (Hall (Z.of_nat <$> seq 0 (Z.to_nat m + 1))). unfold field_values in Hf.
  rewrite length_fmap, length_seq in Hall. specialize (Hall ltac:(lia)).
  apply list_eq. intros j. unfold bitset_all. destruct (decide (j < List.length b)%nat) as [Hj|Hj].
  - rewrite lookup_replicate_2 by lia. rewrite Forall_forall in Hall.
    specialize (Hall (Z.of_nat j)). rewrite Nat2Z.id in Hall. apply Hall, list_elem_of_fmap.
    exists j. split; [done|]. apply elem_of_seq. lia.
  - rewrite !lookup_ge_None_2; [done|rewrite length_replicate; lia|lia].
Qed.

Lemma field_text b m :
  field_max m → field_ok b m →
  (Forall (λ c, is_space c = false) (fieldToString b m) ∧ fieldToString b m ≠ []) ∧
  parseField (fieldToString b m) m (bitset_reset (Z.to_nat (m + 1))) = Parsed (Ok b).
Proof.
  intros Hm Hok. pose proof Hok as [Hl Ht].
  assert (Hb : 0 <= m < 100) by (unfold field_max in Hm; lia).
  unfold fieldToString. destruct (Z.eqb_spec (Z.of_nat (List.length (field_values b m))) (m + 1)) as [Hf|Hf].
  - rewrite (field_values_full b m Hm Hl Hf). split; [split; [by repeat constructor|done]|].
    unfold parseField. rewrite decide_True by done.
    destruct Hm as [->|[->|[->|[->| ->]]]]; vm_compute; reflexivity.
  - pose proof (field_values_nonempty b m ltac:(lia) Hok) as Hne.
    assert (Hvs : Forall (λ v, 0 <= v <= m) (field_values b m)).
    { apply Forall_forall. intros v Hv. by apply field_values_spec in Hv as [? _]; [|lia]. }
    assert (Hps : Forall (λ p, Forall (λ c, plain c = true) p ∧ p ≠ []) (print_int <$> field_values b m)).
    { apply Forall_fmap. eapply Forall_impl; [exact Hvs|]. intros v Hv. cbv beta in Hv |- *.
      by destruct (print_int_spec v ltac:(lia)) as (? & ? & _). }
    destruct (join_text (print_int <$> field_values b m) Hps) as [Hs Hn].
    { by destruct (field_values b m). }
    split; [split; [|done]|].
    + eapply Forall_impl; [exact Hs|]. by intros c [? _].
    + unfold parseField. rewrite decide_False; last first.
      { intros E. rewrite E in Hs. inversion Hs as [|? ? [_ Hx] _]. by apply Hx. }
      rewrite parts_join, parseParts_print; [|done|lia|unfold bitset_reset; rewrite length_replicate; lia|done].
      replace (Z.to_nat (m + 1)) with (List.length b) by (clear -Hl Hb; lia).
      by rewrite set_bits_values by lia.
Qed.

Lemma words_word f s cur :
  Forall (λ c, is_space c = false) f → words (f ++ s) cur = words s (cur ++ f).
Proof.
  intros Hf. revert cur. induction Hf as [|c f Hc Hf IH]; intros cur; simpl; [by rewrite app_nil_r|].
  rewrite Hc, IH. by rewrite <- (assoc_L (++)).
Qed.

Lemma words_sep f s :
  Forall (λ c, is_space c = false) f → f ≠ [] → words (f ++ space :: s) [] = f :: words s [].
Proof. intros Hf Hn. rewrite words_word by done. simpl. by destruct f. Qed.

Lemma words_last f : Forall (λ c, is_space c = false) f → f ≠ [] → words f [] = [f].
Proof.
  intros Hf Hn. pose proof (words_word f [] [] Hf) as E. rewrite app_nil_r in E. rewrite E.
  simpl. by destruct f.
Qed.

(** Every field has the size of its bit set and at least one bit. *)
Definition cron_ok (c : CronExpression) : Prop :=
  field_ok (minutes_ c) 59 ∧ field_ok (hours_ c) 23 ∧ field_ok (daysOfMonth_ c) 31 ∧
  field_ok (months_ c) 12 ∧ field_ok (daysOfWeek_ c) 6.

(** C22: Printing and parsing are inverse: for every expression in which no
    field is empty, [parse] of its [toString] succeeds and gives the same
    expression back, bit for bit. *)
Theorem cron_roundtrip c : cron_ok c → parse (toString c) = Parsed (Ok c).
Proof.
  intros (H1 & H2 & H3 & H4 & H5). unfold toString, parse.
  destruct (field_text _ 59 ltac:(unfold field_max; lia) H1) as [[? ?] E1].
  destruct (field_text _ 23 ltac:(unfold field_max; lia) H2) as [[? ?] E2].
  destruct (field_text _ 31 ltac:(unfold field_max; lia) H3) as [[? ?] E3].
  destruct (field_text _ 12 ltac:(unfold field_max; lia) H4) as [[? ?] E4].
  destruct (field_text _ 6 ltac:(unfold field_max; lia) H5) as [[? ?] E5].
  rewrite !words_sep, words_last by done.
  change (bitset_reset 60) with (bitset_reset (Z.to_nat (59 + 1))).
  change (bitset_reset 24) with (bitset_reset (Z.to_nat (23 + 1))).
  change (bitset_reset 32) with (bitset_reset (Z.to_nat (31 + 1))).
  change (bitset_reset 13) with (bitset_reset (Z.to_nat (12 + 1))).
  change (bitset_reset 7) with (bitset_reset (Z.to_nat (6 + 1))).
  rewrite E1. cbn [pbind]. rewrite E2. cbn [pbind]. rewrite E3. cbn [pbind].
  rewrite E4. cbn [pbind]. rewrite E5. cbn [pbind]. by destruct c.
Qed.

(** 9:30 on the first of every month, weekdays as they come. *)
Definition sample_cron : CronExpression := dayOfMonth 1 (hour 9 (minute 30 everyMinute)).

Lemma cron_roundtrip_witness :
  toString sample_cron = list_ascii_of_string "30 9 1 1,2,3,4,5,6,7,8,9,10,11,12 *" ∧
  parse (toString sample_cron) = Parsed (Ok sample_cron).
Proof.
  split; [vm_compute; reflexivity|]. apply cron_roundtrip. unfold cron_ok, field_ok.
  split_and!; try (vm_compute; reflexivity); apply list_elem_of_lookup.
  - exists 30%nat. reflexivity.
  - exists 9%nat. reflexivity.
  - exists 1%nat. reflexivity.
  - exists 1%nat. reflexivity.
  - exists 0%nat. reflexivity.
Defined.

(** An empty field is printed as nothing, and the text no longer parses. *)
Lemma cron_empty_field :
  (minuteRange 5 1 everyMinute).1 = Ok tt ∧
  parse (toString (minuteRange 5 1 everyMinute).2) = Parsed (Throw InvalidArgument).
Proof. split; vm_compute; reflexivity. Qed.

(** ** The next execution time *)

Record tm := MkTm {
  tm_sec : Z; tm_min : Z; tm_hour : Z; tm_mday : Z; tm_mon : Z; tm_year : Z; tm_wday : Z;
  tm_isdst : Z
}.

Definition with_min v t := MkTm (tm_sec t) v (tm_hour t) (tm_mday t) (tm_mon t) (tm_year t) (tm_wday t) (tm_isdst t).
Definition with_hour v t := MkTm (tm_sec t) (tm_min t) v (tm_mday t) (tm_mon t) (tm_year t) (tm_wday t) (tm_isdst t).
Definition with_mday v t := MkTm (tm_sec t) (tm_min t) (tm_hour t) v (tm_mon t) (tm_year t) (tm_wday t) (tm_isdst t).
Definition with_mon v t := MkTm (tm_sec t) (tm_min t) (tm_hour t) (tm_mday t) v (tm_year t) (tm_wday t) (tm_isdst t).
Definition with_year v t := MkTm (tm_sec t) (tm_min t) (tm_hour t) (tm_mday t) (tm_mon t) v (tm_wday t) (tm_isdst t).

(** Carry of minutes into hours and hours into days at the top of the loop. *)
Definition carry (t : tm) : tm :=
  let t1 := if tm_min t >=? 60 then with_hour (tm_hour t + 1) (with_min 0 t) else t in
  if tm_hour t1 >=? 24 then with_mday (tm_mday t1 + 1) (with_hour 0 t1) else t1.

Definition skip_month (t : tm) : tm :=
  let t1 := with_mon (tm_mon t + 1) (with_min 0 (with_hour 0 (with_mday 1 t))) in
  if tm_mon t1 >=? 12 then with_year (tm_year t1 + 1) (with_mon 0 t1) else t1.

Definition skip_day (t : tm) : tm := with_mday (tm_mday t + 1) (with_min 0 (with_hour 0 t)).
Definition skip_hour (t : tm) : tm := with_hour (tm_hour t + 1) (with_min 0 t).
Definition skip_minute (t : tm) : tm := with_min (tm_min t + 1) t.

Section next.
(** The C library's conversions, in the process's time zone. *)
Context (localtime : Z → tm) (mktime : tm → Z).

(** One iteration on the broken-down time: the time found, or where to go on. *)
Definition next_iter (c : CronExpression) (t0 : tm) : outcome (Z + tm) :=
  let t := localtime (mktime (carry t0)) in
  let* mo := bitset_test (tm_mon t + 1) (months_ c) in
  if negb mo then Ok (inr (skip_month t)) else
  let* dom := bitset_test (tm_mday t) (daysOfMonth_ c) in
  let* dow := (if dom then bitset_test (tm_wday t) (daysOfWeek_ c) else Ok true) in
  if negb dom || negb dow then Ok (inr (skip_day t)) else
  let* h := bitset_test (tm_hour t) (hours_ c) in
  if negb h then Ok (inr (skip_hour t)) else
  let* mi := bitset_test (tm_min t) (minutes_ c) in
  if negb mi then Ok (inr (skip_minute t)) else
  Ok (inl (mktime t)).

Fixpoint next_loop (fuel : nat) (c : CronExpression) (t : tm) : outcome Z :=
  match fuel with
  | O => Throw RuntimeError
  | S f =>
      let* r := next_iter c t in
      match r with
      | inl found => Ok found
      | inr t' => next_loop f c t'
      end
  end.

(** [nextAfter], on seconds since the epoch. *)
Definition nextAfter (c : CronExpression) (after : Z) : outcome Z :=
  let t := localtime after in
  let t1 := MkTm 0 (tm_min t + 1) (tm_hour t) (tm_mday t) (tm_mon t) (tm_year t) (tm_wday t) (tm_isdst t) in
  next_loop (Z.to_nat (366 * 24 * 60)) c t1.

(** The time matches the expression in every field. *)
Definition matches (c : CronExpression) (t : tm) : Prop :=
  bitset_test (tm_mon t + 1) (months_ c) = Ok true ∧
  bitset_test (tm_mday t) (daysOfMonth_ c) = Ok true ∧
  bitset_test (tm_wday t) (daysOfWeek_ c) = Ok true ∧
  bitset_test (tm_hour t) (hours_ c) = Ok true ∧
  bitset_test (tm_min t) (minutes_ c) = Ok true.

(** Documented: [mktime] inverts [localtime_r], which yields fields in their
    ranges. *)
Context (mktime_localtime : ∀ t, mktime (localtime t) = t).
Context (localtime_range : ∀ t, 0 <= tm_min (localtime t) < 60 ∧ 0 <= tm_hour (localtime t) < 24 ∧
  1 <= tm_mday (localtime t) <= 31 ∧ 0 <= tm_mon (localtime t) < 12 ∧ 0 <= tm_wday (localtime t) < 7).

Lemma bitset_test_total i b :
  0 <= i < Z.of_nat (List.length b) → i < 2 ^ 64 → ∃ x, bitset_test i b = Ok x.
Proof.
  intros Hi Hb. unfold bitset_test, u64. rewrite wrap_small by lia.
  destruct (lookup_lt_is_Some_2 b (Z.to_nat i)) as [x Hx]; [lia|]. rewrite Hx. eauto.
Qed.

(** Sizes of the bit sets. *)
Definition cron_sizes (c : CronExpression) : Prop :=
  List.length (minutes_ c) = 60%nat ∧ List.length (hours_ c) = 24%nat ∧ List.length (daysOfMonth_ c) = 32%nat ∧
  List.length (months_ c) = 13%nat ∧ List.length (daysOfWeek_ c) = 7%nat.

Lemma next_iter_spec c t :
  cron_sizes c →
  (∃ x, next_iter c t = Ok (inl x) ∧ matches c (localtime x)) ∨ ∃ t', next_iter c t = Ok (inr t').
Proof.
  intros (S1 & S2 & S3 & S4 & S5). unfold next_iter, matches.
  set (x := mktime (carry t)). destruct (localtime_range x) as (R1 & R2 & R3 & R4 & R5).
  rewrite !mktime_localtime.
  destruct (bitset_test_total (tm_mon (localtime x) + 1) (months_ c)) as [mo Emo]; [lia|lia|].
  destruct (bitset_test_total (tm_mday (localtime x)) (daysOfMonth_ c)) as [d Ed]; [lia|lia|].
  destruct (bitset_test_total (tm_wday (localtime x)) (daysOfWeek_ c)) as [w Ew]; [lia|lia|].
  destruct (bitset_test_total (tm_hour (localtime x)) (hours_ c)) as [h Eh]; [lia|lia|].
  destruct (bitset_test_total (tm_min (localtime x)) (minutes_ c)) as [mi Emi]; [lia|lia|].
  rewrite Emo. simpl. destruct mo; simpl; [|eauto].
  rewrite Ed. simpl. destruct d; simpl; [|eauto]. rewrite Ew. simpl. destruct w; simpl; [|eauto].
  rewrite Eh. simpl. destruct h; simpl; [|eauto]. rewrite Emi. simpl. destruct mi; simpl; [|eauto].
  left. eauto 10.
Qed.

Lemma next_loop_spec fuel c t :
  cron_sizes c →
  (∃ x, next_loop fuel c t = Ok x ∧ matches c (localtime x)) ∨ next_loop fuel c t = Throw RuntimeError.
Proof.
  intros Hc. revert t. induction fuel as [|f IH]; intros t; simpl; [by right|].
  destruct (next_iter_spec c t Hc) as [(x & -> & Hx)|(t' & ->)]; simpl; [left; eauto|apply IH].
Qed.

End next.

(** [nextAfter] is total on well-formed expressions and sound: it returns a
    time whose local month, day, weekday, hour and minute are all in the
    expression, or, after its iteration budget, throws [runtime_error]; no bit
    test is ever out of range. *)
Theorem cron_nextAfter_sound localtime mktime c after :
  (∀ t, mktime (localtime t) = t) →
  (∀ t, 0 <= tm_min (localtime t) < 60 ∧ 0 <= tm_hour (localtime t) < 24 ∧
    1 <= tm_mday (localtime t) <= 31 ∧ 0 <= tm_mon (localtime t) < 12 ∧ 0 <= tm_wday (localtime t) < 7) →
  cron_sizes c →
  (∃ x, nextAfter localtime mktime c after = Ok x ∧ matches c (localtime x)) ∨
  nextAfter localtime mktime c after = Throw RuntimeError.
Proof. intros Hinv Hrange Hc. unfold nextAfter. by apply next_loop_spec. Qed.

(** A calendar of twelve months of 31 days without leap years or daylight
    saving, as one concrete pair of conversions. *)
Definition flat_localtime (t : Z) : tm :=
  MkTm (t mod 60) (t / 60 mod 60) (t / 3600 mod 24) (1 + t / 86400 mod 31)
       (t / 2678400 mod 12) (t / 32140800) (t / 86400 mod 7) 0.
Definition flat_mktime (t : tm) : Z :=
  tm_sec t + 60 * tm_min t + 3600 * tm_hour t + 86400 * (tm_mday t - 1) + 2678400 * tm_mon t + 32140800 * tm_year t.

Lemma flat_inverse t : flat_mktime (flat_localtime t) = t.
Proof. unfold flat_mktime, flat_localtime. simpl. Z.to_euclidean_division_equations. lia. Qed.

Lemma flat_range t :
  0 <= tm_min (flat_localtime t) < 60 ∧ 0 <= tm_hour (flat_localtime t) < 24 ∧
  1 <= tm_mday (flat_localtime t) <= 31 ∧ 0 <= tm_mon (flat_localtime t) < 12 ∧ 0 <= tm_wday (flat_localtime t) < 7.
Proof. unfold flat_localtime. simpl. Z.to_euclidean_division_equations. lia. Qed.

Lemma cron_nextAfter_sound_witness :
  ∃ x, nextAfter flat_localtime flat_mktime sample_cron 100000 = Ok x ∧ x = 2712600 ∧
       matches sample_cron (flat_localtime x).
Proof.
  assert (Hsz : cron_sizes sample_cron) by (unfold cron_sizes; vm_compute; tauto).
  assert (E : nextAfter flat_localtime flat_mktime sample_cron 100000 = Ok 2712600) by (vm_compute; reflexivity).
  destruct (cron_nextAfter_sound flat_localtime flat_mktime sample_cron 100000 flat_inverse flat_range Hsz)
    as [(x & Ex & Hx)|Ex]; [|rewrite E in Ex; discriminate].
  exists x. split; [exact Ex|]. split; [|exact Hx]. rewrite E in Ex. by injection Ex.
Defined.

(** ** The scheduler *)

Record CronTask := MkTask {
  task_name : text;
  expression : CronExpression;
  task : Z;
  nextRun : Z;                 (* nanoseconds since the epoch *)
  executionCount : Z;
  active : bool
}.

Record CronScheduler := MkSched {
  tasks_ : gmap Z CronTask;
  running_ : bool;
  nextTaskId_ : Z
}.

Definition newScheduler : CronScheduler := MkSched ∅ false 1.

Definition set_tasks ts s := MkSched ts (running_ s) (nextTaskId_ s).

Section scheduler.
Context (localtime : Z → tm) (mktime : tm → Z).

(** [nextAfter] on time points: [to_time_t] and [from_time_t] around it. *)
Definition next_ns (c : CronExpression) (now : Z) : outcome Z :=
  let* x := nextAfter localtime mktime c (now ÷ ns_per_s) in Ok (x * ns_per_s).

(** [schedule]: the id is taken even if no execution time is found. *)
Definition schedule (name : text) (expr : CronExpression) (t : option Z) (now : Z) (s : CronScheduler)
  : outcome Z * CronScheduler :=
  match t with
  | None => (Throw InvalidArgument, s)
  | Some f =>
      let taskId := nextTaskId_ s in
      let s1 := MkSched (tasks_ s) (running_ s) (u64 (taskId + 1)) in
      match next_ns expr now with
      | Ok nr => (Ok taskId, set_tasks (<[taskId := MkTask name expr f nr 0 true]> (tasks_ s1)) s1)
      | Throw e => (Throw e, s1)
      | Hang => (Hang, s1)
      end
  end.

Definition cancel (taskId : Z) (s : CronScheduler) : bool * CronScheduler :=
  match tasks_ s !! taskId with
  | None => (false, s)
  | Some t =>
      (true, set_tasks (<[taskId := MkTask (task_name t) (expression t) (task t) (nextRun t)
                                      (executionCount t) false]> (tasks_ s)) s)
  end.

Definition nextExecution (taskId : Z) (s : CronScheduler) : outcome Z :=
  match tasks_ s !! taskId with Some t => Ok (nextRun t) | None => Throw RuntimeError end.

Definition listTasks (s : CronScheduler) : list (Z * text * Z * Z) :=
  omap (λ '(i, t), if active t then Some (i, task_name t, nextRun t, executionCount t) else None)
    (map_to_list (tasks_ s)).

Definition due (now : Z) (t : CronTask) : bool := active t && (nextRun t <=? now).

(** The pass of [schedulerLoop] over the tasks, in the iteration order of the
    map: the functions to run, and the updated map.  An exception of
    [nextAfter] leaves the loop. *)
Fixpoint pass (order : list Z) (now : Z) (ts : gmap Z CronTask) : outcome (list Z * gmap Z CronTask) :=
  match order with
  | [] => Ok ([], ts)
  | i :: order' =>
      match ts !! i with
      | None => pass order' now ts
      | Some t =>
          if due now t then
            let* nr := next_ns (expression t) now in
            let* r := pass order' now (<[i := MkTask (task_name t) (expression t) (task t) nr
                                               (executionCount t + 1) true]> ts) in
            Ok (task t :: r.1, r.2)
          else pass order' now ts
      end
  end.

(** [scheduleWakeup]: the timer value programmed, if any task is active. *)
Definition earliest (s : CronScheduler) : option Z :=
  foldr (λ t acc, if active t then
                    match acc with
                    | None => Some (nextRun t)
                    | Some e => Some (if nextRun t <? e then nextRun t else e)
                    end
                  else acc) None ((map_to_list (tasks_ s)).*2).

Definition scheduleWakeup (now : Z) (s : CronScheduler) : option (Z * Z) :=
  match earliest s with
  | None => None
  | Some e =>
      let delay := if e >? now then e - now else ns_per_s in
      let delay := if delay >? 3600 * ns_per_s then 3600 * ns_per_s else delay in
      let secs := delay ÷ ns_per_s in
      let nsecs := delay - secs * ns_per_s in
      Some (if (secs =? 0) && (nsecs =? 0) then (0, 1) else (secs, nsecs))
  end.

Definition start (s : CronScheduler) : CronScheduler := MkSched (tasks_ s) true (nextTaskId_ s).
Definition stop (s : CronScheduler) : CronScheduler := MkSched (tasks_ s) false (nextTaskId_ s).

Lemma pass_frame order now ts fs ts' i :
  pass order now ts = Ok (fs, ts') → i ∉ order → ts' !! i = ts !! i.
Proof.
  revert ts fs ts'. induction order as [|j order IH]; intros ts fs ts' E Hi; simpl in E; simplify_eq; [done|].
  apply not_elem_of_cons in Hi as [Hne Hi].
  destruct (ts !! j) as [t|] eqn:Ej; [|by eapply IH].
  destruct (due now t); [|by eapply IH].
  destruct (next_ns (expression t) now) as [nr| |]; simpl in E; try done.
  destruct (pass order now _) as [[fs1 ts1]| |] eqn:Ep; simpl in E; simplify_eq.
  rewrite (IH _ _ _ Ep Hi). by rewrite lookup_insert_ne.
Qed.

Lemma pass_spec order now ts fs ts' :
  NoDup order → pass order now ts = Ok (fs, ts') →
  fs = omap (λ i, t ← ts !! i; if due now t then Some (task t) else None) order ∧
  ∀ i, i ∈ order → ∀ t, ts !! i = Some t →
    if due now t then
      ∃ nr, next_ns (expression t) now = Ok nr ∧
        ts' !! i = Some (MkTask (task_name t) (expression t) (task t) nr (executionCount t + 1) true)
    else ts' !! i = Some t.
Proof.
  intros Hn. revert ts fs ts'. induction Hn as [|j order Hj Hn IH]; intros ts fs ts' E; simpl in E.
  { simplify_eq. split; [done|]. intros i Hi. by apply elem_of_nil in Hi. }
  assert (Hext : ∀ ts1 : gmap Z CronTask, (∀ i, i ∈ order → ts1 !! i = ts !! i) →
    omap (λ i, t ← ts1 !! i; if due now t then Some (task t) else None) order =
    omap (λ i, t ← ts !! i; if due now t then Some (task t) else None) order).
  { intros ts1 Hts. apply omap_ext_in. intros i Hi. by rewrite Hts. }
  simpl. destruct (ts !! j) as [t|] eqn:Ej; simpl.
  - destruct (due now t) eqn:Ed.
    + destruct (next_ns (expression t) now) as [nr| |] eqn:En; simpl in E; try done.
      destruct (pass order now _) as [[fs1 ts1]| |] eqn:Ep; simpl in E; simplify_eq.
      destruct (IH _ _ _ Ep) as [-> Hrest]. split.
      { f_equal. apply Hext. intros i Hi. apply lookup_insert_ne. by intros ->. }
      intros i [->|Hi]%elem_of_cons t' Ht'.
      * simplify_eq. rewrite Ed. exists nr. split; [done|].
        rewrite (pass_frame _ _ _ _ _ _ Ep Hj). apply lookup_insert_eq.
      * apply Hrest; [done|]. rewrite lookup_insert_ne; [done|]. by intros ->.
    + destruct (IH _ _ _ E) as [-> Hrest]. split; [done|].
      intros i [->|Hi]%elem_of_cons t' Ht'; [|by apply Hrest]. simplify_eq. rewrite Ed.
      by rewrite (pass_frame _ _ _ _ _ _ E Hj).
  - destruct (IH _ _ _ E) as [-> Hrest]. split; [done|].
    intros i [->|Hi]%elem_of_cons t' Ht'; [congruence|by apply Hrest].
Qed.

End scheduler.

(** A scheduler pass runs exactly the due tasks: each active task whose
    time has come runs once, in iteration order, is counted and gets its next
    time after now; every other task, cancelled ones included, neither runs nor
    changes. *)
Theorem cron_pass_spec localtime mktime order now ts fs ts' :
  NoDup order → (∀ i, i ∈ order ↔ is_Some (ts !! i)) →
  pass localtime mktime order now ts = Ok (fs, ts') →
  fs = omap (λ i, t ← ts !! i; if due now t then Some (task t) else None) order ∧
  ∀ i, match ts !! i with
       | None => ts' !! i = None
       | Some t =>
           if due now t then
             ∃ nr, next_ns localtime mktime (expression t) now = Ok nr ∧
               ts' !! i = Some (MkTask (task_name t) (expression t) (task t) nr (executionCount t + 1) true)
           else ts' !! i = Some t
       end.
Proof.
  intros Hn Hdom E. destruct (pass_spec _ _ _ _ _ _ _ Hn E) as [-> Hs]. split; [done|].
  intros i. destruct (ts !! i) as [t|] eqn:Ei.
  - apply Hs; [|done]. apply Hdom. by rewrite Ei.
  - rewrite (pass_frame _ _ _ _ _ _ _ _ E); [done|]. rewrite Hdom, Ei. by intros [? ?].
Qed.

(** One due task and one cancelled one. *)
Definition sample_tasks : gmap Z CronTask :=
  {[1 := MkTask [] sample_cron 7 50 0 true; 2 := MkTask [] sample_cron 8 50 0 false]}.

Lemma sample_tasks_order : NoDup [1; 2] ∧ ∀ i, i ∈ [1; 2] ↔ is_Some (sample_tasks !! i).
Proof.
  split.
  - apply NoDup_cons. split; [set_solver|]. apply NoDup_singleton.
  - intros i. unfold sample_tasks. rewrite lookup_insert_is_Some, lookup_singleton_is_Some. set_solver by lia.
Qed.

Lemma cron_pass_spec_witness :
  ∃ ts', pass flat_localtime flat_mktime [1; 2] 100 sample_tasks = Ok ([7], ts') ∧
         ts' !! 2 = Some (MkTask [] sample_cron 8 50 0 false).
Proof.
  destruct sample_tasks_order as [Hn Hd].
  assert (Hr : match pass flat_localtime flat_mktime [1; 2] 100 sample_tasks with
               | Ok (fs, _) => bool_decide (fs = [7]) | _ => false end = true) by (vm_compute; reflexivity).
  destruct (pass flat_localtime flat_mktime [1; 2] 100 sample_tasks) as [[fs ts']| |] eqn:E; try discriminate Hr.
  apply bool_decide_eq_true in Hr as ->. exists ts'. split; [reflexivity|].
  exact (proj2 (cron_pass_spec flat_localtime flat_mktime [1; 2] 100 sample_tasks _ ts' Hn Hd E) 2).
Defined.
