(* ===== verification/Supervisor.v ===== *)
(** * The process supervisor (src/src/process_supervisor.cpp)

    The table of supervised processes, the map from process ids to names, and
    every operation on them.  What the operating system answers (a new pid or
    no process, the errno of a signal, how a wait ended) and the clock reads
    are arguments, in the order the code asks; user callbacks leave the
    supervisor alone and are not recorded. *)

From Stdlib Require Import SpecFloat.
From S2P Require Import Prelude.

Inductive RestartPolicy := Never | Always | OnFailure | OnSuccess.
Inductive BackoffStrategy := Exponential | Linear | Custom.

Record RestartConfig := MkRestart {
  policy : RestartPolicy;
  backoffStrategy : BackoffStrategy;
  minRestartDelay : Z;
  maxRestartDelay : Z;
  backoffMultiplier : spec_float;
  linearIncrement : Z;
  customBackoff : option (Z → Z);
  maxRestarts : Z;
  maxRestartWindow : Z;
  maxRestartsInWindow : Z
}.

Record ProcessStatus := MkStatus {
  pid : Z;
  running : bool;
  lastExitStatus : Z;
  restartCount : Z;
  lastStartTime : Z;
  lastExitTime : Z;
  nextRestartDelay : Z
}.

(** [ProcessState]; [handle] is the pid of the [ProcessHandle], if there is
    one. *)
Record ProcessState := MkProc {
  restart : RestartConfig;
  handle : option Z;
  status_ : ProcessStatus;
  restartTimes : list Z;
  pendingRestart : bool;
  scheduledRestartTime : Z
}.

Record Supervisor := MkSup {
  processes_ : gmap string ProcessState;
  pidToName_ : gmap Z string;
  running_ : bool
}.

Definition newSupervisor : Supervisor := MkSup ∅ ∅ false.

Definition set_processes ps s := MkSup ps (pidToName_ s) (running_ s).
Definition set_pids m s := MkSup (processes_ s) m (running_ s).
Definition set_running b s := MkSup (processes_ s) (pidToName_ s) b.

Definition put (name : string) (p : ProcessState) (s : Supervisor) : Supervisor :=
  set_processes (<[name := p]> (processes_ s)) s.

Definition newStatus : ProcessStatus := MkStatus (-1) false 0 0 0 0 0.

(** [handle && handle->valid()]. *)
Definition handle_valid (p : ProcessState) : bool :=
  match handle p with Some h => h >? 0 | None => false end.

(** ** Adding *)

Definition add (name : string) (rc : RestartConfig) (s : Supervisor) : outcome Supervisor :=
  match processes_ s !! name with
  | Some _ => Throw RuntimeError
  | None => Ok (put name (MkProc rc None newStatus [] false 0) s)
  end.

(** ** Restart decisions *)

Definition WIFEXITED (st : Z) : bool := Z.land st 127 =? 0.
Definition WEXITSTATUS (st : Z) : Z := Z.shiftr (Z.land st 65280) 8.

Definition cleanupRestartHistory (now : Z) (p : ProcessState) : ProcessState :=
  let windowStart := now - maxRestartWindow (restart p) in
  MkProc (restart p) (handle p) (status_ p)
    (filter (λ t, ¬ t < windowStart) (restartTimes p)) (pendingRestart p) (scheduledRestartTime p).

(** [shouldRestart], on the state of the process: the decision and the state
    with its history cleaned up. *)
Definition shouldRestart (now status : Z) (p0 : ProcessState) : bool * ProcessState :=
  let p := cleanupRestartHistory now p0 in
  let rc := restart p in
  if (maxRestarts rc >=? 0) && (restartCount (status_ p) >=? maxRestarts rc) then (false, p)
  else if Z.of_nat (length (restartTimes p)) >=? maxRestartsInWindow rc then (false, p)
  else
    (match policy rc with
     | Never => false
     | Always => true
     | OnFailure => negb (WIFEXITED status) || negb (WEXITSTATUS status =? 0)
     | OnSuccess => WIFEXITED status && (WEXITSTATUS status =? 0)
     end, p).

(** binary64. *)
Definition prec : Z := 53.
Definition emax : Z := 1024.
Definition of_int (n : Z) : spec_float := binary_normalize prec emax n 0 false.

(** Conversion of a double to a 64-bit count, toward zero; undefined outside. *)
Definition to_int64 (x : spec_float) : option Z :=
  let v := match x with
           | S754_zero _ => Some 0
           | S754_finite sg m e =>
               let a := if e >=? 0 then Z.pos m * 2 ^ e else Z.pos m / 2 ^ (- e) in
               Some (if sg then - a else a)
           | _ => None
           end in
  match v with Some n => if in_i64 n then Some n else None | None => None end.

Fixpoint multiplier (n : nat) (m acc : spec_float) : spec_float :=
  match n with
  | O => acc
  | S n' => multiplier n' m (SFmul prec emax acc m)
  end.

(** The delay before clamping. *)
Definition rawDelay (rc : RestartConfig) (count : Z) : option Z :=
  match backoffStrategy rc with
  | Exponential =>
      let n := Z.to_nat (Z.min (Z.max count 0) 32) in
      to_int64 (SFmul prec emax (of_int (minRestartDelay rc)) (multiplier n (backoffMultiplier rc) (of_int 1)))
  | Linear => Some (minRestartDelay rc + linearIncrement rc * count)
  | Custom => Some (match customBackoff rc with Some f => f count | None => minRestartDelay rc end)
  end.

Definition clampDelay (rc : RestartConfig) (d : Z) : Z :=
  let d1 := if d >? maxRestartDelay rc then maxRestartDelay rc else d in
  if d1 <? minRestartDelay rc then minRestartDelay rc else d1.

(** [calculateRestartDelay]; [None] where the conversion is undefined. *)
Definition calculateRestartDelay (p : ProcessState) : option Z :=
  match rawDelay (restart p) (restartCount (status_ p)) with
  | Some d => Some (clampDelay (restart p) d)
  | None => None
  end.

(** ** Child exits *)

(** The state of the process after its exit has been noted. *)
Definition note_exit (status now : Z) (p : ProcessState) : ProcessState :=
  let st := status_ p in
  MkProc (restart p) (handle p)
    (MkStatus (-1) false status (restartCount st) (lastStartTime st) now (nextRestartDelay st))
    (restartTimes p) (pendingRestart p) (scheduledRestartTime p).

(** The state once a restart has been scheduled. *)
Definition plan_restart (delay now3 now4 : Z) (p : ProcessState) : ProcessState :=
  let st := status_ p in
  MkProc (restart p) (handle p)
    (MkStatus (pid st) (running st) (lastExitStatus st) (restartCount st + 1)
       (lastStartTime st) (lastExitTime st) delay)
    (restartTimes p ++ [now4]) true (now3 + delay).

(** [handleChildExit]; the clock is read for the exit time, in the cleanup, for
    the restart time and for the history.  [None]: the delay is undefined. *)
Definition handleChildExit (chld status now1 now2 now3 now4 : Z) (s : Supervisor) : option Supervisor :=
  match pidToName_ s !! chld with
  | None => Some s
  | Some name =>
      let s1 := set_pids (delete chld (pidToName_ s)) s in
      match processes_ s1 !! name with
      | None => Some s1
      | Some p =>
          let p1 := note_exit status now1 p in
          if running_ s1 then
            let '(again, p2) := shouldRestart now2 status p1 in
            if again then
              match calculateRestartDelay p2 with
              | None => None
              | Some delay => Some (put name (plan_restart delay now3 now4 p2) s1)
              end
            else Some (put name p2 s1)
          else Some (put name p1 s1)
      end
  end.

(** ** Starting and stopping processes *)

(** [doStartProcess]: [launched] is the pid, or none if the launch threw. *)
Definition doStartProcess (name : string) (launched : option Z) (now : Z) (p : ProcessState) (s : Supervisor)
  : outcome unit * Supervisor :=
  let st := status_ p in
  match launched with
  | None =>
      (Throw RuntimeError,
       put name (MkProc (restart p) (handle p)
         (MkStatus (-1) false (lastExitStatus st) (restartCount st) (lastStartTime st)
            (lastExitTime st) (nextRestartDelay st))
         (restartTimes p) (pendingRestart p) (scheduledRestartTime p)) s)
  | Some new =>
      (Ok tt,
       set_pids (<[new := name]> (pidToName_ s))
         (put name (MkProc (restart p) (Some new)
           (MkStatus new true (lastExitStatus st) (restartCount st) now
              (lastExitTime st) (nextRestartDelay st))
           (restartTimes p) (pendingRestart p) (scheduledRestartTime p)) s))
  end.

Definition startProcess (name : string) (launched : option Z) (now : Z) (s : Supervisor)
  : outcome unit * Supervisor :=
  match processes_ s !! name with
  | None => (Throw RuntimeError, s)
  | Some p => if handle_valid p then (Ok tt, s) else doStartProcess name launched now p s
  end.

Definition ESRCH : Z := 3.

(** A signal whose ESRCH is ignored; [err] is the errno of kill, if it fails. *)
Definition tolerant (err : option Z) : outcome unit :=
  match err with
  | None => Ok tt
  | Some e => if e =? ESRCH then Ok tt else Throw (SystemError e)
  end.

Definition set_pending b p :=
  MkProc (restart p) (handle p) (status_ p) (restartTimes p) b (scheduledRestartTime p).

Definition stopProcess (name : string) (err : option Z) (s : Supervisor) : outcome unit * Supervisor :=
  match processes_ s !! name with
  | None => (Throw RuntimeError, s)
  | Some p =>
      let s1 := put name (set_pending false p) s in
      if handle_valid p
      then (tolerant err, set_pids (delete (default (-1) (handle p)) (pidToName_ s1)) s1)
      else (Ok tt, s1)
  end.

Definition reset_count p :=
  let st := status_ p in
  MkProc (restart p) (handle p)
    (MkStatus (pid st) (running st) (lastExitStatus st) 0 (lastStartTime st) (lastExitTime st)
       (nextRestartDelay st))
    [] (pendingRestart p) (scheduledRestartTime p).

Definition restartProcess (name : string) (err : option Z) (launched : option Z) (now : Z) (s : Supervisor)
  : outcome unit * Supervisor :=
  let '(r, s1) := stopProcess name err s in
  match r with
  | Ok _ =>
      match processes_ s1 !! name with
      | Some p => doStartProcess name launched now (reset_count p) s1
      | None => (Ok tt, s1)
      end
  | _ => (r, s1)
  end.

(** How the waits of [remove] ended: [waitFor] reaped the process, timed out,
    or failed with an errno; the kill and the final wait, if made. *)
Inductive wait_end := Reaped | TimedOut | Failed (errno : Z).

Definition remove (name : string) (termErr : option Z) (w : wait_end) (killErr waitErr : option Z)
    (s : Supervisor) : outcome unit * Supervisor :=
  match processes_ s !! name with
  | None => (Ok tt, s)
  | Some p =>
      if handle_valid p then
        match tolerant termErr with
        | Ok _ =>
            match w with
            | Failed e => (Throw (SystemError e), s)
            | Reaped =>
                (* the handle's pid is -1 by now *)
                (Ok tt, set_processes (delete name (processes_ s))
                          (set_pids (delete (-1) (pidToName_ s)) s))
            | TimedOut =>
                match killErr, waitErr with
                | None, None =>
                    (Ok tt, set_processes (delete name (processes_ s))
                              (set_pids (delete (-1) (pidToName_ s)) s))
                | Some e, _ | None, Some e =>
                    if e =? ESRCH
                    then (Ok tt, set_processes (delete name (processes_ s))
                                   (set_pids (delete (default (-1) (handle p)) (pidToName_ s)) s))
                    else (Throw (SystemError e), s)
                end
            end
        | r => (r, s)
        end
      else (Ok tt, set_processes (delete name (processes_ s)) s)
  end.

(** ** The whole supervisor *)

(** The loop of [start] over the processes, in iteration order, each with the
    result of its launch; an exception leaves it. *)
Fixpoint startAll (order : list (string * option Z)) (now : Z) (s : Supervisor) : outcome unit * Supervisor :=
  match order with
  | [] => (Ok tt, s)
  | (name, launched) :: order' =>
      match processes_ s !! name with
      | None => startAll order' now s
      | Some p =>
          let '(r, s1) := doStartProcess name launched now p s in
          match r with Ok _ => startAll order' now s1 | _ => (r, s1) end
      end
  end.

Definition start (order : list (string * option Z)) (now : Z) (s : Supervisor) : outcome unit * Supervisor :=
  if running_ s then (Ok tt, s)
  else let '(r, s1) := startAll order now s in
       match r with Ok _ => (Ok tt, set_running true s1) | _ => (r, s1) end.

(** [stop] kills every process it has a valid handle for; an errno other than
    ESRCH leaves it. *)
Definition stop (errs : list (option Z)) (s : Supervisor) : outcome unit * Supervisor :=
  (foldr (λ e r, match tolerant e with Ok _ => r | x => x end) (Ok tt) errs, set_running false s).

(** Pending restarts of a pass of [supervisorLoop]. *)
Fixpoint restartDue (order : list (string * option Z)) (now : Z) (s : Supervisor) : outcome unit * Supervisor :=
  match order with
  | [] => (Ok tt, s)
  | (name, launched) :: order' =>
      match processes_ s !! name with
      | None => restartDue order' now s
      | Some p =>
          if pendingRestart p && (now >=? scheduledRestartTime p) then
            let '(r, s1) := doStartProcess name launched now (set_pending false p) s in
            match r with Ok _ => restartDue order' now s1 | _ => (r, s1) end
          else restartDue order' now s
      end
  end.

(** The children reaped in a pass, one after the other. *)
Fixpoint reap (exits : list (Z * Z * (Z * Z * Z * Z))) (s : Supervisor) : option Supervisor :=
  match exits with
  | [] => Some s
  | (chld, status, (n1, n2, n3, n4)) :: exits' =>
      match handleChildExit chld status n1 n2 n3 n4 s with
      | Some s1 => reap exits' s1
      | None => None
      end
  end.

Definition loopPass (exits : list (Z * Z * (Z * Z * Z * Z))) (order : list (string * option Z)) (now : Z)
    (s : Supervisor) : option (outcome unit * Supervisor) :=
  match reap exits s with
  | Some s1 => Some (restartDue order now s1)
  | None => None
  end.

(** A poll of [stopGracefully]: per process the result of [tryWait], the exit
    status if it was reaped; the handle of a reaped process is invalid. *)
Definition note_stopped (r : option Z) (p : ProcessState) : ProcessState :=
  if handle_valid p then
    match r with
    | Some st =>
        let x := status_ p in
        MkProc (restart p) (Some (-1))
          (MkStatus (pid x) false st (restartCount x) (lastStartTime x) (lastExitTime x) (nextRestartDelay x))
          (restartTimes p) (pendingRestart p) (scheduledRestartTime p)
    | None => p
    end
  else p.

Fixpoint pollStopped (rs : list (string * option Z)) (s : Supervisor) : bool * Supervisor :=
  match rs with
  | [] => (true, s)
  | (name, r) :: rs' =>
      match processes_ s !! name with
      | None => pollStopped rs' s
      | Some p =>
          let '(all, s1) := pollStopped rs' (put name (note_stopped r p) s) in
          (negb (handle_valid p && bool_decide (r = None)) && all, s1)
      end
  end.

(** [stopGracefully]: the polls made before the deadline; it stops polling
    when all have stopped. *)
Fixpoint pollUntil (polls : list (list (string * option Z))) (s : Supervisor) : Supervisor :=
  match polls with
  | [] => s
  | rs :: polls' => let '(all, s1) := pollStopped rs s in if all then s1 else pollUntil polls' s1
  end.

Definition stopGracefully (polls : list (list (string * option Z))) (s : Supervisor) : Supervisor :=
  pollUntil polls (set_running false s).

Definition status (name : string) (s : Supervisor) : outcome ProcessStatus :=
  match processes_ s !! name with
  | None => Throw RuntimeError
  | Some p => Ok (status_ p)
  end.

(** ** Restart limits *)

Definition proc_ok (p : ProcessState) : Prop :=
  let rc := restart p in let st := status_ p in
  0 <= restartCount st ∧ (0 <= maxRestarts rc → restartCount st <= maxRestarts rc) ∧
  Z.of_nat (length (restartTimes p)) <= Z.max 0 (maxRestartsInWindow rc) ∧
  (minRestartDelay rc <= maxRestartDelay rc → pendingRestart p = true →
     minRestartDelay rc <= nextRestartDelay st <= maxRestartDelay rc).

Definition sup_ok (s : Supervisor) : Prop := map_Forall (λ _ p, proc_ok p) (processes_ s).

Lemma put_ok name p s : sup_ok s → proc_ok p → sup_ok (put name p s).
Proof. intros Hs Hp. unfold sup_ok, put. simpl. by apply map_Forall_insert_2. Qed.

Lemma sup_lookup s name p : sup_ok s → processes_ s !! name = Some p → proc_ok p.
Proof. intros Hs Hp. exact (Hs _ _ Hp). Qed.

Lemma clampDelay_range rc d :
  minRestartDelay rc <= maxRestartDelay rc →
  minRestartDelay rc <= clampDelay rc d <= maxRestartDelay rc.
Proof.
  intros Hm. unfold clampDelay.
  destruct (d >? maxRestartDelay rc) eqn:E; bool_hyps; case_match; bool_hyps; lia.
Qed.

Lemma cleanup_ok now p : proc_ok p → proc_ok (cleanupRestartHistory now p).
Proof.
  intros (H1 & H2 & H3 & H4). split_and!; simpl; try done.
  pose proof (length_filter (λ t, ¬ t < now - maxRestartWindow (restart p)) (restartTimes p)). lia.
Qed.

Lemma note_exit_ok st now p : proc_ok p → proc_ok (note_exit st now p).
Proof. intros (H1 & H2 & H3 & H4). by split_and!. Qed.

(** A restart granted leaves room for it. *)
Lemma shouldRestart_ok now st p b p' :
  proc_ok p → shouldRestart now st p = (b, p') →
  proc_ok p' ∧ p' = cleanupRestartHistory now p ∧
  (b = true → (maxRestarts (restart p) < 0 ∨ restartCount (status_ p) < maxRestarts (restart p)) ∧
     Z.of_nat (length (restartTimes p')) < maxRestartsInWindow (restart p)).
Proof.
  intros Hp. unfold shouldRestart.
  change (restart (cleanupRestartHistory now p)) with (restart p).
  change (status_ (cleanupRestartHistory now p)) with (status_ p).
  destruct ((maxRestarts (restart p) >=? 0) && (restartCount (status_ p) >=? maxRestarts (restart p))) eqn:E1.
  { intros [= <- <-]. split_and!; [by apply cleanup_ok|done|done]. }
  destruct (Z.of_nat (length (restartTimes (cleanupRestartHistory now p))) >=? maxRestartsInWindow (restart p)) eqn:E2.
  { intros [= <- <-]. split_and!; [by apply cleanup_ok|done|done]. }
  intros [= _ <-]. split_and!; [by apply cleanup_ok|done|]. intros _. bool_hyps. split; [|lia].
  apply andb_false_iff in E1 as [E1|E1]; bool_hyps; lia.
Qed.

Lemma plan_restart_ok delay now3 now4 p :
  proc_ok p → (maxRestarts (restart p) < 0 ∨ restartCount (status_ p) < maxRestarts (restart p)) →
  Z.of_nat (length (restartTimes p)) < maxRestartsInWindow (restart p) →
  calculateRestartDelay p = Some delay → proc_ok (plan_restart delay now3 now4 p).
Proof.
  intros (H1 & H2 & H3 & H4) Hc Hw Hd. unfold calculateRestartDelay in Hd.
  destruct (rawDelay _ _) as [d|]; simplify_eq. split_and!; simpl.
  - lia.
  - lia.
  - rewrite length_app. simpl. lia.
  - intros Hm _. by apply clampDelay_range.
Qed.

Lemma handleChildExit_ok chld st n1 n2 n3 n4 s s' :
  sup_ok s → handleChildExit chld st n1 n2 n3 n4 s = Some s' → sup_ok s'.
Proof.
  intros Hs. unfold handleChildExit. destruct (pidToName_ s !! chld) as [name|]; [|by intros [= <-]].
  simpl. destruct (processes_ s !! name) as [p|] eqn:Ep; [|by intros [= <-]].
  pose proof (note_exit_ok st n1 p (sup_lookup _ _ _ Hs Ep)) as Hp1.
  destruct (running_ s); [|intros [= <-]; by apply (put_ok name _ (set_pids _ s))].
  destruct (shouldRestart n2 st (note_exit st n1 p)) as [b p2] eqn:E.
  destruct (shouldRestart_ok _ _ _ _ _ Hp1 E) as (Hp2 & -> & Hb).
  destruct b; [|intros [= <-]; by apply (put_ok name _ (set_pids _ s))].
  destruct (calculateRestartDelay _) as [delay|] eqn:Ed; [|done]. intros [= <-].
  apply (put_ok name _ (set_pids _ s)); [done|].
  destruct (Hb eq_refl) as [Hc Hw]. by apply plan_restart_ok.
Qed.

Lemma doStartProcess_ok name l now p s : sup_ok s → proc_ok p → sup_ok (doStartProcess name l now p s).2.
Proof. intros Hs Hp. destruct l; apply put_ok; done. Qed.

Lemma set_pending_ok p : proc_ok p → proc_ok (set_pending false p).
Proof. intros (H1 & H2 & H3 & H4). by split_and!. Qed.

Lemma reset_count_ok p : proc_ok p → proc_ok (reset_count p).
Proof. intros (H1 & H2 & H3 & H4). split_and!; simpl; try done; lia. Qed.

Lemma startProcess_ok name l now s : sup_ok s → sup_ok (startProcess name l now s).2.
Proof.
  intros Hs. unfold startProcess. destruct (processes_ s !! name) as [p|] eqn:Ep; [|done].
  destruct (handle_valid p); [done|]. apply doStartProcess_ok; [done|]. by eapply sup_lookup.
Qed.

Lemma stopProcess_ok name e s : sup_ok s → sup_ok (stopProcess name e s).2.
Proof.
  intros Hs. unfold stopProcess. destruct (processes_ s !! name) as [p|] eqn:Ep; [|done].
  assert (Hp : sup_ok (put name (set_pending false p) s)).
  { apply put_ok; [done|]. eapply set_pending_ok, sup_lookup; done. }
  by destruct (handle_valid p).
Qed.

Lemma restartProcess_ok name e l now s : sup_ok s → sup_ok (restartProcess name e l now s).2.
Proof.
  intros Hs. unfold restartProcess. pose proof (stopProcess_ok name e s Hs) as H1.
  destruct (stopProcess name e s) as [[] s1]; try done. simpl in H1.
  destruct (processes_ s1 !! name) as [p|] eqn:Ep; [|done].
  apply doStartProcess_ok; [done|]. by eapply reset_count_ok, sup_lookup.
Qed.

Lemma startAll_ok order now s : sup_ok s → sup_ok (startAll order now s).2.
Proof.
  revert s. induction order as [|[name l] order IH]; intros s Hs; simpl; [done|].
  destruct (processes_ s !! name) as [p|] eqn:Ep; [|by apply IH].
  pose proof (doStartProcess_ok name l now p s Hs (sup_lookup _ _ _ Hs Ep)) as H1.
  destruct (doStartProcess name l now p s) as [[] s1]; simpl in *; [by apply IH|done|done].
Qed.

Lemma restartDue_ok order now s : sup_ok s → sup_ok (restartDue order now s).2.
Proof.
  revert s. induction order as [|[name l] order IH]; intros s Hs; simpl; [done|].
  destruct (processes_ s !! name) as [p|] eqn:Ep; [|by apply IH].
  destruct (pendingRestart p && _); [|by apply IH].
  pose proof (doStartProcess_ok name l now _ s Hs (set_pending_ok _ (sup_lookup _ _ _ Hs Ep))) as H1.
  destruct (doStartProcess name l now _ s) as [[] s1]; simpl in *; [by apply IH|done|done].
Qed.

Lemma reap_ok exits s s' : sup_ok s → reap exits s = Some s' → sup_ok s'.
Proof.
  revert s. induction exits as [|[[c st] [[[n1 n2] n3] n4]] exits IH]; intros s Hs E; simpl in E;
    simplify_eq; [done|].
  destruct (handleChildExit c st n1 n2 n3 n4 s) as [s1|] eqn:E1; [|done].
  eapply IH; [|done]. by eapply handleChildExit_ok.
Qed.

Lemma sup_ok_subset s s' : processes_ s' ⊆ processes_ s → sup_ok s → sup_ok s'.
Proof. intros Hsub Hs name p Hp. apply (Hs name). by eapply lookup_weaken. Qed.

Lemma remove_ok name a b c d s : sup_ok s → sup_ok (remove name a b c d s).2.
Proof.
  intros Hs. unfold remove. repeat case_match; try done; simpl;
    (eapply (sup_ok_subset s); [apply delete_subseteq|done]).
Qed.

Lemma pollStopped_ok rs s : sup_ok s → sup_ok (pollStopped rs s).2.
Proof.
  revert s. induction rs as [|[name r] rs IH]; intros s Hs; simpl; [done|].
  destruct (processes_ s !! name) as [p|] eqn:Ep; [|by apply IH].
  assert (Hp : sup_ok (put name (note_stopped r p) s)).
  { apply put_ok; [done|]. pose proof (sup_lookup _ _ _ Hs Ep) as Hp. unfold note_stopped.
    destruct (handle_valid p); [|done]. by destruct r. }
  specialize (IH _ Hp). by destruct (pollStopped rs _).
Qed.

Lemma stopGracefully_ok polls s : sup_ok s → sup_ok (stopGracefully polls s).
Proof.
  intros Hs. unfold stopGracefully. assert (H1 : sup_ok (set_running false s)) by done.
  revert H1. generalize (set_running false s). clear s Hs.
  induction polls as [|rs polls IH]; intros s Hs; simpl; [done|].
  pose proof (pollStopped_ok rs s Hs) as H1. destruct (pollStopped rs s) as [[] s1]; [done|by apply IH].
Qed.

(** Every operation, whatever the system answers. *)
Inductive sup_step : relation Supervisor :=
  | su_add name rc s s' : add name rc s = Ok s' → sup_step s s'
  | su_remove name a b c d s : sup_step s (remove name a b c d s).2
  | su_start order now s : sup_step s (start order now s).2
  | su_stop errs s : sup_step s (stop errs s).2
  | su_stopGracefully polls s : sup_step s (stopGracefully polls s)
  | su_startProcess name l now s : sup_step s (startProcess name l now s).2
  | su_stopProcess name e s : sup_step s (stopProcess name e s).2
  | su_restartProcess name e l now s : sup_step s (restartProcess name e l now s).2
  | su_pass exits order now s r s' : loopPass exits order now s = Some (r, s') → sup_step s s'.

Lemma sup_step_ok s s' : sup_step s s' → sup_ok s → sup_ok s'.
Proof.
  destruct 1 as [name rc s s' E|name a b c d s|order now s|errs s|polls s|name l now s|name e s|name e l now s|exits order now s r s' E]; intros Hs.
  - unfold add in E. case_match; simplify_eq. apply put_ok; [done|].
    split_and!; simpl; try done; lia.
  - by apply remove_ok.
  - unfold start. destruct (running_ s); [done|]. pose proof (startAll_ok order now s Hs) as H1.
    by destruct (startAll order now s) as [[] s1].
  - done.
  - by apply stopGracefully_ok.
  - by apply startProcess_ok.
  - by apply stopProcess_ok.
  - by apply restartProcess_ok.
  - unfold loopPass in E. destruct (reap exits s) as [s1|] eqn:Er; simplify_eq.
    pose proof (restartDue_ok order now s1 (reap_ok _ _ _ Hs Er)) as H1.
    by destruct (restartDue order now s1); simplify_eq.
Qed.

(** C20: The restart limits hold: in every state the supervisor can reach, every
    process has been restarted at most [maxRestarts] times (when that is not
    negative) since it was added or restarted by hand, its restart history
    never outgrows [maxRestartsInWindow], and a pending restart was given a
    delay between the configured bounds, for every backoff strategy. *)
Theorem supervisor_restart_bounds s name p :
  rtc sup_step newSupervisor s → processes_ s !! name = Some p →
  (0 <= maxRestarts (restart p) → restartCount (status_ p) <= maxRestarts (restart p)) ∧
  Z.of_nat (length (restartTimes p)) <= Z.max 0 (maxRestartsInWindow (restart p)) ∧
  (minRestartDelay (restart p) <= maxRestartDelay (restart p) → pendingRestart p = true →
     minRestartDelay (restart p) <= nextRestartDelay (status_ p) <= maxRestartDelay (restart p)).
Proof.
  intros Hr Hp. assert (Hok : sup_ok s).
  { refine (rtc_invariant sup_step sup_ok _ _ sup_step_ok Hr _). apply map_Forall_empty. }
  by destruct (Hok _ _ Hp) as (_ & ? & ? & ?).
Qed.

(** At most two restarts, doubling from one second. *)
Definition sample_config : RestartConfig :=
  MkRestart OnFailure Exponential ns_per_s (300 * ns_per_s) (of_int 2) ns_per_s None 2 (3600 * ns_per_s) 10.

Definition add_or (name : string) (rc : RestartConfig) (s : Supervisor) : Supervisor :=
  match add name rc s with Ok s' => s' | _ => s end.
Definition pass_or exits order now (s : Supervisor) : Supervisor :=
  match loopPass exits order now s with Some (_, s') => s' | None => s end.

Definition sample_run : list (Supervisor → Supervisor) :=
  [add_or "web" sample_config;
   λ s, (start [("web", Some 100)] 0 s).2;
   pass_or [(100, 256, (5, 5, 5, 5))] [("web", Some 101)] 6;
   pass_or [] [("web", Some 101)] 1000000005;
   pass_or [(101, 256, (1000000007, 1000000007, 1000000008, 1000000008))] [] 1000000009].

Definition sample_sup : Supervisor := foldl (λ s f, f s) newSupervisor sample_run.

Lemma add_or_steps name rc s : rtc sup_step s (add_or name rc s).
Proof. unfold add_or. destruct (add name rc s) eqn:E; [by eapply rtc_once, su_add|done..]. Qed.

Lemma pass_or_steps exits order now s : rtc sup_step s (pass_or exits order now s).
Proof.
  unfold pass_or. destruct (loopPass exits order now s) as [[r s']|] eqn:E; [|done].
  by eapply rtc_once, su_pass.
Qed.

Lemma sample_sup_reachable : rtc sup_step newSupervisor sample_sup.
Proof.
  unfold sample_sup, sample_run. cbn [foldl].
  etrans; [apply add_or_steps|]. eapply rtc_l; [apply su_start|].
  etrans; [apply pass_or_steps|]. etrans; apply pass_or_steps.
Qed.

Lemma supervisor_restart_bounds_witness :
  ∃ p, processes_ sample_sup !! "web" = Some p ∧ restartCount (status_ p) = 2 ∧
       restartCount (status_ p) <= maxRestarts (restart p) ∧
       nextRestartDelay (status_ p) = 2 * ns_per_s.
Proof.
  destruct (processes_ sample_sup !! "web") as [p|] eqn:E; [|vm_compute in E; discriminate E].
  pose proof (supervisor_restart_bounds sample_sup "web" p sample_sup_reachable E) as (Hm & _).
  assert (Hp : match processes_ sample_sup !! "web" with
               | Some p => (restartCount (status_ p) =? 2) && (maxRestarts (restart p) =? 2) &&
                           (nextRestartDelay (status_ p) =? 2 * ns_per_s)
               | None => false end = true) by (vm_compute; reflexivity).
  rewrite E in Hp. apply andb_true_iff in Hp as [Hp H3]. apply andb_true_iff in Hp as [H1 H2].
  apply Z.eqb_eq in H1, H2, H3. exists p. split; [reflexivity|]. split; [exact H1|].
  split; [apply Hm; lia|exact H3].
Defined.

(** What a restart needs, read off the documentation of the configuration. *)
Definition restart_allowed (rc : RestartConfig) (count recent status : Z) : Prop :=
  (0 <= maxRestarts rc → count < maxRestarts rc) ∧ recent < maxRestartsInWindow rc ∧
  match policy rc with
  | Never => False
  | Always => True
  | OnFailure => ¬ (Z.land status 127 = 0 ∧ Z.shiftr (Z.land status 65280) 8 = 0)
  | OnSuccess => Z.land status 127 = 0 ∧ Z.shiftr (Z.land status 65280) 8 = 0
  end.

Lemma shouldRestart_allowed now st p :
  (shouldRestart now st p).1 = true ↔
  restart_allowed (restart p) (restartCount (status_ p))
    (Z.of_nat (length (filter (λ t, ¬ t < now - maxRestartWindow (restart p)) (restartTimes p)))) st.
Proof.
  unfold shouldRestart, restart_allowed. cbn [cleanupRestartHistory restart restartTimes status_].
  set (recent := Z.of_nat (length (filter _ _))).
  destruct ((maxRestarts (restart p) >=? 0) && (restartCount (status_ p) >=? maxRestarts (restart p))) eqn:E1.
  { bool_hyps. split; [done|]. intros (Hmx & _). simpl. lia. }
  assert (Hc : 0 <= maxRestarts (restart p) → restartCount (status_ p) < maxRestarts (restart p)).
  { apply andb_false_iff in E1 as [E1|E1]; bool_hyps; lia. }
  destruct (recent >=? maxRestartsInWindow (restart p)) eqn:E2; bool_hyps.
  { split; [done|]. lia. }
  unfold WIFEXITED, WEXITSTATUS. cbn [fst].
  destruct (policy (restart p)); rewrite ?orb_true_iff, ?andb_true_iff, ?negb_true_iff, ?Z.eqb_eq, ?Z.eqb_neq;
    try tauto; [split; [done|tauto]|].
  split; [intros Hst; split_and!; [done|lia|]; lia|]. intros (_ & _ & Hst).
  destruct (decide (Z.land st 127 = 0)); [right|by left]. tauto.
Qed.

(** A child exit is handled as configured: when a supervised child of a
    running supervisor exits, its pid is forgotten, the process is marked
    stopped with that exit status, and a restart is pending afterwards with one
    more restart on the books exactly if policy, restart limit and window limit
    allow it; otherwise the count stays. *)
Theorem child_exit_spec chld st n1 n2 n3 n4 s s' name p :
  pidToName_ s !! chld = Some name → processes_ s !! name = Some p → running_ s = true →
  handleChildExit chld st n1 n2 n3 n4 s = Some s' →
  ∃ p', processes_ s' !! name = Some p' ∧ pidToName_ s' = delete chld (pidToName_ s) ∧
    running (status_ p') = false ∧ pid (status_ p') = -1 ∧ lastExitStatus (status_ p') = st ∧
    (restart_allowed (restart p) (restartCount (status_ p))
       (Z.of_nat (length (filter (λ t, ¬ t < n2 - maxRestartWindow (restart p)) (restartTimes p)))) st →
     pendingRestart p' = true ∧ restartCount (status_ p') = restartCount (status_ p) + 1 ∧
     scheduledRestartTime p' = n3 + nextRestartDelay (status_ p')) ∧
    (¬ restart_allowed (restart p) (restartCount (status_ p))
       (Z.of_nat (length (filter (λ t, ¬ t < n2 - maxRestartWindow (restart p)) (restartTimes p)))) st →
     pendingRestart p' = pendingRestart p ∧ restartCount (status_ p') = restartCount (status_ p)).
Proof.
  intros Hpid Hp Hrun. unfold handleChildExit. rewrite Hpid. simpl. rewrite Hp, Hrun.
  pose proof (shouldRestart_allowed n2 st (note_exit st n1 p)) as Hal.
  cbn [note_exit restart status_ restartCount restartTimes] in Hal.
  assert (Hsh : (shouldRestart n2 st (note_exit st n1 p)).2 = cleanupRestartHistory n2 (note_exit st n1 p))
    by (unfold shouldRestart; repeat case_match; done).
  destruct (shouldRestart n2 st (note_exit st n1 p)) as [b p2]. simpl in Hal, Hsh. subst p2.
  destruct b.
  - destruct (calculateRestartDelay _) as [delay|]; [|done]. intros [= <-].
    exists (plan_restart delay n3 n4 (cleanupRestartHistory n2 (note_exit st n1 p))).
    split; [apply lookup_insert_eq|]. split_and!; try done. intros Hn. exfalso. apply Hn. by apply Hal.
  - intros [= <-]. exists (cleanupRestartHistory n2 (note_exit st n1 p)).
    split; [apply lookup_insert_eq|]. split_and!; try done. intros Hn. by apply Hal in Hn.
Qed.

Lemma child_exit_spec_witness :
  let s := foldl (λ s f, f s) newSupervisor (take 4 sample_run) in
  ∃ s' p', handleChildExit 101 256 1000000007 1000000007 1000000008 1000000008 s = Some s' ∧
           processes_ s' !! "web" = Some p' ∧ pendingRestart p' = true.
Proof.
  intros s.
  destruct (processes_ s !! "web") as [p|] eqn:Ep; [|vm_compute in Ep; discriminate Ep].
  assert (Hpid : pidToName_ s !! 101 = Some "web") by (vm_compute; reflexivity).
  assert (Hrun : running_ s = true) by (vm_compute; reflexivity).
  destruct (handleChildExit 101 256 1000000007 1000000007 1000000008 1000000008 s) as [s'|] eqn:Eh;
    [|vm_compute in Eh; discriminate Eh].
  destruct (child_exit_spec _ _ _ _ _ _ _ _ _ p Hpid Ep Hrun Eh) as (p' & Hp' & _ & _ & _ & _ & Hyes & _).
  exists s', p'. split; [reflexivity|]. split; [exact Hp'|].
  - apply Hyes. assert (Hq : match processes_ s !! "web" with
      | Some p => bool_decide (0 <= maxRestarts (restart p) → restartCount (status_ p) < maxRestarts (restart p)) &&
                  bool_decide (Z.of_nat (length (filter (λ t, ¬ t < 1000000007 - maxRestartWindow (restart p)) (restartTimes p)))
                    < maxRestartsInWindow (restart p)) &&
                  match policy (restart p) with OnFailure => true | _ => false end
      | None => false end = true) by (vm_compute; reflexivity).
    rewrite Ep in Hq. apply andb_true_iff in Hq as [Hq H3]. apply andb_true_iff in Hq as [H1 H2].
    apply bool_decide_eq_true in H1, H2. unfold restart_allowed.
    destruct (policy (restart p)); try discriminate H3.
    split; [exact H1|]. split; [exact H2|]. intros [_ Hz]. vm_compute in Hz. discriminate Hz.
Defined.

(** A stopped process is never seen to stop: [stopProcess] forgets the pid
    before it signals, so the exit that follows is ignored, the status still
    says running, and [startProcess] returns without starting anything because
    the old handle is still valid. *)
Theorem stop_process_stale name h p s st n1 n2 n3 n4 l now :
  processes_ s !! name = Some p → handle p = Some h → 0 < h → running (status_ p) = true →
  let s1 := (stopProcess name None s).2 in
  (stopProcess name None s).1 = Ok tt ∧
  handleChildExit h st n1 n2 n3 n4 s1 = Some s1 ∧
  status name s1 = Ok (status_ p) ∧
  startProcess name l now s1 = (Ok tt, s1).
Proof.
  intros Hp Hh Hpos Hrun s1.
  assert (Hv : handle_valid p = true) by (unfold handle_valid; rewrite Hh, Z.gtb_ltb; by apply Z.ltb_lt).
  assert (Hs1 : stopProcess name None s = (Ok tt, s1)).
  { unfold s1, stopProcess. rewrite Hp, Hv. done. }
  assert (Hget : processes_ s1 !! name = Some (set_pending false p)).
  { unfold s1, stopProcess. rewrite Hp, Hv. apply lookup_insert_eq. }
  assert (Hpid : pidToName_ s1 !! h = None).
  { unfold s1, stopProcess. rewrite Hp, Hv. simpl. rewrite Hh. apply lookup_delete_eq. }
  split_and!.
  - by rewrite Hs1.
  - unfold handleChildExit. by rewrite Hpid.
  - unfold status. by rewrite Hget.
  - unfold startProcess. rewrite Hget.
    assert (handle_valid (set_pending false p) = true) as -> by done. done.
Qed.

Lemma stop_process_stale_witness :
  let s := foldl (λ s f, f s) newSupervisor (take 2 sample_run) in
  startProcess "web" (Some 200) 9 (stopProcess "web" None s).2 = (Ok tt, (stopProcess "web" None s).2).
Proof.
  intros s. destruct (processes_ s !! "web") as [p|] eqn:Ep; [|vm_compute in Ep; discriminate Ep].
  assert (Hq : match processes_ s !! "web" with
    | Some p => bool_decide (handle p = Some 100) && running (status_ p) | None => false end = true)
    by (vm_compute; reflexivity).
  rewrite Ep in Hq. apply andb_true_iff in Hq as [H1 H2]. apply bool_decide_eq_true in H1.
  exact (proj2 (proj2 (proj2 (stop_process_stale "web" 100 p s 0 0 0 0 0 (Some 200) 9 Ep H1 ltac:(lia) H2)))).
Defined.
