(* ===== verification/Health.v ===== *)
(** * Health checks (src/src/process_health.cpp, include/pman/process_health.hpp)

    The four checks over the results of their system calls, with the
    descriptors and children they leave behind, and the monitor: its table, the
    hysteresis of [checkProcess] and the passes of [monitorLoop].  The change
    callback runs under the monitor's mutex, so one that calls back into the
    monitor hangs the monitor thread. *)

From S2P Require Import Prelude.

Inductive HealthStatus := Unknown | Healthy | Unhealthy | Degraded.
#[export] Instance HealthStatus_eq_dec : EqDecision HealthStatus.
Proof. solve_decision. Defined.

Record HealthCheckConfig := MkHC {
  interval : Z; timeout : Z; unhealthyThreshold : Z; healthyThreshold : Z
}.

Definition EPERM : Z := 1.
Definition EINPROGRESS : Z := 115.

(** ** The checks *)

(** [ProcessExistsCheck::check]; [kill] is what [kill(pid, 0)] returns and
    leaves in [errno]. *)
Definition process_exists (pid : Z) (kill : Z * Z) : bool :=
  if pid <=? 0 then false else (kill.1 =? 0) || (kill.2 =? EPERM).

(** What [TcpHealthCheck::check] does to descriptors. *)
Inductive fd_call := OpenFd (fd : Z) | CloseFd (fd : Z).

(** The results of its system calls: [socket]; whether the address parses and
    else whether the host is found; [connect] with [errno]; [poll]; [getsockopt]
    with the error it reports. *)
Record tcp_results := MkTcp {
  r_socket : Z; r_inet : bool; r_host : bool; r_connect : Z * Z; r_poll : Z; r_sockopt : Z * Z
}.

(** [TcpHealthCheck::check]. *)
Definition tcp_check (r : tcp_results) : bool * list fd_call :=
  let sock := r_socket r in
  if sock <? 0 then (false, [])
  else
    let opened := [OpenFd sock] in
    if negb (r_inet r) && negb (r_host r) then (false, opened ++ [CloseFd sock])
    else if (r_connect r).1 =? 0 then (true, opened ++ [CloseFd sock])
    else if negb ((r_connect r).2 =? EINPROGRESS) then (false, opened ++ [CloseFd sock])
    else if r_poll r <=? 0 then (false, opened ++ [CloseFd sock])
    else if ((r_sockopt r).1 <? 0) || negb ((r_sockopt r).2 =? 0) then (false, opened ++ [CloseFd sock])
    else (true, opened ++ [CloseFd sock]).

(** What happens to the child of [CommandHealthCheck::check]. *)
Inductive child_call := Fork (child : Z) | Reaped (child : Z) | KillChild (child : Z).

(** A pass of its loop: the clock, what [waitpid] returns, and the wait status
    as (exited normally, exit code). *)
Record wait_pass := MkPass { p_now : Z; p_result : Z; p_status : bool * Z }.

Fixpoint command_loop (child deadline : Z) (ps : list wait_pass) : option (bool * list child_call) :=
  match ps with
  | [] => None
  | p :: ps' =>
      if p_now p <? deadline then
        if p_result p >? 0 then Some ((p_status p).1 && ((p_status p).2 =? 0), [Reaped child])
        else command_loop child deadline ps'
      else Some (false, [KillChild child; Reaped child])
  end.

(** [CommandHealthCheck::check]; [None]: still inside the loop when the passes
    end, or the child ([fork] is 0), which executes the command or exits and
    does not return. *)
Definition command_check (fork now timeout_ : Z) (ps : list wait_pass) : option (bool * list child_call) :=
  if fork <? 0 then Some (false, [])
  else if fork =? 0 then None
  else
    r ← command_loop fork (now + timeout_) ps;
    Some (r.1, Fork fork :: r.2).

(** [FileHealthCheck::check]; [stat] is the modification time in seconds. *)
Definition file_check (maxAge : Z) (stat : option Z) (now : Z) : bool :=
  match stat with
  | None => false
  | Some mtime => now - mtime * ns_per_s <=? maxAge
  end.

(** Every path of the TCP check closes the socket it opened, once; it succeeds
    exactly when the connection is made at once or within the poll. *)
Lemma tcp_check_closes r :
  (tcp_check r).2 = (if r_socket r <? 0 then [] else [OpenFd (r_socket r); CloseFd (r_socket r)]) ∧
  ((tcp_check r).1 = true ↔
     0 <= r_socket r ∧ (r_inet r = true ∨ r_host r = true) ∧
     ((r_connect r).1 = 0 ∨
      (r_connect r).2 = EINPROGRESS ∧ 0 < r_poll r ∧ 0 <= (r_sockopt r).1 ∧ (r_sockopt r).2 = 0)).
Proof.
  unfold tcp_check. destruct (Z.ltb_spec (r_socket r) 0); [split; [done|split; [done|lia]]|].
  destruct (r_inet r), (r_host r); simpl; try (split; [done|]; split; [done|]; naive_solver).
  all: destruct (Z.eqb_spec (r_connect r).1 0); simpl; [split; [done|]; tauto|].
  all: destruct (Z.eqb_spec (r_connect r).2 EINPROGRESS); simpl; [|split; [done|]; split; [done|]; tauto].
  all: destruct (Z.leb_spec (r_poll r) 0); simpl; [split; [done|]; split; [done|]; lia|].
  all: destruct (Z.ltb_spec (r_sockopt r).1 0); simpl; [split; [done|]; split; [done|]; lia|].
  all: destruct (Z.eqb_spec (r_sockopt r).2 0); simpl; split; try done; split; try done; lia.
Qed.

(** The command check ends once the clock reaches its deadline, and a child it
    forked is reaped exactly once whichever way it ends. *)
Lemma command_check_reaps fork now t ps :
  fork ≠ 0 → (∃ p, p ∈ ps ∧ now + t <= p_now p) →
  ∃ b cs, command_check fork now t ps = Some (b, cs) ∧
    (fork < 0 → b = false ∧ cs = []) ∧
    (0 < fork → cs = [Fork fork; Reaped fork] ∨ b = false ∧ cs = [Fork fork; KillChild fork; Reaped fork]).
Proof.
  intros H0 (p & Hp & Hd). unfold command_check. destruct (Z.ltb_spec fork 0).
  { do 2 eexists. split_and!; [done|done|lia]. }
  destruct (Z.eqb_spec fork 0); [done|].
  assert (Hl : ∃ b cs, command_loop fork (now + t) ps = Some (b, cs) ∧
    (cs = [Reaped fork] ∨ b = false ∧ cs = [KillChild fork; Reaped fork])).
  { induction ps as [|q ps IH]; [by apply elem_of_nil in Hp|]. simpl.
    destruct (Z.ltb_spec (p_now q) (now + t)); [|eauto 6].
    destruct (p_result q >? 0); [eauto 6|]. apply IH.
    apply elem_of_cons in Hp as [->|?]; [lia|done]. }
  destruct Hl as (b & cs & -> & Hcs). simpl. do 2 eexists. split_and!; [done|lia|]. naive_solver.
Qed.

(** ** The monitor *)

Record MonitoredProcess := MkMon {
  hpid : Z;
  checks : list Z;
  hconfig : HealthCheckConfig;
  hstatus : HealthStatus;
  consecutiveFailures : Z;
  consecutiveSuccesses : Z;
  lastCheck : Z
}.

(** What a change callback does: return, throw, or call a method of the monitor,
    which locks [mutex_]. *)
Inductive cb_action := Returns | Throws | Reenters.
Definition callback := string → HealthStatus → HealthStatus → cb_action.

Record HealthMonitor := MkMonitor {
  processes_ : gmap string MonitoredProcess;
  hrunning_ : bool;
  healthChangeCallback_ : option callback
}.

Definition newMonitor : HealthMonitor := MkMonitor ∅ false None.

Definition set_processes (m : gmap string MonitoredProcess) (s : HealthMonitor) : HealthMonitor :=
  MkMonitor m (hrunning_ s) (healthChangeCallback_ s).
Definition set_hrunning (b : bool) (s : HealthMonitor) : HealthMonitor :=
  MkMonitor (processes_ s) b (healthChangeCallback_ s).

Definition addProcess (now : Z) (name : string) (pid : Z) (cs : list Z) (config : HealthCheckConfig)
  (s : HealthMonitor) : HealthMonitor :=
  set_processes (<[name := MkMon pid cs config Unknown 0 0 (now - interval config)]> (processes_ s)) s.

Definition removeProcess (name : string) (s : HealthMonitor) : HealthMonitor :=
  set_processes (delete name (processes_ s)) s.

Definition reset_pid (pid : Z) (p : MonitoredProcess) : MonitoredProcess :=
  MkMon pid (checks p) (hconfig p) Unknown 0 0 (lastCheck p).

Definition updatePid (name : string) (pid : Z) (s : HealthMonitor) : HealthMonitor :=
  match processes_ s !! name with
  | None => s
  | Some p => set_processes (<[name := reset_pid pid p]> (processes_ s)) s
  end.

Definition status (name : string) (s : HealthMonitor) : HealthStatus :=
  match processes_ s !! name with None => Unknown | Some p => hstatus p end.

Definition allStatuses (s : HealthMonitor) : gmap string HealthStatus := hstatus <$> processes_ s.

Definition onHealthChange (cb : option callback) (s : HealthMonitor) : HealthMonitor :=
  MkMonitor (processes_ s) (hrunning_ s) cb.

(** The loop over the checks of [checkProcess]: whether all passed and how many
    did; [check c pid] is the result of check [c]. *)
Fixpoint run_checks (check : Z → Z → bool) (pid : Z) (cs : list Z) (allPassed : bool) (passed : Z) : bool * Z :=
  match cs with
  | [] => (allPassed, passed)
  | c :: cs' =>
      if negb (check c pid) then run_checks check pid cs' false passed
      else run_checks check pid cs' allPassed (passed + 1)
  end.

(** What [checkProcess] records of a round, and the status it decides. *)
Definition score (result : bool * Z) (now : Z) (p : MonitoredProcess) : MonitoredProcess :=
  let '(allPassed, passed) := result in
  if allPassed then
    let n := consecutiveSuccesses p + 1 in
    MkMon (hpid p) (checks p) (hconfig p)
      (if n >=? healthyThreshold (hconfig p) then Healthy else hstatus p) 0 n now
  else if passed =? 0 then
    let n := consecutiveFailures p + 1 in
    MkMon (hpid p) (checks p) (hconfig p)
      (if n >=? unhealthyThreshold (hconfig p) then Unhealthy else hstatus p) n 0 now
  else
    let n := consecutiveFailures p in
    MkMon (hpid p) (checks p) (hconfig p) Degraded (if n >? 0 then n + 1 else n) 0 now.

(** [checkProcess], under [mutex_]: the process as it leaves it, the callback
    made, and whether it returns: exceptions of the callback are swallowed, but
    one that calls a method of the monitor waits for [mutex_] for ever. *)
Definition checkProcess (check : Z → Z → bool) (now : Z) (cb : option callback) (name : string)
  (p : MonitoredProcess) : outcome (option (HealthStatus * HealthStatus)) * MonitoredProcess :=
  let p' := score (run_checks check (hpid p) (checks p) true 0) now p in
  let old := hstatus p in
  let new := hstatus p' in
  match cb with
  | Some f =>
      if decide (old = new) then (Ok None, p')
      else match f name old new with
           | Reenters => (Hang, p')
           | Returns | Throws => (Ok (Some (old, new)), p')
           end
  | None => (Ok None, p')
  end.

(** The names [monitorLoop] collects, in the order of the table. *)
Definition toCheck (now : Z) (s : HealthMonitor) : list string :=
  omap (λ np : string * MonitoredProcess,
    if now - lastCheck np.2 >=? interval (hconfig np.2) then Some np.1 else None)
    (map_to_list (processes_ s)).

(** ** The system: clients and the monitor thread *)

(** Where the monitor thread is: not started or gone, at the top of the loop,
    going through the names, or blocked for ever inside a callback, holding
    [mutex_]. *)
Inductive loop_pc := NoThread | Top | Checking (names : list string) | Stuck.

Inductive round := AllPass | AllFail | Mixed.

(** The system, with the rounds of each process since it was added or its pid
    changed, latest first, and the changes reported, latest first. *)
Record System := MkSys {
  mon : HealthMonitor;
  pc : loop_pc;
  hist : gmap string (list round);
  reported : list (string * HealthStatus * HealthStatus)
}.

Definition classify (result : bool * Z) : round :=
  if result.1 then AllPass else if result.2 =? 0 then AllFail else Mixed.

Inductive call :=
  | Add (now : Z) (name : string) (pid : Z) (cs : list Z) (config : HealthCheckConfig)
  | Remove (name : string)
  | Update (name : string) (pid : Z)
  | OnChange (cb : option callback).

Definition apply (c : call) (s : HealthMonitor) : HealthMonitor :=
  match c with
  | Add now name pid cs config => addProcess now name pid cs config s
  | Remove name => removeProcess name s
  | Update name pid => updatePid name pid s
  | OnChange cb => onHealthChange cb s
  end.

Definition forget (c : call) (h : gmap string (list round)) : gmap string (list round) :=
  match c with
  | Add _ name _ _ _ | Remove name | Update name _ => <[name := []]> h
  | OnChange _ => h
  end.

(** One turn of the inner loop of [monitorLoop] on a name: the process is looked
    up again, so one removed meanwhile is skipped. *)
Definition check_name (check : Z → Z → bool) (now : Z) (name : string) (rest : list string) (s : System) : System :=
  match processes_ (mon s) !! name with
  | None => MkSys (mon s) (Checking rest) (hist s) (reported s)
  | Some p =>
      let r := checkProcess check now (healthChangeCallback_ (mon s)) name p in
      let m := set_processes (<[name := r.2]> (processes_ (mon s))) (mon s) in
      let h := <[name := classify (run_checks check (hpid p) (checks p) true 0) :: default [] (hist s !! name)]> (hist s) in
      match r.1 with
      | Ok (Some (old, new)) => MkSys m (Checking rest) h ((name, old, new) :: reported s)
      | Ok None => MkSys m (Checking rest) h (reported s)
      | Throw _ | Hang => MkSys m Stuck h (reported s)
      end
  end.

(** The loop's own steps; [check] and [now] are the checks and the clock. *)
Definition loop_step (check : Z → Z → bool) (now : Z) (s : System) : System :=
  match pc s with
  | Top => if hrunning_ (mon s) then MkSys (mon s) (Checking (toCheck now (mon s))) (hist s) (reported s)
           else MkSys (mon s) NoThread (hist s) (reported s)
  | Checking [] => MkSys (mon s) Top (hist s) (reported s)
  | Checking (name :: rest) =>
      if hrunning_ (mon s) then check_name check now name rest s
      else MkSys (mon s) Top (hist s) (reported s)
  | NoThread | Stuck => s
  end.

(** [start]; the thread is created unless it already runs. *)
Definition start (s : System) : System :=
  if hrunning_ (mon s) then s else MkSys (set_hrunning true (mon s)) Top (hist s) (reported s).

(** [stop], up to the join; [joined] says whether the join returns. *)
Definition stop (s : System) : System := MkSys (set_hrunning false (mon s)) (pc s) (hist s) (reported s).
Definition joined (s : System) : bool := match pc s with NoThread => true | _ => false end.

(** A client call takes [mutex_], which a stuck monitor thread never gives
    back.  [start] waits for an earlier [stop] to have joined its thread. *)
Inductive sys_step : relation System :=
  | S_call c s : pc s ≠ Stuck → sys_step s (MkSys (apply c (mon s)) (pc s) (forget c (hist s)) (reported s))
  | S_start s : hrunning_ (mon s) = true ∨ joined s = true → sys_step s (start s)
  | S_stop s : sys_step s (stop s)
  | S_loop check now s : sys_step s (loop_step check now s).

Definition initSystem : System := MkSys newMonitor NoThread ∅ [].

(** ** The counters and the status as functions of the rounds *)

Definition is_pass (r : round) : bool := match r with AllPass => true | _ => false end.
Definition is_mixed (r : round) : bool := match r with Mixed => true | _ => false end.

(** The length of the run of full passes that ends the rounds. *)
Definition passes (h : list round) : Z := Z.of_nat (length (span is_pass h).1).

(** The rounds after the last full pass, oldest first, counted from the first
    one in which everything failed. *)
Definition failures (h : list round) : Z :=
  Z.of_nat (length (span is_mixed (reverse (span (λ r, negb (is_pass r)) h).1)).2).

(** The verdict: a round that passes some checks degrades, and otherwise the
    verdict changes only when its run has reached the threshold. *)
Fixpoint verdict (c : HealthCheckConfig) (h : list round) : HealthStatus :=
  match h with
  | [] => Unknown
  | Mixed :: _ => Degraded
  | AllPass :: h' => if passes h >=? healthyThreshold c then Healthy else verdict c h'
  | AllFail :: h' => if failures h >=? unhealthyThreshold c then Unhealthy else verdict c h'
  end.

Lemma span_snoc {A} (p : A → bool) l x :
  (span p (l ++ [x])).2 = match (span p l).2 with [] => if p x then [] else [x] | r => r ++ [x] end.
Proof.
  induction l as [|y l IH]; simpl; [by destruct (p x)|].
  destruct (p y); [|done]. destruct (span p l), (span p (l ++ [x])); simpl in *. done.
Qed.

Lemma passes_cons r h : passes (r :: h) = if is_pass r then passes h + 1 else 0.
Proof.
  unfold passes. simpl. destruct (is_pass r); [|done]. destruct (span is_pass h); simpl. lia.
Qed.

Lemma failures_cons r h :
  failures (r :: h) = match r with
                      | AllPass => 0
                      | AllFail => failures h + 1
                      | Mixed => if failures h >? 0 then failures h + 1 else failures h
                      end.
Proof.
  unfold failures. cbn [span]. destruct r; cbn [is_pass negb]; [done|..];
    destruct (span (λ r, negb (is_pass r)) h) as [a b]; cbn [fst];
    rewrite reverse_cons, span_snoc; destruct (span is_mixed (reverse a)).2 as [|y l];
    rewrite ?length_app; cbn; try lia; split_cases; lia.
Qed.

(** The state of a process agrees with its rounds. *)
Definition agrees (p : MonitoredProcess) (h : list round) : Prop :=
  consecutiveSuccesses p = passes h ∧ consecutiveFailures p = failures h ∧
  hstatus p = verdict (hconfig p) h.

Lemma score_agrees res now p h : agrees p h → agrees (score res now p) (classify res :: h).
Proof.
  intros (Hs & Hf & Hv). destruct res as [all n]. unfold agrees, classify, score.
  rewrite passes_cons, failures_cons.
  destruct all; [|destruct (n =? 0) eqn:En]; cbn -[passes failures]; rewrite ?En; cbn -[passes failures]; rewrite ?passes_cons, ?failures_cons;
    cbn -[passes failures]; rewrite ?Hs, ?Hf, ?Hv; done.
Qed.

Lemma checkProcess_score check now cb name p :
  (checkProcess check now cb name p).2 = score (run_checks check (hpid p) (checks p) true 0) now p.
Proof. unfold checkProcess. destruct cb as [f|]; [|done]. case_decide; [done|]. by destruct (f _ _ _). Qed.

Lemma checkProcess_reports check now cb name p old new :
  (checkProcess check now cb name p).1 = Ok (Some (old, new)) →
  old = hstatus p ∧ new = hstatus (checkProcess check now cb name p).2 ∧ old ≠ new.
Proof.
  rewrite checkProcess_score. unfold checkProcess. destruct cb as [f|]; [|done].
  case_decide; [done|]. destruct (f _ _ _); naive_solver.
Qed.

Record SysInv (s : System) : Prop := {
  si_agrees : ∀ name p, processes_ (mon s) !! name = Some p → agrees p (default [] (hist s !! name));
  si_reported : Forall (λ r : string * HealthStatus * HealthStatus, r.1.2 ≠ r.2) (reported s)
}.

Lemma call_inv c s : SysInv s → SysInv (MkSys (apply c (mon s)) (pc s) (forget c (hist s)) (reported s)).
Proof.
  intros [Ha Hr]. split; [|done]. intros name p; cbn [mon hist].
  destruct c as [now n pid cs cfg|n|n pid|cb]; cbn [apply forget].
  - cbn. destruct (decide (n = name)) as [->|]; simplify_map_eq; [|apply Ha]. by intros [= <-].
  - cbn. destruct (decide (n = name)) as [->|]; simplify_map_eq; [done|apply Ha].
  - unfold updatePid. destruct (processes_ (mon s) !! n) as [q|] eqn:Hq; cbn.
    + destruct (decide (n = name)) as [->|]; simplify_map_eq; [by intros [= <-]|apply Ha].
    + intros Hp. destruct (decide (n = name)) as [->|]; [congruence|]. rewrite lookup_insert_ne by done. by apply Ha.
  - apply Ha.
Qed.

Lemma check_name_inv check now name rest s : SysInv s → SysInv (check_name check now name rest s).
Proof.
  intros [Ha Hr]. unfold check_name. destruct (processes_ (mon s) !! name) as [p|] eqn:Hp; [|by split].
  pose proof (checkProcess_reports check now (healthChangeCallback_ (mon s)) name p) as Hrep.
  pose proof (checkProcess_score check now (healthChangeCallback_ (mon s)) name p) as Hsc.
  destruct (checkProcess check now (healthChangeCallback_ (mon s)) name p) as [o q]; simpl in *; subst q.
  assert (Hag : ∀ n p',
    <[name := score (run_checks check (hpid p) (checks p) true 0) now p]> (processes_ (mon s)) !! n = Some p' →
    agrees p' (default [] (<[name := classify (run_checks check (hpid p) (checks p) true 0) ::
                              default [] (hist s !! name)]> (hist s) !! n))).
  { intros n p'. destruct (decide (name = n)) as [->|]; simplify_map_eq; [|apply Ha].
    intros [= <-]. apply score_agrees. by apply Ha. }
  destruct o as [[[old new]|]|e|]; split; try done. constructor; [|done]. by apply (Hrep old new).
Qed.

Lemma health_step_inv s s' : sys_step s s' → SysInv s → SysInv s'.
Proof.
  intros [c s0 _|s0 _|s0|check now s0] [Ha Hr].
  - by apply call_inv.
  - unfold start. destruct (hrunning_ (mon s0)); by split.
  - by split.
  - unfold loop_step. destruct (pc s0) as [| |[|n l]|]; [by split|case_match; by split|by split| |by split].
    case_match; [by apply check_name_inv|by split].
Qed.

(** C13: In every reachable state of the health monitor, however the clients'
    calls interleave with the monitor thread's lock sections, the counters and
    the status of a process are the ones its check rounds since it was added
    (or its pid last changed) dictate: the length of the final run of full
    passes, the number of rounds since the first total failure after the last
    full pass, and the verdict with its two thresholds.  A callback is made
    only for a change. *)
Theorem health_hysteresis s name p :
  rtc sys_step initSystem s → processes_ (mon s) !! name = Some p →
  let h := default [] (hist s !! name) in
  consecutiveSuccesses p = passes h ∧ consecutiveFailures p = failures h ∧
  status name (mon s) = verdict (hconfig p) h ∧
  Forall (λ r : string * HealthStatus * HealthStatus, r.1.2 ≠ r.2) (reported s).
Proof.
  intros Hr Hp. destruct (rtc_invariant sys_step SysInv initSystem s health_step_inv Hr) as [Ha Hc].
  { split; [done|constructor]. }
  destruct (Ha name p Hp) as (? & ? & ?). unfold status. by rewrite Hp.
Qed.

(** Hysteresis: a verdict survives every run of total failures shorter than the
    threshold that follows a full pass. *)
Lemma verdict_no_flap c h n :
  Z.of_nat n < unhealthyThreshold c → verdict c (replicate n AllFail ++ AllPass :: h) = verdict c (AllPass :: h).
Proof.
  assert (Hf : ∀ k, failures (replicate k AllFail ++ AllPass :: h) = Z.of_nat k).
  { induction k as [|k IH]; [done|]. cbn [replicate app]. rewrite failures_cons, IH. lia. }
  intros Hn. induction n as [|n IH]; [done|]. cbn [replicate app verdict].
  change (AllFail :: replicate n AllFail ++ AllPass :: h) with (replicate (S n) AllFail ++ AllPass :: h).
  rewrite Hf. destruct (Z.geb_spec (Z.of_nat (S n)) (unhealthyThreshold c)); [lia|]. apply IH. lia.
Qed.

Definition sample_config : HealthCheckConfig := MkHC 0 0 3 2.

(** A run: a process is added, checked with total failure three times. *)
Definition sample_sys : System :=
  let s1 := MkSys (apply (Add 0 "db" 7 [1; 2] sample_config) newMonitor) NoThread
              (forget (Add 0 "db" 7 [1; 2] sample_config) ∅) [] in
  Nat.iter 9 (loop_step (λ _ _, false) 10) (start s1).

Lemma loop_steps_reachable check now n s0 s :
  rtc sys_step s0 s → rtc sys_step s0 (Nat.iter n (loop_step check now) s).
Proof. intros H. induction n as [|n IH]; [done|]. eapply rtc_r; [exact IH|apply S_loop]. Qed.

Lemma health_hysteresis_witness :
  rtc sys_step initSystem sample_sys ∧
  status "db" (mon sample_sys) = verdict sample_config (default [] (hist sample_sys !! "db")) ∧
  status "db" (mon sample_sys) = Unhealthy.
Proof.
  assert (Hr : rtc sys_step initSystem sample_sys).
  { apply loop_steps_reachable. eapply rtc_l; [by apply (S_call (Add 0 "db" 7 [1; 2] sample_config))|].
    eapply rtc_l; [apply S_start; by right|]. apply rtc_refl. }
  split; [exact Hr|]. split; [|by vm_compute].
  exact (proj1 (proj2 (proj2 (health_hysteresis sample_sys "db" (MkMon 7 [1; 2] sample_config Unhealthy 3 0 10) Hr
    ltac:(by vm_compute))))).
Defined.

(** A change callback that asks the monitor for a status never returns: it
    runs with [mutex_] held.  The first verdict leaves the monitor thread
    blocked for ever, no step of it leads out, and the join in [stop] never
    returns. *)
Theorem callback_reenters_hangs check now name p rest s :
  pc s = Checking (name :: rest) → hrunning_ (mon s) = true → processes_ (mon s) !! name = Some p →
  hstatus (score (run_checks check (hpid p) (checks p) true 0) now p) ≠ hstatus p →
  (∃ f, healthChangeCallback_ (mon s) = Some f ∧ ∀ n old new, f n old new = Reenters) →
  pc (loop_step check now s) = Stuck ∧
  ∀ s', rtc sys_step (loop_step check now s) s' → pc s' = Stuck ∧ joined (stop s') = false.
Proof.
  intros Hpc Hrun Hp Hne (f & Hcb & Hf).
  assert (Hst : pc (loop_step check now s) = Stuck).
  { unfold loop_step. rewrite Hpc, Hrun. unfold check_name. rewrite Hp, Hcb. unfold checkProcess.
    rewrite decide_False by done. by rewrite Hf. }
  split; [done|]. intros s' Hr.
  assert (pc s' = Stuck) as Hs'; [|split; [done|]; unfold joined, stop; cbn; by rewrite Hs'].
  refine (rtc_invariant sys_step (λ s, pc s = Stuck) _ s' _ Hr Hst).
  intros a b [c s0 H|s0 H|s0|ch nw s0] Ha; [done| |done|by unfold loop_step; rewrite Ha].
  unfold start. destruct (hrunning_ (mon s0)); [done|]. unfold joined in H. rewrite Ha in H. by destruct H.
Qed.

Definition reentrant_sys : System :=
  MkSys (onHealthChange (Some (λ _ _ _, Reenters))
          (set_hrunning true (addProcess 0 "db" 7 [1] (MkHC 0 0 1 1) newMonitor))) (Checking ["db"]) ∅ [].

Lemma callback_reenters_hangs_witness : pc (loop_step (λ _ _, true) 5 reentrant_sys) = Stuck.
Proof.
  refine (proj1 (callback_reenters_hangs (λ _ _, true) 5 "db" (MkMon 7 [1] (MkHC 0 0 1 1) Unknown 0 0 0) []
    reentrant_sys _ _ _ _ _)); [done|done|by vm_compute|done|].
  by eexists.
Defined.
