(* ===== verification/ThreadPool.v ===== *)
(** * Thread pools (src/src/enhanced_thread_pool.cpp, thread_pool.cpp)

    The priority pool as a transition system: clients submit, cancel and shut
    down, and each worker moves through the stages of [workerLoop], one atomic
    operation or critical section at a time.  Which tasks have run, were
    skipped or dropped is recorded besides the program's own state. *)

From S2P Require Import Prelude.

(** ** Entries and their order *)

Record TaskEntry := MkEntry { id : Z; priority : Z; sequenceNumber : Z; task : Z }.

(** [TaskEntry::operator<]. *)
Definition entry_lt (a b : TaskEntry) : bool :=
  if negb (priority a =? priority b) then priority a >? priority b
  else sequenceNumber a >? sequenceNumber b.

(** [priority_queue::top]: a greatest element. *)
Definition top_of (x : TaskEntry) (q : list TaskEntry) : TaskEntry :=
  foldl (λ m e, if entry_lt m e then e else m) x q.

(** [top] and [pop]: the entry and the queue without it. *)
Fixpoint erase_id (i : Z) (q : list TaskEntry) : list TaskEntry :=
  match q with
  | [] => []
  | e :: q' => if id e =? i then q' else e :: erase_id i q'
  end.

Definition pop (q : list TaskEntry) : option (TaskEntry * list TaskEntry) :=
  match q with
  | [] => None
  | x :: q' => let t := top_of x q' in Some (t, erase_id (id t) q)
  end.

(** ** State *)

(** The stages of [workerLoop]: waiting for work; holding a popped entry;
    about to count itself active; running the task; the task has returned;
    completion stored; no longer active; left the loop. *)
Inductive stage :=
  | Waiting
  | Popped (e : TaskEntry)
  | Checked (e : TaskEntry)
  | Running (e : TaskEntry)
  | Returned (e : TaskEntry) (success : bool)
  | Stored (success : bool)
  | Metrics (success : bool)
  | Exited.

Record PoolMetrics := MkMetrics {
  tasksSubmitted : Z; tasksCompleted : Z; tasksCancelled : Z; tasksFailed : Z
}.

(** A submission under way: it has its id; it has its sequence number too. *)
Inductive arrival :=
  | Numbered (i prio job : Z)
  | Sequenced (e : TaskEntry).

Record Pool := MkPool {
  queue_ : list TaskEntry;
  workers_ : list stage;
  cancelled : gset Z;
  completed : gset Z;
  shuttingDown_ : bool;
  activeWorkers_ : Z;
  nextTaskId_ : Z;
  sequenceCounter_ : Z;
  metrics_ : PoolMetrics;
  (* history *)
  ran : list Z;
  skipped : list Z;
  dropped : list Z;
  (* the submitters' own *)
  arriving : list arrival
}.

Definition newPool (workerCount : nat) : outcome Pool :=
  if Nat.eqb workerCount 0 then Throw InvalidArgument
  else Ok (MkPool [] (replicate workerCount Waiting) ∅ ∅ false 0 1 0 (MkMetrics 0 0 0 0) [] [] [] []).

Definition set_worker (i : nat) (w : stage) (s : Pool) : Pool :=
  MkPool (queue_ s) (<[i := w]> (workers_ s)) (cancelled s) (completed s) (shuttingDown_ s)
    (activeWorkers_ s) (nextTaskId_ s) (sequenceCounter_ s) (metrics_ s) (ran s) (skipped s) (dropped s) (arriving s).

Definition set_metrics (m : PoolMetrics) (s : Pool) : Pool :=
  MkPool (queue_ s) (workers_ s) (cancelled s) (completed s) (shuttingDown_ s)
    (activeWorkers_ s) (nextTaskId_ s) (sequenceCounter_ s) m (ran s) (skipped s) (dropped s) (arriving s).

(** ** Client operations *)

(** [submitWithPriority] ([submit] is priority 0; the overload with a token
    wraps its job) is made of the atomic operations below, between which other
    threads run.  First [createTaskHandle] takes the id. *)
Definition createTaskHandle (prio job : Z) (s : Pool) : Z * Pool :=
  (nextTaskId_ s,
   MkPool (queue_ s) (workers_ s) (cancelled s) (completed s) (shuttingDown_ s) (activeWorkers_ s)
     (u64 (nextTaskId_ s + 1)) (sequenceCounter_ s) (metrics_ s) (ran s) (skipped s) (dropped s)
     (arriving s ++ [Numbered (nextTaskId_ s) prio job])).

(** The entry of the [k]-th submission gets its sequence number. *)
Definition takeSequence (k : nat) (s : Pool) : Pool :=
  match arriving s !! k with
  | Some (Numbered i prio job) =>
      MkPool (queue_ s) (workers_ s) (cancelled s) (completed s) (shuttingDown_ s) (activeWorkers_ s)
        (nextTaskId_ s) (u64 (sequenceCounter_ s + 1)) (metrics_ s) (ran s) (skipped s) (dropped s)
        (<[k := Sequenced (MkEntry i prio (sequenceCounter_ s) job)]> (arriving s))
  | _ => s
  end.

(** The critical section: the pool refuses when it is shutting down. *)
Definition pushEntry (k : nat) (s : Pool) : outcome Z * Pool :=
  match arriving s !! k with
  | Some (Sequenced e) =>
      if shuttingDown_ s
      then (Throw RuntimeError,
            MkPool (queue_ s) (workers_ s) (cancelled s) (completed s) (shuttingDown_ s) (activeWorkers_ s)
              (nextTaskId_ s) (sequenceCounter_ s) (metrics_ s) (ran s) (skipped s) (dropped s ++ [id e])
              (delete k (arriving s)))
      else (Ok (id e),
            MkPool (queue_ s ++ [e]) (workers_ s) (cancelled s) (completed s) (shuttingDown_ s) (activeWorkers_ s)
              (nextTaskId_ s) (sequenceCounter_ s) (metrics_ s) (ran s) (skipped s) (dropped s)
              (delete k (arriving s)))
  | _ => (Throw LogicError, s)
  end.

(** The whole call up to the push, when no other thread runs in between. *)
Definition submitWithPriority (prio : Z) (job : option Z) (s : Pool) : outcome Z * Pool :=
  match job with
  | None => (Throw InvalidArgument, s)
  | Some j =>
      let k := length (arriving s) in
      let '(_, s1) := createTaskHandle prio j s in
      pushEntry k (takeSequence k s1)
  end.

(** Its second critical section. *)
Definition countSubmitted (s : Pool) : Pool :=
  let m := metrics_ s in
  set_metrics (MkMetrics (tasksSubmitted m + 1) (tasksCompleted m) (tasksCancelled m) (tasksFailed m)) s.

(** [TaskHandle::cancel]: a load of [completed] and a store to [cancelled]. *)
Definition cancel_store (i : Z) (s : Pool) : Pool :=
  MkPool (queue_ s) (workers_ s) ({[i]} ∪ cancelled s) (completed s) (shuttingDown_ s)
    (activeWorkers_ s) (nextTaskId_ s) (sequenceCounter_ s) (metrics_ s) (ran s) (skipped s) (dropped s) (arriving s).

Definition handle_cancel (i : Z) (s : Pool) : bool * Pool :=
  if bool_decide (i ∈ completed s) then (false, s) else (true, cancel_store i s).

(** [cancelAll]: flags and discards what is queued. *)
Definition cancelAll (s : Pool) : Pool :=
  let m := metrics_ s in
  let ids := id <$> queue_ s in
  MkPool [] (workers_ s) (list_to_set ids ∪ cancelled s) (completed s) (shuttingDown_ s)
    (activeWorkers_ s) (nextTaskId_ s) (sequenceCounter_ s)
    (MkMetrics (tasksSubmitted m) (tasksCompleted m) (tasksCancelled m + Z.of_nat (length ids)) (tasksFailed m))
    (ran s) (skipped s) (dropped s ++ ids) (arriving s).

(** The test of [waitIdle] and [waitIdleFor]. *)
Definition waitIdle_ready (s : Pool) : bool :=
  match queue_ s with [] => activeWorkers_ s =? 0 | _ => false end.

Definition resize (n : nat) (s : Pool) : outcome unit * Pool :=
  if Nat.eqb n 0 then (Throw InvalidArgument, s)
  else if Nat.ltb (length (workers_ s)) n then
    (Ok tt, MkPool (queue_ s) (workers_ s ++ replicate (n - length (workers_ s)) Waiting) (cancelled s)
       (completed s) (shuttingDown_ s) (activeWorkers_ s) (nextTaskId_ s) (sequenceCounter_ s)
       (metrics_ s) (ran s) (skipped s) (dropped s) (arriving s))
  else if Nat.ltb n (length (workers_ s)) then (Throw RuntimeError, s)
  else (Ok tt, s).

(** The destructor's first step. *)
Definition shutDown (s : Pool) : Pool :=
  MkPool (queue_ s) (workers_ s) (cancelled s) (completed s) true (activeWorkers_ s) (nextTaskId_ s)
    (sequenceCounter_ s) (metrics_ s) (ran s) (skipped s) (dropped s) (arriving s).

(** ** Workers *)

Definition bumpCompleted (success : bool) (m : PoolMetrics) : PoolMetrics :=
  if success then MkMetrics (tasksSubmitted m) (tasksCompleted m + 1) (tasksCancelled m) (tasksFailed m)
  else MkMetrics (tasksSubmitted m) (tasksCompleted m) (tasksCancelled m) (tasksFailed m + 1).

(** One step of [workerLoop] at a stage; [ok] is how the task ends.  [None]:
    the worker waits. *)
Definition workerStep (ok : bool) (i : nat) (w : stage) (s : Pool) : option Pool :=
  match w with
  | Waiting =>
      match pop (queue_ s) with
      | Some (e, q) =>
          Some (MkPool q (<[i := Popped e]> (workers_ s)) (cancelled s) (completed s) (shuttingDown_ s)
                  (activeWorkers_ s) (nextTaskId_ s) (sequenceCounter_ s) (metrics_ s)
                  (ran s) (skipped s) (dropped s) (arriving s))
      | None => if shuttingDown_ s then Some (set_worker i Exited s) else None
      end
  | Popped e =>
      if bool_decide (id e ∈ cancelled s) then
        let m := metrics_ s in
        Some (MkPool (queue_ s) (<[i := Waiting]> (workers_ s)) (cancelled s) ({[id e]} ∪ completed s)
                (shuttingDown_ s) (activeWorkers_ s) (nextTaskId_ s) (sequenceCounter_ s)
                (MkMetrics (tasksSubmitted m) (tasksCompleted m) (tasksCancelled m + 1) (tasksFailed m))
                (ran s) (skipped s ++ [id e]) (dropped s) (arriving s))
      else Some (set_worker i (Checked e) s)
  | Checked e =>
      Some (MkPool (queue_ s) (<[i := Running e]> (workers_ s)) (cancelled s) (completed s) (shuttingDown_ s)
              (activeWorkers_ s + 1) (nextTaskId_ s) (sequenceCounter_ s) (metrics_ s)
              (ran s) (skipped s) (dropped s) (arriving s))
  | Running e => Some (set_worker i (Returned e ok) s)
  | Returned e b =>
      Some (MkPool (queue_ s) (<[i := Stored b]> (workers_ s)) (cancelled s) ({[id e]} ∪ completed s)
              (shuttingDown_ s) (activeWorkers_ s) (nextTaskId_ s) (sequenceCounter_ s) (metrics_ s)
              (ran s ++ [id e]) (skipped s) (dropped s) (arriving s))
  | Stored b =>
      Some (MkPool (queue_ s) (<[i := Metrics b]> (workers_ s)) (cancelled s) (completed s) (shuttingDown_ s)
              (activeWorkers_ s - 1) (nextTaskId_ s) (sequenceCounter_ s) (metrics_ s)
              (ran s) (skipped s) (dropped s) (arriving s))
  | Metrics b => Some (set_metrics (bumpCompleted b (metrics_ s)) (set_worker i Waiting s))
  | Exited => None
  end.

(** Clients and workers, one atomic operation or critical section at a time; a
    cancellation stores at any time after its load. *)
Inductive pool_step : relation Pool :=
  | ps_create prio job s : nextTaskId_ s < 2 ^ 64 - 1 → pool_step s (createTaskHandle prio job s).2
  | ps_sequence k s : pool_step s (takeSequence k s)
  | ps_push k s : pool_step s (pushEntry k s).2
  | ps_count s : pool_step s (countSubmitted s)
  | ps_cancel i s : pool_step s (cancel_store i s)
  | ps_cancelAll s : pool_step s (cancelAll s)
  | ps_resize n s : pool_step s (resize n s).2
  | ps_shutDown s : pool_step s (shutDown s)
  | ps_worker ok i w s s' : workers_ s !! i = Some w → workerStep ok i w s = Some s' → pool_step s s'.

(** ** Order *)

Lemma entry_lt_spec a b :
  entry_lt a b = true ↔ priority b < priority a ∨ priority a = priority b ∧ sequenceNumber b < sequenceNumber a.
Proof.
  unfold entry_lt. destruct (Z.eqb_spec (priority a) (priority b)); simpl; rewrite Z.gtb_ltb, Z.ltb_lt; lia.
Qed.

Lemma top_of_spec x q :
  top_of x q ∈ x :: q ∧ ∀ e, e ∈ x :: q → entry_lt (top_of x q) e = false.
Proof.
  unfold top_of. revert x. induction q as [|y q IH]; intros x; cbn [foldl].
  - split; [left|]. intros e [->|He]%elem_of_cons; [|by apply elem_of_nil in He].
    destruct (entry_lt x x) eqn:E; [|done]. apply entry_lt_spec in E. lia.
  - destruct (entry_lt x y) eqn:E.
    + destruct (IH y) as [H1 H2]. split; [by right|]. intros e [->|He]%elem_of_cons; [|by apply H2].
      specialize (H2 y ltac:(left)). revert H2. generalize (foldl (λ m e, if entry_lt m e then e else m) y q) as t.
      intros t H2. apply not_true_iff_false. apply not_true_iff_false in H2. rewrite entry_lt_spec in *. lia.
    + destruct (IH x) as [H1 H2]. split.
      { apply elem_of_cons in H1 as [->|H1]; [left|by right; right]. }
      intros e [->|[->|He]%elem_of_cons]%elem_of_cons; [apply H2; left| |apply H2; by right].
      specialize (H2 x ltac:(left)). revert H2. generalize (foldl (λ m e, if entry_lt m e then e else m) x q) as t.
      intros t H2. apply not_true_iff_false. apply not_true_iff_false in H2, E. rewrite entry_lt_spec in *. lia.
Qed.

Lemma erase_id_perm e q : e ∈ q → NoDup (id <$> q) → e :: erase_id (id e) q ≡ₚ q.
Proof.
  intros He Hn. induction q as [|y q IH]; [by apply elem_of_nil in He|].
  simpl in *. apply NoDup_cons in Hn as [Hy Hn]. destruct (Z.eqb_spec (id y) (id e)) as [E|E].
  - apply elem_of_cons in He as [->|He]; [done|]. exfalso. apply Hy. rewrite E. by apply list_elem_of_fmap_2.
  - apply elem_of_cons in He as [->|He]; [done|]. rewrite Permutation_swap. by rewrite IH.
Qed.

Lemma pop_spec q e q' :
  NoDup (id <$> q) → pop q = Some (e, q') →
  q ≡ₚ e :: q' ∧ ∀ x, x ∈ q' → entry_lt e x = false.
Proof.
  intros Hn. destruct q as [|x q]; [done|]. intros [= <- <-].
  destruct (top_of_spec x q) as [H1 H2].
  pose proof (erase_id_perm _ _ H1 Hn) as Hp. split; [done|].
  intros y Hy. apply H2. rewrite <- Hp. right. exact Hy.
Qed.

(** ** Every task is in one place *)

(** The unfinished task a worker holds. *)
Definition hand (w : stage) : list Z :=
  match w with Popped e | Checked e | Running e | Returned e _ => [id e] | _ => [] end.

Definition is_active (w : stage) : bool :=
  match w with Running _ | Returned _ _ | Stored _ => true | _ => false end.

Definition in_hand (ws : list stage) : list Z := concat (hand <$> ws).
Definition actives (ws : list stage) : Z := Z.of_nat (length (filter (λ w, is_active w = true) ws)).

Definition arrival_id (a : arrival) : Z := match a with Numbered i _ _ => i | Sequenced e => id e end.

Definition places (s : Pool) : list Z :=
  (arrival_id <$> arriving s) ++ (id <$> queue_ s) ++ in_hand (workers_ s) ++ ran s ++ skipped s ++ dropped s.

(** The ids handed out so far. *)
Definition issued (n : Z) : list Z := Z.of_nat <$> seq 1 (Z.to_nat (n - 1)).

Definition PoolInv (s : Pool) : Prop :=
  0 < nextTaskId_ s ∧ places s ≡ₚ issued (nextTaskId_ s) ∧
  activeWorkers_ s = actives (workers_ s) ∧
  (∀ i, i ∈ completed s ↔ i ∈ ran s ++ skipped s).

(** Permutations of integer lists by counting. *)
Ltac perm_count :=
  apply (Permutation_count_occ Z.eq_dec); let x := fresh "x" in intros x;
  repeat match goal with
  | H : @Permutation Z _ _ |- _ => apply (Permutation_count_occ Z.eq_dec) with (x := x) in H
  end;
  rewrite ?count_occ_app in *; rewrite ?count_occ_nil in *; lia.

Lemma in_hand_insert ws i w w' :
  ws !! i = Some w → hand w ++ in_hand (<[i := w']> ws) ≡ₚ hand w' ++ in_hand ws.
Proof.
  unfold in_hand. revert i. induction ws as [|v ws IH]; intros [|i] Hi; simplify_eq/=; [perm_count|].
  specialize (IH i Hi). perm_count.
Qed.

Lemma actives_insert ws i w w' :
  ws !! i = Some w →
  actives (<[i := w']> ws) = actives ws - Z.b2z (is_active w) + Z.b2z (is_active w').
Proof.
  unfold actives. revert i. induction ws as [|v ws IH]; intros [|i] Hi; simplify_eq/=.
  - rewrite !filter_cons. destruct (is_active w) eqn:E1, (is_active w') eqn:E2; simpl;
      repeat case_decide; simpl; try congruence; lia.
  - specialize (IH i Hi). rewrite !filter_cons. case_decide; simpl in *; lia.
Qed.

Lemma issued_succ n : 0 < n → issued (n + 1) ≡ₚ issued n ++ [n].
Proof.
  intros Hn. unfold issued. replace (Z.to_nat (n + 1 - 1)) with (Z.to_nat (n - 1) + 1)%nat by lia.
  rewrite seq_app, fmap_app. simpl. by replace (Z.of_nat (S (Z.to_nat (n - 1)))) with n by lia.
Qed.

Lemma issued_NoDup n : NoDup (issued n).
Proof. unfold issued. apply NoDup_fmap_2; [by intros ?? ?%Nat2Z.inj|]. apply NoDup_seq. Qed.

Lemma PoolInv_nodup s : PoolInv s → NoDup (places s).
Proof. intros (_ & Hp & _). rewrite Hp. apply issued_NoDup. Qed.

Lemma queue_nodup s : PoolInv s → NoDup (id <$> queue_ s).
Proof. intros HI%PoolInv_nodup. unfold places in HI. apply NoDup_app in HI as (_ & _ & HI). by apply NoDup_app in HI as [? _]. Qed.

Lemma worker_inv ok i w s s' :
  PoolInv s → workers_ s !! i = Some w → workerStep ok i w s = Some s' → PoolInv s'.
Proof.
  intros HI Hi E. pose proof (queue_nodup s HI) as Hq. destruct HI as (Hn & Hp & Ha & Hc).
  pose proof (λ w', in_hand_insert _ i w w' Hi) as Hh. pose proof (λ w', actives_insert _ i w w' Hi) as Hac.
  unfold places in Hp. destruct w as [|e|e|e|e b|b|b|]; simpl in E, Hh, Hac.
  - destruct (pop (queue_ s)) as [[e q]|] eqn:Ep.
    + simplify_eq. destruct (pop_spec _ _ _ Hq Ep) as [Hpop _].
      specialize (Hh (Popped e)). specialize (Hac (Popped e)). simpl in *.
      split_and!; simpl; [done| |lia|done]. unfold places. simpl.
      assert (Hids : id <$> queue_ s ≡ₚ [id e] ++ (id <$> q)) by (by rewrite Hpop). clear Hpop.
      change (id e :: in_hand (workers_ s)) with ([id e] ++ in_hand (workers_ s)) in Hh. perm_count.
    + destruct (shuttingDown_ s); simplify_eq. specialize (Hh Exited). specialize (Hac Exited). simpl in *.
      split_and!; simpl; [done| |lia|done]. unfold places. simpl. perm_count.
  - destruct (bool_decide _); simplify_eq.
    + specialize (Hh Waiting). specialize (Hac Waiting). simpl in *. split_and!; simpl; [done| |lia|].
      * unfold places. simpl.
        change (id e :: in_hand (<[i:=Waiting]> (workers_ s))) with ([id e] ++ in_hand (<[i:=Waiting]> (workers_ s))) in Hh.
        perm_count.
      * intros j. rewrite elem_of_union, elem_of_singleton, Hc, !elem_of_app, list_elem_of_singleton. tauto.
    + specialize (Hh (Checked e)). specialize (Hac (Checked e)). simpl in *.
      split_and!; simpl; [done| |lia|done]. unfold places. simpl.
      apply Permutation_cons_inv in Hh. perm_count.
  - simplify_eq. specialize (Hh (Running e)). specialize (Hac (Running e)). simpl in *.
    split_and!; simpl; [done| |lia|done]. unfold places. simpl. apply Permutation_cons_inv in Hh. perm_count.
  - simplify_eq. specialize (Hh (Returned e ok)). specialize (Hac (Returned e ok)). simpl in *.
    split_and!; simpl; [done| |lia|done]. unfold places. simpl. apply Permutation_cons_inv in Hh. perm_count.
  - simplify_eq. specialize (Hh (Stored b)). specialize (Hac (Stored b)). simpl in *.
    split_and!; simpl; [done| |lia|].
    + unfold places. simpl.
      change (id e :: in_hand (<[i:=Stored b]> (workers_ s))) with ([id e] ++ in_hand (<[i:=Stored b]> (workers_ s))) in Hh.
      perm_count.
    + intros j. rewrite elem_of_union, elem_of_singleton, Hc, !elem_of_app, list_elem_of_singleton. tauto.
  - simplify_eq. specialize (Hh (Metrics b)). specialize (Hac (Metrics b)). simpl in *.
    split_and!; simpl; [done| |lia|done]. unfold places. simpl. perm_count.
  - simplify_eq. specialize (Hh Waiting). specialize (Hac Waiting). simpl in *.
    split_and!; simpl; [done| |lia|done]. unfold places. simpl. perm_count.
  - done.
Qed.

Lemma pool_step_inv s s' : pool_step s s' → PoolInv s → PoolInv s'.
Proof.
  destruct 1 as [prio job s Hb|k s|k s|s|i s|s|n s|s|ok i w s s' Hi E]; intros HI; pose proof HI as (Hn & Hp & Ha & Hc).
  - assert (Hu : u64 (nextTaskId_ s + 1) = nextTaskId_ s + 1) by (apply wrap_small; lia).
    pose proof (issued_succ (nextTaskId_ s) Hn) as Hs. unfold places in *. split_and!; simpl; rewrite ?Hu; [lia| |done|done].
    unfold places. cbn [queue_ workers_ ran skipped dropped arriving]. rewrite fmap_app.
    change (arrival_id <$> [Numbered (nextTaskId_ s) prio job]) with [nextTaskId_ s]. perm_count.
  - unfold takeSequence. destruct (arriving s !! k) as [[i prio job|]|] eqn:Ek; [|done..].
    split_and!; simpl; [done| |done|done]. unfold places in *. cbn [queue_ workers_ ran skipped dropped arriving].
    rewrite list_fmap_insert, list_insert_id; [done|]. by rewrite list_lookup_fmap, Ek.
  - unfold pushEntry. destruct (arriving s !! k) as [[|e]|] eqn:Ek; [done| |done].
    assert (Hd : arrival_id <$> arriving s ≡ₚ [id e] ++ (arrival_id <$> delete k (arriving s))) by by rewrite (delete_Permutation _ _ _ Ek) at 1.
    destruct (shuttingDown_ s) eqn:Es; (split_and!; simpl; [done| |done|done]); unfold places in *;
      cbn [queue_ workers_ ran skipped dropped arriving]; [perm_count|].
    rewrite fmap_app. change (id <$> [e]) with [id e]. perm_count.
  - done.
  - done.
  - unfold cancelAll. split_and!; simpl; [done| |done|done]. unfold places in *. cbn [queue_ workers_ ran skipped dropped arriving]. change (id <$> []) with (@nil Z). perm_count.
  - unfold resize. destruct (Nat.eqb n 0); [done|]. destruct (Nat.ltb _ n); [|by destruct (Nat.ltb _ _)].
    split_and!; simpl; [done| | |done].
    + unfold places, in_hand in *. simpl. rewrite fmap_app, concat_app.
      assert (concat (hand <$> replicate (n - length (workers_ s)) Waiting) = []) as ->; [|by rewrite app_nil_r].
      induction (n - length (workers_ s))%nat; by simpl.
    + rewrite Ha. unfold actives. rewrite filter_app, length_app.
      rewrite (filter_none _ (replicate _ _)); [simpl; lia|]. by apply Forall_replicate.
  - done.
  - by eapply worker_inv.
Qed.

Lemma newPool_inv n s : newPool n = Ok s → PoolInv s.
Proof.
  unfold newPool. case_match; [done|]. intros [= <-]. split_and!; simpl; [lia| | |set_solver].
  - unfold places, in_hand. simpl.
    assert (concat (hand <$> replicate n Waiting) = []) as ->; [|done].
    clear. induction n; by simpl.
  - unfold actives. rewrite filter_none; [done|]. by apply Forall_replicate.
Qed.

Lemma pool_reachable_inv n s0 s : newPool n = Ok s0 → rtc pool_step s0 s → PoolInv s.
Proof.
  intros Hn Hr. exact (rtc_invariant pool_step PoolInv _ _ pool_step_inv Hr (newPool_inv _ _ Hn)).
Qed.

(** A submission without interference is three steps. *)
Lemma submit_steps prio job s : nextTaskId_ s < 2 ^ 64 - 1 → rtc pool_step s (submitWithPriority prio job s).2.
Proof.
  intros Hn. unfold submitWithPriority. destruct job as [j|]; [|done]. pose proof (ps_create prio j s Hn) as Hc.
  destruct (createTaskHandle prio j s) as [i s1]. eapply rtc_l; [exact Hc|]. eapply rtc_l; [apply ps_sequence|]. apply rtc_once, ps_push.
Qed.

(** C18: No task is lost or run twice: in every reachable state of the priority
    pool, between any two of the atomic operations and critical sections of its
    clients and workers, the ids handed out are, each exactly once, either with the
    call that is submitting the task, queued, held by one worker, run, skipped as cancelled, or dropped by [cancelAll] or a refused
    submission; a task is marked complete exactly when it has run or was
    skipped, and the active-worker count is the number of workers between the
    two updates of it. *)
Theorem pool_tasks_once n s0 s :
  newPool n = Ok s0 → rtc pool_step s0 s →
  places s ≡ₚ issued (nextTaskId_ s) ∧ NoDup (places s) ∧
  (∀ i, i ∈ completed s ↔ i ∈ ran s ++ skipped s) ∧ activeWorkers_ s = actives (workers_ s).
Proof.
  intros Hn Hr. pose proof (pool_reachable_inv n s0 s Hn Hr) as HI.
  pose proof (PoolInv_nodup s HI). by destruct HI as (_ & ? & ? & ?).
Qed.

(** One worker, one task: submitted, popped, about to be counted. *)
Definition one_worker : Pool :=
  MkPool [] [Checked (MkEntry 1 0 0 7)] ∅ ∅ false 0 2 1 (MkMetrics 0 0 0 0) [] [] [] [].

Definition fresh_pool : Pool := MkPool [] [Waiting] ∅ ∅ false 0 1 0 (MkMetrics 0 0 0 0) [] [] [] [].

Lemma one_worker_reachable : rtc pool_step fresh_pool one_worker.
Proof.
  etrans; [apply (submit_steps 0 (Some 7)); reflexivity|].
  eapply rtc_l; [eapply (ps_worker true 0 Waiting); reflexivity|].
  apply rtc_once. eapply (ps_worker true 0 (Popped (MkEntry 1 0 0 7))); reflexivity.
Qed.

Lemma pool_tasks_once_witness :
  newPool 1 = Ok fresh_pool ∧ rtc pool_step fresh_pool one_worker ∧ places one_worker ≡ₚ issued 2.
Proof.
  split; [reflexivity|]. split; [exact one_worker_reachable|].
  exact (proj1 (pool_tasks_once 1 fresh_pool one_worker eq_refl one_worker_reachable)).
Defined.

(** [waitIdle] can return while a task is still to run: between the pop and
    the increment of the active count the queue is empty and the count is
    zero.  There is a reachable state in which the test of [waitIdle] holds, a
    worker holds a task that is neither complete nor cancelled, and that worker
    goes on to run it. *)
Theorem pool_waitIdle_early :
  newPool 1 = Ok fresh_pool ∧ rtc pool_step fresh_pool one_worker ∧ waitIdle_ready one_worker = true ∧
  (1 ∉ completed one_worker) ∧ (1 ∉ cancelled one_worker) ∧
  ∃ s', rtc pool_step one_worker s' ∧ ran s' = [1].
Proof.
  split; [done|]. split; [exact one_worker_reachable|]. split; [done|]. split; [set_solver|].
  split; [set_solver|]. eexists. split.
  - eapply rtc_l; [eapply (ps_worker true 0 (Checked (MkEntry 1 0 0 7))); reflexivity|].
    eapply rtc_l; [eapply (ps_worker true 0 (Running (MkEntry 1 0 0 7))); reflexivity|].
    apply rtc_once. eapply (ps_worker true 0 (Returned (MkEntry 1 0 0 7) true)); reflexivity.
  - reflexivity.
Qed.

(** Workers take tasks in order: a waiting worker that takes a task takes
    one with the smallest priority number of all queued tasks, and among those
    the one submitted first; the queue keeps the others. *)
Theorem pool_pop_order n s0 s ok i s' e :
  newPool n = Ok s0 → rtc pool_step s0 s → workers_ s !! i = Some Waiting →
  workerStep ok i Waiting s = Some s' → workers_ s' !! i = Some (Popped e) →
  queue_ s ≡ₚ e :: queue_ s' ∧
  ∀ x, x ∈ queue_ s' →
    priority e < priority x ∨ priority e = priority x ∧ sequenceNumber e <= sequenceNumber x.
Proof.
  intros Hn Hr Hi E Hw. pose proof (queue_nodup s (pool_reachable_inv n s0 s Hn Hr)) as Hq.
  assert (Hlt : (i < length (workers_ s))%nat) by (by eapply lookup_lt_Some).
  simpl in E. destruct (pop (queue_ s)) as [[e' q]|] eqn:Ep.
  - simplify_eq. simpl in *. rewrite list_lookup_insert_eq in Hw by done. simplify_eq.
    destruct (pop_spec _ _ _ Hq Ep) as [Hp Hx]. split; [done|]. intros x Hxq.
    specialize (Hx x Hxq). apply not_true_iff_false in Hx. rewrite entry_lt_spec in Hx. lia.
  - destruct (shuttingDown_ s); simplify_eq. simpl in Hw. by rewrite list_lookup_insert_eq in Hw.
Qed.

(** Priorities 100 and 1 queued, in this order. *)
Definition two_queued : Pool :=
  (submitWithPriority 1 (Some 8) (submitWithPriority 100 (Some 7) fresh_pool).2).2.

Lemma pool_pop_order_witness :
  ∃ s', workerStep true 0 Waiting two_queued = Some s' ∧
        queue_ two_queued ≡ₚ MkEntry 2 1 1 8 :: queue_ s'.
Proof.
  assert (Hr : rtc pool_step fresh_pool two_queued).
  { etrans; [apply (submit_steps 100 (Some 7)); reflexivity|]. apply (submit_steps 1 (Some 8)). reflexivity. }
  eexists. split; [reflexivity|].
  exact (proj1 (pool_pop_order 1 fresh_pool two_queued true 0 _ (MkEntry 2 1 1 8) eq_refl Hr eq_refl eq_refl eq_refl)).
Defined.

(** ** The plain pool *)

(** [ThreadPool]: a queue of jobs; [started] records the jobs workers took. *)
Record PlainPool := MkPlain { jobs : list Z; stopping : bool; started : list Z }.

Definition plain_submit (job : option Z) (s : PlainPool) : outcome PlainPool :=
  match job with
  | None => Throw InvalidArgument
  | Some j => if stopping s then Throw RuntimeError else Ok (MkPlain (jobs s ++ [j]) (stopping s) (started s))
  end.

(** The critical section of [workerLoop]: the job taken, or whether to leave;
    [None] while it waits. *)
Definition plain_take (s : PlainPool) : option (option Z * PlainPool) :=
  match jobs s with
  | j :: q => Some (Some j, MkPlain q (stopping s) (started s ++ [j]))
  | [] => if stopping s then Some (None, s) else None
  end.

Definition plain_shutDown (s : PlainPool) : PlainPool := MkPlain (jobs s) true (started s).

(** Run a mixed sequence of submissions ([Some j]) and takes ([None]). *)
Fixpoint plain_run (es : list (option Z)) (s : PlainPool) : PlainPool :=
  match es with
  | [] => s
  | Some j :: es' => plain_run es' (match plain_submit (Some j) s with Ok s' => s' | _ => s end)
  | None :: es' => plain_run es' (match plain_take s with Some (_, s') => s' | None => s end)
  end.

(** Jobs start in the order they were submitted, none is lost. *)
Lemma plain_fifo es s :
  stopping s = false →
  started (plain_run es s) ++ jobs (plain_run es s) = (started s ++ jobs s) ++ omap (λ x, x) es.
Proof.
  revert s. induction es as [|[j|] es IH]; intros s Hs; cbn [plain_run].
  - by rewrite app_nil_r.
  - unfold plain_submit. rewrite Hs, IH by done. cbn [started jobs].
    change (omap (λ x, x) (Some j :: es)) with ([j] ++ omap (λ x, x) es). by rewrite !(assoc_L (++)).
  - change (omap (λ x, x) (None :: es)) with (omap (λ x : option Z, x) es).
    unfold plain_take. destruct (jobs s) as [|j q] eqn:Ej.
    + rewrite Hs, IH by done. by rewrite Ej.
    + rewrite IH by done. cbn [started jobs]. f_equal. by rewrite <- (assoc_L (++)).
Qed.
