(* ===== verification/PeriodicScheduler.v ===== *)
(** * The periodic scheduler (src/src/periodic_scheduler.cpp,
      include/pman/periodic_scheduler.hpp)

    Tasks with their counters, on top of the timer wheel of [TimerWheel] and the
    pool of [ThreadPool].  [mutex_] is not recursive: [scheduleNext] takes it
    first, so its callers say whether they already hold it, and a caller that
    does hangs.  Clock reads are arguments. *)

From S2P Require Import Prelude TimerWheel ThreadPool.

Record PeriodicTaskConfig := MkTaskConfig {
  pname : string; pperiod : Z; initialDelay : Z; fixedRate : bool; catchUp : bool; maxConcurrent : Z
}.

Record TaskState := MkTask {
  pconfig : PeriodicTaskConfig;
  ptask : Z;
  stopRequested : bool;              (* stopSource *)
  timerId : Z;
  active : bool;
  paused : bool;
  runningCount : Z;
  executionCount : Z;
  lastExecution : Z;
  nextScheduled : Z;
  totalExecutionTime : Z
}.

Record PeriodicScheduler := MkSched {
  timerWheel_ : TimerWheel;
  pool : Pool;                       (* workers_ *)
  tasks_ : gmap Z TaskState;
  nextTask_ : Z;
  srunning_ : bool
}.

(** The constructor. *)
Definition newScheduler (workerCount : nat) : outcome PeriodicScheduler :=
  let* w := newTimerWheel (MkConfig ns_per_ms 256 4) in
  let* p := newPool workerCount in
  Ok (MkSched w p ∅ 1 false).

Definition set_task (i : Z) (t : TaskState) (s : PeriodicScheduler) : PeriodicScheduler :=
  MkSched (timerWheel_ s) (pool s) (<[i := t]> (tasks_ s)) (nextTask_ s) (srunning_ s).
Definition set_wheel (w : TimerWheel) (s : PeriodicScheduler) : PeriodicScheduler :=
  MkSched w (pool s) (tasks_ s) (nextTask_ s) (srunning_ s).
Definition set_pool (p : Pool) (s : PeriodicScheduler) : PeriodicScheduler :=
  MkSched (timerWheel_ s) p (tasks_ s) (nextTask_ s) (srunning_ s).
Definition set_srunning (b : bool) (s : PeriodicScheduler) : PeriodicScheduler :=
  MkSched (timerWheel_ s) (pool s) (tasks_ s) (nextTask_ s) b.

Definition set_timer (t i : Z) (st : TaskState) : TaskState :=
  MkTask (pconfig st) (ptask st) (stopRequested st) i (active st) (paused st) (runningCount st)
    (executionCount st) (lastExecution st) t (totalExecutionTime st).
Definition set_paused (b : bool) (st : TaskState) : TaskState :=
  MkTask (pconfig st) (ptask st) (stopRequested st) (timerId st) (active st) b (runningCount st)
    (executionCount st) (lastExecution st) (nextScheduled st) (totalExecutionTime st).
Definition add_running (d : Z) (st : TaskState) : TaskState :=
  MkTask (pconfig st) (ptask st) (stopRequested st) (timerId st) (active st) (paused st) (runningCount st + d)
    (executionCount st) (lastExecution st) (nextScheduled st) (totalExecutionTime st).
Definition request_stop (st : TaskState) : TaskState :=
  MkTask (pconfig st) (ptask st) true (timerId st) (active st) (paused st) (runningCount st)
    (executionCount st) (lastExecution st) (nextScheduled st) (totalExecutionTime st).
Definition deactivate (st : TaskState) : TaskState :=
  MkTask (pconfig st) (ptask st) (stopRequested st) (timerId st) false (paused st) (runningCount st)
    (executionCount st) (lastExecution st) (nextScheduled st) (totalExecutionTime st).

(** The clock reads of [scheduleNext] and of the wheel's [schedule] inside. *)
Record clock := MkClock { t_rate : Z; t_next : Z; t_wheel1 : Z; t_wheel2 : Z }.

(** The delay [scheduleNext] computes. *)
Definition next_delay (now : Z) (isFirst : bool) (st : TaskState) : Z :=
  if isFirst then initialDelay (pconfig st)
  else if fixedRate (pconfig st) then
    let nextTarget := nextScheduled st + pperiod (pconfig st) in
    if nextTarget >? now then nextTarget - now else 0
  else pperiod (pconfig st).

(** [scheduleNext]; [held]: the calling thread already holds [mutex_]. *)
Definition scheduleNext (held : bool) (c : clock) (taskId : Z) (isFirst : bool) (s : PeriodicScheduler)
  : outcome PeriodicScheduler :=
  if held then Hang
  else
    match tasks_ s !! taskId with
    | None => Ok s
    | Some st =>
        if negb (active st) || paused st then Ok s
        else
          let delay := next_delay (t_rate c) isFirst st in
          let* (tid, w) := TimerWheel.schedule (t_wheel1 c) (t_wheel2 c) delay (Some taskId) (timerWheel_ s) in
          Ok (set_task taskId (set_timer (t_next c + delay) tid st) (set_wheel w s))
    end.

(** ** Client operations *)

Definition newTask (cfg : PeriodicTaskConfig) (f : Z) : TaskState :=
  MkTask cfg f false 0 true false 0 0 0 0 0.

(** The part the two overloads of [schedule] share. *)
Definition schedule_common (c : clock) (cfg : PeriodicTaskConfig) (f : Z) (s : PeriodicScheduler)
  : outcome (Z * PeriodicScheduler) :=
  let taskId := nextTask_ s in
  let s1 := MkSched (timerWheel_ s) (pool s) (<[taskId := newTask cfg f]> (tasks_ s))
              (u64 (nextTask_ s + 1)) (srunning_ s) in
  let* s2 := if srunning_ s1 then scheduleNext false c taskId true s1 else Ok s1 in
  Ok (taskId, s2).

(** [schedule] of a plain task. *)
Definition schedule (c : clock) (cfg : PeriodicTaskConfig) (f : option Z) (s : PeriodicScheduler)
  : outcome (Z * PeriodicScheduler) :=
  match f with
  | None => Throw InvalidArgument
  | Some f => if pperiod cfg <=? 0 then Throw InvalidArgument else schedule_common c cfg f s
  end.

(** [schedule] of a task that takes a stop token: the period is not checked. *)
Definition schedule_token (c : clock) (cfg : PeriodicTaskConfig) (f : option Z) (s : PeriodicScheduler)
  : outcome (Z * PeriodicScheduler) :=
  match f with None => Throw InvalidArgument | Some f => schedule_common c cfg f s end.

(** Cancelling a task's timer, if it has one. *)
Definition cancel_timer (st : TaskState) (w : TimerWheel) : TimerWheel :=
  if negb (timerId st =? 0) then (TimerWheel.cancel (timerId st) w).2 else w.

Definition cancel (taskId : Z) (s : PeriodicScheduler) : bool * PeriodicScheduler :=
  match tasks_ s !! taskId with
  | None => (false, s)
  | Some st => (true, set_wheel (cancel_timer st (timerWheel_ s)) (set_task taskId (request_stop (deactivate st)) s))
  end.

Definition pause (taskId : Z) (s : PeriodicScheduler) : PeriodicScheduler :=
  match tasks_ s !! taskId with None => s | Some st => set_task taskId (set_paused true st) s end.

(** [resume] calls [scheduleNext] under its own lock. *)
Definition resume (c : clock) (taskId : Z) (s : PeriodicScheduler) : outcome PeriodicScheduler :=
  match tasks_ s !! taskId with
  | Some st =>
      if paused st then
        let s1 := set_task taskId (set_paused false st) s in
        if srunning_ s1 then scheduleNext true c taskId false s1 else Ok s1
      else Ok s
  | None => Ok s
  end.

(** [start] calls [scheduleNext] under its own lock for every task that is
    active and not paused. *)
Definition start (c : clock) (s : PeriodicScheduler) : outcome PeriodicScheduler :=
  if srunning_ s then Ok s
  else
    let s1 := set_wheel (TimerWheel.start (timerWheel_ s)) (set_srunning true s) in
    foldl (λ r '(taskId, st), let* s' := r in
             if active st && negb (paused st) then scheduleNext true c taskId true s' else Ok s')
      (Ok s1) (map_to_list (tasks_ s1)).

(** The loop of [stop] and [stopGracefully]. *)
Definition stop_tasks (s : PeriodicScheduler) : PeriodicScheduler :=
  let w := foldl (λ w '(_, st), cancel_timer st w) (timerWheel_ s) (map_to_list (tasks_ s)) in
  MkSched w (pool s) (request_stop <$> tasks_ s) (nextTask_ s) (srunning_ s).

Definition stop (s : PeriodicScheduler) : PeriodicScheduler :=
  let s1 := stop_tasks (set_srunning false s) in set_wheel (TimerWheel.stop (timerWheel_ s1)) s1.

(** The wait for the pool to become idle changes nothing here. *)
Definition stopGracefully (s : PeriodicScheduler) : PeriodicScheduler := stop s.

Record TaskStatus := MkStatus {
  ts_id : Z; ts_name : string; ts_active : bool; ts_paused : bool; ts_executionCount : Z;
  ts_last : Z; ts_next : Z; ts_average : Z
}.

Definition task_status (i : Z) (st : TaskState) : TaskStatus :=
  MkStatus i (pname (pconfig st)) (active st) (paused st) (executionCount st) (lastExecution st)
    (nextScheduled st)
    (if executionCount st >? 0 then u64 (totalExecutionTime st) ÷ executionCount st else 0).

Definition status_all (s : PeriodicScheduler) : list TaskStatus :=
  (λ '(i, st), task_status i st) <$> map_to_list (tasks_ s).

Definition status (taskId : Z) (s : PeriodicScheduler) : outcome TaskStatus :=
  match tasks_ s !! taskId with None => Throw RuntimeError | Some st => Ok (task_status taskId st) end.

(** ** Execution *)

(** [executeTask], run by the timer thread when the timer fires. *)
Definition executeTask (c : clock) (taskId : Z) (s : PeriodicScheduler) : outcome PeriodicScheduler :=
  match tasks_ s !! taskId with
  | None => Ok s
  | Some st =>
      if negb (active st) || paused st then Ok s
      else if (runningCount st >=? maxConcurrent (pconfig st)) && negb (catchUp (pconfig st))
      then scheduleNext false c taskId false s
      else
        let s1 := set_task taskId (add_running 1 st) s in
        let '(r, p) := submitWithPriority 0 (Some taskId) (pool s1) in
        let* _ := r in Ok (set_pool (countSubmitted p) s1)
  end.

(** The job [executeTask] submits, after the task itself has run between the
    two clock reads. *)
Definition finishTask (c : clock) (startTime endTime : Z) (taskId : Z) (s : PeriodicScheduler)
  : outcome PeriodicScheduler :=
  match tasks_ s !! taskId with
  | None => Ok s
  | Some st =>
      let st1 := add_running (-1) st in
      let st2 := MkTask (pconfig st1) (ptask st1) (stopRequested st1) (timerId st1) (active st1) (paused st1)
                   (runningCount st1) (u64 (executionCount st1 + 1)) startTime (nextScheduled st1)
                   (totalExecutionTime st1 + (endTime - startTime)) in
      let s1 := set_task taskId st2 s in
      if srunning_ s1 && active st2 && negb (paused st2) then scheduleNext false c taskId false s1 else Ok s1
  end.

(** ** What the scheduler does once started *)

(** Operations that return, in any order: client calls, wake-ups of the timer
    thread with the tasks they fire, and jobs that end. *)
Inductive sched_step : relation PeriodicScheduler :=
  | ss_schedule c cfg f i s s' : schedule c cfg f s = Ok (i, s') → sched_step s s'
  | ss_token c cfg f i s s' : schedule_token c cfg f s = Ok (i, s') → sched_step s s'
  | ss_cancel i s : sched_step s (cancel i s).2
  | ss_pause i s : sched_step s (pause i s)
  | ss_resume c i s s' : resume c i s = Ok s' → sched_step s s'
  | ss_start c s s' : start c s = Ok s' → sched_step s s'
  | ss_stop s : sched_step s (stop s)
  | ss_stopGracefully s : sched_step s (stopGracefully s)
  | ss_wakeup c nows now nows2 n fired w s s' :
      thread_wakeup (λ _ w, w) nows now nows2 (timerWheel_ s) = (n, fired, w) →
      foldl (λ r i, let* x := r in executeTask c i x) (Ok (set_wheel w s)) fired = Ok s' → sched_step s s'
  | ss_finish c t0 t1 i st s s' :
      tasks_ s !! i = Some st → 0 < runningCount st → finishTask c t0 t1 i s = Ok s' → sched_step s s'
  | ss_pool p s : pool_step (pool s) p → sched_step s (set_pool p s).

(** The wheel is empty and runs with the scheduler; no task has a timer or has
    ever run. *)
Definition SchedIdle (s : PeriodicScheduler) : Prop :=
  wf (timerWheel_ s) ∧ all_entries (timerWheel_ s) = [] ∧ TimerWheel.running_ (timerWheel_ s) = srunning_ s ∧
  map_Forall (λ _ st, timerId st = 0 ∧ runningCount st = 0 ∧ executionCount st = 0) (tasks_ s).

Lemma wheel_schedule_hangs n1 n2 d c w :
  wf w → TimerWheel.running_ w = true → TimerWheel.schedule n1 n2 d (Some c) w = Hang.
Proof.
  intros Hwf Hr. unfold TimerWheel.schedule, schedule_entry. simpl.
  match goal with |- context [insert n2 ?e ?x] =>
    destruct (insert_spec n2 e x Hwf) as (_ & (_&_&_&_&->) & _) end.
  simpl. by rewrite Hr.
Qed.

(** With the scheduler running, [scheduleNext] does not return for a task it
    would schedule. *)
Lemma scheduleNext_hangs held c i b s st :
  SchedIdle s → srunning_ s = true → tasks_ s !! i = Some st → active st = true → paused st = false →
  scheduleNext held c i b s = Hang.
Proof.
  intros (Hwf & _ & Hr & _) Hs Hi Ha Hp. unfold scheduleNext. destruct held; [done|].
  rewrite Hi, Ha, Hp. cbn [negb orb]. rewrite wheel_schedule_hangs by (done || congruence). done.
Qed.

Lemma empty_wakeup nows now nows2 w n fired w' :
  wf w → all_entries w = [] → thread_wakeup (λ _ w, w) nows now nows2 w = (n, fired, w') →
  fired = [] ∧ wf w' ∧ all_entries w' = [] ∧ TimerWheel.running_ w' = TimerWheel.running_ w.
Proof.
  intros Hwf He. unfold thread_wakeup, processExpired, tick.
  destruct (advance_moved (tickDuration (config_ w)) nows w Hwf) as (Hwf1 & Hf1 & _ & Hs1).
  set (w1 := advance _ nows w) in *. rewrite He in Hs1. apply submseteq_nil_r in Hs1.
  destruct (scan_slot_spec now w1 Hwf1) as (Hd & Hwf2 & Hf2 & Hs2 & _). rewrite Hs1 in Hs2.
  apply submseteq_nil_r in Hs2. apply app_eq_nil in Hs2 as [Hdue He2].
  destruct (scan_slot now w1) as [es w2]. simpl in *. subst es. rewrite Hdue. simpl. intros [= <- <- <-].
  destruct Hf1 as (_&_&_&_&R1), Hf2 as (_&_&_&_&R2). split_and!; try done. congruence.
Qed.

Lemma idle_tasks s ts :
  map_Forall (λ _ st, timerId st = 0 ∧ runningCount st = 0 ∧ executionCount st = 0) ts → SchedIdle s →
  SchedIdle (MkSched (timerWheel_ s) (pool s) ts (nextTask_ s) (srunning_ s)).
Proof. intros Ht (Hwf & He & Hr & _). by split_and!. Qed.

Lemma schedule_common_idle c cfg f i s s' :
  SchedIdle s → schedule_common c cfg f s = Ok (i, s') → SchedIdle s'.
Proof.
  intros Hs E. unfold schedule_common in E. pose proof Hs as (Hwf & He & Hr & Ht). cbn [srunning_] in E.
  set (s1 := MkSched _ _ _ _ _) in E.
  assert (H1 : SchedIdle s1).
  { split_and!; try done. by apply map_Forall_insert_2. }
  destruct (srunning_ s) eqn:Er.
  - rewrite (scheduleNext_hangs false c _ true s1 (newTask cfg f) H1) in E; try done. simpl. by rewrite lookup_insert_eq.
  - simpl in E. by injection E as _ <-.
Qed.

Lemma start_loop_idle c s ts s' :
  foldl (λ r '(taskId, st), let* x := r in
           if active st && negb (paused st) then scheduleNext true c taskId true x else Ok x) (Ok s) ts = Ok s' →
  s' = s.
Proof.
  revert s. induction ts as [|[i st] ts IH]; intros s E; simpl in E; [congruence|].
  destruct (active st && negb (paused st)); simpl in E; [|by apply IH].
  exfalso. clear IH. induction ts as [|[j t] ts IH]; [done|]. by apply IH.
Qed.

Lemma cancel_timers_idle ts w :
  Forall (λ x : Z * TaskState, timerId x.2 = 0) ts → foldl (λ w '(_, st), cancel_timer st w) w ts = w.
Proof.
  intros H. revert w. induction H as [|[i st] ts Hx _ IH]; intros w; [done|]. simpl. simpl in Hx.
  unfold cancel_timer at 2. rewrite Hx. simpl. apply IH.
Qed.

Lemma stop_idle s : SchedIdle s → SchedIdle (stop s).
Proof.
  intros (Hwf & He & Hr & Ht). unfold stop, stop_tasks. cbn [timerWheel_ set_srunning tasks_ set_wheel srunning_].
  rewrite cancel_timers_idle.
  - split_and!; try done. cbn [tasks_]. apply map_Forall_fmap. eapply map_Forall_impl; [exact Ht|]. done.
  - apply Forall_forall. intros [i st] Hin%elem_of_map_to_list. by apply (Ht i st).
Qed.

Lemma sched_step_idle s s' : sched_step s s' → SchedIdle s → SchedIdle s'.
Proof.
  intros Hst Hs. pose proof Hs as (Hwf & He & Hr & Ht). destruct Hst as
    [c cfg f i s s' E|c cfg f i s s' E|i s|i s|c i s s' E|c s s' E|s|s|c nows now nows2 n fired w s s' Ew E|c t0 t1 i st s s' Hi Hc E|p s Hp].
  - unfold schedule in E. destruct f; [|done]. destruct (pperiod cfg <=? 0); [done|]. by eapply schedule_common_idle.
  - unfold schedule_token in E. destruct f; [|done]. by eapply schedule_common_idle.
  - unfold cancel. destruct (tasks_ s !! i) as [st|] eqn:Ei; [|done]. simpl. destruct (Ht i st Ei) as (H1 & H2 & H3).
    unfold cancel_timer. rewrite H1. split_and!; try done. by apply map_Forall_insert_2.
  - unfold pause. destruct (tasks_ s !! i) as [st|] eqn:Ei; [|done]. destruct (Ht i st Ei) as (H1 & H2 & H3).
    apply idle_tasks; [|done]. by apply map_Forall_insert_2.
  - unfold resume in E. destruct (tasks_ s !! i) as [st|] eqn:Ei; [|by simplify_eq].
    destruct (Ht i st Ei) as (H1 & H2 & H3). destruct (paused st) eqn:Ep; simpl in E; [|by simplify_eq].
    destruct (srunning_ s); [done|]. simplify_eq. apply idle_tasks; [|done]. by apply map_Forall_insert_2.
  - unfold start in E. destruct (srunning_ s) eqn:Es; [by simplify_eq|]. apply start_loop_idle in E as ->.
    unfold TimerWheel.start. rewrite Hr. by split_and!.
  - by apply stop_idle.
  - by apply stop_idle.
  - destruct (empty_wakeup _ _ _ _ _ _ _ Hwf He Ew) as (-> & Hwf' & He' & Hr'). simpl in E. simplify_eq.
    split_and!; try done. simpl. congruence.
  - destruct (Ht i st Hi) as (_ & H2 & _). lia.
  - by split_and!.
Qed.

Lemma new_idle n s : newScheduler n = Ok s → SchedIdle s ∧ tasks_ s = ∅ ∧ srunning_ s = false.
Proof.
  unfold newScheduler. destruct (newTimerWheel _) as [w| |] eqn:Ew; try done. simpl.
  destruct (newPool n) as [p| |]; try done. simpl. intros [= <-].
  pose proof (new_empty _ _ Ew). pose proof (new_inv _ _ Ew ltac:(vm_compute; done)) as [Hwf _].
  split_and!; try done. unfold newTimerWheel in Ew. simpl in Ew. by injection Ew as <-.
Qed.

(** The periodic scheduler never runs a task.  [start] does not return when
    some task is active and not paused, because it holds [mutex_] when
    [scheduleNext] takes it; [schedule] with valid arguments does not return
    once the scheduler runs, because the wheel it starts locks itself; and so,
    over every sequence of calls that do return and every wake-up of the timer
    thread, the wheel stays empty and no task is ever executed. *)
Theorem periodic_never_runs n s0 s :
  newScheduler n = Ok s0 → rtc sched_step s0 s →
  (∀ c i st, srunning_ s = false → tasks_ s !! i = Some st → active st = true → paused st = false →
     start c s = Hang) ∧
  (∀ c cfg f, srunning_ s = true → 0 < pperiod cfg → schedule c cfg (Some f) s = Hang) ∧
  (∀ c i st, srunning_ s = true → tasks_ s !! i = Some st → paused st = true → resume c i s = Hang) ∧
  (∀ i st, status i s = Ok st → ts_executionCount st = 0) ∧
  (∀ nows now nows2, (thread_wakeup (λ _ w, w) nows now nows2 (timerWheel_ s)).1.2 = []).
Proof.
  intros Hn Hr. assert (Hs : SchedIdle s).
  { refine (rtc_invariant sched_step SchedIdle s0 s sched_step_idle Hr _). by apply (new_idle n). }
  pose proof Hs as (Hwf & He & Hrun & Ht). split_and!.
  - intros c i st Hf Hi Ha Hp. unfold start. rewrite Hf. set (s1 := set_wheel _ _).
    assert (Hin : (i, st) ∈ map_to_list (tasks_ s1)) by by apply elem_of_map_to_list.
    assert (Hhang : ∀ ts, foldl (λ r '(taskId, st), let* x := r in
       if active st && negb (paused st) then scheduleNext true c taskId true x else Ok x) Hang ts = Hang).
    { induction ts as [|[j t] ts IH]; [done|]. exact IH. }
    revert Hin. generalize (map_to_list (tasks_ s1)) as ts. intros ts. induction ts as [|[j t] ts IH]; intros Hin.
    { by apply elem_of_nil in Hin. }
    simpl. destruct (active t && negb (paused t)) eqn:E; [apply Hhang|].
    apply elem_of_cons in Hin as [Heq|Hin]; [|by apply IH]. injection Heq as -> ->. rewrite Ha, Hp in E. done.
  - intros c cfg f Hf Hp. unfold schedule. destruct (Z.leb_spec (pperiod cfg) 0); [lia|].
    unfold schedule_common. cbn [srunning_]. rewrite Hf. set (s1 := MkSched _ _ _ _ _).
    assert (H1 : SchedIdle s1). { split_and!; try done. simpl. congruence. by apply map_Forall_insert_2. }
    rewrite (scheduleNext_hangs false c _ true s1 (newTask cfg f) H1); try done. simpl. by rewrite lookup_insert_eq.
  - intros c i st Hf Hi Hp. unfold resume. rewrite Hi, Hp. simpl. by rewrite Hf.
  - intros i st E. unfold status in E. destruct (tasks_ s !! i) as [t|] eqn:Ei; [|done]. simplify_eq.
    by destruct (Ht i t Ei) as (_ & _ & ?).
  - intros nows now nows2. destruct (thread_wakeup _ _ _ _ _) as [[k fired] w] eqn:E.
    by destruct (empty_wakeup _ _ _ _ _ _ _ Hwf He E) as (-> & _).
Qed.

(** A scheduler with one worker and one task of a second. *)
Definition second_task : PeriodicTaskConfig := MkTaskConfig "t" ns_per_s 0 true false 1.

Definition sched_of (r : outcome PeriodicScheduler) : PeriodicScheduler :=
  match r with
  | Ok s => s
  | _ => MkSched (MkWheel (MkConfig 1 0 0) [] [] ∅ 0 0 false) (MkPool [] [] ∅ ∅ false 0 0 0 (MkMetrics 0 0 0 0) [] [] [] []) ∅ 0 false
  end.

Definition one_task : PeriodicScheduler :=
  sched_of (let* r := schedule (MkClock 0 0 0 0) second_task (Some 1) (sched_of (newScheduler 1)) in Ok r.2).

Lemma periodic_never_runs_witness :
  newScheduler 1 = Ok (sched_of (newScheduler 1)) ∧ rtc sched_step (sched_of (newScheduler 1)) one_task ∧
  start (MkClock 0 0 0 0) one_task = Hang.
Proof.
  assert (H0 : newScheduler 1 = Ok (sched_of (newScheduler 1))) by (vm_compute; reflexivity).
  assert (Hr : rtc sched_step (sched_of (newScheduler 1)) one_task).
  { apply rtc_once. apply (ss_schedule (MkClock 0 0 0 0) second_task (Some 1) 1). vm_compute. reflexivity. }
  split; [exact H0|]. split; [exact Hr|].
  apply (proj1 (periodic_never_runs 1 _ _ H0 Hr) (MkClock 0 0 0 0) 1 (newTask second_task 1)); vm_compute; reflexivity.
Defined.

(** The delays [scheduleNext] asks for: a fixed-rate task keeps to the grid of
    its period as long as it is on time, a late one runs at once, and any other
    task waits a period from now. *)
Lemma next_delay_spec now st :
  next_delay now true st = initialDelay (pconfig st) ∧
  (fixedRate (pconfig st) = false → next_delay now false st = pperiod (pconfig st)) ∧
  (fixedRate (pconfig st) = true →
     now + next_delay now false st = Z.max now (nextScheduled st + pperiod (pconfig st))).
Proof.
  unfold next_delay. split_and!; [done|by intros ->|intros ->].
  destruct (Z.gtb_spec (nextScheduled st + pperiod (pconfig st)) now); lia.
Qed.
