(* ===== verification/Topology.v ===== *)
(** * CPU sets, memory policies and the system topology
      (include/pman/cpu_set.hpp, src/src/numa.cpp, src/src/topology.cpp)

    A [cpu_set_t] is the integer of its bits.  The files under
    /sys/devices/system are a parameter: directory entries in the order the
    iterator gives them, and the text of each file, [None] when it cannot be
    opened. *)

From S2P Require Import Prelude Text.

(** ** CPU sets *)

Definition CPU_SETSIZE : Z := 1024.

Record CpuSet := MkCpuSet { mask_ : Z }.

Definition newCpuSet : CpuSet := MkCpuSet 0.

Definition in_set_range (cpu : Z) : bool := negb ((cpu <? 0) || (cpu >=? CPU_SETSIZE)).

Definition add (cpu : Z) (s : CpuSet) : outcome CpuSet :=
  if in_set_range cpu then Ok (MkCpuSet (Z.setbit (mask_ s) cpu)) else Throw OutOfRange.

Definition remove (cpu : Z) (s : CpuSet) : outcome CpuSet :=
  if in_set_range cpu then Ok (MkCpuSet (Z.clearbit (mask_ s) cpu)) else Throw OutOfRange.

Definition clear (s : CpuSet) : CpuSet := MkCpuSet 0.

Definition contains (cpu : Z) (s : CpuSet) : bool :=
  if in_set_range cpu then Z.testbit (mask_ s) cpu else false.

Definition all_cpus : list Z := seqZ 0 CPU_SETSIZE.

Definition empty (s : CpuSet) : bool := forallb (λ cpu, negb (Z.testbit (mask_ s) cpu)) all_cpus.

Definition toVector (s : CpuSet) : list Z := filter (λ cpu, Z.testbit (mask_ s) cpu = true) all_cpus.

Definition size (s : CpuSet) : Z := CPU_SETSIZE.

(** The loops that add one processor after the other. *)
Fixpoint add_all (cpus : list Z) (s : CpuSet) : outcome CpuSet :=
  match cpus with
  | [] => Ok s
  | cpu :: cpus' => let* s' := add cpu s in add_all cpus' s'
  end.

Definition cpuSetOf (cpus : list Z) : outcome CpuSet := add_all cpus newCpuSet.

Definition range (first last : Z) : outcome CpuSet :=
  if last <? first then Throw InvalidArgument else add_all (seqZ first (last - first)) newCpuSet.

(** ** Memory policies *)

Inductive MemoryPolicy := Default | Bind | Preferred | Interleave.

Definition toMode (p : MemoryPolicy) : Z :=
  match p with Default => 0 | Bind => 2 | Preferred => 1 | Interleave => 3 end.

(** One node of [buildNodeMask]; negative nodes are skipped. *)
Definition mark_node (mask : list Z) (node : Z) : list Z :=
  if node <? 0 then mask
  else alter (λ w, Z.lor w (Z.shiftl 1 (node mod 64))) (Z.to_nat (node / 64)) mask.

Definition buildNodeMask (nodes : list Z) : list Z :=
  match nodes with
  | [] => []
  | _ =>
      let maxNode := foldl (λ m n, if n >? m then n else m) 0 nodes in
      foldl mark_node (replicate (Z.to_nat (maxNode / 64 + 1)) 0) nodes
  end.

(** A call of [set_mempolicy]: mode, mask ([None] for a null pointer), and the
    size in bits.  The destructor does not catch the exception a failing call
    throws, so it ends the program ([None]). *)
Record mempolicy_call := MkCall { c_mode : Z; c_mask : option (list Z); c_maxnode : Z }.

Definition callSetMempolicy (rc errno : Z) : outcome unit :=
  if negb (rc =? 0) then Throw (SystemError errno) else Ok tt.

Definition newScopedMemoryPolicy (p : MemoryPolicy) (nodes : list Z) (rc errno : Z)
  : outcome bool * list mempolicy_call :=
  match p with
  | Default => (Ok false, [])
  | _ =>
      let mask := buildNodeMask nodes in
      (let* _ := callSetMempolicy rc errno in Ok true,
       [MkCall (toMode p) (match mask with [] => None | _ => Some mask end) (Z.of_nat (List.length mask) * 64)])
  end.

Definition endScopedMemoryPolicy (active : bool) (rc errno : Z) : option (list mempolicy_call) :=
  if active then
    match callSetMempolicy rc errno with
    | Ok _ => Some [MkCall (toMode Default) None 0]
    | _ => None
    end
  else Some [].

(** ** Lists of processors *)

Definition INT_MAX : Z := 2 ^ 31 - 1.

(** One token of [parseCpuList].  A range that ends at [INT_MAX] has a loop test
    that never fails. *)
Definition parseToken (token : text) : outcome (list Z) :=
  match token with
  | [] => Ok []
  | _ =>
      match find_char dash token with
      | None => let* cpu := stoi token in Ok [cpu]
      | Some (a, b) =>
          let* start := stoi a in
          let* last := stoi b in
          let '(lo, hi) := if last <? start then (last, start) else (start, last) in
          if hi =? INT_MAX then Hang else Ok (seqZ lo (hi - lo + 1))
      end
  end.

Fixpoint parseTokens (ts : list text) : outcome (list Z) :=
  match ts with
  | [] => Ok []
  | t :: ts' => let* a := parseToken t in let* b := parseTokens ts' in Ok (a ++ b)
  end.

Definition parseCpuList (s : text) : outcome (list Z) := parseTokens (parts s []).

Definition readIntFile (file : option text) (fallback : Z) : Z :=
  match file with
  | None => fallback
  | Some t => (get_int 32 fallback (MkStream t false)).1
  end.

(** ** Loading the topology *)

Record CpuInfo := MkCpuInfo {
  cpuId : Z; cnodeId : Z; coreId : Z; packageId : Z; threadSiblings : list Z
}.
Record NumaNodeInfo := MkNode { nodeId : Z; cpus : list Z }.

Record SystemTopology := MkTopo {
  nodes_ : list NumaNodeInfo;
  cpuInfos_ : list CpuInfo;
  coreToCpu_ : gmap Z (list Z);
  cpuToNode_ : gmap Z Z
}.

(** Entries of the node directory (the first line of [cpulist]; empty when the
    file is) and of the cpu directory. *)
Record node_entry := MkNodeEntry { n_dir : bool; n_name : text; n_cpulist : option text }.
Record cpu_entry := MkCpuEntry {
  c_dir : bool; c_name : text; c_core : option text; c_package : option text; c_siblings : option text
}.
Record sysfs := MkSysfs { node_dir : option (list node_entry); cpu_dir : option (list cpu_entry) }.

Definition node_prefix : text := String.list_ascii_of_string "node".
Definition cpu_prefix : text := String.list_ascii_of_string "cpu".

Definition map_cpus (node : Z) (cs : list Z) (m : gmap Z Z) : gmap Z Z :=
  foldl (λ m cpu, <[cpu := node]> m) m cs.

(** One entry of the node directory. *)
Definition load_node (e : node_entry) (t : SystemTopology) : outcome SystemTopology :=
  if negb (n_dir e) then Ok t
  else if negb (starts_with node_prefix (n_name e)) then Ok t
  else
    let* id := stoi (drop 4 (n_name e)) in
    match n_cpulist e with
    | None => Ok t
    | Some contents =>
        let* parsed := parseCpuList contents in
        match parsed with
        | [] => Ok t
        | _ =>
            let cs := sort_unique parsed in
            Ok (MkTopo (nodes_ t ++ [MkNode id cs]) (cpuInfos_ t) (coreToCpu_ t) (map_cpus id cs (cpuToNode_ t)))
        end
    end.

Fixpoint load_nodes (es : list node_entry) (t : SystemTopology) : outcome SystemTopology :=
  match es with
  | [] => Ok t
  | e :: es' => let* t' := load_node e t in load_nodes es' t'
  end.

#[export] Instance node_le_dec : RelDecision (λ a b : NumaNodeInfo, nodeId a <= nodeId b).
Proof. intros a b. apply Z_le_dec. Defined.

(** The nodes, or one node of [hw] processors when there are none.  (With equal
    ids, which directories do not have, [std::sort] may order them either way.) *)
Definition finish_nodes (hw : Z) (t : SystemTopology) : SystemTopology :=
  match nodes_ t with
  | [] =>
      let cs := seqZ 0 (if hw =? 0 then 1 else hw) in
      MkTopo [MkNode 0 cs] (cpuInfos_ t) (coreToCpu_ t) (map_cpus 0 cs (cpuToNode_ t))
  | ns => MkTopo (merge_sort (λ a b, nodeId a <= nodeId b) ns) (cpuInfos_ t) (coreToCpu_ t) (cpuToNode_ t)
  end.

(** [coreToCpu_[core]] extended with processors. *)
Definition add_to_core (core : Z) (cs : list Z) (m : gmap Z (list Z)) : gmap Z (list Z) :=
  <[core := default [] (m !! core) ++ cs]> m.

(** One entry of the cpu directory. *)
Definition load_cpu (e : cpu_entry) (t : SystemTopology) : outcome SystemTopology :=
  if negb (c_dir e) then Ok t
  else if negb (starts_with cpu_prefix (c_name e)) || (List.length (c_name e) <=? 3)%nat then Ok t
  else
    match stoi (drop 3 (c_name e)) with
    | Ok id =>
        let core := readIntFile (c_core e) (-1) in
        let package := readIntFile (c_package e) (-1) in
        let* parsed := match c_siblings e with Some l => parseCpuList l | None => Ok [] end in
        let siblings := match parsed with [] => [id] | _ => parsed end in
        let node := default (-1) (cpuToNode_ t !! id) in
        Ok (MkTopo (nodes_ t) (cpuInfos_ t ++ [MkCpuInfo id node core package siblings])
              (if core >=? 0 then add_to_core core siblings (coreToCpu_ t) else coreToCpu_ t) (cpuToNode_ t))
    | _ => Ok t
    end.

Fixpoint load_cpus (es : list cpu_entry) (t : SystemTopology) : outcome SystemTopology :=
  match es with
  | [] => Ok t
  | e :: es' => let* t' := load_cpu e t in load_cpus es' t'
  end.

(** The processors of the nodes, when the cpu directory gave none. *)
Definition fallback_cpu (node : Z) (t : SystemTopology) (cpu : Z) : SystemTopology :=
  MkTopo (nodes_ t) (cpuInfos_ t ++ [MkCpuInfo cpu node cpu 0 [cpu]])
    (add_to_core cpu [cpu] (coreToCpu_ t)) (cpuToNode_ t).
Definition fallback_node (t : SystemTopology) (n : NumaNodeInfo) : SystemTopology :=
  foldl (fallback_cpu (nodeId n)) t (cpus n).
Definition finish_cpus (t : SystemTopology) : SystemTopology :=
  match cpuInfos_ t with
  | [] => foldl fallback_node t (nodes_ t)
  | _ => t
  end.

Definition sort_cores (t : SystemTopology) : SystemTopology :=
  MkTopo (nodes_ t) (cpuInfos_ t) (sort_unique <$> coreToCpu_ t) (cpuToNode_ t).

(** [SystemTopology::load]; [hw] is [std::thread::hardware_concurrency()]. *)
Definition load (fs : sysfs) (hw : Z) : outcome SystemTopology :=
  let* t1 := match node_dir fs with
             | None => Ok (MkTopo [] [] ∅ ∅)
             | Some es => load_nodes es (MkTopo [] [] ∅ ∅)
             end in
  let t2 := finish_nodes hw t1 in
  let* t3 := match cpu_dir fs with None => Ok t2 | Some es => load_cpus es t2 end in
  Ok (sort_cores (finish_cpus t3)).

(** ** Queries *)

Definition node (id : Z) (t : SystemTopology) : option NumaNodeInfo :=
  List.find (λ n, nodeId n =? id) (nodes_ t).

Definition cpuSetForNode (id : Z) (t : SystemTopology) : outcome CpuSet :=
  match node id t with
  | None => Throw OutOfRange
  | Some n => add_all (cpus n) newCpuSet
  end.

Definition cpuIds (t : SystemTopology) : list Z := sort_unique (nodes_ t ≫= cpus).

Definition siblingsForCore (core : Z) (t : SystemTopology) : outcome (list Z) :=
  match coreToCpu_ t !! core with None => Throw OutOfRange | Some l => Ok l end.

Definition cpuInfo (id : Z) (t : SystemTopology) : option CpuInfo :=
  List.find (λ c, cpuId c =? id) (cpuInfos_ t).

(** ** CPU sets hold what was added *)

Lemma in_set_range_spec cpu : in_set_range cpu = true ↔ 0 <= cpu < CPU_SETSIZE.
Proof.
  unfold in_set_range. rewrite negb_true_iff, orb_false_iff, Z.ltb_ge, Z.geb_leb, Z.leb_gt. lia.
Qed.

Lemma contains_add cpu x s s' : add cpu s = Ok s' → contains x s' = (x =? cpu) || contains x s.
Proof.
  unfold add. destruct (in_set_range cpu) eqn:Hc; [|done]. intros [= <-]. unfold contains. cbn [mask_].
  destruct (in_set_range x) eqn:Hx.
  - apply in_set_range_spec in Hc, Hx. rewrite Z.setbit_eqb, (Z.eqb_sym cpu x) by lia. done.
  - destruct (Z.eqb_spec x cpu) as [->|]; [congruence|done].
Qed.

Lemma contains_remove cpu x s s' : remove cpu s = Ok s' → contains x s' = negb (x =? cpu) && contains x s.
Proof.
  unfold remove. destruct (in_set_range cpu) eqn:Hc; [|done]. intros [= <-]. unfold contains. cbn [mask_].
  destruct (in_set_range x) eqn:Hx; [|by rewrite andb_false_r].
  apply in_set_range_spec in Hc. rewrite Z.clearbit_eqb, (Z.eqb_sym cpu x) by lia. apply andb_comm.
Qed.

(** Adding a list succeeds exactly when every processor is in range. *)
Lemma add_all_spec cs s :
  (Forall (λ c, 0 <= c < CPU_SETSIZE) cs →
     ∃ s', add_all cs s = Ok s' ∧ ∀ x, contains x s' = bool_decide (x ∈ cs) || contains x s) ∧
  (¬ Forall (λ c, 0 <= c < CPU_SETSIZE) cs → add_all cs s = Throw OutOfRange).
Proof.
  revert s. induction cs as [|c cs IH]; intros s.
  { split; [|intros []; constructor]. intros _. exists s. split; [done|]. intros x. by rewrite bool_decide_false by apply not_elem_of_nil. }
  cbn [add_all]. unfold add at 1 2. rewrite Forall_cons, <- in_set_range_spec.
  destruct (in_set_range c) eqn:Hc; cbn [obind]; [|split; [naive_solver|done]].
  destruct (IH (MkCpuSet (Z.setbit (mask_ s) c))) as [H1 H2]. split; [|intros; apply H2; tauto].
  intros [_ Hcs]. destruct (H1 Hcs) as (s' & E & Hx). exists s'. split; [done|]. intros x.
  rewrite Hx, (contains_add c x s) by (unfold add; by rewrite Hc).
  rewrite (bool_decide_ext (x ∈ c :: cs) (x ∈ cs ∨ x = c)) by (rewrite elem_of_cons; tauto).
  rewrite bool_decide_or, <- orb_assoc. do 2 f_equal. destruct (Z.eqb_spec x c); by case_bool_decide.
Qed.

Lemma elem_of_toVector x s : x ∈ toVector s ↔ contains x s = true.
Proof.
  unfold toVector, contains, all_cpus. rewrite list_elem_of_filter, elem_of_seqZ.
  destruct (in_set_range x) eqn:Hx.
  - apply in_set_range_spec in Hx. split; [tauto|]. split; [done|lia].
  - split; [|done]. intros [_ H]. assert (in_set_range x = true); [apply in_set_range_spec; lia|congruence].
Qed.

(** ** Node masks *)

(** Bit [n] of a mask of 64-bit words. *)
Definition mask_bit (mask : list Z) (n : Z) : bool :=
  match mask !! Z.to_nat (n / 64) with Some w => Z.testbit w (n mod 64) | None => false end.

Lemma mark_node_bit mask v n :
  v / 64 < Z.of_nat (List.length mask) → 0 <= n →
  mask_bit (mark_node mask v) n = bool_decide (v = n) || mask_bit mask n.
Proof.
  intros Hv Hn. unfold mark_node. destruct (Z.ltb_spec v 0).
  { rewrite bool_decide_false by lia. done. }
  assert (Hq : 0 <= v / 64 ∧ 0 <= n / 64) by (split; apply Z.div_pos; lia).
  pose proof (Z.mod_pos_bound v 64 ltac:(lia)). pose proof (Z.mod_pos_bound n 64 ltac:(lia)).
  unfold mask_bit. destruct (decide (v / 64 = n / 64)) as [E|E].
  - rewrite E, list_lookup_alter. destruct (lookup_lt_is_Some_2 mask (Z.to_nat (n / 64))) as [w Hw]; [lia|].
    rewrite Hw. cbn [fmap option_fmap option_map]. rewrite decide_True by done. rewrite Z.lor_spec, Z.shiftl_1_l, Z.pow2_bits_eqb, orb_comm by lia. f_equal.
    pose proof (Z_div_mod_eq_full v 64). pose proof (Z_div_mod_eq_full n 64).
    destruct (Z.eqb_spec (v mod 64) (n mod 64)); case_bool_decide; lia.
  - rewrite list_lookup_alter_ne by lia. rewrite bool_decide_false by (intros ->; lia). done.
Qed.

Lemma length_mark_node mask v : List.length (mark_node mask v) = List.length mask.
Proof. unfold mark_node. destruct (v <? 0); [done|]. apply length_alter. Qed.

Lemma foldl_max ns m : m <= foldl (λ m n, if n >? m then n else m) m ns ∧
  Forall (λ n, n <= foldl (λ m n, if n >? m then n else m) m ns) ns.
Proof.
  revert m. induction ns as [|n ns IH]; intros m; cbn; [split; [lia|constructor]|].
  rewrite Z.gtb_ltb. destruct (IH (if m <? n then n else m)) as [H1 H2].
  destruct (Z.ltb_spec m n); (split; [lia|]); (constructor; [lia|done]).
Qed.

(** The node mask of a memory policy has exactly the bits of the nodes
    asked for: every non-negative node of the list, no matter how large, and
    nothing else; negative nodes are ignored. *)
Theorem buildNodeMask_bits nodes n :
  0 <= n → mask_bit (buildNodeMask nodes) n = bool_decide (n ∈ nodes).
Proof.
  intros Hn. destruct nodes as [|n0 ns]; [done|]. unfold buildNodeMask.
  destruct (foldl_max (n0 :: ns) 0) as [Hpos Hmax].
  set (mx := foldl _ 0 (n0 :: ns)) in *. clearbody mx. revert Hmax. generalize (n0 :: ns). intros l Hmax.
  assert (Hlen : Z.of_nat (List.length (replicate (Z.to_nat (mx / 64 + 1)) 0)) = mx / 64 + 1).
  { rewrite length_replicate. pose proof (Z.div_pos mx 64 ltac:(lia) ltac:(lia)). lia. }
  transitivity (bool_decide (n ∈ l) || mask_bit (replicate (Z.to_nat (mx / 64 + 1)) 0) n).
  2: { unfold mask_bit. destruct (_ !! _) as [w|] eqn:E; [|apply orb_false_r].
       apply lookup_replicate in E as [-> _]. by rewrite Z.bits_0, orb_false_r. }
  revert Hlen. generalize (replicate (Z.to_nat (mx / 64 + 1)) 0). induction Hmax as [|v l Hv Hmax IH]; intros mask Hlen.
  { by rewrite bool_decide_false by apply not_elem_of_nil. }
  cbn [foldl]. rewrite IH by (by rewrite length_mark_node).
  rewrite mark_node_bit by (try done; pose proof (Z.div_le_mono v mx 64); lia).
  rewrite (bool_decide_ext (n ∈ v :: l) (n ∈ l ∨ v = n)) by (rewrite elem_of_cons; naive_solver).
  by rewrite bool_decide_or, orb_assoc.
Qed.

Lemma buildNodeMask_bits_witness :
  mask_bit (buildNodeMask [3; 130; -1]) 130 = true ∧ mask_bit (buildNodeMask [3; 130; -1]) 64 = false.
Proof.
  split.
  - rewrite (buildNodeMask_bits [3; 130; -1] 130); [by_decision|lia].
  - rewrite (buildNodeMask_bits [3; 130; -1] 64); [|lia]. apply bool_decide_false. by_decision.
Defined.

(** ** Lists of processors, printed and read back *)

(** A range as the kernel prints it. *)
Definition print_range (r : Z * Z) : text :=
  if r.1 =? r.2 then print_Z r.1 else print_Z r.1 ++ dash :: print_Z r.2.

Fixpoint print_ranges (rs : list (Z * Z)) : text :=
  match rs with
  | [] => []
  | [r] => print_range r
  | r :: rs' => print_range r ++ comma :: print_ranges rs'
  end.

(** The maximal runs of consecutive numbers of a list. *)
Fixpoint runs (l : list Z) : list (Z * Z) :=
  match l with
  | [] => []
  | x :: l' =>
      match runs l' with
      | (a, b) :: rs => if a =? x + 1 then (x, b) :: rs else (x, x) :: (a, b) :: rs
      | [] => [(x, x)]
      end
  end.

Definition expand (r : Z * Z) : list Z := seqZ r.1 (r.2 - r.1 + 1).

Lemma runs_expand l : runs l ≫= expand = l ∧ Forall (λ r, r.1 <= r.2) (runs l).
Proof.
  induction l as [|x l [IH Hr]]; [done|]. cbn [runs].
  destruct (runs l) as [|[a b] rs].
  - cbn in IH. subst l. split; [|repeat constructor; cbn; lia]. cbn. unfold expand. cbn. by rewrite Z.sub_diag.
  - inversion_clear Hr as [|? ? Hab Hrs]. cbn in Hab. destruct (Z.eqb_spec a (x + 1)) as [->|].
    + split; [|constructor; [cbn; lia|done]]. rewrite <- IH. cbn. unfold expand at 1 3. cbn.
      rewrite (seqZ_cons x) by lia. cbn. by replace (Z.pred (b - x + 1)) with (b - (x + 1) + 1) by lia.
    + split; [|repeat constructor; cbn; try lia; done]. rewrite <- IH. cbn. unfold expand at 1. cbn.
      by rewrite Z.sub_diag.
Qed.

Lemma runs_range l (P : Z → Prop) : Forall P l → Forall (λ r, P r.1 ∧ P r.2) (runs l).
Proof.
  intros HP. destruct (runs_expand l) as [E Hr]. rewrite Forall_forall in HP. apply Forall_forall. intros r Hin.
  rewrite Forall_forall in Hr. specialize (Hr r Hin).
  assert (He : ∀ x, r.1 <= x <= r.2 → x ∈ l).
  { intros x Hx. rewrite <- E. apply list_elem_of_bind. exists r. split; [|done]. apply elem_of_seqZ. lia. }
  split; apply HP, He; lia.
Qed.

Lemma print_pos_digits n : 0 <= n → print_Z n ≠ [] ∧ Forall (λ c, is_digit c = true) (print_Z n).
Proof.
  intros Hn. unfold print_Z. destruct (Z.ltb_spec n 0); [lia|]. destruct (print_nat_spec n Hn) as (? & ? & _). done.
Qed.

Lemma digits_no c l : is_digit c = false → Forall (λ c, is_digit c = true) l → c ∉ l.
Proof. intros Hc Hl H. rewrite Forall_forall in Hl. specialize (Hl c H). congruence. Qed.

Lemma find_char_none c l : c ∉ l → find_char c l = None.
Proof.
  intros Hc. unfold find_char. rewrite <- (app_nil_r l), span_all_then; [done| |done].
  apply Forall_forall. intros x Hx. apply negb_true_iff, bool_decide_false. by intros ->.
Qed.

Lemma parseToken_print a b :
  0 <= a <= b → b < INT_MAX → parseToken (print_range (a, b)) = Ok (expand (a, b)) ∧
  (comma ∉ print_range (a, b)) ∧ print_range (a, b) ≠ [].
Proof.
  intros Hab Hb. unfold INT_MAX in Hb. destruct (print_pos_digits a) as [Ha Hda]; [lia|]. destruct (print_pos_digits b) as [Hbn Hdb]; [lia|].
  assert (Hs : ∀ n r, 0 <= n < 2 ^ 31 → ends_number r → stoi (print_Z n ++ r) = Ok n).
  { intros n r Hn Hr. apply sto_print; [lia|done]. }
  unfold print_range, expand. cbn [fst snd]. destruct (Z.eqb_spec a b) as [<-|Hne].
  - split_and!; [|by apply digits_no|done]. unfold parseToken. destruct (print_Z a) as [|c l] eqn:E; [done|].
    rewrite find_char_none by (by apply digits_no). rewrite <- E, <- (app_nil_r (print_Z a)), Hs by (done || lia).
    cbn. by rewrite Z.sub_diag.
  - split_and!.
    + unfold parseToken. destruct (print_Z a ++ dash :: print_Z b) as [|c l] eqn:E; [by destruct (print_Z a)|].
      rewrite <- E. rewrite find_char_app by (by apply digits_no).
      rewrite <- (app_nil_r (print_Z a)), <- (app_nil_r (print_Z b)), !Hs by (done || lia). cbn [obind].
      destruct (Z.ltb_spec b a); [lia|]. destruct (Z.eqb_spec b INT_MAX) as [Hi|]; [unfold INT_MAX in Hi; lia|done].
    + rewrite elem_of_app, elem_of_cons. intros [H|[H|H]]; [|done|]; by eapply digits_no in H.
    + by destruct (print_Z a).
Qed.

Lemma parts_no_comma t s cur : comma ∉ t → parts (t ++ s) cur = parts s (cur ++ t).
Proof.
  revert cur. induction t as [|c t IH]; intros cur Hc; [by rewrite app_nil_r|].
  apply not_elem_of_cons in Hc as [Hc Ht]. cbn [parts app]. rewrite decide_False by done.
  rewrite IH by done. by rewrite <- (assoc_L (++)).
Qed.

Lemma parseCpuList_ranges rs :
  Forall (λ r, 0 <= r.1 <= r.2 ∧ r.2 < INT_MAX) rs → parseCpuList (print_ranges rs) = Ok (rs ≫= expand).
Proof.
  unfold parseCpuList. intros H. induction H as [|[a b] rs [Hab Hb] Hrs IH]; [done|]. cbn in Hab, Hb.
  destruct (parseToken_print a b) as (Hp & Hc & Hn); [lia|done|]. destruct rs as [|r' rs].
  - cbn [print_ranges]. rewrite <- (app_nil_r (print_range (a, b))), parts_no_comma by done. cbn [parts app].
    destruct (print_range (a, b)) as [|c l] eqn:E; [done|]. cbn [parseTokens]. rewrite Hp. cbn. by rewrite app_nil_r.
  - change (print_ranges ((a, b) :: r' :: rs)) with (print_range (a, b) ++ comma :: print_ranges (r' :: rs)).
    rewrite parts_no_comma by done. cbn [parts app]. rewrite decide_True by done.
    cbn [parseTokens]. rewrite Hp, IH. done.
Qed.

(** The list of processors the kernel prints, as comma-separated maximal
    ranges, reads back: for every list of processor numbers, printing its runs
    and parsing the text gives the list. *)
Theorem cpulist_roundtrip l :
  Forall (λ c, 0 <= c < INT_MAX) l → parseCpuList (print_ranges (runs l)) = Ok l.
Proof.
  intros Hl. destruct (runs_expand l) as [E Hr]. rewrite parseCpuList_ranges; [by rewrite E|].
  pose proof (runs_range l _ Hl) as Hp. rewrite Forall_forall in *. intros r Hin.
  specialize (Hr r Hin). specialize (Hp r Hin). cbn in Hp. lia.
Qed.

Definition sample_list : list Z := [0; 1; 2; 3; 8; 10; 11].

Lemma cpulist_roundtrip_witness :
  print_ranges (runs sample_list) = String.list_ascii_of_string "0-3,8,10-11" ∧
  parseCpuList (String.list_ascii_of_string "0-3,8,10-11") = Ok sample_list.
Proof.
  split; [by vm_compute|].
  refine (eq_trans _ (cpulist_roundtrip sample_list _)); [by vm_compute|by_decision].
Defined.

(** ** Every topology that loads is well formed *)

(** The nodes: none without processors, their processors in increasing order,
    and the map from processors to nodes agrees with them. *)
Record NodesOk (t : SystemTopology) : Prop := {
  no_cpus : Forall (λ n, cpus n ≠ [] ∧ StronglySorted Z.lt (cpus n)) (nodes_ t);
  no_back : ∀ c n, cpuToNode_ t !! c = Some n → ∃ nd, nd ∈ nodes_ t ∧ nodeId nd = n ∧ c ∈ cpus nd;
  no_forth : ∀ nd c, nd ∈ nodes_ t → c ∈ cpus nd → is_Some (cpuToNode_ t !! c)
}.

(** A processor's record: siblings, and a node that lists it unless no node
    does. *)
Definition info_ok (t : SystemTopology) (i : CpuInfo) : Prop :=
  threadSiblings i ≠ [] ∧
  ((cnodeId i = -1 ∧ cpuToNode_ t !! cpuId i = None) ∨
   ∃ nd, nd ∈ nodes_ t ∧ nodeId nd = cnodeId i ∧ cpuId i ∈ cpus nd).

(** The cores: each holds the siblings of its processors and nothing else. *)
Record CpusOk (t : SystemTopology) : Prop := {
  co_infos : Forall (info_ok t) (cpuInfos_ t);
  co_forth : ∀ i, i ∈ cpuInfos_ t → 0 <= coreId i →
    ∃ l, coreToCpu_ t !! coreId i = Some l ∧ ∀ x, x ∈ threadSiblings i → x ∈ l;
  co_back : ∀ c l, coreToCpu_ t !! c = Some l →
    l ≠ [] ∧ ∀ x, x ∈ l → ∃ i, i ∈ cpuInfos_ t ∧ coreId i = c ∧ x ∈ threadSiblings i
}.

Record TopologyOk (t : SystemTopology) : Prop := {
  to_nodes : nodes_ t ≠ [];
  to_sorted : Sorted (λ a b, nodeId a <= nodeId b) (nodes_ t);
  to_nodes_ok : NodesOk t;
  to_infos : cpuInfos_ t ≠ [];
  to_cpus_ok : CpusOk t;
  to_cores : ∀ c l, coreToCpu_ t !! c = Some l → StronglySorted Z.lt l
}.

Lemma lookup_map_cpus id cs m c :
  map_cpus id cs m !! c = if decide (c ∈ cs) then Some id else m !! c.
Proof.
  revert m. induction cs as [|x cs IH]; intros m; [done|]. unfold map_cpus in *. cbn [foldl]. rewrite IH.
  destruct (decide (c ∈ cs)); [rewrite decide_True by (by right); done|].
  destruct (decide (c = x)) as [->|].
  - rewrite lookup_insert_eq. rewrite decide_True by left. done.
  - rewrite lookup_insert_ne by done. rewrite decide_False; [done|]. by intros [->|?]%elem_of_cons.
Qed.

Lemma add_node_ok t id cs :
  cs ≠ [] → StronglySorted Z.lt cs → NodesOk t →
  NodesOk (MkTopo (nodes_ t ++ [MkNode id cs]) (cpuInfos_ t) (coreToCpu_ t) (map_cpus id cs (cpuToNode_ t))).
Proof.
  intros Hne Hs [Hc Hb Hf]. split; cbn [nodes_ cpuToNode_].
  - apply Forall_app. split; [done|]. by repeat constructor.
  - intros c n. rewrite lookup_map_cpus. case_decide.
    + intros [= <-]. exists (MkNode id cs). split; [|done]. apply elem_of_app. right. by left.
    + intros Hn. destruct (Hb c n Hn) as (nd & Hin & ?). exists nd. split; [|done]. apply elem_of_app. by left.
  - intros nd c Hnd Hcn. rewrite lookup_map_cpus. case_decide as Hd; [done|].
    apply elem_of_app in Hnd as [Hnd| ->%list_elem_of_singleton]; [by eapply Hf|done].
Qed.

Lemma load_nodes_ok es t t' : load_nodes es t = Ok t' → NodesOk t → cpuInfos_ t = [] → coreToCpu_ t = ∅ →
  NodesOk t' ∧ cpuInfos_ t' = [] ∧ coreToCpu_ t' = ∅.
Proof.
  revert t. induction es as [|e es IH]; intros t; cbn [load_nodes]; [by intros [= <-]|].
  destruct (load_node e t) as [t1| |] eqn:E; [|done|done]. cbn [obind]. intros Hl Hok Hi Hc.
  assert (H1 : NodesOk t1 ∧ cpuInfos_ t1 = [] ∧ coreToCpu_ t1 = ∅); [|destruct H1 as (? & ? & ?); by apply (IH t1 Hl)].
  unfold load_node in E. repeat (case_match; [by simplify_eq|]). destruct (stoi _); [|done|done]. cbn [obind] in E.
  destruct (n_cpulist e) as [t0|]; [|by simplify_eq].
  destruct (parseCpuList t0) as [p| |]; [|done|done]. cbn [obind] in E. destruct p as [|x p]; [by simplify_eq|].
  injection E as <-. split_and!; [|done|done].
  apply add_node_ok; [|apply sort_unique_sorted|done]. intros Hs. by apply sort_unique_nil in Hs.
Qed.

Lemma seqZ_sorted m n : StronglySorted Z.lt (seqZ m n).
Proof.
  destruct (decide (0 <= n)) as [Hn|]; [|rewrite seqZ_nil by lia; constructor].
  revert m. pattern n. apply natlike_ind; [|clear n Hn; intros n Hn IH m|done].
  - intros m. rewrite seqZ_nil by lia. constructor.
  - rewrite seqZ_cons by lia. replace (Z.pred (Z.succ n)) with n by lia. constructor; [apply IH|].
    apply Forall_seqZ. lia.
Qed.

Lemma finish_nodes_ok hw t :
  0 <= hw → NodesOk t →
  NodesOk (finish_nodes hw t) ∧ nodes_ (finish_nodes hw t) ≠ [] ∧
  Sorted (λ a b, nodeId a <= nodeId b) (nodes_ (finish_nodes hw t)).
Proof.
  intros Hhw Hok. unfold finish_nodes. destruct (nodes_ t) as [|n0 ns] eqn:En.
  - split; [|split; [done|repeat constructor]].
    pose proof (add_node_ok t 0 (seqZ 0 (if hw =? 0 then 1 else hw))) as H. rewrite En in H.
    apply H; [|apply seqZ_sorted|done]. intros E. apply (f_equal List.length) in E. rewrite length_seqZ in E.
    destruct (Z.eqb_spec hw 0); cbn in E; lia.
  - set (ms := merge_sort _ _). assert (Hp : ms ≡ₚ n0 :: ns) by apply merge_sort_Permutation. destruct Hok as [Hc Hb Hf].
    rewrite En in Hc, Hb, Hf. split; [split; cbn [nodes_ cpuToNode_]|split].
    + by rewrite Hp.
    + intros c n Hn. destruct (Hb c n Hn) as (nd & ? & ?). exists nd. by rewrite Hp.
    + intros nd c. rewrite Hp. apply Hf.
    + cbn [nodes_]. intros E. rewrite E in Hp. by apply Permutation_nil_cons in Hp.
    + apply Sorted_merge_sort. intros a b. lia.
Qed.

(** Recording one processor, in its core when [b]. *)
Lemma add_info_ok t i (b : bool) :
  (0 <= coreId i → b = true) → info_ok t i → CpusOk t →
  CpusOk (MkTopo (nodes_ t) (cpuInfos_ t ++ [i])
    (if b then add_to_core (coreId i) (threadSiblings i) (coreToCpu_ t) else coreToCpu_ t) (cpuToNode_ t)).
Proof.
  intros Hb Hi [Hinfos Hforth Hback].
  assert (Hin : ∀ j, j ∈ cpuInfos_ t ++ [i] ↔ j ∈ cpuInfos_ t ∨ j = i).
  { intros j. by rewrite elem_of_app, list_elem_of_singleton. }
  split; cbn [cpuInfos_ coreToCpu_].
  - apply Forall_app. split; [done|]. constructor; [exact Hi|constructor].
  - intros j [Hj| ->]%Hin Hc.
    + destruct (Hforth j Hj Hc) as (l & Hl & Hx). destruct b; [|by exists l].
      unfold add_to_core. destruct (decide (coreId i = coreId j)) as [E|]; [|exists l; by rewrite lookup_insert_ne].
      rewrite E, lookup_insert_eq, Hl. eexists. split; [done|]. intros x Hx'. apply elem_of_app. left. by apply Hx.
    + rewrite Hb by done. unfold add_to_core. rewrite lookup_insert_eq. eexists. split; [done|].
      intros x Hx. apply elem_of_app. by right.
  - intros c l Hl. destruct b; [|destruct (Hback c l Hl) as [? H]; split; [done|]; intros x Hx;
      destruct (H x Hx) as (j & ? & ?); exists j; rewrite Hin; tauto].
    unfold add_to_core in Hl. destruct (decide (coreId i = c)) as [<-|].
    + rewrite lookup_insert_eq in Hl. injection Hl as <-. split.
      { intros [_ E]%app_nil. by destruct Hi as [Hi _]. }
      intros x [Hx|Hx]%elem_of_app; [|exists i; rewrite Hin; tauto].
      destruct (coreToCpu_ t !! coreId i) as [l0|] eqn:E0; [|by apply elem_of_nil in Hx].
      destruct (Hback _ l0 E0) as [_ H]. destruct (H x Hx) as (j & ? & ?). exists j. rewrite Hin. tauto.
    + rewrite lookup_insert_ne in Hl by done. destruct (Hback c l Hl) as [? H]. split; [done|]. intros x Hx.
      destruct (H x Hx) as (j & ? & ?). exists j. rewrite Hin. tauto.
Qed.

Lemma load_cpus_ok es t t' :
  load_cpus es t = Ok t' → NodesOk t → CpusOk t → CpusOk t' ∧ nodes_ t' = nodes_ t ∧ cpuToNode_ t' = cpuToNode_ t.
Proof.
  revert t. induction es as [|e es IH]; intros t; cbn [load_cpus]; [by intros [= <-]|].
  destruct (load_cpu e t) as [t1| |] eqn:E; [|done|done]. cbn [obind]. intros Hl Hn Hc.
  assert (Hst : CpusOk t1 ∧ nodes_ t1 = nodes_ t ∧ cpuToNode_ t1 = cpuToNode_ t).
  { unfold load_cpu in E. repeat (case_match; [by simplify_eq|]).
    destruct (stoi _) as [id| |]; [|by simplify_eq..].
    destruct (match c_siblings e with Some l => parseCpuList l | None => Ok [] end) as [p| |]; [|done|done].
    cbn [obind] in E. injection E as <-. split; [|done].
    apply (add_info_ok t (MkCpuInfo id (default (-1) (cpuToNode_ t !! id)) (readIntFile (c_core e) (-1))
      (readIntFile (c_package e) (-1)) (match p with [] => [id] | _ => p end)) (readIntFile (c_core e) (-1) >=? 0)); [|split|done].
    - intros H'. apply Z.geb_le. cbn in H'. lia.
    - by destruct p.
    - cbn. destruct (cpuToNode_ t !! id) as [n|] eqn:En; [|by left].
      right. destruct (no_back t Hn id n En) as (nd & ? & ? & ?). by exists nd. }
  destruct Hst as (Hc1 & E1 & E2). destruct (IH t1 Hl) as (? & ? & ?); [|done|split_and!; congruence || done].
  destruct Hn as [? ? ?]. split; by rewrite E1, ?E2.
Qed.

(** The fallback: every processor of every node. *)
Lemma fallback_cpus_ok nd cs t :
  (∀ c, c ∈ cs → c ∈ cpus nd) → nd ∈ nodes_ t → CpusOk t →
  let t' := foldl (fallback_cpu (nodeId nd)) t cs in
  CpusOk t' ∧ nodes_ t' = nodes_ t ∧ cpuToNode_ t' = cpuToNode_ t ∧ (cs ≠ [] ∨ cpuInfos_ t ≠ [] → cpuInfos_ t' ≠ []).
Proof.
  revert t. induction cs as [|c cs IH]; intros t Hcs Hnd Hok; cbn [foldl]; [naive_solver|].
  destruct (IH (fallback_cpu (nodeId nd) t c)) as (H1 & H2 & H3 & H4); [set_solver|done| |].
  - apply (add_info_ok t (MkCpuInfo c (nodeId nd) c 0 [c]) true); [done| |done]. split; [done|]. right.
    exists nd. cbn. split_and!; [done|done|]. apply Hcs. left.
  - split_and!; [done|done|done|]. intros _. apply H4. right. cbn. by intros [_ ?]%app_nil.
Qed.

Lemma fallback_nodes_ok ns t :
  Forall (λ n, n ∈ nodes_ t ∧ cpus n ≠ []) ns → CpusOk t →
  let t' := foldl fallback_node t ns in
  CpusOk t' ∧ nodes_ t' = nodes_ t ∧ cpuToNode_ t' = cpuToNode_ t ∧ (ns ≠ [] ∨ cpuInfos_ t ≠ [] → cpuInfos_ t' ≠ []).
Proof.
  revert t. induction ns as [|n ns IH]; intros t Hns Hok; cbn [foldl]; [naive_solver|].
  inversion_clear Hns as [|? ? [Hn Hne] Hns'].
  destruct (fallback_cpus_ok n (cpus n) t) as (H1 & H2 & H3 & H4); [done|done|done|].
  destruct (IH (fallback_node t n)) as (I1 & I2 & I3 & I4); [unfold fallback_node; by rewrite H2|done|].
  unfold fallback_node in *. split_and!; [done|congruence|congruence|]. intros _. apply I4. right. apply H4. by left.
Qed.

Lemma finish_cpus_ok t :
  nodes_ t ≠ [] → NodesOk t → CpusOk t →
  let t' := finish_cpus t in
  CpusOk t' ∧ nodes_ t' = nodes_ t ∧ cpuToNode_ t' = cpuToNode_ t ∧ cpuInfos_ t' ≠ [].
Proof.
  intros Hne Hn Hc. unfold finish_cpus. destruct (cpuInfos_ t) as [|i is_] eqn:Ei.
  - destruct (fallback_nodes_ok (nodes_ t) t) as (? & ? & ? & H); [|done|split_and!; [done|done|done|apply H; by left]].
    apply Forall_forall. intros n Hin. split; [done|]. destruct Hn as [Hcp _ _]. rewrite Forall_forall in Hcp. by apply Hcp.
  - cbn. split_and!; [done|done|done|]. by rewrite Ei.
Qed.

Lemma sort_cores_ok t : CpusOk t → CpusOk (sort_cores t).
Proof.
  intros [Hi Hf Hb]. split; cbn [sort_cores cpuInfos_ coreToCpu_].
  - done.
  - intros i Hin Hc. destruct (Hf i Hin Hc) as (l & Hl & Hx). exists (sort_unique l). rewrite lookup_fmap, Hl.
    split; [done|]. intros x Hx'. by apply elem_of_sort_unique, Hx.
  - intros c l Hl. rewrite lookup_fmap in Hl. destruct (coreToCpu_ t !! c) as [l0|] eqn:E; [|done]. cbn in Hl. injection Hl as <-.
    destruct (Hb c l0 E) as [Hne Hx]. split; [intros Hs; by apply sort_unique_nil in Hs|].
    intros x Hx'. apply Hx. by apply elem_of_sort_unique.
Qed.

(** C11: Every topology [SystemTopology::load] returns, whatever the directories
    and files hold, is well formed: there is a node and a processor record;
    nodes are ordered by id and have processors, listed in increasing order;
    the processor map agrees with the nodes; every processor record has
    siblings and names a node that lists it (or -1 when none does); each core
    lists, in increasing order, exactly the siblings of its processors. *)
Theorem load_wellformed fs hw t : 0 <= hw → load fs hw = Ok t → TopologyOk t.
Proof.
  intros Hhw Hl. unfold load in Hl.
  destruct (match node_dir fs with None => Ok (MkTopo [] [] ∅ ∅) | Some es => load_nodes es (MkTopo [] [] ∅ ∅) end)
    as [t1| |] eqn:E1; [|done|done]. cbn [obind] in Hl.
  assert (H1 : NodesOk t1 ∧ cpuInfos_ t1 = [] ∧ coreToCpu_ t1 = ∅).
  { assert (H0 : NodesOk (MkTopo [] [] ∅ ∅)) by (split; [constructor|done|by intros ? ? ?%elem_of_nil]).
    destruct (node_dir fs) as [es|]; [by eapply load_nodes_ok|by injection E1 as <-]. }
  destruct H1 as (Hn1 & Hi1 & Hc1). destruct (finish_nodes_ok hw t1 Hhw Hn1) as (Hn2 & Hne2 & Hs2).
  assert (Hc2 : CpusOk (finish_nodes hw t1)).
  { assert (cpuInfos_ (finish_nodes hw t1) = [] ∧ coreToCpu_ (finish_nodes hw t1) = ∅) as [Ei Ec]
      by (unfold finish_nodes; by destruct (nodes_ t1)).
    split; rewrite ?Ei, ?Ec; [constructor|by intros ? ?%elem_of_nil|done]. }
  destruct (match cpu_dir fs with None => Ok (finish_nodes hw t1) | Some es => load_cpus es (finish_nodes hw t1) end)
    as [t3| |] eqn:E3; [|done|done]. cbn [obind] in Hl. injection Hl as <-.
  assert (H3 : CpusOk t3 ∧ nodes_ t3 = nodes_ (finish_nodes hw t1) ∧ cpuToNode_ t3 = cpuToNode_ (finish_nodes hw t1)).
  { destruct (cpu_dir fs) as [es|]; [by eapply load_cpus_ok|by injection E3 as <-]. }
  destruct H3 as (Hc3 & En3 & Em3).
  assert (Hn3 : NodesOk t3) by (destruct Hn2; split; by rewrite ?En3, ?Em3).
  destruct (finish_cpus_ok t3) as (Hc4 & En4 & Em4 & Hi4); [by rewrite En3|done|done|].
  split; cbn [sort_cores nodes_ cpuInfos_]; [by rewrite En4, En3|by rewrite En4, En3| |done|by apply sort_cores_ok|].
  - destruct Hn3. split; cbn; by rewrite ?En4, ?Em4.
  - intros c l. cbn. rewrite lookup_fmap. destruct (coreToCpu_ _ !! c); [|done]. intros [= <-]. apply sort_unique_sorted.
Qed.

(** What the queries return on a well-formed topology. *)
Lemma topology_queries t id :
  TopologyOk t →
  StronglySorted Z.lt (cpuIds t) ∧ (∀ x, x ∈ cpuIds t ↔ is_Some (cpuToNode_ t !! x)) ∧
  match node id t with
  | None => cpuSetForNode id t = Throw OutOfRange ∧ ∀ n, n ∈ nodes_ t → nodeId n ≠ id
  | Some n => n ∈ nodes_ t ∧ nodeId n = id ∧
      ((∃ s, cpuSetForNode id t = Ok s ∧ ∀ x, contains x s = bool_decide (x ∈ cpus n)) ∨
       cpuSetForNode id t = Throw OutOfRange ∧ ¬ Forall (λ c, 0 <= c < CPU_SETSIZE) (cpus n))
  end.
Proof.
  intros [_ _ [Hc Hb Hf] _ _ _]. split_and!; [apply sort_unique_sorted| |].
  - intros x. unfold cpuIds. rewrite elem_of_sort_unique, list_elem_of_bind. split.
    + intros (nd & ? & ?). by eapply Hf.
    + intros [n Hn]. destruct (Hb x n Hn) as (nd & ? & _ & ?). by exists nd.
  - unfold cpuSetForNode. destruct (node id t) as [n|] eqn:E.
    + apply List.find_some in E as [Hin He]. apply Z.eqb_eq in He. split; [by apply list_elem_of_In|]. split; [done|].
      destruct (add_all_spec (cpus n) newCpuSet) as [H1 H2]. destruct (decide (Forall (λ c, 0 <= c < CPU_SETSIZE) (cpus n))) as [Hr|Hr].
      * left. destruct (H1 Hr) as (s & Es & Hx). exists s. split; [done|]. intros x. rewrite Hx.
        unfold contains. cbn. rewrite Z.bits_0. destruct (in_set_range x); apply orb_false_r.
      * right. by split; [apply H2|].
    + split; [done|]. intros n Hin%list_elem_of_In Hid. pose proof (List.find_none _ _ E n Hin) as He. cbn in He. apply Z.eqb_neq in He. done.
Qed.

Definition txt (s : string) : text := String.list_ascii_of_string s.

Definition sample_sysfs : sysfs :=
  MkSysfs (Some [MkNodeEntry true (txt "node1") (Some (txt "2-3")); MkNodeEntry true (txt "node0") (Some (txt "0-1"));
                 MkNodeEntry true (txt "power") None])
    (Some [MkCpuEntry true (txt "cpu0") (Some (txt "0")) (Some (txt "0")) (Some (txt "0-1"));
           MkCpuEntry true (txt "cpufreq") None None None;
           MkCpuEntry true (txt "cpu2") (Some (txt "0")) (Some (txt "1")) (Some (txt "2-3"))]).

(** The sample: two packages, each with a core 0; the core table merges them. *)
Definition sample_topology : SystemTopology :=
  MkTopo [MkNode 0 [0; 1]; MkNode 1 [2; 3]] [MkCpuInfo 0 0 0 0 [0; 1]; MkCpuInfo 2 1 0 1 [2; 3]]
    {[ 0 := [0; 1; 2; 3] ]} (<[1 := 0]> (<[0 := 0]> (<[3 := 1]> (<[2 := 1]> ∅)))).

Lemma load_wellformed_witness : TopologyOk sample_topology.
Proof. apply (load_wellformed sample_sysfs 4 sample_topology); [lia|by vm_compute]. Defined.
