(* ===== verification/Observability.v ===== *)
(** * Process and thread snapshots (src/src/observability.cpp)

    The parsers of /proc/<pid>/stat and status, over the text of the files, and
    the snapshots built from them.  The files are a parameter: a file that
    cannot be opened is [None].  A line of /proc/<pid>/stat is

      pid (comm) state ppid pgrp session tty_nr tpgid flags minflt cminflt
      majflt cmajflt utime stime cutime cstime ...

    with fields numbered from 1 by proc(5), so the first number after the state
    is field 4. *)

From S2P Require Import Prelude Text.

Record ThreadStats := MkThread {
  tid : Z;
  tname : text;
  tstate : ascii;
  userTimeTicks : Z;
  systemTimeTicks : Z;
  voluntaryContextSwitches : Z;
  involuntaryContextSwitches : Z
}.

Record ProcessSnapshot := MkSnapshot {
  spid : Z;
  sname : text;
  startTimeTicks : Z;
  suserTimeTicks : Z;
  ssystemTimeTicks : Z;
  threads : list ThreadStats
}.

Definition newThreadStats : ThreadStats := MkThread (-1) [] "?"%char 0 0 0 0.

Definition lparen : ascii := "("%char.
Definition rparen : ascii := ")"%char.
Definition colon : ascii := ":"%char.
Definition newline : ascii := ascii_of_nat 10.

(** The text before the first parenthesis, the text between it and the last
    closing one, and the text after that. *)
Definition stat_split (line : text) : outcome (text * text * text) :=
  match find_char lparen line, rfind_char rparen line with
  | Some (before, _), Some (upto, after) =>
      if (List.length upto <=? List.length before)%nat then Throw RuntimeError
      else Ok (before, drop (S (List.length before)) upto, after)
  | _, _ => Throw RuntimeError
  end.

(** [line.substr(rparen + 2)], given the text after the parenthesis. *)
Definition after_paren (after : text) : outcome text :=
  match after with [] => Throw OutOfRange | _ :: r => Ok r end.

Definition parseThreadStatLine (line : text) : outcome ThreadStats :=
  let* (before, name, after) := stat_split line in
  let* id := stoi before in
  let* r := after_paren after in
  let '(st, s1) := get_char "?"%char (MkStream r false) in
  let s2 := skip_ints 11 s1 in
  let '(user, s3) := get_int 64 0 s2 in
  let '(system, _) := get_int 64 0 s3 in
  Ok (MkThread id name st user system 0 0).

Definition parseProcessStat (line : text) : outcome ProcessSnapshot :=
  let* (before, name, after) := stat_split line in
  let* id := stoi before in
  let* r := after_paren after in
  let '(_, s1) := get_char "?"%char (MkStream r false) in
  let s2 := skip_ints 11 s1 in
  let '(user, s3) := get_int 64 0 s2 in
  let '(system, s4) := get_int 64 0 s3 in
  let s5 := skip_ints 7 s4 in
  let '(start, _) := get_int 64 0 s5 in
  Ok (MkSnapshot id name start user system []).

(** [line.substr(line.find(':') + 1)]: the whole line when there is no colon. *)
Definition after_colon (line : text) : text :=
  match find_char colon line with Some (_, r) => r | None => line end.

Definition set_tid (i : Z) (s : ThreadStats) : ThreadStats :=
  MkThread i (tname s) (tstate s) (userTimeTicks s) (systemTimeTicks s)
    (voluntaryContextSwitches s) (involuntaryContextSwitches s).
Definition set_voluntary (n : Z) (s : ThreadStats) : ThreadStats :=
  MkThread (tid s) (tname s) (tstate s) (userTimeTicks s) (systemTimeTicks s) n (involuntaryContextSwitches s).
Definition set_involuntary (n : Z) (s : ThreadStats) : ThreadStats :=
  MkThread (tid s) (tname s) (tstate s) (userTimeTicks s) (systemTimeTicks s) (voluntaryContextSwitches s) n.

Definition voluntary_key : text := String.list_ascii_of_string "voluntary_ctxt_switches".
Definition nonvoluntary_key : text := String.list_ascii_of_string "nonvoluntary_ctxt_switches".

(** The loop of [parseContextSwitches] over the lines of the file; an exception
    leaves what was stored before it. *)
Fixpoint context_lines (ls : list text) (s : ThreadStats) : outcome unit * ThreadStats :=
  match ls with
  | [] => (Ok tt, s)
  | l :: ls' =>
      if starts_with voluntary_key l then
        match stoll (after_colon l) with
        | Ok n => context_lines ls' (set_voluntary n s)
        | Throw e => (Throw e, s)
        | Hang => (Hang, s)
        end
      else if starts_with nonvoluntary_key l then
        match stoll (after_colon l) with
        | Ok n => context_lines ls' (set_involuntary n s)
        | Throw e => (Throw e, s)
        | Hang => (Hang, s)
        end
      else context_lines ls' s
  end.

Definition parseContextSwitches (file : option (list text)) (s : ThreadStats) : outcome unit * ThreadStats :=
  match file with None => (Ok tt, s) | Some ls => context_lines ls s end.

Definition readFile (file : option text) : outcome text :=
  match file with None => Throw RuntimeError | Some t => Ok t end.

(** [readThreadStats]: every exception becomes the thread id -1. *)
Definition readThreadStats (stat : option text) (status : option (list text)) : ThreadStats :=
  match (let* t := readFile stat in parseThreadStatLine t) with
  | Ok s =>
      match parseContextSwitches status s with
      | (Ok _, s') => s'
      | (_, s') => set_tid (-1) s'
      end
  | _ => set_tid (-1) newThreadStats
  end.

(** The files: the stat file of a process, the entries of its task directory
    (whether a directory, and the name), and the two files of a thread. *)
Record procfs := MkProcfs {
  proc_stat : Z → option text;
  task_dir : Z → option (list (bool * text));
  thread_stat : Z → Z → option text;
  thread_status : Z → Z → option (list text)
}.

Definition enumerateThreads (fs : procfs) (pid : Z) : list Z :=
  match task_dir fs pid with
  | None => []
  | Some es => omap (λ e : bool * text,
      if e.1 then match stoi e.2 with Ok n => Some n | _ => None end else None) es
  end.

(** [self] is [getpid()]. *)
Definition effectivePid (self pid : Z) : Z := if pid <=? 0 then self else pid.

Definition snapshotProcess (fs : procfs) (self pid0 : Z) : outcome ProcessSnapshot :=
  let pid := effectivePid self pid0 in
  let* t := readFile (proc_stat fs pid) in
  let* s := parseProcessStat t in
  let ts := (λ i, readThreadStats (thread_stat fs pid i) (thread_status fs pid i)) <$> enumerateThreads fs pid in
  Ok (MkSnapshot (spid s) (sname s) (startTimeTicks s) (suserTimeTicks s) (ssystemTimeTicks s)
        (filter (λ st, 0 <= tid st) ts)).

(** [caller] is the calling thread's id. *)
Definition snapshotThread (fs : procfs) (self caller pid0 tid0 : Z) : outcome ThreadStats :=
  let pid := effectivePid self pid0 in
  let t := if tid0 <=? 0 then caller else tid0 in
  let s := readThreadStats (thread_stat fs pid t) (thread_status fs pid t) in
  if tid s <? 0 then Throw RuntimeError else Ok s.

(** ** What the parsers read *)

(** A line as the kernel prints it. *)
Definition stat_line (pid : Z) (name : text) (st : ascii) (fs : list Z) : text :=
  print_Z pid ++ [space; lparen] ++ name ++ [rparen; space; st] ++ print_fields fs ++ [newline].

(** Field [n] of proc(5), for the numbers after the state. *)
Definition field (n : nat) (fs : list Z) : option Z := fs !! (n - 4)%nat.

Lemma not_in_numbers c (fs : list Z) :
  is_numeric c = false → c ≠ space → c ∉ print_fields fs.
Proof.
  intros Hc Hs H. unfold print_fields in H. apply list_elem_of_bind in H as (f & Hf & _).
  apply elem_of_cons in Hf as [->|Hf]; [done|].
  destruct (print_Z_numeric f) as [_ Hn]. rewrite Forall_forall in Hn. specialize (Hn c Hf). congruence.
Qed.

Lemma not_in_print c n : is_numeric c = false → c ∉ print_Z n.
Proof. intros Hc H. destruct (print_Z_numeric n) as [_ Hn]. rewrite Forall_forall in Hn. specialize (Hn c H). congruence. Qed.

(** The split finds the command name whatever characters it holds. *)
Lemma stat_split_line pid name st fs :
  st ≠ rparen →
  stat_split (stat_line pid name st fs) =
    Ok (print_Z pid ++ [space], name, space :: st :: print_fields fs ++ [newline]).
Proof.
  intros Hst. unfold stat_split, stat_line.
  assert (Hl : find_char lparen (print_Z pid ++ [space; lparen] ++ name ++ [rparen; space; st] ++ print_fields fs ++ [newline]) =
    Some (print_Z pid ++ [space], name ++ [rparen; space; st] ++ print_fields fs ++ [newline])).
  { rewrite <- (find_char_app lparen (print_Z pid ++ [space])).
    - f_equal. by rewrite <- (assoc_L (++)).
    - rewrite elem_of_app, list_elem_of_singleton. intros [H|H]; [|done]. by apply not_in_print in H. }
  assert (Hr : rfind_char rparen (print_Z pid ++ [space; lparen] ++ name ++ [rparen; space; st] ++ print_fields fs ++ [newline]) =
    Some (print_Z pid ++ [space; lparen] ++ name, space :: st :: print_fields fs ++ [newline])).
  { rewrite <- (rfind_char_app rparen (print_Z pid ++ [space; lparen] ++ name)).
    - f_equal. by rewrite <- !(assoc_L (++)).
    - rewrite !elem_of_cons, elem_of_app, list_elem_of_singleton.
      intros [H|[H|[H|H]]]; [done|done| |done]. by apply not_in_numbers in H. }
  rewrite Hl, Hr, !length_app. cbn [List.length].
  destruct (Nat.leb_spec (List.length (print_Z pid) + (2 + List.length name)) (List.length (print_Z pid) + 1)); [lia|].
  do 3 f_equal. replace (print_Z pid ++ [space; lparen] ++ name) with ((print_Z pid ++ [space; lparen]) ++ name) by (by rewrite <- (assoc_L (++))).
  apply drop_app_length'. rewrite length_app. cbn. lia.
Qed.

(** What both parsers do after the name: the state, eleven numbers dropped, then
    two. *)
Lemma stat_fields st fs u v :
  is_space st = false → Forall (fits 64) fs → field 15 fs = Some u → field 16 fs = Some v →
  get_char "?"%char (MkStream (st :: print_fields fs ++ [newline]) false) = (st, MkStream (print_fields fs ++ [newline]) false) ∧
  get_int 64 0 (skip_ints 11 (MkStream (print_fields fs ++ [newline]) false)) =
    (u, MkStream (print_fields (drop 12 fs) ++ [newline]) false) ∧
  get_int 64 0 (MkStream (print_fields (drop 12 fs) ++ [newline]) false) =
    (v, MkStream (print_fields (drop 13 fs) ++ [newline]) false).
Proof.
  intros Hst Hf Hu Hv. assert (Hn : ends_number [newline]) by done.
  split_and!.
  - unfold get_char. cbn. by rewrite Hst.
  - pose proof (lookup_lt_Some _ _ _ Hu) as Hlen. cbn in Hlen.
    rewrite (skip_ints_print 11) by (done || lia). by apply get_field_print.
  - by apply get_field_print.
Qed.

(** On a line of /proc/<pid>/stat as the kernel prints it, with any command
    name (parentheses and spaces included), both parsers recover the id, the
    name and the state, but the times they report are shifted: user time is
    field 15 (stime) and system time field 16 (cutime) instead of 14 and 15,
    and the start time is field 24 (rss) instead of 22. *)
Theorem stat_fields_shifted pid name st fs u v w :
  fits 32 pid → is_space st = false → st ≠ rparen → Forall (fits 64) fs →
  field 15 fs = Some u → field 16 fs = Some v → field 24 fs = Some w →
  parseThreadStatLine (stat_line pid name st fs) = Ok (MkThread pid name st u v 0 0) ∧
  parseProcessStat (stat_line pid name st fs) = Ok (MkSnapshot pid name w u v []).
Proof.
  intros Hp Hsp Hst Hf Hu Hv Hw. destruct (stat_fields st fs u v Hsp Hf Hu Hv) as (E1 & E2 & E3).
  unfold parseThreadStatLine, parseProcessStat. rewrite stat_split_line by done. cbn [obind].
  unfold stoi. rewrite sto_print by done. cbn [obind after_paren]. rewrite E1, E2, E3. split; [done|].
  pose proof (lookup_lt_Some _ _ _ Hw) as Hlen. cbn in Hlen.
  rewrite (skip_ints_print 7); [|by apply Forall_drop|done|rewrite length_drop; lia].
  rewrite drop_drop. rewrite (get_field_print 20 0 fs w) by done. done.
Qed.

Definition sample_name : text := String.list_ascii_of_string "a) (b".
Definition sample_fields : list Z := Z.of_nat <$> seq 4 49.

Lemma stat_fields_shifted_witness :
  parseProcessStat (stat_line 77 sample_name "S"%char sample_fields) =
    Ok (MkSnapshot 77 sample_name 24 15 16 []) ∧
  field 14 sample_fields = Some 14 ∧ field 22 sample_fields = Some 22.
Proof.
  split; [|done]. refine (proj2 (stat_fields_shifted 77 sample_name "S"%char sample_fields 15 16 24 _ _ _ _ _ _ _));
    try done. by_decision.
Defined.

(** A snapshot of a thread never carries the error id, and a snapshot of a
    process lists only threads that were read. *)
Lemma snapshot_ids_valid fs self pid s :
  snapshotProcess fs self pid = Ok s → Forall (λ t, 0 <= tid t) (threads s).
Proof.
  unfold snapshotProcess. intros H. destruct (readFile _); [|done|done]. cbn in H.
  destruct (parseProcessStat a); [|done|done]. cbn in H. injection H as <-. cbn [threads].
  apply Forall_forall. intros t [Ht _]%list_elem_of_filter. done.
Qed.
