(* ===== verification/Threads.v ===== *)
(** * Threads (src/src/thread.cpp, thread_group.cpp, thread_config.cpp,
      diagnostics.cpp)

    [ManagedThread] objects over the threads of the system.  An object is known
    by its address; a system thread is joinable, detached or joined, and joining
    or detaching one that is not joinable is undefined.  The theorem is about
    ownership: however objects are built, moved, joined, detached and destroyed,
    the joinable threads are exactly those owned by one object. *)

From S2P Require Import Prelude Text Topology.

(** ** Attributes and [start] *)

Record ThreadAttributes := MkAttrs {
  stackSize : option Z;
  guardSize : option Z;
  policy : option Z;
  priority : option Z;
  affinity : option CpuSet;
  numaNode : option Z;
  detached : bool
}.

(** The calls [start] makes on the attribute object and to create the thread. *)
Inductive pcall :=
  | AttrInit
  | SetStackSize (n : Z)
  | SetGuardSize (n : Z)
  | SetInheritSched
  | SetSchedPolicy (p : Z)
  | SetSchedParam (prio : Z)
  | SetAffinity (s : CpuSet)
  | SetDetached
  | Create
  | AttrDestroy.

Definition opt_call {A} (f : A → pcall) (o : option A) : list pcall :=
  match o with Some a => [f a] | None => [] end.

Definition sched_calls (a : ThreadAttributes) : list pcall :=
  match policy a, priority a with
  | None, None => []
  | p, prio => SetInheritSched :: opt_call SetSchedPolicy p ++ [SetSchedParam (default 0 prio)]
  end.

(** In the order of [start]. *)
Definition attr_calls (a : ThreadAttributes) : list pcall :=
  opt_call SetStackSize (stackSize a) ++ opt_call SetGuardSize (guardSize a) ++ sched_calls a ++
  opt_call SetAffinity (affinity a) ++ (if detached a then [SetDetached] else []).

(** Calls one after the other; the first that fails throws. *)
Fixpoint run_calls (rc : pcall → Z) (cs : list pcall) : outcome unit * list pcall :=
  match cs with
  | [] => (Ok tt, [])
  | c :: cs' =>
      if negb (rc c =? 0) then (Throw (SystemError (rc c)), [c])
      else let '(r, done) := run_calls rc cs' in (r, c :: done)
  end.

(** The affinity from the NUMA node, when only the node is given; a failure is
    ignored. *)
Definition resolve_affinity (topo : SystemTopology) (a : ThreadAttributes) : ThreadAttributes :=
  match affinity a, numaNode a with
  | None, Some n =>
      match cpuSetForNode n topo with
      | Ok s => MkAttrs (stackSize a) (guardSize a) (policy a) (priority a) (Some s) (numaNode a) (detached a)
      | _ => a
      end
  | _, _ => a
  end.

(** [start] up to the creation: the guard destroys the attribute object on every
    way out. *)
Definition start_calls (rc : pcall → Z) (a : ThreadAttributes) : outcome unit * list pcall :=
  if negb (rc AttrInit =? 0) then (Throw (SystemError (rc AttrInit)), [AttrInit])
  else let '(r, done) := run_calls rc (attr_calls a ++ [Create]) in (r, AttrInit :: done ++ [AttrDestroy]).

(** The name [start] gives the thread: at most 15 characters, none if empty. *)
Definition start_name (name : text) : option text := match name with [] => None | _ => Some (take 15 name) end.

(** ** Objects and threads *)

Record ManagedThread := MkManaged {
  thread_ : Z;
  joinable_ : bool;
  started_ : bool;
  name_ : text;
  attributes_ : option ThreadAttributes;
  state_ : option Z              (* the thread whose exception slot it shares *)
}.

Definition emptyThread : ManagedThread := MkManaged 0 false false [] None None.

Inductive pstatus := Joinable | Detached | Joined.

(** A system thread: its status, whether its entry point has returned, and the
    exception it stored. *)
Record PThread := MkPThread { pst : pstatus; pfinished : bool; pexn : option exn }.

(** The world: objects by address, threads by id, and whether a join or detach
    was ever applied to a thread that was not joinable. *)
Record World := MkWorld {
  objs : gmap Z ManagedThread;
  pthreads : gmap Z PThread;
  misuse : bool
}.

Definition set_obj (x : Z) (m : ManagedThread) (w : World) : World :=
  MkWorld (<[x := m]> (objs w)) (pthreads w) (misuse w).

(** [pthread_join] and [pthread_detach] as they change a thread. *)
Definition retire (st : pstatus) (t : Z) (w : World) : World :=
  match pthreads w !! t with
  | Some (MkPThread Joinable f e) => MkWorld (objs w) (<[t := MkPThread st f e]> (pthreads w)) (misuse w)
  | _ => MkWorld (objs w) (pthreads w) true
  end.

(** The constructor at address [x]; [t] is the id of the new thread and
    [observer_ok] whether the observer of the Created event returns. *)
Definition construct (topo : SystemTopology) (rc : pcall → Z) (observer_ok : bool) (x t : Z) (name : text)
  (task : option Z) (a : ThreadAttributes) (w : World) : outcome unit * World :=
  match task with
  | None => (Throw InvalidArgument, w)
  | Some _ =>
      let a' := resolve_affinity topo a in
      match (start_calls rc a').1 with
      | Ok _ =>
          let w1 := MkWorld (objs w) (<[t := MkPThread (if detached a' then Detached else Joinable) false None]> (pthreads w))
                      (misuse w) in
          if observer_ok
          then (Ok tt, set_obj x (MkManaged t (negb (detached a')) true name (Some a') (Some t)) w1)
          else (Throw RuntimeError, w1)
      | Throw e => (Throw e, w)
      | Hang => (Hang, w)
      end
  end.

Definition destroy (x : Z) (w : World) : World :=
  match objs w !! x with
  | None => w
  | Some m =>
      let w1 := if started_ m && joinable_ m then retire Detached (thread_ m) w else w in
      MkWorld (delete x (objs w1)) (pthreads w1) (misuse w1)
  end.

(** What is left of a moved-from object. *)
Definition moved_from (m : ManagedThread) : ManagedThread :=
  MkManaged 0 false false [] (attributes_ m) None.

(** [operator=(ManagedThread&&)]. *)
Definition move_assign (x y : Z) (w : World) : World :=
  if x =? y then w
  else
    match objs w !! x, objs w !! y with
    | Some m, Some n =>
        let w1 := if joinable_ m then retire Detached (thread_ m) w else w in
        set_obj y (moved_from n) (set_obj x n w1)
    | _, _ => w
    end.

(** The move constructor: a default object, then the assignment. *)
Definition move_construct (x y : Z) (w : World) : World := move_assign x y (set_obj x emptyThread w).

(** [join]; [rc] is what [pthread_join] returns: on failure the object keeps
    its thread. *)
Definition join (rc : Z) (x : Z) (w : World) : outcome unit * World :=
  match objs w !! x with
  | None => (Ok tt, w)
  | Some m =>
      if negb (joinable_ m) then (Ok tt, w)
      else if negb (rc =? 0) then (Throw (SystemError rc), w)
      else
        let w1 := retire Joined (thread_ m) w in
        let ex := t ← state_ m; p ← pthreads w !! t; pexn p in
        (match ex with Some e => Throw e | None => Ok tt end,
         set_obj x (MkManaged (thread_ m) false (started_ m) (name_ m) (attributes_ m) None) w1)
  end.

Definition detach (rc : Z) (x : Z) (w : World) : outcome unit * World :=
  match objs w !! x with
  | None => (Ok tt, w)
  | Some m =>
      if negb (joinable_ m) then (Ok tt, w)
      else if negb (rc =? 0) then (Throw (SystemError rc), w)
      else
        (Ok tt, set_obj x (MkManaged (thread_ m) false (started_ m) (name_ m) (attributes_ m) None)
                  (retire Detached (thread_ m) w))
  end.

(** The entry point, when the task returns or throws. *)
Definition entryPoint_end (t : Z) (threw : option exn) (w : World) : World :=
  match pthreads w !! t with
  | Some p => MkWorld (objs w) (<[t := MkPThread (pst p) true threw]> (pthreads w)) (misuse w)
  | None => w
  end.

Definition setCpuAffinity (rc : Z) (m : ManagedThread) : outcome unit :=
  if negb (started_ m) then Throw LogicError else if negb (rc =? 0) then Throw (SystemError rc) else Ok tt.

Definition setScheduling (rc : Z) (m : ManagedThread) : outcome unit :=
  if negb (started_ m) then Throw LogicError else if negb (rc =? 0) then Throw (SystemError rc) else Ok tt.

(** [setName]: the new name, and what the system is told: at most 15 characters. *)
Definition setName (name : text) (m : ManagedThread) : ManagedThread * option text :=
  (MkManaged (thread_ m) (joinable_ m) (started_ m) name (attributes_ m) (state_ m),
   if started_ m then Some (take 15 name) else None).

(** ** Groups (thread_group.cpp) *)

(** A loop over the objects of a group: an exception leaves the rest alone. *)
Fixpoint each (f : Z → World → outcome unit * World) (xs : list Z) (w : World) : outcome unit * World :=
  match xs with
  | [] => (Ok tt, w)
  | x :: xs' =>
      match f x w with
      | (Ok _, w') => each f xs' w'
      | r => r
      end
  end.

Definition joinAll (rc : Z → Z) (xs : list Z) (w : World) : outcome unit * World := each (λ x, join (rc x) x) xs w.
Definition detachAll (rc : Z → Z) (xs : list Z) (w : World) : outcome unit * World := each (λ x, detach (rc x) x) xs w.

(** ** Configuration (thread_config.cpp) *)

Record ThreadOptions := MkOptions {
  ocpus : option (list Z); onumaNode : option Z; schedFifoPriority : option Z; lockMemory : bool
}.

Definition buildSetFromList (cs : list Z) : outcome CpuSet :=
  match cs with [] => Throw InvalidArgument | _ => add_all cs newCpuSet end.

Definition mask_for_node (topo : SystemTopology) (n : Z) : outcome CpuSet := cpuSetForNode n topo.

Definition mask_for_core (topo : SystemTopology) (core : Z) : outcome CpuSet :=
  let* l := siblingsForCore core topo in add_all l newCpuSet.

(** What [configure_thread] asks of the system. *)
Inductive conf_call := CAffinity (s : CpuSet) | CFifo (prio : Z) | CMlockall.

(** A call that fails throws with [errno], which the pthread calls do not set. *)
Definition conf_step (rc : conf_call → Z) (errno : Z) (c : conf_call) (k : outcome unit * list conf_call)
  : outcome unit * list conf_call :=
  if negb (rc c =? 0) then (Throw (SystemError errno), [c]) else (k.1, c :: k.2).

Definition configure_thread (topo : SystemTopology) (rc : conf_call → Z) (errno : Z) (o : ThreadOptions)
  : outcome unit * list conf_call :=
  let target := match ocpus o, onumaNode o with
                | Some (_ :: _ as cs), _ => let* s := buildSetFromList cs in Ok (Some s)
                | _, Some n => let* s := mask_for_node topo n in Ok (Some s)
                | _, None => Ok None
                end in
  let k2 := if lockMemory o then conf_step rc errno CMlockall (Ok tt, []) else (Ok tt, []) in
  let k1 := match schedFifoPriority o with Some p => conf_step rc errno (CFifo p) k2 | None => k2 end in
  match target with
  | Ok (Some s) => conf_step rc errno (CAffinity s) k1
  | Ok None => k1
  | Throw e => (Throw e, [])
  | Hang => (Hang, [])
  end.

(** ** Steps *)

(** Addresses and thread ids given out are fresh; [pthread_join] succeeds only
    on a thread that has finished. *)
Inductive world_step : relation World :=
  | W_default x w : objs w !! x = None → world_step w (set_obj x emptyThread w)
  | W_construct topo rc x t name task a w :
      objs w !! x = None → pthreads w !! t = None →
      world_step w (construct topo rc true x t name task a w).2
  | W_destroy x w : world_step w (destroy x w)
  | W_move_assign x y w : world_step w (move_assign x y w)
  | W_move_construct x y w : objs w !! x = None → world_step w (move_construct x y w)
  | W_join rc x w :
      (rc = 0 → ∀ m p, objs w !! x = Some m → joinable_ m = true → pthreads w !! thread_ m = Some p → pfinished p = true) →
      world_step w (join rc x w).2
  | W_detach rc x w : world_step w (detach rc x w).2
  | W_end t threw w : world_step w (entryPoint_end t threw w).

Definition newWorld : World := MkWorld ∅ ∅ false.

(** Object [x] owns thread [t]. *)
Definition owner (w : World) (x t : Z) : Prop :=
  ∃ m, objs w !! x = Some m ∧ joinable_ m = true ∧ thread_ m = t ∧ started_ m = true ∧ state_ m = Some t.

Definition status (w : World) (t : Z) : option pstatus := pst <$> pthreads w !! t.

(** The threads in [L] were left by a constructor that threw after making them. *)
Section leaks.
Context (L : gset Z).

Record Owned (w : World) : Prop := {
  ow_misuse : misuse w = false;
  ow_state : ∀ x m, objs w !! x = Some m → joinable_ m = true → owner w x (thread_ m);
  ow_live : ∀ x t, owner w x t → status w t = Some Joinable;
  ow_unique : ∀ x y t, owner w x t → owner w y t → x = y;
  ow_owned : ∀ t, t ∉ L → status w t = Some Joinable → ∃ x, owner w x t
}.

(** An object that owns nothing may be replaced by another that owns nothing. *)
Lemma set_idle_owned w x m :
  (∀ t, ¬ owner w x t) → joinable_ m = false → Owned w → Owned (set_obj x m w).
Proof.
  intros Hx Hm [Hmis Hst Hl Hu Ho].
  assert (Hown : ∀ y t, owner (set_obj x m w) y t ↔ owner w y t).
  { intros y t. unfold owner. cbn. destruct (decide (x = y)) as [<-|Hne].
    - split; [|intros H; by destruct (Hx t)]. rewrite lookup_insert_eq. intros (? & [= <-] & ? & _). congruence.
    - by rewrite lookup_insert_ne. }
  split; cbn; [done| | | |].
  - intros y n Hy Hj. apply Hown. destruct (decide (x = y)) as [<-|]; [rewrite lookup_insert_eq in Hy; congruence|].
    rewrite lookup_insert_ne in Hy by done. by apply Hst.
  - intros y t H%Hown. by apply (Hl y).
  - intros y z t H1%Hown H2%Hown. by eapply Hu.
  - intros t HL H. destruct (Ho t HL H) as [y Hy]. exists y. by apply Hown.
Qed.

Lemma retire_live st t w f e :
  pthreads w !! t = Some (MkPThread Joinable f e) →
  retire st t w = MkWorld (objs w) (<[t := MkPThread st f e]> (pthreads w)) (misuse w).
Proof. intros H. unfold retire. by rewrite H. Qed.

Lemma retire_objs st t w : objs (retire st t w) = objs w.
Proof. unfold retire. by repeat case_match. Qed.

(** The owner gives its thread up: the thread is retired and the object no
    longer owns it. *)
Lemma release_owned w x t st objs' :
  owner w x t → st ≠ Joinable →
  (∀ y, y ≠ x → objs' !! y = objs w !! y) → (∀ m, objs' !! x = Some m → joinable_ m = false) → Owned w →
  Owned (MkWorld objs' (pthreads (retire st t w)) (misuse (retire st t w))).
Proof.
  intros Hx Hst Hother Hidle [Hmis Hstate Hl Hu Ho]. pose proof (Hl x t Hx) as Hlive. unfold status in Hlive.
  destruct (pthreads w !! t) as [[ps f e]|] eqn:Ep; [|done]. cbn in Hlive. injection Hlive as ->.
  rewrite (retire_live st t w f e Ep). cbn [pthreads misuse].
  set (w' := MkWorld objs' _ _).
  assert (Hown : ∀ y u, owner w' y u ↔ y ≠ x ∧ owner w y u).
  { intros y u. unfold owner. cbn. destruct (decide (y = x)) as [->|Hne].
    - split; [|naive_solver]. intros (m & Hm & Hj & _). rewrite (Hidle m Hm) in Hj. done.
    - rewrite Hother by done. naive_solver. }
  assert (Hstat : ∀ u, status w' u = if decide (u = t) then Some st else status w u).
  { intros u. unfold status. cbn. case_decide; [subst; by rewrite lookup_insert_eq|by rewrite lookup_insert_ne]. }
  split; [done| | | |].
  - intros y n Hy Hj. apply Hown. cbn in Hy. destruct (decide (y = x)) as [->|Hne].
    + rewrite (Hidle n Hy) in Hj. done.
    + rewrite Hother in Hy by done. split; [done|by apply Hstate].
  - intros y u [Hne Hy]%Hown. rewrite Hstat. case_decide as E; [|by apply (Hl y)]. subst u. by destruct (Hne (Hu y x t Hy Hx)).
  - intros y z u [_ Hy]%Hown [_ Hz]%Hown. by eapply Hu.
  - intros u HL. rewrite Hstat. case_decide as E; [congruence|]. intros Hj. destruct (Ho u HL Hj) as [y Hy].
    exists y. apply Hown. split; [|done]. intros ->. apply E. destruct Hx as (m & Hm & _ & <- & _), Hy as (m' & Hm' & _ & <- & _). congruence.
Qed.

(** Ownership moves from [y] to [x], which owned nothing. *)
Lemma transfer_owned w x y n :
  x ≠ y → (∀ t, ¬ owner w x t) → objs w !! y = Some n → Owned w →
  Owned (set_obj y (moved_from n) (set_obj x n w)).
Proof.
  intros Hxy Hx Hy [Hmis Hstate Hl Hu Ho]. set (w' := set_obj _ _ _).
  assert (Hown : ∀ z t, owner w' z t ↔ z ≠ y ∧ owner w (if decide (z = x) then y else z) t).
  { intros z t. unfold owner. cbn. destruct (decide (z = y)) as [->|Hzy].
    - rewrite lookup_insert_eq. split; [|naive_solver]. intros (m & [= <-] & Hj & _). done.
    - rewrite lookup_insert_ne by done. destruct (decide (z = x)) as [->|Hzx].
      + rewrite lookup_insert_eq, Hy. naive_solver.
      + rewrite lookup_insert_ne by done. naive_solver. }
  split; [done| | | |].
  - intros z m Hz Hj. apply Hown. cbn in Hz. destruct (decide (z = y)) as [->|Hzy].
    { rewrite lookup_insert_eq in Hz. injection Hz as <-. done. }
    rewrite lookup_insert_ne in Hz by done. split; [done|]. case_decide as E.
    + subst z. rewrite lookup_insert_eq in Hz. injection Hz as <-. by apply Hstate.
    + rewrite lookup_insert_ne in Hz by done. by apply Hstate.
  - intros z t [_ H]%Hown. by eapply Hl.
  - intros a b t [Ha H1]%Hown [Hb H2]%Hown. pose proof (Hu _ _ _ H1 H2) as E. repeat case_decide; congruence.
  - intros t HL H. destruct (Ho t HL H) as [z Hz]. destruct (decide (z = y)) as [->|Hzy].
    + exists x. apply Hown. split; [done|]. by rewrite decide_True.
    + exists z. apply Hown. split; [done|]. rewrite decide_False; [done|]. intros ->. by destruct (Hx t).
Qed.

Lemma idle_no_owner w x m : objs w !! x = Some m → joinable_ m = false → ∀ t, ¬ owner w x t.
Proof. intros Hm Hj t (n & Hn & Hjn & _). congruence. Qed.

Lemma absent_no_owner w x : objs w !! x = None → ∀ t, ¬ owner w x t.
Proof. intros Hm t (n & Hn & _). congruence. Qed.

Lemma construct_owned topo rc x t name task a w :
  objs w !! x = None → pthreads w !! t = None → Owned w → Owned (construct topo rc true x t name task a w).2.
Proof.
  intros Hx Ht Hok. unfold construct. destruct task as [k|]; [|done]. set (a' := resolve_affinity topo a).
  destruct (start_calls rc a').1; [|done|done]. cbn [snd]. destruct Hok as [Hmis Hstate Hl Hu Ho].
  set (w' := set_obj _ _ _).
  assert (Hnt : ∀ y, ¬ owner w y t). { intros y Hy. apply Hl in Hy. unfold status in Hy. by rewrite Ht in Hy. }
  assert (Hown : ∀ y u, owner w' y u ↔ owner w y u ∨ y = x ∧ u = t ∧ detached a' = false).
  { intros y u. unfold owner. cbn. destruct (decide (x = y)) as [<-|Hne].
    - rewrite lookup_insert_eq, Hx. split.
      + intros (m & [= <-] & Hj & <- & _). cbn in *. right. by apply negb_true_iff in Hj.
      + intros [(? & ? & _)|(_ & -> & Hd)]; [done|]. eexists. split; [done|]. cbn. by rewrite Hd.
    - rewrite lookup_insert_ne by done. naive_solver. }
  assert (Hstat : ∀ u, status w' u = if decide (u = t) then Some (if detached a' then Detached else Joinable) else status w u).
  { intros u. unfold status. cbn. case_decide; [subst; by rewrite lookup_insert_eq|by rewrite lookup_insert_ne]. }
  split; [done| | | |].
  - intros y m Hy Hj. apply Hown. cbn in Hy. destruct (decide (x = y)) as [<-|Hne].
    + rewrite lookup_insert_eq in Hy. injection Hy as <-. cbn in *. right. by apply negb_true_iff in Hj.
    + rewrite lookup_insert_ne in Hy by done. left. by apply Hstate.
  - intros y u [Hy|(-> & -> & Hd)]%Hown; rewrite Hstat; [|by rewrite decide_True, Hd].
    case_decide as E; [subst; by destruct (Hnt y)|by apply (Hl y)].
  - intros y z u [Hy|(-> & -> & Hd)]%Hown [Hz|(-> & E & _)]%Hown; subst; [by eapply Hu| | |done]; by edestruct Hnt.
  - intros u HL. rewrite Hstat. case_decide as E.
    + subst u. destruct (detached a') eqn:Hd; [done|]. intros _. exists x. apply Hown. auto.
    + intros H. destruct (Ho u HL H) as [y Hy]. exists y. apply Hown. by left.
Qed.

Lemma destroy_owned x w : Owned w → Owned (destroy x w).
Proof.
  intros Hok. unfold destroy. destruct (objs w !! x) as [m|] eqn:Hm; [|done].
  assert (Hdel : ∀ y, y ≠ x → delete x (objs w) !! y = objs w !! y) by (intros; by rewrite lookup_delete_ne).
  assert (Hgone : ∀ n, delete x (objs w) !! x = Some n → joinable_ n = false) by (by intros n; rewrite lookup_delete_eq).
  destruct (joinable_ m) eqn:Hj.
  - pose proof (ow_state w Hok x m Hm Hj) as Hown. pose proof Hown as (m' & Hm' & _ & _ & Hs & _). replace m' with m in * by congruence.
    rewrite Hs. cbn [andb]. rewrite retire_objs. by apply (release_owned w x (thread_ m)).
  - rewrite andb_false_r. pose proof (idle_no_owner w x m Hm Hj) as Hx. destruct Hok as [Hmis Hstate Hl Hu Hown].
    assert (Heq : ∀ y t, owner (MkWorld (delete x (objs w)) (pthreads w) (misuse w)) y t ↔ owner w y t).
    { intros y t. unfold owner. cbn. destruct (decide (y = x)) as [->|]; [|by rewrite Hdel].
      rewrite lookup_delete_eq. split; [naive_solver|]. intros H. by destruct (Hx t). }
    split; [done| | | |].
    + intros y n Hy Hjn. apply Heq. cbn in Hy. apply lookup_delete_Some in Hy as [? Hy]. by apply Hstate.
    + intros y t H%Heq. by apply (Hl y).
    + intros y z t H1%Heq H2%Heq. by eapply Hu.
    + intros t HL H. destruct (Hown t HL H) as [y Hy]. exists y. by apply Heq.
Qed.

(** Giving the thread up while the object stays. *)
Lemma surrender_owned w x m st :
  objs w !! x = Some m → joinable_ m = true → st ≠ Joinable → Owned w →
  Owned (set_obj x (MkManaged (thread_ m) false (started_ m) (name_ m) (attributes_ m) None) (retire st (thread_ m) w)).
Proof.
  intros Hm Hj Hst Hok. unfold set_obj. rewrite retire_objs.
  apply (release_owned w x (thread_ m) st); [by apply ow_state|done| | |done].
  - intros y Hy. by rewrite lookup_insert_ne.
  - intros n. rewrite lookup_insert_eq. by intros [= <-].
Qed.

Lemma move_assign_owned x y w : Owned w → Owned (move_assign x y w).
Proof.
  intros Hok. unfold move_assign. destruct (Z.eqb_spec x y) as [|Hxy]; [done|].
  destruct (objs w !! x) as [m|] eqn:Hm; [|done]. destruct (objs w !! y) as [n|] eqn:Hn; [|done].
  destruct (joinable_ m) eqn:Hj; [|apply transfer_owned; [done|by eapply idle_no_owner|done|done]].
  pose proof (surrender_owned w x m Detached Hm Hj ltac:(done) Hok) as H1.
  set (w1 := set_obj x _ _) in H1.
  assert (Hx : objs w1 !! x = Some (MkManaged (thread_ m) false (started_ m) (name_ m) (attributes_ m) None)) by apply lookup_insert_eq.
  assert (Hy : objs w1 !! y = Some n) by (cbn; by rewrite lookup_insert_ne, retire_objs).
  pose proof (transfer_owned w1 x y n Hxy (idle_no_owner w1 x _ Hx eq_refl) Hy H1) as H2.
  unfold w1, set_obj in *. cbn in *. by rewrite insert_insert_eq in H2.
Qed.

Lemma entryPoint_end_owned t threw w : Owned w → Owned (entryPoint_end t threw w).
Proof.
  intros Hok. unfold entryPoint_end. destruct (pthreads w !! t) as [p|] eqn:Hp; [|done].
  destruct Hok as [Hmis Hstate Hl Hu Ho]. set (w' := MkWorld _ _ _).
  assert (Hstat : ∀ u, status w' u = status w u).
  { intros u. unfold status. cbn. destruct (decide (t = u)) as [<-|]; [by rewrite lookup_insert_eq, Hp|by rewrite lookup_insert_ne]. }
  split; [done|done| |done|].
  - intros y u Hy. rewrite Hstat. by apply (Hl y).
  - intros u. rewrite Hstat. apply Ho.
Qed.

Lemma world_step_owned w w' : world_step w w' → Owned w → Owned w'.
Proof.
  intros [x w0 Hx|topo rc x t name task a w0 Hx Ht|x w0|x y w0|x y w0 Hx|rc x w0 _|rc x w0|t threw w0] Hok.
  - apply set_idle_owned; [by apply absent_no_owner|done|done].
  - by apply construct_owned.
  - by apply destroy_owned.
  - by apply move_assign_owned.
  - apply move_assign_owned, set_idle_owned; [by apply absent_no_owner|done|done].
  - unfold join. destruct (objs w0 !! x) as [m|] eqn:Hm; [|done]. destruct (joinable_ m) eqn:Hj; [|done].
    destruct (rc =? 0); [|done]. by apply surrender_owned.
  - unfold detach. destruct (objs w0 !! x) as [m|] eqn:Hm; [|done]. destruct (joinable_ m) eqn:Hj; [|done].
    destruct (rc =? 0); [|done]. by apply surrender_owned.
  - by apply entryPoint_end_owned.
Qed.

End leaks.

(** A constructor that throws after making the thread leaves the thread. *)
Lemma construct_leaks L topo rc x t name task a w :
  pthreads w !! t = None → Owned L w → Owned ({[t]} ∪ L) (construct topo rc false x t name task a w).2.
Proof.
  intros Ht [Hmis Hstate Hl Hu Ho]. unfold construct.
  assert (Hmore : Owned ({[t]} ∪ L) w) by (split; [done..|]; intros u Hu'; apply Ho; set_solver).
  destruct task as [k|]; [|done]. destruct (start_calls rc _).1; [|done|done]. cbn [snd].
  split; [done|done| |done|].
  - intros y u Hy. unfold status. cbn. rewrite lookup_insert_ne; [by apply (Hl y)|].
    intros <-. apply Hl in Hy. unfold status in Hy. by rewrite Ht in Hy.
  - intros u Hu'. unfold status. cbn. rewrite lookup_insert_ne by set_solver. apply Ho. set_solver.
Qed.

(** Threads are neither leaked nor joined twice.  However objects are
    built, moved, assigned, joined, detached and destroyed (with an observer
    that returns), no thread is ever joined or detached twice, the joinable
    threads are exactly those owned by an object, each by one, and joining an
    owned thread rethrows precisely the exception its entry point stored. *)
Theorem managed_thread_ownership w x t :
  rtc world_step newWorld w →
  misuse w = false ∧ (status w t = Some Joinable → ∃ y, owner w y t ∧ ∀ z, owner w z t → z = y) ∧
  (owner w x t → status w t = Some Joinable ∧ (join 0 x w).1 = match pthreads w !! t ≫= pexn with Some e => Throw e | None => Ok tt end ∧
     (join 0 x (join 0 x w).2).1 = Ok tt).
Proof.
  intros Hr. assert (Hok : Owned ∅ w).
  { refine (rtc_invariant world_step (Owned ∅) newWorld w (world_step_owned ∅) Hr _).
    split; [done|done| | |]; try (by intros ? ? (? & ? & _)); [by intros ? ? ? (? & ? & _)|done]. }
  split_and!; [by destruct Hok| |].
  - intros Hj. destruct (ow_owned ∅ w Hok t ltac:(set_solver) Hj) as [y Hy]. exists y. split; [done|]. intros z Hz. by eapply ow_unique.
  - intros Hown. split; [by eapply ow_live|]. destruct Hown as (m & Hm & Hj & <- & Hs & Hst).
    unfold join. rewrite Hm, Hj. cbn [negb]. rewrite Z.eqb_refl. cbn [negb fst snd]. rewrite Hst. split; [done|].
    cbn. by rewrite lookup_insert_eq.
Qed.

Definition no_attrs : ThreadAttributes := MkAttrs None None None None None None false.
Definition no_topology : SystemTopology := MkTopo [] [] ∅ ∅.

(** Two objects: one thread is built, moved to the other object, and throws. *)
Definition sample_world : World :=
  entryPoint_end 9 (Some LogicError)
    (move_construct 2 1 (construct no_topology (λ _, 0) true 1 9 [] (Some 5) no_attrs newWorld).2).

Lemma managed_thread_ownership_witness :
  (join 0 2 sample_world).1 = Throw LogicError ∧ (join 0 2 (join 0 2 sample_world).2).1 = Ok tt.
Proof.
  assert (Hr : rtc world_step newWorld sample_world).
  { eapply rtc_l; [by apply (W_construct no_topology (λ _, 0) 1 9 [] (Some 5) no_attrs)|].
    eapply rtc_l; [by apply (W_move_construct 2 1)|]. eapply rtc_l; [apply (W_end 9 (Some LogicError))|]. apply rtc_refl. }
  refine (proj2 (proj2 (proj2 (managed_thread_ownership sample_world 2 9 Hr)) _)).
  eexists. split; [by vm_compute|]. by vm_compute.
Defined.

(** An observer that throws on the Created event leaks the thread: it is
    joinable and no object owns it. *)
Lemma observer_throw_leaks :
  let w := (construct no_topology (λ _, 0) false 1 9 [] (Some 5) no_attrs newWorld).2 in
  status w 9 = Some Joinable ∧ ∀ x, ¬ owner w x 9.
Proof. split; [done|]. by intros x (m & Hm & _). Qed.

(** The attribute object is destroyed exactly once whenever it was initialised,
    and the thread is created only if every call before succeeded. *)
Lemma start_calls_balanced rc a :
  let '(r, cs) := start_calls rc a in
  (rc AttrInit = 0 → ∃ done, cs = AttrInit :: done ++ [AttrDestroy] ∧ AttrDestroy ∉ done) ∧
  (r = Ok tt → Forall (λ c, rc c = 0) (AttrInit :: attr_calls a ++ [Create])).
Proof.
  assert (Hrun : ∀ cs, let '(r, done) := run_calls rc cs in
    (∀ c, c ∈ done → c ∈ cs) ∧ (r = Ok tt → Forall (λ c, rc c = 0) cs)).
  { induction cs as [|c cs IH]; cbn; [by split; [|constructor]|]. destruct (Z.eqb_spec (rc c) 0) as [Hz|]; cbn.
    - destruct (run_calls rc cs) as [r done]. destruct IH as [H1 H2]. split; [set_solver|]. intros E. constructor; [done|by apply H2].
    - split; [set_solver|done]. }
  assert (Hno : AttrDestroy ∉ attr_calls a ++ [Create]).
  { unfold attr_calls, sched_calls, opt_call. repeat case_match; set_solver. }
  unfold start_calls. destruct (Z.eqb_spec (rc AttrInit) 0) as [Hz|]; cbn; [|by split].
  specialize (Hrun (attr_calls a ++ [Create])). destruct (run_calls _ _) as [r done]. destruct Hrun as [H1 H2]. split.
  - intros _. exists done. split; [done|]. intros H. by apply Hno, H1.
  - intros E. constructor; [done|by apply H2].
Qed.

(** [joinAll] stops at the first thread that rethrows: the rest stay joinable. *)
Lemma joinAll_stops rc x xs w e :
  (join (rc x) x w).1 = Throw e → joinAll rc (x :: xs) w = join (rc x) x w.
Proof. intros H. unfold joinAll. cbn. destruct (join (rc x) x w) as [[]]; simplify_eq/=. done. Qed.
