(* ===== verification/ThreadControl.v ===== *)
(** * Cancellation, pausing and task scopes
      (src/src/cancellable_thread.cpp, pausable_thread.cpp,
       include/pman/structured.hpp)

    Three small monitors over a thread: the handlers a cancellation runs, the
    handshake of [pause] with [checkPause], and the threads of a [TaskScope].
    Sections under one mutex are single steps; a wait on a condition variable
    gives the mutex up and may end at any time, and every step may be
    interleaved with those of other threads. *)

From S2P Require Import Prelude.

(** ** Cancellation *)

Module Cancel.

(** Where a call of [cancel] is: about to take the handlers, or running the
    ones it took. *)
Inductive canceller := Taking | Running (todo : list Z).

(** [CancellationState], the calls of [cancel] under way, and the records the
    theorem is about: handlers registered (in order), run and dismissed. *)
Record State := MkState {
  cancelled : bool;
  cleanupHandlers : list (option Z);
  cancellers : list canceller;
  registered : list Z;
  ran : list Z;
  dismissed : list Z
}.

Definition newState : State := MkState false [] [] [] [] [].

(** A [CleanupGuard]; [None] is the default one, which is not active. *)
Definition guard := option nat.

(** [onCancel] with a new handler, under the mutex. *)
Definition onCancel (h : Z) (s : State) : guard * State :=
  if cancelled s
  then (None, MkState (cancelled s) (cleanupHandlers s) (cancellers s) (registered s ++ [h]) (ran s ++ [h]) (dismissed s))
  else (Some (length (cleanupHandlers s)),
        MkState (cancelled s) (cleanupHandlers s ++ [Some h]) (cancellers s) (registered s ++ [h]) (ran s) (dismissed s)).

(** [dismiss] of an active guard. *)
Definition dismiss (index : nat) (s : State) : State :=
  if (index <? length (cleanupHandlers s))%nat
  then MkState (cancelled s) (<[index := None]> (cleanupHandlers s)) (cancellers s) (registered s) (ran s)
         (dismissed s ++ option_list (cleanupHandlers s !! index ≫= id))
  else s.

(** [cancel]: the flag, then [runCleanupHandlers]. *)
Definition cancel (s : State) : State :=
  MkState true (cleanupHandlers s) (cancellers s ++ [Taking]) (registered s) (ran s) (dismissed s).

(** The handlers that run, last registered first. *)
Definition to_run (hs : list (option Z)) : list Z := reverse (omap id hs).

(** The lock section of [runCleanupHandlers]. *)
Definition take_handlers (k : nat) (s : State) : State :=
  match cancellers s !! k with
  | Some Taking => MkState (cancelled s) [] (<[k := Running (to_run (cleanupHandlers s))]> (cancellers s))
                     (registered s) (ran s) (dismissed s)
  | _ => s
  end.

(** One handler of the loop after it; an exception is swallowed. *)
Definition run_next (k : nat) (s : State) : State :=
  match cancellers s !! k with
  | Some (Running (h :: todo)) =>
      MkState (cancelled s) (cleanupHandlers s) (<[k := Running todo]> (cancellers s)) (registered s) (ran s ++ [h]) (dismissed s)
  | _ => s
  end.

(** The system with the guards the task still holds (index and handler) and the
    handlers whose guard was dismissed or destroyed. *)
Record System := MkSystem { st : State; guards : list (nat * Z); dropped : list Z }.

Definition keep_guard (g : guard) (h : Z) (gs : list (nat * Z)) : list (nat * Z) :=
  match g with Some i => gs ++ [(i, h)] | None => gs end.

Inductive step : relation System :=
  | S_onCancel h s gs ds : h ∉ registered s →
      step (MkSystem s gs ds) (MkSystem (onCancel h s).2 (keep_guard (onCancel h s).1 h gs) ds)
  | S_dismiss i h s gs1 gs2 ds :
      step (MkSystem s (gs1 ++ (i, h) :: gs2) ds) (MkSystem (dismiss i s) (gs1 ++ gs2) (h :: ds))
  | S_cancel s gs ds : step (MkSystem s gs ds) (MkSystem (cancel s) gs ds)
  | S_take k s gs ds : step (MkSystem s gs ds) (MkSystem (take_handlers k s) gs ds)
  | S_run k s gs ds : step (MkSystem s gs ds) (MkSystem (run_next k s) gs ds).

Definition todo_of (c : canceller) : list Z := match c with Taking => [] | Running l => l end.
Definition pending (s : State) : list Z := cancellers s ≫= todo_of.

(** The handlers were taken, after which the flag stays up and none is
    registered. *)
Definition taken (s : State) : Prop := cleanupHandlers s = [] ∧ cancelled s = true.

(** Every handler registered is in exactly one place; until the handlers are
    taken a guard points at its own handler. *)
Record Inv (y : System) : Prop := {
  inv_nodup : NoDup (registered (st y));
  inv_once : registered (st y) ≡ₚ ran (st y) ++ pending (st y) ++ omap id (cleanupHandlers (st y)) ++ dismissed (st y);
  inv_flag : cancelled (st y) = true ↔ cancellers (st y) ≠ [];
  inv_guards : taken (st y) ∨ NoDup (guards y).*1 ∧ ∀ i h, (i, h) ∈ guards y → cleanupHandlers (st y) !! i = Some (Some h);
  inv_taken : Forall (λ c, c = Taking) (cancellers (st y)) ∨ taken (st y);
  inv_dropped : ∀ h, h ∈ dismissed (st y) → h ∈ dropped y
}.

Lemma pending_insert_take cs k l :
  cs !! k = Some Taking → (<[k := Running l]> cs ≫= todo_of) ≡ₚ l ++ (cs ≫= todo_of).
Proof.
  revert k. induction cs as [|c cs IH]; intros [|k] Hk; [done|done|cbn in Hk; by injection Hk as ->|].
  cbn in *. rewrite IH by done. rewrite !(assoc_L (++)). by rewrite (Permutation_app_comm (todo_of c) l).
Qed.

Lemma pending_insert_run cs k h l :
  cs !! k = Some (Running (h :: l)) → (cs ≫= todo_of) ≡ₚ h :: (<[k := Running l]> cs ≫= todo_of).
Proof.
  revert k. induction cs as [|c cs IH]; intros [|k] Hk; [done|done|cbn in Hk; by injection Hk as ->|].
  cbn in *. rewrite (IH k) by done. by rewrite <- Permutation_middle.
Qed.

Lemma omap_insert_none (hs : list (option Z)) i :
  (i < length hs)%nat → omap id hs ≡ₚ omap id (<[i := None]> hs) ++ option_list (hs !! i ≫= id).
Proof.
  revert i. induction hs as [|o hs IH]; intros [|i] Hi; cbn in *; [lia|lia| |].
  - destruct o as [h|]; cbn; [|by rewrite app_nil_r]. by rewrite Permutation_app_comm.
  - specialize (IH i ltac:(lia)). destruct o as [h|]; cbn; by rewrite IH.
Qed.

Lemma onCancel_inv h s gs ds :
  h ∉ registered s → Inv (MkSystem s gs ds) →
  Inv (MkSystem (onCancel h s).2 (keep_guard (onCancel h s).1 h gs) ds).
Proof.
  intros Hh [Hn Ho Hf Hg Ht Hd]. cbn in *. unfold onCancel.
  assert (Hn' : NoDup (registered s ++ [h])).
  { apply NoDup_app. split_and!; [done| |apply NoDup_singleton]. intros x Hx ->%list_elem_of_singleton. done. }
  destruct (cancelled s) eqn:Hc; cbn [fst snd keep_guard].
  - split; cbn; [done| |exact Hf|unfold taken in *; cbn; by rewrite Hc in Hg|unfold taken in *; cbn; by rewrite Hc in Ht|done].
    unfold pending in *. cbn. rewrite Ho. rewrite <- !(assoc_L (++)). apply Permutation_app_head.
    rewrite !(assoc_L (++)), <- (Permutation_cons_append _ h). by rewrite <- !(assoc_L (++)).
  - destruct Hg as [[_ Hg]|[Hnd Hg]]; [congruence|]. destruct Ht as [Ht|[_ Ht]]; [|congruence].
    split; cbn; [done| |exact Hf| |by left|done].
    + unfold pending in *. cbn. rewrite Ho, omap_app. cbn. rewrite <- !(assoc_L (++)). do 3 apply Permutation_app_head.
      apply Permutation_app_comm.
    + right. assert (Hlt : ∀ i x, (i, x) ∈ gs → (i < length (cleanupHandlers s))%nat).
      { intros i x Hx. apply Hg in Hx. by apply lookup_lt_Some in Hx. }
      rewrite fmap_app. split.
      * apply NoDup_app. split_and!; [done| |apply NoDup_singleton]. intros i Hi Hi'.
        apply list_elem_of_fmap in Hi as ([? x] & -> & Hx). apply Hlt in Hx. cbn in Hi'.
        apply list_elem_of_singleton in Hi'. cbn in *. lia.
      * intros i x [Hx|Hx]%elem_of_app.
        -- rewrite lookup_app_l by (by eapply Hlt). by apply Hg.
        -- apply list_elem_of_singleton in Hx. injection Hx as -> ->. by apply list_lookup_middle.
Qed.

Lemma dismiss_inv i h s gs1 gs2 ds :
  Inv (MkSystem s (gs1 ++ (i, h) :: gs2) ds) → Inv (MkSystem (dismiss i s) (gs1 ++ gs2) (h :: ds)).
Proof.
  intros [Hn Ho Hf Hg Ht Hd]. cbn in *. unfold dismiss. destruct Hg as [[Hc Hc']|[Hnd Hg]].
  - rewrite Hc. cbn. split; cbn; [done|done|done|by left|done|]. intros x Hx. right. by apply Hd.
  - rewrite fmap_app in Hnd. cbn in Hnd. pose proof (Hg i h ltac:(set_solver)) as Hi.
    pose proof (lookup_lt_Some _ _ _ Hi) as Hlt. destruct (Nat.ltb_spec i (length (cleanupHandlers s))); [|lia].
    split; cbn; [done| |done| | |].
    + unfold pending in *. cbn. rewrite Ho, (omap_insert_none (cleanupHandlers s) i) by done.
      rewrite <- !(assoc_L (++)). do 3 apply Permutation_app_head. apply Permutation_app_comm.
    + right. split.
      * rewrite fmap_app. apply (NoDup_sub _ (gs1.*1 ++ i :: gs2.*1)); [|done]. apply submseteq_app; [done|by apply submseteq_cons].
      * intros j x Hx. assert (j ≠ i) as Hji.
        { intros ->. assert (i ∈ (gs1 ++ gs2).*1) as Hin by (apply list_elem_of_fmap; by exists (i, x)).
          rewrite fmap_app in Hin. rewrite <- Permutation_middle in Hnd. by apply NoDup_cons in Hnd as [? _]. }
        rewrite list_lookup_insert_ne by done. apply Hg. set_solver.
    + destruct Ht as [Ht|[E _]]; [by left|]. by rewrite E in Hi.
    + intros x [Hx|Hx]%elem_of_app; [right; by apply Hd|]. rewrite Hi in Hx. cbn in Hx. apply list_elem_of_singleton in Hx as ->. left.
Qed.

Lemma cancel_step_inv y y' : step y y' → Inv y → Inv y'.
Proof.
  intros [h s gs ds Hh|i h s gs1 gs2 ds|s gs ds|k s gs ds|k s gs ds] Hi;
    [by apply onCancel_inv|by apply dismiss_inv|..]; destruct Hi as [Hn Ho Hf Hg Ht Hd]; cbn in *.
  - split; cbn; [done| | | | |done].
    + unfold pending in *. cbn. rewrite bind_app. cbn. by rewrite app_nil_r.
    + split; [|done]. by intros _ [_ ?]%app_nil.
    + destruct Hg as [[? ?]|Hg]; [by left|by right].
    + destruct Ht as [Ht|[? ?]]; [left|by right]. apply Forall_app. split; [done|]. by repeat constructor.
  - unfold take_handlers. destruct (cancellers s !! k) as [[|l]|] eqn:Hk; [|by split..].
    assert (Hc : cancelled s = true). { apply Hf. by intros E; rewrite E in Hk. }
    split; cbn; [done| | |by left|by right|done].
    + unfold pending in *. cbn. rewrite (pending_insert_take _ _ _ Hk), Ho. unfold to_run. rewrite reverse_Permutation.
      apply Permutation_app_head. rewrite !(assoc_L (++)). apply Permutation_app_tail. apply Permutation_app_comm.
    + rewrite Hf. split; intros H E; apply H; apply (f_equal length) in E; rewrite ?length_insert in E; cbn in E.
      * by apply length_zero_iff_nil in E.
      * rewrite <- length_zero_iff_nil. by rewrite length_insert.
  - unfold run_next. destruct (cancellers s !! k) as [[|[|h l]]|] eqn:Hk; [by split|by split| |by split].
    split; cbn; [done| | | | |done].
    + unfold pending in *. cbn. rewrite Ho, (pending_insert_run _ _ _ _ Hk). rewrite <- !(assoc_L (++)). by cbn.
    + rewrite Hf. rewrite <- !length_zero_iff_nil. by rewrite length_insert.
    + destruct Hg as [[? ?]|Hg]; [by left|by right].
    + destruct Ht as [Ht|[? ?]]; [|by right]. rewrite Forall_lookup in Ht. by specialize (Ht k _ Hk).
Qed.

(** C12: Cancellation loses no handler and runs none twice, however [cancel]
    calls, registrations and dismissals of several threads interleave: in every
    reachable state no handler has run twice, and once a cancellation was
    requested and its calls have finished, every handler registered, before or
    after, has run exactly once, except those whose own guard was dismissed. *)
Theorem cancel_runs_handlers_once y :
  rtc step (MkSystem newState [] []) y →
  NoDup (ran (st y)) ∧ (∀ h, h ∈ ran (st y) → h ∈ registered (st y)) ∧
  (cancelled (st y) = true → Forall (λ c, c = Running []) (cancellers (st y)) →
   registered (st y) ≡ₚ ran (st y) ++ dismissed (st y) ∧ ∀ h, h ∈ registered (st y) → h ∈ ran (st y) ∨ h ∈ dropped y).
Proof.
  intros Hr. assert (Inv y) as [Hn Ho Hf Hg Ht Hd].
  { refine (rtc_invariant step Inv _ y cancel_step_inv Hr _).
    split; cbn; [constructor|done|done| |by left|done]. right. split; [constructor|]. by intros ? ? ?%elem_of_nil. }
  split_and!.
  - rewrite Ho in Hn. by apply NoDup_app in Hn as [? _].
  - intros h Hh. rewrite Ho. apply elem_of_app. by left.
  - intros Hc Hdone.
    assert (Hp : pending (st y) = []).
    { unfold pending. clear -Hdone. induction Hdone as [|c cs -> _ IH]; [done|]. cbn. by rewrite IH. }
    assert (Hh : cleanupHandlers (st y) = []).
    { destruct Ht as [Ht|[? _]]; [|done]. destruct (proj1 Hf Hc). destruct (cancellers (st y)) as [|c cs]; [done|].
      inversion_clear Ht. inversion_clear Hdone. congruence. }
    assert (Hperm : registered (st y) ≡ₚ ran (st y) ++ dismissed (st y)) by (rewrite Ho, Hp, Hh; done).
    split; [done|]. intros h. rewrite Hperm. intros [?|?]%elem_of_app; [by left|right; by apply Hd].
Qed.

(** A run: two handlers, the first dismissed, then a cancellation, and a third
    registered after it. *)
Definition sample : System :=
  let s1 := (onCancel 7 newState).2 in
  let s2 := (onCancel 8 s1).2 in
  let s3 := cancel (dismiss 0 s2) in
  MkSystem (onCancel 9 (run_next 0 (take_handlers 0 s3))).2 [(1%nat, 8)] [7].

Lemma cancel_sample_reachable : rtc step (MkSystem newState [] []) sample.
Proof.
  eapply rtc_l; [apply (S_onCancel 7); by apply not_elem_of_nil|].
  eapply rtc_l; [apply (S_onCancel 8); by apply (bool_decide_eq_false_1 (8 ∈ [7]))|].
  eapply rtc_l; [apply (S_dismiss 0 7 _ [] [(1%nat, 8)])|]. eapply rtc_l; [apply S_cancel|].
  eapply rtc_l; [apply (S_take 0)|]. eapply rtc_l; [apply (S_run 0)|].
  eapply rtc_l; [apply (S_onCancel 9); by apply (bool_decide_eq_false_1 (9 ∈ [7; 8]))|]. apply rtc_refl.
Qed.

Lemma cancel_runs_handlers_once_witness :
  registered (st sample) ≡ₚ ran (st sample) ++ dismissed (st sample) ∧ ran (st sample) = [8; 9].
Proof.
  split; [|done]. refine (proj1 (proj2 (proj2 (cancel_runs_handlers_once sample cancel_sample_reachable)) _ _)); [done|].
  repeat constructor.
Defined.

(** A guard may be dismissed, and the handler's captures be gone, while a
    cancellation that already took the handler still runs it. *)
Lemma dismissed_handler_runs :
  ∃ y, rtc step (MkSystem newState [] []) y ∧ dropped y = [7] ∧ ran (st y) = [] ∧
    rtc step y (MkSystem (run_next 0 (st y)) (guards y) (dropped y)) ∧ ran (run_next 0 (st y)) = [7].
Proof.
  exists (MkSystem (dismiss 0 (take_handlers 0 (cancel (onCancel 7 newState).2))) [] [7]). split_and!; [|done|done| |done].
  - eapply rtc_l; [apply (S_onCancel 7); by apply not_elem_of_nil|]. eapply rtc_l; [apply S_cancel|].
    eapply rtc_l; [apply (S_take 0)|]. eapply rtc_l; [apply (S_dismiss 0 7 _ [] [])|]. apply rtc_refl.
  - apply rtc_once, S_run.
Qed.
End Cancel.

(** ** Pausing *)

Module Pause.

(** Where the task's thread is: in the task, in [checkPause] after each of its
    two reads, in the wait on [resumeCv] (asleep, or woken and about to look
    again), ended by the stop exception, or past the end of the task. *)
Inductive task_pc := InTask | ReadStop | Entering | Asleep | Awake | Exited | Finished.

(** A call of [pause]: waiting on [pauseCv], or returned. *)
Inductive pause_pc := PWaiting | PReturned.

Record System := MkSystem {
  pauseRequested : bool;
  stopRequested : bool;
  paused : bool;
  joinable : bool;
  task : task_pc;
  pausers : list pause_pc
}.

Definition set_task (t : task_pc) (s : System) : System :=
  MkSystem (pauseRequested s) (stopRequested s) (paused s) (joinable s) t (pausers s).

(** The loop of [checkPause] from its test on, under the mutex. *)
Definition pause_loop (s : System) : System :=
  if pauseRequested s && negb (stopRequested s)
  then MkSystem (pauseRequested s) (stopRequested s) true (joinable s) Asleep (pausers s)
  else MkSystem (pauseRequested s) (stopRequested s) false (joinable s)
         (if stopRequested s then Exited else InTask) (pausers s).

(** [checkPause], one step per read outside the mutex and per lock section. *)
Definition checkPause (s : System) : System :=
  match task s with
  | InTask => set_task (if stopRequested s then Exited else ReadStop) s
  | ReadStop => set_task (if pauseRequested s then Entering else InTask) s
  | Entering | Awake => pause_loop s
  | Asleep | Exited | Finished => s
  end.

(** [resumeCv.notify_all()]. *)
Definition notify_resume (s : System) : System :=
  match task s with Asleep => set_task Awake s | _ => s end.

(** The loop test of [pause]. *)
Definition pause_test (s : System) : pause_pc :=
  if paused s || stopRequested s || negb (joinable s) then PReturned else PWaiting.

Definition pause (s : System) : System :=
  let s1 := MkSystem true (stopRequested s) (paused s) (joinable s) (task s) (pausers s) in
  MkSystem true (stopRequested s) (paused s) (joinable s) (task s) (pausers s ++ [pause_test s1]).

(** A waiting [pause] looks again, notified or after 100 ms. *)
Definition pause_again (k : nat) (s : System) : System :=
  match pausers s !! k with
  | Some PWaiting => MkSystem (pauseRequested s) (stopRequested s) (paused s) (joinable s) (task s) (<[k := pause_test s]> (pausers s))
  | _ => s
  end.

Definition resume (s : System) : System :=
  notify_resume (MkSystem false (stopRequested s) (paused s) (joinable s) (task s) (pausers s)).

Definition requestStop (s : System) : System :=
  notify_resume (MkSystem false true (paused s) (joinable s) (task s) (pausers s)).

Definition join (s : System) : System :=
  match task s with
  | Exited | Finished => MkSystem (pauseRequested s) (stopRequested s) (paused s) false (task s) (pausers s)
  | _ => s
  end.

Definition isPaused (s : System) : bool := paused s.

(** Steps that do not give the pause up: the task's, and any [pause]. *)
Inductive quiet_step : relation System :=
  | Q_check s : quiet_step s (checkPause s)
  | Q_spurious s : task s = Asleep → quiet_step s (set_task Awake s)
  | Q_finish s : task s = InTask → quiet_step s (set_task Finished s)
  | Q_pause s : quiet_step s (pause s)
  | Q_pause_again k s : quiet_step s (pause_again k s).

Inductive step : relation System :=
  | S_quiet s s' : quiet_step s s' → step s s'
  | S_resume s : step s (resume s)
  | S_stop s : step s (requestStop s)
  | S_join s : step s (join s).

Definition newSystem : System := MkSystem false false false true InTask [].

(** In the wait exactly while [paused] is up, and asleep only while the pause is
    wanted. *)
Record Inv (s : System) : Prop := {
  inv_paused : paused s = true ↔ task s = Asleep ∨ task s = Awake;
  inv_asleep : task s = Asleep → pauseRequested s = true ∧ stopRequested s = false
}.

Lemma quiet_inv s s' : quiet_step s s' → Inv s → Inv s'.
Proof.
  intros Hstep [Hp Ha].
  destruct Hstep as [s|s Hs|s Hs|s|k s].
  - unfold checkPause, pause_loop, set_task. destruct s as [p t q j [] ps]; cbn in *;
      try (split; cbn; [|done]; naive_solver);
      destruct p, t; cbn; split; cbn; naive_solver.
  - split; cbn; [rewrite Hp, Hs; naive_solver|done].
  - split; cbn; [rewrite Hp, Hs; naive_solver|done].
  - split; cbn; [done|]. intros H. by destruct (Ha H).
  - unfold pause_again. destruct (pausers s !! k) as [[]|]; [by split; cbn|by split|by split].
Qed.

Lemma pause_step_inv s s' : step s s' → Inv s → Inv s'.
Proof.
  intros [s0 s1 Hq|s0|s0|s0] Hi; [by eapply quiet_inv|..]; destruct Hi as [Hp Ha];
    destruct s0 as [p t q j [] ps]; cbn in *; split; cbn in *; naive_solver.
Qed.

(** The pause handshake.  In every reachable state [isPaused] is true
    exactly while the task's thread is inside [checkPause]'s wait, so the task
    itself makes no progress; from such a state with the pause still requested,
    nothing but [resume] or [requestStop] lets it go on; and it is asleep only
    while the pause is wanted, so neither call is ever lost. *)
Theorem pause_holds s :
  rtc step newSystem s →
  (isPaused s = true ↔ task s = Asleep ∨ task s = Awake) ∧
  (task s = Asleep → pauseRequested s = true ∧ stopRequested s = false) ∧
  (isPaused s = true → pauseRequested s = true → stopRequested s = false →
   ∀ s', rtc quiet_step s s' → isPaused s' = true ∧ (task s' = Asleep ∨ task s' = Awake)).
Proof.
  intros Hr. assert (Hi : Inv s).
  { refine (rtc_invariant step Inv _ s pause_step_inv Hr _). split; cbn; naive_solver. }
  pose proof Hi as [Hp Ha]. split_and!; [done|done|]. intros H1 H2 H3 s' Hq.
  assert (H : Inv s' ∧ paused s' = true ∧ pauseRequested s' = true ∧ stopRequested s' = false).
  { refine (rtc_invariant quiet_step (λ s, Inv s ∧ paused s = true ∧ pauseRequested s = true ∧ stopRequested s = false) s s' _ Hq _); [|done].
    clear. intros a b Hstep (Hi & H1 & H2 & H3). split; [by eapply quiet_inv|]. destruct Hi as [Hp Ha].
    apply Hp in H1 as Ht. destruct Hstep as [s|s Hs|s Hs|s|k s]; [|done| |done|].
    - unfold checkPause, pause_loop. destruct Ht as [Ht|Ht]; rewrite Ht; [done|]. by rewrite H2, H3.
    - rewrite Hs in Ht. naive_solver.
    - unfold pause_again. by destruct (pausers s !! k) as [[]|]. }
  destruct H as (Hi' & Hps & _). split; [done|]. by apply (inv_paused s' Hi').
Qed.

Definition sample : System := checkPause (checkPause (checkPause (pause newSystem))).

Lemma pause_sample_reachable : rtc step newSystem sample.
Proof.
  eapply rtc_l; [apply S_quiet, Q_pause|]. do 3 (eapply rtc_l; [apply S_quiet, Q_check|]). apply rtc_refl.
Qed.

Lemma pause_holds_witness : isPaused (checkPause (set_task Awake sample)) = true.
Proof.
  refine (proj1 (proj2 (proj2 (pause_holds sample pause_sample_reachable)) _ _ _ _ _)); [done|done|done|].
  eapply rtc_l; [by apply Q_spurious|]. apply rtc_once, Q_check.
Defined.

(** [pause] on a thread whose task has already ended never returns: the
    thread stays joinable, so its loop keeps polling, whatever else happens
    short of a [requestStop] or a [join]. *)
Theorem pause_stuck k s s' :
  rtc step newSystem s → task s = Finished → pausers s !! k = Some PWaiting →
  joinable s = true → stopRequested s = false →
  rtc (λ a b, quiet_step a b ∨ b = resume a) s s' → pausers s' !! k = Some PWaiting.
Proof.
  intros Hreach Ht Hk Hj Hs Hr.
  assert (Hp : paused s = false).
  { assert (Inv s) as [Hp _] by (refine (rtc_invariant step Inv _ s pause_step_inv Hreach _); split; cbn; naive_solver).
    destruct (paused s); [|done]. rewrite Ht in Hp. naive_solver. }
  assert (H : task s' = Finished ∧ pausers s' !! k = Some PWaiting ∧ joinable s' = true ∧ stopRequested s' = false ∧ paused s' = false);
    [|by destruct H as (? & ? & _)].
  refine (rtc_invariant _ (λ s, task s = Finished ∧ pausers s !! k = Some PWaiting ∧ joinable s = true ∧ stopRequested s = false ∧ paused s = false) s s' _ Hr _); [|done].
  clear. intros a b [Hstep|Hb] (Ht & Hk & Hj & Hs & Hp).
  - destruct Hstep as [s|s Ha|s Ha|s|i s]; [|congruence|congruence| |].
    + unfold checkPause. by rewrite Ht.
    + cbn. split_and!; [done| |done|done|done]. by apply lookup_app_l_Some.
    + unfold pause_again. destruct (pausers s !! i) as [[]|] eqn:Hi; [|done|done]. cbn. split_and!; [done| |done|done|done].
      unfold pause_test. rewrite Hp, Hs, Hj. cbn. destruct (decide (i = k)) as [->|]; [|by rewrite list_lookup_insert_ne].
      apply list_lookup_insert_eq. by eapply lookup_lt_Some.
  - subst b. unfold resume, notify_resume. cbn. by rewrite Ht.
Qed.

Definition finished_sample : System := pause (set_task Finished newSystem).

Lemma pause_stuck_witness : pausers (pause_again 0 (pause_again 0 finished_sample)) !! 0%nat = Some PWaiting.
Proof.
  apply (pause_stuck 0 finished_sample (pause_again 0 (pause_again 0 finished_sample))); try done.
  eapply rtc_l; [apply S_quiet; by apply Q_finish|]. apply rtc_once, S_quiet, Q_pause.
Defined.
End Pause.

(** ** Task scopes *)

Module Scope.

(** [TaskScope], the threads that still run, and a [join] under way: the
    threads it took from [threads_] and has not yet joined. *)
Record TaskScope := MkScope {
  threads_ : list Z;
  stop_requested : bool;
  exception_ : option exn;
  joined_ : bool;
  exceptionPropagated_ : bool;
  running : list Z;
  joining : option (list Z)
}.

Definition newScope : TaskScope := MkScope [] false None false false [] None.

(** [spawn], under the mutex. *)
Definition spawn (t : Z) (s : TaskScope) : outcome TaskScope :=
  if joined_ s then Throw LogicError
  else Ok (MkScope (threads_ s ++ [t]) (stop_requested s) (exception_ s) (joined_ s) (exceptionPropagated_ s)
             (running s ++ [t]) (joining s)).

(** The end of a task: the first exception is kept and the others asked to
    stop. *)
Definition task_end (t : Z) (threw : option exn) (s : TaskScope) : TaskScope :=
  let running' := filter (λ u, u ≠ t) (running s) in
  match threw with
  | None => MkScope (threads_ s) (stop_requested s) (exception_ s) (joined_ s) (exceptionPropagated_ s) running' (joining s)
  | Some e => MkScope (threads_ s) true (match exception_ s with None => Some e | x => x end) (joined_ s)
                (exceptionPropagated_ s) running' (joining s)
  end.

Definition scope_cancel (s : TaskScope) : TaskScope :=
  MkScope (threads_ s) true (exception_ s) (joined_ s) (exceptionPropagated_ s) (running s) (joining s).

(** [join]: the swap, one [thread.join] after the other, and the last lock
    section with what is rethrown. *)
Definition join_swap (s : TaskScope) : TaskScope :=
  MkScope [] (stop_requested s) (exception_ s) (joined_ s) (exceptionPropagated_ s) (running s) (Some (threads_ s)).

Definition join_next (s : TaskScope) : option TaskScope :=
  match joining s with
  | Some (t :: ts) =>
      if bool_decide (t ∈ running s) then None
      else Some (MkScope (threads_ s) (stop_requested s) (exception_ s) (joined_ s) (exceptionPropagated_ s) (running s) (Some ts))
  | _ => None
  end.

Definition join_finish (s : TaskScope) : outcome unit * TaskScope :=
  let rethrow := match exception_ s with Some e => if exceptionPropagated_ s then None else Some e | None => None end in
  (match rethrow with Some e => Throw e | None => Ok tt end,
   MkScope (threads_ s) (stop_requested s) None true
     (match rethrow with Some _ => true | None => exceptionPropagated_ s end) (running s) None).

(** What the destructor does once [joined_] is up: destroying a vector that
    holds a joinable thread ends the program. *)
Definition destroy_terminates (s : TaskScope) : bool := joined_ s && negb (bool_decide (threads_ s = [])).

(** The calls and threads of a scope; [late] says that a [spawn] happened while a
    [join] was under way. *)
Record System := MkSystem { scope : TaskScope; spawned : list Z; late : bool; first : option exn }.

Definition note_first (threw : option exn) (y : System) : option exn :=
  match first y with None => threw | x => x end.

Definition is_joining (s : TaskScope) : bool := match joining s with Some _ => true | None => false end.

Inductive step : relation System :=
  | S_spawn t y s' : t ∉ spawned y → spawn t (scope y) = Ok s' →
      step y (MkSystem s' (spawned y ++ [t]) (late y || is_joining (scope y)) (first y))
  | S_end t threw y : t ∈ running (scope y) →
      step y (MkSystem (task_end t threw (scope y)) (spawned y) (late y) (note_first threw y))
  | S_cancel y : step y (MkSystem (scope_cancel (scope y)) (spawned y) (late y) (first y))
  | S_swap y : joining (scope y) = None → joined_ (scope y) = false →
      step y (MkSystem (join_swap (scope y)) (spawned y) (late y) (first y))
  | S_next y s' : join_next (scope y) = Some s' → step y (MkSystem s' (spawned y) (late y) (first y))
  | S_finish y : joining (scope y) = Some [] →
      step y (MkSystem (join_finish (scope y)).2 (spawned y) (late y) (first y)).

Definition newSystem : System := MkSystem newScope [] false None.

(** Without a late spawn: threads still running are in [threads_] or in the
    join's list; during a join and after it [threads_] is empty. *)
Record Inv (y : System) : Prop := {
  inv_running : late y = false → ∀ t, t ∈ running (scope y) →
    t ∈ threads_ (scope y) ∨ ∃ ts, joining (scope y) = Some ts ∧ t ∈ ts;
  inv_empty : late y = false → joining (scope y) ≠ None ∨ joined_ (scope y) = true → threads_ (scope y) = [];
  inv_joined : joined_ (scope y) = true → joining (scope y) = None;
  inv_first : joined_ (scope y) = false → exception_ (scope y) = first y ∧ exceptionPropagated_ (scope y) = false
}.

Lemma scope_step_inv y y' : step y y' → Inv y → Inv y'.
Proof.
  intros Hstep [Hr He Hj Hf].
  destruct Hstep as [t y s' Ht Hs|t threw y Ht|y|y Hn Hnj|y s' Hs|y Hd]; cbn in *.
  - unfold spawn in Hs. destruct (joined_ (scope y)) eqn:Hjd; [done|]. injection Hs as <-.
    split; cbn; [| |done|by auto]; intros [Hl Hjn]%orb_false_iff; unfold is_joining in Hjn.
    + intros u [Hu|Hu]%elem_of_app; [destruct (Hr Hl u Hu) as [?|?]; [left; set_solver|by right]|left; set_solver].
    + destruct (joining (scope y)); [done|]. intros [?|?]; done.
  - assert (Hsub : ∀ u, u ∈ filter (λ u, u ≠ t) (running (scope y)) → u ∈ running (scope y)).
    { intros u Hu. by apply list_elem_of_filter in Hu as [_ ?]. }
    unfold task_end, note_first. destruct threw as [e|]; split; cbn; try done; try (intros Hl u Hu; apply Hr; [done|by apply Hsub]).
    + intros Hjd. destruct (Hf Hjd) as [-> ->]. done.
    + intros Hjd. destruct (Hf Hjd) as [-> ->]. by destruct (first y).
  - by split.
  - split; cbn; [|done|congruence|done]. intros Hl u Hu. right. eexists. split; [done|].
    destruct (Hr Hl u Hu) as [?|(ts & Hts & _)]; [done|congruence].
  - unfold join_next in Hs. destruct (joining (scope y)) as [[|t ts]|] eqn:Hjn; [done| |done].
    destruct (bool_decide (t ∈ running (scope y))) eqn:Hb; [done|]. injection Hs as <-. apply bool_decide_eq_false in Hb.
    split; cbn.
    + intros Hl u Hu. destruct (Hr Hl u Hu) as [?|(ts' & [= <-] & Hin)]; [by left|]. right. exists ts. split; [done|].
      apply elem_of_cons in Hin as [->|?]; [done|done].
    + intros Hl _. apply He; [done|]. left. done.
    + intros H. specialize (Hj H). done.
    + done.
  - split; cbn; [|intros Hl _; apply He; [done|]; left; congruence|done|done].
    intros Hl u Hu. destruct (Hr Hl u Hu) as [?|(ts & Hts & Hin)]; [by left|]. rewrite Hd in Hts. injection Hts as <-. by apply elem_of_nil in Hin.
Qed.

Lemma inv_reachable y : rtc step newSystem y → Inv y.
Proof.
  intros Hr. refine (rtc_invariant step Inv _ y scope_step_inv Hr _). split; cbn; try done.
  intros _ t Ht. by apply elem_of_nil in Ht.
Qed.

(** A task scope joins everything and reports the first failure, provided
    no task is spawned while the join runs: when [join] gets to its end no
    thread of the scope runs any more, it rethrows the exception of the first
    task that failed (and returns normally when none did), the scope is then
    closed to new tasks, and destroying it does not end the program. *)
Theorem scope_join_complete y :
  rtc step newSystem y → late y = false → joining (scope y) = Some [] → joined_ (scope y) = false →
  running (scope y) = [] ∧
  (join_finish (scope y)).1 = match first y with Some e => Throw e | None => Ok tt end ∧
  (∀ t, spawn t (join_finish (scope y)).2 = Throw LogicError) ∧
  destroy_terminates (join_finish (scope y)).2 = false.
Proof.
  intros Hr Hl Hjn Hnj. destruct (inv_reachable y Hr) as [Hrun He Hj Hf].
  assert (Hth : threads_ (scope y) = []) by (apply He; [done|left; by rewrite Hjn]).
  split_and!.
  - destruct (running (scope y)) as [|t ts] eqn:E; [done|]. destruct (Hrun Hl t ltac:(left)) as [H|(l & Hts & Hin)].
    + rewrite Hth in H. by apply elem_of_nil in H.
    + rewrite Hjn in Hts. injection Hts as <-. by apply elem_of_nil in Hin.
  - destruct (Hf Hnj) as [Hx Hp]. unfold join_finish. rewrite Hx, Hp. cbn. by destruct (first y).
  - done.
  - unfold destroy_terminates. cbn. rewrite Hth. done.
Qed.

Definition ok_or (o : outcome TaskScope) : TaskScope := match o with Ok s => s | _ => newScope end.

Definition sample : System :=
  let s1 := ok_or (spawn 1 newScope) in
  let s2 := task_end 1 (Some LogicError) s1 in
  MkSystem (match join_next (join_swap s2) with Some s => s | None => s2 end) [1] false (Some LogicError).

Lemma scope_join_complete_witness : (join_finish (scope sample)).1 = Throw LogicError.
Proof.
  refine (proj1 (proj2 (scope_join_complete sample _ _ _ _))); [|done|done|done].
  eapply rtc_l; [apply (S_spawn 1); [by apply not_elem_of_nil|done]|].
  eapply rtc_l; [apply (S_end 1 (Some LogicError)); left|].
  eapply rtc_l; [by apply S_swap|]. eapply rtc_l; [by apply S_next|]. apply rtc_refl.
Defined.

(** A task that spawns another into its scope while [join] is waiting for
    it leaves a thread nobody joins: the join ends, later joins are not made
    because [joined_] is up, and destroying the scope destroys a joinable
    thread, which ends the program. *)
Theorem scope_late_spawn :
  ∃ y, rtc step newSystem y ∧ joined_ (scope y) = true ∧ 2 ∈ running (scope y) ∧ destroy_terminates (scope y) = true.
Proof.
  set (s1 := ok_or (spawn 1 newScope)). set (s3 := ok_or (spawn 2 (join_swap s1))). set (s4 := task_end 1 None s3).
  set (s5 := match join_next s4 with Some s => s | None => s4 end).
  exists (MkSystem (join_finish s5).2 [1; 2] true None). split_and!; [|done| |by vm_compute].
  - eapply rtc_l; [apply (S_spawn 1); [by apply not_elem_of_nil|done]|].
    eapply rtc_l; [by apply S_swap|].
    eapply rtc_l; [apply (S_spawn 2 _ s3); [by apply (bool_decide_eq_false_1 (2 ∈ [1]))|done]|].
    eapply rtc_l; [apply (S_end 1 None); left|]. eapply rtc_l; [by apply (S_next _ s5)|].
    apply rtc_once. apply (S_finish (MkSystem s5 [1; 2] true None)). done.
  - vm_compute. left.
Qed.
End Scope.

(** ** Deadlines *)

Module Deadline.

(** [DeadlineCancel]: when its timer thread wakes up and requests the stop;
    [None] for a negative timeout, which has no timer. *)
Record DeadlineCancel := MkDeadline { timer_ : option Z }.

(** The constructor at time [now]; [late] is how much longer than asked the
    thread sleeps. *)
Definition newDeadline (now timeout late : Z) : DeadlineCancel :=
  MkDeadline (if timeout <? 0 then None else Some (now + timeout + late)).

(** [token().stop_requested()] at a time. *)
Definition stop_requested (d : DeadlineCancel) (at_ : Z) : bool :=
  match timer_ d with Some w => w <=? at_ | None => false end.

(** The destructor, entered at a time, joins the timer's thread. *)
Definition deadline_destroy (d : DeadlineCancel) (at_ : Z) : Z :=
  match timer_ d with Some w => Z.max at_ w | None => at_ end.

(** [with_deadline]: what the callable ends with, and when the call returns. *)
Definition with_deadline {A} (now timeout late : Z) (callable : (Z → bool) → outcome A * Z) : outcome A * Z :=
  let d := newDeadline now timeout late in
  let '(r, finish) := callable (stop_requested d) in (r, deadline_destroy d finish).

(** [with_deadline] gives what the callable gives, its token is stopped from the
    deadline on and not before; but it returns only after the deadline, however
    early the callable has finished.  Without a deadline it returns at once and
    the token is never stopped. *)
Theorem deadline_always_waits {A} now timeout late (callable : (Z → bool) → outcome A * Z) :
  0 <= late →
  let d := newDeadline now timeout late in
  let '(r, finish) := callable (stop_requested d) in
  let '(r', end') := with_deadline now timeout late callable in
  r' = r ∧
  (0 <= timeout → now + timeout <= end' ∧ finish <= end' ∧ (∀ x, x < now + timeout → stop_requested d x = false) ∧
                  (∀ x, now + timeout + late <= x → stop_requested d x = true)) ∧
  (timeout < 0 → end' = finish ∧ ∀ x, stop_requested d x = false).
Proof.
  intros Hl d. unfold with_deadline. fold d. destruct (callable (stop_requested d)) as [r finish]. split; [done|].
  unfold d, newDeadline, deadline_destroy, stop_requested. destruct (Z.ltb_spec timeout 0); cbn; split; intros; try lia; [done|].
  split_and!; [lia|lia|intros; lia|intros; lia].
Qed.

(** A callable that returns at once. *)
Lemma deadline_always_waits_witness :
  (with_deadline 100 50 0 (λ _, (Ok tt, 100))).1 = Ok tt ∧ 100 + 50 <= (with_deadline 100 50 0 (λ _, (Ok tt, 100))).2.
Proof.
  split; [done|]. pose proof (deadline_always_waits 100 50 0 (λ _, (Ok tt, 100)) ltac:(lia)) as (_ & H & _). apply H. lia.
Defined.
End Deadline.
