(* ===== verification/Descriptors.v ===== *)
(** * File descriptors and the objects that own them

    The library wraps descriptors in movable objects: pipes, Unix sockets,
    message queues, shared memory, process handles, asynchronous files and
    sockets.  This file has the descriptor table of a process, with the calls the
    library makes on it, and the class [FdObject] of such wrappers: what an
    object owns, its destructor, its move operations and its own operations.
    [FdLaws] is what a wrapper promises; [fd_ownership] is proved against it once
    and each wrapper discharges it in the file that models it. *)

From S2P Require Import Prelude Text.

(** ** The descriptor table *)

(** An open descriptor: the file it refers to, and the close-on-exec flag. *)
Record FdEntry := MkFd { file : Z; cloexec : bool }.

Abbreviation FdTable := (gmap Z FdEntry).

(** Calls with an effect outside of the table, in the order they are made. *)
Inductive kcall :=
  | KMmap (ptr size flags : Z)
  | KMunmap (ptr size : Z)
  | KMsync (ptr length : Z)
  | KUnlink (path : text).

(** [misuse]: a descriptor was closed that was not open, which closes somebody
    else's file as soon as the number has been given out again. *)
Record Kernel := MkKernel { open_ : FdTable; misuse : bool; calls : list kcall }.

(** Two kernels that agree on descriptors. *)
#[export] Instance kernel_equiv : Equiv Kernel := λ a b, open_ a = open_ b ∧ misuse a = misuse b.

#[export] Instance kernel_equivalence : Equivalence (≡@{Kernel}).
Proof.
  split; [by split|by intros ? ? []|]. intros a b c [H1 H2] [H3 H4]. split; [by rewrite H1|by rewrite H2].
Qed.

Definition kcall_add (c : kcall) (k : Kernel) : Kernel := MkKernel (open_ k) (misuse k) (calls k ++ [c]).

Lemma kcall_add_equiv c k : kcall_add c k ≡ k.
Proof. done. Qed.

(** The mappings a trace of calls leaves, by address. *)
Definition mapped (cs : list kcall) : gmap Z Z :=
  foldl (λ m c, match c with KMmap p n _ => <[p := n]> m | KMunmap p _ => delete p m | _ => m end) ∅ cs.

(** The lowest number that is not open: what [open], [pipe2], [socket] and the
    like return. *)
Definition lowest_free (t : FdTable) : Z :=
  default 0 (snd <$> list_find (λ n, t !! n = None) (seqZ 0 (Z.of_nat (size t) + 1))).

Definition sys_open (f : Z) (ce : bool) (k : Kernel) : Z * Kernel :=
  let fd := lowest_free (open_ k) in (fd, MkKernel (<[fd := MkFd f ce]> (open_ k)) (misuse k) (calls k)).

Definition sys_close (fd : Z) (k : Kernel) : Kernel :=
  match open_ k !! fd with
  | Some _ => MkKernel (delete fd (open_ k)) (misuse k) (calls k)
  | None => MkKernel (open_ k) true (calls k)
  end.

Definition close_all (l : list Z) (k : Kernel) : Kernel := foldl (λ k fd, sys_close fd k) k l.

(** [if (fd >= 0) ::close(fd)], the pattern of every wrapper. *)
Definition close_if (fd : Z) (k : Kernel) : Kernel := if fd >=? 0 then sys_close fd k else k.

(** What such a field owns. *)
Definition fd_list (fd : Z) : list Z := if fd >=? 0 then [fd] else [].

(** [dup2]: the new descriptor is not close-on-exec; equal numbers change
    nothing. *)
Definition sys_dup2 (old new : Z) (t : FdTable) : option FdTable :=
  match t !! old with
  | None => None
  | Some e => Some (if old =? new then t else <[new := MkFd (file e) false]> t)
  end.

(** What a new program keeps. *)
Definition exec_table (t : FdTable) : FdTable := filter (λ p, cloexec p.2 = false) t.

(** The lowest free number is free, and everything below it is taken. *)
Lemma lowest_free_spec (t : FdTable) :
  0 <= lowest_free t ∧ t !! lowest_free t = None ∧ ∀ n, 0 <= n < lowest_free t → is_Some (t !! n).
Proof.
  unfold lowest_free. set (l := seqZ 0 (Z.of_nat (size t) + 1)).
  destruct (list_find (λ n, t !! n = None) l) as [[i x]|] eqn:E; cbn.
  - apply list_find_Some in E as (Hx & Hp & Hlt). apply lookup_seqZ in Hx as [-> Hi]. split_and!; [lia|done|].
    intros n Hn. destruct (t !! n) eqn:En; [by eexists|]. exfalso.
    eapply (Hlt (Z.to_nat n) n); [apply lookup_seqZ; lia|lia|done].
  - exfalso. apply list_find_None in E.
    assert (Hsub : list_to_set l ⊆ dom t).
    { intros n Hn. apply elem_of_list_to_set in Hn. rewrite Forall_forall in E. apply elem_of_dom.
      specialize (E n Hn). destruct (t !! n); [by eexists|done]. }
    apply subseteq_size in Hsub. rewrite size_dom, size_list_to_set in Hsub by apply NoDup_seqZ.
    unfold l in Hsub. rewrite length_seqZ in Hsub. lia.
Qed.

#[export] Instance sys_close_proper fd : Proper ((≡) ==> (≡)) (sys_close fd).
Proof. intros a b [H1 H2]. unfold sys_close. rewrite H1. destruct (open_ b !! fd); split; cbn; congruence. Qed.

#[export] Instance close_all_proper l : Proper ((≡) ==> (≡)) (close_all l).
Proof. unfold close_all. induction l as [|x l IH]; intros a b H; [done|]. cbn. apply IH. by rewrite H. Qed.

#[export] Instance close_if_proper fd : Proper ((≡) ==> (≡)) (close_if fd).
Proof. intros a b H. unfold close_if. case_match; [by rewrite H|done]. Qed.

Lemma close_all_app l l' k : close_all (l ++ l') k = close_all l' (close_all l k).
Proof. unfold close_all. by rewrite foldl_app. Qed.

Lemma close_if_all fd k : close_if fd k = close_all (fd_list fd) k.
Proof. unfold close_if, fd_list. by destruct (fd >=? 0). Qed.

(** The open numbers. *)
Definition open_fds (k : Kernel) : list Z := (map_to_list (open_ k)).*1.

Lemma open_fds_NoDup k : NoDup (open_fds k).
Proof. apply NoDup_fst_map_to_list. Qed.

Lemma elem_of_open_fds fd k : fd ∈ open_fds k ↔ is_Some (open_ k !! fd).
Proof.
  unfold open_fds. rewrite list_elem_of_fmap. split.
  - intros ([n e] & -> & H%elem_of_map_to_list). by eexists.
  - intros [e H]. exists (fd, e). split; [done|]. by apply elem_of_map_to_list.
Qed.

(** Closing descriptors that are open, all different, leaves the rest. *)
Lemma close_all_open c rest k :
  c ++ rest ≡ₚ open_fds k →
  rest ≡ₚ open_fds (close_all c k) ∧ misuse (close_all c k) = misuse k ∧ calls (close_all c k) = calls k.
Proof.
  revert k. induction c as [|fd c IH]; intros k Hp; [done|].
  assert (Hin : fd ∈ open_fds k) by (rewrite <- Hp; left).
  apply elem_of_open_fds in Hin as [e He].
  assert (Hk : sys_close fd k = MkKernel (delete fd (open_ k)) (misuse k) (calls k)) by (unfold sys_close; by rewrite He).
  cbn. rewrite Hk. apply IH. apply (Permutation.Permutation_cons_inv (a := fd)). rewrite <- app_comm_cons in Hp.
  rewrite Hp. unfold open_fds. cbn. by rewrite <- (map_to_list_delete (open_ k) fd e He).
Qed.

Lemma sys_open_fds f ce k :
  open_fds (sys_open f ce k).2 ≡ₚ (sys_open f ce k).1 :: open_fds k.
Proof.
  unfold open_fds, sys_open. cbn. by rewrite map_to_list_insert by apply lowest_free_spec.
Qed.

(** ** Objects that own descriptors *)

(** [run_op] gives the descriptors the operation hands to the caller;
    [move_assign self x y] assigns [y] to [x], and [self] is the test whether
    they are the same object. *)
Class FdObject (T Op : Type) := {
  fds : T → list Z;
  run_op : Op → T → Kernel → list Z * T * Kernel;
  destroy : T → Kernel → Kernel;
  move_construct : T → Kernel → T * T * Kernel;
  move_assign : bool → T → T → Kernel → T * T * Kernel
}.

Class FdLaws (T Op : Type) `{!FdObject T Op} := {
  op_law : ∀ (o : Op) (x : T) k,
    let '(r, x', k') := run_op o x k in ∃ c, fds x ≡ₚ c ++ r ++ fds x' ∧ k' ≡ close_all c k;
  destroy_law : ∀ (x : T) k, destroy x k ≡ close_all (fds x) k;
  move_construct_law : ∀ (y : T) k,
    let '(x', y', k') := move_construct y k in fds x' = fds y ∧ fds y' = [] ∧ k' ≡ k;
  move_assign_law : ∀ (x y : T) k,
    let '(x', y', k') := move_assign false x y k in fds x' = fds y ∧ fds y' = [] ∧ k' ≡ close_all (fds x) k;
  self_assign_law : ∀ (x : T) k, move_assign true x x k = (x, x, k)
}.

(** ** Programs over such objects *)

(** Objects by address; [loose] are the descriptors nobody wraps: those an
    object has released and those the program opened itself. *)
Record Store (T : Type) := MkStore { objs : gmap Z T; loose : list Z; kern : Kernel }.
Arguments MkStore {T}.
Arguments objs {T}.
Arguments loose {T}.
Arguments kern {T}.

Section store.
Context {T Op : Type} `{!FdObject T Op}.

(** [x = std::move(y)]. *)
Definition assign (x y : Z) (o p : T) (s : Store T) : Store T :=
  let '(o', p', k') := move_assign (x =? y) o p (kern s) in MkStore (<[y := p']> (<[x := o']> (objs s))) (loose s) k'.

(** What a program does with the objects and with its own descriptors.  An
    object is built over descriptors the program has; an assignment writes to
    its target and then to its source, which may be the same object. *)
Inductive store_step : relation (Store T) :=
  | St_open f ce s : store_step s (MkStore (objs s) ((sys_open f ce (kern s)).1 :: loose s) (sys_open f ce (kern s)).2)
  | St_close fd l s : loose s ≡ₚ fd :: l → store_step s (MkStore (objs s) l (sys_close fd (kern s)))
  | St_wrap x o l s :
      objs s !! x = None → loose s ≡ₚ fds o ++ l → store_step s (MkStore (<[x := o]> (objs s)) l (kern s))
  | St_destroy x o s :
      objs s !! x = Some o → store_step s (MkStore (delete x (objs s)) (loose s) (destroy o (kern s)))
  | St_op x o op s :
      objs s !! x = Some o →
      store_step s (let '(r, o', k') := run_op op o (kern s) in MkStore (<[x := o']> (objs s)) (r ++ loose s) k')
  | St_move x y o s :
      objs s !! x = None → objs s !! y = Some o →
      store_step s (let '(o', p', k') := move_construct o (kern s) in
                    MkStore (<[x := o']> (<[y := p']> (objs s))) (loose s) k')
  | St_assign x y o p s :
      objs s !! x = Some o → objs s !! y = Some p → store_step s (assign x y o p s).

(** All descriptors the objects own. *)
Definition owned (m : gmap Z T) : list Z := (map_to_list m).*2 ≫= fds.

Definition newStore : Store T := MkStore ∅ [] (MkKernel ∅ false []).

(** The open descriptors are those owned, once each, and those loose. *)
Definition StoreInv (s : Store T) : Prop :=
  misuse (kern s) = false ∧ owned (objs s) ++ loose s ≡ₚ open_fds (kern s).

Lemma owned_insert m x o : m !! x = None → owned (<[x := o]> m) ≡ₚ fds o ++ owned m.
Proof. intros H. unfold owned. by rewrite map_to_list_insert. Qed.

Lemma owned_delete m x o : m !! x = Some o → owned m ≡ₚ fds o ++ owned (delete x m).
Proof. intros H. unfold owned. by rewrite <- (map_to_list_delete m x o H). Qed.

Lemma owned_replace m x o o' :
  m !! x = Some o → owned (<[x := o']> m) ≡ₚ fds o' ++ owned (delete x m).
Proof. intros H. rewrite <- insert_delete_eq. by rewrite owned_insert by apply lookup_delete_eq. Qed.

(** Two objects at different addresses. *)
Lemma owned_two m x y o p :
  x ≠ y → m !! x = Some o → m !! y = Some p →
  owned m ≡ₚ fds o ++ fds p ++ owned (delete y (delete x m)).
Proof.
  intros Hne Hx Hy. rewrite (owned_delete m x o Hx). rewrite (owned_delete (delete x m) y p); [done|].
  by rewrite lookup_delete_ne.
Qed.

Lemma owned_two_replace m x y o p o' p' :
  x ≠ y → m !! x = Some o → m !! y = Some p →
  owned (<[x := o']> (<[y := p']> m)) ≡ₚ fds o' ++ fds p' ++ owned (delete y (delete x m)).
Proof.
  intros Hne Hx Hy. rewrite (owned_replace _ x o) by by rewrite lookup_insert_ne.
  rewrite delete_insert_ne by done. by rewrite (owned_replace _ y p) by by rewrite lookup_delete_ne.
Qed.

(** A kernel that has closed part of the descriptors. *)
Lemma inv_close (s : Store T) c rest m l k :
  StoreInv s → owned (objs s) ++ loose s ≡ₚ c ++ rest → owned m ++ l ≡ₚ rest → k ≡ close_all c (kern s) →
  StoreInv (MkStore m l k).
Proof.
  intros [Hm Hp] Hsplit Hrest [Ho Hk]. rewrite Hp in Hsplit. symmetry in Hsplit.
  destruct (close_all_open c rest (kern s) Hsplit) as (H1 & H2 & _). split; cbn; [congruence|].
  rewrite Hrest, H1. unfold open_fds. by rewrite Ho.
Qed.

Context `{!FdLaws T Op}.

(** Assigning an object to itself keeps it, and its descriptors, as they are. *)
Lemma assign_self x o s : objs s !! x = Some o → assign x x o o s = s.
Proof. intros Hx. unfold assign. rewrite Z.eqb_refl, self_assign_law, insert_insert_eq, insert_id by done. by destruct s. Qed.

Lemma store_step_inv s s' : store_step s s' → StoreInv s → StoreInv s'.
Proof.
  intros [f ce s0|fd l s0 Hl|x o l s0 Hx Hl|x o s0 Hx|x o op s0 Hx|x y o s0 Hx Hy|x y o p s0 Hx Hy] Hinv.
  - destruct Hinv as [Hm Hp]. split; [done|]. cbn [objs loose kern]. rewrite sys_open_fds, <- Hp. solve_Permutation.
  - apply (inv_close s0 [fd] (owned (objs s0) ++ l) _ _ _ Hinv); [rewrite Hl; solve_Permutation|done|done].
  - destruct Hinv as [Hm Hp]. split; [done|]. cbn [objs loose kern]. rewrite owned_insert, <- Hp, Hl by done. solve_Permutation.
  - apply (inv_close s0 (fds o) (owned (delete x (objs s0)) ++ loose s0) _ _ _ Hinv); [|done|apply destroy_law].
    rewrite (owned_delete _ x o Hx). solve_Permutation.
  - pose proof (op_law op o (kern s0)) as Hop. destruct (run_op op o (kern s0)) as [[r o'] k'].
    destruct Hop as (c & Hc & Hk). apply (inv_close s0 c (r ++ fds o' ++ owned (delete x (objs s0)) ++ loose s0) _ _ _ Hinv); [| |done].
    + rewrite (owned_delete _ x o Hx), Hc. solve_Permutation.
    + rewrite (owned_replace _ x o o' Hx). solve_Permutation.
  - pose proof (move_construct_law o (kern s0)) as Hlaw. destruct (move_construct o (kern s0)) as [[o' p'] k'].
    destruct Hlaw as (H1 & H2 & Hk).
    apply (inv_close s0 [] (fds o ++ owned (delete y (objs s0)) ++ loose s0) _ _ _ Hinv); [| |done].
    + rewrite (owned_delete _ y o Hy). solve_Permutation.
    + rewrite owned_insert by (rewrite lookup_insert_ne; [done|congruence]).
      rewrite (owned_replace _ y o _ Hy), H1, H2. solve_Permutation.
  - destruct (decide (x = y)) as [->|Hne]; [assert (p = o) as -> by congruence; by rewrite assign_self|].
    unfold assign. rewrite (proj2 (Z.eqb_neq x y)) by done.
    pose proof (move_assign_law o p (kern s0)) as Hlaw. destruct (move_assign false o p (kern s0)) as [[o' p'] k'].
    destruct Hlaw as (H1 & H2 & Hk). rewrite insert_insert_ne by done.
    apply (inv_close s0 (fds o) (fds p ++ owned (delete y (delete x (objs s0))) ++ loose s0) _ _ _ Hinv); [| |done].
    + rewrite (owned_two _ x y o p Hne Hx Hy). solve_Permutation.
    + rewrite (owned_two_replace _ x y o p o' p' Hne Hx Hy), H1, H2. solve_Permutation.
Qed.

Lemma store_reachable_inv s : rtc store_step newStore s → StoreInv s.
Proof. intros Hr. refine (rtc_invariant store_step StoreInv newStore s store_step_inv Hr _). by split. Qed.

(** Nothing is closed twice, nothing is owned twice, what is open is what is
    owned or loose, so nothing leaks, and an object assigned to itself keeps
    what it owns. *)
Definition Sound (s : Store T) : Prop :=
  misuse (kern s) = false ∧ NoDup (owned (objs s) ++ loose s) ∧
  (∀ fd, is_Some (open_ (kern s) !! fd) ↔ fd ∈ owned (objs s) ++ loose s) ∧
  (∀ x o, objs s !! x = Some o → assign x x o o s = s).

Lemma store_sound s : rtc store_step newStore s → Sound s.
Proof.
  intros [Hm Hp]%store_reachable_inv. split_and!; [done|rewrite Hp; apply open_fds_NoDup| |].
  - intros fd. by rewrite Hp, elem_of_open_fds.
  - intros x o. apply assign_self.
Qed.
End store.

Arguments store_step {T Op _}.
