(* ===== verification/Ipc.v ===== *)
(** * Pipes, shared memory and message queues (src/src/pipe.cpp,
      shared_memory.cpp, message_queue.cpp)

    Three wrappers of descriptors, each an instance of [FdObject].  Shared
    memory is modelled over the namespace of POSIX shared memory objects; a
    system call can be made to fail by giving it an errno. *)

From S2P Require Import Prelude Text Descriptors.

(** The value of an empty descriptor field. *)
Definition noFd : Z := -1.

(** ** Pipes *)

Record Pipe := MkPipe { readFd_ : Z; writeFd_ : Z }.

Definition emptyPipe : Pipe := MkPipe noFd noFd.

(** [Pipe::create]; [err] is the errno of [pipe2], 0 if it succeeds; the ends are
    the files [f] and [f + 1]. *)
Definition makePipe (err : Z) (f : Z) (ce : bool) (k : Kernel) : outcome Pipe * Kernel :=
  if negb (err =? 0) then (Throw (SystemError err), k)
  else
    let '(r, k1) := sys_open f ce k in
    let '(w, k2) := sys_open (f + 1) ce k1 in
    (Ok (MkPipe r w), k2).

Definition releaseRead (p : Pipe) : Z * Pipe := (readFd_ p, MkPipe noFd (writeFd_ p)).
Definition releaseWrite (p : Pipe) : Z * Pipe := (writeFd_ p, MkPipe (readFd_ p) noFd).

Definition closeRead (p : Pipe) (k : Kernel) : Pipe * Kernel :=
  if readFd_ p >=? 0 then (MkPipe noFd (writeFd_ p), sys_close (readFd_ p) k) else (p, k).

Definition closeWrite (p : Pipe) (k : Kernel) : Pipe * Kernel :=
  if writeFd_ p >=? 0 then (MkPipe (readFd_ p) noFd, sys_close (writeFd_ p) k) else (p, k).

Definition pipe_close (p : Pipe) (k : Kernel) : Pipe * Kernel :=
  let '(p1, k1) := closeRead p k in closeWrite p1 k1.

Definition pipe_destroy (p : Pipe) (k : Kernel) : Kernel := (pipe_close p k).2.

(** [operator=(Pipe&&)]; [self] is [this == &other]. *)
Definition pipe_move_assign (self : bool) (x y : Pipe) (k : Kernel) : Pipe * Pipe * Kernel :=
  if self then (x, y, k)
  else let '(_, k1) := pipe_close x k in (MkPipe (readFd_ y) (writeFd_ y), MkPipe noFd noFd, k1).

(** The move constructor assigns to a default object. *)
Definition pipe_move_construct (y : Pipe) (k : Kernel) : Pipe * Pipe * Kernel := pipe_move_assign false emptyPipe y k.

Inductive pipe_op := PReleaseRead | PReleaseWrite | PCloseRead | PCloseWrite | PClose.

Definition pipe_run (o : pipe_op) (p : Pipe) (k : Kernel) : list Z * Pipe * Kernel :=
  match o with
  | PReleaseRead => let '(fd, p') := releaseRead p in (fd_list fd, p', k)
  | PReleaseWrite => let '(fd, p') := releaseWrite p in (fd_list fd, p', k)
  | PCloseRead => let '(p', k') := closeRead p k in ([], p', k')
  | PCloseWrite => let '(p', k') := closeWrite p k in ([], p', k')
  | PClose => let '(p', k') := pipe_close p k in ([], p', k')
  end.

#[export] Instance pipe_object : FdObject Pipe pipe_op := {
  fds p := fd_list (readFd_ p) ++ fd_list (writeFd_ p);
  run_op := pipe_run;
  destroy := pipe_destroy;
  move_construct := pipe_move_construct;
  move_assign := pipe_move_assign
}.

Lemma closeRead_spec p k :
  closeRead p k = (MkPipe (if readFd_ p >=? 0 then noFd else readFd_ p) (writeFd_ p), close_all (fd_list (readFd_ p)) k).
Proof. unfold closeRead, fd_list. destruct p as [r w]. cbn. by destruct (r >=? 0). Qed.

Lemma closeWrite_spec p k :
  closeWrite p k = (MkPipe (readFd_ p) (if writeFd_ p >=? 0 then noFd else writeFd_ p), close_all (fd_list (writeFd_ p)) k).
Proof. unfold closeWrite, fd_list. destruct p as [r w]. cbn. by destruct (w >=? 0). Qed.

Lemma fd_list_closed fd : fd_list (if fd >=? 0 then noFd else fd) = [].
Proof. unfold fd_list. destruct (fd >=? 0) eqn:E; [done|]. by rewrite E. Qed.

Lemma pipe_close_spec p k :
  ∃ p', pipe_close p k = (p', close_all (fds p) k) ∧ fds p' = [].
Proof.
  unfold pipe_close. rewrite closeRead_spec, closeWrite_spec. cbn. rewrite <- close_all_app.
  eexists. split; [done|]. cbn. by rewrite !fd_list_closed.
Qed.

#[export] Instance pipe_laws : FdLaws Pipe pipe_op.
Proof.
  split.
  - intros [] p k; cbn -[fds].
    + by exists [].
    + exists []. split; [cbn; solve_Permutation|done].
    + rewrite closeRead_spec. exists (fd_list (readFd_ p)). cbn. by rewrite fd_list_closed.
    + rewrite closeWrite_spec. exists (fd_list (writeFd_ p)). cbn. rewrite fd_list_closed. split; [solve_Permutation|done].
    + destruct (pipe_close_spec p k) as (p' & -> & Hf). exists (fds p). split; [|done]. by rewrite Hf, app_nil_r.
  - intros p k. unfold destroy, pipe_object, pipe_destroy. by destruct (pipe_close_spec p k) as (p' & -> & _).
  - intros y k. done.
  - intros x y k. unfold move_assign, pipe_object, pipe_move_assign. by destruct (pipe_close_spec x k) as (p' & -> & _).
  - done.
Qed.

(** ** Shared memory *)

Inductive SharedMemoryMode := Create | Open | OpenOrCreate.

Record SharedMemoryOptions := MkShmOptions {
  mode : SharedMemoryMode;
  permissions : Z;
  hugePages : bool;
  lockInMemory : bool
}.

(** A null pointer is 0. *)
Record SharedMemory := MkShm { name_ : text; ptr_ : Z; size_ : Z; fd_ : Z; owner_ : bool }.

Definition MAP_FAILED : Z := 2 ^ 64 - 1.
Definition MAP_SHARED : Z := 1.
Definition MAP_HUGETLB : Z := 262144.
Definition ENOENT : Z := 2.
Definition EEXIST : Z := 17.
Definition EINVAL : Z := 22.

(** The named objects of the system, the size of every object, and the
    process. *)
Record ShmSys := MkShmSys { shm_names : gmap text Z; shm_sizes : gmap Z Z; shm_kern : Kernel }.

Definition with_kern (f : Kernel → Kernel) (s : ShmSys) : ShmSys :=
  MkShmSys (shm_names s) (shm_sizes s) (f (shm_kern s)).

Definition open_object (i : Z) (s : ShmSys) : Z * ShmSys :=
  let '(fd, k) := sys_open i true (shm_kern s) in (fd, MkShmSys (shm_names s) (shm_sizes s) k).

(** [shm_open]; [i] is the identity of the object if one is created. *)
Definition shm_open (err i : Z) (creat excl : bool) (name : text) (s : ShmSys) : outcome Z * ShmSys :=
  if negb (err =? 0) then (Throw (SystemError err), s)
  else
    match shm_names s !! name with
    | Some j =>
        if creat && excl then (Throw (SystemError EEXIST), s) else let '(fd, s') := open_object j s in (Ok fd, s')
    | None =>
        if creat
        then let '(fd, s') := open_object i (MkShmSys (<[name := i]> (shm_names s)) (<[i := 0]> (shm_sizes s)) (shm_kern s)) in
             (Ok fd, s')
        else (Throw (SystemError ENOENT), s)
    end.

Definition shm_unlink (name : text) (s : ShmSys) : ShmSys :=
  MkShmSys (delete name (shm_names s)) (shm_sizes s) (shm_kern s).

(** The size of the object a descriptor refers to. *)
Definition object_size (fd : Z) (s : ShmSys) : option Z := e ← open_ (shm_kern s) !! fd; shm_sizes s !! file e.

(** [ftruncate]: the errno and the system; the length is a signed [off_t]. *)
Definition ftruncate (err fd size : Z) (s : ShmSys) : Z * ShmSys :=
  if negb (err =? 0) then (err, s)
  else if swrap 64 size <? 0 then (EINVAL, s)
  else match open_ (shm_kern s) !! fd with
       | Some e => (0, MkShmSys (shm_names s) (<[file e := swrap 64 size]> (shm_sizes s)) (shm_kern s))
       | None => (EINVAL, s)
       end.

(** [mmap] refuses an empty mapping. *)
Definition mmap (err ptr size flags : Z) (s : ShmSys) : outcome Z * ShmSys :=
  if negb (err =? 0) then (Throw (SystemError err), s)
  else if size =? 0 then (Throw (SystemError EINVAL), s)
  else (Ok ptr, with_kern (kcall_add (KMmap ptr size flags)) s).

(** What the system calls of a constructor answer; an errno of 0 is success, and
    [ptr] is where [mmap] puts the mapping. *)
Record ShmCalls := MkShmCalls {
  e_open : Z; e_stat : Z; e_trunc : Z; e_stat2 : Z; e_mmap : Z; e_mlock : Z; new_object : Z; new_ptr : Z
}.

Definition unlink_if (b : bool) (name : text) (s : ShmSys) : ShmSys := if b then shm_unlink name s else s.

(** The end of the constructor: map the object and lock it. *)
Definition map_object (c : ShmCalls) (name : text) (size fd : Z) (owner : bool) (o : SharedMemoryOptions) (s : ShmSys)
  : outcome SharedMemory * ShmSys :=
  let flags := if hugePages o then Z.lor MAP_SHARED MAP_HUGETLB else MAP_SHARED in
  match mmap (e_mmap c) (new_ptr c) size flags s with
  | (Ok ptr, s1) =>
      if lockInMemory o && negb (e_mlock c =? 0) then
        (Throw (SystemError (e_mlock c)),
         unlink_if owner name (with_kern (sys_close fd) (with_kern (kcall_add (KMunmap ptr size)) s1)))
      else (Ok (MkShm name ptr size fd owner), s1)
  | (Throw e, s1) => (Throw e, unlink_if owner name (with_kern (sys_close fd) s1))
  | (Hang, s1) => (Hang, s1)
  end.

Definition shm_construct (c : ShmCalls) (name : text) (size : Z) (o : SharedMemoryOptions) (s : ShmSys)
  : outcome SharedMemory * ShmSys :=
  let creat := match mode o with Open => false | _ => true end in
  let excl := match mode o with Create => true | _ => false end in
  match shm_open (e_open c) (new_object c) creat excl name s with
  | (Ok fd, s1) =>
      let created := match mode o with
                     | Create => true
                     | OpenOrCreate => (e_stat c =? 0) && bool_decide (object_size fd s1 = Some 0)
                     | Open => false
                     end in
      if created then
        let '(err, s2) := ftruncate (e_trunc c) fd size s1 in
        if negb (err =? 0) then (Throw (SystemError err), shm_unlink name (with_kern (sys_close fd) s2))
        else map_object c name size fd true o s2
      else if negb (e_stat2 c =? 0) then (Throw (SystemError (e_stat2 c)), with_kern (sys_close fd) s1)
      else map_object c name (default 0 (object_size fd s1)) fd false o s1
  | (Throw e, s1) => (Throw e, s1)
  | (Hang, s1) => (Hang, s1)
  end.

(** [createAnonymous]: a nameless object. *)
Definition createAnonymous (c : ShmCalls) (size : Z) (huge : bool) (s : ShmSys) : outcome SharedMemory * ShmSys :=
  if negb (e_open c =? 0) then (Throw (SystemError (e_open c)), s)
  else
    let '(fd, s1) := open_object (new_object c) (MkShmSys (shm_names s) (<[new_object c := 0]> (shm_sizes s)) (shm_kern s)) in
    let '(err, s2) := ftruncate (e_trunc c) fd size s1 in
    if negb (err =? 0) then (Throw (SystemError err), with_kern (sys_close fd) s2)
    else
      let flags := if huge then Z.lor MAP_SHARED MAP_HUGETLB else MAP_SHARED in
      match mmap (e_mmap c) (new_ptr c) size flags s2 with
      | (Ok ptr, s3) => (Ok (MkShm [] ptr size fd true), s3)
      | (Throw e, s3) => (Throw e, with_kern (sys_close fd) s3)
      | (Hang, s3) => (Hang, s3)
      end.

(** [ptr_ && ptr_ != MAP_FAILED]. *)
Definition has_mapping (m : SharedMemory) : bool := negb (ptr_ m =? 0) && negb (ptr_ m =? MAP_FAILED).

Definition shm_destroy (m : SharedMemory) (k : Kernel) : Kernel :=
  close_if (fd_ m) (if has_mapping m then kcall_add (KMunmap (ptr_ m) (size_ m)) k else k).

(** What a move leaves: the name has been moved out too. *)
Definition shm_moved : SharedMemory := MkShm [] 0 0 noFd false.

Definition shm_move_construct (y : SharedMemory) (k : Kernel) : SharedMemory * SharedMemory * Kernel :=
  (MkShm (name_ y) (ptr_ y) (size_ y) (fd_ y) (owner_ y), shm_moved, k).

Definition shm_move_assign (self : bool) (x y : SharedMemory) (k : Kernel) : SharedMemory * SharedMemory * Kernel :=
  if self then (x, y, k)
  else (MkShm (name_ y) (ptr_ y) (size_ y) (fd_ y) (owner_ y), shm_moved, shm_destroy x k).

Definition flush (m : SharedMemory) (k : Kernel) : Kernel :=
  if has_mapping m then kcall_add (KMsync (ptr_ m) (size_ m)) k else k.

(** [flush(offset, length)]: the range is rounded down to a page. *)
Definition flush_range (pageSize offset length : Z) (m : SharedMemory) (k : Kernel) : Kernel :=
  if has_mapping m && (offset <? size_ m) then
    let actualLength := Z.min length (u64 (size_ m - offset)) in
    let alignedOffset := u64 (offset / pageSize * pageSize) in
    let alignedLength := u64 (actualLength + u64 (offset - alignedOffset)) in
    kcall_add (KMsync (ptr_ m + alignedOffset) alignedLength) k
  else k.

(** [SharedMemory::unlink] forgives a missing name. *)
Definition shm_static_unlink (err : Z) (name : text) (s : ShmSys) : outcome unit * ShmSys :=
  if negb (err =? 0) then (Throw (SystemError err), s) else (Ok tt, shm_unlink name s).

Definition exists_ (err : Z) (name : text) (s : ShmSys) : bool * ShmSys :=
  match shm_open err 0 false false name s with
  | (Ok fd, s1) => (true, with_kern (sys_close fd) s1)
  | (_, s1) => (false, s1)
  end.

Inductive shm_op := SFlush | SFlushRange (pageSize offset length : Z).

Definition shm_run (o : shm_op) (m : SharedMemory) (k : Kernel) : list Z * SharedMemory * Kernel :=
  match o with
  | SFlush => ([], m, flush m k)
  | SFlushRange p off len => ([], m, flush_range p off len m k)
  end.

#[export] Instance shm_object : FdObject SharedMemory shm_op := {
  fds m := fd_list (fd_ m);
  run_op := shm_run;
  destroy := shm_destroy;
  move_construct := shm_move_construct;
  move_assign := shm_move_assign
}.

Lemma shm_destroy_equiv m k : shm_destroy m k ≡ close_all (fd_list (fd_ m)) k.
Proof. unfold shm_destroy. rewrite close_if_all. apply close_all_proper. by destruct (has_mapping m). Qed.

#[export] Instance shm_laws : FdLaws SharedMemory shm_op.
Proof.
  split.
  - intros [|p off len] m k; cbn -[fds]; exists []; (split; [done|]).
    + unfold flush. by destruct (has_mapping m).
    + unfold flush_range. by destruct (has_mapping m && _).
  - intros m k. apply shm_destroy_equiv.
  - intros y k. done.
  - intros x y k. split_and!; [done|done|]. apply shm_destroy_equiv.
  - done.
Qed.

(** Opening and closing again leaves the table as it was. *)
Lemma open_close i s fd s' :
  open_object i s = (fd, s') →
  s' = MkShmSys (shm_names s) (shm_sizes s)
         (MkKernel (<[fd := MkFd i true]> (open_ (shm_kern s))) (misuse (shm_kern s)) (calls (shm_kern s))) ∧
  open_ (shm_kern s) !! fd = None ∧ 0 <= fd.
Proof.
  unfold open_object, sys_open. intros [= <- <-]. pose proof (lowest_free_spec (open_ (shm_kern s))) as (? & ? & _). done.
Qed.

Lemma close_opened fd e t m cs :
  t !! fd = None → sys_close fd (MkKernel (<[fd := e]> t) m cs) = MkKernel t m cs.
Proof. intros H. unfold sys_close. cbn. rewrite lookup_insert_eq. by rewrite delete_insert_id. Qed.

Lemma mapped_snoc cs c : mapped (cs ++ [c]) =
  match c with KMmap p n _ => <[p := n]> (mapped cs) | KMunmap p _ => delete p (mapped cs) | _ => mapped cs end.
Proof. unfold mapped. rewrite foldl_app. by destruct c. Qed.

(** The state in which the constructor maps the object [i], with the system it
    started from. *)
Record Opened (s : ShmSys) (fd i : Z) (s1 : ShmSys) : Prop := {
  op_kern : shm_kern s1 =
    MkKernel (<[fd := MkFd i true]> (open_ (shm_kern s))) (misuse (shm_kern s)) (calls (shm_kern s));
  op_free : open_ (shm_kern s) !! fd = None;
  op_pos : 0 <= fd
}.

(** Nothing of the attempt is left in the process. *)
Definition Undone (s s' : ShmSys) : Prop :=
  open_ (shm_kern s') = open_ (shm_kern s) ∧ misuse (shm_kern s') = misuse (shm_kern s) ∧
  mapped (calls (shm_kern s')) = mapped (calls (shm_kern s)).

(** The object is open and mapped. *)
Definition Mapped (s : ShmSys) (i size : Z) (m : SharedMemory) (s' : ShmSys) : Prop :=
  open_ (shm_kern s) !! fd_ m = None ∧ 0 <= fd_ m ∧ open_ (shm_kern s') = <[fd_ m := MkFd i true]> (open_ (shm_kern s)) ∧
  misuse (shm_kern s') = misuse (shm_kern s) ∧ size_ m = size ∧ size_ m ≠ 0 ∧
  mapped (calls (shm_kern s')) = <[ptr_ m := size_ m]> (mapped (calls (shm_kern s))).

Lemma unlink_if_kern b name s : shm_kern (unlink_if b name s) = shm_kern s.
Proof. by destruct b. Qed.

Lemma map_object_spec c name size fd i owner o s s1 :
  Opened s fd i s1 → mapped (calls (shm_kern s)) !! new_ptr c = None →
  match map_object c name size fd owner o s1 with
  | (Ok m, s') =>
      Mapped s i size m s' ∧ shm_names s' = shm_names s1 ∧ shm_sizes s' = shm_sizes s1 ∧
      ptr_ m = new_ptr c ∧ owner_ m = owner ∧ name_ m = name
  | (Throw _, s') =>
      Undone s s' ∧ shm_names s' = (if owner then delete name (shm_names s1) else shm_names s1) ∧ shm_sizes s' = shm_sizes s1
  | (Hang, _) => False
  end.
Proof.
  intros [Hk Hfree Hpos] Hptr. unfold map_object, mmap.
  assert (Hclosed : ∀ b s2, shm_kern s2 = shm_kern s1 → shm_names s2 = shm_names s1 → shm_sizes s2 = shm_sizes s1 →
    Undone s (unlink_if b name (with_kern (sys_close fd) s2)) ∧
    shm_names (unlink_if b name (with_kern (sys_close fd) s2)) = (if b then delete name (shm_names s1) else shm_names s1) ∧
    shm_sizes (unlink_if b name (with_kern (sys_close fd) s2)) = shm_sizes s1).
  { intros b s2 H1 H2 H3. unfold Undone. rewrite !unlink_if_kern. cbn. rewrite H1, Hk, close_opened by done.
    destruct b; cbn; by rewrite ?H2, ?H3. }
  destruct (e_mmap c =? 0); cbn [negb]; [|by apply Hclosed].
  destruct (Z.eqb_spec size 0) as [->|Hsz]; [by apply Hclosed|].
  destruct (lockInMemory o && negb (e_mlock c =? 0)).
  - unfold Undone. rewrite !unlink_if_kern. cbn. rewrite Hk. cbn. unfold kcall_add. cbn. rewrite close_opened by done. cbn.
    rewrite !mapped_snoc. split_and!; [done|done|by rewrite delete_insert_id|by destruct owner|by destruct owner].
  - split_and!; try done. unfold Mapped. cbn. rewrite Hk. cbn. split_and!; try done. by rewrite mapped_snoc.
Qed.

(** A constructor that succeeded is undone by the destructor. *)
Lemma destroy_undoes s i size m s' :
  Mapped s i size m s' → has_mapping m = true → mapped (calls (shm_kern s)) !! ptr_ m = None →
  Undone s (with_kern (shm_destroy m) s').
Proof.
  intros (Hfree & Hpos & Ho & Hm & _ & _ & Hmap) Hhas Hptr. unfold Undone, with_kern, shm_destroy, close_if. cbn. rewrite Hhas.
  rewrite (proj2 (Z.geb_le _ _) Hpos). unfold sys_close. cbn. rewrite Ho, lookup_insert_eq. cbn. rewrite mapped_snoc, Hmap, !delete_insert_id by done.
  done.
Qed.

Lemma swrap64_size size : 0 <= size < 2 ^ 64 → (swrap 64 size <? 0) = false → swrap 64 size = size.
Proof. intros H Hneg. bool_hyps. unfold swrap in *. rewrite Z.mod_small in * by done. split_cases; lia. Qed.

(** What [shm_open] answers when the name is known, and when it is created. *)
Lemma shm_open_spec c creat excl name s :
  match shm_open (e_open c) (new_object c) creat excl name s with
  | (Ok fd, s1) =>
      (∃ j, shm_names s !! name = Some j ∧ (creat && excl)%bool = false ∧ Opened s fd j s1 ∧
            shm_names s1 = shm_names s ∧ shm_sizes s1 = shm_sizes s) ∨
      (shm_names s !! name = None ∧ creat = true ∧ Opened s fd (new_object c) s1 ∧
       shm_names s1 = <[name := new_object c]> (shm_names s) ∧ shm_sizes s1 = <[new_object c := 0]> (shm_sizes s))
  | (Throw _, s1) => s1 = s
  | (Hang, _) => False
  end.
Proof.
  unfold shm_open. destruct (e_open c =? 0); cbn [negb]; [|done].
  destruct (shm_names s !! name) as [j|] eqn:Ej.
  - destruct (creat && excl) eqn:Ece; [done|]. destruct (open_object j s) as [fd s1] eqn:Eo.
    apply open_close in Eo as (-> & Hf & Hp). left. exists j. split_and!; try done.
  - destruct creat; [|done]. destruct (open_object _ _) as [fd s1] eqn:Eo.
    apply open_close in Eo as (-> & Hf & Hp). right. split_and!; done.
Qed.

Lemma object_size_opened s fd i s1 : Opened s fd i s1 → object_size fd s1 = shm_sizes s1 !! i.
Proof. intros [Hk _ _]. unfold object_size. rewrite Hk. cbn. by rewrite lookup_insert_eq. Qed.

Lemma ftruncate_spec err fd size s i s1 :
  Opened s fd i s1 → 0 <= size < 2 ^ 64 →
  (∃ e, e ≠ 0 ∧ ftruncate err fd size s1 = (e, s1)) ∨
  ftruncate err fd size s1 = (0, MkShmSys (shm_names s1) (<[i := size]> (shm_sizes s1)) (shm_kern s1)).
Proof.
  intros [Hk _ _] Hs. unfold ftruncate. destruct (Z.eqb_spec err 0) as [->|Hne]; cbn [negb]; [|left; by exists err].
  destruct (swrap 64 size <? 0) eqn:Hneg; [left; by exists EINVAL|]. rewrite (swrap64_size size Hs Hneg), Hk. cbn.
  rewrite lookup_insert_eq. by right.
Qed.

(** The answers of a system in which things are consistent: a new object and a
    new mapping are new, and every name refers to an object. *)
Record ShmOk (c : ShmCalls) (s : ShmSys) : Prop := {
  so_object : shm_sizes s !! new_object c = None;
  so_ptr : mapped (calls (shm_kern s)) !! new_ptr c = None;
  so_valid : 0 < new_ptr c < MAP_FAILED;
  so_names : ∀ n i, shm_names s !! n = Some i → is_Some (shm_sizes s !! i)
}.

(** What is left when the constructor has ended. *)
Definition shm_ends (name : text) (s : ShmSys) (r : outcome SharedMemory * ShmSys) : Prop :=
  match r with
  | (Ok m, s') =>
      (∃ i, Mapped s i (size_ m) m s' ∧ shm_names s' !! name = Some i ∧ shm_sizes s' !! i = Some (size_ m)) ∧
      Undone s (with_kern (shm_destroy m) s')
  | (Throw _, s') => Undone s s'
  | (Hang, _) => False
  end.

(** The end of the constructor, for an object whose size is known. *)
Lemma map_object_ends c name size fd i owner o s s1 :
  ShmOk c s → Opened s fd i s1 → shm_names s1 !! name = Some i → shm_sizes s1 !! i = Some size →
  shm_ends name s (map_object c name size fd owner o s1).
Proof.
  intros [Hobj Hptr Hval _] Hop Hn Hsz. pose proof (map_object_spec c name size fd i owner o s s1 Hop Hptr) as H.
  destruct (map_object _ _ _ _ _ _ _) as [[m|e|] s']; cbn; [|by destruct H|done].
  destruct H as (Hmap & Hnames & Hsizes & Hp & _ & _). pose proof Hmap as (_ & _ & _ & _ & Hsize & _). split.
  - exists i. rewrite Hnames, Hsizes, Hsize. done.
  - apply (destroy_undoes s i size m s' Hmap); [|by rewrite Hp]. unfold has_mapping. rewrite Hp.
    destruct (Z.eqb_spec (new_ptr c) 0), (Z.eqb_spec (new_ptr c) MAP_FAILED); [lia|lia|lia|done].
Qed.

Lemma shm_construct_ends c name size o s :
  0 <= size < 2 ^ 64 → ShmOk c s → shm_ends name s (shm_construct c name size o s).
Proof.
  intros Hs Hok. unfold shm_construct. set (creat := match mode o with Open => false | _ => true end).
  set (excl := match mode o with Create => true | _ => false end).
  pose proof (shm_open_spec c creat excl name s) as Hopen.
  destruct (shm_open _ _ _ _ _ _) as [[fd|e|] s1]; [|by subst|done].
  assert (∃ i n, Opened s fd i s1 ∧ shm_names s1 !! name = Some i ∧ shm_sizes s1 !! i = Some n) as (i & n & Hop & Hn & Hsz).
  { destruct Hopen as [(j & Hj & _ & Hop & -> & ->)|(_ & _ & Hop & -> & ->)].
    - destruct (so_names c s Hok name j Hj) as [n Hn]. by exists j, n.
    - exists (new_object c), 0. by rewrite !lookup_insert_eq. }
  assert (Hclosed : ∀ b, Undone s (unlink_if b name (with_kern (sys_close fd) s1))).
  { intros b. unfold Undone. rewrite unlink_if_kern. cbn. destruct Hop as [Hk Hf _]. by rewrite Hk, close_opened. }
  set (created := match mode o with Create => true | _ => _ end). destruct created.
  - destruct (ftruncate_spec (e_trunc c) fd size s i s1 Hop Hs) as [(e & He & ->)| ->].
    + apply Z.eqb_neq in He as ->. apply (Hclosed true).
    + cbn [Z.eqb negb]. apply (map_object_ends c name size fd i); [done| |done|apply lookup_insert_eq]. destruct Hop. by split.
  - rewrite (object_size_opened s fd i s1 Hop), Hsz. case_match; [apply (Hclosed false)|]. by apply (map_object_ends c name n fd i).
Qed.

(** An object that is in use, one with a size, keeps its name and its size. *)
Lemma shm_construct_keeps c name size o s j n :
  ShmOk c s → shm_names s !! name = Some j → shm_sizes s !! j = Some n → n ≠ 0 →
  shm_names (shm_construct c name size o s).2 = shm_names s ∧ shm_sizes (shm_construct c name size o s).2 = shm_sizes s.
Proof.
  intros Hok Hj Hn Hnz. unfold shm_construct. set (creat := match mode o with Open => false | _ => true end).
  set (excl := match mode o with Create => true | _ => false end).
  pose proof (shm_open_spec c creat excl name s) as Hopen.
  destruct (shm_open _ _ _ _ _ _) as [[fd|e|] s1]; [|by subst|done].
  destruct Hopen as [(j' & Hj' & Hce & Hop & Hn1 & Hs1)|(Habs & _)]; [|congruence]. replace j' with j in * by congruence.
  rewrite (object_size_opened s fd j s1 Hop), Hs1, Hn, bool_decide_false by congruence. rewrite andb_false_r.
  destruct (mode o); [done| |]; (case_match; [done|]);
    pose proof (map_object_spec c name n fd j false o s s1 Hop (so_ptr c s Hok)) as Hmap;
    cbn [default]; destruct (map_object _ _ _ _ _ _ _) as [[m|e|] s']; cbn;
    try (destruct Hmap as (_ & -> & -> & _)); try (destruct Hmap as (_ & -> & ->)); done.
Qed.

(** The constructor of shared memory, on every branch.  It either gives an
    object over one new descriptor and one new mapping, whose size is the size
    of the object behind the name, and which its destructor undoes; or it throws
    and leaves neither a descriptor nor a mapping.  An object of that name that
    already has a size is never resized and its name never removed. *)
Theorem shm_construct_spec c name size o s :
  0 <= size < 2 ^ 64 → ShmOk c s →
  shm_ends name s (shm_construct c name size o s) ∧
  (∀ j n, shm_names s !! name = Some j → shm_sizes s !! j = Some n → n ≠ 0 →
     shm_names (shm_construct c name size o s).2 = shm_names s ∧ shm_sizes (shm_construct c name size o s).2 = shm_sizes s).
Proof. intros Hs Hok. split; [by apply shm_construct_ends|]. intros j n Hj Hn Hnz. by apply (shm_construct_keeps c name size o s j n). Qed.

Definition shm_name : text := ["/"; "a"]%char.
Definition no_shm : ShmSys := MkShmSys ∅ ∅ (MkKernel ∅ false []).
Definition good_calls : ShmCalls := MkShmCalls 0 0 0 0 0 0 7 65536.
Definition default_options : SharedMemoryOptions := MkShmOptions OpenOrCreate 384 false false.

Lemma shm_construct_spec_witness :
  shm_ends shm_name no_shm (shm_construct good_calls shm_name 4096 default_options no_shm) ∧
  (shm_construct good_calls shm_name 4096 default_options no_shm).1 = Ok (MkShm shm_name 65536 4096 0 true).
Proof.
  split; [|by vm_compute]. apply (shm_construct_spec good_calls shm_name 4096 default_options no_shm); [lia|].
  split; [done|done|by split|]. intros n i H. by vm_compute in H.
Defined.

(** [OpenOrCreate] takes an object of size 0 for one it has created: when it
    fails, it removes the name of an object another process has just made. *)
Lemma shm_unlinks_foreign :
  let s := MkShmSys {[ shm_name := 3 ]} {[ 3 := 0 ]} (MkKernel ∅ false []) in
  let '(r, s') := shm_construct (MkShmCalls 0 0 0 0 12 0 7 65536) shm_name 4096 default_options s in
  r = Throw (SystemError 12) ∧ shm_names s' !! shm_name = None.
Proof. by vm_compute. Qed.

(** [flush(offset, length)] asks for a range that starts on a page, covers what
    was asked of the mapping and does not go beyond it. *)
Lemma flush_covers page off len m k :
  0 < page → 0 <= off < size_ m → size_ m < 2 ^ 64 → 0 <= len < 2 ^ 64 → has_mapping m = true →
  ∃ a l, calls (flush_range page off len m k) = calls k ++ [KMsync (ptr_ m + a) l] ∧
    (page | a) ∧ 0 <= a <= off ∧ a + l = off + Z.min len (size_ m - off) ∧ a + l <= size_ m.
Proof.
  intros Hp Hoff Hsz Hlen Hhas. unfold flush_range. rewrite Hhas, (proj2 (Z.ltb_lt _ _)) by lia. cbn [andb].
  pose proof (Z.mul_div_le off page Hp). pose proof (Z.div_pos off page ltac:(lia) Hp).
  unfold u64. rewrite !(wrap_small 64) by (rewrite ?(wrap_small 64) by nia; nia).
  exists (off / page * page), (Z.min len (size_ m - off) + (off - off / page * page)).
  split_and!; [done|by apply Z.divide_factor_r|nia|nia|lia|lia].
Qed.

(** [exists] leaves no descriptor behind. *)
Lemma exists_undone err name s : Undone s (exists_ err name s).2.
Proof.
  unfold exists_. pose proof (shm_open_spec (MkShmCalls err 0 0 0 0 0 0 0) false false name s) as H. cbn [e_open new_object] in H.
  destruct (shm_open err 0 false false name s) as [[fd|e|] s1]; [|by subst|done].
  destruct H as [(j & _ & _ & [Hk Hf _] & _)|(_ & [=] & _)]. unfold Undone. cbn. by rewrite Hk, close_opened.
Qed.

(** ** Message queues *)

Record MqOptions := MkMqOptions { maxMessages : Z; maxMessageSize : Z; mq_permissions : Z; blocking : bool }.

Record PosixMessageQueue := MkMq { mq_name : text; mqd_ : Z; maxSize_ : Z }.

Definition O_RDWR : Z := 2.
Definition O_CREAT : Z := 64.
Definition O_EXCL : Z := 128.
Definition O_NONBLOCK : Z := 2048.
Definition EAGAIN : Z := 11.
Definition ETIMEDOUT : Z := 110.

Definition mq_flags (md : SharedMemoryMode) (o : MqOptions) : Z :=
  let flags := match md with
               | Create => Z.lor (Z.lor O_CREAT O_EXCL) O_RDWR
               | Open => O_RDWR
               | OpenOrCreate => Z.lor O_CREAT O_RDWR
               end in
  if blocking o then flags else Z.lor flags O_NONBLOCK.

(** The constructor; [err] is the errno of [mq_open] with these flags. *)
Definition mq_construct (err : Z → Z) (f : Z) (name : text) (md : SharedMemoryMode) (o : MqOptions) (k : Kernel)
  : outcome PosixMessageQueue * Kernel :=
  let e := err (mq_flags md o) in
  if negb (e =? 0) then (Throw (SystemError e), k)
  else let '(fd, k') := sys_open f true k in (Ok (MkMq name fd (maxMessageSize o)), k').

Definition mq_destroy (q : PosixMessageQueue) (k : Kernel) : Kernel :=
  if negb (mqd_ q =? noFd) then sys_close (mqd_ q) k else k.

Definition mq_move_construct (y : PosixMessageQueue) (k : Kernel) : PosixMessageQueue * PosixMessageQueue * Kernel :=
  (MkMq (mq_name y) (mqd_ y) (maxSize_ y), MkMq [] noFd (maxSize_ y), k).

Definition mq_move_assign (self : bool) (x y : PosixMessageQueue) (k : Kernel) : PosixMessageQueue * PosixMessageQueue * Kernel :=
  if self then (x, y, k)
  else (MkMq (mq_name y) (mqd_ y) (maxSize_ y), MkMq [] noFd (maxSize_ y), mq_destroy x k).

(** No operation of a queue changes what it owns. *)
#[export] Instance mq_object : FdObject PosixMessageQueue unit := {
  fds q := if negb (mqd_ q =? noFd) then [mqd_ q] else [];
  run_op _ q k := ([], q, k);
  destroy := mq_destroy;
  move_construct := mq_move_construct;
  move_assign := mq_move_assign
}.

Lemma mq_destroy_close q k : mq_destroy q k = close_all (fds q) k.
Proof. unfold mq_destroy. cbn. by destruct (mqd_ q =? noFd). Qed.

#[export] Instance mq_laws : FdLaws PosixMessageQueue unit.
Proof.
  split.
  - intros o q k. by exists [].
  - intros q k. unfold destroy, mq_object. by rewrite mq_destroy_close.
  - intros y k. done.
  - intros x y k. split_and!; [done|done|]. by rewrite mq_destroy_close.
  - done.
Qed.

(** The calls on a queue; the system answers with an errno, 0 for success. *)
Inductive mq_call :=
  | MqSend (priority : Z)
  | MqTimedSend (priority sec nsec : Z)
  | MqReceive
  | MqTimedReceive (sec nsec : Z)
  | MqGetattr
  | MqUnlink.

Definition timespec : Type := Z * Z.

Section queue_calls.
Variable answer : mq_call → Z.

Definition sendImpl (priority : Z) (timeout : option timespec) : outcome bool :=
  let e := answer (match timeout with Some (s, n) => MqTimedSend priority s n | None => MqSend priority end) in
  if e =? 0 then Ok true
  else if (e =? EAGAIN) || (e =? ETIMEDOUT) then Ok false
  else Throw (SystemError e).

(** [send] drops what [sendImpl] returns. *)
Definition mq_send (priority : Z) : outcome unit := let* _ := sendImpl priority None in Ok tt.

Definition mq_trySend (priority : Z) : outcome bool := sendImpl priority (Some (0, 0)).

(** [n] is the length of the message received. *)
Definition receiveImpl (n : Z) (timeout : option timespec) : outcome (option Z) :=
  let e := answer (match timeout with Some (s, ns) => MqTimedReceive s ns | None => MqReceive end) in
  if e =? 0 then Ok (Some n)
  else if (e =? EAGAIN) || (e =? ETIMEDOUT) then Ok None
  else Throw (SystemError e).

Definition mq_receive (n : Z) : outcome Z :=
  let* r := receiveImpl n None in match r with Some m => Ok m | None => Throw RuntimeError end.

Definition mq_tryReceive (n : Z) : outcome (option Z) := receiveImpl n (Some (0, 0)).

Definition currentMessages (n : Z) : outcome Z :=
  if negb (answer MqGetattr =? 0) then Throw (SystemError (answer MqGetattr)) else Ok n.

Definition mq_unlink : outcome unit :=
  let e := answer MqUnlink in if negb (e =? 0) && negb (e =? ENOENT) then Throw (SystemError e) else Ok tt.

(** The deadline as a [timespec]: [time_point_cast] rounds toward zero. *)
Definition deadline_timespec (deadline : Z) : timespec :=
  let secs := Z.quot deadline ns_per_s in (secs, deadline - secs * ns_per_s).

Definition sendFor (now timeout priority : Z) : outcome bool :=
  sendImpl priority (Some (deadline_timespec (now + timeout))).

Definition receiveFor (now timeout n : Z) : outcome (option Z) :=
  receiveImpl n (Some (deadline_timespec (now + timeout))).
End queue_calls.

(** A deadline after the epoch is passed on exactly, in a form the system
    accepts. *)
Lemma deadline_timespec_spec d :
  0 <= d → let '(s, n) := deadline_timespec d in 0 <= s ∧ 0 <= n < ns_per_s ∧ s * ns_per_s + n = d.
Proof.
  intros Hd. unfold deadline_timespec, ns_per_s. pose proof (Z_quot_bounds d 1000000000 Hd ltac:(lia)).
  pose proof (Z.quot_pos d 1000000000 ltac:(lia) ltac:(lia)). lia.
Qed.

(** On a queue opened without blocking, [send] returns as if it had sent when
    the queue is full, while [receive] throws on an empty one. *)
Lemma mq_send_drops answer p :
  answer (MqSend p) = EAGAIN → mq_send answer p = Ok tt ∧ sendImpl answer p None = Ok false.
Proof. intros H. unfold mq_send, sendImpl. by rewrite H. Qed.

Lemma mq_receive_throws answer n : answer MqReceive = EAGAIN → mq_receive answer n = Throw RuntimeError.
Proof. intros H. unfold mq_receive, receiveImpl. by rewrite H. Qed.
