(* ===== verification/UnixSocket.v ===== *)
(** * Unix domain sockets (src/src/unix_socket.cpp)

    The socket object over the descriptor table, the addresses it builds, the
    ancillary messages that carry descriptors, and its options. *)

From S2P Require Import Prelude Text Descriptors.

Inductive UnixSocketType := Stream | Datagram | SeqPacket.

Record UnixSocket := MkSocket { fd_ : Z; type_ : UnixSocketType; boundPath_ : text }.

Definition socketTypeToNative (t : UnixSocketType) : Z :=
  match t with Stream => 1 | Datagram => 2 | SeqPacket => 5 end.

(** ** Addresses *)

Definition NUL : ascii := zero.

(** What a C string sees of some text. *)
Definition cstr (s : text) : text := (span (λ c, negb (Ascii.eqb c NUL)) s).1.

(** [strncpy] into [n] zeroed characters. *)
Definition strncpy (n : nat) (s : text) : text :=
  let p := take n (cstr s) in p ++ replicate (n - length p) NUL.

(** [sizeof(sun_path)]. *)
Definition sun_size : nat := 108.

(** [sun_path] for a path: one character less than its size is copied. *)
Definition sun_path (path : text) : text := strncpy (sun_size - 1) path ++ [NUL].

Definition path_too_long (path : text) : bool := (sun_size <=? length path)%nat.

(** [sun_path] of an abstract name, and the name the system takes from it, which
    is given by the length passed. *)
Definition abstract_path (name : text) : text := NUL :: strncpy (sun_size - 2) name ++ [NUL].
Definition abstract_name (name : text) : text := take (1 + length name) (abstract_path name).
Definition name_too_long (name : text) : bool := (sun_size - 1 <=? length name)%nat.

(** ** The object *)

(** The errno of the call, 0 for success. *)
Definition check (err : Z) {A} (a : A) : outcome A := if negb (err =? 0) then Throw (SystemError err) else Ok a.

Definition socket_construct (err f : Z) (t : UnixSocketType) (k : Kernel) : outcome UnixSocket * Kernel :=
  if negb (err =? 0) then (Throw (SystemError err), k)
  else let '(fd, k') := sys_open f true k in (Ok (MkSocket fd t []), k').

Definition unlink_bound (s : UnixSocket) (k : Kernel) : Kernel :=
  match boundPath_ s with [] => k | p => kcall_add (KUnlink (cstr p)) k end.

Definition socket_destroy (s : UnixSocket) (k : Kernel) : Kernel := unlink_bound s (close_if (fd_ s) k).

Definition socket_move_construct (y : UnixSocket) (k : Kernel) : UnixSocket * UnixSocket * Kernel :=
  (MkSocket (fd_ y) (type_ y) (boundPath_ y), MkSocket (-1) (type_ y) [], k).

Definition socket_move_assign (self : bool) (x y : UnixSocket) (k : Kernel) : UnixSocket * UnixSocket * Kernel :=
  if self then (x, y, k)
  else (MkSocket (fd_ y) (type_ y) (boundPath_ y), MkSocket (-1) (type_ y) [], unlink_bound x (close_if (fd_ x) k)).

(** [bind]: [err] is what the system answers for this address. *)
Definition bind (err : text → Z) (path : text) (s : UnixSocket) (k : Kernel) : outcome unit * UnixSocket * Kernel :=
  if path_too_long path then (Throw InvalidArgument, s, k)
  else
    let k1 := kcall_add (KUnlink (cstr path)) k in
    let e := err (sun_path path) in
    if negb (e =? 0) then (Throw (SystemError e), s, k1) else (Ok tt, MkSocket (fd_ s) (type_ s) path, k1).

Definition listen (err : Z) : outcome unit := check err tt.

(** [accept]: a new object over the descriptor of the connection. *)
Definition accept (err f : Z) (s : UnixSocket) (k : Kernel) : outcome UnixSocket * Kernel :=
  if negb (err =? 0) then (Throw (SystemError err), k)
  else let '(fd, k') := sys_open f true k in (Ok (MkSocket fd (type_ s) []), k').

Definition connect (err : text → Z) (path : text) : outcome unit :=
  if path_too_long path then Throw InvalidArgument else check (err (sun_path path)) tt.

(** [send] and [recv]: the count [n] or an errno. *)
Definition send (err n : Z) : outcome Z := check err n.
Definition recv (err n : Z) : outcome Z := check err n.

(** [sendTo] does not test the length of the path. *)
Definition sendTo (answer : text → Z * Z) (path : text) : outcome Z :=
  let '(err, n) := answer (sun_path path) in check err n.

(** [recvFrom]: the count, and the sender's path as a C string. *)
Definition recvFrom (err n : Z) (sender : text) : outcome (Z * text) := check err (n, cstr sender).

Definition releaseFd (s : UnixSocket) : Z * UnixSocket := (fd_ s, MkSocket (-1) (type_ s) []).

Definition abstract_bind (err : text → Z) (name : text) : outcome unit :=
  if name_too_long name then Throw InvalidArgument else check (err (abstract_name name)) tt.

Definition abstract_connect (err : text → Z) (name : text) : outcome unit :=
  if name_too_long name then Throw InvalidArgument else check (err (abstract_name name)) tt.

Inductive socket_op := SBind (err : text → Z) (path : text) | SRelease.

Definition socket_run (o : socket_op) (s : UnixSocket) (k : Kernel) : list Z * UnixSocket * Kernel :=
  match o with
  | SBind err path => let '(_, s', k') := bind err path s k in ([], s', k')
  | SRelease => let '(fd, s') := releaseFd s in (fd_list fd, s', k)
  end.

#[export] Instance socket_object : FdObject UnixSocket socket_op := {
  fds s := fd_list (fd_ s);
  run_op := socket_run;
  destroy := socket_destroy;
  move_construct := socket_move_construct;
  move_assign := socket_move_assign
}.

Lemma unlink_bound_equiv s k : unlink_bound s k ≡ k.
Proof. unfold unlink_bound. by destruct (boundPath_ s). Qed.

#[export] Instance socket_laws : FdLaws UnixSocket socket_op.
Proof.
  split.
  - intros [err path|] s k; cbn -[fds].
    + unfold bind. destruct (path_too_long path); [by exists []|]. destruct (err _ =? 0); by exists [].
    + exists []. split; [cbn; solve_Permutation|done].
  - intros s k. cbn. unfold socket_destroy. by rewrite unlink_bound_equiv, close_if_all.
  - intros y k. done.
  - intros x y k. cbn. split_and!; [done|done|]. by rewrite unlink_bound_equiv, close_if_all.
  - done.
Qed.

(** ** Ancillary messages *)

(** [CMSG_LEN] and [CMSG_SPACE] on a 64-bit system: a header of 16 bytes, data
    rounded up to 8. *)
Definition CMSG_ALIGN (n : Z) : Z := (n + 7) / 8 * 8.
Definition CMSG_LEN (n : Z) : Z := 16 + n.
Definition CMSG_SPACE (n : Z) : Z := 16 + CMSG_ALIGN n.

Definition SOL_SOCKET : Z := 1.
Definition SCM_RIGHTS : Z := 1.

(** A control message: its length, its kind, and the integers of its data. *)
Record cmsg := MkCmsg { cmsg_len : Z; cmsg_level : Z; cmsg_type : Z; cmsg_data : list Z }.

(** The message [sendFds] hands to [sendmsg], with the size of its buffer. *)
Definition sendFds_msg (l : list Z) : cmsg * Z :=
  let n := 4 * Z.of_nat (length l) in (MkCmsg (CMSG_LEN n) SOL_SOCKET SCM_RIGHTS l, CMSG_SPACE n).

Definition sendFds (answer : cmsg * Z → Z) (l : list Z) : outcome unit := check (answer (sendFds_msg l)) tt.

Definition sendFd (answer : cmsg * Z → Z) (fd : Z) : outcome unit := sendFds answer [fd].

(** The loop of [recvFds] over the control messages. *)
Definition collect_fds (msgs : list cmsg) : list Z :=
  foldl (λ r m, if (cmsg_level m =? SOL_SOCKET) && (cmsg_type m =? SCM_RIGHTS)
                then r ++ take (Z.to_nat ((cmsg_len m - CMSG_LEN 0) / 4)) (cmsg_data m) else r) [] msgs.

(** [recvFds]: [answer] is what the system does for a control buffer of the
    given size: an errno, or the messages it puts there. *)
Definition recvFds (answer : Z → Kernel → (Z + list cmsg) * Kernel) (maxFds : Z) (k : Kernel) : outcome (list Z) * Kernel :=
  match answer (CMSG_SPACE (maxFds * 4)) k with
  | (inl e, k') => (Throw (SystemError e), k')
  | (inr msgs, k') => (Ok (collect_fds msgs), k')
  end.

Definition recvFd (answer : Z → Kernel → (Z + list cmsg) * Kernel) (k : Kernel) : outcome Z * Kernel :=
  let '(r, k') := recvFds answer 1 k in
  (let* l := r in match l with [] => Throw RuntimeError | fd :: _ => Ok fd end, k').

(** ** Options *)

Definition O_NONBLOCK : Z := 2048.

(** [setNonBlocking]: the flags set, from the flags there were. *)
Definition nonblocking_flags (enabled : bool) (flags : Z) : Z :=
  if enabled then Z.lor flags O_NONBLOCK else Z.land flags (Z.lnot O_NONBLOCK).

Definition setNonBlocking (err_get err_set : Z) (enabled : bool) (flags : Z) : outcome Z :=
  if negb (err_get =? 0) then Throw (SystemError err_get) else check err_set (nonblocking_flags enabled flags).

(** A duration as a [timeval]. *)
Definition to_timeval (timeout : Z) : Z * Z :=
  let secs := Z.quot timeout ns_per_s in (secs, Z.quot (timeout - secs * ns_per_s) 1000).

Definition setReceiveTimeout (err : Z * Z → Z) (timeout : Z) : outcome (Z * Z) :=
  check (err (to_timeval timeout)) (to_timeval timeout).

Definition setSendTimeout (err : Z * Z → Z) (timeout : Z) : outcome (Z * Z) :=
  check (err (to_timeval timeout)) (to_timeval timeout).

Definition setPassCredentials (err : Z → Z) (enabled : bool) : outcome unit := check (err (if enabled then 1 else 0)) tt.

Record Credentials := MkCred { cred_pid : Z; cred_uid : Z; cred_gid : Z }.

Definition peerCredentials (err : Z) (pid uid gid : Z) : outcome Credentials := check err (MkCred pid uid gid).

(** ** Properties *)

Lemma cstr_id s : NUL ∉ s → cstr s = s.
Proof.
  unfold cstr. induction s as [|c s IH]; cbn; [done|]. intros [Hc Hs]%not_elem_of_cons.
  destruct (Ascii.eqb_spec c NUL) as [->|_]; [done|]. cbn. rewrite (surjective_pairing (span _ s)). cbn. by rewrite IH.
Qed.

Lemma cstr_no_nul s : NUL ∉ cstr s.
Proof.
  unfold cstr. intros H. pose proof (span_prefix (λ c, negb (Ascii.eqb c NUL)) s) as Hall.
  rewrite Forall_forall in Hall. by specialize (Hall NUL H).
Qed.

Lemma cstr_stop s r : NUL ∉ s → cstr (s ++ NUL :: r) = s.
Proof.
  unfold cstr. induction s as [|c s IH]; cbn; [done|]. intros [Hc Hs]%not_elem_of_cons.
  destruct (Ascii.eqb_spec c NUL) as [->|_]; [done|]. cbn. rewrite (surjective_pairing (span _ (s ++ NUL :: r))). cbn. by rewrite IH.
Qed.

Lemma take_no_nul n s : NUL ∉ s → NUL ∉ take n s.
Proof. intros H Hin. apply H. by eapply subseteq_take. Qed.

Lemma cstr_pad s n : NUL ∉ s → cstr (s ++ replicate n NUL ++ [NUL]) = s.
Proof. intros H. destruct n; cbn; by apply cstr_stop. Qed.

(** The path the system sees is the first 107 characters of the C string. *)
Lemma cstr_sun_path path : cstr (sun_path path) = take 107 (cstr path).
Proof.
  unfold sun_path, strncpy. rewrite <- app_assoc. apply cstr_pad, take_no_nul, cstr_no_nul.
Qed.

Lemma sun_path_length path : length (sun_path path) = sun_size.
Proof. unfold sun_path, strncpy. rewrite !length_app, length_replicate, length_take. unfold sun_size. cbn [length]. lia. Qed.

(** A path that [bind] and [connect] accept reaches the system, and the
    receiver's [recvFrom], as it is; one that is too long is refused there, but
    [sendTo] sends to the address of its first 107 characters. *)
Theorem socket_paths path err answer s k :
  NUL ∉ path →
  length (sun_path path) = sun_size ∧
  ((length path < 108)%nat →
     cstr (sun_path path) = path ∧
     (err (sun_path path) = 0 → (bind err path s k).1 = (Ok tt, MkSocket (fd_ s) (type_ s) path) ∧ connect err path = Ok tt) ∧
     recvFrom 0 1 (sun_path path) = Ok (1, path)) ∧
  ((108 <= length path)%nat →
     (bind err path s k).1 = (Throw InvalidArgument, s) ∧ connect err path = Throw InvalidArgument ∧
     sendTo answer path = sendTo answer (take 107 path) ∧ cstr (sun_path path) = take 107 path ∧ take 107 path ≠ path).
Proof.
  intros Hn. split; [apply sun_path_length|]. pose proof (cstr_sun_path path) as Hc. rewrite (cstr_id path Hn) in Hc. split.
  - intros Hlen. rewrite take_ge in Hc by lia. split; [done|]. split.
    + intros He. unfold bind, connect, path_too_long, check. rewrite (proj2 (Nat.leb_gt _ _)) by (unfold sun_size; lia). by rewrite He.
    + unfold recvFrom, check. cbn [Z.eqb negb]. by rewrite Hc.
  - intros Hlen. unfold bind, connect, path_too_long. rewrite (proj2 (Nat.leb_le _ _)) by (unfold sun_size; lia).
    split_and!; [done|done| |done|].
    + unfold sendTo, sun_path, strncpy. by rewrite !cstr_id, take_take by (try apply take_no_nul; done).
    + intros H. apply (f_equal length) in H. rewrite length_take in H. lia.
Qed.

Lemma socket_paths_witness :
  sendTo (λ _, (0, 5)) (replicate 120 "a"%char) = sendTo (λ _, (0, 5)) (replicate 107 "a"%char) ∧
  (bind (λ _, 0) ["s"%char] (MkSocket 3 Stream []) (MkKernel ∅ false [])).1 = (Ok tt, MkSocket 3 Stream ["s"%char]).
Proof.
  split.
  - apply (socket_paths (replicate 120 "a"%char) (λ _, 0) (λ _, (0, 5)) (MkSocket 3 Stream []) (MkKernel ∅ false [])); [|cbn; lia].
    by_decision.
  - apply (socket_paths ["s"%char] (λ _, 0) (λ _, (0, 5)) (MkSocket 3 Stream []) (MkKernel ∅ false []));
      [by_decision|cbn; lia|done].
Defined.

(** Abstract names without a zero are told apart. *)
Lemma abstract_name_spec name : NUL ∉ name → (length name < 107)%nat → abstract_name name = NUL :: name.
Proof.
  intros Hn Hlen. unfold abstract_name, abstract_path, strncpy. rewrite cstr_id by done. rewrite firstn_cons. f_equal.
  rewrite (take_ge name) by (unfold sun_size; lia). rewrite <- app_assoc. apply take_app_length.
Qed.

(** A name with a zero in it is cut there: two different names become one. *)
Lemma abstract_name_collides :
  abstract_name ["a"; NUL; "b"]%char = abstract_name ["a"; NUL; "c"]%char.
Proof. by vm_compute. Qed.

(** [setNonBlocking] changes one flag and leaves the others. *)
Lemma nonblocking_flags_spec enabled flags i :
  0 <= i → Z.testbit (nonblocking_flags enabled flags) i = if decide (i = 11) then enabled else Z.testbit flags i.
Proof.
  intros Hi. assert (Hb : Z.testbit O_NONBLOCK i = bool_decide (i = 11)).
  { replace O_NONBLOCK with (2 ^ 11) by done. rewrite Z.pow2_bits_eqb by lia.
    destruct (Z.eqb_spec 11 i), (bool_decide_reflect (i = 11)); congruence. }
  unfold nonblocking_flags. destruct enabled; rewrite ?Z.lor_spec, ?Z.land_spec, ?Z.lnot_spec by done; rewrite Hb;
    repeat case_decide; rewrite ?bool_decide_true, ?bool_decide_false by done; cbn; by destruct (Z.testbit flags i).
Qed.

(** A timeout is rounded down to microseconds; one below a microsecond becomes
    zero, which the system takes for no timeout at all. *)
Lemma to_timeval_spec t :
  0 <= t →
  let '(s, u) := to_timeval t in
  0 <= s ∧ 0 <= u < 1000000 ∧ s * ns_per_s + u * 1000 <= t < s * ns_per_s + u * 1000 + 1000 ∧
  ((s, u) = (0, 0) ↔ t < 1000).
Proof.
  intros Ht. unfold to_timeval, ns_per_s. pose proof (Z_quot_bounds t 1000000000 Ht ltac:(lia)) as H1.
  pose proof (Z.quot_pos t 1000000000 ltac:(lia) ltac:(lia)) as H0. set (q := t ÷ 1000000000) in *.
  pose proof (Z_quot_bounds (t - q * 1000000000) 1000 ltac:(lia) ltac:(lia)) as H2.
  pose proof (Z.quot_pos (t - q * 1000000000) 1000 ltac:(lia) ltac:(lia)) as H3.
  set (u := (t - q * 1000000000) ÷ 1000) in *. split_and!; try lia. split; [intros [= -> ->]; lia|]. intros. f_equal; lia.
Qed.

(** ** Passing descriptors *)

(** The system installs the files of a message as new descriptors, one after the
    other. *)
Fixpoint install (files : list Z) (k : Kernel) : list Z * Kernel :=
  match files with
  | [] => ([], k)
  | f :: fs => let '(fd, k1) := sys_open f false k in let '(l, k2) := install fs k1 in (fd :: l, k2)
  end.

(** [recvmsg] for a message with these files: as many as fit into the control
    buffer are installed, the others are dropped (unix(7)). *)
Definition deliver (files : list Z) (controllen : Z) (k : Kernel) : (Z + list cmsg) * Kernel :=
  let n := Z.to_nat ((controllen - CMSG_LEN 0) / 4) in
  let '(l, k') := install (take n files) k in
  (inr [MkCmsg (CMSG_LEN (4 * Z.of_nat (length l))) SOL_SOCKET SCM_RIGHTS l], k').

Lemma collect_one n l : Z.of_nat (length l) = n → collect_fds [MkCmsg (CMSG_LEN (4 * n)) SOL_SOCKET SCM_RIGHTS l] = l.
Proof.
  intros <-. unfold collect_fds, CMSG_LEN. cbn [foldl cmsg_level cmsg_type cmsg_len cmsg_data].
  replace (16 + 4 * Z.of_nat (length l) - (16 + 0)) with (Z.of_nat (length l) * 4) by lia.
  rewrite Z.div_mul, Nat2Z.id by lia. by rewrite firstn_all.
Qed.

Lemma install_spec files k :
  let '(l, k') := install files k in
  length l = length files ∧ open_fds k' ≡ₚ l ++ open_fds k ∧ open_ k ⊆ open_ k' ∧
  Forall2 (λ fd f, open_ k' !! fd = Some (MkFd f false)) l files.
Proof.
  revert k. induction files as [|f fs IH]; intros k; cbn; [done|].
  set (fd := lowest_free (open_ k)). set (k1 := MkKernel _ _ _). specialize (IH k1).
  destruct (install fs k1) as [l k2]. destruct IH as (Hlen & Hp & Hsub & Hall).
  pose proof (lowest_free_spec (open_ k)) as (_ & Hfree & _).
  assert (Hsub1 : open_ k ⊆ open_ k1) by by apply insert_subseteq.
  split_and!; [cbn; by rewrite Hlen| |by etrans|].
  - rewrite Hp. change k1 with (sys_open f false k).2. rewrite sys_open_fds. cbn. by rewrite <- Permutation_middle.
  - constructor; [|done]. eapply lookup_weaken; [|exact Hsub]. apply lookup_insert_eq.
Qed.

(** The buffer of [recvFds] holds an even number of descriptors. *)
Lemma buffer_room m : 0 <= m → (CMSG_SPACE (m * 4) - CMSG_LEN 0) / 4 = m + m mod 2.
Proof.
  intros Hm. unfold CMSG_SPACE, CMSG_LEN, CMSG_ALIGN. replace (16 + (m * 4 + 7) / 8 * 8 - (16 + 0)) with ((m * 4 + 7) / 8 * 2 * 4) by lia.
  rewrite Z.div_mul by lia. pose proof (Z.div_mod m 2 ltac:(lia)). pose proof (Z.mod_pos_bound m 2 ltac:(lia)).
  assert ((m * 4 + 7) / 8 = (m + m mod 2) / 2) as -> by
    (symmetry; apply (Z.div_unique _ 8 _ (m * 4 + 7 - 8 * ((m + m mod 2) / 2))); [left|lia];
     pose proof (Z.div_mod (m + m mod 2) 2 ltac:(lia)); pose proof (Z.mod_pos_bound (m + m mod 2) 2 ltac:(lia)); lia).
  pose proof (Z.div_mod (m + m mod 2) 2 ltac:(lia)). pose proof (Z.mod_pos_bound (m + m mod 2) 2 ltac:(lia)). lia.
Qed.

(** C30: Descriptors sent over a socket.  The message [sendFds] builds carries
    exactly its descriptors.  [recvFds] returns new descriptors for the files
    sent, in their order, all that the system has installed; it has asked for
    [maxFds], but the buffer has room for one more when that is odd.  So
    [recvFd], which returns the first, leaves a second one open that nobody
    knows of. *)
Theorem fd_passing l files maxFds k :
  0 <= maxFds →
  collect_fds [(sendFds_msg l).1] = l ∧ cmsg_len (sendFds_msg l).1 <= (sendFds_msg l).2 ∧
  (∃ l' k', recvFds (deliver files) maxFds k = (Ok l', k') ∧ open_fds k' ≡ₚ l' ++ open_fds k ∧
     Forall2 (λ fd f, open_ k' !! fd = Some (MkFd f false)) l' (take (Z.to_nat (maxFds + maxFds mod 2)) files)) ∧
  ((2 <= length files)%nat → ∃ fd fd' k', recvFd (deliver files) k = (Ok fd, k') ∧ open_fds k' ≡ₚ fd :: fd' :: open_fds k).
Proof.
  intros Hm.
  assert (Hrecv : ∀ m, 0 <= m → ∃ l' k', recvFds (deliver files) m k = (Ok l', k') ∧ open_fds k' ≡ₚ l' ++ open_fds k ∧
     Forall2 (λ fd f, open_ k' !! fd = Some (MkFd f false)) l' (take (Z.to_nat (m + m mod 2)) files)).
  { intros m Hm'. unfold recvFds, deliver. rewrite buffer_room by done.
    pose proof (install_spec (take (Z.to_nat (m + m mod 2)) files) k) as H.
    destruct (install _ k) as [l' k']. destruct H as (_ & Hp & _ & Hall). exists l', k'. by rewrite collect_one. }
  split_and!; [by apply collect_one| |by apply Hrecv|].
  - cbn. unfold CMSG_LEN, CMSG_SPACE, CMSG_ALIGN. pose proof (Z.mul_div_le (4 * Z.of_nat (length l) + 7) 8 ltac:(lia)).
    pose proof (Z.mul_succ_div_gt (4 * Z.of_nat (length l) + 7) 8 ltac:(lia)). lia.
  - intros Hlen. destruct (Hrecv 1 ltac:(lia)) as (l' & k' & Hr & Hp & Hall). unfold recvFd. rewrite Hr.
    apply Forall2_length in Hall. rewrite length_take in Hall. replace (Z.to_nat (1 + 1 mod 2)) with 2%nat in Hall by done.
    destruct l' as [|fd [|fd' [|? ?]]]; cbn [length] in Hall; try lia. by exists fd, fd', k'.
Qed.

Lemma fd_passing_witness :
  ∃ fd fd' k', recvFd (deliver [7; 8; 9]) (MkKernel {[ 0 := MkFd 1 false ]} false []) = (Ok fd, k') ∧
    open_fds k' ≡ₚ fd :: fd' :: open_fds (MkKernel {[ 0 := MkFd 1 false ]} false []).
Proof. apply (fd_passing [5] [7; 8; 9] 1 (MkKernel {[ 0 := MkFd 1 false ]} false [])); [lia|cbn; lia]. Defined.
