(* ===== verification/Process.v ===== *)
(** * Launching processes (src/src/process.cpp, src/src/diagnostics.cpp)

    [launchProcess] with everything it does to the descriptors of the parent and
    of the child, the events it emits and the errors it turns into exceptions.
    What the system answers is a record of answers; the child's side is the list
    of its calls and how it ends, by [exec] or by [_exit]. *)

From S2P Require Import Prelude Text Topology Descriptors.

Record FdRedirect := MkRedirect { rfd : option Z; closeAfterDup : bool }.

Definition noRedirect : FdRedirect := MkRedirect None false.

Record ProcessConfig := MkConfig {
  executable : text;
  arguments : list text;
  environment : list text;
  inheritEnvironment : bool;
  workingDirectory : option text;
  cpuAffinity : option CpuSet;
  numaNode : option Z;
  niceValue : option Z;
  searchPath : bool;
  stdinRedirect : FdRedirect;
  stdoutRedirect : FdRedirect;
  stderrRedirect : FdRedirect;
  newSession : bool;
  parentDeathSignal : option Z;
  parentCloseFds : list Z;
  cgroupPath : option text;
  ioniceClass : option Z;
  ionicePriority : option Z;
  usePosixSpawn : bool
}.

(** A default configuration for a program. *)
Definition newConfig (exe : text) : ProcessConfig :=
  MkConfig exe [] [] true None None None None true noRedirect noRedirect noRedirect false None [] None None None false.

(** ** Events (diagnostics.cpp) *)

Inductive ProcessEventType := LaunchAttempt | LaunchSuccess | LaunchFailure | Exit.

(** An event without its time and its message. *)
Record ProcessEvent := MkEvent { ev_type : ProcessEventType; ev_pid : Z; ev_executable : text; ev_status : Z; ev_error : Z }.

(** The observer slot, and the calls observers have received: an event goes to
    the observer that is set when it is emitted. *)
Record Diagnostics := MkDiag { processObserver : option Z; delivered : list (Z * ProcessEvent) }.

Definition setProcessObserver (o : option Z) (d : Diagnostics) : Diagnostics := MkDiag o (delivered d).

Definition dispatchEvent (e : ProcessEvent) (d : Diagnostics) : Diagnostics :=
  match processObserver d with
  | Some o => MkDiag (Some o) (delivered d ++ [(o, e)])
  | None => d
  end.

(** ** Arguments and environment *)

Definition buildArgumentVector (c : ProcessConfig) : list text := executable c :: arguments c.

(** An array of C strings, ended by a null pointer. *)
Definition toCharPtrs (l : list text) : list (option text) := (Some <$> l) ++ [None].

Definition buildEnvironment (environ : list text) (c : ProcessConfig) : list text :=
  (if inheritEnvironment c then environ else []) ++ environment c.

(** ** Redirections in the child *)

(** [applyRedirect] on the child's table; [None] is [_exit(126)]. *)
Definition applyRedirect (r : FdRedirect) (target : Z) (t : FdTable) : option FdTable :=
  match rfd r with
  | None => Some t
  | Some fd =>
      t1 ← (if negb (fd =? target) then sys_dup2 fd target t else Some t);
      Some (if closeAfterDup r && negb (fd =? target) then delete fd t1 else t1)
  end.

Definition applyRedirects (c : ProcessConfig) (t : FdTable) : option FdTable :=
  t0 ← applyRedirect (stdinRedirect c) 0 t;
  t1 ← applyRedirect (stdoutRedirect c) 1 t0;
  applyRedirect (stderrRedirect c) 2 t1.

(** The file actions [launchWithPosixSpawn] builds. *)
Inductive file_action := ADup2 (old new : Z) | AClose (fd : Z).

(** [posix_spawn_file_actions_adddup2] and [_addclose]: a descriptor that is
    negative or not below [openMax] is refused with [EBADF], and then no action
    is added. *)
Definition valid_fd (openMax fd : Z) : bool := (0 <=? fd) && (fd <? openMax).

Definition EBADF : Z := 9.

Definition adddup2 (openMax old new : Z) (acts : list file_action) : Z * list file_action :=
  if valid_fd openMax old && valid_fd openMax new then (0, acts ++ [ADup2 old new]) else (EBADF, acts).

Definition addclose (openMax fd : Z) (acts : list file_action) : Z * list file_action :=
  if valid_fd openMax fd then (0, acts ++ [AClose fd]) else (EBADF, acts).

(** The lambda [addRedirect]; it does not look at the errors. *)
Definition addRedirect (openMax : Z) (r : FdRedirect) (target : Z) (acts : list file_action) : list file_action :=
  match rfd r with
  | None => acts
  | Some fd =>
      let '(_, acts1) := adddup2 openMax fd target acts in
      if closeAfterDup r then (addclose openMax fd acts1).2 else acts1
  end.

Definition file_actions (openMax : Z) (c : ProcessConfig) : list file_action :=
  addRedirect openMax (stderrRedirect c) 2 (addRedirect openMax (stdoutRedirect c) 1 (addRedirect openMax (stdinRedirect c) 0 [])).

(** What [posix_spawn] does with them: a [dup2] of a descriptor onto itself
    clears its close-on-exec flag, closing a descriptor that is not open is
    ignored. *)
Definition run_action (a : file_action) (t : FdTable) : option FdTable :=
  match a with
  | ADup2 old new =>
      e ← t !! old; Some (<[new := MkFd (file e) false]> t)
  | AClose fd => Some (delete fd t)
  end.

Fixpoint run_actions (l : list file_action) (t : FdTable) : option FdTable :=
  match l with
  | [] => Some t
  | a :: l' => t' ← run_action a t; run_actions l' t'
  end.

(** ** The child *)

Inductive child_call := CChdir (path : text) | CSetsid | CPdeathsig (sig : Z) | CSetpriority (nice : Z).

(** A program, or an exit code. *)
Inductive child_end :=
  | Exec (search : bool) (exe : text) (argv envp : list (option text)) (t : FdTable)
  | Exited (code : Z).

Definition opt_call {A} (f : A → child_call) (o : option A) : list child_call :=
  match o with Some a => [f a] | None => [] end.

(** The answers of the system.  Errnos are 0 for success; [a_openMax] is
    [sysconf(_SC_OPEN_MAX)]. *)
Record Answers := MkAnswers {
  a_environ : list text;
  a_topo : SystemTopology;
  a_fork : Z;
  a_pid : Z;
  a_chdir : bool;
  a_exec : Z;
  a_pidfd : bool;
  a_cgroup_open : bool;
  a_cgroup_write : bool;
  a_ioprio : Z;
  a_openMax : Z
}.

(** What the child does after [fork]; the results of [setsid], [prctl] and
    [setpriority] are not looked at. *)
Definition child_main (a : Answers) (c : ProcessConfig) (argv envp : list (option text)) (t : FdTable)
  : list child_call * child_end :=
  let chdir := opt_call CChdir (workingDirectory c) in
  if bool_decide (is_Some (workingDirectory c)) && negb (a_chdir a) then (chdir, Exited 126)
  else
    let setup := chdir ++ (if newSession c then [CSetsid] else []) ++ opt_call CPdeathsig (parentDeathSignal c) ++
                 opt_call CSetpriority (niceValue c) in
    match applyRedirects c t with
    | None => (setup, Exited 126)
    | Some t' =>
        if a_exec a =? 0 then (setup, Exec (searchPath c) (executable c) argv envp (exec_table t'))
        else (setup, Exited 127)
    end.

(** ** The parent *)

Record ProcessHandle := MkHandle { pid_ : Z; executable_ : text; pidfd_ : Z }.

Definition emptyHandle : ProcessHandle := MkHandle (-1) [] (-1).

Definition valid (h : ProcessHandle) : bool := pid_ h >? 0.

(** The parent while it launches: its descriptors, the events, the affinity it
    sets, and the child. *)
Record Launch := MkLaunch {
  l_kern : Kernel;
  l_diag : Diagnostics;
  l_affinity : option (Z * CpuSet);
  l_child : option (list child_call * child_end)
}.

Definition emit (e : ProcessEvent) (l : Launch) : Launch :=
  MkLaunch (l_kern l) (dispatchEvent e (l_diag l)) (l_affinity l) (l_child l).

Definition on_kern (f : Kernel → Kernel) (l : Launch) : Launch :=
  MkLaunch (f (l_kern l)) (l_diag l) (l_affinity l) (l_child l).

Definition with_child (ch : list child_call * child_end) (l : Launch) : Launch :=
  MkLaunch (l_kern l) (l_diag l) (l_affinity l) (Some ch).

Definition canUsePosixSpawn (c : ProcessConfig) : bool :=
  if negb (usePosixSpawn c) then false
  else if bool_decide (is_Some (workingDirectory c)) || newSession c || bool_decide (is_Some (parentDeathSignal c)) ||
          bool_decide (is_Some (niceValue c)) || bool_decide (is_Some (cgroupPath c)) || bool_decide (is_Some (ioniceClass c))
       then false
  else true.

Definition applyPostSpawnParentWork (c : ProcessConfig) (pid : Z) (affinity : option CpuSet) (l : Launch) : Launch :=
  let l1 := match affinity with
            | Some s => MkLaunch (l_kern l) (l_diag l) (Some (pid, s)) (l_child l)
            | None => l
            end in
  on_kern (λ k, foldl (λ k fd, close_if fd k) k (parentCloseFds c)) l1.

(** The file behind a descriptor of a process. *)
Definition pidfd_file (pid : Z) : Z := - pid - 1.

Definition openPidfd (a : Answers) (pid : Z) (l : Launch) : Z * Launch :=
  if a_pidfd a
  then let '(fd, k) := sys_open (pidfd_file pid) true (l_kern l) in (fd, on_kern (λ _, k) l)
  else (-1, l).

Definition closePidfd (h : ProcessHandle) (k : Kernel) : ProcessHandle * Kernel :=
  if pidfd_ h >=? 0 then (MkHandle (pid_ h) (executable_ h) (-1), sys_close (pidfd_ h) k) else (h, k).

Definition handle_destroy (h : ProcessHandle) (k : Kernel) : Kernel := (closePidfd h k).2.

(** [operator=(ProcessHandle&&)]; [self] is [this == &other]. *)
Definition handle_move_assign (self : bool) (x y : ProcessHandle) (k : Kernel) : ProcessHandle * ProcessHandle * Kernel :=
  if self then (x, y, k)
  else let '(_, k1) := closePidfd x k in (MkHandle (pid_ y) (executable_ y) (pidfd_ y), MkHandle (-1) [] (-1), k1).

Definition handle_move_construct (y : ProcessHandle) (k : Kernel) : ProcessHandle * ProcessHandle * Kernel :=
  handle_move_assign false emptyHandle y k.

(** [attachToCgroup] and [setIoPriority] on a handle. *)
Definition attachToCgroup (a : Answers) (h : ProcessHandle) : outcome unit :=
  if negb (valid h) then Throw LogicError
  else if negb (a_cgroup_open a) then Throw RuntimeError
  else if negb (a_cgroup_write a) then Throw RuntimeError
  else Ok tt.

(** The value passed to [ioprio_set]. *)
Definition ioprio_value (klass priority : Z) : Z := Z.lor (Z.shiftl klass 13) (Z.land priority 4095).

Definition setIoPriority (err : Z) (klass priority : Z) (h : ProcessHandle) : outcome Z :=
  if negb (valid h) then Throw LogicError
  else if negb (err =? 0) then Throw (SystemError err) else Ok (ioprio_value klass priority).

(** [finalizeHandle]: an exception destroys the handle. *)
Definition finalizeHandle (a : Answers) (c : ProcessConfig) (pid pidfd : Z) (l : Launch) : outcome ProcessHandle * Launch :=
  let h := MkHandle pid (executable c) pidfd in
  let r :=
    let* _ := (if bool_decide (is_Some (cgroupPath c)) then attachToCgroup a h else Ok tt) in
    match ioniceClass c with
    | Some k => let* _ := setIoPriority (a_ioprio a) k (default 0 (ionicePriority c)) h in Ok h
    | None => Ok h
    end in
  match r with
  | Ok h' => (Ok h', l)
  | Throw e => (Throw e, on_kern (handle_destroy h) l)
  | Hang => (Hang, l)
  end.

(** The end of both ways of launching. *)
Definition launched (a : Answers) (c : ProcessConfig) (affinity : option CpuSet) (l : Launch) : outcome ProcessHandle * Launch :=
  let l1 := emit (MkEvent LaunchSuccess (a_pid a) (executable c) 0 0) l in
  let l2 := applyPostSpawnParentWork c (a_pid a) affinity l1 in
  let '(pidfd, l3) := openPidfd a (a_pid a) l2 in
  finalizeHandle a c (a_pid a) pidfd l3.

(** [posix_spawn] fails when the process cannot be made, when a file action
    fails, and when the program cannot be run. *)
Definition spawn_rc (a : Answers) (c : ProcessConfig) (t : FdTable) : Z :=
  if negb (a_fork a =? 0) then a_fork a
  else match run_actions (file_actions (a_openMax a) c) t with None => EBADF | Some _ => a_exec a end.

Definition launchWithPosixSpawn (a : Answers) (c : ProcessConfig) (argv envp : list (option text)) (affinity : option CpuSet)
  (l : Launch) : outcome ProcessHandle * Launch :=
  let t := open_ (l_kern l) in
  let rc := spawn_rc a c t in
  if negb (rc =? 0)
  then (Throw (SystemError rc), emit (MkEvent LaunchFailure (-1) (executable c) 0 rc) l)
  else
    let t' := default t (run_actions (file_actions (a_openMax a) c) t) in
    launched a c affinity (with_child ([], Exec (searchPath c) (executable c) argv envp (exec_table t')) l).

(** The affinity, from the configuration or from its NUMA node; an unknown node
    is ignored. *)
Definition launch_affinity (a : Answers) (c : ProcessConfig) : option CpuSet :=
  match cpuAffinity c, numaNode c with
  | Some s, _ => Some s
  | None, Some n => match cpuSetForNode n (a_topo a) with Ok s => Some s | _ => None end
  | None, None => None
  end.

Definition launchProcess (a : Answers) (c : ProcessConfig) (l : Launch) : outcome ProcessHandle * Launch :=
  match executable c with
  | [] => (Throw InvalidArgument, l)
  | _ =>
      let affinity := launch_affinity a c in
      let l1 := emit (MkEvent LaunchAttempt (-1) (executable c) 0 0) l in
      let argv := toCharPtrs (buildArgumentVector c) in
      let envp := toCharPtrs (buildEnvironment (a_environ a) c) in
      if canUsePosixSpawn c then launchWithPosixSpawn a c argv envp affinity l1
      else if negb (a_fork a =? 0)
      then (Throw (SystemError (a_fork a)), emit (MkEvent LaunchFailure (-1) (executable c) 0 (a_fork a)) l1)
      else launched a c affinity (with_child (child_main a c argv envp (open_ (l_kern l1))) l1)
  end.

(** ** The environment the child sees *)

(** The C library's [getenv]: the first entry for the name. *)
Fixpoint getenv (env : list text) (name : text) : option text :=
  match env with
  | [] => None
  | e :: env' =>
      let p := name ++ ["="%char] in
      if starts_with p e then Some (drop (length p) e) else getenv env' name
  end.

Lemma getenv_app e1 e2 n : getenv (e1 ++ e2) n = match getenv e1 n with Some v => Some v | None => getenv e2 n end.
Proof. induction e1 as [|x e1 IH]; cbn [app getenv]; [done|]. rewrite IH. by destruct (starts_with _ x). Qed.

(** With the environment inherited, a variable the parent already has keeps the
    parent's value: an entry of the configuration counts only where the parent
    has none. *)
Lemma environment_override environ c n :
  getenv (buildEnvironment environ c) n =
  if inheritEnvironment c then match getenv environ n with Some v => Some v | None => getenv (environment c) n end
  else getenv (environment c) n.
Proof. unfold buildEnvironment. rewrite getenv_app. by destruct (inheritEnvironment c). Qed.

(** ** I/O priorities *)

Lemma shifted_disjoint a b n : 0 < n → 0 <= b < 2 ^ n → Z.land (a * 2 ^ n) b = 0.
Proof.
  intros Hn Hb. apply Z.bits_inj'. intros i Hi. rewrite Z.land_spec, Z.bits_0.
  destruct (decide (i < n)); [by rewrite Z.mul_pow2_bits_low by lia|].
  rewrite (Z.bits_above_log2 b i), andb_false_r; [done|lia|].
  destruct (decide (b = 0)) as [->|]; [cbn; lia|]. apply Z.log2_lt_pow2; [lia|].
  assert (2 ^ n <= 2 ^ i) by (apply Z.pow_le_mono_r; lia). lia.
Qed.

(** The class and the level can be read back, the level up to 4095. *)
Lemma ioprio_roundtrip klass priority :
  Z.shiftr (ioprio_value klass priority) 13 = klass ∧ Z.land (ioprio_value klass priority) 8191 = priority mod 4096.
Proof.
  unfold ioprio_value. change 4095 with (Z.ones 12). change 8191 with (Z.ones 13). rewrite Z.land_ones by lia.
  assert (Hb : 0 <= priority mod 2 ^ 12 < 2 ^ 12) by (apply Z.mod_pos_bound; lia).
  assert (Hadd : Z.lor (Z.shiftl klass 13) (priority mod 2 ^ 12) = klass * 2 ^ 13 + priority mod 2 ^ 12).
  { rewrite Z.shiftl_mul_pow2 by lia. pose proof (shifted_disjoint klass (priority mod 2 ^ 12) 13 ltac:(lia) ltac:(lia)) as Hd.
    rewrite <- Z.lxor_lor by done. symmetry. by apply Z.add_nocarry_lxor. }
  rewrite Hadd, Z.shiftr_div_pow2, Z.land_ones by lia. change 4096 with (2 ^ 12). set (p := priority mod 2 ^ 12) in *. clearbody p. split.
  - symmetry. apply (Z.div_unique_pos _ _ _ p); lia.
  - symmetry. apply (Z.mod_unique_pos _ _ klass); lia.
Qed.

(** ** Redirections *)

(** The descriptor of the table's entry, as [dup2] copies it. *)
Definition dup_entry (e : FdEntry) : FdEntry := MkFd (file e) false.

(** Redirection [r] closes the descriptor that [r'] needs. *)
Definition takes_from (r r' : FdRedirect) : bool :=
  closeAfterDup r && bool_decide (is_Some (rfd r') ∧ rfd r = rfd r').

(** A redirection that does nothing, or from an open descriptor that is not one
    of the three. *)
Definition plain (t : FdTable) (r : FdRedirect) : Prop :=
  match rfd r with None => True | Some fd => 3 <= fd ∧ is_Some (t !! fd) end.

Lemma applyRedirect_spec r i t :
  i < 3 →
  match rfd r with
  | None => applyRedirect r i t = Some t
  | Some fd =>
      3 <= fd →
      applyRedirect r i t =
        e ← t !! fd; Some (let t' := <[i := dup_entry e]> t in if closeAfterDup r then delete fd t' else t')
  end.
Proof.
  intros Hi. unfold applyRedirect, sys_dup2. destruct (rfd r) as [fd|]; [|done]. intros Hfd.
  rewrite (proj2 (Z.eqb_neq _ _)) by lia. cbn. rewrite andb_true_r. by destruct (t !! fd).
Qed.

(** One redirection: whether it fails, and the table it leaves. *)
Lemma applyRedirect_table r i t :
  i < 3 → plain t r →
  ∃ t', applyRedirect r i t = Some t' ∧
    ∀ fd, t' !! fd =
      if decide (fd = i) then match rfd r with Some s => dup_entry <$> t !! s | None => t !! i end
      else if closeAfterDup r && bool_decide (rfd r = Some fd) then None else t !! fd.
Proof.
  intros Hi Hp. pose proof (applyRedirect_spec r i t Hi) as H. unfold plain in Hp. destruct (rfd r) as [s|] eqn:Er.
  - destruct Hp as [Hs [e He]]. rewrite (H Hs), He. cbn. eexists. split; [done|]. intros fd.
    destruct (decide (fd = i)) as [->|Hne].
    + destruct (closeAfterDup r); [rewrite lookup_delete_ne by lia|]; apply lookup_insert_eq.
    + destruct (closeAfterDup r); cbn; [|by rewrite lookup_insert_ne by done].
      destruct (decide (fd = s)) as [->|]; [rewrite bool_decide_true by done; apply lookup_delete_eq|].
      rewrite bool_decide_false by congruence. by rewrite lookup_delete_ne, lookup_insert_ne by done.
  - exists t. split; [done|]. intros fd. case_decide as E; [by subst|]. rewrite bool_decide_false by done. by rewrite andb_false_r.
Qed.

(** What one redirection leaves to a later one. *)
Lemma plain_later r r' i t t' :
  i < 3 → plain t r → plain t r' → applyRedirect r i t = Some t' →
  if takes_from r r' then ∃ fd, rfd r' = Some fd ∧ 3 <= fd ∧ t' !! fd = None
  else plain t' r' ∧ ∀ fd, rfd r' = Some fd → t' !! fd = t !! fd.
Proof.
  intros Hi Hp Hp' Ha. destruct (applyRedirect_table r i t Hi Hp) as (t1 & Ha' & Ht). assert (t1 = t') as -> by congruence.
  unfold takes_from, plain in *. destruct (rfd r') as [fd|] eqn:Er'.
  - destruct Hp' as [Hfd He]. pose proof (Ht fd) as Hfd'. rewrite decide_False in Hfd' by lia.
    destruct (closeAfterDup r); cbn in *.
    + destruct (decide (rfd r = Some fd)) as [E|E].
      * rewrite bool_decide_true by (split; [by eexists|done]). exists fd. split_and!; [done|done|]. by rewrite bool_decide_true in Hfd'.
      * rewrite bool_decide_false by naive_solver. rewrite bool_decide_false in Hfd' by done. rewrite Hfd'. split; [done|]. by intros ? [= <-].
    + rewrite Hfd'. split; [done|]. by intros ? [= <-].
  - rewrite bool_decide_false by (intros [[? ?] _]; done). rewrite andb_false_r. done.
Qed.

Lemma applyRedirect_gone r i fd t : i < 3 → rfd r = Some fd → 3 <= fd → t !! fd = None → applyRedirect r i t = None.
Proof. intros Hi Hr Hfd Ht. pose proof (applyRedirect_spec r i t Hi) as H. rewrite Hr in H. rewrite H by done. by rewrite Ht. Qed.

(** The redirection of each of the three standard descriptors. *)
Definition redirect_of (c : ProcessConfig) (i : Z) : FdRedirect :=
  if i =? 0 then stdinRedirect c else if i =? 1 then stdoutRedirect c else if i =? 2 then stderrRedirect c else noRedirect.

(** Some redirection closes [fd]. *)
Definition closes (c : ProcessConfig) (fd : Z) : bool :=
  existsb (λ r, closeAfterDup r && bool_decide (rfd r = Some fd)) [stdinRedirect c; stdoutRedirect c; stderrRedirect c].

(** The table three redirections leave, when none takes another's descriptor. *)
Lemma applyRedirects_table c t :
  plain t (stdinRedirect c) → plain t (stdoutRedirect c) → plain t (stderrRedirect c) →
  takes_from (stdinRedirect c) (stdoutRedirect c) = false → takes_from (stdinRedirect c) (stderrRedirect c) = false →
  takes_from (stdoutRedirect c) (stderrRedirect c) = false →
  ∃ t', applyRedirects c t = Some t' ∧
    (∀ i, 0 <= i < 3 → t' !! i = match rfd (redirect_of c i) with Some s => dup_entry <$> t !! s | None => t !! i end) ∧
    (∀ fd, 3 <= fd → t' !! fd = if closes c fd then None else t !! fd).
Proof.
  intros H0 H1 H2 T01 T02 T12. unfold applyRedirects, closes.
  destruct (applyRedirect_table _ 0 t ltac:(lia) H0) as (t0 & E0 & L0). rewrite E0. cbn [mbind option_bind].
  pose proof (plain_later _ _ 0 t t0 ltac:(lia) H0 H1 E0) as P1. rewrite T01 in P1. destruct P1 as [P1 K1].
  pose proof (plain_later _ _ 0 t t0 ltac:(lia) H0 H2 E0) as P2. rewrite T02 in P2. destruct P2 as [P2 K2].
  destruct (applyRedirect_table _ 1 t0 ltac:(lia) P1) as (t1 & E1 & L1). rewrite E1. cbn [mbind option_bind].
  pose proof (plain_later _ _ 1 t0 t1 ltac:(lia) P1 P2 E1) as P3. rewrite T12 in P3. destruct P3 as [P3 K3].
  destruct (applyRedirect_table _ 2 t1 ltac:(lia) P3) as (t2 & E2 & L2). rewrite E2. exists t2. split; [done|].
  assert (Hlow : ∀ j r, j < 3 → plain t r → bool_decide (rfd r = Some j) = false).
  { intros j r Hj Hr. apply bool_decide_false. intros E. unfold plain in Hr. rewrite E in Hr. lia. }
  split.
  - assert (Hskip : ∀ (r : FdRedirect) (j n : Z) (A B : option FdEntry), j < 3 → j ≠ n → plain t r →
      (if decide (j = n) then A else if closeAfterDup r && bool_decide (rfd r = Some j) then None else B) = B).
    { intros r j n A B Hj Hn Hr. by rewrite decide_False, Hlow, andb_false_r by done. }
    intros i Hi. unfold redirect_of. assert (i = 0 ∨ i = 1 ∨ i = 2) as [->|[->| ->]] by lia; cbn [Z.eqb Pos.eqb].
    + by rewrite L2, Hskip, L1, Hskip, L0, decide_True.
    + rewrite L2, Hskip, L1, decide_True by done. destruct (rfd (stdoutRedirect c)) as [s|] eqn:Es; [by rewrite (K1 s)|].
      by rewrite L0, Hskip.
    + rewrite L2, decide_True by done. destruct (rfd (stderrRedirect c)) as [s|] eqn:Es; [by rewrite (K3 s), (K2 s)|].
      by rewrite L1, Hskip, L0, Hskip.
  - intros fd Hfd. rewrite L2, decide_False, L1, decide_False, L0, decide_False by lia. cbn [existsb].
    by destruct (closeAfterDup (stdinRedirect c) && _), (closeAfterDup (stdoutRedirect c) && _), (closeAfterDup (stderrRedirect c) && _).
Qed.

(** One redirection that takes the descriptor of a later one stops the child. *)
Lemma applyRedirects_conflict c t :
  plain t (stdinRedirect c) → plain t (stdoutRedirect c) → plain t (stderrRedirect c) →
  takes_from (stdinRedirect c) (stdoutRedirect c) || takes_from (stdinRedirect c) (stderrRedirect c) ||
  takes_from (stdoutRedirect c) (stderrRedirect c) = true →
  applyRedirects c t = None.
Proof.
  intros H0 H1 H2 HT. unfold applyRedirects.
  destruct (applyRedirect_table _ 0 t ltac:(lia) H0) as (t0 & E0 & L0). rewrite E0. cbn [mbind option_bind].
  pose proof (plain_later _ _ 0 t t0 ltac:(lia) H0 H1 E0) as P1. destruct (takes_from (stdinRedirect c) (stdoutRedirect c)).
  { destruct P1 as (fd & Hr & Hfd & Hg). by rewrite (applyRedirect_gone _ 1 fd t0). }
  destruct P1 as [P1 _]. destruct (applyRedirect_table _ 1 t0 ltac:(lia) P1) as (t1 & E1 & L1). rewrite E1. cbn [mbind option_bind].
  pose proof (plain_later _ _ 0 t t0 ltac:(lia) H0 H2 E0) as P2. destruct (takes_from (stdinRedirect c) (stderrRedirect c)).
  { destruct P2 as (fd & Hr & Hfd & Hg). apply (applyRedirect_gone _ 2 fd t1); [lia|done|done|].
    rewrite L1, decide_False, Hg by lia. by destruct (closeAfterDup _ && _). }
  destruct P2 as [P2 _]. pose proof (plain_later _ _ 1 t0 t1 ltac:(lia) P1 P2 E1) as P3. cbn in HT. rewrite HT in P3.
  destruct P3 as (fd & Hr & Hfd & Hg). by apply (applyRedirect_gone _ 2 fd t1).
Qed.

Lemma run_actions_app l l' t : run_actions (l ++ l') t = run_actions l t ≫= run_actions l'.
Proof. revert t. induction l as [|a l IH]; intros t; [done|]. cbn. destruct (run_action a t); [apply IH|done]. Qed.

(** A redirection that [posix_spawn] takes as [fork]'s child does: not onto
    itself, and of a number the file actions accept. *)
Definition spawnable (openMax : Z) (r : FdRedirect) (i : Z) : Prop :=
  match rfd r with Some fd => fd ≠ i ∧ valid_fd openMax fd = true | None => True end.

(** Such a redirection is added as the actions that do what the child does
    after [fork]. *)
Lemma run_addRedirect m r i acts t :
  0 <= i < m → spawnable m r i → run_actions (addRedirect m r i acts) t = run_actions acts t ≫= applyRedirect r i.
Proof.
  intros Hi Hr. unfold spawnable, addRedirect, applyRedirect, sys_dup2, adddup2, addclose in *.
  destruct (rfd r) as [fd|]; [|by destruct (run_actions acts t)].
  destruct Hr as [Hne Hv]. assert (Hvi : valid_fd m i = true) by (unfold valid_fd; apply andb_true_iff; split; [apply Z.leb_le|apply Z.ltb_lt]; lia).
  rewrite Hv, Hvi, (proj2 (Z.eqb_neq _ _)) by done. cbn [andb negb]. rewrite andb_true_r.
  destruct (closeAfterDup r); cbn [snd]; rewrite !run_actions_app; destruct (run_actions acts t) as [t1|]; cbn; try done; by destruct (t1 !! fd).
Qed.

Lemma spawn_actions_fork m c t :
  2 < m → spawnable m (stdinRedirect c) 0 → spawnable m (stdoutRedirect c) 1 → spawnable m (stderrRedirect c) 2 →
  run_actions (file_actions m c) t = applyRedirects c t.
Proof.
  intros Hm H0 H1 H2. unfold file_actions, applyRedirects. rewrite !run_addRedirect by (done || lia). cbn.
  destruct (applyRedirect (stdinRedirect c) 0 t) as [t0|]; done.
Qed.

(** The same configuration with the other way of launching. *)
Definition with_posix_spawn (b : bool) (c : ProcessConfig) : ProcessConfig :=
  MkConfig (executable c) (arguments c) (environment c) (inheritEnvironment c) (workingDirectory c) (cpuAffinity c)
    (numaNode c) (niceValue c) (searchPath c) (stdinRedirect c) (stdoutRedirect c) (stderrRedirect c) (newSession c)
    (parentDeathSignal c) (parentCloseFds c) (cgroupPath c) (ioniceClass c) (ionicePriority c) b.

(** A configuration [posix_spawn] can take asks for nothing before [exec]. *)
Lemma child_main_spawnable a c argv envp t :
  canUsePosixSpawn c = true →
  child_main a (with_posix_spawn false c) argv envp t =
    ([], match applyRedirects c t with
         | Some t' => if a_exec a =? 0 then Exec (searchPath c) (executable c) argv envp (exec_table t') else Exited 127
         | None => Exited 126
         end).
Proof.
  unfold canUsePosixSpawn, child_main. intros Hc.
  destruct (usePosixSpawn c); [|done]. cbn [negb] in Hc. case_match eqn:Hor; [done|]. clear Hc.
  repeat match goal with H : (_ || _)%bool = false |- _ => apply orb_false_iff in H as [? ?] end.
  cbn [workingDirectory newSession parentDeathSignal niceValue searchPath executable with_posix_spawn].
  repeat match goal with
  | H : bool_decide (is_Some ?o) = false |- _ =>
      apply bool_decide_eq_false in H; rewrite <- eq_None_not_Some in H; rewrite ?H in *
  end.
  replace (applyRedirects (with_posix_spawn false c) t) with (applyRedirects c t) by done.
  cbn. destruct (newSession c); [done|]. destruct (applyRedirects c t); [|done]. by destruct (a_exec a =? 0).
Qed.

(** Nothing after the start of the child changes what the child does. *)
Lemma launched_child a c af l : l_child (launched a c af l).2 = l_child l.
Proof.
  unfold launched, finalizeHandle, openPidfd, applyPostSpawnParentWork.
  destruct (a_pidfd a); [destruct (sys_open _ _ _) as [fd k]|]; (case_match; [| |]); destruct af; done.
Qed.

(** A descriptor that survives [exec]. *)
Definition inherited (o : option FdEntry) : option FdEntry :=
  match o with Some e => if cloexec e then None else Some e | None => None end.

Lemma exec_table_lookup t fd : exec_table t !! fd = inherited (t !! fd).
Proof.
  unfold exec_table, inherited. rewrite map_lookup_filter. destruct (t !! fd) as [e|]; [|done]. cbn.
  destruct (cloexec e) eqn:E; case_guard; naive_solver.
Qed.

(** Some redirection closes the source of a later one. *)
Definition conflict (c : ProcessConfig) : bool :=
  takes_from (stdinRedirect c) (stdoutRedirect c) || takes_from (stdinRedirect c) (stderrRedirect c) ||
  takes_from (stdoutRedirect c) (stderrRedirect c).

Lemma launch_fork a c l :
  executable c ≠ [] → canUsePosixSpawn c = false → a_fork a = 0 →
  launchProcess a c l =
    launched a c (launch_affinity a c)
      (with_child (child_main a c (toCharPtrs (buildArgumentVector c)) (toCharPtrs (buildEnvironment (a_environ a) c)) (open_ (l_kern l)))
         (emit (MkEvent LaunchAttempt (-1) (executable c) 0 0) l)).
Proof. intros He Hp Hf. unfold launchProcess. destruct (executable c); [done|]. by rewrite Hp, Hf. Qed.

(** The parent's side of [launchProcess] once the child is there: both events,
    and a handle unless a cgroup or an I/O priority is asked for. *)
Lemma launched_reports a c af l :
  l_diag (launched a c af l).2 = dispatchEvent (MkEvent LaunchSuccess (a_pid a) (executable c) 0 0) (l_diag l) ∧
  (cgroupPath c = None → ioniceClass c = None → ∃ fd, (launched a c af l).1 = Ok (MkHandle (a_pid a) (executable c) fd)).
Proof.
  unfold launched, finalizeHandle, openPidfd, applyPostSpawnParentWork. split.
  - destruct (a_pidfd a); [destruct (sys_open _ _ _) as [fd k]|]; (case_match; [| |]); by destruct af.
  - intros -> ->. rewrite bool_decide_false by (by intros [? ?]).
    destruct (a_pidfd a); [destruct (sys_open _ _ _) as [fd k]|]; by eexists.
Qed.


(** A program whose output and errors go to descriptor 5. *)
Definition sample_config (close_out : bool) : ProcessConfig :=
  MkConfig ["a"%char] [] [] false None None None None true noRedirect (MkRedirect (Some 5) close_out) (MkRedirect (Some 5) true)
    false None [] None None None false.

Definition sample_answers : Answers := MkAnswers [] (MkTopo [] [] ∅ ∅) 0 42 true 0 true true true 0 1024.

Definition sample_launch : Launch :=
  MkLaunch (MkKernel {[ 0 := MkFd 1 false; 1 := MkFd 1 false; 2 := MkFd 1 false; 5 := MkFd 9 true ]} false []) (MkDiag None []) None None.


Lemma launched_with_posix_spawn b a c af l : launched a (with_posix_spawn b c) af l = launched a c af l.
Proof. done. Qed.



(** A redirection from a number that is no descriptor: the file actions refuse
    it, which nobody looks at, and the program runs with its own standard
    output; after [fork] the child ends with code 126. *)
Example bad_descriptor_dropped :
  let c := MkConfig ["a"%char] [] [] false None None None None true noRedirect (MkRedirect (Some (-1)) true) noRedirect
             false None [] None None None true in
  let t := open_ (l_kern sample_launch) in
  file_actions 1024 c = [] ∧ spawn_rc sample_answers c t = 0 ∧
  (launchProcess sample_answers (with_posix_spawn false c) sample_launch).2.(l_child) = Some ([], Exited 126).
Proof. by vm_compute. Qed.

(** Redirecting a descriptor onto itself: after [fork] it is kept, but
    [posix_spawn] closes it, since its close action is not guarded. *)
Lemma self_redirect_differs :
  let c := MkConfig ["a"%char] [] [] false None None None None true noRedirect (MkRedirect (Some 1) true) noRedirect
             false None [] None None None true in
  let t := open_ (l_kern sample_launch) in
  (applyRedirects c t ≫= λ t', t' !! 1) = Some (MkFd 1 false) ∧ (run_actions (file_actions 1024 c) t ≫= λ t', t' !! 1) = None.
Proof. by vm_compute. Qed.

(** ** The parent's side *)

Definition event (ty : ProcessEventType) (pid : Z) (c : ProcessConfig) (err : Z) : ProcessEvent :=
  MkEvent ty pid (executable c) 0 err.

(** What the observer is told, and whether a handle comes back. *)
Lemma launch_events a c l o :
  executable c ≠ [] → l_diag l = MkDiag (Some o) [] → l_child l = None →
  let '(r, l') := launchProcess a c l in
  (delivered (l_diag l')).*2 =
    [event LaunchAttempt (-1) c 0;
     match l_child l' with
     | Some _ => event LaunchSuccess (a_pid a) c 0
     | None => event LaunchFailure (-1) c (if canUsePosixSpawn c then spawn_rc a c (open_ (l_kern l)) else a_fork a)
     end].
Proof.
  intros He Hd Hn. destruct l as [k d af ch]. cbn in Hd, Hn. subst.
  assert (Hlaunched : ∀ chd l1, l_diag l1 = MkDiag (Some o) [(o, event LaunchAttempt (-1) c 0)] → l_child l1 = Some chd →
    (delivered (l_diag (launched a c (launch_affinity a c) l1).2)).*2 =
      [event LaunchAttempt (-1) c 0; event LaunchSuccess (a_pid a) c 0]).
  { intros chd [k1 d1 af1 ch1] Hd1 Hch. cbn in *. subst. unfold launched, finalizeHandle, openPidfd, applyPostSpawnParentWork.
    destruct (a_pidfd a); [destruct (sys_open _ _ _) as [fd k2]|]; (case_match; [| |]); by destruct (launch_affinity a c). }
  unfold launchProcess. destruct (executable c) eqn:Ee; [done|]. destruct (canUsePosixSpawn c).
  - unfold launchWithPosixSpawn. cbn [l_kern emit open_]. destruct (negb _); [unfold event; cbn; by rewrite Ee|].
    set (l1 := with_child _ _). pose proof (launched_child a c (launch_affinity a c) l1) as Hc.
    pose proof (Hlaunched _ l1 ltac:(unfold event; cbn; by rewrite Ee) eq_refl) as Hl.
    destruct (launched a c _ l1) as [r l']. cbn [snd] in *. by rewrite Hc.
  - destruct (negb _); [unfold event; cbn; by rewrite Ee|].
    set (l1 := with_child _ _). pose proof (launched_child a c (launch_affinity a c) l1) as Hc.
    pose proof (Hlaunched _ l1 ltac:(unfold event; cbn; by rewrite Ee) eq_refl) as Hl.
    destruct (launched a c _ l1) as [r l']. cbn [snd] in *. by rewrite Hc.
Qed.
