(* ===== verification/ProcessBuilder.v ===== *)
(** * The process builder (src/src/process_builder.cpp)

    A configuration under construction, the descriptors the parent is to close
    when the process has been started, and [spawn]. *)

From S2P Require Import Prelude Text Topology Descriptors Ipc Process.

(** [closeParentAfterSpawn] of the three [RedirectControl]s is kept as three
    flags. *)
Record ProcessBuilder := MkBuilder {
  config_ : ProcessConfig;
  stdinCtrl_ : bool;
  stdoutCtrl_ : bool;
  stderrCtrl_ : bool;
  parentCloseFds_ : list Z
}.

Definition newBuilder (exe : text) : ProcessBuilder := MkBuilder (newConfig exe) false false false [].

Definition on_config (f : ProcessConfig → ProcessConfig) (b : ProcessBuilder) : ProcessBuilder :=
  MkBuilder (f (config_ b)) (stdinCtrl_ b) (stdoutCtrl_ b) (stderrCtrl_ b) (parentCloseFds_ b).

(** ** Updates of a configuration *)

Definition set_arguments (v : list text) (c : ProcessConfig) : ProcessConfig :=
  MkConfig (executable c) v
    (environment c) (inheritEnvironment c) (workingDirectory c) (cpuAffinity c) (numaNode c) (niceValue c)
    (searchPath c) (stdinRedirect c) (stdoutRedirect c) (stderrRedirect c) (newSession c) (parentDeathSignal c)
    (parentCloseFds c) (cgroupPath c) (ioniceClass c) (ionicePriority c) (usePosixSpawn c).

Definition set_environment (v : list text) (c : ProcessConfig) : ProcessConfig :=
  MkConfig (executable c)
    (arguments c) v (inheritEnvironment c) (workingDirectory c) (cpuAffinity c) (numaNode c) (niceValue c)
    (searchPath c) (stdinRedirect c) (stdoutRedirect c) (stderrRedirect c) (newSession c) (parentDeathSignal c)
    (parentCloseFds c) (cgroupPath c) (ioniceClass c) (ionicePriority c) (usePosixSpawn c).

Definition set_inherit (b : bool) (c : ProcessConfig) : ProcessConfig :=
  MkConfig (executable c) (arguments c)
    (environment c) b (workingDirectory c) (cpuAffinity c) (numaNode c) (niceValue c) (searchPath c) (stdinRedirect c)
    (stdoutRedirect c) (stderrRedirect c) (newSession c) (parentDeathSignal c) (parentCloseFds c) (cgroupPath c)
    (ioniceClass c) (ionicePriority c) (usePosixSpawn c).

Definition set_workingDirectory (p : text) (c : ProcessConfig) : ProcessConfig :=
  MkConfig (executable c)
    (arguments c) (environment c) (inheritEnvironment c) (Some p) (cpuAffinity c) (numaNode c) (niceValue c)
    (searchPath c) (stdinRedirect c) (stdoutRedirect c) (stderrRedirect c) (newSession c) (parentDeathSignal c)
    (parentCloseFds c) (cgroupPath c) (ioniceClass c) (ionicePriority c) (usePosixSpawn c).

Definition set_cpuAffinity (s : CpuSet) (c : ProcessConfig) : ProcessConfig :=
  MkConfig (executable c) (arguments c)
    (environment c) (inheritEnvironment c) (workingDirectory c) (Some s) (numaNode c) (niceValue c) (searchPath c)
    (stdinRedirect c) (stdoutRedirect c) (stderrRedirect c) (newSession c) (parentDeathSignal c) (parentCloseFds c)
    (cgroupPath c) (ioniceClass c) (ionicePriority c) (usePosixSpawn c).

Definition set_numaNode (n : Z) (c : ProcessConfig) : ProcessConfig :=
  MkConfig (executable c) (arguments c)
    (environment c) (inheritEnvironment c) (workingDirectory c) (cpuAffinity c) (Some n) (niceValue c) (searchPath c)
    (stdinRedirect c) (stdoutRedirect c) (stderrRedirect c) (newSession c) (parentDeathSignal c) (parentCloseFds c)
    (cgroupPath c) (ioniceClass c) (ionicePriority c) (usePosixSpawn c).

Definition set_niceValue (n : Z) (c : ProcessConfig) : ProcessConfig :=
  MkConfig (executable c) (arguments c)
    (environment c) (inheritEnvironment c) (workingDirectory c) (cpuAffinity c) (numaNode c) (Some n) (searchPath c)
    (stdinRedirect c) (stdoutRedirect c) (stderrRedirect c) (newSession c) (parentDeathSignal c) (parentCloseFds c)
    (cgroupPath c) (ioniceClass c) (ionicePriority c) (usePosixSpawn c).

Definition set_searchPath (b : bool) (c : ProcessConfig) : ProcessConfig :=
  MkConfig (executable c) (arguments c)
    (environment c) (inheritEnvironment c) (workingDirectory c) (cpuAffinity c) (numaNode c) (niceValue c) b
    (stdinRedirect c) (stdoutRedirect c) (stderrRedirect c) (newSession c) (parentDeathSignal c) (parentCloseFds c)
    (cgroupPath c) (ioniceClass c) (ionicePriority c) (usePosixSpawn c).

Definition set_redirects (r0 r1 r2 : FdRedirect) (c : ProcessConfig) : ProcessConfig :=
  MkConfig (executable c)
    (arguments c) (environment c) (inheritEnvironment c) (workingDirectory c) (cpuAffinity c) (numaNode c)
    (niceValue c) (searchPath c) r0 r1 r2 (newSession c) (parentDeathSignal c) (parentCloseFds c) (cgroupPath c)
    (ioniceClass c) (ionicePriority c) (usePosixSpawn c).

Definition set_newSession (b : bool) (c : ProcessConfig) : ProcessConfig :=
  MkConfig (executable c) (arguments c)
    (environment c) (inheritEnvironment c) (workingDirectory c) (cpuAffinity c) (numaNode c) (niceValue c)
    (searchPath c) (stdinRedirect c) (stdoutRedirect c) (stderrRedirect c) b (parentDeathSignal c) (parentCloseFds c)
    (cgroupPath c) (ioniceClass c) (ionicePriority c) (usePosixSpawn c).

Definition set_parentDeathSignal (n : Z) (c : ProcessConfig) : ProcessConfig :=
  MkConfig (executable c)
    (arguments c) (environment c) (inheritEnvironment c) (workingDirectory c) (cpuAffinity c) (numaNode c)
    (niceValue c) (searchPath c) (stdinRedirect c) (stdoutRedirect c) (stderrRedirect c) (newSession c) (Some n)
    (parentCloseFds c) (cgroupPath c) (ioniceClass c) (ionicePriority c) (usePosixSpawn c).

Definition set_parentCloseFds (l : list Z) (c : ProcessConfig) : ProcessConfig :=
  MkConfig (executable c)
    (arguments c) (environment c) (inheritEnvironment c) (workingDirectory c) (cpuAffinity c) (numaNode c)
    (niceValue c) (searchPath c) (stdinRedirect c) (stdoutRedirect c) (stderrRedirect c) (newSession c)
    (parentDeathSignal c) l (cgroupPath c) (ioniceClass c) (ionicePriority c) (usePosixSpawn c).

Definition set_cgroup (p : text) (c : ProcessConfig) : ProcessConfig :=
  MkConfig (executable c) (arguments c)
    (environment c) (inheritEnvironment c) (workingDirectory c) (cpuAffinity c) (numaNode c) (niceValue c)
    (searchPath c) (stdinRedirect c) (stdoutRedirect c) (stderrRedirect c) (newSession c) (parentDeathSignal c)
    (parentCloseFds c) (Some p) (ioniceClass c) (ionicePriority c) (usePosixSpawn c).

Definition set_ionice (k p : Z) (c : ProcessConfig) : ProcessConfig :=
  MkConfig (executable c) (arguments c)
    (environment c) (inheritEnvironment c) (workingDirectory c) (cpuAffinity c) (numaNode c) (niceValue c)
    (searchPath c) (stdinRedirect c) (stdoutRedirect c) (stderrRedirect c) (newSession c) (parentDeathSignal c)
    (parentCloseFds c) (cgroupPath c) (Some k) (Some p) (usePosixSpawn c).

(** ** The methods of the builder *)

Definition arg (v : text) (b : ProcessBuilder) : ProcessBuilder :=
  on_config (λ c, set_arguments (arguments c ++ [v]) c) b.

Definition args (vs : list text) (b : ProcessBuilder) : ProcessBuilder := foldl (λ b v, arg v b) b vs.

Definition builder_inheritEnvironment (i : bool) : ProcessBuilder → ProcessBuilder := on_config (set_inherit i).
Definition builder_environment (env : list text) : ProcessBuilder → ProcessBuilder := on_config (set_environment env).
Definition builder_workingDirectory (p : text) : ProcessBuilder → ProcessBuilder := on_config (set_workingDirectory p).
Definition builder_cpuAffinity (s : CpuSet) : ProcessBuilder → ProcessBuilder := on_config (set_cpuAffinity s).
Definition builder_numaNode (n : Z) : ProcessBuilder → ProcessBuilder := on_config (set_numaNode n).
Definition builder_niceValue (n : Z) : ProcessBuilder → ProcessBuilder := on_config (set_niceValue n).
Definition builder_searchPath (e : bool) : ProcessBuilder → ProcessBuilder := on_config (set_searchPath e).
Definition builder_newSession (e : bool) : ProcessBuilder → ProcessBuilder := on_config (set_newSession e).
Definition builder_parentDeathSignal (n : Z) : ProcessBuilder → ProcessBuilder := on_config (set_parentDeathSignal n).
Definition builder_cgroup (p : text) : ProcessBuilder → ProcessBuilder := on_config (set_cgroup p).
Definition builder_ionice (k p : Z) : ProcessBuilder → ProcessBuilder := on_config (set_ionice k p).
Definition builder_usePosixSpawn (e : bool) : ProcessBuilder → ProcessBuilder := on_config (with_posix_spawn e).
Definition clearArguments : ProcessBuilder → ProcessBuilder := on_config (set_arguments []).
Definition clearEnvironment : ProcessBuilder → ProcessBuilder := on_config (set_environment []).

(** The redirections of a configuration, one replaced. *)
Definition with_stdin (r : FdRedirect) (c : ProcessConfig) : ProcessConfig :=
  set_redirects r (stdoutRedirect c) (stderrRedirect c) c.
Definition with_stdout (r : FdRedirect) (c : ProcessConfig) : ProcessConfig :=
  set_redirects (stdinRedirect c) r (stderrRedirect c) c.
Definition with_stderr (r : FdRedirect) (c : ProcessConfig) : ProcessConfig :=
  set_redirects (stdinRedirect c) (stdoutRedirect c) r c.

Definition note_fd (close_parent : bool) (fd : Z) (l : list Z) : list Z := if close_parent then l ++ [fd] else l.

Definition stdinFd (fd : Z) (closeParent closeChild : bool) (b : ProcessBuilder) : ProcessBuilder :=
  MkBuilder (with_stdin (MkRedirect (Some fd) closeChild) (config_ b)) closeParent (stdoutCtrl_ b) (stderrCtrl_ b)
    (note_fd closeParent fd (parentCloseFds_ b)).

Definition stdoutFd (fd : Z) (closeParent closeChild : bool) (b : ProcessBuilder) : ProcessBuilder :=
  MkBuilder (with_stdout (MkRedirect (Some fd) closeChild) (config_ b)) (stdinCtrl_ b) closeParent (stderrCtrl_ b)
    (note_fd closeParent fd (parentCloseFds_ b)).

Definition stderrFd (fd : Z) (closeParent closeChild : bool) (b : ProcessBuilder) : ProcessBuilder :=
  MkBuilder (with_stderr (MkRedirect (Some fd) closeChild) (config_ b)) (stdinCtrl_ b) (stdoutCtrl_ b) closeParent
    (note_fd closeParent fd (parentCloseFds_ b)).

(** [makeCapturedPipe]: the pipe without the child's end, and that end. *)
Definition makeCapturedPipe (err f : Z) (toChildStdin : bool) (k : Kernel) : outcome (Pipe * Z) * Kernel :=
  let '(r, k1) := makePipe err f true k in
  (let* p := r in
   let '(childFd, p') := (if toChildStdin then releaseRead p else releaseWrite p) in
   if childFd <? 0 then Throw RuntimeError else Ok (p', childFd), k1).

Definition captureStdin (err f : Z) (b : ProcessBuilder) (k : Kernel) : outcome Pipe * ProcessBuilder * Kernel :=
  match makeCapturedPipe err f true k with
  | (Ok (p, fd), k1) =>
      (Ok p, MkBuilder (with_stdin (MkRedirect (Some fd) true) (config_ b)) true (stdoutCtrl_ b) (stderrCtrl_ b)
               (parentCloseFds_ b ++ [fd]), k1)
  | (Throw e, k1) => (Throw e, b, k1)
  | (Hang, k1) => (Hang, b, k1)
  end.

Definition captureStdout (err f : Z) (b : ProcessBuilder) (k : Kernel) : outcome Pipe * ProcessBuilder * Kernel :=
  match makeCapturedPipe err f false k with
  | (Ok (p, fd), k1) =>
      (Ok p, MkBuilder (with_stdout (MkRedirect (Some fd) true) (config_ b)) (stdinCtrl_ b) true (stderrCtrl_ b)
               (parentCloseFds_ b ++ [fd]), k1)
  | (Throw e, k1) => (Throw e, b, k1)
  | (Hang, k1) => (Hang, b, k1)
  end.

Definition captureStderr (err f : Z) (b : ProcessBuilder) (k : Kernel) : outcome Pipe * ProcessBuilder * Kernel :=
  match makeCapturedPipe err f false k with
  | (Ok (p, fd), k1) =>
      (Ok p, MkBuilder (with_stderr (MkRedirect (Some fd) true) (config_ b)) (stdinCtrl_ b) (stdoutCtrl_ b) true
               (parentCloseFds_ b ++ [fd]), k1)
  | (Throw e, k1) => (Throw e, b, k1)
  | (Hang, k1) => (Hang, b, k1)
  end.

(** The lambda [cleanup] of [spawn]: the redirection and the flag it leaves, and
    the kernel. *)
Definition cleanup (ctrl : bool) (r : FdRedirect) (k : Kernel) : FdRedirect * Kernel :=
  if ctrl then
    match rfd r with
    | Some fd => (MkRedirect None (closeAfterDup r), sys_close fd k)
    | None => (r, k)
    end
  else (r, k).

Definition spawn (a : Answers) (b : ProcessBuilder) (l : Launch) : outcome ProcessHandle * ProcessBuilder * Launch :=
  match launchProcess a (set_parentCloseFds (parentCloseFds_ b) (config_ b)) l with
  | (Ok h, l1) =>
      let c := config_ b in
      let '(r0, k0) := cleanup (stdinCtrl_ b) (stdinRedirect c) (l_kern l1) in
      let '(r1, k1) := cleanup (stdoutCtrl_ b) (stdoutRedirect c) k0 in
      let '(r2, k2) := cleanup (stderrCtrl_ b) (stderrRedirect c) k1 in
      (Ok h, MkBuilder (set_redirects r0 r1 r2 c) false false false [], on_kern (λ _, k2) l1)
  | (Throw e, l1) => (Throw e, b, l1)
  | (Hang, l1) => (Hang, b, l1)
  end.

(** ** Properties *)

(** Opening a descriptor and closing it leaves the kernel as it was. *)
Lemma open_then_close f ce k : sys_close (lowest_free (open_ k)) (sys_open f ce k).2 = k.
Proof.
  unfold sys_open, sys_close. cbn. rewrite lookup_insert_eq, delete_insert_id by apply lowest_free_spec. by destruct k.
Qed.

(** The launch of a builder's configuration that asks for neither a cgroup nor
    an I/O class. *)
Lemma launch_plain a c l :
  executable c ≠ [] → canUsePosixSpawn c = false → cgroupPath c = None → ioniceClass c = None → a_fork a = 0 →
  ∃ l', launchProcess a c l = (Ok (MkHandle (a_pid a) (executable c) (if a_pidfd a then lowest_free (open_ (close_all (filter (λ fd, 0 <= fd) (parentCloseFds c)) (l_kern l))) else -1)), l') ∧
    l_kern l' = (let k := close_all (filter (λ fd, 0 <= fd) (parentCloseFds c)) (l_kern l) in
                 if a_pidfd a then (sys_open (pidfd_file (a_pid a)) true k).2 else k).
Proof.
  intros He Hp Hc Hi Hf. rewrite launch_fork by done. unfold launched, finalizeHandle. rewrite Hc, Hi.
  assert (Hclose : ∀ l k, foldl (λ k fd, close_if fd k) k l = close_all (filter (λ fd, 0 <= fd) l) k).
  { induction l0 as [|fd fs IH]; intros k; [done|]. cbn [foldl]. rewrite IH. unfold close_if.
    destruct (Z.geb_spec fd 0); [rewrite filter_cons_True by lia|rewrite filter_cons_False by lia]; done. }
  unfold openPidfd. cbn zeta. set (l1 := applyPostSpawnParentWork _ _ _ _).
  assert (Hk : l_kern l1 = close_all (filter (λ fd, 0 <= fd) (parentCloseFds c)) (l_kern l)).
  { unfold l1, applyPostSpawnParentWork. cbn. rewrite Hclose. by destruct (launch_affinity a c). }
  rewrite <- Hk. clearbody l1. destruct (a_pidfd a); eexists; done.
Qed.

(** A captured stream.  [spawn] closes the child's end of the pipe twice: once in
    [launchProcess] and once in its own clean-up.  In between the process
    descriptor has been opened, and it takes the number that has just become
    free: so the second close destroys it, and the handle [spawn] returns holds a
    descriptor that is not open.  Where there is no process descriptor, a
    descriptor that is not open is closed. *)
Lemma capture_closes_pidfd a f b l :
  stdinCtrl_ b = false → stderrCtrl_ b = false → parentCloseFds_ b = [] → executable (config_ b) ≠ [] →
  canUsePosixSpawn (config_ b) = false → cgroupPath (config_ b) = None → ioniceClass (config_ b) = None → a_fork a = 0 →
  let '(r, b1, k1) := captureStdout 0 f b (l_kern l) in
  ∃ p fd h b2 l2, r = Ok p ∧ rfd (stdoutRedirect (config_ b1)) = Some fd ∧ is_Some (open_ k1 !! fd) ∧
    spawn a b1 (on_kern (λ _, k1) l) = (Ok h, b2, l2) ∧ pid_ h = a_pid a ∧ 0 <= fd ∧
    if a_pidfd a then pidfd_ h = fd ∧ open_ (l_kern l2) !! pidfd_ h = None ∧ misuse (l_kern l2) = misuse (l_kern l)
    else misuse (l_kern l2) = true.
Proof.
  intros H0 H2 Hcl He Hp Hc Hi Hf. unfold captureStdout, makeCapturedPipe, makePipe. cbn [Z.eqb negb].
  destruct (sys_open f true (l_kern l)) as [r k0] eqn:E0. destruct (sys_open (f + 1) true k0) as [w k1] eqn:E1.
  assert (Hw : w = lowest_free (open_ k0)) by (unfold sys_open in E1; congruence).
  assert (Hk1 : k1 = (sys_open (f + 1) true k0).2) by by rewrite E1.
  pose proof (lowest_free_spec (open_ k0)) as (Hpos & Hfree & _). rewrite <- Hw in Hpos, Hfree.
  cbn [obind releaseWrite writeFd_]. rewrite (proj2 (Z.ltb_ge _ _)) by done.
  assert (Hopen : is_Some (open_ k1 !! w)) by (rewrite Hk1, Hw; cbn; rewrite lookup_insert_eq; by eexists).
  assert (Hback : sys_close w k1 = k0) by (rewrite Hk1, Hw; apply open_then_close).
  set (b1 := MkBuilder _ _ _ _ _). set (c1 := set_parentCloseFds (parentCloseFds_ b1) (config_ b1)).
  assert (Hfil : filter (λ fd, 0 <= fd) (parentCloseFds c1) = [w]).
  { unfold c1, b1. cbn [parentCloseFds set_parentCloseFds parentCloseFds_]. rewrite Hcl. cbn. by rewrite decide_True. }
  destruct (launch_plain a c1 (on_kern (λ _, k1) l)) as (l' & Hl & Hk); [done..|]. rewrite Hfil in Hl, Hk. cbn [l_kern on_kern close_all foldl] in Hl, Hk.
  rewrite Hback in Hl, Hk. unfold spawn. change (set_parentCloseFds _ _) with c1. rewrite Hl. unfold b1 at 1 2 3 4 5 6.
  cbn [cleanup stdinCtrl_ stdoutCtrl_ stderrCtrl_ config_ stdoutRedirect with_stdout set_redirects rfd closeAfterDup]. rewrite H0, H2.
  cbn [cleanup]. eexists _, w, _, _, _. split_and!; [done|done|done|done|done|done|]. cbn [on_kern l_kern pidfd_]. rewrite Hk.
  destruct (a_pidfd a).
  - assert (Hagain : sys_close w (sys_open (pidfd_file (a_pid a)) true k0).2 = k0) by (rewrite Hw; apply open_then_close).
    cbn zeta. rewrite Hagain, <- Hw. split_and!; [done|done|]. unfold sys_open in E0. by injection E0 as <- <-.
  - unfold sys_close. by rewrite Hfree.
Qed.

Definition std_launch : Launch :=
  MkLaunch (MkKernel {[ 0 := MkFd 1 false; 1 := MkFd 1 false; 2 := MkFd 1 false ]} false []) (MkDiag None []) None None.

(** When the launch fails nothing is closed: the builder still has the child's
    end, and since it has no destructor that end stays open. *)
Lemma failed_spawn_keeps a b l e l' b' :
  spawn a b l = (Throw e, b', l') → a_fork a ≠ 0 → b' = b ∧ l_kern l' = l_kern l.
Proof.
  intros Hs Hf. unfold spawn in Hs. set (c := set_parentCloseFds (parentCloseFds_ b) (config_ b)) in Hs.
  destruct (launchProcess a c l) as [r l1] eqn:El.
  assert (Hk : l_kern l1 = l_kern l).
  { unfold launchProcess, launchWithPosixSpawn, spawn_rc in El. apply Z.eqb_neq in Hf. rewrite Hf in El. cbn [negb] in El.
    rewrite Hf in El. cbn in El. repeat case_match; by simplify_eq/=. }
  destruct r; simplify_eq/=; try done. by repeat case_match.
Qed.

(** The child's end a captured stream gives away stays with the builder until
    [spawn]: the pipe returned has only the parent's end. *)
Lemma capture_parts err f b k p b' k' :
  captureStdout err f b k = (Ok p, b', k') →
  ∃ fd, rfd (stdoutRedirect (config_ b')) = Some fd ∧ parentCloseFds_ b' = parentCloseFds_ b ++ [fd] ∧ writeFd_ p = noFd ∧
    open_fds k' ≡ₚ fd :: readFd_ p :: open_fds k.
Proof.
  unfold captureStdout, makeCapturedPipe, makePipe. destruct (err =? 0); cbn [negb]; [|done].
  destruct (sys_open f true k) as [r k0] eqn:E0. destruct (sys_open (f + 1) true k0) as [w k1] eqn:E1.
  cbn. destruct (w <? 0) eqn:Ew; [done|]. intros [= <- <- <-]. exists w. split_and!; [done|done|done|].
  pose proof (sys_open_fds (f + 1) true k0) as P1. pose proof (sys_open_fds f true k) as P0. rewrite E0 in P0. rewrite E1 in P1.
  cbn in P0, P1. by rewrite P1, P0.
Qed.
