(* ===== verification/ProcessControl.v ===== *)
(** * Process handles and groups (src/src/process.cpp, process_group.cpp)

    Waiting for, signalling and ending processes through their handles, over the
    children of the process.  When and with which status a child ends is given
    by [fate]; a call that would wait for a child that never ends is [Hang].
    [stray] records that a signal was sent to a process id that is no longer an
    unreaped child, and so may belong to anybody. *)

From S2P Require Import Prelude Text Descriptors Process ProcessBuilder.

Definition SIGTERM : Z := 15.
Definition SIGKILL : Z := 9.
Definition SIGSTOP : Z := 19.
Definition SIGCONT : Z := 18.
Definition ESRCH : Z := 3.
Definition ECHILD : Z := 10.
Definition EACCES : Z := 13.
Definition INT_MAX : Z := 2 ^ 31 - 1.

(** The children not yet waited for, the signals sent, in order, the descriptors,
    and how the calls of [waitpid] to come end: with this errno, as [EINTR] when
    a signal handler interrupts them, or with 0 for a call that is not
    disturbed; none is once the list is used up. *)
Record PWorld := MkPWorld {
  children : gset Z;
  signals : list (Z * Z);
  stray : bool;
  pkern : Kernel;
  pdiag : Diagnostics;
  waitErrs : list Z
}.

Definition reap (pid : Z) (w : PWorld) : PWorld :=
  MkPWorld (children w ∖ {[pid]}) (signals w) (stray w) (pkern w) (pdiag w) (waitErrs w).
Definition on_pkern (f : Kernel → Kernel) (w : PWorld) : PWorld :=
  MkPWorld (children w) (signals w) (stray w) (f (pkern w)) (pdiag w) (waitErrs w).
Definition on_pdiag (f : Diagnostics → Diagnostics) (w : PWorld) : PWorld :=
  MkPWorld (children w) (signals w) (stray w) (pkern w) (f (pdiag w)) (waitErrs w).

(** The handle as an owner of its process descriptor. *)
#[export] Instance handle_object : FdObject ProcessHandle unit := {
  fds h := fd_list (pidfd_ h);
  run_op _ h k := let '(h', k') := closePidfd h k in ([], h', k');
  destroy := handle_destroy;
  move_construct := handle_move_construct;
  move_assign := handle_move_assign
}.

Lemma closePidfd_spec h k :
  ∃ h', closePidfd h k = (h', close_all (fd_list (pidfd_ h)) k) ∧ fd_list (pidfd_ h') = [] ∧ pid_ h' = pid_ h.
Proof.
  unfold closePidfd, fd_list. destruct (pidfd_ h >=? 0) eqn:E; eexists; (split; [done|]); [done|]. by rewrite E.
Qed.

#[export] Instance handle_laws : FdLaws ProcessHandle unit.
Proof.
  split.
  - intros [] h k. cbn -[fds]. destruct (closePidfd_spec h k) as (h' & -> & Hf & _). exists (fd_list (pidfd_ h)). cbn.
    by rewrite Hf, app_nil_r.
  - intros h k. cbn. unfold handle_destroy. by destruct (closePidfd_spec h k) as (h' & -> & _).
  - intros y k. done.
  - intros x y k. cbn. unfold handle_move_assign. by destruct (closePidfd_spec x k) as (h' & -> & _).
  - done.
Qed.

Section control.
(** When a child ends and with which status; [None] if it never does. *)
Variable fate : Z → option (Z * Z).
(** The errno of a signal to a child, and whether a file that is not a process
    descriptor is readable. *)
Variable kill_err : Z → Z → Z.
Variable foreign_ready : Z → bool.

Definition ended (now pid : Z) : bool := match fate pid with Some (t, _) => t <=? now | None => false end.

(** [kill]: the errno. *)
Definition sys_kill (pid sig : Z) (w : PWorld) : Z * PWorld :=
  if bool_decide (pid ∈ children w) then
    let e := kill_err pid sig in
    (e, if e =? 0 then MkPWorld (children w) (signals w ++ [(pid, sig)]) (stray w) (pkern w) (pdiag w) (waitErrs w) else w)
  else (ESRCH, MkPWorld (children w) (signals w) true (pkern w) (pdiag w) (waitErrs w)).

Definition sendSignal (sig : Z) (h : ProcessHandle) (w : PWorld) : outcome unit * PWorld :=
  if negb (valid h) then (Throw LogicError, w)
  else let '(e, w') := sys_kill (pid_ h) sig w in
       (if negb (e =? 0) then Throw (SystemError e) else Ok tt, w').

Definition terminate (h : ProcessHandle) (w : PWorld) : outcome unit * PWorld := sendSignal SIGTERM h w.
Definition kill (h : ProcessHandle) (w : PWorld) : outcome unit * PWorld := sendSignal SIGKILL h w.

(** The next [waitpid] for a process: its errno. *)
Definition next_err (w : PWorld) : Z := default 0 (head (waitErrs w)).

Definition pop_err (w : PWorld) : PWorld :=
  MkPWorld (children w) (signals w) (stray w) (pkern w) (pdiag w) (tail (waitErrs w)).

Definition sys_waitpid (pid : Z) (w : PWorld) : Z * PWorld :=
  if negb (bool_decide (pid ∈ children w)) then (ECHILD, w)
  else (next_err w, pop_err w).

(** The end of [wait] and [tryWait]: the exit is reported, the descriptor
    closed and the handle emptied. *)
Definition reaped (st : Z) (h : ProcessHandle) (w : PWorld) : ProcessHandle * PWorld :=
  let w1 := on_pdiag (dispatchEvent (MkEvent Exit (pid_ h) (executable_ h) st 0)) (reap (pid_ h) w) in
  let '(h1, k) := closePidfd h (pkern w1) in
  (MkHandle (-1) (executable_ h1) (pidfd_ h1), on_pkern (λ _, k) w1).

Definition wait (h : ProcessHandle) (w : PWorld) : outcome Z * ProcessHandle * PWorld :=
  if negb (valid h) then (Throw LogicError, h, w)
  else
    let '(e, w1) := sys_waitpid (pid_ h) w in
    if negb (e =? 0) then (Throw (SystemError e), h, w1)
    else match fate (pid_ h) with
         | None => (Hang, h, w1)
         | Some (_, st) => let '(h', w') := reaped st h w1 in (Ok st, h', w')
         end.

(** [tryWait]: the status if it returns true. *)
Definition tryWait (now : Z) (h : ProcessHandle) (w : PWorld) : outcome (option Z) * ProcessHandle * PWorld :=
  if negb (valid h) then (Ok None, h, w)
  else
    let '(e, w1) := sys_waitpid (pid_ h) w in
    if negb (e =? 0) then (Throw (SystemError e), h, w1)
    else match fate (pid_ h) with
         | Some (t, st) => if t <=? now then let '(h', w') := reaped st h w1 in (Ok (Some st), h', w') else (Ok None, h, w1)
         | None => (Ok None, h, w1)
         end.

(** The timeout in milliseconds given to [poll]. *)
Definition pollTimeout (timeout : Z) : Z :=
  if timeout >=? 0 then let ms := Z.quot timeout ns_per_ms in if ms >? INT_MAX then INT_MAX else ms else -1.

(** [poll] on the process descriptor, from [now] for [ms] milliseconds (for
    ever if negative): the number of ready descriptors.  A descriptor that is
    not open is ready at once, with an error. *)
Definition sys_poll (now ms : Z) (h : ProcessHandle) (w : PWorld) : outcome Z :=
  let done := λ b : bool, if b then Ok 1 else if ms <? 0 then Hang else Ok 0 in
  match open_ (pkern w) !! pidfd_ h with
  | None => Ok 1
  | Some e =>
      if file e =? pidfd_file (pid_ h)
      then done (if ms <? 0 then bool_decide (is_Some (fate (pid_ h))) else ended (now + ms * ns_per_ms) (pid_ h))
      else done (foreign_ready (file e))
  end.

(** The loop of [waitFor] without a process descriptor: one clock read per
    pass. *)
Fixpoint waitFor_loop (deadline : Z) (nows : list Z) (h : ProcessHandle) (w : PWorld)
  : outcome (bool * option Z) * ProcessHandle * PWorld :=
  match nows with
  | [] => (Hang, h, w)
  | now :: nows' =>
      if negb (now <? deadline) then (Ok (false, None), h, w)
      else match tryWait now h w with
           | (Ok (Some st), h', w') => (Ok (true, Some st), h', w')
           | (Ok None, h', w') => waitFor_loop deadline nows' h' w'
           | (Throw e, h', w') => (Throw e, h', w')
           | (Hang, h', w') => (Hang, h', w')
           end
  end.

(** [waitFor]: its result and the status it stores; [intr] is whether the poll
    is interrupted. *)
Definition waitFor (now timeout : Z) (intr : bool) (nows : list Z) (h : ProcessHandle) (w : PWorld)
  : outcome (bool * option Z) * ProcessHandle * PWorld :=
  if negb (valid h) then (Ok (true, None), h, w)
  else if pidfd_ h >=? 0 then
    match (if intr then Ok (-1) else sys_poll now (pollTimeout timeout) h w) with
    | Ok rc =>
        if rc <=? 0 then (Ok (false, None), h, w)
        else match wait h w with
             | (Ok st, h', w') => (Ok (true, Some st), h', w')
             | (Throw e, h', w') => (Throw e, h', w')
             | (Hang, h', w') => (Hang, h', w')
             end
    | Throw e => (Throw e, h, w)
    | Hang => (Hang, h, w)
    end
  else waitFor_loop (now + timeout) nows h w.

(** [terminate(gracePeriod)]. *)
Definition terminateGrace (now grace : Z) (intr : bool) (nows : list Z) (h : ProcessHandle) (w : PWorld)
  : outcome bool * ProcessHandle * PWorld :=
  if negb (valid h) then (Ok true, h, w)
  else match sendSignal SIGTERM h w with
       | (Ok _, w1) =>
           match waitFor now grace intr nows h w1 with
           | (Ok (true, _), h2, w2) => (Ok true, h2, w2)
           | (Ok (false, _), h2, w2) =>
               match kill h2 w2 with
               | (Ok _, w3) =>
                   match wait h2 w3 with
                   | (Ok _, h4, w4) => (Ok false, h4, w4)
                   | (Throw e, h4, w4) => (Throw e, h4, w4)
                   | (Hang, h4, w4) => (Hang, h4, w4)
                   end
               | (Throw e, w3) => (Throw e, h2, w3)
               | (Hang, w3) => (Hang, h2, w3)
               end
           | (Throw e, h2, w2) => (Throw e, h2, w2)
           | (Hang, h2, w2) => (Hang, h2, w2)
           end
       | (Throw e, w1) => (Throw e, h, w1)
       | (Hang, w1) => (Hang, h, w1)
       end.

Definition handle_setCpuAffinity (err : Z) (h : ProcessHandle) : outcome unit :=
  if negb (valid h) then Throw LogicError else if negb (err =? 0) then Throw (SystemError err) else Ok tt.

Definition setNiceValue (err : Z) (h : ProcessHandle) : outcome unit :=
  if negb (valid h) then Throw LogicError else if negb (err =? 0) then Throw (SystemError err) else Ok tt.
End control.

(** ** What an operation does to a handle *)

(** Either the handle keeps its child, or the child has been reaped and the
    handle is empty; no signal goes astray. *)
Definition op_ok (h : ProcessHandle) (w : PWorld) (h' : ProcessHandle) (w' : PWorld) : Prop :=
  stray w' = stray w ∧
  ((pid_ h' = pid_ h ∧ children w' = children w) ∨
   (valid h = true ∧ valid h' = false ∧ children w' = children w ∖ {[pid_ h]})).

(** A handle whose child has not been reaped by somebody else. *)
Definition holds (h : ProcessHandle) (w : PWorld) : Prop := valid h = true → pid_ h ∈ children w.

Lemma op_ok_refl h w : op_ok h w h w.
Proof. split; [done|]. by left. Qed.

Lemma reaped_ok st h w : valid h = true → op_ok h w (reaped st h w).1 (reaped st h w).2.
Proof.
  intros Hv. unfold reaped. destruct (closePidfd_spec h (pkern (on_pdiag (dispatchEvent (MkEvent Exit (pid_ h) (executable_ h) st 0)) (reap (pid_ h) w)))) as (h1 & -> & _).
  split; [done|]. right. done.
Qed.

#[local] Hint Resolve op_ok_refl reaped_ok : pman.

Section control_facts.
Variable fate : Z → option (Z * Z).
Variable kill_err : Z → Z → Z.
Variable foreign_ready : Z → bool.

Lemma sendSignal_ok sig h w : holds h w → op_ok h w h (sendSignal kill_err sig h w).2.
Proof.
  intros Hh. unfold sendSignal, sys_kill, holds in *. destruct (valid h); cbn [negb]; [|apply op_ok_refl].
  rewrite bool_decide_true by auto. cbn. split; [by destruct (_ =? 0)|]. left. by destruct (_ =? 0).
Qed.

(** [waitpid] itself leaves all but the errnos to come. *)
Lemma sys_waitpid_same pid w :
  let w1 := (sys_waitpid pid w).2 in
  children w1 = children w ∧ stray w1 = stray w ∧ signals w1 = signals w ∧ pkern w1 = pkern w.
Proof. unfold sys_waitpid. by destruct (negb _). Qed.

Lemma op_ok_wait h w h' w' : op_ok h (sys_waitpid (pid_ h) w).2 h' w' → op_ok h w h' w'.
Proof. destruct (sys_waitpid_same (pid_ h) w) as (Hc & Hs & _). unfold op_ok. by rewrite Hc, Hs. Qed.

Lemma wait_ok h w : let '(_, h', w') := wait fate h w in op_ok h w h' w'.
Proof.
  unfold wait. destruct (valid h) eqn:Hv; cbn [negb]; [|apply op_ok_refl].
  pose proof (op_ok_wait h w) as Hop. destruct (sys_waitpid (pid_ h) w) as [e w1]. cbn [snd] in Hop. destruct (negb _); [apply Hop, op_ok_refl|].
  destruct (fate (pid_ h)) as [[t st]|]; [|apply Hop, op_ok_refl]. pose proof (reaped_ok st h w1 Hv) as H. by destruct (reaped st h w1); apply Hop.
Qed.

Lemma tryWait_ok now h w : let '(_, h', w') := tryWait fate now h w in op_ok h w h' w'.
Proof.
  unfold tryWait. destruct (valid h) eqn:Hv; cbn [negb]; [|apply op_ok_refl].
  pose proof (op_ok_wait h w) as Hop. destruct (sys_waitpid (pid_ h) w) as [e w1]. cbn [snd] in Hop. destruct (negb _); [apply Hop, op_ok_refl|].
  destruct (fate (pid_ h)) as [[t st]|]; [|apply Hop, op_ok_refl]. destruct (t <=? now); [|apply Hop, op_ok_refl].
  pose proof (reaped_ok st h w1 Hv) as H. by destruct (reaped st h w1); apply Hop.
Qed.

(** The world, but for the errnos to come. *)
Definition same_world (w w' : PWorld) : Prop :=
  children w' = children w ∧ stray w' = stray w ∧ signals w' = signals w ∧ pkern w' = pkern w.

(** A pass that does not find the child ended changes nothing. *)
Lemma tryWait_none now h w : match tryWait fate now h w with (Ok None, h', w') => h' = h ∧ same_world w w' | _ => True end.
Proof.
  unfold tryWait. destruct (negb (valid h)); [done|]. pose proof (sys_waitpid_same (pid_ h) w) as Hs.
  destruct (sys_waitpid (pid_ h) w) as [e w1]. repeat case_match; by simplify_eq.
Qed.

Lemma waitFor_loop_ok d nows h w : let '(_, h', w') := waitFor_loop fate d nows h w in op_ok h w h' w'.
Proof.
  revert w. induction nows as [|now nows IH]; intros w; cbn; [apply op_ok_refl|]. destruct (now <? d); cbn [negb]; [|apply op_ok_refl].
  pose proof (tryWait_ok now h w) as Hok. pose proof (tryWait_none now h w) as Hn.
  destruct (tryWait fate now h w) as [[[[st|]|e|] h1] w1]; try done. destruct Hn as [-> (Hc & Hs & _)].
  specialize (IH w1). destruct (waitFor_loop fate d nows h w1) as [[? h2] w2]. unfold op_ok in *. by rewrite <- Hc, <- Hs.
Qed.

Lemma waitFor_ok now timeout intr nows h w :
  let '(_, h', w') := waitFor fate foreign_ready now timeout intr nows h w in op_ok h w h' w'.
Proof.
  unfold waitFor. destruct (valid h) eqn:Hv; cbn [negb]; [|apply op_ok_refl].
  destruct (pidfd_ h >=? 0); [|apply waitFor_loop_ok].
  destruct (if intr then _ else _) as [rc|e|]; [|apply op_ok_refl..]. destruct (rc <=? 0); [apply op_ok_refl|].
  pose proof (wait_ok h w) as Hok. by destruct (wait fate h w) as [[[] ?] ?].
Qed.

(** When [waitFor] reports that the child has not ended, nothing has changed. *)
Lemma waitFor_false now timeout intr nows h w :
  match waitFor fate foreign_ready now timeout intr nows h w with (Ok (false, _), h', w') => h' = h ∧ same_world w w' | _ => True end.
Proof.
  unfold waitFor. destruct (negb (valid h)); [done|]. destruct (pidfd_ h >=? 0).
  - destruct (if intr then _ else _) as [rc|e|]; [|done..]. destruct (rc <=? 0); [done|]. by destruct (wait fate h w) as [[[] ?] ?].
  - generalize (now + timeout) as d. intros d. revert w. induction nows as [|n nows IH]; intros w; cbn; [done|]. destruct (negb _); [done|].
    pose proof (tryWait_none n h w) as Hn. destruct (tryWait fate n h w) as [[[[st|]|e|] h1] w1]; try done. destruct Hn as [-> (H1 & H2 & H3 & H4)].
    specialize (IH w1). destruct (waitFor_loop fate d nows h w1) as [[[[[] ?]|?|] ?] ?]; try done. unfold same_world in *.
    by rewrite H1, H2, H3, H4 in IH.
Qed.

Lemma op_ok_signal h w w1 h' w' :
  op_ok h w h w1 → children w1 = children w → op_ok h w1 h' w' → op_ok h w h' w'.
Proof. intros [H1 _] Hc [H2 H3]. split; [congruence|]. by rewrite <- Hc. Qed.

Lemma sendSignal_children sig h w : children (sendSignal kill_err sig h w).2 = children w.
Proof. unfold sendSignal, sys_kill. destruct (negb _); [done|]. destruct (bool_decide _); [|done]. cbn. by destruct (_ =? 0). Qed.

Lemma terminateGrace_ok now grace intr nows h w :
  holds h w → let '(_, h', w') := terminateGrace fate kill_err foreign_ready now grace intr nows h w in op_ok h w h' w'.
Proof.
  intros Hh. unfold terminateGrace, kill. destruct (valid h) eqn:Hv; cbn [negb]; [|apply op_ok_refl].
  pose proof (sendSignal_ok SIGTERM h w Hh) as H1. pose proof (sendSignal_children SIGTERM h w) as C1.
  destruct (sendSignal kill_err SIGTERM h w) as [[[]|e|] w1]; [|done..]. cbn in H1, C1.
  pose proof (waitFor_ok now grace intr nows h w1) as H2. pose proof (waitFor_false now grace intr nows h w1) as F2.
  destruct (waitFor fate foreign_ready now grace intr nows h w1) as [[[[[] st]|e|] h2] w2]; try by eapply op_ok_signal.
  destruct F2 as [-> (C2 & _)]. assert (H2' : op_ok h w h w2) by by eapply op_ok_signal.
  assert (Hh1 : holds h w2) by (intros ?; rewrite C2, C1; by apply Hh).
  pose proof (sendSignal_ok SIGKILL h w2 Hh1) as H3. pose proof (sendSignal_children SIGKILL h w2) as C3.
  destruct (sendSignal kill_err SIGKILL h w2) as [[[]|e|] w3]; cbn in H3, C3; try by (eapply (op_ok_signal h w w2); [done|congruence|done]).
  pose proof (wait_ok h w3) as H4. eapply (op_ok_signal h w w2) in H3 as H3'; [|done|congruence].
  destruct (wait fate h w3) as [[[st'|e|] h4] w4]; (eapply (op_ok_signal h w w3); [done|congruence|done]).
Qed.

(** ** Programs over handles *)

Record HWorld := MkHWorld { handles : gmap Z ProcessHandle; pw : PWorld }.

Definition set_handle (x : Z) (h : ProcessHandle) (w : PWorld) (s : HWorld) : HWorld := MkHWorld (<[x := h]> (handles s)) w.

(** A program launches, moves, signals, waits and destroys.  The id of a new
    child is not that of an unreaped one. *)
Inductive handle_step : relation HWorld :=
  | H_launch x pid exe fd s :
      0 < pid → pid ∉ children (pw s) → handles s !! x = None →
      handle_step s (MkHWorld (<[x := MkHandle pid exe fd]> (handles s))
        (MkPWorld ({[pid]} ∪ children (pw s)) (signals (pw s)) (stray (pw s)) (pkern (pw s)) (pdiag (pw s)) (waitErrs (pw s))))
  | H_signal x h sig s : handles s !! x = Some h → handle_step s (MkHWorld (handles s) (sendSignal kill_err sig h (pw s)).2)
  | H_wait x h s : handles s !! x = Some h → handle_step s (let '(_, h', w') := wait fate h (pw s) in set_handle x h' w' s)
  | H_tryWait now x h s : handles s !! x = Some h → handle_step s (let '(_, h', w') := tryWait fate now h (pw s) in set_handle x h' w' s)
  | H_waitFor now t intr nows x h s :
      handles s !! x = Some h →
      handle_step s (let '(_, h', w') := waitFor fate foreign_ready now t intr nows h (pw s) in set_handle x h' w' s)
  | H_terminate now g intr nows x h s :
      handles s !! x = Some h →
      handle_step s (let '(_, h', w') := terminateGrace fate kill_err foreign_ready now g intr nows h (pw s) in set_handle x h' w' s)
  | H_destroy x h s : handles s !! x = Some h → handle_step s (MkHWorld (delete x (handles s)) (on_pkern (handle_destroy h) (pw s)))
  | H_assign x y h g s :
      handles s !! x = Some h → handles s !! y = Some g →
      handle_step s (let '(h', g', k) := handle_move_assign (x =? y) h g (pkern (pw s)) in
                     MkHWorld (<[y := g']> (<[x := h']> (handles s))) (on_pkern (λ _, k) (pw s)))
  | H_move x y g s :
      handles s !! x = None → handles s !! y = Some g →
      handle_step s (let '(h', g', k) := handle_move_construct g (pkern (pw s)) in
                     MkHWorld (<[x := h']> (<[y := g']> (handles s))) (on_pkern (λ _, k) (pw s))).

(** Every handle that names a child names an unreaped one, and no two name the
    same. *)
Record HInv (s : HWorld) : Prop := {
  hi_stray : stray (pw s) = false;
  hi_holds : ∀ x h, handles s !! x = Some h → holds h (pw s);
  hi_unique : ∀ x y h g, handles s !! x = Some h → handles s !! y = Some g → valid h = true → pid_ g = pid_ h → x = y
}.

Lemma handle_op_inv s x h h' w' :
  HInv s → handles s !! x = Some h → op_ok h (pw s) h' w' → HInv (set_handle x h' w' s).
Proof.
  intros [Hs Hh Hu] Hx [Hst Hcase]. unfold set_handle. split; cbn [handles pw]; [congruence| |].
  - intros y g Hy Hv. apply lookup_insert_Some in Hy as [[<- <-]|[Hne Hy]].
    + destruct Hcase as [[Hp ->]|(_ & Hinv & _)]; [|congruence]. unfold valid in *. rewrite Hp in *. by apply (Hh x h).
    + pose proof (Hh y g Hy Hv) as Hin. destruct Hcase as [[_ ->]|(Hval & _ & ->)]; [done|].
      apply elem_of_difference. split; [done|]. intros E%elem_of_singleton. apply Hne. by apply (Hu x y h g).
  - intros y z g1 g2 Hy Hz Hv Hp. apply lookup_insert_Some in Hz as Hz'. apply lookup_insert_Some in Hy as [[<- <-]|[Hny Hy]].
    + destruct Hz' as [[-> _]|[Hnz Hz']]; [done|]. destruct Hcase as [[Hp' _]|(_ & Hinv & _)]; [|congruence].
      unfold valid in Hv. rewrite Hp' in *. by apply (Hu x z h g2).
    + destruct Hz' as [[<- <-]|[Hnz Hz']]; [|by apply (Hu y z g1 g2)].
      destruct Hcase as [[Hp' _]|(_ & Hinv & _)]; [by apply (Hu y x g1 h); [..|congruence]|].
      unfold valid in *. rewrite Hp in Hinv. congruence.
Qed.

(** Moving a handle to another object. *)
Lemma transfer_inv s x y g h' g' k :
  HInv s → x ≠ y → handles s !! y = Some g → pid_ h' = pid_ g → valid g' = false →
  HInv (MkHWorld (<[x := h']> (<[y := g']> (handles s))) (on_pkern (λ _, k) (pw s))).
Proof.
  intros [Hs Hh Hu] Hne Hy Hp Hg'.
  assert (Hfrom : ∀ z q, <[x := h']> (<[y := g']> (handles s)) !! z = Some q → valid q = true →
    (z = x ∧ pid_ q = pid_ g) ∨ (z ≠ x ∧ z ≠ y ∧ handles s !! z = Some q)).
  { intros z q [[<- <-]|[? [[<- <-]|[? ?]]%lookup_insert_Some]]%lookup_insert_Some Hv; [by left|congruence|right]. done. }
  assert (Hval : ∀ q, valid q = true → pid_ q = pid_ g → valid g = true) by (unfold valid; intros q ? <-; done).
  split; cbn [handles pw]; [done| |].
  - intros z q Hz Hv. change (pid_ q ∈ children (pw s)). destruct (Hfrom z q Hz Hv) as [[_ Hpq]|(_ & _ & Hz')]; [|by apply (Hh z q)].
    rewrite Hpq. apply (Hh y g Hy). by eapply Hval.
  - intros z1 z2 q1 q2 H1 H2 Hv Hpq. assert (Hv2 : valid q2 = true) by (unfold valid in *; by rewrite Hpq).
    destruct (Hfrom z1 q1 H1 Hv) as [[-> E1]|(? & ? & H1')], (Hfrom z2 q2 H2 Hv2) as [[-> E2]|(? & ? & H2')]; [done| | |by apply (Hu z1 z2 q1 q2)].
    + exfalso. assert (z2 = y) by (apply (Hu z2 y q2 g); [done|done|done|congruence]). done.
    + exfalso. assert (z1 = y) by (apply (Hu z1 y q1 g); [done|done|done|congruence]). done.
Qed.

Lemma handle_step_inv s s' : handle_step s s' → HInv s → HInv s'.
Proof.
  intros [x pid exe fd s0 Hpos Hfresh Hx|x h sig s0 Hx|x h s0 Hx|now x h s0 Hx|now t intr nows x h s0 Hx|now g intr nows x h s0 Hx
         |x h s0 Hx|x y h g s0 Hx Hy|x y g s0 Hx Hy] Hinv.
  - destruct Hinv as [Hs Hh Hu].
    assert (Hno : ∀ z q, handles s0 !! z = Some q → valid q = true → pid_ q ≠ pid) by (intros z q Hz Hv E; apply Hfresh; rewrite <- E; by apply (Hh z q)).
    split; cbn [handles pw stray children]; [done| |].
    + intros z q [[<- <-]|[_ Hz]]%lookup_insert_Some Hv; cbn; [set_solver|]. apply elem_of_union_r. by apply (Hh z q).
    + intros z1 z2 q1 q2 [[<- <-]|[Hn1 H1]]%lookup_insert_Some [[<- <-]|[Hn2 H2]]%lookup_insert_Some Hv Hp; [done| | |by apply (Hu z1 z2 q1 q2)].
      * exfalso. apply (Hno z2 q2 H2); [|done]. unfold valid in *. by rewrite Hp.
      * exfalso. by apply (Hno z1 q1 H1 Hv).
  - pose proof (handle_op_inv s0 x h h _ Hinv Hx (sendSignal_ok sig h (pw s0) (hi_holds s0 Hinv x h Hx))) as H.
    unfold set_handle in H. by rewrite insert_id in H.
  - pose proof (wait_ok h (pw s0)) as H. destruct (wait fate h (pw s0)) as [[? h'] w']. by apply (handle_op_inv s0 x h).
  - pose proof (tryWait_ok now h (pw s0)) as H. destruct (tryWait fate now h (pw s0)) as [[? h'] w']. by apply (handle_op_inv s0 x h).
  - pose proof (waitFor_ok now t intr nows h (pw s0)) as H. destruct (waitFor _ _ _ _ _ _ _ _) as [[? h'] w']. by apply (handle_op_inv s0 x h).
  - pose proof (terminateGrace_ok now g intr nows h (pw s0) (hi_holds s0 Hinv x h Hx)) as H.
    destruct (terminateGrace _ _ _ _ _ _ _ _ _) as [[? h'] w']. by apply (handle_op_inv s0 x h).
  - destruct Hinv as [Hs Hh Hu]. split; cbn [handles pw]; [done| |].
    + intros z q [_ Hz]%lookup_delete_Some Hv. by apply (Hh z q).
    + intros z1 z2 q1 q2 [_ H1]%lookup_delete_Some [_ H2]%lookup_delete_Some Hv Hp. by apply (Hu z1 z2 q1 q2).
  - unfold handle_move_assign. destruct (Z.eqb_spec x y) as [->|Hne].
    + rewrite insert_insert_eq, insert_id by done. destruct Hinv as [Hs Hh Hu]. by split.
    + destruct (closePidfd h (pkern (pw s0))) as [h1 k1]. rewrite insert_insert_ne by done. by apply (transfer_inv s0 x y g).
  - assert (x ≠ y) by congruence. by apply (transfer_inv s0 x y g).
Qed.

Definition newHWorld (k : Kernel) (d : Diagnostics) (errs : list Z) : HWorld := MkHWorld ∅ (MkPWorld ∅ [] false k d errs).

Lemma handle_reachable_inv k d errs s : rtc handle_step (newHWorld k d errs) s → HInv s.
Proof. intros Hr. refine (rtc_invariant handle_step HInv _ s handle_step_inv Hr _). by split. Qed.
End control_facts.


Definition std_kernel : Kernel := MkKernel {[ 0 := MkFd 1 false; 1 := MkFd 1 false; 2 := MkFd 1 false ]} false [].


(** ** Waiting with a timeout *)

(** The timeout of [poll] is the timeout rounded down to milliseconds, as far as
    an [int] goes. *)
Lemma pollTimeout_bounds t :
  (t < 0 → pollTimeout t = -1) ∧ (0 <= t → 0 <= pollTimeout t <= INT_MAX ∧ pollTimeout t * ns_per_ms <= t) ∧
  (0 <= t < (INT_MAX + 1) * ns_per_ms → t < (pollTimeout t + 1) * ns_per_ms).
Proof.
  unfold pollTimeout, ns_per_ms, INT_MAX.
  assert (Hq : 0 <= t → 1000000 * (t ÷ 1000000) <= t < 1000000 * (t ÷ 1000000 + 1)) by (intros; apply Z_quot_bounds; lia).
  destruct (Z.geb_spec t 0) as [Ht|Ht]; [|lia].
  specialize (Hq Ht). pose proof (Z.quot_pos t 1000000 ltac:(lia) ltac:(lia)).
  destruct (Z.gtb_spec (t ÷ 1000000) (2 ^ 31 - 1)); lia.
Qed.

Section wait_for.
Variable fate : Z → option (Z * Z).
Variable foreign_ready : Z → bool.
Variable h : ProcessHandle.
Variable w : PWorld.
Hypothesis Hvalid : valid h = true.
Hypothesis Hchild : pid_ h ∈ children w.
Hypothesis Hfd : 0 <= pidfd_ h.

Lemma wait_child :
  wait fate h w =
  if negb (next_err w =? 0) then (Throw (SystemError (next_err w)), h, pop_err w)
  else match fate (pid_ h) with
       | None => (Hang, h, pop_err w)
       | Some (_, st) => (Ok st, (reaped st h (pop_err w)).1, (reaped st h (pop_err w)).2)
       end.
Proof.
  unfold wait, sys_waitpid. rewrite Hvalid, bool_decide_true by done. cbn [negb]. destruct (negb _); [done|].
  destruct (fate (pid_ h)) as [[t st]|]; [|done]. by destruct (reaped st h (pop_err w)).
Qed.

(** What [waitFor] makes of it. *)
Definition waited : outcome (bool * option Z) * ProcessHandle * PWorld :=
  match wait fate h w with
  | (Ok st, h', w') => (Ok (true, Some st), h', w')
  | (Throw e, h', w') => (Throw e, h', w')
  | (Hang, h', w') => (Hang, h', w')
  end.

(** With the process descriptor open: the child is reaped if it ends before the
    rounded timeout, and otherwise, or when the poll is interrupted, nothing
    happens; a negative timeout waits for ever. *)
Lemma waitFor_open now timeout intr e nows :
  open_ (pkern w) !! pidfd_ h = Some e → file e = pidfd_file (pid_ h) →
  waitFor fate foreign_ready now timeout intr nows h w =
  if intr then (Ok (false, None), h, w)
  else match fate (pid_ h) with
  | None => if timeout <? 0 then (Hang, h, w) else (Ok (false, None), h, w)
  | Some (t, st) =>
      if (timeout <? 0) || (t <=? now + pollTimeout timeout * ns_per_ms) then waited else (Ok (false, None), h, w)
  end.
Proof.
  intros Ho Hf. unfold waitFor. rewrite Hvalid. cbn [negb]. rewrite (proj2 (Z.geb_le _ _)) by lia.
  destruct intr; [done|]. unfold sys_poll. rewrite Ho, (proj2 (Z.eqb_eq _ _)) by done.
  pose proof (pollTimeout_bounds timeout) as (Hneg & Hpos & _).
  assert (Hlt : (pollTimeout timeout <? 0) = (timeout <? 0)).
  { destruct (Z.ltb_spec timeout 0); [by rewrite Hneg|]. apply Z.ltb_ge. lia. }
  rewrite Hlt. unfold ended. destruct (fate (pid_ h)) as [[t st]|].
  - destruct (timeout <? 0); [done|]. by destruct (t <=? now + pollTimeout timeout * ns_per_ms).
  - by destruct (timeout <? 0).
Qed.

(** With a descriptor that is not open, [poll] reports it at once and [waitFor]
    waits without limit, whatever the timeout. *)
Lemma waitFor_closed now timeout nows :
  open_ (pkern w) !! pidfd_ h = None →
  waitFor fate foreign_ready now timeout false nows h w = waited.
Proof.
  intros Ho. unfold waitFor. rewrite Hvalid. cbn [negb]. rewrite (proj2 (Z.geb_le _ _)) by lia.
  unfold sys_poll. by rewrite Ho.
Qed.
End wait_for.



(** Waiting for a process whose output is captured.  The builder's [spawn]
    returns a handle whose process descriptor it has itself closed; so
    [waitFor] on it never returns false: whatever the timeout, it waits until
    the child ends, for ever if it does not. *)
Theorem captured_wait_blocks a f b l fate foreign now timeout nows cs :
  stdinCtrl_ b = false → stderrCtrl_ b = false → parentCloseFds_ b = [] → executable (config_ b) ≠ [] →
  canUsePosixSpawn (config_ b) = false → cgroupPath (config_ b) = None → ioniceClass (config_ b) = None →
  a_fork a = 0 → a_pidfd a = true → 0 < a_pid a → a_pid a ∈ cs →
  let '(_, b1, k1) := captureStdout 0 f b (l_kern l) in
  ∃ h b2 l2, spawn a b1 (on_kern (λ _, k1) l) = (Ok h, b2, l2) ∧ valid h = true ∧
    let w := MkPWorld cs [] false (l_kern l2) (l_diag l2) [] in
    open_ (pkern w) !! pidfd_ h = None ∧
    (waitFor fate foreign now timeout false nows h w).1.1 =
      match fate (pid_ h) with Some (_, st) => Ok (true, Some st) | None => Hang end.
Proof.
  intros H0 H2 Hcl He Hp Hc Hi Hf Hpf Hpid Hin. pose proof (capture_closes_pidfd a f b l H0 H2 Hcl He Hp Hc Hi Hf) as H.
  destruct (captureStdout 0 f b (l_kern l)) as [[r b1] k1]. destruct H as (p & fd & h & b2 & l2 & _ & _ & _ & Hs & Hh & Hfd & Hif).
  rewrite Hpf in Hif. destruct Hif as (Hpfd & Hno & _). exists h, b2, l2.
  assert (Hv : valid h = true) by (unfold valid; rewrite Hh; by apply Z.gtb_lt). cbn zeta. split_and!; [done|done|done|].
  rewrite waitFor_closed by (done || lia). unfold waited. rewrite wait_child by (cbn; by rewrite ?Hh). cbn. by destruct (fate (pid_ h)) as [[t st]|].
Qed.

Lemma captured_wait_blocks_witness :
  let '(_, b1, k1) := captureStdout 0 50 (newBuilder ["a"%char]) (l_kern std_launch) in
  ∃ h b2 l2, spawn sample_answers b1 (on_kern (λ _, k1) std_launch) = (Ok h, b2, l2) ∧ valid h = true ∧
    let w := MkPWorld {[ 42 ]} [] false (l_kern l2) (l_diag l2) [] in
    open_ (pkern w) !! pidfd_ h = None ∧
    (waitFor (λ _, None) (λ _, false) 0 1000000 false [] h w).1.1 = Hang.
Proof.
  apply (captured_wait_blocks sample_answers 50 (newBuilder ["a"%char]) std_launch (λ _, None) (λ _, false) 0 1000000 [] {[ 42 ]}); done.
Defined.
