(* ===== verification/ProcessGroup.v ===== *)
(** * Process groups (src/src/process_group.cpp)

    A list of handles and the system's process group, over the world of
    [ProcessControl].  Launching is the business of [Process] and
    [ProcessBuilder]: [group_add] takes the handle they return. *)

From S2P Require Import Prelude Text Descriptors Process ProcessControl.

Record ProcessGroup := MkGroup { processes_ : list ProcessHandle; pgid_ : option Z }.

Definition newGroup : ProcessGroup := MkGroup [] None.

(** The move constructor and assignment: the other group is left empty. *)
Definition group_move (other : ProcessGroup) : ProcessGroup * ProcessGroup :=
  (MkGroup (processes_ other) (pgid_ other), MkGroup [] None).

Definition group_destroy (g : ProcessGroup) (w : PWorld) : PWorld :=
  foldl (λ w h, on_pkern (handle_destroy h) w) w (processes_ g).

(** [setpgid] failed in a way that is not forgiven. *)
Definition setpgid_fatal (e : Z) : bool := negb (e =? 0) && negb (e =? EACCES) && negb (e =? ESRCH).

Section group.
Variable fate : Z → option (Z * Z).
Variable kill_err : Z → Z → Z.
Variable foreign_ready : Z → bool.
(** The errno of [setpgid] and of [killpg]. *)
Variable setpgid : Z → Z → Z.
Variable killpg : Z → Z → Z.

(** [add], with the handle of the process that was launched; when the system
    refuses the group, the handle is destroyed and the process runs on. *)
Definition group_add (h : ProcessHandle) (g : ProcessGroup) (w : PWorld) : outcome unit * ProcessGroup * PWorld :=
  match pgid_ g with
  | Some p =>
      let e := setpgid (pid_ h) p in
      if setpgid_fatal e then (Throw (SystemError e), g, on_pkern (handle_destroy h) w)
      else (Ok tt, MkGroup (processes_ g ++ [h]) (pgid_ g), w)
  | None => (Ok tt, MkGroup (processes_ g ++ [h]) (pgid_ g), w)
  end.

(** The loop of [sendSignalAll]: a process that is gone is skipped. *)
Fixpoint signal_each (sig : Z) (hs : list ProcessHandle) (w : PWorld) : outcome unit * PWorld :=
  match hs with
  | [] => (Ok tt, w)
  | h :: hs' =>
      if valid h then
        match sendSignal kill_err sig h w with
        | (Ok _, w') => signal_each sig hs' w'
        | (Throw (SystemError e), w') => if e =? ESRCH then signal_each sig hs' w' else (Throw (SystemError e), w')
        | (Throw e, w') => (Throw e, w')
        | (Hang, w') => (Hang, w')
        end
      else signal_each sig hs' w
  end.

Definition sendSignalAll (sig : Z) (g : ProcessGroup) (w : PWorld) : outcome unit * PWorld :=
  match pgid_ g with
  | Some p =>
      let e := killpg p sig in
      (if negb (e =? 0) && negb (e =? ESRCH) then Throw (SystemError e) else Ok tt, w)
  | None => signal_each sig (processes_ g) w
  end.

Definition terminateAll (g : ProcessGroup) (w : PWorld) := sendSignalAll SIGTERM g w.
Definition killAll (g : ProcessGroup) (w : PWorld) := sendSignalAll SIGKILL g w.
Definition stopAll (g : ProcessGroup) (w : PWorld) := sendSignalAll SIGSTOP g w.
Definition continueAll (g : ProcessGroup) (w : PWorld) := sendSignalAll SIGCONT g w.

(** The index of the handle of a process. *)
Fixpoint index_of (pid i : Z) (hs : list ProcessHandle) : Z :=
  match hs with
  | [] => -1
  | h :: hs' => if valid h && (pid_ h =? pid) then i else index_of pid (i + 1) hs'
  end.

(** [waitAny]: [first] is the child, of the whole process, that [waitpid(-1)]
    returns; the handles are left as they are. *)
Definition waitAny (first : Z) (g : ProcessGroup) (w : PWorld) : outcome Z * PWorld :=
  match processes_ g with
  | [] => (Throw RuntimeError, w)
  | _ =>
      if bool_decide (children w = ∅) then (Throw (SystemError ECHILD), w)
      else (Ok (index_of first 0 (processes_ g)), reap first w)
  end.

(** The loop of [waitAll]: the statuses so far are lost if one throws. *)
Fixpoint wait_each (hs : list ProcessHandle) (w : PWorld) : outcome (list Z) * list ProcessHandle * PWorld :=
  match hs with
  | [] => (Ok [], [], w)
  | h :: hs' =>
      if valid h then
        match wait fate h w with
        | (Ok st, h', w') =>
            let '(r, hs'', w'') := wait_each hs' w' in
            (let* sts := r in Ok (st :: sts), h' :: hs'', w'')
        | (Throw e, h', w') => (Throw e, h' :: hs', w')
        | (Hang, h', w') => (Hang, h' :: hs', w')
        end
      else
        let '(r, hs'', w'') := wait_each hs' w in (let* sts := r in Ok (-1 :: sts), h :: hs'', w'')
  end.

Definition waitAll (g : ProcessGroup) (w : PWorld) : outcome (list Z) * ProcessGroup * PWorld :=
  let '(r, hs, w') := wait_each (processes_ g) w in (r, MkGroup hs (pgid_ g), w').

(** [waitAllFor]; the times are the clock reads, one per valid process, and the
    passes of the waiting loops. *)
Fixpoint waitFor_each (deadline : Z) (times : list (Z * list Z)) (hs : list ProcessHandle) (w : PWorld)
  : outcome bool * list ProcessHandle * PWorld :=
  match hs with
  | [] => (Ok true, [], w)
  | h :: hs' =>
      if valid h then
        match times with
        | [] => (Hang, hs, w)
        | (now, nows) :: times' =>
            if deadline - now <=? 0 then (Ok false, hs, w)
            else match waitFor fate foreign_ready now (deadline - now) false nows h w with
                 | (Ok (true, _), h', w') =>
                     let '(r, hs'', w'') := waitFor_each deadline times' hs' w' in (r, h' :: hs'', w'')
                 | (Ok (false, _), h', w') => (Ok false, h' :: hs', w')
                 | (Throw e, h', w') => (Throw e, h' :: hs', w')
                 | (Hang, h', w') => (Hang, h' :: hs', w')
                 end
        end
      else let '(r, hs'', w'') := waitFor_each deadline times hs' w in (r, h :: hs'', w'')
  end.

Definition waitAllFor (now timeout : Z) (times : list (Z * list Z)) (g : ProcessGroup) (w : PWorld)
  : outcome bool * ProcessGroup * PWorld :=
  let '(r, hs, w') := waitFor_each (now + timeout) times (processes_ g) w in (r, MkGroup hs (pgid_ g), w').

Definition group_size (g : ProcessGroup) : nat := length (processes_ g).
Definition group_empty (g : ProcessGroup) : bool := (length (processes_ g) =? 0)%nat.

(** [at] throws out of range, [operator[]] is undefined there. *)
Definition group_at (i : nat) (g : ProcessGroup) : outcome ProcessHandle :=
  match processes_ g !! i with Some h => Ok h | None => Throw OutOfRange end.

(** Every valid process into the group; the first refusal throws. *)
Fixpoint setpgid_each (p : Z) (hs : list ProcessHandle) : outcome unit :=
  match hs with
  | [] => Ok tt
  | h :: hs' =>
      if valid h then
        let e := setpgid (pid_ h) p in if setpgid_fatal e then Throw (SystemError e) else setpgid_each p hs'
      else setpgid_each p hs'
  end.

Definition setProcessGroup (p : Z) (g : ProcessGroup) : outcome unit * ProcessGroup :=
  (setpgid_each p (processes_ g), MkGroup (processes_ g) (Some p)).

Definition createProcessGroup (g : ProcessGroup) : outcome unit * ProcessGroup :=
  match processes_ g with
  | [] => (Throw RuntimeError, g)
  | h :: hs =>
      let leader := pid_ h in
      let e := setpgid leader 0 in
      if setpgid_fatal e then (Throw (SystemError e), g)
      else (setpgid_each leader hs, MkGroup (processes_ g) (Some leader))
  end.

End group.

(** ** Properties *)

(** The handles name different unreaped children. *)
Definition members_ok (hs : list ProcessHandle) (w : PWorld) : Prop :=
  NoDup (pid_ <$> filter (λ h, valid h = true) hs) ∧ Forall (λ h, valid h = true → pid_ h ∈ children w) hs.

(** The status [waitAll] reports for a handle. *)
Definition status_of (fate : Z → option (Z * Z)) (h : ProcessHandle) : Z :=
  if valid h then match fate (pid_ h) with Some (_, st) => st | None => 0 end else -1.

Lemma reaped_facts st h w :
  valid (reaped st h w).1 = false ∧ children (reaped st h w).2 = children w ∖ {[pid_ h]} ∧ stray (reaped st h w).2 = stray w ∧
  waitErrs (reaped st h w).2 = waitErrs w.
Proof.
  unfold reaped. destruct (closePidfd_spec h (pkern (on_pdiag (dispatchEvent (MkEvent Exit (pid_ h) (executable_ h) st 0)) (reap (pid_ h) w)))) as (h1 & -> & _). done.
Qed.

(** No [waitpid] is interrupted. *)
Lemma wait_each_spec fate hs w :
  waitErrs w = [] → members_ok hs w → Forall (λ h, valid h = true → is_Some (fate (pid_ h))) hs →
  ∃ hs' w', wait_each fate hs w = (Ok (status_of fate <$> hs), hs', w') ∧ Forall (λ h, valid h = false) hs' ∧ length hs' = length hs ∧
    children w' = children w ∖ list_to_set (pid_ <$> filter (λ h, valid h = true) hs) ∧ stray w' = stray w.
Proof.
  revert w. induction hs as [|h hs IH]; intros w Hwe [Hnd Hin] Hfate; cbn [wait_each].
  - exists [], w. split_and!; [done|done|done|set_solver|done].
  - apply Forall_cons in Hin as [Hh Hin]. apply Forall_cons in Hfate as [Hf Hfate]. unfold status_of at 1. cbn [fmap list_fmap].
    destruct (valid h) eqn:Hv.
    + rewrite filter_cons_True in Hnd |- * by done. cbn [fmap list_fmap] in Hnd |- *. apply NoDup_cons in Hnd as [Hni Hnd].
      destruct (Hf eq_refl) as [[t st] Est]. rewrite wait_child by auto. unfold next_err. rewrite Hwe, Est. cbn [head default Z.eqb negb].
      destruct (reaped_facts st h (pop_err w)) as (Hvr & Hcr & Hsr & Her). destruct (reaped st h (pop_err w)) as [h1 w1]. cbn in Hvr, Hcr, Hsr, Her.
      rewrite Hwe in Her.
      destruct (IH w1 Her) as (hs' & w' & E & Hall & Hlen & Hch & Hst); [|done|].
      { split; [done|]. apply Forall_forall. intros g Hg Hvg. rewrite Hcr. rewrite Forall_forall in Hin.
        apply elem_of_difference. split; [by apply Hin|]. intros Heq%elem_of_singleton. apply Hni. rewrite <- Heq.
        apply list_elem_of_fmap. exists g. split; [done|]. by apply list_elem_of_filter. }
      cbn [fst snd]. rewrite E. exists (h1 :: hs'), w'. cbn. rewrite Hlen, Hch, Hcr, Hst. split_and!; [done|by constructor|done|set_solver|done].
    + rewrite filter_cons_False in Hnd |- * by (rewrite Hv; done).
      destruct (IH w Hwe) as (hs' & w' & E & Hall & Hlen & Hch & Hst); [by split|done|].
      rewrite E. exists (h :: hs'), w'. cbn. rewrite Hlen. split_and!; [done|by constructor|done|done|done].
Qed.

(** The live members' ids. *)
Definition live_pids (g : ProcessGroup) : list Z := pid_ <$> filter (λ h, valid h = true) (processes_ g).

Lemma signal_each_spec kill_err sig hs w :
  Forall (λ h, valid h = true → pid_ h ∈ children w) hs → (∀ p, kill_err p sig = 0 ∨ kill_err p sig = ESRCH) →
  ∃ w', signal_each kill_err sig hs w = (Ok tt, w') ∧ children w' = children w ∧ stray w' = stray w ∧ waitErrs w' = waitErrs w ∧
    signals w' = signals w ++ ((λ p, (p, sig)) <$> filter (λ p, kill_err p sig = 0) (pid_ <$> filter (λ h, valid h = true) hs)).
Proof.
  intros Hin Hk. revert w Hin. induction hs as [|h hs IH]; intros w Hin; cbn [signal_each].
  - exists w. cbn. by rewrite app_nil_r.
  - apply Forall_cons in Hin as [Hh Hin]. destruct (valid h) eqn:Hv.
    + rewrite filter_cons_True by done. cbn [fmap list_fmap]. unfold sendSignal, sys_kill. rewrite Hv, bool_decide_true by auto. cbn [negb].
      destruct (Hk (pid_ h)) as [E|E]; rewrite E; cbn [Z.eqb negb].
      * destruct (IH (MkPWorld (children w) (signals w ++ [(pid_ h, sig)]) (stray w) (pkern w) (pdiag w) (waitErrs w)) Hin) as (w' & -> & Hc & Hs & He & Hsg).
        exists w'. rewrite filter_cons_True by done. split_and!; [done|done|done|done|]. rewrite Hsg. cbn. by rewrite <- app_assoc.
      * destruct (IH w Hin) as (w' & Hr & Hc & Hs & He & Hsg). exists w'. rewrite filter_cons_False by (rewrite E; done). by split_and!.
    + rewrite filter_cons_False by (rewrite Hv; done). by apply IH.
Qed.

(** Ending a group.  For a group whose handles name different unreaped children,
    and with no [waitpid] interrupted,
    [terminateAll] signals each live member once, in the order of the group,
    passing over those that are gone, and none besides; [waitAll] then returns
    their statuses in the order of the group, -1 for the handles that were
    already empty, and leaves every handle empty and no member a child. *)
Theorem group_ends fate kill_err killpg g w :
  pgid_ g = None → waitErrs w = [] → members_ok (processes_ g) w → Forall (λ h, valid h = true → is_Some (fate (pid_ h))) (processes_ g) →
  (∀ p, kill_err p SIGTERM = 0 ∨ kill_err p SIGTERM = ESRCH) →
  ∃ w1 g2 w2, terminateAll kill_err killpg g w = (Ok tt, w1) ∧ waitAll fate g w1 = (Ok (status_of fate <$> processes_ g), g2, w2) ∧
    signals w1 = signals w ++ ((λ p, (p, SIGTERM)) <$> filter (λ p, kill_err p SIGTERM = 0) (live_pids g)) ∧
    Forall (λ h, valid h = false) (processes_ g2) ∧ length (processes_ g2) = length (processes_ g) ∧
    children w2 = children w ∖ list_to_set (live_pids g) ∧ stray w2 = stray w.
Proof.
  intros Hp Hwe Hm Hf Hk. unfold terminateAll, sendSignalAll, waitAll. rewrite Hp.
  destruct (signal_each_spec kill_err SIGTERM (processes_ g) w (proj2 Hm) Hk) as (w1 & -> & Hc & Hs & He & Hsg). rewrite Hwe in He.
  assert (Hm1 : members_ok (processes_ g) w1) by (unfold members_ok; by rewrite Hc).
  destruct (wait_each_spec fate (processes_ g) w1 He Hm1 Hf) as (hs & w2 & E & Hall & Hlen & Hch & Hst).
  exists w1, (MkGroup hs None), w2. rewrite E. split_and!; try done; [by rewrite Hch, Hc|by rewrite Hst].
Qed.

Definition sample_group : ProcessGroup := MkGroup [MkHandle 7 [] (-1); MkHandle (-1) [] (-1); MkHandle 8 [] (-1)] None.
Definition sample_pworld : PWorld := MkPWorld {[ 7; 8; 9 ]} [] false std_kernel (MkDiag None []) [].

Lemma group_ends_witness :
  ∃ w1 g2 w2, terminateAll (λ p _, if p =? 8 then ESRCH else 0) (λ _ _, 0) sample_group sample_pworld = (Ok tt, w1) ∧
    waitAll (λ p, Some (0, p * 256)) sample_group w1 = (Ok [1792; -1; 2048], g2, w2) ∧ signals w1 = [(7, SIGTERM)] ∧
    Forall (λ h, valid h = false) (processes_ g2) ∧ length (processes_ g2) = 3%nat ∧
    children w2 = {[ 7; 8; 9 ]} ∖ list_to_set [7; 8] ∧ stray w2 = false.
Proof.
  apply (group_ends (λ p, Some (0, p * 256)) (λ p _, if p =? 8 then ESRCH else 0) (λ _ _, 0) sample_group sample_pworld);
    [done|done| |by_decision|intros p; destruct (p =? 8); auto].
  split; [by_decision|]. repeat constructor; cbn; intros; set_solver.
Defined.

(** [waitAny] reaps a child but leaves its handle valid: afterwards the group
    signals a process id it no longer owns, and [waitAll] fails.  It waits for
    any child of the process, so it can also reap one of somebody else and
    return -1. *)
Theorem waitAny_leaves_stale fate kill_err killpg sig h hs w :
  valid h = true → pid_ h ∈ children w → stray w = false →
  let g := MkGroup (h :: hs) None in
  waitAny (pid_ h) g w = (Ok 0, reap (pid_ h) w) ∧
  stray (sendSignalAll kill_err killpg sig g (reap (pid_ h) w)).2 = true ∧
  (waitAll fate g (reap (pid_ h) w)).1.1 = Throw (SystemError ECHILD) ∧
  (∀ p, p ∈ children w → Forall (λ x, pid_ x ≠ p) (h :: hs) → waitAny p g w = (Ok (-1), reap p w)).
Proof.
  intros Hv Hin Hs g.
  assert (Hne : children w ≠ ∅) by set_solver.
  assert (Hstray : ∀ l w0, stray w0 = true → stray (signal_each kill_err sig l w0).2 = true).
  { induction l as [|x l IH]; intros w0 H0; cbn; [done|]. destruct (valid x) eqn:Hx; [|by apply IH].
    unfold sendSignal, sys_kill. rewrite Hx. cbn [negb]. destruct (bool_decide _); cbn.
    - destruct (kill_err (pid_ x) sig =? 0) eqn:Ek; cbn; [by apply IH|]. destruct (_ =? ESRCH); [by apply IH|done].
    - by apply IH. }
  split_and!.
  - unfold waitAny, g. cbn. rewrite bool_decide_false by done. by rewrite Hv, Z.eqb_refl.
  - unfold sendSignalAll, g. cbn. rewrite Hv. unfold sendSignal, sys_kill. rewrite Hv, bool_decide_false by (cbn; set_solver). cbn. by apply Hstray.
  - unfold waitAll, g. cbn. rewrite Hv. unfold wait, sys_waitpid. rewrite Hv, bool_decide_false by (cbn; set_solver). done.
  - intros p Hp Hall. unfold waitAny, g. cbn [processes_]. rewrite bool_decide_false by done. f_equal. f_equal.
    generalize 0 as i. induction Hall as [|x l Hx _ IH]; intros i; cbn; [done|]. rewrite (proj2 (Z.eqb_neq _ _)) by done.
    rewrite andb_false_r. apply IH.
Qed.

Lemma waitAny_leaves_stale_witness :
  waitAny 7 sample_group sample_pworld = (Ok 0, reap 7 sample_pworld) ∧
  stray (sendSignalAll (λ _ _, 0) (λ _ _, 0) SIGTERM sample_group (reap 7 sample_pworld)).2 = true ∧
  (waitAll (λ _, None) sample_group (reap 7 sample_pworld)).1.1 = Throw (SystemError ECHILD) ∧
  (∀ p, p ∈ children sample_pworld → Forall (λ x, pid_ x ≠ p) (processes_ sample_group) →
     waitAny p sample_group sample_pworld = (Ok (-1), reap p sample_pworld)).
Proof.
  apply (waitAny_leaves_stale (λ _, None) (λ _ _, 0) (λ _ _, 0) SIGTERM (MkHandle 7 [] (-1)) [MkHandle (-1) [] (-1); MkHandle 8 [] (-1)] sample_pworld);
    [done|cbn; set_solver|done].
Defined.

(** With a leader that has been waited for, the group id is taken from the empty
    handle, and the refusal of the system is forgiven. *)
Lemma create_with_reaped_leader setpgid h :
  pid_ h = -1 → setpgid (-1) 0 = ESRCH →
  createProcessGroup setpgid (MkGroup [h] None) = (Ok tt, MkGroup [h] (Some (-1))).
Proof. intros Hp He. unfold createProcessGroup. cbn. by rewrite Hp, He. Qed.
