(* ===== verification/Signal.v ===== *)
(** * Signals (src/src/signal.cpp, include/pman/async/signal_stream.hpp)

    [Dispatcher]: the signal dispatcher, its thread and the thread that stops
    it, interleaved.  [Sequence]: the sequences of signals that end a process.
    [Async]: waiting for a signal in a coroutine, and signal streams. *)

From S2P Require Import Prelude.

Definition SIGHUP : Z := 1.
Definition SIGINT : Z := 2.
Definition SIGKILL : Z := 9.
Definition SIGTERM : Z := 15.
Definition ESRCH : Z := 3.

Module Dispatcher.

(** Where the dispatcher's thread is in [run]: before [read], holding a signal
    it has read, or about to call a handler; finished but not joined. *)
Inductive run_pc := Reading | Looking (sig : Z) | Calling (sig handler : Z) | Finished.

(** Where a call of [stop] is that has found the dispatcher running: before
    [close], before [fd_ = -1], before [joinable], in [join], before the handlers
    are cleared. *)
Inductive stop_pc := Closing | Forgetting | Joining | InJoin | Clearing.

#[export] Instance stop_pc_eq : EqDecision stop_pc.
Proof. solve_decision. Defined.

(** The dispatcher.  [stops] are the calls of [stop] under way, [sigfds] the
    signal descriptors that are open, [foreign] that the thread has read another
    descriptor, [crashed] that a joinable thread was overwritten, which ends the
    program, or joined by two calls at once, [overlap] that [start] was called
    while a [stop] was under way, and [calls] are the handler calls. *)
Record SignalDispatcher := MkDisp {
  running_ : bool;
  fd_ : Z;
  mask_ : gset Z;
  thread_ : option run_pc;
  handlers_ : gmap Z Z;
  stops : list stop_pc;
  sigfds : gset Z;
  foreign : bool;
  crashed : bool;
  overlap : bool;
  calls : list (Z * Z)
}.

Definition newDispatcher : SignalDispatcher := MkDisp false (-1) ∅ None ∅ [] ∅ false false false [].

(** Only real signals can be put into a mask. *)
Definition buildMask (sigs : list Z) : gset Z := list_to_set (filter (λ s, 1 <= s <= 64) sigs).

(** [blockSignals], [signalfd] and the constructor of [std::thread] answer with
    an errno; [fd] is the new descriptor.  The thread is made after [running_]
    has been set. *)
Definition start (block_err signalfd_err thread_err fd : Z) (sigs : list Z) (d : SignalDispatcher) : outcome unit * SignalDispatcher :=
  if running_ d then (Ok tt, d)
  else
    let ov := overlap d || negb (bool_decide (stops d = [])) in
    match sigs with
    | [] => (Throw InvalidArgument,
             MkDisp (running_ d) (fd_ d) (mask_ d) (thread_ d) (handlers_ d) (stops d) (sigfds d) (foreign d) (crashed d) ov (calls d))
    | _ =>
        let m := buildMask sigs in
        if negb (block_err =? 0)
        then (Throw (SystemError block_err),
              MkDisp (running_ d) (fd_ d) m (thread_ d) (handlers_ d) (stops d) (sigfds d) (foreign d) (crashed d) ov (calls d))
        else if negb (signalfd_err =? 0)
        then (Throw (SystemError signalfd_err),
              MkDisp (running_ d) (-1) m (thread_ d) (handlers_ d) (stops d) (sigfds d) (foreign d) (crashed d) ov (calls d))
        else if negb (thread_err =? 0)
        then (Throw (SystemError thread_err),
              MkDisp true fd m (thread_ d) (handlers_ d) (stops d) ({[fd]} ∪ sigfds d) (foreign d) (crashed d) ov (calls d))
        else (Ok tt,
              MkDisp true fd m (Some Reading) (handlers_ d) (stops d) ({[fd]} ∪ sigfds d) (foreign d)
                (crashed d || bool_decide (is_Some (thread_ d))) ov (calls d))
    end.

Definition registerHandler (sig h : Z) (d : SignalDispatcher) : SignalDispatcher :=
  MkDisp (running_ d) (fd_ d) (mask_ d) (thread_ d) (<[sig := h]> (handlers_ d)) (stops d) (sigfds d) (foreign d) (crashed d) (overlap d) (calls d).

Definition unregisterHandler (sig : Z) (d : SignalDispatcher) : SignalDispatcher :=
  MkDisp (running_ d) (fd_ d) (mask_ d) (thread_ d) (delete sig (handlers_ d)) (stops d) (sigfds d) (foreign d) (crashed d) (overlap d) (calls d).

Definition set_thread (t : option run_pc) (d : SignalDispatcher) : SignalDispatcher :=
  MkDisp (running_ d) (fd_ d) (mask_ d) t (handlers_ d) (stops d) (sigfds d) (foreign d) (crashed d) (overlap d) (calls d).

(** [stop], up to the end of its first critical section; a call that finds
    [running_] down returns at once. *)
Definition stop_begin (d : SignalDispatcher) : SignalDispatcher :=
  if negb (running_ d) then d
  else MkDisp false (fd_ d) (mask_ d) (thread_ d) (handlers_ d) (stops d ++ [Closing]) (sigfds d) (foreign d) (crashed d) (overlap d) (calls d).

(** The rest of the [k]-th call of [stop], a step at a time; [join] waits for the
    thread. *)
Definition stop_next (k : nat) (d : SignalDispatcher) : option SignalDispatcher :=
  match stops d !! k with
  | None => None
  | Some Closing =>
      Some (MkDisp (running_ d) (fd_ d) (mask_ d) (thread_ d) (handlers_ d)
              (<[k := if fd_ d >=? 0 then Forgetting else Joining]> (stops d))
              (if fd_ d >=? 0 then sigfds d ∖ {[fd_ d]} else sigfds d) (foreign d) (crashed d) (overlap d) (calls d))
  | Some Forgetting =>
      Some (MkDisp (running_ d) (-1) (mask_ d) (thread_ d) (handlers_ d) (<[k := Joining]> (stops d)) (sigfds d) (foreign d)
              (crashed d) (overlap d) (calls d))
  | Some Joining =>
      match thread_ d with
      | None => Some (MkDisp (running_ d) (fd_ d) (mask_ d) None (handlers_ d) (<[k := Clearing]> (stops d)) (sigfds d) (foreign d)
                        (crashed d) (overlap d) (calls d))
      | Some _ => Some (MkDisp (running_ d) (fd_ d) (mask_ d) (thread_ d) (handlers_ d) (<[k := InJoin]> (stops d)) (sigfds d) (foreign d)
                        (crashed d || bool_decide (InJoin ∈ stops d)) (overlap d) (calls d))
      end
  | Some InJoin =>
      match thread_ d with
      | Some Finished | None =>
          Some (MkDisp (running_ d) (fd_ d) (mask_ d) None (handlers_ d) (<[k := Clearing]> (stops d)) (sigfds d) (foreign d)
                  (crashed d) (overlap d) (calls d))
      | Some _ => None
      end
  | Some Clearing =>
      Some (MkDisp (running_ d) (fd_ d) (mask_ d) (thread_ d) ∅ (delete k (stops d)) (sigfds d) (foreign d) (crashed d) (overlap d) (calls d))
  end.

(** What [read] finds: a signal, nothing yet, or an error. *)
Inductive read_result := RSignal (sig : Z) | RAgain | RError.

(** One step of [run] given what [read] returns; [reused] is whether the number
    in [fd_] belongs to another open file. *)
Definition run_next (r : read_result) (reused : bool) (d : SignalDispatcher) : option SignalDispatcher :=
  match thread_ d with
  | Some Reading =>
      if bool_decide (fd_ d ∈ sigfds d) then
        Some (match r with
              | RSignal sig => set_thread (Some (Looking sig)) d
              | RAgain => d
              | RError => set_thread (Some Finished) d
              end)
      else if reused && (fd_ d >=? 0)
      then Some (MkDisp (running_ d) (fd_ d) (mask_ d) (Some (match r with RSignal sig => Looking sig | RAgain => Reading | RError => Finished end))
                   (handlers_ d) (stops d) (sigfds d) true (crashed d) (overlap d) (calls d))
      else Some (set_thread (Some Finished) d)
  | Some (Looking sig) =>
      if negb (running_ d) then Some (set_thread (Some Finished) d)
      else match handlers_ d !! sig with
           | Some h => Some (set_thread (Some (Calling sig h)) d)
           | None => Some (set_thread (Some Reading) d)
           end
  | Some (Calling sig h) =>
      Some (MkDisp (running_ d) (fd_ d) (mask_ d) (Some Reading) (handlers_ d) (stops d) (sigfds d) (foreign d) (crashed d) (overlap d)
              (calls d ++ [(sig, h)]))
  | _ => None
  end.

(** Steps of clients and of the thread, in any order; the descriptor that
    [signalfd] returns is not one that is open. *)
Inductive disp_step : relation SignalDispatcher :=
  | D_start be se te fd sigs d : 0 <= fd → fd ∉ sigfds d → disp_step d (start be se te fd sigs d).2
  | D_register sig h d : disp_step d (registerHandler sig h d)
  | D_unregister sig d : disp_step d (unregisterHandler sig d)
  | D_stop d : disp_step d (stop_begin d)
  | D_stopping k d d' : stop_next k d = Some d' → disp_step d d'
  | D_run r reused d d' : run_next r reused d = Some d' → disp_step d d'.

(** A call of [stop] that has still to see to the thread. *)
Definition joins (p : stop_pc) : bool := negb (bool_decide (p = Clearing)).

(** The state while [start] has not been called during a [stop]: one [stop] at a
    time, and one descriptor while it runs. *)
Definition Orderly (d : SignalDispatcher) : Prop :=
  crashed d = false ∧
  match stops d with
  | [] => if running_ d then 0 <= fd_ d ∧ sigfds d = {[fd_ d]} else sigfds d = ∅
  | [Closing] => running_ d = false ∧ 0 <= fd_ d ∧ sigfds d = {[fd_ d]}
  | [_] => running_ d = false ∧ sigfds d = ∅
  | _ => False
  end.

(** A thread that is not joined belongs to a running dispatcher, or some [stop]
    will join it. *)
Record DispInv (d : SignalDispatcher) : Prop := {
  di_thread : is_Some (thread_ d) → running_ d = true ∨ existsb joins (stops d) = true;
  di_orderly : overlap d = false → Orderly d
}.

Lemma newDispatcher_inv : DispInv newDispatcher.
Proof. split; [by intros [? ?]|done]. Qed.

Lemma start_inv be se te fd sigs d : 0 <= fd → fd ∉ sigfds d → DispInv d → DispInv (start be se te fd sigs d).2.
Proof.
  intros Hfd Hf Hinv. pose proof Hinv as [Ht Ho]. unfold start. destruct (running_ d) eqn:Er; [done|].
  assert (Hquiet : overlap d || negb (bool_decide (stops d = [])) = false →
    crashed d = false ∧ stops d = [] ∧ sigfds d = ∅ ∧ ¬ is_Some (thread_ d)).
  { intros [Hov Hst]%orb_false_iff. apply negb_false_iff, bool_decide_eq_true in Hst. destruct (Ho Hov) as [Hc Hs]. rewrite Hst, Er in Hs.
    split_and!; [done|done|done|]. intros Hth. rewrite Hst in Ht. destruct (Ht Hth) as [|]; [congruence|done]. }
  destruct sigs as [|s0 sigs]; [|destruct (be =? 0); cbn [negb]; [destruct (se =? 0); cbn [negb]; [destruct (te =? 0); cbn [negb]|]|]];
    split; cbn; try (intros ?; rewrite ?Er; by auto); try (by left); intros (Hc & Hs & Hsf & Hth)%Hquiet; unfold Orderly; cbn; rewrite Hs, ?Hsf, ?Er, ?Hc;
    (split; [rewrite ?bool_decide_false by done; done|]); try done; (split; [done|set_solver]).
Qed.

(** Replacing a call's place by another before the join keeps what joins. *)
Lemma joins_kept k q l : is_Some (l !! k) → joins q = true → existsb joins (<[k := q]> l) = true.
Proof.
  intros [p Hk] Hq. apply existsb_exists. exists q. split; [|done]. apply list_elem_of_In, list_elem_of_insert. by eapply lookup_lt_Some.
Qed.

Lemma joins_cleared k l : l !! k = Some Clearing → existsb joins l = true → existsb joins (delete k l) = true.
Proof.
  intros Hk (p & Hp & Hj)%existsb_exists. apply list_elem_of_In in Hp. rewrite (delete_Permutation _ _ _ Hk) in Hp.
  apply elem_of_cons in Hp as [->|Hp]; [done|]. apply existsb_exists. exists p. split; [by apply list_elem_of_In|done].
Qed.

(** A single call of [stop]. *)
Lemma orderly_call k p d : Orderly d → stops d !! k = Some p → stops d = [p] ∧ k = 0%nat ∧ running_ d = false.
Proof.
  intros [_ Ho] Hk. destruct (stops d) as [|q [|? ?]]; [done| |by destruct q]. destruct k as [|k]; [|done]. injection Hk as ->.
  by destruct p; destruct Ho as (? & ?).
Qed.

Lemma stop_inv k d d' : stop_next k d = Some d' → DispInv d → DispInv d'.
Proof.
  intros Hn [Ht Ho]. unfold stop_next in Hn. destruct (stops d !! k) as [p|] eqn:Ek; [|done].
  assert (Hcall : overlap d = false → stops d = [p] ∧ k = 0%nat ∧ running_ d = false) by (intros Hov; by apply orderly_call; [apply Ho|]).
  assert (Hk : is_Some (stops d !! k)) by (by rewrite Ek).
  destruct p; [| |destruct (thread_ d) as [pc|] eqn:Eth|destruct (thread_ d) as [[]|] eqn:Eth|]; simplify_eq/=; split; cbn.
  - intros _. right. apply joins_kept; [done|]. by destruct (fd_ d >=? 0).
  - intros Hov. destruct (Hcall Hov) as (Hs & -> & Hr). destruct (Ho Hov) as [Hc Hm]. rewrite Hs in Hm. destruct Hm as (_ & Hfd & Hsf).
    unfold Orderly. cbn. rewrite Hs, Hc, (proj2 (Z.geb_le _ _)) by lia. cbn. rewrite Hsf, Hr. split_and!; [done|done|set_solver].
  - intros _. right. by apply joins_kept.
  - intros Hov. destruct (Hcall Hov) as (Hs & -> & Hr). destruct (Ho Hov) as [Hc Hm]. rewrite Hs in Hm. unfold Orderly. cbn. by rewrite Hs, Hc.
  - intros _. right. by apply joins_kept.
  - intros Hov. destruct (Hcall Hov) as (Hs & -> & Hr). destruct (Ho Hov) as [Hc Hm]. rewrite Hs in Hm. unfold Orderly. cbn.
    rewrite Hs, Hc, bool_decide_false by (by intros ?%list_elem_of_singleton). done.
  - by intros [? ?].
  - intros Hov. destruct (Hcall Hov) as (Hs & -> & Hr). destruct (Ho Hov) as [Hc Hm]. rewrite Hs in Hm. unfold Orderly. cbn. by rewrite Hs, Hc.
  - by intros [? ?].
  - intros Hov. destruct (Hcall Hov) as (Hs & -> & Hr). destruct (Ho Hov) as [Hc Hm]. rewrite Hs in Hm. unfold Orderly. cbn. by rewrite Hs, Hc.
  - by intros [? ?].
  - intros Hov. destruct (Hcall Hov) as (Hs & -> & Hr). destruct (Ho Hov) as [Hc Hm]. rewrite Hs in Hm. unfold Orderly. cbn. by rewrite Hs, Hc.
  - intros Hth. destruct (Ht Hth) as [|Hj]; [by left|right]. by apply joins_cleared.
  - intros Hov. destruct (Hcall Hov) as (Hs & -> & Hr). destruct (Ho Hov) as [Hc Hm]. rewrite Hs in Hm. unfold Orderly. cbn. rewrite Hs, Hc, Hr. by destruct Hm.
Qed.

(** A step of the thread moves it and may record a call. *)
Lemma run_shape r reused d d' :
  run_next r reused d = Some d' →
  is_Some (thread_ d) ∧
  (d' = d ∨ ∃ pc f cs, d' = MkDisp (running_ d) (fd_ d) (mask_ d) (Some pc) (handlers_ d) (stops d) (sigfds d) f (crashed d) (overlap d) cs).
Proof.
  unfold run_next, set_thread. destruct (thread_ d) as [pc|]; [|done]. intros Hn. split; [by eexists|].
  destruct pc as [|sig|sig h|]; [|destruct (negb _); [|destruct (handlers_ d !! sig)]|..]; try (simplify_eq; right; by eexists _, _, _).
  destruct (bool_decide _).
  - destruct r; simplify_eq; [right; by eexists _, _, _|by left|right; by eexists _, _, _].
  - destruct (reused && _); simplify_eq; right; by eexists _, _, _.
Qed.

Lemma run_next_inv r reused d d' : run_next r reused d = Some d' → DispInv d → DispInv d'.
Proof.
  intros [Ht [->|(pc & f & cs & ->)]]%run_shape [Hi Ho]; [by split|]. split; [intros _; by apply Hi|exact Ho].
Qed.

Lemma stop_begin_inv d : DispInv d → DispInv (stop_begin d).
Proof.
  intros Hinv. pose proof Hinv as [Ht Ho]. unfold stop_begin. destruct (running_ d) eqn:Er; cbn [negb]; [|done]. split; cbn.
  - intros _. right. rewrite existsb_app. cbn. by rewrite orb_true_r.
  - intros Hov. destruct (Ho Hov) as [Hc Hm]. unfold Orderly. cbn. destruct (stops d) as [|q [|? ?]]; [by rewrite Er in Hm| |by destruct q].
    exfalso. destruct q; destruct Hm as (? & _); congruence.
Qed.

Lemma disp_step_inv d d' : disp_step d d' → DispInv d → DispInv d'.
Proof.
  intros [be se te fd sigs d0 Hfd Hs|sig h d0|sig d0|d0|k d0 d1 Hn|r reused d0 d1 Hn] Hinv.
  - by apply start_inv.
  - destruct Hinv. by split.
  - destruct Hinv. by split.
  - by apply stop_begin_inv.
  - by apply (stop_inv k d0).
  - by apply (run_next_inv r reused d0).
Qed.

Lemma disp_reachable d : rtc disp_step newDispatcher d → DispInv d.
Proof. intros Hr. exact (rtc_invariant disp_step DispInv _ d disp_step_inv Hr newDispatcher_inv). Qed.

(** The steps that do not start it again. *)
Definition quiet_step (d d' : SignalDispatcher) : Prop :=
  (∃ sig h, d' = registerHandler sig h d) ∨ (∃ sig, d' = unregisterHandler sig d) ∨ d' = stop_begin d ∨
  (∃ k, stop_next k d = Some d') ∨ ∃ r reused, run_next r reused d = Some d'.

Lemma quiet_calls d d' :
  rtc quiet_step d d' → running_ d = false → stops d = [] → thread_ d = None →
  calls d' = calls d ∧ running_ d' = false ∧ thread_ d' = None ∧ sigfds d' = sigfds d.
Proof.
  induction 1 as [d|d d1 d2 Hstep _ IH]; intros Hr Hs Ht; [done|].
  assert (H1 : running_ d1 = false ∧ stops d1 = [] ∧ thread_ d1 = None ∧ sigfds d1 = sigfds d ∧ calls d1 = calls d).
  { destruct Hstep as [(sig & h & ->)|[(sig & ->)|[->|[[k H]|(r & reused & H)]]]].
    - done.
    - done.
    - unfold stop_begin. by rewrite Hr.
    - unfold stop_next in H. by rewrite Hs in H.
    - unfold run_next in H. by rewrite Ht in H. }
  destruct H1 as (H1 & H2 & H3 & H4 & H5). destruct (IH H1 H2 H3) as (E & ? & ? & ?). by rewrite E, <- H4.
Qed.


(** Start, a handler for signal 10, one signal handled, stop. *)
Definition stopped : SignalDispatcher :=
  MkDisp false (-1) (buildMask [10]) None ∅ [] (({[ 5 ]} ∪ ∅) ∖ {[ 5 ]}) false false false [(10, 1)].

Lemma stopped_reachable : rtc disp_step newDispatcher stopped.
Proof.
  eapply rtc_l; [by apply (D_start 0 0 0 5 [10] newDispatcher)|].
  eapply rtc_l; [apply (D_register 10 1)|].
  eapply rtc_l; [eapply (D_run (RSignal 10) false); vm_compute; reflexivity|].
  eapply rtc_l; [eapply (D_run RAgain false); vm_compute; reflexivity|].
  eapply rtc_l; [eapply (D_run RAgain false); vm_compute; reflexivity|].
  eapply rtc_l; [apply D_stop|].
  eapply rtc_l; [eapply (D_stopping 0); vm_compute; reflexivity|].
  eapply rtc_l; [eapply (D_stopping 0); vm_compute; reflexivity|].
  eapply rtc_l; [eapply (D_stopping 0); vm_compute; reflexivity|].
  eapply rtc_l; [eapply (D_run RError false); vm_compute; reflexivity|].
  eapply rtc_l; [eapply (D_stopping 0); vm_compute; reflexivity|].
  eapply rtc_l; [eapply (D_stopping 0); vm_compute; reflexivity|].
  apply rtc_refl.
Qed.


(** A second [stop] while the first is under way returns at once, and after it
    has returned a handler is called. *)
Example second_stop_returns_early :
  ∃ d d', rtc disp_step newDispatcher d ∧ running_ d = false ∧ stop_begin d = d ∧ rtc quiet_step d d' ∧ calls d' = calls d ++ [(10, 1)].
Proof.
  eexists _, _. split_and!.
  - eapply rtc_l; [by apply (D_start 0 0 0 5 [10] newDispatcher)|]. eapply rtc_l; [apply (D_register 10 1)|].
    eapply rtc_l; [eapply (D_run (RSignal 10) false); vm_compute; reflexivity|]. eapply rtc_l; [eapply (D_run RAgain false); vm_compute; reflexivity|].
    eapply rtc_l; [apply D_stop|]. apply rtc_refl.
  - done.
  - done.
  - apply rtc_once. do 4 right. by exists RAgain, false.
  - done.
Qed.

(** Between [close] and [fd_ = -1] the thread still reads the old number: if it
    has been given to another file meanwhile, the thread reads that file. *)
Lemma stop_reads_foreign :
  ∃ d, rtc disp_step newDispatcher d ∧ running_ d = false ∧ foreign d = true.
Proof.
  eexists. split.
  - eapply rtc_l; [by apply (D_start 0 0 0 5 [10] newDispatcher)|].
    eapply rtc_l; [apply D_stop|]. eapply rtc_l; [eapply (D_stopping 0); vm_compute; reflexivity|].
    eapply rtc_l; [eapply (D_run (RSignal 10) true); vm_compute; reflexivity|]. apply rtc_refl.
  - done.
Qed.

(** A [start] while [stop] is waiting for the thread overwrites a joinable
    thread, which ends the program. *)
Lemma start_while_stopping be se te fd sigs d :
  running_ d = false → is_Some (thread_ d) → be = 0 → se = 0 → te = 0 → sigs ≠ [] → crashed (start be se te fd sigs d).2 = true.
Proof. intros Hr Ht -> -> -> Hs. unfold start. rewrite Hr. destruct sigs; [done|]. cbn. rewrite bool_decide_true by done. apply orb_true_r. Qed.

(** A [start] whose thread cannot be made leaves the dispatcher running without
    one: the next [start] does nothing. *)
Lemma failed_start_stays_running te fd s sigs d :
  running_ d = false → te ≠ 0 →
  let d' := (start 0 0 te fd (s :: sigs) d).2 in
  running_ d' = true ∧ thread_ d' = thread_ d ∧ ∀ be se te' fd' sigs', start be se te' fd' sigs' d' = (Ok tt, d').
Proof.
  intros Hr Hte. assert (Hd : running_ (start 0 0 te fd (s :: sigs) d).2 = true ∧ thread_ (start 0 0 te fd (s :: sigs) d).2 = thread_ d).
  { unfold start. rewrite Hr, (proj2 (Z.eqb_neq te 0)) by done. done. }
  destruct Hd as [Hd Ht]. cbn zeta. split_and!; [done|done|]. intros. unfold start at 1. by rewrite Hd.
Qed.

End Dispatcher.

Module Sequence.

(** [sendSignalSequence]; [kill] is the errno of each call, by its position.  The
    result, the calls made and the time slept. *)
Fixpoint sendSignalSequence (kill : nat → Z) (target : Z) (group : bool) (n : nat) (sequence : list (Z * Z))
  : bool * list (Z * Z) * Z :=
  match sequence with
  | [] => (true, [], 0)
  | (sig, delay) :: rest =>
      let recipient := if group then - target else target in
      if negb (kill n =? 0) then (kill n =? ESRCH, [(recipient, sig)], 0)
      else
        let '(r, cs, slept) := sendSignalSequence kill target group (S n) rest in
        (r, (recipient, sig) :: cs, (if delay >? 0 then delay else 0) + slept)
  end.

Record GracefulShutdownOptions := MkGraceful {
  termTimeout : Z; intTimeout : Z; hupTimeout : Z; sendInt : bool; sendHup : bool; processGroup : bool
}.

Definition shutdown_sequence (o : GracefulShutdownOptions) : list (Z * Z) :=
  (SIGTERM, termTimeout o) :: (if sendInt o then [(SIGINT, intTimeout o)] else []) ++
  (if sendHup o then [(SIGHUP, hupTimeout o)] else []) ++ [(SIGKILL, 0)].

Definition gracefulShutdown (kill : nat → Z) (pid : Z) (o : GracefulShutdownOptions) : bool * list (Z * Z) * Z :=
  sendSignalSequence kill pid (processGroup o) 0 (shutdown_sequence o).

(** The calls are a prefix of the sequence, ended by the first that fails; the
    result is whether none failed or the first failure was a process that is
    gone; the sleeps are those after the calls that succeeded. *)
Lemma sequence_spec kill target group n sequence :
  let '(r, cs, slept) := sendSignalSequence kill target group n sequence in
  let recipient := if group then - target else target in
  ∃ k, (k <= length sequence)%nat ∧ (∀ i, (i < k)%nat → kill (n + i)%nat = 0) ∧
    ((k = length sequence ∧ r = true ∧ cs = (λ p, (recipient, p.1)) <$> sequence) ∨
     (∃ e, (k < length sequence)%nat ∧ kill (n + k)%nat = e ∧ e ≠ 0 ∧ r = (e =? ESRCH) ∧ cs = (λ p, (recipient, p.1)) <$> take (S k) sequence)) ∧
    slept = foldr Z.add 0 ((λ p, Z.max 0 p.2) <$> take k sequence).
Proof.
  revert n. induction sequence as [|[sig delay] rest IH]; intros n; cbn.
  - exists 0%nat. split_and!; [lia|lia|by left|done].
  - destruct (Z.eqb_spec (kill n) 0) as [E|E]; cbn [negb].
    + specialize (IH (S n)). destruct (sendSignalSequence kill target group (S n) rest) as [[r cs] slept].
      destruct IH as (k & Hk & Hall & Hcase & Hs). exists (S k). split_and!.
      * lia.
      * intros [|i] Hi; [by rewrite Nat.add_0_r|]. replace (n + S i)%nat with (S n + i)%nat by lia. apply Hall. lia.
      * destruct Hcase as [(-> & -> & ->)|(e & Hlt & He & Hne & -> & ->)]; [by left|right]. exists e.
        split_and!; [lia| |done|done|done]. by replace (n + S k)%nat with (S n + k)%nat by lia.
      * cbn. rewrite Hs. destruct (Z.gtb_spec delay 0); lia.
    + exists 0%nat. split_and!; [lia|lia| |done]. right. exists (kill n). split_and!; [lia|by rewrite Nat.add_0_r|done|done|done].
Qed.

(** With a process that accepts every signal, the shutdown sends the whole
    sequence and ends with the kill, within the sum of the timeouts. *)
Lemma graceful_all pid o kill :
  (∀ n, kill n = 0) → 0 <= termTimeout o → 0 <= intTimeout o → 0 <= hupTimeout o →
  let '(r, cs, slept) := gracefulShutdown kill pid o in
  r = true ∧ last cs = Some (if processGroup o then - pid else pid, SIGKILL) ∧ head cs = Some (if processGroup o then - pid else pid, SIGTERM) ∧
  slept <= termTimeout o + intTimeout o + hupTimeout o.
Proof.
  intros Hk H1 H2 H3. unfold gracefulShutdown, shutdown_sequence. cbn. rewrite !Hk.
  destruct (sendInt o), (sendHup o); cbn; rewrite ?Hk; cbn; rewrite ?Hk; cbn; rewrite ?Hk; cbn; rewrite ?Hk; cbn;
    split_and!; try done; repeat case_match; lia.
Qed.

End Sequence.

Module Async.

(** What a signal does: end the process, run [asyncSignalHandler], or run the
    empty handler a [SignalStream] installs. *)
Inductive disposition := Default | AsyncHandler | StreamHandler.

(** [detail::SignalWaiter]: a coroutine, with an event loop or without. *)
Record SignalWaiter := MkWaiter { signum : Z; has_loop : bool; handle : Z }.

(** The handlers installed, the signals [SignalAwaiter] has registered, the
    queue of waiters, and the coroutines posted to a loop and resumed at once. *)
Record Signals := MkSignals {
  action : gmap Z disposition;
  registered : gset Z;
  waiters : list SignalWaiter;
  posted : list Z;
  resumed : list Z
}.

Definition newSignals : Signals := MkSignals ∅ ∅ [] [] [].

Definition disposition_of (sig : Z) (s : Signals) : disposition := default Default (action s !! sig).

(** [SignalAwaiter::await_suspend]: the handler is installed on the first use of
    the signal. *)
Definition await_suspend (sig : Z) (loop : bool) (h : Z) (s : Signals) : Signals :=
  let first := negb (bool_decide (sig ∈ registered s)) in
  MkSignals (if first then <[sig := AsyncHandler]> (action s) else action s) ({[sig]} ∪ registered s)
    (waiters s ++ [MkWaiter sig loop h]) (posted s) (resumed s).

(** The loop of [asyncSignalHandler]. *)
Fixpoint wake_all (sig : Z) (ws : list SignalWaiter) : list SignalWaiter * list Z * list Z :=
  match ws with
  | [] => ([], [], [])
  | w :: ws' =>
      let '(rest, ps, rs) := wake_all sig ws' in
      if signum w =? sig
      then if has_loop w then (rest, handle w :: ps, rs) else (rest, ps, handle w :: rs)
      else (w :: rest, ps, rs)
  end.

(** [holding]: the signal interrupts a thread that holds the mutex of the
    waiters, which the handler locks again. *)
Definition asyncSignalHandler (holding : bool) (sig : Z) (s : Signals) : outcome Signals :=
  if holding then Hang
  else let '(rest, ps, rs) := wake_all sig (waiters s) in
       Ok (MkSignals (action s) (registered s) rest (posted s ++ ps) (resumed s ++ rs)).

(** A signal arrives; [None] ends the process. *)
Definition deliver (holding : bool) (sig : Z) (s : Signals) : option (outcome Signals) :=
  match disposition_of sig s with
  | Default => None
  | AsyncHandler => Some (asyncSignalHandler holding sig s)
  | StreamHandler => Some (Ok s)
  end.

(** ** Streams *)

(** [SignalStream]: its queue of signals and the coroutines waiting; [woken] are
    those it has posted or resumed. *)
Record SignalStream := MkStream {
  signums_ : list Z;
  closed_ : bool;
  pending_ : list Z;
  waiters_ : list Z;
  woken : list Z
}.

(** [setupSignalHandler]. *)
Definition setupSignalHandler (sigs : list Z) (s : Signals) : Signals :=
  MkSignals (foldl (λ m sig, <[sig := StreamHandler]> m) (action s) sigs) (registered s) (waiters s) (posted s) (resumed s).

Definition createMulti (sigs : list Z) (s : Signals) : SignalStream * Signals :=
  (MkStream sigs false [] [] [], setupSignalHandler sigs s).

Definition create (sig : Z) (s : Signals) : SignalStream * Signals := createMulti [sig] s.

(** [await_ready] of [next]: the result if the stream need not wait. *)
Definition next_ready (st : SignalStream) : option (option Z) * SignalStream :=
  match pending_ st with
  | sig :: rest => (Some (Some sig), MkStream (signums_ st) (closed_ st) rest (waiters_ st) (woken st))
  | [] => (if closed_ st then Some None else None, st)
  end.

(** [await_suspend] of [next]. *)
Definition next_suspend (h : Z) (st : SignalStream) : SignalStream :=
  MkStream (signums_ st) (closed_ st) (pending_ st) (waiters_ st ++ [h]) (woken st).

Definition close (st : SignalStream) : SignalStream :=
  MkStream (signums_ st) true (pending_ st) [] (woken st ++ waiters_ st).

(** ** Properties *)

Lemma wake_all_spec sig ws :
  let '(rest, ps, rs) := wake_all sig ws in
  rest = filter (λ w, signum w ≠ sig) ws ∧
  ps = handle <$> filter (λ w, signum w = sig ∧ has_loop w = true) ws ∧
  rs = handle <$> filter (λ w, signum w = sig ∧ has_loop w = false) ws.
Proof.
  induction ws as [|w ws IH]; cbn [wake_all]; [done|]. destruct (wake_all sig ws) as [[rest ps] rs]. destruct IH as (-> & -> & ->).
  rewrite !filter_cons. destruct (Z.eqb_spec (signum w) sig) as [E|E]; [destruct (has_loop w) eqn:Hl|];
    repeat case_decide; cbn; naive_solver.
Qed.

(** Waiting for a signal.  When the handler for the signal is the one
    [waitSignal] installs, an arriving signal resumes every coroutine that waits
    for it exactly once, in their order, through its loop or at once, and leaves
    the others waiting; a coroutine that begins to wait is among them.  If the
    signal interrupts a thread that holds the waiters' mutex, that thread blocks
    for ever. *)
Theorem wait_signal_wakes s sig loop h :
  sig ∉ registered s ∨ disposition_of sig s = AsyncHandler →
  let s1 := await_suspend sig loop h s in
  deliver true sig s1 = Some Hang ∧
  ∃ s2, deliver false sig s1 = Some (Ok s2) ∧ waiters s2 = filter (λ w, signum w ≠ sig) (waiters s) ∧
    posted s2 = posted s ++ (handle <$> filter (λ w, signum w = sig ∧ has_loop w = true) (waiters s)) ++ (if loop then [h] else []) ∧
    resumed s2 = resumed s ++ (handle <$> filter (λ w, signum w = sig ∧ has_loop w = false) (waiters s)) ++ (if loop then [] else [h]).
Proof.
  intros Hd s1. assert (Hdisp : disposition_of sig s1 = AsyncHandler).
  { unfold s1, await_suspend, disposition_of. cbn. destruct Hd as [Hn|Ha].
    - rewrite bool_decide_false by done. cbn. by rewrite lookup_insert_eq.
    - destruct (bool_decide _); cbn; [done|]. by rewrite lookup_insert_eq. }
  unfold deliver. rewrite Hdisp. split; [done|]. unfold asyncSignalHandler.
  pose proof (wake_all_spec sig (waiters s1)) as Hw. destruct (wake_all sig (waiters s1)) as [[rest ps] rs].
  destruct Hw as (-> & -> & ->). eexists. split; [done|]. unfold s1, await_suspend. cbn [waiters posted resumed].
  rewrite !filter_app, !filter_cons, !filter_nil. cbn [signum has_loop]. rewrite (decide_False (P := sig ≠ sig)) by naive_solver.
  rewrite app_nil_r, !fmap_app. destruct loop; repeat case_decide; naive_solver.
Qed.

Lemma wait_signal_wakes_witness :
  ∃ s2, deliver false 10 (await_suspend 10 true 5 newSignals) = Some (Ok s2) ∧ waiters s2 = [] ∧ posted s2 = [5] ∧ resumed s2 = [].
Proof. apply (wait_signal_wakes newSignals 10 true 5). left. set_solver. Defined.

(** Operations on the handlers and on one stream. *)
Inductive signal_step : relation (Signals * SignalStream) :=
  | S_wait sig loop h s st : signal_step (s, st) (await_suspend sig loop h s, st)
  | S_deliver holding sig s s' st : deliver holding sig s = Some (Ok s') → signal_step (s, st) (s', st)
  | S_other sigs s st : signal_step (s, st) (setupSignalHandler sigs s, st)
  | S_ready s st : signal_step (s, st) (s, (next_ready st).2)
  | S_suspend h s st : signal_step (s, st) (s, next_suspend h st)
  | S_close s st : signal_step (s, st) (s, close st).

Lemma signal_step_pending p q :
  signal_step p q → pending_ p.2 = [] → pending_ q.2 = [] ∧ (registered p.1 ⊆ registered q.1) ∧
    ∀ sig, sig ∈ registered p.1 → disposition_of sig p.1 = StreamHandler → disposition_of sig q.1 = StreamHandler.
Proof.
  intros Hstep Hp. destruct Hstep as [sig loop h s st|holding sig s s' st Hd|sigs s st|s st|h s st|s st]; cbn in *.
  - split_and!; [done|set_solver|]. intros sig' Hr Hs. unfold disposition_of in *. cbn. case_bool_decide as E; cbn; [done|].
    by rewrite lookup_insert_ne by (intros ->; done).
  - unfold deliver, asyncSignalHandler in Hd. destruct (disposition_of sig s); simplify_eq; [|done]. destruct holding; [done|].
    destruct (wake_all sig (waiters s)) as [[? ?] ?]; by simplify_eq.
  - split_and!; [done|done|]. intros sig Hr Hs. unfold disposition_of in *. cbn. clear Hr. revert Hs. generalize (action s) as m.
    induction sigs as [|x sigs IH]; intros m Hs; [done|]. cbn. apply IH. destruct (decide (x = sig)) as [->|]; [by rewrite lookup_insert_eq|by rewrite lookup_insert_ne].
  - unfold next_ready. rewrite Hp. done.
  - done.
  - done.
Qed.

(** The handlers a stream installs. *)
Lemma stream_handlers sigs (m : gmap Z disposition) sig :
  sig ∈ sigs ∨ m !! sig = Some StreamHandler → foldl (λ m x, <[x := StreamHandler]> m) m sigs !! sig = Some StreamHandler.
Proof.
  revert m. induction sigs as [|x l IH]; intros m Hin; cbn; [set_solver|]. apply IH.
  destruct (decide (x = sig)) as [->|Hne]; [right; apply lookup_insert_eq|]. rewrite lookup_insert_ne by done. set_solver.
Qed.

(** A signal stream yields nothing.  Its handler is empty, so whatever happens
    after its creation no signal reaches it: [next] waits until the stream is
    closed and then ends it, with no value ever.  And where coroutines wait for
    the same signal, creating the stream has taken the signal from them: it
    arrives and none is resumed, now or later. *)
Theorem signal_stream_silent sigs s s' st' :
  let '(st, s1) := createMulti sigs s in
  rtc signal_step (s1, st) (s', st') →
  (next_ready st').1 = (if closed_ st' then Some None else None) ∧
  ∀ sig holding, sig ∈ sigs → sig ∈ registered s → deliver holding sig s' = Some (Ok s').
Proof.
  cbn. intros Hr.
  assert (Hinv : pending_ st' = [] ∧ ∀ sig, sig ∈ sigs → sig ∈ registered s → sig ∈ registered s' ∧ disposition_of sig s' = StreamHandler).
  { change s' with (s', st').1. change st' with (s', st').2.
    refine (rtc_invariant signal_step (λ q, pending_ q.2 = [] ∧ ∀ sig, sig ∈ sigs → sig ∈ registered s → sig ∈ registered q.1 ∧ disposition_of sig q.1 = StreamHandler) _ _ _ Hr _).
    - intros p q Hstep [Hp Hd]. destruct (signal_step_pending p q Hstep Hp) as (Hp' & Hr' & Hd'). split; [done|].
      intros sig H1 H2. destruct (Hd sig H1 H2). split; [set_solver|by apply Hd'].
    - split; [done|]. intros sig H1 H2. split; [done|]. unfold disposition_of. cbn. rewrite stream_handlers by (by left). done. }
  destruct Hinv as [Hp Hd]. split.
  - unfold next_ready. by rewrite Hp.
  - intros sig holding H1 H2. unfold deliver. by destruct (Hd sig H1 H2) as [_ ->].
Qed.

Lemma signal_stream_silent_witness :
  let s := await_suspend 10 true 5 newSignals in
  let '(st, s1) := createMulti [10] s in
  (next_ready (close st)).1 = Some None ∧ deliver false 10 s1 = Some (Ok s1).
Proof.
  destruct (signal_stream_silent [10] (await_suspend 10 true 5 newSignals) (createMulti [10] (await_suspend 10 true 5 newSignals)).2
    (close (createMulti [10] (await_suspend 10 true 5 newSignals)).1)) as [H1 H2].
  - apply rtc_once. apply S_close.
  - split; [exact H1|]. apply H2; [left|]. cbn. set_solver.
Defined.

(** A stream closed between [await_ready] and [await_suspend] of [next] leaves
    the coroutine waiting: it is queued after the waiters were woken. *)
Lemma close_loses_waiter st h :
  pending_ st = [] → closed_ st = false → (next_ready st).1 = None →
  h ∉ (woken st ++ waiters_ st) →
  let st' := next_suspend h (close (next_ready st).2) in (h ∈ waiters_ st') ∧ (h ∉ woken st') ∧ closed_ st' = true.
Proof. intros Hp Hc _ Hh. unfold next_ready. rewrite Hp. cbn. split_and!; [left|done|done]. Qed.

End Async.
