(* ===== verification/AsyncIo.v ===== *)
(** * Asynchronous files and sockets (include/pman/async/file.hpp, socket.hpp)

    The objects over their descriptors, the results of their operations, and the
    waits of sockets on the epoll loop.  The operations of a file are made at
    once, in the coroutine's body; those of a socket wait through
    [EpollLoop.addFd]. *)

From S2P Require Import Prelude Text Descriptors EpollLoop Ipc UnixSocket Process ProcessControl.

(** ** Results *)

(** [IoResult]: a value and an errno, 0 for success. *)
Record IoResult (T : Type) := MkIo { io_value : T; io_error : Z }.
Arguments MkIo {T}.
Arguments io_value {T}.
Arguments io_error {T}.

Definition io_ok {T} (r : IoResult T) : bool := io_error r =? 0.

(** What a system call answers: an errno or a value. *)
Abbreviation answer T := (Z + T)%type.

(** [if (ret < 0) result.error = errno; else result.value = ret]. *)
Definition io_of {T} (dflt : T) (a : answer T) : IoResult T :=
  match a with inl e => MkIo dflt e | inr v => MkIo v 0 end.

(** ** Files *)

Record AsyncFile := MkFile { af_fd : Z }.

Definition file_open (err f : Z) (k : Kernel) : outcome AsyncFile * Kernel :=
  if negb (err =? 0) then (Throw (SystemError err), k)
  else let '(fd, k') := sys_open f false k in (Ok (MkFile fd), k').

Definition file_destroy (x : AsyncFile) (k : Kernel) : Kernel := close_if (af_fd x) k.

Definition file_move_construct (y : AsyncFile) (k : Kernel) : AsyncFile * AsyncFile * Kernel := (MkFile (af_fd y), MkFile (-1), k).

Definition file_move_assign (self : bool) (x y : AsyncFile) (k : Kernel) : AsyncFile * AsyncFile * Kernel :=
  if self then (x, y, k)
  else (MkFile (af_fd y), MkFile (-1), close_if (af_fd x) k).

(** [read]: the buffer is cut to the bytes read. *)
Definition file_read (size : Z) (a : answer text) : IoResult text :=
  match a with
  | inl e => MkIo [] e
  | inr bytes => MkIo (take (Z.to_nat size) bytes) 0
  end.

Definition file_write (a : answer Z) : IoResult Z := io_of 0 a.
Definition file_seek (a : answer Z) : IoResult Z := io_of 0 a.
Definition file_sync (a : answer Z) : IoResult Z := io_of 0 a.

(** [close]; [err] is the errno of the call, which gives the descriptor back in
    any case. *)
Definition file_close (err : Z) (x : AsyncFile) (k : Kernel) : IoResult Z * AsyncFile * Kernel :=
  if af_fd x <? 0 then (MkIo 0 0, x, k)
  else
    let k1 := sys_close (af_fd x) k in
    (if err =? 0 then (MkIo 0 0, MkFile (-1), k1) else (MkIo 0 err, x, k1)).

Definition isOpen (x : AsyncFile) : bool := af_fd x >=? 0.

(** A call of [close] that succeeds. *)
#[export] Instance file_object : FdObject AsyncFile unit := {
  fds x := fd_list (af_fd x);
  run_op _ x k := let '(_, x', k') := file_close 0 x k in ([], x', k');
  destroy := file_destroy;
  move_construct := file_move_construct;
  move_assign := file_move_assign
}.

#[export] Instance file_laws : FdLaws AsyncFile unit.
Proof.
  split.
  - intros [] x k. cbn. unfold file_close. destruct (Z.ltb_spec (af_fd x) 0); cbn.
    + by exists [].
    + exists [af_fd x]. unfold fd_list. by rewrite (proj2 (Z.geb_le _ _)) by lia.
  - intros x k. cbn. unfold file_destroy. by rewrite close_if_all.
  - intros y k. done.
  - intros x y k. cbn. by rewrite close_if_all.
  - done.
Qed.

(** [readFile]: [open], [fstat], one [read], and the destructor at the end.
    [size] is what [fstat] reports and [read n] the bytes the file gives for a
    request of [n]. *)
Definition readFile (open_err f : Z) (stat : answer Z) (read : Z → answer text) (k : Kernel) : IoResult text * Kernel :=
  match file_open open_err f k with
  | (Ok x, k1) =>
      (match stat with
       | inl e => MkIo [] e
       | inr size =>
           let r := file_read size (read size) in
           if negb (io_ok r) then MkIo [] (io_error r) else MkIo (io_value r) 0
       end, file_destroy x k1)
  | (_, k1) => (MkIo [] open_err, k1)
  end.

Definition writeFile (open_err f : Z) (write : answer Z) (k : Kernel) : IoResult Z * Kernel :=
  match file_open open_err f k with
  | (Ok x, k1) => (file_write write, file_destroy x k1)
  | (_, k1) => (MkIo 0 open_err, k1)
  end.

(** The descriptor is given back on every way out. *)
Lemma file_helpers_close open_err f stat read write k :
  (readFile open_err f stat read k).2 ≡ k ∧ (writeFile open_err f write k).2 ≡ k.
Proof.
  pose proof (lowest_free_spec (open_ k)) as (Hpos & Hfree & _).
  assert (H : ∀ x k1, file_open open_err f k = (Ok x, k1) → file_destroy x k1 ≡ k).
  { unfold file_open, file_destroy, close_if. destruct (open_err =? 0); [|done]. intros x k1 [= <- <-]. cbn.
    rewrite (proj2 (Z.geb_le _ _)) by lia. unfold sys_close. cbn. rewrite lookup_insert_eq. split; [|done]. by rewrite delete_insert_id. }
  assert (He : ∀ k1 r, (∀ x, r ≠ Ok x) → file_open open_err f k = (r, k1) → k1 ≡ k).
  { unfold file_open. destruct (open_err =? 0); cbn; [|by intros ? ? _ [= _ <-]]. intros k1 r Hr [= <- <-]. by edestruct Hr. }
  unfold readFile, writeFile. destruct (file_open open_err f k) as [[x|e|] k1]; cbn; split; first [by apply H|eapply He; [|done]; done].
Qed.

(** A file whose size is reported as 0 is read as empty, and reported as read,
    whatever it holds: the files of /proc are such. *)
Lemma readFile_proc f content k :
  (readFile 0 f (inr 0) (λ n, inr (take (Z.to_nat n) content)) k).1 = MkIo [] 0.
Proof. done. Qed.

(** A file of the reported size, read in one call, is returned whole. *)
Lemma readFile_whole f content k :
  (readFile 0 f (inr (Z.of_nat (length content))) (λ n, inr (take (Z.to_nat n) content)) k).1 = MkIo content 0.
Proof. cbn. rewrite Nat2Z.id, take_take, Nat.min_id. by rewrite firstn_all. Qed.

(** When [close] reports an error the object keeps the number, and its
    destructor closes it again. *)
Lemma failed_close_closes_twice err x k e :
  0 <= af_fd x → open_ k !! af_fd x = Some e → err ≠ 0 →
  let '(r, x', k') := file_close err x k in io_error r = err ∧ misuse (file_destroy x' k') = true.
Proof.
  intros Hfd Ho He. unfold file_close. rewrite (proj2 (Z.ltb_ge _ _)), (proj2 (Z.eqb_neq _ _)) by lia. split; [done|].
  unfold file_destroy, close_if, sys_close. rewrite (proj2 (Z.geb_le _ _)), Ho by lia. cbn. by rewrite lookup_delete_eq.
Qed.

(** ** Socket addresses *)

(** Network byte order on a little-endian machine. *)
Definition htons (p : Z) : Z := Z.lor (Z.shiftl (Z.land p 255) 8) (Z.land (Z.shiftr p 8) 255).
Definition ntohs : Z → Z := htons.

Definition dot : ascii := "."%char.

(** One number of a dotted address: one to three digits, no leading zero, at
    most 255. *)
Definition parse_octet (s : text) : option Z :=
  if (1 <=? length s)%nat && (length s <=? 3)%nat && forallb is_digit s && negb (bool_decide (s !! 0%nat = Some "0"%char) && (2 <=? length s)%nat) &&
     (digits_value s <=? 255)
  then Some (digits_value s) else None.

(** [inet_pton] and [inet_ntop] for [AF_INET]. *)
Definition inet_pton (s : text) : option (Z * Z * Z * Z) :=
  '(a, s1) ← find_char dot s; '(b, s2) ← find_char dot s1; '(c, s3) ← find_char dot s2;
  w ← parse_octet a; x ← parse_octet b; y ← parse_octet c; z ← parse_octet s3; Some (w, x, y, z).

Definition inet_ntop (a : Z * Z * Z * Z) : text :=
  let '(w, x, y, z) := a in print_nat w ++ dot :: print_nat x ++ dot :: print_nat y ++ dot :: print_nat z.

(** [SocketAddr]: the address and the port as stored. *)
Record SocketAddr := MkAddr { sin_addr : Z * Z * Z * Z; sin_port : Z }.

Definition newSocketAddr (ip : text) (port : Z) : outcome SocketAddr :=
  match inet_pton ip with Some a => Ok (MkAddr a (htons port)) | None => Throw RuntimeError end.

Definition addr_any (port : Z) : SocketAddr := MkAddr (0, 0, 0, 0) (htons port).

Definition addr_ip (a : SocketAddr) : text := inet_ntop (sin_addr a).
Definition addr_port (a : SocketAddr) : Z := ntohs (sin_port a).

Lemma htons_swap p : 0 <= p < 65536 → htons p = (p mod 256) * 256 + p / 256 ∧ 0 <= htons p < 65536.
Proof.
  intros Hp. unfold htons. change 255 with (Z.ones 8). rewrite !Z.land_ones, Z.shiftr_div_pow2, Z.shiftl_mul_pow2 by lia.
  pose proof (Z.mod_pos_bound p (2 ^ 8) ltac:(lia)) as Hm. pose proof (Z.div_lt_upper_bound p (2 ^ 8) 256 ltac:(lia) ltac:(lia)).
  pose proof (Z.div_pos p (2 ^ 8) ltac:(lia) ltac:(lia)). rewrite (Z.mod_small (p / 2 ^ 8)) by lia.
  pose proof (shifted_disjoint (p mod 2 ^ 8) (p / 2 ^ 8) 8 ltac:(lia) ltac:(lia)) as Hd.
  rewrite <- Z.lxor_lor by done. rewrite <- Z.add_nocarry_lxor by done. change (2 ^ 8) with 256 in *.
  set (m := p mod 256) in *. set (d := p / 256) in *. clearbody m d. lia.
Qed.

Lemma ntohs_htons p : 0 <= p < 65536 → ntohs (htons p) = p.
Proof.
  intros Hp. destruct (htons_swap p Hp) as [E Hr]. destruct (htons_swap (htons p) Hr) as [E2 _]. unfold ntohs. rewrite E2, E.
  pose proof (Z.mod_pos_bound p 256 ltac:(lia)). pose proof (Z.div_mod p 256 ltac:(lia)).
  rewrite (Z.add_comm (p mod 256 * 256)), Z.div_add, Z.mod_add by lia.
  assert (Hd : 0 <= p / 256 < 256) by (split; [apply Z.div_pos; lia|apply Z.div_lt_upper_bound; lia]).
  rewrite (Z.mod_small (p / 256)), (Z.div_small (p / 256)) by lia. lia.
Qed.

Lemma octet_roundtrip n : 0 <= n < 256 → parse_octet (print_nat n) = Some n ∧ dot ∉ print_nat n.
Proof.
  intros Hn. assert (Hall : Forall (λ n, parse_octet (print_nat n) = Some n ∧ dot ∉ print_nat n) (seqZ 0 256)) by by_decision.
  rewrite Forall_forall in Hall. apply Hall. apply elem_of_seqZ. lia.
Qed.

Lemma inet_roundtrip w x y z :
  0 <= w < 256 → 0 <= x < 256 → 0 <= y < 256 → 0 <= z < 256 → inet_pton (inet_ntop (w, x, y, z)) = Some (w, x, y, z).
Proof.
  intros Hw Hx Hy Hz. destruct (octet_roundtrip w Hw) as [Pw Dw], (octet_roundtrip x Hx) as [Px Dx], (octet_roundtrip y Hy) as [Py Dy], (octet_roundtrip z Hz) as [Pz _].
  unfold inet_pton, inet_ntop. rewrite find_char_app by done. cbn [mbind option_bind]. rewrite find_char_app by done. cbn [mbind option_bind].
  rewrite find_char_app by done. cbn [mbind option_bind]. by rewrite Pw, Px, Py, Pz.
Qed.

(** A parsed address is in range, and only then is it printed back. *)
Lemma parse_octet_range s n : parse_octet s = Some n → 0 <= n < 256.
Proof.
  unfold parse_octet. case_match eqn:E; [|done]. intros [= <-]. bool_hyps. split; [|lia].
  unfold digits_value. assert (Hnn : ∀ l a, 0 <= a → forallb is_digit l = true → 0 <= foldl (λ acc c, acc * 10 + (Z.of_nat (nat_of_ascii c) - 48)) a l).
  { induction l as [|c l IH]; intros a Ha Hl; [done|]. cbn in *. bool_hyps. apply IH; [|done]. unfold is_digit in *. bool_hyps. lia. }
  by apply Hnn.
Qed.

(** Socket addresses.  What is stored can be read back: the port for every port
    number, and the address text for every printed address; a text that is
    refused throws, and one that is accepted denotes four bytes. *)
Theorem socket_addr_roundtrip w x y z port s :
  0 <= w < 256 → 0 <= x < 256 → 0 <= y < 256 → 0 <= z < 256 → 0 <= port < 65536 →
  (∃ a, newSocketAddr (inet_ntop (w, x, y, z)) port = Ok a ∧ addr_ip a = inet_ntop (w, x, y, z) ∧ addr_port a = port) ∧
  addr_port (addr_any port) = port ∧
  match newSocketAddr s port with
  | Ok a => let '(p, q, r, t) := sin_addr a in Forall (λ n, 0 <= n < 256) [p; q; r; t] ∧ newSocketAddr (addr_ip a) port = Ok a
  | Throw e => e = RuntimeError
  | Hang => False
  end.
Proof.
  intros Hw Hx Hy Hz Hp. split_and!.
  - unfold newSocketAddr. rewrite inet_roundtrip by done. eexists. split_and!; [done|done|]. by apply ntohs_htons.
  - by apply ntohs_htons.
  - unfold newSocketAddr at 1. destruct (inet_pton s) as [[[[p q] r] t]|] eqn:E; [|done]. cbn [sin_addr].
    assert (Hr : 0 <= p < 256 ∧ 0 <= q < 256 ∧ 0 <= r < 256 ∧ 0 <= t < 256).
    { unfold inet_pton in E. apply bind_Some in E as ([a s1] & _ & E). apply bind_Some in E as ([b s2] & _ & E).
      apply bind_Some in E as ([c s3] & _ & E). apply bind_Some in E as (? & P1 & E). apply bind_Some in E as (? & P2 & E).
      apply bind_Some in E as (? & P3 & E). apply bind_Some in E as (? & P4 & E). simplify_eq.
      split_and!; by eapply parse_octet_range. }
    destruct Hr as (? & ? & ? & ?). split; [by rewrite !Forall_cons, Forall_nil|]. unfold newSocketAddr, addr_ip. cbn [sin_addr]. by rewrite inet_roundtrip.
Qed.

Lemma socket_addr_roundtrip_witness :
  ∃ a, newSocketAddr (inet_ntop (127, 0, 0, 1)) 8080 = Ok a ∧ addr_ip a = inet_ntop (127, 0, 0, 1) ∧ addr_port a = 8080.
Proof. apply (socket_addr_roundtrip 127 0 0 1 8080 []); lia. Defined.

(** ** Sockets *)

Record AsyncSocket := MkASocket { as_fd : Z }.

Definition asocket_create (err f : Z) (k : Kernel) : outcome AsyncSocket * Kernel :=
  if negb (err =? 0) then (Throw (SystemError err), k)
  else let '(fd, k') := sys_open f true k in (Ok (MkASocket fd), k').

Definition asocket_destroy (x : AsyncSocket) (k : Kernel) : Kernel := close_if (as_fd x) k.

Definition asocket_move_construct (y : AsyncSocket) (k : Kernel) : AsyncSocket * AsyncSocket * Kernel :=
  (MkASocket (as_fd y), MkASocket (-1), k).

Definition asocket_move_assign (self : bool) (x y : AsyncSocket) (k : Kernel) : AsyncSocket * AsyncSocket * Kernel :=
  if self then (x, y, k)
  else (MkASocket (as_fd y), MkASocket (-1), close_if (as_fd x) k).

(** [bind]: the socket is destroyed when the address or the call is refused. *)
Definition asocket_bind (create_err f : Z) (ip : text) (port : Z) (bind_err : SocketAddr → Z) (k : Kernel)
  : outcome AsyncSocket * Kernel :=
  match asocket_create create_err f k with
  | (Ok x, k1) =>
      match newSocketAddr ip port with
      | Ok a => if negb (bind_err a =? 0) then (Throw (SystemError (bind_err a)), asocket_destroy x k1) else (Ok x, k1)
      | Throw e => (Throw e, asocket_destroy x k1)
      | Hang => (Hang, k1)
      end
  | r => r
  end.

Definition asocket_listen (a : answer Z) : IoResult Z := io_of 0 a.

Definition asocket_close (err : Z) (x : AsyncSocket) (k : Kernel) : IoResult Z * AsyncSocket * Kernel :=
  if as_fd x <? 0 then (MkIo 0 0, x, k)
  else
    let k1 := sys_close (as_fd x) k in
    (if err =? 0 then (MkIo 0 0, MkASocket (-1), k1) else (MkIo 0 err, x, k1)).

#[export] Instance asocket_object : FdObject AsyncSocket unit := {
  fds x := fd_list (as_fd x);
  run_op _ x k := let '(_, x', k') := asocket_close 0 x k in ([], x', k');
  destroy := asocket_destroy;
  move_construct := asocket_move_construct;
  move_assign := asocket_move_assign
}.

#[export] Instance asocket_laws : FdLaws AsyncSocket unit.
Proof.
  split.
  - intros [] x k. cbn. unfold asocket_close. destruct (Z.ltb_spec (as_fd x) 0); cbn.
    + by exists [].
    + exists [as_fd x]. unfold fd_list. by rewrite (proj2 (Z.geb_le _ _)) by lia.
  - intros x k. cbn. unfold asocket_destroy. by rewrite close_if_all.
  - intros y k. done.
  - intros x y k. cbn. by rewrite close_if_all.
  - done.
Qed.

(** ** Waiting for a socket *)

(** [waitReadable] and [waitWritable] up to the suspension: a registration with
    the loop; [ctl] is whether the system accepts it. *)
Definition waitReadable (ctl : bool) (fd h : Z) (s : EpollLoop) : outcome EpollLoop := addFd ctl fd Event_Read h s.
Definition waitWritable (ctl : bool) (fd h : Z) (s : EpollLoop) : outcome EpollLoop := addFd ctl fd Event_Write h s.

(** Their callback: the registration is removed and the coroutine resumed. *)
Definition wait_callback (fd : Z) (s : EpollLoop) : EpollLoop := removeFd fd s.

(** What the system reports for a descriptor with these events: those asked for,
    errors and hang-ups. *)
Definition reported (mask ready : Z) : Z := Z.land ready (Z.lor mask (Z.lor EPOLLERR EPOLLHUP)).

(** The loop wakes the waiting coroutine. *)
Definition wakes (fd ready : Z) (s : EpollLoop) : bool :=
  match epollSet s !! fd with Some mask => negb (reported mask ready =? 0) | None => false end.

(** One wait: the loop afterwards, or a coroutine that is never resumed;
    [ready] are the events of the socket from then on. *)
Definition wait_step (events : Z) (fd h ready : Z) (s : EpollLoop) : outcome EpollLoop :=
  let* s1 := addFd (negb (bool_decide (is_Some (epollSet s !! fd)))) fd events h s in
  if wakes fd ready s1 then Ok (wait_callback fd s1) else Hang.

(** ** Operations *)

(** An answer to [send]: bytes taken, a full buffer followed by the events the
    socket has later, or an error. *)
Inductive send_answer := Sent (n : Z) | Full (ready : Z) | SendError (e : Z).

(** The loop of [send], one answer per call: the result, and the pieces of the
    data the system has taken. *)
Fixpoint send_loop (fd h : Z) (data : text) (total : Z) (answers : list send_answer) (s : EpollLoop)
  : outcome (IoResult Z) * list text * EpollLoop :=
  if negb (total <? Z.of_nat (length data)) then (Ok (MkIo total 0), [], s)
  else match answers with
  | [] => (Hang, [], s)
  | Sent n :: as' =>
      let '(r, ps, s') := send_loop fd h data (total + n) as' s in
      (r, take (Z.to_nat n) (drop (Z.to_nat total) data) :: ps, s')
  | Full ready :: as' =>
      match wait_step Event_Write fd h ready s with
      | Ok s1 => send_loop fd h data total as' s1
      | Throw e => (Throw e, [], s)
      | Hang => (Hang, [], s)
      end
  | SendError e :: _ => (Ok (MkIo total e), [], s)
  end.

Definition asocket_send (fd h : Z) (data : text) (answers : list send_answer) (s : EpollLoop)
  : outcome (IoResult Z) * list text * EpollLoop := send_loop fd h data 0 answers s.

(** [recv]: wait, then one call. *)
Definition asocket_recv (fd h ready max_size : Z) (a : answer text) (s : EpollLoop) : outcome (IoResult text) * EpollLoop :=
  match wait_step Event_Read fd h ready s with
  | Ok s1 => (Ok (file_read max_size a), s1)
  | Throw e => (Throw e, s)
  | Hang => (Hang, s)
  end.

(** [accept]: wait, then one call; [None] when it fails. *)
Definition asocket_accept (fd h ready : Z) (err f : Z) (k : Kernel) (s : EpollLoop) : outcome (option AsyncSocket) * Kernel * EpollLoop :=
  match wait_step Event_Read fd h ready s with
  | Ok s1 => if negb (err =? 0) then (Ok None, k, s1) else let '(c, k') := sys_open f true k in (Ok (Some (MkASocket c)), k', s1)
  | Throw e => (Throw e, k, s)
  | Hang => (Hang, k, s)
  end.

Definition EINPROGRESS : Z := 115.

(** [connect]: [ret] and [errno] are what the call leaves, [so_error] what the
    socket reports when it has become writable. *)
Definition asocket_connect (create_err f : Z) (ip : text) (port ret errno ready so_error h : Z) (k : Kernel) (s : EpollLoop)
  : outcome (option AsyncSocket) * Kernel * EpollLoop :=
  match asocket_create create_err f k with
  | (Ok x, k1) =>
      match newSocketAddr ip port with
      | Ok _ =>
          if (ret <? 0) && negb (errno =? EINPROGRESS) then (Ok None, asocket_destroy x k1, s)
          else if errno =? EINPROGRESS then
            match wait_step Event_Write (as_fd x) h ready s with
            | Ok s1 => if negb (so_error =? 0) then (Ok None, asocket_destroy x k1, s1) else (Ok (Some x), k1, s1)
            | Throw e => (Throw e, asocket_destroy x k1, s)
            | Hang => (Hang, k1, s)
            end
          else (Ok (Some x), k1, s)
      | Throw e => (Throw e, asocket_destroy x k1, s)
      | Hang => (Hang, k1, s)
      end
  | (_, k1) => (Ok None, k1, s)
  end.

(** ** Properties *)

(** Answers a socket can give for so many bytes left. *)
Fixpoint answers_ok (left : Z) (answers : list send_answer) : Prop :=
  match answers with
  | [] => True
  | Sent n :: as' => 0 < n <= left ∧ (0 < left - n → answers_ok (left - n) as')
  | Full _ :: as' => answers_ok left as'
  | SendError e :: _ => e ≠ 0
  end.

Lemma send_loop_spec fd h data total answers s :
  0 <= total <= Z.of_nat (length data) → (0 < Z.of_nat (length data) - total → answers_ok (Z.of_nat (length data) - total) answers) →
  let '(r, ps, _) := send_loop fd h data total answers s in
  ∃ n, total <= n <= Z.of_nat (length data) ∧ concat ps = take (Z.to_nat (n - total)) (drop (Z.to_nat total) data) ∧
    match r with Ok io => io_value io = n ∧ (io_error io = 0 ↔ n = Z.of_nat (length data)) | _ => n < Z.of_nat (length data) end.
Proof.
  revert total s. induction answers as [|a as' IH]; intros total s Ht Hok; cbn [send_loop];
    destruct (Z.ltb_spec total (Z.of_nat (length data))) as [Hlt|Hge]; cbn [negb].
  1: exists total; rewrite Z.sub_diag; split_and!; [lia|lia|done|lia].
  1, 3: exists total; rewrite Z.sub_diag; split_and!; [lia|lia|done|done|split; [lia|done]].
  specialize (Hok ltac:(lia)). destruct a as [n|ready|e]; cbn [answers_ok] in Hok.
  - destruct Hok as [Hn Hrest]. specialize (IH (total + n) s ltac:(lia)).
    replace (Z.of_nat (length data) - (total + n)) with (Z.of_nat (length data) - total - n) in IH by lia. specialize (IH Hrest).
    destruct (send_loop fd h data (total + n) as' s) as [[r ps] s']. destruct IH as (m & Hm & Hc & Hr). exists m. split_and!; [lia|lia| |done].
    cbn [concat]. rewrite Hc, Z2Nat.inj_add, <- drop_drop by lia.
    rewrite <- (take_drop (Z.to_nat n) (take (Z.to_nat (m - total)) _)), take_take, Nat.min_l, skipn_firstn_comm by lia.
    do 2 f_equal. lia.
  - destruct (wait_step Event_Write fd h ready s) as [s1|e|]; [by apply IH| |];
      exists total; rewrite Z.sub_diag; split_and!; try lia; done.
  - exists total. rewrite Z.sub_diag. split_and!; [lia|lia|done|done|cbn; split; [done|lia]].
Qed.

Lemma send_loop_progress fd h data total ns s :
  0 <= total <= Z.of_nat (length data) →
  (0 < Z.of_nat (length data) - total → answers_ok (Z.of_nat (length data) - total) (Sent <$> ns)) →
  Z.of_nat (length data) - total <= Z.of_nat (length ns) →
  (send_loop fd h data total (Sent <$> ns) s).1.1 = Ok (MkIo (Z.of_nat (length data)) 0).
Proof.
  revert total. induction ns as [|n ns IH]; intros total Ht Hok Hlen; cbn [fmap list_fmap send_loop];
    destruct (Z.ltb_spec total (Z.of_nat (length data))) as [Hlt|Hge]; cbn [negb].
  - cbn in Hlen. lia.
  - cbn. by replace total with (Z.of_nat (length data)) by lia.
  - destruct (Hok ltac:(lia)) as [Hn Hrest]. specialize (IH (total + n) ltac:(lia)).
    replace (Z.of_nat (length data) - (total + n)) with (Z.of_nat (length data) - total - n) in IH by lia.
    specialize (IH Hrest ltac:(cbn in Hlen; lia)). by destruct (send_loop _ _ _ (total + n) _ _) as [[r ps] s'].
  - cbn. by replace total with (Z.of_nat (length data)) by lia.
Qed.

(** Sending.  Whatever pieces the system takes, the bytes it has taken when
    [send] returns are the first so many of the data, in order and once each,
    and their number is the result; no error is reported exactly when they are
    all.  When the system always takes something, [send] returns after at most
    as many calls as there are bytes. *)
Theorem socket_send_spec fd h data answers s :
  answers_ok (Z.of_nat (length data)) answers →
  (let '(r, ps, _) := asocket_send fd h data answers s in
   ∀ io, r = Ok io → concat ps = take (Z.to_nat (io_value io)) data ∧ 0 <= io_value io <= Z.of_nat (length data) ∧
     (io_error io = 0 ↔ concat ps = data)) ∧
  (∀ ns, answers = Sent <$> ns → (length data <= length ns)%nat →
     (asocket_send fd h data answers s).1.1 = Ok (MkIo (Z.of_nat (length data)) 0)).
Proof.
  intros Hok. unfold asocket_send. split.
  - pose proof (send_loop_spec fd h data 0 answers s ltac:(lia)) as H. rewrite Z.sub_0_r in H. specialize (H (λ _, Hok)).
    destruct (send_loop fd h data 0 answers s) as [[r ps] s']. intros io ->. destruct H as (n & Hn & Hc & <- & He).
    rewrite Z.sub_0_r in Hc. cbn [drop] in Hc. split_and!; [done|lia|lia|]. rewrite He, Hc. split.
    + intros ->. by rewrite Nat2Z.id, firstn_all.
    + intros E. apply (f_equal length) in E. rewrite length_take in E. lia.
  - intros ns -> Hlen. apply send_loop_progress; [lia|by rewrite Z.sub_0_r|lia].
Qed.

Lemma socket_send_spec_witness :
  (asocket_send 4 1 ["a"; "b"; "c"]%char (Sent <$> [2; 1; 1]) initLoop).1.1 = Ok (MkIo 3 0).
Proof.
  refine (proj2 (socket_send_spec 4 1 ["a"; "b"; "c"]%char (Sent <$> [2; 1; 1]) initLoop _) [2; 1; 1] eq_refl _); [|cbn; lia].
  cbn. lia.
Defined.

(** Waiting to write.  [waitWritable] registers the event bit 2, which is not
    the system's bit for writability: when the socket has merely become
    writable the loop reports nothing, and a [send] that has met a full buffer
    and a [connect] in progress are never resumed; while [waitReadable] is
    resumed when there is something to read, and removes its registration. *)
Theorem write_wait_hangs fd h data as' ip port k s f x k1 :
  epollSet s !! fd = None → data ≠ [] → newSocketAddr ip port ≠ Throw RuntimeError →
  asocket_create 0 f k = (Ok x, k1) → epollSet s !! as_fd x = None →
  (asocket_send fd h data (Full EPOLLOUT :: as') s).1.1 = Hang ∧
  (asocket_connect 0 f ip port (-1) EINPROGRESS EPOLLOUT 0 h k s).1.1 = Hang ∧
  ∃ s', wait_step Event_Read fd h EPOLLIN s = Ok s' ∧ epollSet s' = epollSet s ∧ fdCallbacks_ s' = delete fd (fdCallbacks_ s).
Proof.
  intros Hs Hd Ha Hc Hx.
  assert (Hhang : ∀ n, epollSet s !! n = None → wait_step Event_Write n h EPOLLOUT s = Hang).
  { intros n Hn. unfold wait_step. rewrite Hn, bool_decide_false by (by intros [? ?]). cbn. unfold wakes. cbn. by rewrite lookup_insert_eq. }
  split_and!.
  - unfold asocket_send. destruct data as [|c data]; [done|]. cbn [send_loop]. rewrite (proj2 (Z.ltb_lt _ _)) by (cbn; lia). cbn [negb]. by rewrite Hhang.
  - unfold asocket_connect. rewrite Hc. unfold newSocketAddr in *. destruct (inet_pton ip); [|done]. cbn [Z.ltb Z.compare EINPROGRESS Z.eqb negb andb].
    by rewrite (Hhang _ Hx).
  - unfold wait_step. rewrite Hs, bool_decide_false by (by intros [? ?]). cbn. unfold wakes. cbn. rewrite lookup_insert_eq. cbn. eexists. split; [done|].
    cbn. rewrite delete_insert_id by done. split; [done|]. apply map_eq. intros i. destruct (decide (i = fd)) as [->|];
      [by rewrite !lookup_delete_eq|by rewrite !lookup_delete_ne, lookup_insert_ne].
Qed.

Lemma write_wait_hangs_witness :
  (asocket_send 4 1 ["a"%char] [Full EPOLLOUT] initLoop).1.1 = Hang ∧
  (asocket_connect 0 9 (inet_ntop (127, 0, 0, 1)) 80 (-1) EINPROGRESS EPOLLOUT 0 1 std_kernel initLoop).1.1 = Hang ∧
  ∃ s', wait_step Event_Read 4 1 EPOLLIN initLoop = Ok s' ∧ epollSet s' = epollSet initLoop ∧ fdCallbacks_ s' = delete 4 (fdCallbacks_ initLoop).
Proof.
  apply (write_wait_hangs 4 1 ["a"%char] [] (inet_ntop (127, 0, 0, 1)) 80 std_kernel initLoop 9 (MkASocket 3)
    (MkKernel (<[3 := MkFd 9 true]> (open_ std_kernel)) false [])); by vm_compute.
Defined.

(** A second wait on a socket, say to write while another coroutine reads, is
    refused by the loop. *)
Lemma second_wait_throws fd ev ev' h h' s ready :
  epollSet s !! fd = None →
  ∃ s1, addFd true fd ev h s = Ok s1 ∧ wait_step ev' fd h' ready s1 = Throw RuntimeError.
Proof. intros Hs. eexists. split; [done|]. unfold wait_step. cbn. rewrite lookup_insert_eq, bool_decide_true by (by eexists). done. Qed.

(** The callback of a wait begins by erasing its own registration, and so the
    function object the loop is running and the coroutine it has captured. *)
Lemma wait_callback_erases fd h ev s s1 :
  addFd true fd ev h s = Ok s1 → fdCallbacks_ s1 !! fd = Some h ∧ fdCallbacks_ (wait_callback fd s1) !! fd = None.
Proof. intros [= <-]. cbn. by rewrite lookup_insert_eq, lookup_delete_eq. Qed.

(** ** All wrappers *)


(** Two descriptors become a pipe, which is assigned to itself and then moved. *)
Definition piped : Store Pipe :=
  MkStore {[ 1 := MkPipe (-1) (-1); 2 := MkPipe 0 1 ]} [] (MkKernel {[ 0 := MkFd 7 true; 1 := MkFd 8 true ]} false []).

