(* ===== verification/Task.v ===== *)
(** * Coroutine tasks (include/pman/async/task.hpp, src/async/task.cpp)

    A [Task] owns the frame of a coroutine.  The frames, the task objects by
    address, those on the heap that manage themselves, and the deletions posted
    to the event loop.  What a coroutine's body does between two resumptions is
    a step of its own: it suspends, or it ends and its final awaiter runs the
    continuation. *)

From S2P Require Import Prelude.

(** What runs when the coroutine has ended: resume the awaiting coroutine, call
    the user's function, or delete the heap task at an address. *)
Inductive continuation := CResume (awaiter : Z) | CCall (c : Z) | CDelete (self : Z).

Inductive frame_status := Created | Running | Suspended | Done.

(** The promise: its result or exception, and the continuation. *)
Record Frame := MkFrame {
  f_status : frame_status;
  result_ : option Z;
  exception_ : option exn;
  continuation_ : option continuation
}.

Definition newFrame : Frame := MkFrame Created None None None.

(** [handle_] of a task is the frame it owns, or nothing.  [ran] are the
    continuations run, [misuse] that a frame was destroyed twice or while its
    coroutine ran, that a coroutine was resumed that is gone or not suspended, or
    that an empty task was awaited. *)
Record TWorld := MkTWorld {
  frames : gmap Z Frame;
  tasks : gmap Z (option Z);
  heap : gset Z;
  posted : list Z;
  ran : list continuation;
  misuse : bool
}.

Definition set_frame (f : Z) (fr : Frame) (w : TWorld) : TWorld :=
  MkTWorld (<[f := fr]> (frames w)) (tasks w) (heap w) (posted w) (ran w) (misuse w).
Definition set_task (x : Z) (h : option Z) (w : TWorld) : TWorld :=
  MkTWorld (frames w) (<[x := h]> (tasks w)) (heap w) (posted w) (ran w) (misuse w).

Definition wrong (w : TWorld) : TWorld := MkTWorld (frames w) (tasks w) (heap w) (posted w) (ran w) true.

Definition running (fr : Frame) : bool := match f_status fr with Running => true | _ => false end.
Definition resumable (fr : Frame) : bool := match f_status fr with Created | Suspended => true | _ => false end.

(** [handle_.destroy()], if there is a handle. *)
Definition destroy_frame (h : option Z) (w : TWorld) : TWorld :=
  match h with
  | None => w
  | Some f =>
      match frames w !! f with
      | Some fr => MkTWorld (delete f (frames w)) (tasks w) (heap w) (posted w) (ran w) (misuse w || running fr)
      | None => wrong w
      end
  end.

(** [get_return_object]: a new frame, suspended at its start, and its task. *)
Definition get_return_object (x f : Z) (w : TWorld) : TWorld := set_task x (Some f) (set_frame f newFrame w).

Definition task_destroy (x : Z) (w : TWorld) : TWorld :=
  match tasks w !! x with
  | None => w
  | Some h =>
      let w1 := destroy_frame h w in
      MkTWorld (frames w1) (delete x (tasks w1)) (heap w1 ∖ {[x]}) (posted w1) (ran w1) (misuse w1)
  end.

Definition task_move_construct (x y : Z) (w : TWorld) : TWorld :=
  match tasks w !! y with Some h => set_task x h (set_task y None w) | None => w end.

Definition task_move_assign (x y : Z) (w : TWorld) : TWorld :=
  if x =? y then w
  else match tasks w !! x, tasks w !! y with
       | Some h, Some g => set_task x g (set_task y None (destroy_frame h w))
       | _, _ => w
       end.

(** [handle.resume()]: the body runs. *)
Definition resume (f : Z) (w : TWorld) : TWorld :=
  match frames w !! f with
  | Some fr =>
      if resumable fr then set_frame f (MkFrame Running (result_ fr) (exception_ fr) (continuation_ fr)) w else wrong w
  | None => wrong w
  end.

Definition set_continuation (f : Z) (c : continuation) (w : TWorld) : TWorld :=
  match frames w !! f with
  | Some fr => set_frame f (MkFrame (f_status fr) (result_ fr) (exception_ fr) (Some c)) w
  | None => w
  end.

(** [start]; [self] is the address of the heap task when there is no callback. *)
Definition start (on_complete : option Z) (self x : Z) (w : TWorld) : TWorld :=
  match tasks w !! x with
  | Some (Some f) =>
      match on_complete with
      | Some c => resume f (set_continuation f (CCall c) w)
      | None =>
          let w1 := task_move_construct self x w in
          let w2 := MkTWorld (frames w1) (tasks w1) ({[self]} ∪ heap w1) (posted w1) (ran w1) (misuse w1) in
          resume f (set_continuation f (CDelete self) w2)
      end
  | _ => w
  end.

(** The body suspends. *)
Definition body_suspend (f : Z) (w : TWorld) : TWorld :=
  match frames w !! f with
  | Some fr => set_frame f (MkFrame Suspended (result_ fr) (exception_ fr) (continuation_ fr)) w
  | None => w
  end.

(** [co_await] of a task by the coroutine [awaiter]: it suspends, and
    [await_suspend] makes the task resume it at its end and starts the task. *)
Definition await_suspend (awaiter x : Z) (w : TWorld) : TWorld :=
  match tasks w !! x with
  | Some (Some f) => resume f (set_continuation f (CResume awaiter) (body_suspend awaiter w))
  | _ => wrong w
  end.

(** [deferTaskDeletion]: through the current event loop, if there is one. *)
Definition deferTaskDeletion (loop : bool) (self : Z) (w : TWorld) : TWorld :=
  if loop then MkTWorld (frames w) (tasks w) (heap w) (posted w ++ [self]) (ran w) (misuse w)
  else task_destroy self w.

(** The body returns or throws, and the final awaiter runs the continuation: the
    coroutine that awaits is resumed, or the heap task deleted.  What a user's
    function does is up to the user. *)
Definition final_suspend (loop : bool) (c : option continuation) (w : TWorld) : TWorld :=
  match c with
  | None => w
  | Some c =>
      let w1 := MkTWorld (frames w) (tasks w) (heap w) (posted w) (ran w ++ [c]) (misuse w) in
      match c with
      | CResume awaiter => resume awaiter w1
      | CDelete self => deferTaskDeletion loop self w1
      | CCall _ => w1
      end
  end.

Definition body_end (loop : bool) (f : Z) (r : Z + exn) (w : TWorld) : TWorld :=
  match frames w !! f with
  | Some fr =>
      let fr' := match r with
                 | inl v => MkFrame Done (Some v) (exception_ fr) (continuation_ fr)
                 | inr e => MkFrame Done (result_ fr) (Some e) (continuation_ fr)
                 end in
      final_suspend loop (continuation_ fr) (set_frame f fr' w)
  | None => w
  end.

(** [result]: rethrow, or the value; [None] is undefined. *)
Definition task_result (x : Z) (w : TWorld) : option (outcome Z) :=
  h ← tasks w !! x; f ← h; fr ← frames w !! f;
  match exception_ fr with Some e => Some (Throw e) | None => Ok <$> result_ fr end.

(** The loop runs the oldest posted deletion. *)
Definition run_posted (w : TWorld) : TWorld :=
  match posted w with
  | [] => w
  | self :: rest => task_destroy self (MkTWorld (frames w) (tasks w) (heap w) rest (ran w) (misuse w))
  end.

(** ** Programs *)

(** The owner of frame [f]. *)
Definition owns (w : TWorld) (x f : Z) : Prop := tasks w !! x = Some (Some f).

(** The status of a frame. *)
Definition status (w : TWorld) (f : Z) : option frame_status := f_status <$> frames w !! f.

(** The coroutine that frame [fr] will resume at its end. *)
Definition resumes (fr : Frame) : option Z :=
  match continuation_ fr, f_status fr with
  | Some (CResume _), Done => None
  | Some (CResume a), _ => Some a
  | _, _ => None
  end.

(** Coroutine [a] awaits a task that has not ended. *)
Definition awaiting (w : TWorld) (a : Z) : Prop := ∃ g fr, frames w !! g = Some fr ∧ resumes fr = Some a.

(** A frame that may be destroyed: its coroutine does not run, and does not await
    a task that is still there (the tasks that live in a frame are destroyed
    before it). *)
Definition idle (w : TWorld) (f : Z) : Prop := status w f ≠ Some Running ∧ ¬ awaiting w f.

(** A program creates tasks, moves and destroys those it holds (not the heap
    tasks), starts or awaits each once, a task being awaited by a coroutine that
    runs, and coroutines suspend, are resumed where they suspended (one that
    awaits a task, by that task only), and end; [loop] is whether there is an
    event loop. *)
Inductive task_step (loop : bool) : relation TWorld :=
  | T_create x f w : tasks w !! x = None → frames w !! f = None → task_step loop w (get_return_object x f w)
  | T_destroy x w : x ∉ heap w → (∀ f, owns w x f → idle w f) → task_step loop w (task_destroy x w)
  | T_move x y w : tasks w !! x = None → y ∉ heap w → task_step loop w (task_move_construct x y w)
  | T_assign x y w :
      x ∉ heap w → y ∉ heap w → (∀ f, owns w x f → idle w f) → task_step loop w (task_move_assign x y w)
  | T_start c self x w :
      x ∉ heap w → tasks w !! self = None → (∀ f, owns w x f → status w f = Some Created) → task_step loop w (start c self x w)
  | T_await awaiter x f w :
      x ∉ heap w → owns w x f → status w f = Some Created → status w awaiter = Some Running →
      task_step loop w (await_suspend awaiter x w)
  | T_suspend f w : status w f = Some Running → task_step loop w (body_suspend f w)
  | T_resume f w : status w f = Some Suspended → ¬ awaiting w f → task_step loop w (resume f w)
  | T_end f r w : status w f = Some Running → task_step loop w (body_end loop f r w)
  | T_posted w : task_step loop w (run_posted w).

Definition newTWorld : TWorld := MkTWorld ∅ ∅ ∅ [] [] false.

(** ** The invariant *)

(** The frame of a heap task: it deletes that task when it ends. *)
Definition manages (w : TWorld) (self f : Z) (fr : Frame) : Prop :=
  owns w self f ∧ frames w !! f = Some fr ∧ continuation_ fr = Some (CDelete self).

(** Every frame has one owner and every owner a frame; the heap tasks are those
    whose frame deletes them, and the posted deletions are those of the heap
    tasks that have ended, once each. *)
Record TInv (w : TWorld) : Prop := {
  ti_misuse : misuse w = false;
  ti_alive : ∀ x f, owns w x f → is_Some (frames w !! f);
  ti_unique : ∀ x y f, owns w x f → owns w y f → x = y;
  ti_owned : ∀ f, is_Some (frames w !! f) → ∃ x, owns w x f;
  ti_heap : ∀ self, self ∈ heap w → ∃ f fr, manages w self f fr;
  ti_cont : ∀ self f fr, frames w !! f = Some fr → continuation_ fr = Some (CDelete self) → self ∈ heap w ∧ owns w self f;
  ti_once : NoDup (posted w);
  ti_posted : ∀ self, self ∈ posted w ↔ ∃ f fr, manages w self f fr ∧ f_status fr = Done
}.

Lemma newTWorld_inv : TInv newTWorld.
Proof.
  split; cbn; try done; unfold owns, manages; cbn.
  - intros f [? H]. done.
  - constructor.
  - intros self. split; [by intros ?%elem_of_nil|]. by intros (f & fr & (H & _) & _).
Qed.

(** A frame replaced by one with the same continuation. *)
Lemma frame_update_inv w f fr fr' :
  frames w !! f = Some fr → continuation_ fr' = continuation_ fr → (f_status fr' = Done ↔ f_status fr = Done) →
  TInv w → TInv (set_frame f fr' w).
Proof.
  intros Hf Hc Hs [Hm Ha Hu Ho Hh Hct Hn Hp].
  assert (Hlk : ∀ g q, <[f := fr']> (frames w) !! g = Some q →
    ∃ q0, frames w !! g = Some q0 ∧ continuation_ q = continuation_ q0 ∧ (f_status q = Done ↔ f_status q0 = Done)).
  { intros g q [[<- <-]|[Hne Hg]]%lookup_insert_Some; eauto. }
  assert (Hlk' : ∀ g q0, frames w !! g = Some q0 →
    ∃ q, <[f := fr']> (frames w) !! g = Some q ∧ continuation_ q = continuation_ q0 ∧ (f_status q = Done ↔ f_status q0 = Done)).
  { intros g q0 Hg. destruct (decide (f = g)) as [<-|Hne]; [|rewrite lookup_insert_ne by done; eauto].
    rewrite lookup_insert_eq. exists fr'. by simplify_eq. }
  split; cbn; try done.
  - intros x g Hx. destruct (Ha x g Hx) as [q0 Hq]. destruct (Hlk' g q0 Hq) as (q & -> & _). by eexists.
  - intros g [q Hg]. destruct (Hlk g q Hg) as (q0 & Hq & _). apply Ho. by eexists.
  - intros self Hin. destruct (Hh self Hin) as (g & q0 & H1 & H2 & H3). destruct (Hlk' g q0 H2) as (q & H4 & H5 & _).
    exists g, q. split_and!; [done|done|congruence].
  - intros self g q Hg Hq. destruct (Hlk g q Hg) as (q0 & H1 & H2 & _). apply (Hct self g q0 H1). congruence.
  - intros self. rewrite Hp. split.
    + intros (g & q0 & (H1 & H2 & H3) & H4). destruct (Hlk' g q0 H2) as (q & H5 & H6 & H7). exists g, q. unfold manages. cbn. naive_solver congruence.
    + intros (g & q & (H1 & H2 & H3) & H4). destruct (Hlk g q H2) as (q0 & H5 & H6 & H7). exists g, q0. unfold manages. naive_solver congruence.
Qed.

(** A task that is not on the heap has a frame that deletes nobody. *)
Lemma plain_owner w x f fr :
  TInv w → x ∉ heap w → owns w x f → frames w !! f = Some fr → ∀ self, continuation_ fr ≠ Some (CDelete self).
Proof.
  intros Hinv Hx Ho Hf self Hc. destruct (ti_cont w Hinv self f fr Hf Hc) as [Hs Hos].
  by rewrite (ti_unique w Hinv x self f Ho Hos) in Hx.
Qed.

(** A frame that deletes nobody gets another continuation, and is not done. *)
Lemma frame_continue_inv w f fr fr' :
  frames w !! f = Some fr → (∀ self, continuation_ fr ≠ Some (CDelete self)) → (∀ self, continuation_ fr' ≠ Some (CDelete self)) →
  TInv w → TInv (set_frame f fr' w).
Proof.
  intros Hf Hc Hc' [Hm Ha Hu Ho Hh Hct Hn Hp].
  assert (Hman : ∀ self g q, manages (set_frame f fr' w) self g q ↔ manages w self g q).
  { intros self g q. unfold manages. cbn. destruct (decide (f = g)) as [<-|Hne]; [|by rewrite lookup_insert_ne].
    rewrite lookup_insert_eq. split; intros (_ & H2 & H3); exfalso; simplify_eq; [by eapply Hc'|by eapply Hc]. }
  split; cbn; try done.
  - intros x g Hx. destruct (decide (f = g)) as [<-|Hne]; [rewrite lookup_insert_eq; by eexists|]. rewrite lookup_insert_ne by done. by eapply Ha.
  - intros g Hg. apply Ho. destruct (decide (f = g)) as [<-|Hne]; [by eexists|]. by rewrite lookup_insert_ne in Hg.
  - intros self Hin. destruct (Hh self Hin) as (g & q & Hq). exists g, q. by apply Hman.
  - intros self g q [[<- <-]|[Hne Hg]]%lookup_insert_Some Hq; [by destruct (Hc' self)|]. by apply (Hct self g q).
  - intros self. rewrite Hp. split; intros (g & q & H1 & H2); exists g, q; (split; [by apply Hman|done]).
Qed.

(** A task and its frame go away, and with them its posted deletion. *)
Lemma task_gone_inv w x h ps :
  tasks w !! x = Some h → (∀ f fr, h = Some f → frames w !! f = Some fr → running fr = false) →
  NoDup ps → (∀ self, self ∈ ps ↔ self ∈ posted w ∧ self ≠ x) → TInv w →
  let w1 := destroy_frame h (MkTWorld (frames w) (tasks w) (heap w) ps (ran w) (misuse w)) in
  TInv (MkTWorld (frames w1) (delete x (tasks w1)) (heap w1 ∖ {[x]}) (posted w1) (ran w1) (misuse w1)).
Proof.
  intros Hx Hrun Hps Hmem [Hm Ha Hu Ho Hh Hct Hn Hp]. cbn zeta.
  assert (Hfr : ∃ F, frames (destroy_frame h (MkTWorld (frames w) (tasks w) (heap w) ps (ran w) (misuse w))) = F ∧
    (∀ g, F !! g = if decide (h = Some g) then None else frames w !! g) ∧
    destroy_frame h (MkTWorld (frames w) (tasks w) (heap w) ps (ran w) (misuse w)) = MkTWorld F (tasks w) (heap w) ps (ran w) (misuse w)).
  { destruct h as [f|]; cbn.
    - destruct (Ha x f Hx) as [fr Hf]. rewrite Hf, (Hrun f fr eq_refl Hf), orb_false_r. eexists. split_and!; [done| |done]. intros g. cbn.
      destruct (decide (f = g)) as [->|]; [by rewrite decide_True, lookup_delete_eq|].
      rewrite decide_False by congruence. by rewrite lookup_delete_ne.
    - eexists. split_and!; [done| |done]. done. }
  destruct Hfr as (F & _ & HF & ->). cbn.
  set (w' := MkTWorld F _ _ _ _ _).
  assert (Hown : ∀ y g, owns w' y g ↔ owns w y g ∧ y ≠ x) by (intros y g; unfold owns, w'; cbn; rewrite lookup_delete_Some; naive_solver).
  assert (Hother : ∀ y g, owns w y g → y ≠ x → h ≠ Some g).
  { intros y g Hy Hne ->. apply Hne. by apply (Hu y x g). }
  assert (Hman : ∀ self g q, manages w' self g q ↔ manages w self g q ∧ self ≠ x).
  { intros self g q. unfold manages. rewrite Hown. unfold w'. cbn. rewrite HF. split.
    - intros ([H1 H2] & H3 & H4). rewrite decide_False in H3 by (by eapply Hother). done.
    - intros [(H1 & H2 & H3) H4]. rewrite decide_False by (by eapply Hother). done. }
  split; try done.
  - intros y g [Hy Hne]%Hown. cbn. rewrite HF, decide_False by (by eapply Hother). by eapply Ha.
  - intros y z g [Hy _]%Hown [Hz _]%Hown. by eapply Hu.
  - intros g. cbn. rewrite HF. case_decide as E; [by intros [? ?]|]. intros Hg. destruct (Ho g Hg) as [y Hy]. exists y. apply Hown.
    split; [done|]. intros ->. unfold owns in Hy. congruence.
  - intros self [Hs Hne]%elem_of_difference. destruct (Hh self Hs) as (g & q & Hq). exists g, q. apply Hman. split; [done|]. set_solver.
  - intros self g q. cbn. rewrite HF. case_decide as E; [done|]. intros Hg Hq. destruct (Hct self g q Hg Hq) as [H1 H2].
    assert (self ≠ x) by (intros ->; unfold owns in H2; congruence). split; [set_solver|]. by apply Hown.
  - intros self. cbn. rewrite Hmem, Hp. split.
    + intros [(g & q & H1 & H2) Hne]. exists g, q. by rewrite Hman.
    + intros (g & q & [H1 Hne]%Hman & H2). split; [by exists g, q|done].
Qed.

Lemma posted_heap w self : TInv w → self ∈ posted w → self ∈ heap w.
Proof. intros Hinv (f & fr & (_ & Hf & Hc) & _)%(ti_posted w Hinv). by destruct (ti_cont w Hinv self f fr Hf Hc). Qed.

Lemma heap_task w self : TInv w → self ∈ heap w → is_Some (tasks w !! self).
Proof. intros Hinv (f & fr & Ho & _)%(ti_heap w Hinv). by exists (Some f). Qed.

Lemma not_running w f fr : status w f ≠ Some Running → frames w !! f = Some fr → running fr = false.
Proof. unfold status, running. intros H E. rewrite E in H. cbn in H. by destruct (f_status fr). Qed.

Lemma task_destroy_inv x w :
  x ∉ heap w → (∀ f, owns w x f → status w f ≠ Some Running) → TInv w → TInv (task_destroy x w).
Proof.
  intros Hx Hrun Hinv. unfold task_destroy. destruct (tasks w !! x) as [h|] eqn:Ex; [|done].
  assert (Hnp : x ∉ posted w) by (intros H; by apply Hx, posted_heap).
  assert (Hr : ∀ f fr, h = Some f → frames w !! f = Some fr → running fr = false) by (intros f fr ->; apply not_running, Hrun, Ex).
  pose proof (task_gone_inv w x h (posted w) Ex Hr (ti_once w Hinv) ltac:(set_solver) Hinv) as H. by destruct w.
Qed.

Lemma run_posted_inv w : TInv w → TInv (run_posted w).
Proof.
  intros Hinv. unfold run_posted. destruct (posted w) as [|self rest] eqn:Ep; [done|].
  assert (Hin : self ∈ posted w) by (rewrite Ep; left). pose proof (ti_once w Hinv) as Hn. rewrite Ep in Hn. apply NoDup_cons in Hn as [Hni Hn].
  destruct (heap_task w self Hinv (posted_heap w self Hinv Hin)) as [h Eh].
  assert (Hr : ∀ f fr, h = Some f → frames w !! f = Some fr → running fr = false).
  { intros f fr -> Hf. apply (ti_posted w Hinv) in Hin as (g & q & (H1 & H2 & _) & Hd). unfold owns in H1.
    assert (g = f) as -> by congruence. simplify_eq. unfold running. by rewrite Hd. }
  pose proof (task_gone_inv w self h rest Eh Hr Hn ltac:(rewrite Ep; set_solver) Hinv) as H. unfold task_destroy. cbn [tasks]. by rewrite Eh.
Qed.

(** The handle of a task moves to an object that is new or empty. *)
Lemma task_transfer_inv w x y h :
  x ≠ y → y ∉ heap w → tasks w !! y = Some h → (∀ f, ¬ owns w x f) → TInv w → TInv (set_task x h (set_task y None w)).
Proof.
  intros Hne Hy Ey Hx Hinv. pose proof Hinv as [Hm Ha Hu Ho Hh Hct Hn Hp]. set (w' := set_task _ _ _).
  assert (Hown : ∀ z f, owns w' z f ↔ (z = x ∧ owns w y f) ∨ (z ≠ x ∧ z ≠ y ∧ owns w z f)).
  { intros z f. unfold owns, w'. cbn. destruct (decide (z = x)) as [->|Hzx]; [rewrite lookup_insert_eq; naive_solver congruence|].
    rewrite lookup_insert_ne by done. destruct (decide (z = y)) as [->|Hzy]; [rewrite lookup_insert_eq; naive_solver|].
    rewrite lookup_insert_ne by done. naive_solver. }
  assert (Hman : ∀ self f fr, manages w' self f fr ↔ manages w self f fr).
  { intros self f fr. unfold manages. change (frames w') with (frames w). rewrite Hown. split.
    - intros ([[-> Hs]|(_ & _ & Hs)] & Hf & Hc); [|done]. destruct (Hct x f fr Hf Hc) as [_ Hox]. by destruct (Hx f).
    - intros (Hs & Hf & Hc). destruct (Hct self f fr Hf Hc) as [Hin _]. split; [|done]. right. split_and!; [| |done].
      + intros ->. by destruct (Hx f).
      + by intros ->. }
  split; try done.
  - intros z f [[-> H]|(_ & _ & H)]%Hown; by eapply Ha.
  - intros z1 z2 f [[-> H1]|(? & ? & H1)]%Hown [[-> H2]|(? & ? & H2)]%Hown; [done| | |by eapply Hu].
    + destruct (Hu y z2 f H1 H2). done.
    + destruct (Hu z1 y f H1 H2). done.
  - intros f Hf. destruct (Ho f Hf) as [z Hz]. destruct (decide (z = y)) as [->|Hzy]; [exists x; apply Hown; by left|].
    exists z. apply Hown. right. split_and!; [|done|done]. intros ->. by destruct (Hx f).
  - intros self Hin. destruct (Hh self Hin) as (f & fr & H). exists f, fr. by apply Hman.
  - intros self f fr Hf Hc. destruct (Hct self f fr Hf Hc) as [Hin Hs]. split; [done|]. by apply (Hman self f fr).
  - intros self. change (posted w') with (posted w). rewrite (Hp self). split; intros (f & fr & H1 & H2); exists f, fr; (split; [by apply Hman|done]).
Qed.

Lemma task_move_assign_inv x y w :
  x ∉ heap w → y ∉ heap w → (∀ f, owns w x f → status w f ≠ Some Running) → TInv w → TInv (task_move_assign x y w).
Proof.
  intros Hx Hy Hrun Hinv. unfold task_move_assign. destruct (Z.eqb_spec x y) as [|Hne]; [done|].
  destruct (tasks w !! x) as [h|] eqn:Ex; [|done]. destruct (tasks w !! y) as [g|] eqn:Ey; [|done].
  pose proof (task_destroy_inv x w Hx Hrun Hinv) as H1. unfold task_destroy in H1. rewrite Ex in H1.
  assert (Ht : tasks (destroy_frame h w) = tasks w ∧ heap (destroy_frame h w) = heap w) by (unfold destroy_frame; by repeat case_match).
  destruct Ht as [Ht Hhp]. rewrite Ht, Hhp in H1. replace (heap w ∖ {[x]}) with (heap w) in H1 by set_solver.
  set (w1 := MkTWorld _ (delete x (tasks w)) _ _ _ _) in H1.
  assert (Hy1 : tasks w1 !! y = Some g) by (cbn; by rewrite lookup_delete_ne).
  assert (Hx1 : ∀ f, ¬ owns w1 x f) by (intros f; unfold owns; cbn; by rewrite lookup_delete_eq).
  pose proof (task_transfer_inv w1 x y g Hne Hy Hy1 Hx1 H1) as H2. unfold set_task, w1 in *. cbn in *. rewrite Ht, Hhp.
  rewrite <- (delete_insert_ne _ x y) in H2 by done. rewrite insert_delete_eq in H2. done.
Qed.

(** Starting a task whose coroutine is at its beginning. *)
Lemma start_frame_inv w x f c :
  x ∉ heap w → owns w x f → status w f = Some Created → (∀ self, c ≠ CDelete self) → TInv w →
  TInv (resume f (set_continuation f c w)).
Proof.
  intros Hx Hof Hst Hc Hinv. destruct (ti_alive w Hinv x f Hof) as [fr Hf]. unfold set_continuation. rewrite Hf. unfold resume.
  unfold status in Hst. rewrite Hf in Hst. injection Hst as Hst.
  cbn [frames set_frame]. rewrite lookup_insert_eq. unfold resumable. cbn. rewrite Hst. unfold set_frame. cbn. rewrite insert_insert_eq.
  apply (frame_continue_inv w f fr); [done|by apply (plain_owner w x f)| |done]. intros self [= ->]. by destruct (Hc self).
Qed.

Lemma start_heap_inv w self x f :
  x ∉ heap w → tasks w !! self = None → owns w x f → status w f = Some Created → TInv w → TInv (start None self x w).
Proof.
  intros Hx Hself Hof Hst Hinv. pose proof Hof as Ex. unfold owns in Ex. unfold start. rewrite Ex.
  assert (Hne : self ≠ x) by congruence.
  assert (Hno : ∀ g, ¬ owns w self g) by (intros g; unfold owns; by rewrite Hself).
  unfold task_move_construct. rewrite Ex. pose proof (task_transfer_inv w self x (Some f) Hne Hx Ex Hno Hinv) as Hinv1.
  set (w1 := set_task self _ _) in *. destruct (ti_alive w Hinv x f Hof) as [fr Hf].
  assert (Hs1 : owns w1 self f) by (unfold owns, w1; cbn; apply lookup_insert_eq).
  assert (Hsh : self ∉ heap w1) by (intros Hin; destruct (heap_task w self Hinv Hin); congruence).
  pose proof (plain_owner w1 self f fr Hinv1 Hsh Hs1 Hf) as Hplain.
  unfold set_continuation. change (frames (MkTWorld (frames w1) _ _ _ _ _)) with (frames w). rewrite Hf. unfold resume. cbn [frames set_frame].
  assert (Hcr : f_status fr = Created) by (unfold status in Hst; rewrite Hf in Hst; by injection Hst).
  rewrite lookup_insert_eq. unfold resumable. cbn. rewrite Hcr. unfold set_frame. cbn. rewrite insert_insert_eq. set (fr' := MkFrame Running _ _ _).
  destruct Hinv1 as [Hm Ha Hu Ho Hh Hct Hn Hp]. change (frames w1) with (frames w) in *. set (w' := MkTWorld _ _ _ _ _ _).
  assert (Hown : ∀ z g, owns w' z g ↔ owns w1 z g) by done.
  assert (Hman : ∀ z g q, manages w' z g q ↔ manages w1 z g q ∨ (z = self ∧ g = f ∧ q = fr')).
  { intros z g q. unfold manages. rewrite Hown. change (frames w1) with (frames w). unfold w'. cbn. destruct (decide (f = g)) as [<-|Hfg].
    - rewrite lookup_insert_eq. split.
      + intros (H1 & [= <-] & H3). right. cbn in H3. simplify_eq. done.
      + intros [(H1 & H2 & H3)|(-> & _ & ->)]; [exfalso; simplify_eq; by eapply Hplain|done].
    - rewrite lookup_insert_ne by done. naive_solver. }
  split; try done.
  - intros z g Hz. cbn. destruct (decide (f = g)) as [<-|]; [rewrite lookup_insert_eq; by eexists|]. rewrite lookup_insert_ne by done. by apply (Ha z).
  - intros g Hg. cbn in Hg. apply Ho. destruct (decide (f = g)) as [<-|]; [by eexists|]. by rewrite lookup_insert_ne in Hg.
  - intros z Hz. cbn in Hz. apply elem_of_union in Hz as [->%elem_of_singleton|Hz]; [exists f, fr'; apply Hman; by right|].
    destruct (Hh z Hz) as (g & q & H). exists g, q. apply Hman. by left.
  - intros z g q Hg Hq. cbn in Hg. cbn. apply lookup_insert_Some in Hg as [[<- <-]|[Hfg Hg]].
    + cbn in Hq. simplify_eq. split; [set_solver|done].
    + destruct (Hct z g q Hg Hq). split; [set_solver|done].
  - intros z. change (posted w') with (posted w1). rewrite Hp. split.
    + intros (g & q & H1 & H2). exists g, q. split; [apply Hman; by left|done].
    + intros (g & q & [H1|(-> & -> & ->)]%Hman & H2); [by exists g, q|done].
Qed.

Lemma ran_inv w r : TInv w → TInv (MkTWorld (frames w) (tasks w) (heap w) (posted w) r (misuse w)).
Proof. intros []. by split. Qed.

(** A heap task's coroutine ends: its deletion is posted. *)
Lemma end_posted_inv w self f fr fr' r :
  manages w self f fr → f_status fr ≠ Done → continuation_ fr' = continuation_ fr → f_status fr' = Done → TInv w →
  TInv (MkTWorld (<[f := fr']> (frames w)) (tasks w) (heap w) (posted w ++ [self]) r (misuse w)).
Proof.
  intros (Hos & Hf & Hc) Hnd Hc' Hd [Hm Ha Hu Ho Hh Hct Hn Hp]. set (w' := MkTWorld _ _ _ _ _ _).
  assert (Hman : ∀ z g q, manages w' z g q ↔ (manages w z g q ∧ g ≠ f) ∨ (z = self ∧ g = f ∧ q = fr')).
  { intros z g q. unfold manages, owns, w'. cbn. destruct (decide (f = g)) as [<-|Hfg]; [rewrite lookup_insert_eq|rewrite lookup_insert_ne by done; naive_solver].
    split; [|naive_solver congruence]. intros (H1 & [= <-] & H3). right. split_and!; [congruence|done|done]. }
  assert (Hnp : self ∉ posted w).
  { intros (g & q & (H1 & H2 & H3) & H4)%Hp. assert (g = f) as -> by (unfold owns in *; congruence). simplify_eq. }
  split; try done.
  - intros z g Hz. cbn. destruct (decide (f = g)) as [<-|]; [rewrite lookup_insert_eq; by eexists|]. rewrite lookup_insert_ne by done. by apply (Ha z).
  - intros g Hg. cbn in Hg. apply Ho. destruct (decide (f = g)) as [<-|]; [by eexists|]. by rewrite lookup_insert_ne in Hg.
  - intros z Hz. destruct (Hh z Hz) as (g & q & H). destruct (decide (g = f)) as [->|]; [|exists g, q; apply Hman; by left].
    destruct H as (H1 & H2 & H3). exists f, fr'. apply Hman. right. simplify_eq. done.
  - intros z g q Hg Hq. cbn in Hg. apply lookup_insert_Some in Hg as [[<- <-]|[_ Hg]]; [|by apply (Hct z g q)]. apply (Hct z f fr); [done|congruence].
  - cbn. apply NoDup_app. split_and!; [done|set_solver|apply NoDup_singleton].
  - intros z. cbn [posted w']. change (posted w') with (posted w ++ [self]). rewrite elem_of_app, list_elem_of_singleton, Hp. split.
    + intros [(g & q & H1 & H2)| ->]; [|exists f, fr'; split; [apply Hman; by right|done]].
      exists g, q. split; [|done]. apply Hman. left. split; [done|]. intros ->. destruct H1 as (_ & H1 & _). by simplify_eq.
    + intros (g & q & [[H1 _]|(-> & _)]%Hman & H2); [left; by exists g, q|by right].
Qed.

(** Without an event loop it is deleted at once. *)
Lemma end_deleted_inv w self f fr fr' r :
  manages w self f fr → f_status fr ≠ Done → f_status fr' = Done → TInv w →
  TInv (task_destroy self (MkTWorld (<[f := fr']> (frames w)) (tasks w) (heap w) (posted w) r (misuse w))).
Proof.
  intros (Hos & Hf & Hc) Hnd Hd' Hinv. unfold task_destroy. cbn [tasks]. pose proof Hos as E. unfold owns in E. rewrite E.
  assert (Hnp : self ∉ posted w).
  { intros (g & q & (H1 & H2 & H3) & H4)%(ti_posted w Hinv). assert (g = f) as -> by (unfold owns in *; congruence). simplify_eq. }
  set (fs := MkFrame Suspended (result_ fr) (exception_ fr) (continuation_ fr)).
  assert (Hs : TInv (set_frame f fs w)) by (apply (frame_update_inv w f fr); [done|done|cbn; naive_solver|done]).
  assert (Hr : ∀ g q, Some f = Some g → frames (set_frame f fs w) !! g = Some q → running q = false).
  { intros g q [= <-]. cbn. rewrite lookup_insert_eq. by intros [= <-]. }
  pose proof (task_gone_inv (set_frame f fs w) self (Some f) (posted w) E Hr (ti_once w Hinv) ltac:(cbn; set_solver) Hs) as H.
  cbn in H. rewrite lookup_insert_eq, delete_insert_eq in H. cbn in H.
  cbn. rewrite lookup_insert_eq. cbn. unfold running in *. rewrite Hd', delete_insert_eq. by apply (ran_inv _ r) in H.
Qed.

(** ** Coroutines that await *)

(** A coroutine that a frame will resume is suspended, and no other frame will
    resume it. *)
Definition AwaitOk (F : gmap Z Frame) : Prop :=
  ∀ g fr a, F !! g = Some fr → resumes fr = Some a →
    (∃ fa, F !! a = Some fa ∧ f_status fa = Suspended) ∧
    (∀ g' fr', F !! g' = Some fr' → resumes fr' = Some a → g' = g).

(** Nobody will resume [f]. *)
Definition free (F : gmap Z Frame) (f : Z) : Prop := ∀ g fr, F !! g = Some fr → resumes fr ≠ Some f.

Lemma free_by_status F f : AwaitOk F → (∀ fr, F !! f = Some fr → f_status fr ≠ Suspended) → free F f.
Proof. intros Hok Hs g fr Hg Hr. destruct (Hok g fr f Hg Hr) as [(fa & Ha & Hsus) _]. by apply (Hs fa). Qed.

Lemma await_delete F f : AwaitOk F → free F f → AwaitOk (delete f F).
Proof.
  intros Hok Hfree g fr a [Hne Hg]%lookup_delete_Some Hr. destruct (Hok g fr a Hg Hr) as [(fa & Ha & Hs) Hu]. split.
  - exists fa. split; [|done]. apply lookup_delete_Some. split; [|done]. intros <-. by apply (Hfree g fr).
  - intros g' fr' [_ Hg']%lookup_delete_Some. by apply Hu.
Qed.

(** A frame that nobody will resume changes into one that will resume nobody. *)
Lemma await_plain F f fr : AwaitOk F → free F f → resumes fr = None → AwaitOk (<[f := fr]> F).
Proof.
  intros Hok Hfree Hr g q a Hg Hq. apply lookup_insert_Some in Hg as [[<- <-]|[Hne Hg]]; [congruence|].
  destruct (Hok g q a Hg Hq) as [(fa & Ha & Hs) Hu]. split.
  - exists fa. split; [|done]. apply lookup_insert_Some. right. split; [|done]. intros <-. by apply (Hfree g q).
  - intros g' q' Hg' Hq'. apply lookup_insert_Some in Hg' as [[<- <-]|[_ Hg']]; [congruence|]. by apply (Hu g' q').
Qed.

(** ... or into one that will resume the same as before. *)
Lemma await_same F f fr fr' :
  AwaitOk F → F !! f = Some fr → free F f ∨ f_status fr' = Suspended → resumes fr' = resumes fr → AwaitOk (<[f := fr']> F).
Proof.
  intros Hok Hf Hfree Hr. assert (Hlk : ∀ g q, <[f := fr']> F !! g = Some q → ∃ q0, F !! g = Some q0 ∧ resumes q = resumes q0).
  { intros g q [[<- <-]|[_ Hg]]%lookup_insert_Some; eauto. }
  intros g q a Hg Hq. destruct (Hlk g q Hg) as (q0 & Hg0 & E). rewrite E in Hq.
  destruct (Hok g q0 a Hg0 Hq) as [(fa & Ha & Hs) Hu]. split.
  - destruct (decide (f = a)) as [<-|Hne].
    + exists fr'. rewrite lookup_insert_eq. split; [done|]. destruct Hfree as [Hfree|]; [|done]. by destruct (Hfree g q0 Hg0).
    + exists fa. by rewrite lookup_insert_ne.
  - intros g' q' Hg' Hq'. destruct (Hlk g' q' Hg') as (q0' & Hg0' & E'). apply (Hu g' q0'); [done|congruence].
Qed.

(** A frame that nobody will resume gets to resume [a], which nobody else will. *)
Lemma await_new F f fr a fa :
  AwaitOk F → free F f → free F a → f ≠ a → F !! a = Some fa → f_status fa = Suspended →
  resumes fr = Some a → AwaitOk (<[f := fr]> F).
Proof.
  intros Hok Hf Hfree Hne Ha Hs Hr g q b Hg Hq. apply lookup_insert_Some in Hg as [[<- <-]|[Hfg Hg]].
  - simplify_eq. split; [exists fa; by rewrite lookup_insert_ne|].
    intros g' q' [[<- _]|[_ Hg']]%lookup_insert_Some Hq'; [done|]. by destruct (Hfree g' q').
  - destruct (Hok g q b Hg Hq) as [(fb & Hb & Hsb) Hu]. split.
    + exists fb. rewrite lookup_insert_ne; [done|]. intros <-. by apply (Hf g q).
    + intros g' q' [[<- <-]|[_ Hg']]%lookup_insert_Some Hq'; [|by apply (Hu g' q')].
      assert (a = b) as <- by congruence. by destruct (Hfree g q).
Qed.

Lemma body_end_inv loop f r w : status w f = Some Running → AwaitOk (frames w) → TInv w → TInv (body_end loop f r w).
Proof.
  intros Hst Hok Hinv. unfold body_end, status in *. destruct (frames w !! f) as [fr|] eqn:Hf; [|done]. cbn in Hst. injection Hst as Hs.
  set (fr' := match r with inl v => _ | inr e => _ end).
  assert (Hd : f_status fr' = Done ∧ continuation_ fr' = continuation_ fr) by (unfold fr'; by destruct r). destruct Hd as [Hd Hc'].
  assert (Hplain : (∀ self, continuation_ fr ≠ Some (CDelete self)) → TInv (set_frame f fr' w)).
  { intros H. apply (frame_continue_inv w f fr); [done|done|by rewrite Hc'|done]. }
  unfold final_suspend, deferTaskDeletion. destruct (continuation_ fr) as [[awaiter|c|self]|] eqn:Ec.
  - assert (Hp : resumes fr = Some awaiter) by (unfold resumes; by rewrite Ec, Hs).
    destruct (Hok f fr awaiter Hf Hp) as [(fa & Ha & Hsus) _].
    assert (Hne : f ≠ awaiter) by (intros ->; simplify_eq; congruence).
    unfold resume. cbn. rewrite lookup_insert_ne, Ha by done. unfold resumable. rewrite Hsus.
    apply (frame_update_inv _ awaiter fa); [cbn; by rewrite lookup_insert_ne|done|cbn; rewrite Hsus; by split|].
    apply (ran_inv (set_frame f fr' w)). by apply Hplain.
  - by apply ran_inv, Hplain.
  - destruct (ti_cont w Hinv self f fr Hf Ec) as [_ Hos]. assert (Hman : manages w self f fr) by done.
    destruct loop; [apply (end_posted_inv w self f fr)|apply (end_deleted_inv w self f fr)]; congruence.
  - by apply Hplain.
Qed.

(** A new task over a new frame. *)
Lemma create_inv x f w0 :
  tasks w0 !! x = None → frames w0 !! f = None → TInv w0 → TInv (get_return_object x f w0).
Proof.
  intros Hx Hf Hinv.
  destruct Hinv as [Hm Ha Hu Ho Hh Hct Hn Hp]. unfold get_return_object. set (w' := set_task _ _ _).
  assert (Hown : ∀ z g, owns w' z g ↔ (z = x ∧ g = f) ∨ (z ≠ x ∧ owns w0 z g)).
  { intros z g. unfold owns, w'. cbn. destruct (decide (x = z)) as [<-|]; [rewrite lookup_insert_eq; naive_solver|rewrite lookup_insert_ne by done; naive_solver]. }
  assert (Hno : ∀ z, ¬ owns w0 z f) by (intros z Hz; destruct (Ha z f Hz); congruence).
  assert (Hman : ∀ z g q, manages w' z g q ↔ manages w0 z g q).
  { intros z g q. unfold manages. rewrite Hown. unfold w'. cbn. destruct (decide (f = g)) as [<-|Hfg].
    - rewrite lookup_insert_eq. split; [intros (_ & [= <-] & H); done|]. intros (H & _). by destruct (Hno z).
    - rewrite lookup_insert_ne by done. split; [naive_solver|]. intros (H1 & H2). split; [|done]. right. split; [|done]. intros ->. unfold owns in H1. congruence. }
  split; try done.
  - intros z g [[-> ->]|[_ Hz]]%Hown; cbn; [rewrite lookup_insert_eq; by eexists|]. rewrite lookup_insert_ne by (intros ->; by destruct (Hno z)). by apply (Ha z).
  - intros z1 z2 g [[-> ->]|[? H1]]%Hown [[-> E]|[? H2]]%Hown; [done|by destruct (Hno z2)|subst; by destruct (Hno z1)|by eapply Hu].
  - intros g Hg. cbn in Hg. destruct (decide (f = g)) as [<-|]; [exists x; apply Hown; by left|]. rewrite lookup_insert_ne in Hg by done.
    destruct (Ho g Hg) as [z Hz]. exists z. apply Hown. right. split; [|done]. intros ->. unfold owns in Hz. congruence.
  - intros z Hz. destruct (Hh z Hz) as (g & q & H). exists g, q. by apply Hman.
  - intros z g q Hg Hq. cbn in Hg. apply lookup_insert_Some in Hg as [[<- <-]|[_ Hg]]; [done|]. destruct (Hct z g q Hg Hq) as [H1 H2].
    split; [done|]. apply Hown. right. split; [|done]. intros ->. unfold owns in H2. congruence.
  - intros z. change (posted w') with (posted w0). rewrite Hp. split; intros (g & q & H1 & H2); exists g, q; (split; [by apply Hman|done]).
Qed.

Lemma awaiting_free w f : ¬ awaiting w f → free (frames w) f.
Proof. intros H g fr Hg Hr. apply H. by exists g, fr. Qed.

Lemma status_Some w f st : status w f = Some st → ∃ fr, frames w !! f = Some fr ∧ f_status fr = st.
Proof. unfold status. destruct (frames w !! f) as [fr|]; cbn; [|done]. intros [= <-]. eauto. Qed.

Lemma status_free w f st : AwaitOk (frames w) → status w f = Some st → st ≠ Suspended → free (frames w) f.
Proof. intros Hok (fr & Hf & <-)%status_Some Hs. apply free_by_status; [done|]. intros fr' ?. by simplify_eq. Qed.

Lemma destroy_await h w :
  AwaitOk (frames w) → (∀ f, h = Some f → free (frames w) f) → AwaitOk (frames (destroy_frame h w)).
Proof.
  intros Hok Hfree. unfold destroy_frame. destruct h as [f|]; [|done]. destruct (frames w !! f); [|done].
  apply await_delete; [done|by apply Hfree].
Qed.

Lemma task_destroy_await x w :
  AwaitOk (frames w) → (∀ f, owns w x f → free (frames w) f) → AwaitOk (frames (task_destroy x w)).
Proof.
  intros Hok Hfree. unfold task_destroy. destruct (tasks w !! x) as [h|] eqn:E; [|done]. cbn.
  apply destroy_await; [done|]. intros f ->. by apply Hfree.
Qed.

(** A frame at its beginning is started with a continuation. *)
Lemma start_await f c w :
  AwaitOk (frames w) → status w f = Some Created →
  (∀ a, c = CResume a → f ≠ a ∧ free (frames w) a ∧ status w a = Some Suspended) →
  AwaitOk (frames (resume f (set_continuation f c w))).
Proof.
  intros Hok Hst Hc. pose proof (status_free w f _ Hok Hst ltac:(done)) as Hfree.
  destruct (status_Some w f _ Hst) as (fr & Hf & Hs). unfold set_continuation. rewrite Hf. unfold resume. cbn.
  rewrite lookup_insert_eq. unfold resumable. cbn. rewrite Hs. cbn. rewrite insert_insert_eq.
  destruct c as [a|c|self]; [|by apply await_plain..].
  destruct (Hc a eq_refl) as (Hne & Ha & (fa & Hfa & Hsa)%status_Some). by apply (await_new _ f _ a fa).
Qed.

Lemma await_suspend_await awaiter x f w :
  AwaitOk (frames w) → owns w x f → status w f = Some Created → status w awaiter = Some Running →
  AwaitOk (frames (await_suspend awaiter x w)).
Proof.
  intros Hok Hx Hst Ha. unfold await_suspend. unfold owns in Hx. rewrite Hx.
  pose proof (status_free w awaiter _ Hok Ha ltac:(done)) as Hfree. destruct (status_Some w awaiter _ Ha) as (fa & Hfa & Hsa).
  assert (Hne : f ≠ awaiter) by (intros ->; congruence).
  set (fs := MkFrame Suspended (result_ fa) (exception_ fa) (continuation_ fa)).
  assert (Hb : body_suspend awaiter w = set_frame awaiter fs w) by (unfold body_suspend; by rewrite Hfa).
  assert (Hr : resumes fs = resumes fa) by (unfold resumes; cbn; rewrite Hsa; by destruct (continuation_ fa) as [[]|]).
  rewrite Hb. apply start_await.
  - cbn. by apply (await_same _ awaiter fa); [|..|right|].
  - unfold status. cbn. by rewrite lookup_insert_ne.
  - intros a [= <-]. split_and!; [done| |unfold status; cbn; by rewrite lookup_insert_eq].
    intros g q Hg Hq. cbn in Hg. apply lookup_insert_Some in Hg as [[<- <-]|[_ Hg]]; [|by apply (Hfree g q)].
    rewrite Hr in Hq. by apply (Hfree awaiter fa).
Qed.

Lemma body_end_await loop f r w :
  AwaitOk (frames w) → TInv w → status w f = Some Running → AwaitOk (frames (body_end loop f r w)).
Proof.
  intros Hok Hinv Hst. pose proof (status_free w f _ Hok Hst ltac:(done)) as Hfree.
  destruct (status_Some w f _ Hst) as (fr & Hf & Hs). unfold body_end. rewrite Hf.
  set (fr' := match r with inl v => _ | inr e => _ end).
  assert (Hr' : resumes fr' = None) by (unfold fr', resumes; destruct r; cbn; by destruct (continuation_ fr) as [[]|]).
  assert (Hok' : AwaitOk (<[f := fr']> (frames w))) by by apply await_plain.
  assert (Hfree' : free (<[f := fr']> (frames w)) f).
  { intros g q Hg. apply lookup_insert_Some in Hg as [[<- <-]|[_ Hg]]; [by rewrite Hr'|by apply (Hfree g q)]. }
  unfold final_suspend, deferTaskDeletion. destruct (continuation_ fr) as [[a|c|self]|] eqn:Ec; [|done| |done].
  - assert (Hp : resumes fr = Some a) by (unfold resumes; by rewrite Ec, Hs).
    destruct (Hok f fr a Hf Hp) as [(fa & Ha & Hsus) Hu]. assert (Hne : f ≠ a) by (intros ->; congruence).
    unfold resume. cbn. rewrite lookup_insert_ne, Ha by done. unfold resumable. rewrite Hsus. cbn.
    apply (await_same _ a fa); [done|by rewrite lookup_insert_ne| |].
    + left. intros g q Hg Hq. apply lookup_insert_Some in Hg as [[<- <-]|[Hfg Hg]]; [congruence|]. by apply Hfg; symmetry; apply (Hu g q).
    + unfold resumes. cbn. rewrite Hsus. by destruct (continuation_ fa) as [[]|].
  - destruct loop; [done|]. apply task_destroy_await; [done|]. intros g Hg.
    destruct (ti_cont w Hinv self f fr Hf Ec) as [_ Hos]. unfold owns in *. cbn in Hg. assert (g = f) as -> by congruence. done.
Qed.

Lemma task_step_await loop w w' : task_step loop w w' → TInv w → AwaitOk (frames w) → AwaitOk (frames w').
Proof.
  intros [x f w0 Hx Hf|x w0 Hx Hid|x y w0 Hx Hy|x y w0 Hx Hy Hid|c self x w0 Hx Hself Hst|awaiter x f w0 Hx Hof Hst Ha|f w0 Hst|f w0 Hst Haw|f r w0 Hst|w0] Hinv Hok.
  - cbn. apply await_plain; [done| |done]. apply free_by_status; [done|]. intros fr ?. congruence.
  - apply task_destroy_await; [done|]. intros f Hf. by apply awaiting_free, Hid.
  - unfold task_move_construct. by destruct (tasks w0 !! y).
  - unfold task_move_assign. destruct (x =? y); [done|]. destruct (tasks w0 !! x) as [h|] eqn:Ex; [|done]. destruct (tasks w0 !! y); [|done].
    cbn. apply destroy_await; [done|]. intros f ->. by apply awaiting_free, Hid.
  - unfold start. destruct (tasks w0 !! x) as [[f|]|] eqn:Ex; [|done..]. specialize (Hst f Ex). destruct c as [c|].
    + by apply start_await.
    + unfold task_move_construct. rewrite Ex. by apply start_await.
  - by apply (await_suspend_await awaiter x f).
  - pose proof (status_free w0 f _ Hok Hst ltac:(done)). destruct (status_Some w0 f _ Hst) as (fr & Hf & Hs). unfold body_suspend. rewrite Hf. cbn.
    apply (await_same _ f fr); [done|done|by left|]. unfold resumes. cbn. rewrite Hs. by destruct (continuation_ fr) as [[]|].
  - destruct (status_Some w0 f _ Hst) as (fr & Hf & Hs). unfold resume. rewrite Hf. unfold resumable. rewrite Hs. cbn.
    apply (await_same _ f fr); [done|done|left; by apply awaiting_free|]. unfold resumes. cbn. rewrite Hs. by destruct (continuation_ fr) as [[]|].
  - by apply body_end_await.
  - unfold run_posted. destruct (posted w0) as [|self rest] eqn:Ep; [done|]. apply task_destroy_await; [done|]. intros f Hf.
    assert (Hin : self ∈ posted w0) by (rewrite Ep; left). apply (ti_posted w0 Hinv) in Hin as (g & q & (H1 & H2 & _) & Hd).
    unfold owns in *. cbn in Hf. assert (g = f) as -> by congruence. apply free_by_status; [done|]. intros fr ?. cbn in *. simplify_eq. by rewrite Hd.
Qed.

Lemma task_step_inv loop w w' : task_step loop w w' → AwaitOk (frames w) → TInv w → TInv w'.
Proof.
  intros [x f w0 Hx Hf|x w0 Hx Hid|x y w0 Hx Hy|x y w0 Hx Hy Hid|c self x w0 Hx Hself Hst|awaiter x f w0 Hx Hof Hst Ha|f w0 Hst|f w0 Hst _|f r w0 Hst|w0] Hok Hinv.
  - by apply create_inv.
  - apply task_destroy_inv; [done| |done]. intros f Hf. by apply Hid.
  - unfold task_move_construct. destruct (tasks w0 !! y) as [h|] eqn:Ey; [|done]. apply task_transfer_inv; [congruence|done|done| |done].
    intros f Hf. unfold owns in Hf. congruence.
  - apply task_move_assign_inv; [done|done| |done]. intros f Hf. by apply Hid.
  - destruct (tasks w0 !! x) as [[f|]|] eqn:Ex; [|unfold start; by rewrite Ex..]. destruct c as [c|].
    + unfold start. rewrite Ex. apply (start_frame_inv w0 x); [done|done|by apply Hst|done|done].
    + apply (start_heap_inv w0 self x f); [done|done|done|by apply Hst|done].
  - unfold await_suspend. pose proof Hof as Ex. unfold owns in Ex. rewrite Ex.
    destruct (status_Some w0 awaiter _ Ha) as (fa & Hfa & Hsa). unfold body_suspend. rewrite Hfa.
    apply (start_frame_inv _ x); [done|done| |done|].
    + unfold status. cbn. rewrite lookup_insert_ne; [done|]. intros ->. congruence.
    + apply (frame_update_inv w0 awaiter fa); [done|done|cbn; rewrite Hsa; by split|done].
  - unfold body_suspend, status in *. destruct (frames w0 !! f) as [fr|] eqn:Hf; [|done]. cbn in Hst. injection Hst as Hs.
    apply (frame_update_inv w0 f fr); [done|done| |done]. cbn. rewrite Hs. split; discriminate.
  - unfold resume, status in *. destruct (frames w0 !! f) as [fr|] eqn:Hf; [|done]. cbn in Hst. injection Hst as Hs.
    unfold resumable. rewrite Hs. apply (frame_update_inv w0 f fr); [done|done| |done]. cbn. rewrite Hs. split; discriminate.
  - by apply body_end_inv.
  - by apply run_posted_inv.
Qed.

(** A coroutine that is done has returned or thrown. *)
Definition results_ok (w : TWorld) : Prop :=
  ∀ f fr, frames w !! f = Some fr → f_status fr = Done → is_Some (result_ fr) ∨ is_Some (exception_ fr).

Lemma results_delete w fs ts hp ps rn m : (∀ f fr, fs !! f = Some fr → frames w !! f = Some fr) → results_ok w → results_ok (MkTWorld fs ts hp ps rn m).
Proof. intros H Hok f fr Hf. apply (Hok f), H, Hf. Qed.

Lemma results_set w f fr : (f_status fr = Done → is_Some (result_ fr) ∨ is_Some (exception_ fr)) → results_ok w → results_ok (set_frame f fr w).
Proof. intros H Hok g q Hg. cbn in Hg. apply lookup_insert_Some in Hg as [[<- <-]|[_ Hg]]; [done|]. by apply (Hok g). Qed.

Lemma task_destroy_results x w : results_ok w → results_ok (task_destroy x w).
Proof.
  intros Hok. unfold task_destroy, destroy_frame. destruct (tasks w !! x) as [[f|]|]; [|by apply (results_delete w)|done].
  destruct (frames w !! f); [|by apply (results_delete w)]. apply (results_delete w); [|done]. cbn. by intros g q [_ Hg]%lookup_delete_Some.
Qed.

Lemma resume_results f w : results_ok w → results_ok (resume f w).
Proof. intros Hok. unfold resume. destruct (frames w !! f) as [fr|]; [|done]. destruct (resumable fr); [by apply results_set|done]. Qed.

Lemma continue_results f c w : results_ok w → results_ok (set_continuation f c w).
Proof. intros Hok. unfold set_continuation. destruct (frames w !! f) as [fr|] eqn:Hf; [|done]. apply results_set; [|done]. exact (Hok f fr Hf). Qed.

Lemma suspend_results f w : results_ok w → results_ok (body_suspend f w).
Proof. intros Hok. unfold body_suspend. destruct (frames w !! f); [by apply results_set|done]. Qed.

Lemma task_step_results loop w w' : task_step loop w w' → results_ok w → results_ok w'.
Proof.
  intros [x f w0 Hx Hf|x w0 Hx _|x y w0 Hx Hy|x y w0 Hx Hy _|c self x w0 Hx Hself Hst|awaiter x f w0 Hx Hof Hst Ha|f w0 Hst|f w0 Hst _|f r w0 Hst|w0] Hok.
  - unfold get_return_object. apply (results_delete (set_frame f newFrame w0)); [done|]. by apply results_set.
  - by apply task_destroy_results.
  - unfold task_move_construct. destruct (tasks w0 !! y); [|done]. by apply (results_delete w0).
  - unfold task_move_assign, destroy_frame. repeat case_match; try done; apply (results_delete w0); try done. cbn. by intros g q [_ Hg]%lookup_delete_Some.
  - unfold start. destruct (tasks w0 !! x) as [[f|]|] eqn:Ex; [|done..]. destruct c; apply resume_results, continue_results; [done|].
    unfold task_move_construct. rewrite Ex. by apply (results_delete w0).
  - unfold await_suspend. destruct (tasks w0 !! x) as [[g|]|]; [|done..]. by apply resume_results, continue_results, suspend_results.
  - by apply suspend_results.
  - by apply resume_results.
  - unfold body_end. destruct (frames w0 !! f) as [fr|]; [|done]. unfold final_suspend, deferTaskDeletion.
    assert (H : results_ok (set_frame f match r with inl v => MkFrame Done (Some v) (exception_ fr) (continuation_ fr)
                                        | inr e => MkFrame Done (result_ fr) (Some e) (continuation_ fr) end w0)).
    { apply results_set; [|done]. intros _. destruct r; cbn; [left|right]; by eexists. }
    destruct (continuation_ fr) as [[awaiter|c|self]|]; [apply resume_results; by eapply results_delete; [|exact H]|by eapply results_delete; [|exact H]| |done].
    destruct loop; [by eapply results_delete; [|exact H]|]. apply task_destroy_results. by eapply results_delete; [|exact H].
  - unfold run_posted. destruct (posted w0); [done|]. apply task_destroy_results. by apply (results_delete w0).
Qed.

(** C5: Frames of coroutines are neither leaked, nor destroyed twice, nor resumed
    when they are gone.  In whatever way tasks are created, moved, assigned,
    started, awaited and destroyed, and their coroutines suspend, await each other
    and end: every frame has exactly one owner and every handle a frame, no frame
    is destroyed twice or while it runs, and no coroutine is resumed that is gone
    or not suspended, in particular not by the end of the task it awaits, which is
    the only one that will resume it; a task that was started without a callback
    owns its frame from the heap until its coroutine has ended, and then its
    deletion is posted to the loop exactly once (without a loop it is deleted at
    once); and the result of a coroutine that has ended is defined.  The program
    does not destroy a coroutine while a task that it awaits is still there, as
    the tasks of a frame are destroyed before it. *)
Theorem task_ownership loop w :
  rtc (task_step loop) newTWorld w →
  misuse w = false ∧
  (∀ f, is_Some (frames w !! f) ↔ ∃ x, owns w x f) ∧ (∀ x y f, owns w x f → owns w y f → x = y) ∧
  NoDup (posted w) ∧ (∀ self, self ∈ heap w → ∃ f, owns w self f ∧ (self ∈ posted w ↔ status w f = Some Done)) ∧
  (∀ x f, owns w x f → status w f = Some Done → is_Some (task_result x w)) ∧
  (∀ g fr a, frames w !! g = Some fr → resumes fr = Some a →
     status w a = Some Suspended ∧ ∀ g' fr', frames w !! g' = Some fr' → resumes fr' = Some a → g' = g).
Proof.
  intros Hr. assert (HI : TInv w ∧ AwaitOk (frames w)).
  { refine (rtc_invariant (task_step loop) (λ w, TInv w ∧ AwaitOk (frames w)) newTWorld w _ Hr _).
    - intros w1 w2 Hs [H1 H2]. split; [by eapply task_step_inv|by eapply task_step_await].
    - split; [apply newTWorld_inv|]. intros g fr a Hg. cbn in Hg. by rewrite lookup_empty in Hg. }
  destruct HI as [[Hm Ha Hu Ho Hh Hct Hn Hp] Hok].
  assert (Hres : results_ok w) by (refine (rtc_invariant (task_step loop) results_ok newTWorld w (task_step_results loop) Hr _); done).
  split_and!; try done.
  - intros f. split; [apply Ho|]. intros [x Hx]. by eapply Ha.
  - intros self Hin. destruct (Hh self Hin) as (f & fr & Hman). pose proof Hman as (Hos & Hf & Hc). exists f. split; [done|].
    unfold status. rewrite Hf, Hp. cbn. split.
    + intros (g & q & (H1 & H2 & _) & H4). unfold owns in *. assert (g = f) as -> by congruence. congruence.
    + intros [= Hd]. by exists f, fr.
  - intros x f Hx Hst. unfold status in Hst. destruct (frames w !! f) as [fr|] eqn:Hf; [|done]. cbn in Hst. injection Hst as Hd.
    unfold task_result. unfold owns in Hx. rewrite Hx. cbn. rewrite Hf. cbn.
    destruct (exception_ fr) eqn:Ee; [by eexists|]. destruct (Hres f fr Hf Hd) as [[v Hv]|[e He]]; [rewrite Hv; by eexists|congruence].
  - intros g fr a Hg Hq. destruct (Hok g fr a Hg Hq) as [(fa & Hfa & Hs) Hun]. split; [unfold status; rewrite Hfa; cbn; by rewrite Hs|done].
Qed.

(** The condition matters: coroutine 5 awaits the task of coroutine 6, which
    lives elsewhere; 5 is destroyed, and the end of 6 resumes it. *)
Example awaiter_destroyed_first :
  misuse (body_end true 6 (inl 0) (task_destroy 1 (await_suspend 5 2
    (get_return_object 2 6 (start (Some 9) 9 1 (get_return_object 1 5 newTWorld)))))) = true.
Proof. reflexivity. Qed.

(** A top-level task that has ended and whose deletion is still posted. *)
Definition ended_task : TWorld := body_end true 5 (inl 42) (start None 9 1 (get_return_object 1 5 newTWorld)).

Lemma task_ownership_witness :
  misuse ended_task = false ∧ (∀ self, self ∈ heap ended_task → ∃ f, owns ended_task self f ∧ (self ∈ posted ended_task ↔ status ended_task f = Some Done)) ∧
  posted ended_task = [9] ∧ frames (run_posted ended_task) = ∅.
Proof.
  assert (Hr : rtc (task_step true) newTWorld ended_task).
  { eapply rtc_l; [by apply (T_create true 1 5)|]. eapply rtc_l; [apply (T_start true None 9 1)|]; [set_solver|done| |].
    - intros f Hf. unfold owns in Hf. vm_compute in Hf. injection Hf as <-. done.
    - apply rtc_once. by apply (T_end true 5 (inl 42)). }
  destruct (task_ownership true ended_task Hr) as (H1 & _ & _ & _ & H2 & _). split_and!; [exact H1|exact H2|by vm_compute|by vm_compute].
Defined.
