(* ===== verification/RtControl.v ===== *)
(** * Scheduling and memory controls (src/src/scheduling.cpp, rt_memory.cpp)

    Sleeping until a deadline, the scope that puts a thread under deadline
    scheduling, and the requests for locked and prefaulted memory. *)

From S2P Require Import Prelude.

Definition EINTR : Z := 4.

(** ** Sleeping *)

(** [toTimespec]: C division rounds toward zero, a negative remainder is
    carried. *)
Definition toTimespec (ns : Z) : Z * Z :=
  let sec := Z.quot ns ns_per_s in
  let nsec := Z.rem ns ns_per_s in
  if nsec <? 0 then (sec - 1, nsec + ns_per_s) else (sec, nsec).

(** [nanosleep_until]; each answer is what [clock_nanosleep] returns, and an
    interrupted sleep is resumed with the same deadline.  The deadlines asked
    for are returned too. *)
Fixpoint nanosleep_until (ts : Z * Z) (answers : list Z) : outcome unit * list (Z * Z) :=
  match answers with
  | [] => (Hang, [])
  | rc :: answers' =>
      if rc =? 0 then (Ok tt, [ts])
      else if negb (rc =? EINTR) then (Throw (SystemError rc), [ts])
      else let '(r, asked) := nanosleep_until ts answers' in (r, ts :: asked)
  end.

Definition sleep_until_steady (now deadline : Z) (answers : list Z) : outcome unit * list (Z * Z) :=
  if deadline <=? now then (Ok tt, []) else nanosleep_until (toTimespec deadline) answers.

(** [now] and [now2] are the two clock reads. *)
Definition sleep_for_precise (now now2 duration : Z) (answers : list Z) : outcome unit * list (Z * Z) :=
  sleep_until_steady now2 (now + duration) answers.

(** A negative slack is taken as 0. *)
Definition set_timer_slack (err : Z → Z) (slack : Z) : outcome Z :=
  let ns := if slack <? 0 then 0 else slack in if negb (err ns =? 0) then Throw (SystemError (err ns)) else Ok ns.

(** The time asked for is the deadline, in normal form, for deadlines before the
    epoch too. *)
Lemma toTimespec_spec ns : let '(s, n) := toTimespec ns in 0 <= n < ns_per_s ∧ s * ns_per_s + n = ns.
Proof.
  unfold toTimespec, ns_per_s. pose proof (Z.quot_rem' ns 1000000000) as H. pose proof (Z.rem_bound_abs ns 1000000000 ltac:(lia)) as Hb.
  destruct (Z.ltb_spec (Z.rem ns 1000000000) 0); lia.
Qed.

(** However often it is interrupted, the sleep goes on for the same deadline and
    returns when the system says it is over. *)
Lemma sleep_until_retries now deadline n :
  now < deadline →
  sleep_until_steady now deadline (replicate n EINTR ++ [0]) = (Ok tt, replicate (S n) (toTimespec deadline)).
Proof.
  intros H. unfold sleep_until_steady. rewrite (proj2 (Z.leb_gt _ _)) by done.
  induction n as [|n IH]; [done|]. cbn [replicate app nanosleep_until]. cbn [Z.eqb EINTR Pos.eqb negb]. by rewrite IH.
Qed.

(** ** Scheduling *)

Inductive policy := SCHED_OTHER | SCHED_FIFO | SCHED_RR | SCHED_DEADLINE (runtime deadline period : Z).

(** How a thread is scheduled: its policy and priority. *)
Record Sched := MkSched { sc_policy : policy; sc_priority : Z }.

(** [pthread_setschedparam] cannot set a deadline policy; [err] is another
    reason to fail. *)
Definition setschedparam (err : Z) (s s0 : Sched) : Z * Sched :=
  if negb (err =? 0) then (err, s0)
  else match sc_policy s with SCHED_DEADLINE _ _ _ => (22, s0) | _ => (0, s) end.

Definition set_thread_fifo (err priority : Z) (s0 : Sched) : outcome unit * Sched :=
  let '(rc, s) := setschedparam err (MkSched SCHED_FIFO priority) s0 in
  (if negb (rc =? 0) then Throw (SystemError rc) else Ok tt, s).

Definition set_thread_round_robin (err priority : Z) (s0 : Sched) : outcome unit * Sched :=
  let '(rc, s) := setschedparam err (MkSched SCHED_RR priority) s0 in
  (if negb (rc =? 0) then Throw (SystemError rc) else Ok tt, s).

Record DeadlineConfig := MkDeadline { runtime : Z; deadline : Z; period : Z }.

(** The scope: whether it is active, and the scheduling it found. *)
Record DeadlineScope := MkScope { active_ : bool; prevCaptured_ : bool; prev_ : Sched }.

Definition enter (err : Z) (c : DeadlineConfig) (s : Sched) : outcome DeadlineScope * Sched :=
  if (runtime c <=? 0) || (deadline c <=? 0) || (period c <=? 0) then (Throw InvalidArgument, s)
  else if (runtime c >? deadline c) || (deadline c >? period c) then (Throw InvalidArgument, s)
  else if negb (err =? 0) then (Throw (SystemError err), s)
  else (Ok (MkScope true true s), MkSched (SCHED_DEADLINE (runtime c) (deadline c) (period c)) 0).

(** The destructor; the results of its calls are ignored. *)
Definition leave (err : Z) (d : DeadlineScope) (s : Sched) : Sched :=
  if active_ d then
    if prevCaptured_ d then (setschedparam err (prev_ d) s).2
    else if err =? 0 then MkSched SCHED_OTHER 0 else s
  else s.

(** A deadline scope.  It is entered exactly for positive times in the order
    runtime, deadline, period, if the system agrees; the thread then has these
    parameters, and its previous scheduling when the scope has been left.  When
    it is refused, the scheduling is untouched.  A scope inside another scope
    cannot restore the outer one's parameters. *)
Theorem deadline_scope_restores err c s :
  match enter err c s with
  | (Ok d, s') =>
      0 < runtime c <= deadline c ∧ deadline c <= period c ∧ err = 0 ∧
      s' = MkSched (SCHED_DEADLINE (runtime c) (deadline c) (period c)) 0 ∧
      ((∀ a b p, sc_policy s ≠ SCHED_DEADLINE a b p) → leave 0 d s' = s) ∧
      (∀ a b p, sc_policy s = SCHED_DEADLINE a b p → leave 0 d s' = s')
  | (Throw e, s') => s' = s ∧ (e = InvalidArgument ↔ ¬ (0 < runtime c <= deadline c ∧ deadline c <= period c))
  | (Hang, _) => False
  end.
Proof.
  unfold enter. destruct (_ || _ || _) eqn:E1.
  { split; [done|]. split; [|done]. intros _. apply orb_true_iff in E1 as [[E|E]%orb_true_iff|E]; bool_hyps; lia. }
  bool_hyps. destruct (_ || _) eqn:E2.
  { split; [done|]. split; [|done]. intros _. apply orb_true_iff in E2 as [E|E]; bool_hyps; lia. }
  bool_hyps. destruct (Z.eqb_spec err 0) as [->|He]; cbn [negb].
  - split_and!; try lia; try done; unfold leave, setschedparam; cbn.
    + intros Hs. destruct s as [[] p]; cbn in *; try done. by destruct (Hs runtime0 deadline0 period0).
    + intros a b p ->. done.
  - split; [done|]. split; [done|]. intros H'. exfalso. apply H'. lia.
Qed.

(** ** Memory *)

Record MemoryLockOptions := MkLock { lockCurrent : bool; lockFuture : bool }.

Definition MCL_CURRENT : Z := 1.
Definition MCL_FUTURE : Z := 2.

(** [lockMemory]: the flags given to [mlockall], if it is called. *)
Definition lockMemory (err : Z → Z) (o : MemoryLockOptions) : outcome (option Z) :=
  let flags := Z.lor (if lockCurrent o then MCL_CURRENT else 0) (if lockFuture o then MCL_FUTURE else 0) in
  if flags =? 0 then Ok None else if negb (err flags =? 0) then Throw (SystemError (err flags)) else Ok (Some flags).

Definition unlockMemory (err : Z) : outcome unit := if negb (err =? 0) then Throw (SystemError err) else Ok tt.
Definition adviseWillNeed (err : Z) : outcome unit := if negb (err =? 0) then Throw (SystemError err) else Ok tt.
Definition enableHugePages (err : Z) : outcome unit := if negb (err =? 0) then Throw (SystemError err) else Ok tt.

Definition pageSize (sysconf : Z) : Z := if sysconf >? 0 then sysconf else 4096.

(** The size of the buffer [prefaultStack] allocates: rounded up to pages, in
    [size_t]. *)
Definition prefault_bytes (size bytes : Z) : Z := Z.land (u64 (u64 (bytes + size) - 1)) (Z.lnot (size - 1)).

(** The offsets it writes to. *)
Definition prefaultStack (sysconf bytes : Z) : list Z :=
  if bytes =? 0 then []
  else
    let size := pageSize sysconf in
    let n := prefault_bytes size bytes in
    (λ i, i * size) <$> seqZ 0 ((n + size - 1) / size).

(** [setGuardSize] sets the size in an attribute object of its own and destroys
    it: the result is all there is. *)
Definition setGuardSize (init_err set_err errno : Z) : outcome unit :=
  if negb (init_err =? 0) then Throw (SystemError errno) else if negb (set_err =? 0) then Throw (SystemError errno) else Ok tt.

(** Masking off the low bits rounds down. *)
Lemma land_lnot_round a k : 0 <= k → 0 <= a → Z.land a (Z.lnot (2 ^ k - 1)) = a / 2 ^ k * 2 ^ k.
Proof.
  intros Hk Ha. rewrite <- Z.ldiff_land. replace (2 ^ k - 1) with (Z.ones k) by (rewrite Z.ones_equiv; lia).
  rewrite Z.ldiff_ones_r by done. by rewrite Z.shiftl_mul_pow2, Z.shiftr_div_pow2 by done.
Qed.

(** The pages written to are all the pages of the rounded size, and that is the
    least number of pages that holds what was asked for. *)
Lemma prefault_covers k bytes :
  0 <= k < 64 → 0 < bytes → bytes + 2 ^ k < 2 ^ 64 →
  let n := prefault_bytes (2 ^ k) bytes in
  bytes <= n < bytes + 2 ^ k ∧ (2 ^ k | n) ∧ prefaultStack (2 ^ k) bytes = (λ i, i * 2 ^ k) <$> seqZ 0 (n / 2 ^ k).
Proof.
  intros Hk Hb Hw. cbn zeta. assert (Hp : 0 < 2 ^ k) by (apply Z.pow_pos_nonneg; lia).
  assert (Hn : prefault_bytes (2 ^ k) bytes = (bytes + 2 ^ k - 1) / 2 ^ k * 2 ^ k).
  { unfold prefault_bytes, u64. rewrite !(wrap_small 64) by (rewrite ?(wrap_small 64) by lia; lia). by rewrite land_lnot_round by lia. }
  pose proof (Z.mul_div_le (bytes + 2 ^ k - 1) (2 ^ k) Hp). pose proof (Z.mul_succ_div_gt (bytes + 2 ^ k - 1) (2 ^ k) Hp).
  split_and!; [lia|lia|rewrite Hn; apply Z.divide_factor_r|].
  unfold prefaultStack, pageSize. rewrite (proj2 (Z.eqb_neq _ _)), (proj2 (Z.gtb_lt _ _)) by lia. do 2 f_equal. rewrite Hn.
  set (q := (bytes + 2 ^ k - 1) / 2 ^ k). rewrite Z.div_mul by lia.
  symmetry. apply (Z.div_unique_pos _ _ _ (2 ^ k - 1)); lia.
Qed.
