(* ===== verification/LoopObjects.v ===== *)
(** * Event loop objects (event_loop.cpp, and how both backends are set up)

    [EpollSetup] and [UringSetup] model the constructors and destructors of the
    two backends over the descriptor table and the trace of mapping calls of
    [Descriptors]: every failure on the way is undone, and the destructor undoes
    a successful construction.  [Facade] models the class [EventLoop], which owns
    a backend, forwards to it, and is what the thread's current loop points
    to. *)

From S2P Require Import Prelude Text EpollLoop IoUringLoop Descriptors AsyncTime.

(** ** The epoll backend *)

Module EpollSetup.
(** The descriptors of the object; what an eventfd and an epoll instance are is
    of no concern here, they are the files [f_epoll] and [f_event]. *)
Record Fds := MkFds { epollFd_ : Z; eventFd_ : Z }.

Definition f_epoll : Z := 1001.
Definition f_event : Z := 1002.

(** [ok1], [ok2], [ok3]: whether [epoll_create1], [eventfd] and [epoll_ctl]
    succeed. *)
Definition epoll_construct (ok1 ok2 ok3 : bool) (k : Kernel) : outcome Fds * Kernel :=
  if negb ok1 then (Throw RuntimeError, k)
  else
    let '(ep, k1) := sys_open f_epoll true k in
    if negb ok2 then (Throw RuntimeError, sys_close ep k1)
    else
      let '(ev, k2) := sys_open f_event true k1 in
      if negb ok3 then (Throw RuntimeError, sys_close ep (sys_close ev k2))
      else (Ok (MkFds ep ev), k2).

Definition epoll_destroy (o : Fds) (k : Kernel) : Kernel := close_if (epollFd_ o) (close_if (eventFd_ o) k).

(** Opening and closing again. *)
Lemma close_just_opened f ce k : sys_close (sys_open f ce k).1 (sys_open f ce k).2 = k.
Proof.
  unfold sys_open, sys_close. cbn. pose proof (lowest_free_spec (open_ k)) as (_ & Hn & _).
  rewrite lookup_insert_eq, delete_insert_id by done. by destruct k.
Qed.

Lemma sys_open_range f ce k : 0 <= (sys_open f ce k).1.
Proof. cbn. by apply lowest_free_spec. Qed.

(** A failed construction leaves no trace, and destruction undoes a successful
    one. *)
Lemma epoll_setup_undone ok1 ok2 ok3 k :
  match epoll_construct ok1 ok2 ok3 k with
  | (Ok o, k') => ok1 && ok2 && ok3 = true ∧ epollFd_ o ≠ eventFd_ o ∧ epoll_destroy o k' = k
  | (Throw e, k') => e = RuntimeError ∧ k' = k
  | (Hang, _) => False
  end.
Proof.
  unfold epoll_construct. destruct ok1; [|done]. cbn [negb].
  pose proof (close_just_opened f_epoll true k) as H1. pose proof (sys_open_range f_epoll true k) as R1.
  assert (Hin : is_Some (open_ (sys_open f_epoll true k).2 !! (sys_open f_epoll true k).1)).
  { cbn. rewrite lookup_insert_eq. by eexists. }
  destruct (sys_open f_epoll true k) as [ep k1]. cbn in H1, R1, Hin. destruct ok2; [|done]. cbn [negb].
  pose proof (close_just_opened f_event true k1) as H2. pose proof (sys_open_range f_event true k1) as R2.
  assert (Hne : ep ≠ (sys_open f_event true k1).1).
  { cbn. intros ->. destruct (lowest_free_spec (open_ k1)) as (_ & Hn & _). destruct Hin as [x Hx]. congruence. }
  destruct (sys_open f_event true k1) as [ev k2]. cbn in H2, R2, Hne. destruct ok3; cbn [negb].
  - split_and!; [done..|]. unfold epoll_destroy, close_if. cbn.
    rewrite !(proj2 (Z.geb_le _ _)) by lia. by rewrite H2, H1.
  - by rewrite H2, H1.
Qed.
End EpollSetup.

(** ** The io_uring backend *)

Module UringSetup.
Import EpollSetup.

(** What [io_uring_setup] fills in, as far as the sizes depend on it. *)
Record Params := MkParams { p_sq_entries : Z; p_cq_entries : Z; off_array : Z; off_cqes : Z }.

(** What the system answers: the set-up for a number of entries, the addresses
    of the three mappings, and whether [eventfd] succeeds. *)
Record Answers := MkAnswers {
  a_setup : Z → option Params;
  a_sq : option Z;
  a_sqes : option Z;
  a_cq : option Z;
  a_event : bool
}.

(** The part of [IoUringState] that has to be given back. *)
Record RingFds := MkRingFds {
  ring_fd : Z; sq_ptr : Z; sq_size : Z; sqes_ptr : Z; cq_ptr : Z; cq_size : Z; eventFd : Z
}.

Definition f_ring : Z := 1003.
Definition MAP_SHARED_POPULATE : Z := 32769.
Definition sizeof_sqe : Z := 64.
Definition sizeof_cqe : Z := 16.

(** The requested number of entries, narrowed to the [unsigned] the call
    takes. *)
Definition requested (n : Z) : Z := u32 (if n >? 0 then n else 256).

Definition sq_bytes (p : Params) : Z := u64 (off_array p + p_sq_entries p * 4).
Definition cq_bytes (p : Params) : Z := u64 (off_cqes p + p_cq_entries p * sizeof_cqe).
Definition sqes_bytes (entries : Z) : Z := u64 (entries * sizeof_sqe).

Definition sys_mmap (p n : Z) : Kernel → Kernel := kcall_add (KMmap p n MAP_SHARED_POPULATE).
Definition sys_munmap (p n : Z) : Kernel → Kernel := kcall_add (KMunmap p n).

Definition uring_construct (a : Answers) (n : Z) (k : Kernel) : outcome RingFds * Kernel :=
  match a_setup a (requested n) with
  | None => (Throw RuntimeError, k)
  | Some p =>
      let '(fd, k1) := sys_open f_ring true k in
      match a_sq a with
      | None => (Throw RuntimeError, sys_close fd k1)
      | Some sq =>
          let k2 := sys_mmap sq (sq_bytes p) k1 in
          match a_sqes a with
          | None => (Throw RuntimeError, sys_close fd (sys_munmap sq (sq_bytes p) k2))
          | Some se =>
              let k3 := sys_mmap se (sqes_bytes (p_sq_entries p)) k2 in
              match a_cq a with
              | None =>
                  (Throw RuntimeError,
                   sys_close fd (sys_munmap sq (sq_bytes p) (sys_munmap se (sqes_bytes (p_sq_entries p)) k3)))
              | Some cq =>
                  let k4 := sys_mmap cq (cq_bytes p) k3 in
                  if a_event a then
                    let '(ev, k5) := sys_open f_event true k4 in
                    (Ok (MkRingFds fd sq (sq_bytes p) se cq (cq_bytes p) ev), k5)
                  else
                    (Throw RuntimeError,
                     sys_close fd (sys_munmap sq (sq_bytes p)
                       (sys_munmap se (sqes_bytes (p_sq_entries p)) (sys_munmap cq (cq_bytes p) k4))))
              end
          end
      end
  end.

(** The destructor; [entries] is the number of entries it reads from the
    submission ring. *)
Definition unmap_if (p n : Z) (k : Kernel) : Kernel := if p =? 0 then k else sys_munmap p n k.

Definition uring_destroy (entries : Z) (o : RingFds) (k : Kernel) : Kernel :=
  let k1 := close_if (eventFd o) k in
  let k2 := unmap_if (cq_ptr o) (cq_size o) k1 in
  let k3 := unmap_if (sqes_ptr o) (sqes_bytes entries) k2 in
  let k4 := unmap_if (sq_ptr o) (sq_size o) k3 in
  close_if (ring_fd o) k4.

(** A kernel with more calls in its trace. *)
Definition traced (cs : list kcall) (k : Kernel) : Kernel := MkKernel (open_ k) (misuse k) (calls k ++ cs).

Lemma sys_open_traced f ce cs k : sys_open f ce (traced cs k) = ((sys_open f ce k).1, traced cs (sys_open f ce k).2).
Proof. done. Qed.

Lemma sys_close_traced fd cs k : sys_close fd (traced cs k) = traced cs (sys_close fd k).
Proof. unfold sys_close, traced. cbn. by destruct (open_ k !! fd). Qed.

Lemma kcall_add_traced c k : kcall_add c k = traced [c] k.
Proof. done. Qed.

Lemma traced_traced cs cs' k : traced cs (traced cs' k) = traced (cs' ++ cs) k.
Proof. unfold traced. cbn. by rewrite <- app_assoc. Qed.

Create Rewrite HintDb traced.
#[local] Hint Rewrite kcall_add_traced traced_traced sys_close_traced : traced.

(** The mappings the constructor makes, as long as it gets. *)
Definition fresh_addresses (a : Answers) (k : Kernel) : Prop :=
  NoDup (omap id [a_sq a; a_sqes a; a_cq a]) ∧
  Forall (λ p, 0 < p ∧ mapped (calls k) !! p = None) (omap id [a_sq a; a_sqes a; a_cq a]).

Lemma mapped_app cs cs' :
  mapped (cs ++ cs') = foldl (λ m c, match c with KMmap p n _ => <[p := n]> m | KMunmap p _ => delete p m | _ => m end) (mapped cs) cs'.
Proof. unfold mapped. by rewrite foldl_app. Qed.

(** Mappings that are taken away again, in the reverse order. *)
Lemma unmaps1 (m : gmap Z Z) p n : m !! p = None → delete p (<[p := n]> m) = m.
Proof. intros H. by apply delete_insert_id. Qed.

Lemma unmaps2 (m : gmap Z Z) p q n n' :
  p ≠ q → m !! p = None → m !! q = None → delete p (delete q (<[q := n']> (<[p := n]> m))) = m.
Proof. intros Hpq Hp Hq. rewrite (unmaps1 _ q); [by apply unmaps1|]. by rewrite lookup_insert_ne. Qed.

Lemma unmaps3 (m : gmap Z Z) p q r n n' n'' :
  p ≠ q → p ≠ r → q ≠ r → m !! p = None → m !! q = None → m !! r = None →
  delete p (delete q (delete r (<[r := n'']> (<[q := n']> (<[p := n]> m))))) = m.
Proof.
  intros Hpq Hpr Hqr Hp Hq Hr. rewrite (unmaps1 _ r); [by apply unmaps2|]. by rewrite !lookup_insert_ne by done.
Qed.

(** The end of a failed construction. *)
Lemma failed_undone cs k :
  mapped (calls k ++ cs) = mapped (calls k) →
  open_ (traced cs k) = open_ k ∧ misuse (traced cs k) = misuse k ∧ mapped (calls (traced cs k)) = mapped (calls k).
Proof. done. Qed.

(** What the destructor does to an object in good order. *)
Lemma uring_destroy_traced entries o cs k2 k1 k :
  0 <= ring_fd o → 0 <= eventFd o → 0 < sq_ptr o → 0 < sqes_ptr o → 0 < cq_ptr o →
  sys_close (eventFd o) k2 = k1 → sys_close (ring_fd o) k1 = k →
  uring_destroy entries o (traced cs k2) =
    traced (cs ++ [KMunmap (cq_ptr o) (cq_size o); KMunmap (sqes_ptr o) (sqes_bytes entries); KMunmap (sq_ptr o) (sq_size o)]) k.
Proof.
  intros ????? H2 H1. unfold uring_destroy, close_if, unmap_if, sys_munmap.
  rewrite !(proj2 (Z.geb_le _ _)), !(proj2 (Z.eqb_neq _ _)) by lia.
  autorewrite with traced. rewrite H2, H1. cbn [app]. done.
Qed.

#[local] Ltac addr_facts :=
  match goal with
  | H : NoDup _, H' : Forall _ _ |- _ =>
      cbn in H, H'; rewrite ?NoDup_cons, ?not_elem_of_cons in H; rewrite ?Forall_cons in H'; naive_solver
  end.

(** Construction and destruction: a construction that fails at any step leaves
    the descriptors as they were and nothing mapped; one that succeeds holds two
    descriptors and three mappings, and the destructor closes and unmaps
    exactly these, each with the size it was mapped with. *)
Theorem uring_setup_undone a n k :
  fresh_addresses a k →
  match uring_construct a n k with
  | (Ok o, k') =>
      ∃ p, a_setup a (requested n) = Some p ∧ ring_fd o ≠ eventFd o ∧
        calls k' = calls k ++ [KMmap (sq_ptr o) (sq_size o) MAP_SHARED_POPULATE;
                               KMmap (sqes_ptr o) (sqes_bytes (p_sq_entries p)) MAP_SHARED_POPULATE;
                               KMmap (cq_ptr o) (cq_size o) MAP_SHARED_POPULATE] ∧
        uring_destroy (p_sq_entries p) o k' =
          traced [KMunmap (cq_ptr o) (cq_size o); KMunmap (sqes_ptr o) (sqes_bytes (p_sq_entries p)); KMunmap (sq_ptr o) (sq_size o)]
            (MkKernel (open_ k) (misuse k) (calls k')) ∧
        mapped (calls (uring_destroy (p_sq_entries p) o k')) = mapped (calls k)
  | (Throw e, k') => e = RuntimeError ∧ open_ k' = open_ k ∧ misuse k' = misuse k ∧ mapped (calls k') = mapped (calls k)
  | (Hang, _) => False
  end.
Proof.
  intros [Hnd Hfree]. unfold uring_construct. destruct (a_setup a (requested n)) as [p|]; [|done].
  pose proof (close_just_opened f_ring true k) as H1. pose proof (sys_open_range f_ring true k) as R1.
  assert (Hin : is_Some (open_ (sys_open f_ring true k).2 !! (sys_open f_ring true k).1)) by (cbn; rewrite lookup_insert_eq; by eexists).
  assert (Hc : calls (sys_open f_ring true k).2 = calls k) by done.
  destruct (sys_open f_ring true k) as [fd k1]. cbn in H1, R1, Hin, Hc. unfold sys_mmap, sys_munmap.
  destruct (a_sq a) as [sq|]; [|by rewrite H1].
  destruct (a_sqes a) as [se|].
  2: { split; [done|]. autorewrite with traced. rewrite H1. apply failed_undone. rewrite mapped_app. cbn [foldl]. apply unmaps1; addr_facts. }
  destruct (a_cq a) as [cq|].
  2: { split; [done|]. autorewrite with traced. rewrite H1. apply failed_undone. rewrite mapped_app. cbn [foldl]. apply unmaps2; addr_facts. }
  destruct (a_event a).
  2: { split; [done|]. autorewrite with traced. rewrite H1. apply failed_undone. rewrite mapped_app. cbn [foldl]. apply unmaps3; addr_facts. }
  autorewrite with traced. cbn [app]. rewrite sys_open_traced. exists p.
  pose proof (close_just_opened f_event true k1) as H2. pose proof (sys_open_range f_event true k1) as R2.
  assert (Hne : fd ≠ (sys_open f_event true k1).1).
  { cbn. intros ->. destruct (lowest_free_spec (open_ k1)) as (_ & Hn & _). destruct Hin as [x Hx]. congruence. }
  assert (Hc2 : calls (sys_open f_event true k1).2 = calls k1) by done.
  destruct (sys_open f_event true k1) as [ev k2]. cbn in H2, R2, Hne, Hc2. cbn [fst snd].
  rewrite (uring_destroy_traced _ _ _ k2 k1 k) by (cbn; addr_facts).
  split_and!; [done|done|cbn; by rewrite Hc2, Hc| |].
  - unfold traced. cbn. by rewrite Hc2, Hc, <- app_assoc.
  - cbn [calls traced]. rewrite mapped_app. cbn [foldl]. apply unmaps3; addr_facts.
Qed.

Lemma uring_setup_undone_witness :
  let a := MkAnswers (λ n, Some (MkParams n (2 * n) 64 128)) (Some 4096) (Some 8192) (Some 16384) true in
  let r := uring_construct a 0 (MkKernel ∅ false []) in
  (∃ o, r.1 = Ok o) ∧
  match r.1 with Ok o => mapped (calls (uring_destroy 256 o r.2)) = ∅ | _ => False end.
Proof.
  intros a r. split; [by eexists|].
  assert (Hf : fresh_addresses a (MkKernel ∅ false [])).
  { split; cbn; [by apply (bool_decide_unpack _); vm_compute|]. repeat constructor. }
  pose proof (uring_setup_undone a 0 (MkKernel ∅ false []) Hf) as H. cbn in H.
  destruct H as (p & [= <-] & _ & _ & _ & H). exact H.
Defined.

(** The slots the loop uses lie within the mappings: a masked index into the
    ring's array and into the entries, for rings of 2^b entries. *)
Lemma ring_slots_mapped p b tail :
  0 <= b <= 31 → p_sq_entries p = 2 ^ b → 0 <= off_array p < 2 ^ 32 →
  let i := Z.land tail (2 ^ b - 1) in
  0 <= i ∧ off_array p + 4 * i + 4 <= sq_bytes p ∧ sizeof_sqe * i + sizeof_sqe <= sqes_bytes (p_sq_entries p).
Proof.
  intros Hb He Ho. cbn. rewrite land_mask by lia. pose proof (Z.mod_pos_bound tail (2 ^ b) ltac:(apply Z.pow_pos_nonneg; lia)) as Hm.
  assert (2 ^ b <= 2 ^ 31) by (apply Z.pow_le_mono_r; lia).
  unfold sq_bytes, sqes_bytes, u64, sizeof_sqe. rewrite He, !wrap_small by lia. lia.
Qed.
End UringSetup.

(** ** The interface of the backends *)

(** [class EventLoopImpl].  Its operations, and the timer table that a backend
    keeps.  [None] is a dangling iterator. *)
Class EventLoopImpl (S : Type) := {
  impl_backend : Current.BackendType;
  impl_isRunning : S → bool;
  impl_stop : S → S;
  impl_addFd : bool → Z → Z → Z → S → outcome S;
  impl_modifyFd : bool → Z → Z → S → S;
  impl_removeFd : Z → S → S;
  impl_addTimer : Z → Z → option Z → S → Z * S;
  impl_addPeriodicTimer : Z → Z → option Z → S → Z * S;
  impl_cancelTimer : Z → S → option (bool * S);
  impl_post : option Z → S → S;
  impl_activeFds : S → nat;
  impl_activeTimers : S → nat;
  timers_of : S → EpollLoop
}.

#[export] Instance epoll_impl : EventLoopImpl EpollLoop := {
  impl_backend := Current.Epoll;
  impl_isRunning := running_;
  impl_stop := EpollLoop.stop;
  impl_addFd := addFd;
  impl_modifyFd := modifyFd;
  impl_removeFd := removeFd;
  impl_addTimer := addTimer;
  impl_addPeriodicTimer := addPeriodicTimer;
  impl_cancelTimer := cancelTimer;
  impl_post := post;
  impl_activeFds := activeFds;
  impl_activeTimers := activeTimers;
  timers_of s := s
}.

(** The descriptor operations of the io_uring backend are empty. *)
Definition uring_addFd (fd events callback : Z) (s : IoUringLoop) : outcome IoUringLoop := Ok s.
Definition uring_modifyFd (fd events : Z) (s : IoUringLoop) : IoUringLoop := s.
Definition uring_removeFd (fd : Z) (s : IoUringLoop) : IoUringLoop := s.
Definition uring_activeFds (s : IoUringLoop) : nat := 0.
Definition uring_activeTimers (s : IoUringLoop) : nat := size (timerById_ (core s)).

#[export] Instance uring_impl : EventLoopImpl IoUringLoop := {
  impl_backend := Current.IoUring;
  impl_isRunning s := running_ (core s);
  impl_stop := uring_stop;
  impl_addFd _ := uring_addFd;
  impl_modifyFd _ := uring_modifyFd;
  impl_removeFd := uring_removeFd;
  impl_addTimer := uring_addTimer;
  impl_addPeriodicTimer := uring_addPeriodicTimer;
  impl_cancelTimer := uring_cancelTimer;
  impl_post := uring_post;
  impl_activeFds := uring_activeFds;
  impl_activeTimers := uring_activeTimers;
  timers_of := core
}.

(** What a backend promises: an invariant that gives that of its timer table
    and that every operation keeps. *)
Class EventLoopLaws (S : Type) `{!EventLoopImpl S} := {
  impl_inv : S → Prop;
  inv_timers s : impl_inv s → LoopInv (timers_of s);
  inv_stop s : impl_inv s → impl_inv (impl_stop s);
  inv_addFd ctl fd ev c s s' : impl_inv s → impl_addFd ctl fd ev c s = Ok s' → impl_inv s';
  inv_modifyFd ctl fd ev s : impl_inv s → impl_inv (impl_modifyFd ctl fd ev s);
  inv_removeFd fd s : impl_inv s → impl_inv (impl_removeFd fd s);
  inv_addTimer now d c s : nextTimerId_ (timers_of s) + 1 < 2 ^ 64 → impl_inv s → impl_inv (impl_addTimer now d c s).2;
  inv_addPeriodicTimer now d c s :
    nextTimerId_ (timers_of s) + 1 < 2 ^ 64 → impl_inv s → impl_inv (impl_addPeriodicTimer now d c s).2;
  inv_cancelTimer id s : impl_inv s → ∃ b s', impl_cancelTimer id s = Some (b, s') ∧ impl_inv s';
  inv_post c s : impl_inv s → impl_inv (impl_post c s)
}.

#[export] Instance epoll_laws : EventLoopLaws EpollLoop.
Proof.
  refine {| impl_inv := LoopInv |}; cbn.
  - done.
  - intros s. apply api_step_inv, api_stop.
  - intros ctl fd ev c s s' HI E. eapply api_step_inv; [by eapply api_addFd|done].
  - intros ctl fd ev s. apply api_step_inv, api_modifyFd.
  - intros fd s. apply api_step_inv, api_removeFd.
  - intros now d c s Hn. by apply api_step_inv, api_addTimer.
  - intros now d c s Hn. by apply api_step_inv, api_addPeriodicTimer.
  - apply cancelTimer_inv.
  - intros c s. apply api_step_inv, api_post.
Defined.

#[export] Instance uring_laws : EventLoopLaws IoUringLoop.
Proof.
  refine {| impl_inv := UringInv |}; cbn.
  - by intros s [H _].
  - intros s [H ?]. split; [|done]. by eapply api_step_inv; [apply api_stop|].
  - intros ctl fd ev c s s' H [= <-]. done.
  - done.
  - done.
  - intros now d c s Hn [H ?]. pose proof (api_step_inv _ _ (api_addTimer (core s) now d c Hn) H) as H'.
    unfold uring_addTimer. cbn in H'. destruct (addTimer now d c (core s)). by split.
  - intros now d c s Hn [H ?]. pose proof (api_step_inv _ _ (api_addPeriodicTimer (core s) now d c Hn) H) as H'.
    unfold uring_addPeriodicTimer. cbn in H'. destruct (addPeriodicTimer now d c (core s)). by split.
  - intros id s [H ?]. destruct (cancelTimer_inv id (core s) H) as (b & c & E & Hc).
    exists b, (with_core c s). unfold uring_cancelTimer. rewrite E. cbn. split; [done|by split].
  - intros c s [H ?]. split; [|done]. by eapply api_step_inv; [apply api_post|].
Defined.

(** ** The class EventLoop *)

Module Facade.
(** What [impl_] points to. *)
Inductive impl := EpollImpl (s : EpollLoop) | UringImpl (s : IoUringLoop).

Definition timers (i : impl) : EpollLoop :=
  match i with EpollImpl s => timers_of s | UringImpl s => timers_of s end.

Definition good (i : impl) : Prop := match i with EpollImpl s => impl_inv s | UringImpl s => impl_inv s end.

(** The thread's loop objects by address, with [impl_] ([None] after a move),
    and the thread's current loop. *)
Record World := MkWorld { loops : gmap Z (option impl); gCurrentLoop : option Z }.

Definition set_loop (x : Z) (o : option impl) (w : World) : World := MkWorld (<[x := o]> (loops w)) (gCurrentLoop w).

(** A virtual call, and a method that makes one through [impl_]; [None] is
    undefined behaviour: a null or dead object, or a dangling iterator. *)
Definition virtual {A} (f : ∀ S, EventLoopImpl S → S → option (outcome A * S)) (i : impl) : option (outcome A * impl) :=
  match i with
  | EpollImpl s => '(r, s') ← f _ _ s; Some (r, EpollImpl s')
  | UringImpl s => '(r, s') ← f _ _ s; Some (r, UringImpl s')
  end.

Definition forward {A} (x : Z) (f : ∀ S, EventLoopImpl S → S → option (outcome A * S)) (w : World)
  : option (outcome A * World) :=
  o ← loops w !! x; i ← o; '(r, i') ← virtual f i; Some (r, set_loop x (Some i') w).

(** The constructor, for the backend [createBackend] chooses; [fresh] is the
    ring the system has set up. *)
Definition loop_construct (x : Z) (b : Current.BackendType) (fresh : IoUringLoop) (w : World) : outcome unit * World :=
  match Current.createBackend b with
  | Ok Current.Epoll => (Ok tt, set_loop x (Some (EpollImpl initLoop)) w)
  | Ok _ => (Ok tt, set_loop x (Some (UringImpl fresh)) w)
  | Throw e => (Throw e, w)
  | Hang => (Hang, w)
  end.

Definition loop_destroy (x : Z) (w : World) : World := MkWorld (delete x (loops w)) (Current.destroy x (gCurrentLoop w)).

(** Moves take [impl_] and leave the current loop as it is. *)
Definition loop_move_construct (x y : Z) (w : World) : World :=
  match loops w !! y with Some o => set_loop x o (set_loop y None w) | None => w end.

Definition loop_move_assign (x y : Z) (w : World) : World :=
  if x =? y then w else match loops w !! y with Some o => set_loop x o (set_loop y None w) | None => w end.

Definition facade_stop (x : Z) : World → option (outcome unit * World) :=
  forward x (λ S _ s, Some (Ok tt, impl_stop s)).
Definition facade_isRunning (x : Z) : World → option (outcome bool * World) :=
  forward x (λ S _ s, Some (Ok (impl_isRunning s), s)).
Definition facade_backend (x : Z) : World → option (outcome Current.BackendType * World) :=
  forward x (λ S _ s, Some (Ok (impl_backend (S := S)), s)).
Definition facade_addFd (x : Z) (ctl : bool) (fd ev c : Z) : World → option (outcome unit * World) :=
  forward x (λ S _ s, Some (match impl_addFd ctl fd ev c s with Ok s' => (Ok tt, s') | Throw e => (Throw e, s) | Hang => (Hang, s) end)).
Definition facade_modifyFd (x : Z) (ctl : bool) (fd ev : Z) : World → option (outcome unit * World) :=
  forward x (λ S _ s, Some (Ok tt, impl_modifyFd ctl fd ev s)).
Definition facade_removeFd (x fd : Z) : World → option (outcome unit * World) :=
  forward x (λ S _ s, Some (Ok tt, impl_removeFd fd s)).
Definition facade_addTimer (x now d : Z) (c : option Z) : World → option (outcome Z * World) :=
  forward x (λ S _ s, let '(id, s') := impl_addTimer now d c s in Some (Ok id, s')).
Definition facade_addPeriodicTimer (x now p : Z) (c : option Z) : World → option (outcome Z * World) :=
  forward x (λ S _ s, let '(id, s') := impl_addPeriodicTimer now p c s in Some (Ok id, s')).
Definition facade_cancelTimer (x id : Z) : World → option (outcome bool * World) :=
  forward x (λ S _ s, '(b, s') ← impl_cancelTimer id s; Some (Ok b, s')).
Definition facade_post (x : Z) (c : option Z) : World → option (outcome unit * World) :=
  forward x (λ S _ s, Some (Ok tt, impl_post c s)).
Definition facade_activeFds (x : Z) : World → option (outcome nat * World) :=
  forward x (λ S _ s, Some (Ok (impl_activeFds s), s)).
Definition facade_activeTimers (x : Z) : World → option (outcome nat * World) :=
  forward x (λ S _ s, Some (Ok (impl_activeTimers s), s)).

(** [run] and [runOnce]: the check of the current loop, then the backend's.  An
    exception of the backend, or one a callback lets through, stands as
    [RuntimeError]. *)
Section running.
Context `{!LoopCallbacks} (kernel : kernel_t).

(** What the system answers during a run: the eventfd and the results and clock
    readings of [epoll_wait], and the clock readings of the ring's passes; during
    a single round: one of each. *)
Record turn := MkTurn { t_fd : Z; t_waits : list (epoll_result * Z); t_clocks : list (Z * Z) }.
Record round := MkRound { r_fd : Z; r_wait : epoll_result; r_now1 : Z; r_now2 : Z }.

Definition threw_or {A} (threw : bool) (a : A) : outcome A := if threw then Throw RuntimeError else Ok a.

Definition impl_run (t : turn) (i : impl) : outcome unit * impl :=
  match i with
  | EpollImpl s => let '(s', threw) := run (t_fd t) (t_waits t) s in (threw_or threw tt, EpollImpl s')
  | UringImpl s => let '(s', threw) := uring_run kernel (t_clocks t) s in (threw_or threw tt, UringImpl s')
  end.

Definition impl_runOnce (t : round) (i : impl) : outcome bool * impl :=
  match i with
  | EpollImpl s =>
      let '(b, s', threw) := runOnce (r_fd t) (r_wait t) (r_now1 t) (r_now2 t) s in (threw_or threw b, EpollImpl s')
  | UringImpl s =>
      let '(o, s') := uring_runOnce kernel (r_now1 t) (r_now2 t) s in
      (match o with Some b => Ok b | None => Throw RuntimeError end, UringImpl s')
  end.

Definition facade_run (x : Z) (t : turn) (w : World) : option (outcome unit * World) :=
  o ← loops w !! x;
  match Current.run x (Ok tt) (gCurrentLoop w) with
  | (Ok _, g) => i ← o; let '(r, i') := impl_run t i in Some (r, MkWorld (<[x := Some i']> (loops w)) g)
  | (r, _) => Some (r, w)
  end.

Definition facade_runOnce (x : Z) (t : round) (w : World) : option (outcome bool * World) :=
  o ← loops w !! x;
  match Current.runOnce x (Ok true) (gCurrentLoop w) with
  | (Ok _, g) => i ← o; let '(r, i') := impl_runOnce t i in Some (r, MkWorld (<[x := Some i']> (loops w)) g)
  | (r, _) => Some (r, w)
  end.

(** The methods of an object that act on its backend, and a call of one. *)
Inductive method :=
  | MRun (t : turn) | MRunOnce (t : round) | MStop | MIsRunning | MBackend
  | MAddFd (ctl : bool) (fd ev c : Z) | MModifyFd (ctl : bool) (fd ev : Z) | MRemoveFd (fd : Z)
  | MAddTimer (now d : Z) (c : option Z) | MAddPeriodicTimer (now p : Z) (c : option Z) | MCancelTimer (id : Z)
  | MPost (c : option Z) | MActiveFds | MActiveTimers.

Definition call (x : Z) (m : method) (w : World) : option World :=
  match m with
  | MRun t => snd <$> facade_run x t w
  | MRunOnce t => snd <$> facade_runOnce x t w
  | MStop => snd <$> facade_stop x w
  | MIsRunning => snd <$> facade_isRunning x w
  | MBackend => snd <$> facade_backend x w
  | MAddFd ctl fd ev c => snd <$> facade_addFd x ctl fd ev c w
  | MModifyFd ctl fd ev => snd <$> facade_modifyFd x ctl fd ev w
  | MRemoveFd fd => snd <$> facade_removeFd x fd w
  | MAddTimer now d c => snd <$> facade_addTimer x now d c w
  | MAddPeriodicTimer now p c => snd <$> facade_addPeriodicTimer x now p c w
  | MCancelTimer id => snd <$> facade_cancelTimer x id w
  | MPost c => snd <$> facade_post x c w
  | MActiveFds => snd <$> facade_activeFds x w
  | MActiveTimers => snd <$> facade_activeTimers x w
  end.

(** The 64-bit timer ids are not used up. *)
Definition ids_left (x : Z) (m : method) (w : World) : Prop :=
  match m with
  | MAddTimer _ _ _ | MAddPeriodicTimer _ _ _ => ∀ i, loops w !! x = Some (Some i) → nextTimerId_ (timers i) + 1 < 2 ^ 64
  | _ => True
  end.

(** What a thread does with loop objects.  A method is only called where it is
    defined: on an object that has a backend. *)
Inductive facade_step : relation World :=
  | F_construct x b u w : loops w !! x = None → UringInv u → facade_step w (loop_construct x b u w).2
  | F_destroy x w : facade_step w (loop_destroy x w)
  | F_move x y w : loops w !! x = None → facade_step w (loop_move_construct x y w)
  | F_assign x y w : is_Some (loops w !! x) → facade_step w (loop_move_assign x y w)
  | F_call x m w w' : ids_left x m w → call x m w = Some w' → facade_step w w'.

Definition newWorld : World := MkWorld ∅ None.

(** Backends are in good order, and the current loop is a live object. *)
Definition WorldInv (w : World) : Prop :=
  (∀ x i, loops w !! x = Some (Some i) → good i) ∧
  (∀ x, gCurrentLoop w = Some x → is_Some (loops w !! x)).

Lemma set_loop_inv x o w :
  WorldInv w → (∀ i, o = Some i → good i) → WorldInv (set_loop x o w).
Proof.
  intros [H1 H2] Ho. split; cbn.
  - intros y i. rewrite lookup_insert. case_decide; [intros [= ->]; by apply Ho|apply H1].
  - intros y Hy. rewrite lookup_insert. case_decide; [by eexists|by apply H2].
Qed.

(** A forwarded method keeps the invariant if every backend's method does,
    by its laws; [C] is a condition on the timer table. *)
Lemma forward_inv {A} (C : EpollLoop → Prop) x (f : ∀ S, EventLoopImpl S → S → option (outcome A * S)) w r w' :
  (∀ S (H : EventLoopImpl S) (L : EventLoopLaws S) s r s', C (timers_of s) → impl_inv s → f S H s = Some (r, s') → impl_inv s') →
  (∀ i, loops w !! x = Some (Some i) → C (timers i)) →
  WorldInv w → forward x f w = Some (r, w') → WorldInv w'.
Proof.
  intros Hf HC HI E. unfold forward in E. destruct (loops w !! x) as [[i|]|] eqn:Hx; [|done..]. cbn in E.
  destruct (virtual f i) as [[r0 i']|] eqn:Hv; [|done]. injection E as <- <-.
  apply set_loop_inv; [done|]. intros ? [= <-]. specialize (HC i eq_refl). pose proof (proj1 HI x i Hx) as Hg.
  destruct i as [s|s]; cbn in Hv; destruct (f _ _ s) as [[r1 s']|] eqn:Ef; [|done| |done]; injection Hv as <- <-.
  - exact (Hf _ _ _ s r1 s' HC Hg Ef).
  - exact (Hf _ _ _ s r1 s' HC Hg Ef).
Qed.

Lemma construct_inv x b u w : UringInv u → WorldInv w → WorldInv (loop_construct x b u w).2.
Proof.
  intros Hu HI. unfold loop_construct. destruct (Current.createBackend b) as [[]| |] eqn:E; cbn; try done.
  all: apply set_loop_inv; [done|]; intros i [= <-]; first [exact initLoop_inv|exact Hu].
Qed.

Lemma destroy_inv x w : WorldInv w → WorldInv (loop_destroy x w).
Proof.
  intros [H1 H2]. split; cbn.
  - intros y i [_ Hy]%lookup_delete_Some. by eapply H1.
  - intros y Hy. unfold Current.destroy in Hy. destruct (gCurrentLoop w) as [z|] eqn:Hg; [|done].
    destruct (Z.eqb_spec z x); [done|]. injection Hy as ->. rewrite lookup_delete_ne by done. by apply H2.
Qed.

Lemma moved_inv x y o w : WorldInv w → loops w !! y = Some o → WorldInv (set_loop x o (set_loop y None w)).
Proof.
  intros HI Hy. apply set_loop_inv; [by apply set_loop_inv|]. intros i ->. by eapply HI.
Qed.

Lemma move_construct_inv x y w : WorldInv w → WorldInv (loop_move_construct x y w).
Proof. intros HI. unfold loop_move_construct. destruct (loops w !! y) eqn:E; [by apply moved_inv|done]. Qed.

Lemma impl_run_inv (Hk : KernelOk kernel) t i : good i → good (impl_run t i).2.
Proof.
  destruct i as [s|s]; intros Hg; cbn in *.
  - pose proof (run_inv (t_fd t) (t_waits t) s Hg) as Hg'. by destruct (run _ _ s).
  - pose proof (uring_run_inv kernel Hk (t_clocks t) s Hg) as Hg'. by destruct (uring_run _ _ s).
Qed.

Lemma impl_runOnce_inv (Hk : KernelOk kernel) t i : good i → good (impl_runOnce t i).2.
Proof.
  destruct i as [s|s]; intros Hg; cbn in *.
  - pose proof (runOnce_inv (r_fd t) (r_wait t) (r_now1 t) (r_now2 t) s Hg) as Hg'. by destruct (runOnce _ _ _ _ s) as [[]].
  - pose proof (proj2 (uring_iteration_inv kernel Hk (r_now1 t) (r_now2 t) s Hg)) as Hg'. by destruct (uring_runOnce _ _ _ s).
Qed.

(** A run makes the object current and leaves its backend in good order. *)
Lemma facade_ran_inv x i w : WorldInv w → is_Some (loops w !! x) → good i → WorldInv (MkWorld (<[x := Some i]> (loops w)) (Some x)).
Proof.
  intros HI _ Hi. split; cbn.
  - intros y j. rewrite lookup_insert. case_decide; [by intros [= <-]|apply HI].
  - intros y [= <-]. by rewrite lookup_insert_eq.
Qed.

Lemma current_run x g :
  (Current.run x (Ok tt) g = (Ok tt, Some x) ∧ (∀ y, g = Some y → y = x)) ∨
  (Current.run x (Ok tt) g = (Throw LogicError, g) ∧ ∃ y, g = Some y ∧ y ≠ x).
Proof. unfold Current.run. destruct g as [y|]; [|by left]. destruct (Z.eqb_spec y x); [left|right]; naive_solver. Qed.

Lemma current_runOnce x g :
  (Current.runOnce x (Ok true) g = (Ok true, Some x) ∧ (∀ y, g = Some y → y = x)) ∨
  (Current.runOnce x (Ok true) g = (Throw LogicError, g) ∧ ∃ y, g = Some y ∧ y ≠ x).
Proof. unfold Current.runOnce. destruct g as [y|]; [|by left]. destruct (Z.eqb_spec y x); [left|right]; naive_solver. Qed.

Lemma facade_run_inv (Hk : KernelOk kernel) x t w r w' :
  WorldInv w → facade_run x t w = Some (r, w') → WorldInv w'.
Proof.
  intros HI E. unfold facade_run in E. destruct (loops w !! x) as [o|] eqn:Hx; [|done]. cbn in E.
  destruct (current_run x (gCurrentLoop w)) as [[Er _]|[Er _]]; rewrite Er in E; [|by simplify_eq].
  destruct o as [i|]; [|done]. cbn in E. pose proof (impl_run_inv Hk t i (proj1 HI x i Hx)).
  destruct (impl_run t i) as [r' i']. simplify_eq/=. by apply facade_ran_inv; [|rewrite Hx|].
Qed.

Lemma facade_runOnce_inv (Hk : KernelOk kernel) x t w r w' :
  WorldInv w → facade_runOnce x t w = Some (r, w') → WorldInv w'.
Proof.
  intros HI E. unfold facade_runOnce in E. destruct (loops w !! x) as [o|] eqn:Hx; [|done]. cbn in E.
  destruct (current_runOnce x (gCurrentLoop w)) as [[Er _]|[Er _]]; rewrite Er in E; [|by simplify_eq].
  destruct o as [i|]; [|done]. cbn in E. pose proof (impl_runOnce_inv Hk t i (proj1 HI x i Hx)).
  destruct (impl_runOnce t i) as [r' i']. simplify_eq/=. by apply facade_ran_inv; [|rewrite Hx|].
Qed.

(** A method that is one operation of the backend. *)
#[local] Ltac by_laws HI E :=
  refine (forward_inv (λ _, True) _ _ _ _ _ _ (λ _ _, I) HI E);
  intros S HS HL s r' s' _ Hg Ef.

Lemma facade_call_inv (Hk : KernelOk kernel) x m w w' : ids_left x m w → call x m w = Some w' → WorldInv w → WorldInv w'.
Proof.
  intros Hn E HI. destruct m; cbn in E, Hn; apply fmap_Some in E as ([ret w1] & E & ->); cbn.
  - by eapply facade_run_inv.
  - by eapply facade_runOnce_inv.
  - by_laws HI E. simplify_eq. by apply inv_stop.
  - by_laws HI E. by simplify_eq.
  - by_laws HI E. by simplify_eq.
  - by_laws HI E. destruct (impl_addFd ctl fd ev c s) eqn:Ea; simplify_eq; [by eapply inv_addFd|done..].
  - by_laws HI E. simplify_eq. by apply inv_modifyFd.
  - by_laws HI E. simplify_eq. by apply inv_removeFd.
  - refine (forward_inv (λ t, nextTimerId_ t + 1 < 2 ^ 64) _ _ _ _ _ _ Hn HI E). intros S HS HL s r1 s' Hb Hg Ef.
    pose proof (inv_addTimer now d c s Hb Hg). destruct (impl_addTimer now d c s). by simplify_eq.
  - refine (forward_inv (λ t, nextTimerId_ t + 1 < 2 ^ 64) _ _ _ _ _ _ Hn HI E). intros S HS HL s r1 s' Hb Hg Ef.
    pose proof (inv_addPeriodicTimer now p c s Hb Hg). destruct (impl_addPeriodicTimer now p c s). by simplify_eq.
  - by_laws HI E. destruct (inv_cancelTimer id s Hg) as (b & s1 & Ec & Hs1). rewrite Ec in Ef. by simplify_eq/=.
  - by_laws HI E. simplify_eq. by apply inv_post.
  - by_laws HI E. by simplify_eq.
  - by_laws HI E. by simplify_eq.
Qed.

Lemma facade_step_inv (Hk : KernelOk kernel) w w' : facade_step w w' → WorldInv w → WorldInv w'.
Proof.
  intros Hstep HI. destruct Hstep as [x b u w Hx Hu|x w|x y w Hx|x y w Hx|x m w w' Hn E].
  - by apply construct_inv.
  - by apply destroy_inv.
  - by apply move_construct_inv.
  - unfold loop_move_assign. destruct (x =? y); [done|]. by apply move_construct_inv.
  - by eapply facade_call_inv.
Qed.

(** ** Which calls are defined *)

(** A forwarded method is defined exactly on an object with a backend, if the
    backends' methods are defined. *)
Lemma forward_defined {A} x (f : ∀ S, EventLoopImpl S → S → option (outcome A * S)) w :
  WorldInv w → (∀ S (H : EventLoopImpl S) (L : EventLoopLaws S) s, impl_inv s → is_Some (f S H s)) →
  is_Some (snd <$> forward x f w) ↔ ∃ i, loops w !! x = Some (Some i).
Proof.
  intros HI Hf. unfold forward. rewrite fmap_is_Some. destruct (loops w !! x) as [[i|]|] eqn:Hx; cbn.
  2, 3: split; [by intros []|by intros (? & ?)].
  split; [by eauto|]. intros _. pose proof (proj1 HI x i Hx) as Hg. destruct i as [s|s]; cbn.
  - destruct (Hf _ _ _ s Hg) as [[r s'] E]. rewrite E. by eexists.
  - destruct (Hf _ _ _ s Hg) as [[r s'] E]. rewrite E. by eexists.
Qed.

(** Whether a method is a run of the loop. *)
Definition runs (m : method) : bool := match m with MRun _ | MRunOnce _ => true | _ => false end.

Lemma call_defined x m w :
  WorldInv w → (runs m = true → ∀ y, gCurrentLoop w = Some y → y = x) →
  is_Some (call x m w) ↔ ∃ i, loops w !! x = Some (Some i).
Proof.
  intros HI Hc. destruct m; cbn [call runs] in *.
  3-14: apply forward_defined; [done|]; intros S HS HL s Hg.
  13, 14: by eexists.
  - unfold facade_run. destruct (current_run x (gCurrentLoop w)) as [[-> _]|[_ (y & Hy & Hne)]].
    2: by destruct Hne; apply Hc.
    destruct (loops w !! x) as [[i|]|] eqn:Hx; cbn; [destruct (impl_run t i)|..]; split; naive_solver eauto.
  - unfold facade_runOnce. destruct (current_runOnce x (gCurrentLoop w)) as [[-> _]|[_ (y & Hy & Hne)]].
    2: by destruct Hne; apply Hc.
    destruct (loops w !! x) as [[i|]|] eqn:Hx; cbn; [destruct (impl_runOnce t i)|..]; split; naive_solver eauto.
  - by eexists.
  - by eexists.
  - by eexists.
  - by eexists.
  - by eexists.
  - by eexists.
  - destruct (impl_addTimer now d c s). by eexists.
  - destruct (impl_addPeriodicTimer now p c s). by eexists.
  - destruct (inv_cancelTimer id s Hg) as (b & s' & -> & _). by eexists.
  - by eexists.
Qed.

End running.

(** A loop that ran one round, beside one that was only made. *)
Definition two_loops : World :=
  MkWorld {[1 := Some (EpollImpl initLoop); 2 := Some (EpollImpl initLoop)]} (Some 1).


(** A loop that is moved after it has run: the thread's current loop is still
    the old object, without a backend, and every use of it through [current()]
    is a null pointer; the new object cannot be run. *)
Lemma moved_loop_stays_current x y i t kernel w :
  x ≠ y → loops w !! x = Some (Some i) → loops w !! y = None → gCurrentLoop w = Some x →
  let w' := loop_move_construct y x w in
  gCurrentLoop w' = Some x ∧ (∀ c, facade_post x c w' = None) ∧ (∀ now d c, facade_addTimer x now d c w' = None) ∧
  facade_run kernel y t w' = Some (Throw LogicError, w') ∧ loops w' !! y = Some (Some i).
Proof.
  intros Hxy Hx Hy Hg. cbn. unfold loop_move_construct. rewrite Hx.
  assert (E : loops (set_loop y (Some i) (set_loop x None w)) !! x = Some None).
  { cbn. by rewrite lookup_insert_ne, lookup_insert_eq. }
  unfold facade_post, facade_addTimer, facade_run, forward, Current.run. rewrite E. cbn. rewrite Hg, (proj2 (Z.eqb_neq x y)) by done.
  by rewrite lookup_insert_eq.
Qed.

(** On the io_uring backend a registration is accepted and lost: nothing is
    registered, so that a coroutine that waits for a descriptor is never
    resumed. *)
Lemma uring_registration_lost x ctl fd ev c u w :
  loops w !! x = Some (Some (UringImpl u)) →
  ∃ w', facade_addFd x ctl fd ev c w = Some (Ok tt, w') ∧ loops w' !! x = Some (Some (UringImpl u)) ∧
    (facade_activeFds x w' = Some (Ok 0%nat, w')).
Proof.
  intros Hx. exists (set_loop x (Some (UringImpl u)) w).
  unfold facade_addFd, facade_activeFds, forward, set_loop. rewrite Hx. cbn. rewrite !lookup_insert_eq. cbn.
  by rewrite insert_insert_eq.
Qed.
End Facade.
