(* ===== verification/StreamObjects.v ===== *)
(** * Stream objects (src/include/pman/async/stream.hpp)

    [Stream] models what streams produce; this file models the objects: a stream
    over a channel, and who keeps the objects of a pipeline alive.  Every factory
    and combinator returns a [shared_ptr] to a new object; but a combinator is
    given its source as a [shared_ptr] with an empty deleter, which does not keep
    the source alive, and only [chain] owns its second stream. *)

From S2P Require Import Prelude Channel Stream.

(** ** Streams over channels *)

(** [ChannelStream::next]: [recv] of the channel, by the coroutine [h]; a stream
    that has to wait has nothing to say yet. *)
Record ChannelStream (T : Type) := MkChannelStream { rx_ : ChannelImpl (T := T); reader : Z }.
Arguments MkChannelStream {T}. Arguments rx_ {T}. Arguments reader {T}.

Definition channel_next {T} (s : ChannelStream T) : option (option T * ChannelStream T) :=
  match recv (reader s) (rx_ s) with
  | (Done v, c) => Some (v, MkChannelStream c (reader s))
  | (Suspended, _) => None
  end.

#[export] Instance channel_stream T : Stream (ChannelStream T) T.
Proof. refine {| next _ s := channel_next s |}. done. Defined.

(** A closed channel is a stream of what is left in its buffer, in order. *)
Lemma channel_produces {T} (c : ChannelImpl (T := T)) h :
  closed_ c = true → sendWaiters_ c = [] →
  ∃ c', produces (MkChannelStream c h) (buffer_ c) (MkChannelStream c' h) ∧ buffer_ c' = [] ∧ received c' = received c ++ buffer_ c.
Proof.
  remember (buffer_ c) as b eqn:Eb. revert c Eb. induction b as [|v b IH]; intros c Eb Hc Hs.
  - exists c. split_and!; [|done|by rewrite app_nil_r]. constructor. exists O. cbn.
    unfold channel_next, recv, tryRecv. cbn. by rewrite <- Eb, Hc.
  - set (c1 := pop_front v b c). assert (E1 : c1 = MkChannel (capacity_ c) (closed_ c) b (recvWaiters_ c) (sendWaiters_ c)
      (sent_flags c) (posted c) (accepted c) (received c ++ [v])).
    { unfold c1, pop_front, wakeNextSenderLocked. cbn. by rewrite Hs. }
    destruct (IH c1) as (c' & Hp & Hb & Hr); [by rewrite E1|by rewrite E1|by rewrite E1|].
    exists c'. split_and!; [|done|rewrite Hr, E1; cbn; by rewrite <- app_assoc]. eapply produces_value; [|exact Hp]. exists O. cbn.
    unfold channel_next, recv, tryRecv. cbn. by rewrite <- Eb.
Qed.

(** ** Objects and their owners *)

(** A stream object: its source, to which it has a plain pointer, the stream it
    owns, and the [shared_ptr]s that own it. *)
Record obj := MkObj { source_ : option Z; other_ : option Z; owners : nat }.

Abbreviation heap := (gmap Z obj).

(** A new object at the free address [x], with the [shared_ptr] that is
    returned. *)
Definition make_shared (x : Z) (src other : option Z) (h : heap) : heap := <[x := MkObj src other 1]> h.

Definition share (x : Z) (h : heap) : heap := alter (λ o, MkObj (source_ o) (other_ o) (S (owners o))) x h.

(** [fromVector] and [fromChannel]; [map], [filter], [take], [skip] and
    [takeWhile] of stream [src]; [chain] of two. *)
Definition from (x : Z) : heap → heap := make_shared x None None.
Definition combinator (x src : Z) : heap → heap := make_shared x (Some src) None.
Definition chain (x src other : Z) (h : heap) : heap := make_shared x (Some src) (Some other) (share other h).

(** A [shared_ptr] to [x] goes away: the last one destroys the object and then
    what it owns.  Each level destroys one object, so the size of the heap is
    enough fuel. *)
Fixpoint release_ (fuel : nat) (x : Z) (h : heap) : heap :=
  match fuel, h !! x with
  | S f, Some o =>
      match owners o with
      | S (S n) => <[x := MkObj (source_ o) (other_ o) (S n)]> h
      | _ => match other_ o with Some y => release_ f y (delete x h) | None => delete x h end
      end
  | _, _ => h
  end.

Definition release (x : Z) (h : heap) : heap := release_ (size h) x h.

(** Whether [next] is defined: it goes along the sources, and every object on
    the way has to be alive.  ([chain] also asks the second stream, which it
    owns.) *)
Fixpoint next_defined (fuel : nat) (x : Z) (h : heap) : bool :=
  match fuel with
  | O => false
  | S f =>
      match h !! x with
      | None => false
      | Some o => match source_ o with Some y => next_defined f y h | None => true end
      end
  end.

(** A pipeline: a source at address [x] and a combinator for each of the further
    addresses, each on top of the one before; [pipeline] is the last object. *)
Fixpoint pipeline (x : Z) (xs : list Z) (h : heap) : heap :=
  match xs with [] => h | y :: ys => pipeline y ys (combinator y x h) end.

Definition build (x : Z) (xs : list Z) (h : heap) : heap := pipeline x xs (from x h).

(** The end of the expression that built it: the temporaries, every
    [shared_ptr] but the last one, go away. *)
Definition end_of_expression (xs : list Z) (h : heap) : heap := foldr release h xs.

(** ** Pipelines *)

Definition top (x : Z) (xs : list Z) : Z := default x (last xs).

(** The objects of a pipeline, each with one owner. *)
Fixpoint linked (x : Z) (xs : list Z) (h : heap) : Prop :=
  match xs with [] => True | y :: ys => h !! y = Some (MkObj (Some x) None 1) ∧ linked y ys h end.

Lemma pipeline_other x xs h y : y ∉ xs → pipeline x xs h !! y = h !! y.
Proof.
  revert x h. induction xs as [|z zs IH]; intros x h Hy; [done|]. apply not_elem_of_cons in Hy as [Hz Hy]. cbn.
  rewrite IH by done. by apply lookup_insert_ne.
Qed.

Lemma pipeline_linked x xs h : NoDup xs → linked x xs (pipeline x xs h).
Proof.
  revert x h. induction xs as [|y ys IH]; intros x h Hnd; [done|]. apply NoDup_cons in Hnd as [Hy Hnd]. split.
  - cbn. rewrite pipeline_other by done. apply lookup_insert_eq.
  - by apply IH.
Qed.

Lemma linked_snoc x ys z h : linked x (ys ++ [z]) h ↔ linked x ys h ∧ h !! z = Some (MkObj (Some (top x ys)) None 1).
Proof.
  revert x. induction ys as [|y ys IH]; intros x; cbn [app linked]; [naive_solver|]. rewrite IH.
  assert (top x (y :: ys) = top y ys) as -> by (unfold top; rewrite last_cons; by destruct (last ys)). naive_solver.
Qed.

Lemma linked_elem x xs h y : linked x xs h → y ∈ xs → ∃ s, h !! y = Some (MkObj (Some s) None 1).
Proof.
  revert x. induction xs as [|z zs IH]; intros x Hl Hy; [by apply elem_of_nil in Hy|]. destruct Hl as [Hz Hl].
  apply elem_of_cons in Hy as [->|Hy]; eauto.
Qed.

Lemma build_source x xs h : x ∉ xs → build x xs h !! x = Some (MkObj None None 1).
Proof. intros Hx. unfold build. rewrite pipeline_other by done. apply lookup_insert_eq. Qed.

Lemma top_elem x xs : top x xs ∈ x :: xs.
Proof. unfold top. destruct (last xs) eqn:E; cbn; [apply last_Some_elem_of in E; set_solver|set_solver]. Qed.

(** As long as every object is kept, [next] is defined. *)
Lemma next_defined_linked x xs h :
  h !! x = Some (MkObj None None 1) → linked x xs h → next_defined (S (length xs)) (top x xs) h = true.
Proof.
  intros Hx. induction xs as [|z ys IH] using rev_ind; intros Hl; [cbn; by rewrite Hx|].
  apply linked_snoc in Hl as [Hl Hz]. rewrite length_app, Nat.add_1_r.
  assert (top x (ys ++ [z]) = z) as -> by (unfold top; by rewrite last_snoc).
  cbn [next_defined]. rewrite Hz. cbn. by apply IH.
Qed.

Lemma release_last x s h : h !! x = Some (MkObj s None 1) → release x h = delete x h.
Proof.
  intros Hx. unfold release. destruct (size h) eqn:Hs; [by apply map_size_empty_inv in Hs as ->|]. cbn. by rewrite Hx.
Qed.

Lemma end_of_expression_deletes xs h :
  NoDup xs → Forall (λ x, ∃ s, h !! x = Some (MkObj s None 1)) xs →
  ∀ y, end_of_expression xs h !! y = if decide (y ∈ xs) then None else h !! y.
Proof.
  intros Hnd Hf. induction xs as [|x xs IH]; intros y; [by rewrite decide_False by apply not_elem_of_nil|].
  apply NoDup_cons in Hnd as [Hx Hnd]. apply Forall_cons in Hf as [[s Hs] Hf]. specialize (IH Hnd Hf).
  change (end_of_expression (x :: xs) h) with (release x (end_of_expression xs h)).
  assert (Hx' : end_of_expression xs h !! x = Some (MkObj s None 1)) by (rewrite IH; by rewrite decide_False).
  rewrite (release_last _ _ _ Hx'), lookup_delete. case_decide as Hy; [subst; by rewrite decide_True by set_solver|].
  rewrite IH. destruct (decide (y ∈ xs)); [by rewrite decide_True by set_solver|by rewrite decide_False by set_solver].
Qed.

(** Pipelines.  A pipeline works as long as a [shared_ptr] to each of its
    streams is kept.  Written as one expression, the way the class is documented
    to be used, it keeps only the last stream: when the expression ends its
    source is destroyed, and [next] goes through a dangling pointer. *)
Theorem pipeline_dangles x ys z h :
  NoDup (x :: ys ++ [z]) →
  let built := build x (ys ++ [z]) h in
  let kept := end_of_expression (x :: ys) built in
  next_defined (S (length (ys ++ [z]))) z built = true ∧
  is_Some (kept !! z) ∧ (∀ fuel, next_defined fuel z kept = false) ∧ Forall (λ y, kept !! y = None) (x :: ys).
Proof.
  intros Hnd built kept. pose proof Hnd as Hnd'. rewrite app_comm_cons in Hnd. apply NoDup_app in Hnd as (Hnd & Hz & _).
  apply NoDup_cons in Hnd' as [Hx Hxs].
  assert (Hs : built !! x = Some (MkObj None None 1)) by (by apply build_source).
  assert (Hl : linked x (ys ++ [z]) built) by (by apply pipeline_linked).
  assert (Htop : top x (ys ++ [z]) = z) by (unfold top; by rewrite last_snoc).
  pose proof (next_defined_linked _ _ _ Hs Hl) as Hd. rewrite Htop in Hd.
  apply linked_snoc in Hl as [Hl Hlz].
  assert (Hk : ∀ y, kept !! y = if decide (y ∈ x :: ys) then None else built !! y).
  { apply end_of_expression_deletes; [done|]. apply Forall_cons. split; [by eexists|].
    apply Forall_forall. intros y Hy. destruct (linked_elem _ _ _ _ Hl Hy) as [s ?]. by eexists. }
  assert (Hz' : z ∉ x :: ys) by (intros Hin; apply (Hz z Hin); set_solver).
  clearbody kept. split_and!; [done|rewrite Hk, decide_False by done; by eexists| |].
  - intros [|[|fuel]]; [done| |]; cbn; rewrite (Hk z), decide_False, Hlz by done; cbn; [done|].
    by rewrite Hk, decide_True by apply top_elem.
  - apply Forall_forall. intros y Hy. by rewrite Hk, decide_True.
Qed.

Lemma pipeline_dangles_witness :
  next_defined 4 4 (build 1 [2; 3; 4] ∅) = true ∧ ∀ fuel, next_defined fuel 4 (end_of_expression [1; 2; 3] (build 1 [2; 3; 4] ∅)) = false.
Proof.
  assert (Hnd : NoDup (1 :: [2; 3] ++ [4])) by (apply (bool_decide_unpack _); vm_compute; exact I).
  destruct (pipeline_dangles 1 [2; 3] 4 ∅ Hnd) as (H1 & _ & H3 & _). by split.
Defined.

(** [chain] keeps its second stream alive, not its first. *)
Lemma chain_owns_second x y z h :
  x ≠ y → x ≠ z → y ≠ z → h !! x = None → h !! y = None →
  let h' := release y (release x (chain z x y (from y (from x h)))) in
  h' !! x = None ∧ is_Some (h' !! y).
Proof.
  intros Hxy Hxz Hyz Hx Hy h'. subst h'. unfold chain, share, from, make_shared.
  set (h1 := <[z := _]> _). assert (E1 : h1 !! x = Some (MkObj None None 1)).
  { unfold h1. by rewrite lookup_insert_ne, lookup_alter_ne, lookup_insert_ne, lookup_insert_eq. }
  rewrite (release_last _ _ _ E1).
  assert (E2 : delete x h1 !! y = Some (MkObj None None 2)).
  { unfold h1. by rewrite lookup_delete_ne, lookup_insert_ne, lookup_alter_eq, lookup_insert_eq by done. }
  unfold release. destruct (size (delete x h1)) eqn:Hsz; [apply map_size_empty_inv in Hsz; by rewrite Hsz in E2|].
  cbn. rewrite E2. cbn. split; [by rewrite lookup_insert_ne, lookup_delete_eq by done|rewrite lookup_insert_eq; by eexists].
Qed.
