(* ===== verification/ThreadOwners.v ===== *)
(** * Cancellable and pausable threads as objects
      (src/src/cancellable_thread.cpp, pausable_thread.cpp)

    Both classes hold a [ManagedThread] and a control block shared with the task:
    they make the thread with a token for the block, ask the task to stop when
    they are destroyed or assigned over, and differ in what asking is.  The class
    [Control] is that difference; objects, moves and destruction are modelled
    once over it, on the threads of [Threads]. *)

From S2P Require Import Prelude Text Topology Threads ThreadControl.

(** ** What a control block offers *)

Class Control (C : Type) := {
  new_control : C;
  ask : C → C;
  asked : C → bool;
  asked_new : asked new_control = false;
  ask_asked c : asked (ask c) = true
}.

(** [CancellableThread::cancel] of one caller: the flag, the handlers taken and
    run one by one. *)
Definition cancel_call (s : Cancel.State) : Cancel.State :=
  let k := length (Cancel.cancellers s) in
  Nat.iter (length (Cancel.cleanupHandlers s)) (Cancel.run_next k) (Cancel.take_handlers k (Cancel.cancel s)).

Lemma run_next_cancelled k n s : Cancel.cancelled (Nat.iter n (Cancel.run_next k) s) = Cancel.cancelled s.
Proof. induction n as [|n IH]; [done|]. cbn. unfold Cancel.run_next at 1. by repeat case_match. Qed.

#[export] Instance cancel_control : Control Cancel.State.
Proof.
  refine {| new_control := Cancel.newState; ask := cancel_call; asked := Cancel.cancelled |}; [done|].
  intros c. unfold cancel_call. rewrite run_next_cancelled. unfold Cancel.take_handlers. by repeat case_match.
Defined.

(** [PausableThread::requestStop]. *)
#[export] Instance pause_control : Control Pause.System.
Proof.
  refine {| new_control := Pause.MkSystem false false false true Pause.InTask []; ask := Pause.requestStop;
            asked := Pause.stopRequested |}; [done|].
  intros c. unfold Pause.requestStop, Pause.notify_resume. cbn. by destruct (Pause.task c).
Defined.

(** The task of such a thread: the exception that stops it ends it quietly, any
    other one is the thread's. *)
Definition wrapped_task (stopped : bool) (threw : option exn) : option exn := if stopped then None else threw.

(** ** Objects *)

(** How a thread can be let go: built with [attributes.detached], left by a
    constructor that threw after [pthread_create] (an observer of the Created
    event did), or detached by a call. *)
Inductive straying := BuiltDetached | ObserverThrew | DetachedByCall.

Section owners.
Context {C : Type} `{!Control C}.

(** The managed threads (one inside each object, under its address), the control
    block each object points to ([None] after a move), the blocks, the block
    each thread has a token for, and, kept for the statements, the threads that
    were let go and how. *)
Record OWorld := MkOWorld {
  tw : World;
  held : gmap Z (option Z);
  blocks : gmap Z C;
  token_of : gmap Z Z;
  astray : gmap Z straying
}.

Definition joinable_at (x : Z) (w : World) : bool := match objs w !! x with Some m => joinable_ m | None => false end.

(** [cancel] and [requestStop]: nothing without a block. *)
Definition ask_object (x : Z) (w : OWorld) : OWorld :=
  match held w !! x with
  | Some (Some k) => MkOWorld (tw w) (held w) (alter ask k (blocks w)) (token_of w) (astray w)
  | _ => w
  end.

(** [isCancelled] and [isStopRequested]. *)
Definition is_asked (x : Z) (w : OWorld) : bool :=
  match held w !! x with Some (Some k) => match blocks w !! k with Some c => asked c | None => false end | _ => false end.

(** The constructor, at address [x], with the new thread [t] and block [k]; a
    throw after the thread was made leaves it with its token and no object. *)
Definition owner_construct (topo : SystemTopology) (rc : pcall → Z) (observer_ok : bool) (x t k : Z) (name : text) (task : Z)
  (a : ThreadAttributes) (w : OWorld) : outcome unit * OWorld :=
  match construct topo rc observer_ok x t name (Some task) a (tw w) with
  | (Ok _, w') =>
      (Ok tt, MkOWorld w' (<[x := Some k]> (held w)) (<[k := new_control]> (blocks w)) (<[t := k]> (token_of w))
                (if detached a then <[t := BuiltDetached]> (astray w) else astray w))
  | (r, w') =>
      if decide (is_Some (pthreads w' !! t))
      then (r, MkOWorld w' (held w) (<[k := new_control]> (blocks w)) (<[t := k]> (token_of w)) (<[t := ObserverThrew]> (astray w)))
      else (r, MkOWorld w' (held w) (blocks w) (token_of w) (astray w))
  end.

(** The destructor asks, then the members go; the managed thread detaches. *)
Definition ask_if_running (x : Z) (w : OWorld) : OWorld := if joinable_at x (tw w) then ask_object x w else w.

Definition owner_destroy (x : Z) (w : OWorld) : OWorld :=
  let w1 := ask_if_running x w in MkOWorld (destroy x (tw w1)) (delete x (held w1)) (blocks w1) (token_of w1) (astray w1).

(** Moving takes the thread and the block. *)
Definition move_block (x y : Z) (h : gmap Z (option Z)) : gmap Z (option Z) :=
  match h !! y with Some o => <[x := o]> (<[y := None]> h) | None => h end.

Definition owner_move_construct (x y : Z) (w : OWorld) : OWorld :=
  MkOWorld (move_construct x y (tw w)) (move_block x y (held w)) (blocks w) (token_of w) (astray w).

(** Assignment: the old thread is asked and joined, whatever [join] throws; if
    [pthread_join] fails the managed thread's assignment detaches it. *)
Definition owner_move_assign (rc : Z) (x y : Z) (w : OWorld) : OWorld :=
  if x =? y then w
  else
    let w1 := if joinable_at x (tw w) && match held w !! x with Some (Some _) => true | _ => false end
              then let w' := ask_object x w in MkOWorld (join rc x (tw w')).2 (held w') (blocks w') (token_of w') (astray w')
              else w in
    MkOWorld (move_assign x y (tw w1)) (move_block x y (held w1)) (blocks w1) (token_of w1) (astray w1).

Definition owner_join (rc x : Z) (w : OWorld) : outcome unit * OWorld :=
  let '(r, w') := join rc x (tw w) in (r, MkOWorld w' (held w) (blocks w) (token_of w) (astray w)).

Definition owner_detach (rc x : Z) (w : OWorld) : outcome unit * OWorld :=
  let '(r, w') := detach rc x (tw w) in
  (r, MkOWorld w' (held w) (blocks w) (token_of w)
        (match objs (tw w) !! x with
         | Some m => if joinable_ m && (rc =? 0) then <[thread_ m := DetachedByCall]> (astray w) else astray w
         | None => astray w
         end)).

(** [pthread_join] returns success only for a thread that has ended. *)
Definition join_ok (rc x : Z) (w : World) : Prop :=
  rc = 0 → ∀ m p, objs w !! x = Some m → joinable_ m = true → pthreads w !! thread_ m = Some p → pfinished p = true.

(** A program over such objects. *)
Inductive owner_step : relation OWorld :=
  | O_construct topo rc observer_ok x t k name task a w :
      objs (tw w) !! x = None → pthreads (tw w) !! t = None → token_of w !! t = None → blocks w !! k = None →
      owner_step w (owner_construct topo rc observer_ok x t k name task a w).2
  | O_destroy x w : owner_step w (owner_destroy x w)
  | O_move x y w : objs (tw w) !! x = None → is_Some (objs (tw w) !! y) → owner_step w (owner_move_construct x y w)
  | O_assign rc x y w :
      is_Some (objs (tw w) !! x) → is_Some (objs (tw w) !! y) → join_ok rc x (tw w) → owner_step w (owner_move_assign rc x y w)
  | O_ask x w : owner_step w (ask_object x w)
  | O_join rc x w : join_ok rc x (tw w) → owner_step w (owner_join rc x w).2
  | O_detach rc x w : owner_step w (owner_detach rc x w).2
  | O_end t stopped threw w :
      owner_step w (MkOWorld (entryPoint_end t (wrapped_task stopped threw) (tw w)) (held w) (blocks w) (token_of w) (astray w)).

Definition newOWorld : OWorld := MkOWorld newWorld ∅ ∅ ∅ ∅.

(** ** No thread is left without an owner *)

Definition ended (w : World) (t : Z) : Prop := ∃ p, pthreads w !! t = Some p ∧ pfinished p = true.
Definition told (w : OWorld) (k : Z) : Prop := ∃ c, blocks w !! k = Some c ∧ asked c = true.

(** A thread has ended, has been asked to stop, or belongs to an object that
    can ask it. *)
Definition looked_after (w : OWorld) (t k : Z) : Prop :=
  ended (tw w) t ∨ told w k ∨ ∃ x, owner (tw w) x t ∧ held w !! x = Some (Some k).

(** Nobody can ask: the block is held by no object, and was not asked. *)
Definition out_of_reach (w : OWorld) (k : Z) : Prop := ¬ told w k ∧ ∀ x, held w !! x ≠ Some (Some k).

Record OInv (w : OWorld) : Prop := {
  oi_owned : Owned (dom (astray w)) (tw w);
  oi_held : ∀ x, is_Some (objs (tw w) !! x) ↔ is_Some (held w !! x);
  oi_block : ∀ x k, held w !! x = Some (Some k) → is_Some (blocks w !! k);
  oi_token : ∀ t k, token_of w !! t = Some k → is_Some (blocks w !! k) ∧ (is_Some (astray w !! t) ∨ looked_after w t k);
  oi_lost : ∀ t, astray w !! t = Some ObserverThrew → ∃ k, token_of w !! t = Some k ∧ is_Some (blocks w !! k) ∧ out_of_reach w k
}.

Lemma retire_finished st u w t p : pthreads w !! t = Some p → ∃ q, pthreads (retire st u w) !! t = Some q ∧ pfinished q = pfinished p.
Proof.
  intros Hp. unfold retire. destruct (pthreads w !! u) as [[[] f e]|] eqn:Hu; try by exists p.
  cbn. rewrite lookup_insert. case_decide; [subst; simplify_eq; by eexists|by exists p].
Qed.

Lemma retire_ended st u w t : ended w t → ended (retire st u w) t.
Proof. intros (p & Hp & Hf). destruct (retire_finished st u w t p Hp) as (q & ? & Hq). exists q. split; [done|by rewrite Hq]. Qed.

Lemma ask_object_tw x w : tw (ask_object x w) = tw w ∧ held (ask_object x w) = held w ∧ token_of (ask_object x w) = token_of w ∧
  astray (ask_object x w) = astray w.
Proof. unfold ask_object. by destruct (held w !! x) as [[]|]. Qed.

Lemma ask_object_blocks x w k : is_Some (blocks w !! k) → is_Some (blocks (ask_object x w) !! k).
Proof.
  intros H. unfold ask_object. destruct (held w !! x) as [[j|]|]; [|done..]. cbn. rewrite lookup_alter.
  case_decide; [subst; by apply fmap_is_Some|done].
Qed.

Lemma ask_object_told x w k : told w k → told (ask_object x w) k.
Proof.
  intros (c & Hc & Ha). unfold ask_object. destruct (held w !! x) as [[j|]|]; [|by exists c..].
  unfold told. cbn. rewrite lookup_alter. case_decide; [subst|by exists c]. rewrite Hc. cbn. eexists. split; [done|apply ask_asked].
Qed.

Lemma ask_object_tells x w k : held w !! x = Some (Some k) → is_Some (blocks w !! k) → told (ask_object x w) k.
Proof.
  intros Hx [c Hc]. unfold ask_object. rewrite Hx. unfold told. cbn. rewrite lookup_alter_eq, Hc. cbn.
  eexists. split; [done|apply ask_asked].
Qed.

Lemma ask_object_reach x w k : out_of_reach w k → out_of_reach (ask_object x w) k.
Proof.
  intros [Hn Hh]. destruct (ask_object_tw x w) as (_ & E2 & _). split; [|by rewrite E2]. contradict Hn. destruct Hn as (c & Hc & Ha).
  unfold ask_object in Hc. destruct (held w !! x) as [[j|]|] eqn:Hx; [|by exists c..].
  cbn in Hc. rewrite lookup_alter_ne in Hc; [by exists c|]. intros ->. by destruct (Hh x).
Qed.

Lemma ask_object_inv x w : OInv w → OInv (ask_object x w).
Proof.
  intros [Ho Hh Hb Ht Hl]. destruct (ask_object_tw x w) as (E1 & E2 & E3 & E4).
  split; rewrite ?E1, ?E2, ?E3, ?E4; [done|done| | |].
  - intros y k Hy. by eapply ask_object_blocks, Hb.
  - intros t k Hk. destruct (Ht t k Hk) as [Hbk Hla]. split; [by apply ask_object_blocks|]. destruct Hla as [|Hla]; [by left|right].
    destruct Hla as [|[|Hla]]; [left; by rewrite E1|right; left; by apply ask_object_told|right; right; by rewrite E1, E2].
  - intros t Hlost. destruct (Hl t Hlost) as (k & Hk & Hbk & Hr). exists k. split_and!; [done|by apply ask_object_blocks|].
    by apply ask_object_reach.
Qed.

(** A change of the threads, the objects' blocks and the threads let go under
    which every other thread stays looked after. *)
Lemma change_astray_inv w w' h' A' :
  OInv w → Owned (dom A') w' → (∀ x, is_Some (objs w' !! x) ↔ is_Some (h' !! x)) →
  (∀ x k, h' !! x = Some (Some k) → ∃ y, held w !! y = Some (Some k)) →
  (∀ t, is_Some (astray w !! t) → is_Some (A' !! t)) →
  (∀ t, A' !! t = Some ObserverThrew → astray w !! t = Some ObserverThrew) →
  (∀ t, ended (tw w) t → ended w' t) →
  (∀ x t k, token_of w !! t = Some k → owner (tw w) x t → held w !! x = Some (Some k) →
     is_Some (A' !! t) ∨ ended w' t ∨ told w k ∨ ∃ y, owner w' y t ∧ h' !! y = Some (Some k)) →
  OInv (MkOWorld w' h' (blocks w) (token_of w) A').
Proof.
  intros [Ho Hh Hb Ht Hl] Ho' Hh' Hfrom HA HA' He Hw. split; [done|done| | |]; cbn.
  - intros x k Hx. destruct (Hfrom x k Hx) as [y Hy]. by eapply Hb.
  - intros t k Hk. destruct (Ht t k Hk) as [Hbk Hla]. split; [done|]. destruct Hla as [|Hla]; [left; by apply HA|].
    destruct Hla as [|[|(x & Hx & Hxk)]]; [right; left; by apply He|right; right; by left|]. by apply (Hw x).
  - intros t Hlost. destruct (Hl t (HA' t Hlost)) as (k & Hk & Hbk & Hn & Hr). exists k. split_and!; [done|done|]. split; [done|].
    intros x Hx. destruct (Hfrom x k Hx) as [y Hy]. by destruct (Hr y).
Qed.

Lemma change_inv w w' h' :
  OInv w → Owned (dom (astray w)) w' → (∀ x, is_Some (objs w' !! x) ↔ is_Some (h' !! x)) →
  (∀ x k, h' !! x = Some (Some k) → ∃ y, held w !! y = Some (Some k)) →
  (∀ t, ended (tw w) t → ended w' t) →
  (∀ x t k, token_of w !! t = Some k → owner (tw w) x t → held w !! x = Some (Some k) →
     ended w' t ∨ told w k ∨ ∃ y, owner w' y t ∧ h' !! y = Some (Some k)) →
  OInv (MkOWorld w' h' (blocks w) (token_of w) (astray w)).
Proof. intros HI Ho Hh Hfrom He Hw. apply change_astray_inv; try done. intros x t k H1 H2 H3. right. by eapply Hw. Qed.

Lemma owner_objs w w' x t : objs w' !! x = objs w !! x → owner w x t → owner w' x t.
Proof. intros E (m & Hm & H). exists m. by rewrite E. Qed.

Lemma owner_destroy_inv x w : OInv w → OInv (owner_destroy x w).
Proof.
  intros HI. unfold owner_destroy. set (w1 := ask_if_running x w).
  assert (H1 : OInv w1) by (unfold w1, ask_if_running; case_match; [by apply ask_object_inv|done]).
  assert (Htold : ∀ t k, owner (tw w1) x t → held w1 !! x = Some (Some k) → is_Some (blocks w1 !! k) → told w1 k).
  { unfold w1, ask_if_running. destruct (ask_object_tw x w) as (E1 & E2 & _). destruct (joinable_at x (tw w)) eqn:Hj.
    - rewrite E1, E2. intros t k _ Hk Hb. apply ask_object_tells; [done|]. revert Hb. unfold ask_object. rewrite Hk. cbn.
      rewrite lookup_alter_eq. by intros ?%fmap_is_Some.
    - intros t k (m & Hm & Hjm & _). unfold joinable_at in Hj. rewrite Hm in Hj. congruence. }
  assert (Hobj : objs (destroy x (tw w1)) = delete x (objs (tw w1))).
  { unfold destroy. destruct (objs (tw w1) !! x) as [m|] eqn:Hm; [|by rewrite delete_id].
    cbn. case_match; [by rewrite retire_objs|done]. }
  apply change_inv; [done|apply (world_step_owned _ (tw w1)); [constructor|apply H1]| | | |].
  - intros y. rewrite Hobj. destruct (decide (y = x)) as [->|]; [by rewrite !lookup_delete_eq|].
    rewrite !lookup_delete_ne by done. apply H1.
  - intros y k [_ Hy]%lookup_delete_Some. by exists y.
  - intros t He. unfold destroy. destruct (objs (tw w1) !! x) as [m|]; [|done].
    destruct (started_ m && joinable_ m); [by apply (retire_ended Detached (thread_ m)) in He|done].
  - intros y t k Hk Hy Hyk. destruct (decide (y = x)) as [->|Hne].
    + right; left. eapply Htold; [done..|]. by eapply H1.
    + right; right. exists y. rewrite lookup_delete_ne by done. split; [|done].
      eapply owner_objs; [|done]. by rewrite Hobj, lookup_delete_ne.
Qed.

Lemma join_objs rc x w y : y ≠ x → objs (join rc x w).2 !! y = objs w !! y.
Proof.
  intros Hne. unfold join. destruct (objs w !! x) as [m|]; [|done]. repeat case_match; cbn; try done.
  all: by rewrite lookup_insert_ne, retire_objs.
Qed.

Lemma join_dom rc x w y : is_Some (objs (join rc x w).2 !! y) ↔ is_Some (objs w !! y).
Proof.
  destruct (decide (y = x)) as [->|]; [|by rewrite join_objs]. unfold join.
  destruct (objs w !! x) as [m|] eqn:Hm; cbn; [|by rewrite Hm]. repeat case_match; cbn; rewrite ?Hm, ?lookup_insert_eq; by split.
Qed.

Lemma join_ended rc x w t : ended w t → ended (join rc x w).2 t.
Proof.
  intros He. unfold join. destruct (objs w !! x) as [m|]; [|done]. destruct (negb (joinable_ m)); [done|].
  destruct (negb (rc =? 0)); [done|]. cbn. by apply (retire_ended Joined (thread_ m)) in He.
Qed.

(** After [join] the object has its thread still, or the thread has ended. *)
Lemma join_owner L rc x w t :
  join_ok rc x w → Owned L w → owner w x t → ended (join rc x w).2 t ∨ owner (join rc x w).2 x t.
Proof.
  intros Hrc Ho Hx. pose proof (ow_live _ _ Ho x t Hx) as Hl. unfold status in Hl.
  destruct (pthreads w !! t) as [p|] eqn:Hp; [|done]. destruct Hx as (m & Hm & Hj & Ht & Hrest).
  destruct (Z.eqb_spec rc 0) as [->|Hne].
  - left. apply join_ended. exists p. split; [done|]. eapply (Hrc eq_refl m); [done..|by rewrite Ht].
  - right. unfold join. rewrite Hm, Hj. cbn. rewrite (proj2 (Z.eqb_neq rc 0)) by done. cbn. by exists m.
Qed.

Lemma owner_join_inv rc x w : join_ok rc x (tw w) → OInv w → OInv (owner_join rc x w).2.
Proof.
  intros Hrc HI. unfold owner_join.
  assert (Hw : Owned (dom (astray w)) (join rc x (tw w)).2) by (eapply world_step_owned; [by apply W_join|apply HI]).
  pose proof (join_dom rc x (tw w)) as Hd. pose proof (join_ended rc x (tw w)) as He.
  pose proof (join_objs rc x (tw w)) as Hob. pose proof (λ t, join_owner _ rc x (tw w) t Hrc (oi_owned _ HI)) as Hjo.
  destruct (join rc x (tw w)) as [r w']. cbn in *. apply change_inv; [done|done|intros y; rewrite Hd; apply HI|by eauto|done|].
  intros y t k _ Hy Hyk. destruct (decide (y = x)) as [->|Hne].
  - destruct (Hjo t Hy); [by left|right; right; by exists x].
  - right; right. exists y. split; [|done]. eapply owner_objs; [by apply Hob|done].
Qed.

(** What a move does to objects, owners and ended threads. *)
Lemma move_assign_objs x y m n w :
  x ≠ y → objs w !! x = Some m → objs w !! y = Some n →
  objs (move_assign x y w) = <[y := moved_from n]> (<[x := n]> (objs w)).
Proof.
  intros Hxy Hm Hn. unfold move_assign. rewrite (proj2 (Z.eqb_neq x y)), Hm, Hn by done. cbn.
  case_match; [by rewrite retire_objs|done].
Qed.

Lemma move_assign_ended x y w t : ended w t → ended (move_assign x y w) t.
Proof.
  intros He. unfold move_assign. destruct (x =? y); [done|]. destruct (objs w !! x) as [m|]; [|done].
  destruct (objs w !! y); [|done]. destruct (joinable_ m); [by apply (retire_ended Detached (thread_ m)) in He|done].
Qed.

Lemma move_assign_owner x y w z t :
  x ≠ y → is_Some (objs w !! x) → z ≠ x → owner w z t → owner (move_assign x y w) (if decide (z = y) then x else z) t.
Proof.
  intros Hxy [m Hm] Hzx Hz. destruct (objs w !! y) as [n|] eqn:Hn.
  - destruct Hz as (o & Ho & Hrest). exists o. rewrite (move_assign_objs x y m n) by done. split; [|done]. case_decide as E.
    + subst z. simplify_eq. by rewrite lookup_insert_ne, lookup_insert_eq by done.
    + by rewrite !lookup_insert_ne by done.
  - unfold move_assign. rewrite (proj2 (Z.eqb_neq x y)), Hm, Hn by done. rewrite decide_False; [done|].
    intros ->. destruct Hz as (o & Ho & _). congruence.
Qed.

(** Moving an object, where a thread of the target has ended or was asked. *)
Lemma move_inv x y w w' :
  x ≠ y → OInv (MkOWorld w' (held w) (blocks w) (token_of w) (astray w)) → is_Some (held w !! x) → is_Some (held w !! y) →
  (∀ t k, token_of w !! t = Some k → owner w' x t → held w !! x = Some (Some k) → told w k) →
  OInv (MkOWorld (move_assign x y w') (move_block x y (held w)) (blocks w) (token_of w) (astray w)).
Proof.
  intros Hxy HI Hx [o Hy] Ht. pose proof (oi_held _ HI) as Hh. cbn in Hh.
  destruct (proj2 (Hh x) Hx) as [m Hm]. destruct (proj2 (Hh y) ltac:(by eexists)) as [n Hn].
  assert (Hb : move_block x y (held w) = <[x := o]> (<[y := None]> (held w))) by (unfold move_block; by rewrite Hy).
  apply (change_inv (MkOWorld w' (held w) (blocks w) (token_of w) (astray w))).
  - done.
  - eapply world_step_owned; [apply W_move_assign|apply (oi_owned _ HI)].
  - intros z. rewrite Hb, (move_assign_objs x y m n) by done. rewrite !lookup_insert. specialize (Hh z).
    repeat case_decide; subst; rewrite ?lookup_insert; repeat case_decide; try done; by split.
  - cbn. intros z k. rewrite Hb, !lookup_insert. repeat case_decide; intros E; [exists y; congruence|done|by exists z].
  - cbn. intros t. apply move_assign_ended.
  - cbn. intros z t k Hk Hz Hzk. destruct (decide (z = x)) as [->|Hne]; [right; left; by eapply Ht|].
    right; right. exists (if decide (z = y) then x else z). split; [apply move_assign_owner; [done|by eexists|done|done]|].
    rewrite Hb. case_decide as E; [subst; rewrite lookup_insert_eq; congruence|by rewrite !lookup_insert_ne by done].
Qed.

Lemma owner_move_construct_inv x y w :
  objs (tw w) !! x = None → is_Some (objs (tw w) !! y) → OInv w → OInv (owner_move_construct x y w).
Proof.
  intros Hx Hy HI. unfold owner_move_construct, move_construct.
  assert (Hxy : x ≠ y) by (intros ->; rewrite Hx in Hy; by destruct Hy).
  set (w1 := MkOWorld (set_obj x emptyThread (tw w)) (<[x := None]> (held w)) (blocks w) (token_of w) (astray w)).
  assert (H1 : OInv w1).
  { apply change_inv; [done| | | |done|].
    - eapply world_step_owned; [by apply W_default|apply HI].
    - intros z. cbn. rewrite !lookup_insert. case_decide; [by split|apply HI].
    - intros z k. rewrite lookup_insert. case_decide; [done|by exists z].
    - intros z t k _ Hz Hzk. right; right. exists z. destruct (decide (z = x)) as [->|].
      { destruct Hz as (o & Ho & _). congruence. }
      rewrite lookup_insert_ne by done. split; [|done]. eapply owner_objs; [|done]. cbn. by rewrite lookup_insert_ne. }
  pose proof (move_inv x y w1 (tw w1) Hxy H1) as Hm. cbn in Hm. rewrite lookup_insert_eq, lookup_insert_ne in Hm by done.
  assert (Hb : move_block x y (<[x := None]> (held w)) = move_block x y (held w)).
  { unfold move_block. rewrite lookup_insert_ne by done. destruct (held w !! y) eqn:E.
    - apply map_eq. intros z. rewrite !lookup_insert. by repeat case_decide.
    - exfalso. pose proof (proj1 (oi_held _ HI y) Hy) as [? ?]. congruence. }
  rewrite Hb in Hm. apply Hm; [by eexists|by apply (proj1 (oi_held _ HI y))|by intros t k _ _ [=]].
Qed.

Lemma owner_move_assign_inv rc x y w :
  is_Some (objs (tw w) !! x) → is_Some (objs (tw w) !! y) → join_ok rc x (tw w) → OInv w → OInv (owner_move_assign rc x y w).
Proof.
  intros Hx Hy Hrc HI. unfold owner_move_assign. destruct (Z.eqb_spec x y) as [|Hxy]; [done|].
  pose proof (proj1 (oi_held _ HI x) Hx) as Hhx. pose proof (proj1 (oi_held _ HI y) Hy) as Hhy.
  destruct (joinable_at x (tw w)) eqn:Hj; cbn [andb].
  2: { apply (move_inv x y w (tw w)); [done|by destruct w|done|done|].
       intros t k _ (m & Hm & Hjm & _). unfold joinable_at in Hj. rewrite Hm in Hj. congruence. }
  destruct (held w !! x) as [[k0|]|] eqn:Hk0; [| |by destruct Hhx].
  2: { apply (move_inv x y w (tw w)); [done|by destruct w|by rewrite Hk0|done|]. intros t k _ _. by rewrite Hk0. }
  destruct (ask_object_tw x w) as (E1 & E2 & E3 & E4). pose proof (ask_object_inv x w HI) as Ha.
  assert (Hrc' : join_ok rc x (tw (ask_object x w))) by (by rewrite E1).
  pose proof (owner_join_inv rc x _ Hrc' Ha) as Hji. unfold owner_join in Hji.
  set (wa := ask_object x w) in *. set (wj := (join rc x (tw wa)).2) in *.
  assert (Hjo : OInv (MkOWorld wj (held wa) (blocks wa) (token_of wa) (astray wa))) by (unfold wj; by destruct (join rc x (tw wa))).
  cbn [tw held blocks token_of astray].
  apply (move_inv x y wa wj); [done|done|by rewrite E2, Hk0|by rewrite E2|].
  intros t k Hk _ Hxk. apply ask_object_tells; [congruence|]. eapply (oi_token _ HI t). congruence.
Qed.

Lemma resolve_detached topo a : detached (resolve_affinity topo a) = detached a.
Proof. unfold resolve_affinity. by repeat case_match. Qed.

(** A new block, thread and, if the constructor returned, object. *)
Lemma fresh_inv w w' h' A' t k :
  OInv w → token_of w !! t = None → blocks w !! k = None → Owned (dom A') w' →
  (∀ x, is_Some (objs w' !! x) ↔ is_Some (h' !! x)) →
  (∀ x j, h' !! x = Some (Some j) → (j = k ∧ A' !! t ≠ Some ObserverThrew) ∨ held w !! x = Some (Some j)) →
  (∀ u, u ≠ t → A' !! u = astray w !! u) →
  (∀ u, u ≠ t → pthreads w' !! u = pthreads (tw w) !! u) →
  (∀ x u, owner (tw w) x u → owner w' x u) → (∀ x j, held w !! x = Some j → h' !! x = Some j) →
  (is_Some (A' !! t) ∨ ∃ x, owner w' x t ∧ h' !! x = Some (Some k)) →
  OInv (MkOWorld w' h' (<[k := new_control]> (blocks w)) (<[t := k]> (token_of w)) A').
Proof.
  intros HI Htk Hk Ho Hh Hfrom HA Hp Hown Hheld Hnew.
  assert (Hold : ∀ j, is_Some (blocks w !! j) → is_Some (<[k := new_control]> (blocks w) !! j) ∧ j ≠ k).
  { intros j Hj. assert (j ≠ k) by (intros ->; rewrite Hk in Hj; by destruct Hj). by rewrite lookup_insert_ne. }
  split; cbn; [done|done| | |].
  - intros x j Hx. destruct (Hfrom x j Hx) as [[-> _]|Hx']; [by rewrite lookup_insert_eq|]. by apply Hold, (oi_block _ HI x).
  - intros u j. rewrite lookup_insert. case_decide as E.
    + subst u. intros [= <-]. rewrite lookup_insert_eq. split; [done|]. destruct Hnew as [|Hnew]; [by left|right; right; by right].
    + intros Hj. destruct (oi_token _ HI u j Hj) as [Hb Hl]. destruct (Hold j Hb) as [Hb' Hjk]. split; [done|].
      rewrite HA by done. destruct Hl as [|Hl]; [by left|right].
      destruct Hl as [(p & Hpp & Hf)|[(c & Hc & Hca)|(z & Hz & Hzk)]].
      * left. exists p. cbn. by rewrite Hp.
      * right; left. exists c. cbn. by rewrite lookup_insert_ne by done.
      * right; right. exists z. cbn. auto.
  - intros u Hu. destruct (decide (u = t)) as [->|Hne].
    + exists k. rewrite !lookup_insert_eq. split_and!; [done|done|split].
      * intros (c & Hc & Ha). cbn in Hc. rewrite lookup_insert_eq in Hc. simplify_eq. by rewrite asked_new in Ha.
      * cbn. intros x Hx. destruct (Hfrom x k Hx) as [[_ ?]|Hx']; [done|]. apply (oi_block _ HI) in Hx'. rewrite Hk in Hx'. by destruct Hx'.
    + rewrite HA in Hu by done. destruct (oi_lost _ HI u Hu) as (j & Hj & Hb & Hn & Hr). destruct (Hold j Hb) as [Hb' Hjk].
      exists j. rewrite lookup_insert_ne by done. split_and!; [done|done|split].
      * contradict Hn. destruct Hn as (c & Hc & Ha). cbn in Hc. rewrite lookup_insert_ne in Hc by done. by exists c.
      * cbn. intros x Hx. destruct (Hfrom x j Hx) as [[? _]|Hx']; [done|]. by destruct (Hr x).
Qed.

Lemma Owned_mono L L' w : L ⊆ L' → Owned L w → Owned L' w.
Proof. intros HL [? ? ? ? Ho]. split; [done..|]. intros t Ht. apply Ho. set_solver. Qed.

Lemma owner_construct_inv topo rc observer_ok x t k name task a w :
  objs (tw w) !! x = None → pthreads (tw w) !! t = None → token_of w !! t = None → blocks w !! k = None →
  OInv w → OInv (owner_construct topo rc observer_ok x t k name task a w).2.
Proof.
  intros Hx Ht Htk Hk HI. unfold owner_construct.
  assert (Hnx : held w !! x = None).
  { destruct (held w !! x) eqn:E; [|done]. destruct (proj2 (oi_held _ HI x)) as [? ?]; [by rewrite E|congruence]. }
  assert (Hna : ∀ v, <[t := v]> (astray w) !! t ≠ None) by (intros v; by rewrite lookup_insert_eq).
  pose proof (construct_owned _ topo rc x t name (Some task) a (tw w) Hx Ht (oi_owned _ HI)) as Hw.
  pose proof (construct_leaks _ topo rc x t name (Some task) a (tw w) Ht (oi_owned _ HI)) as Hwl.
  unfold construct in *. rewrite resolve_detached in *.
  destruct (start_calls rc _).1 eqn:Hs; cbn [snd] in *.
  2,3: rewrite decide_False by (rewrite Ht; by intros []); by destruct w.
  destruct observer_ok.
  - apply fresh_inv; [done..| | | | | | | |].
    + eapply Owned_mono; [|exact Hw]. case_match; set_solver.
    + intros z. cbn. rewrite !lookup_insert. case_decide; [by split|apply HI].
    + intros z j. rewrite lookup_insert. case_decide; [intros [= <-]; left|by right]. split; [done|].
      case_match; [by rewrite lookup_insert_eq|]. intros E. destruct (oi_lost _ HI t E) as (? & ? & _). congruence.
    + intros u Hu. case_match; [by rewrite lookup_insert_ne|done].
    + intros u Hu. cbn. by rewrite lookup_insert_ne.
    + intros z u Hz. eapply owner_objs; [|done]. cbn. rewrite lookup_insert_ne; [done|]. intros ->. destruct Hz as (? & ? & _). congruence.
    + intros z j Hz. rewrite lookup_insert_ne; [done|]. congruence.
    + destruct (detached a); [left; by rewrite lookup_insert_eq|right]. exists x. split; [|by rewrite lookup_insert_eq].
      eexists. cbn. by rewrite lookup_insert_eq.
  - cbn [pthreads]. rewrite decide_True by (by rewrite lookup_insert_eq). cbn [snd].
    apply fresh_inv; [done..| | | | | | | |].
    + eapply Owned_mono; [|exact Hwl]. set_solver.
    + apply HI.
    + by right.
    + intros u Hu. by rewrite lookup_insert_ne.
    + intros u Hu. cbn. by rewrite lookup_insert_ne.
    + done.
    + done.
    + left. by rewrite lookup_insert_eq.
Qed.

Lemma owner_detach_inv rc x w : OInv w → OInv (owner_detach rc x w).2.
Proof.
  intros HI. unfold owner_detach. assert (Hw : Owned (dom (astray w)) (detach rc x (tw w)).2)
    by (eapply world_step_owned; [apply W_detach|apply HI]).
  unfold detach in *. destruct (objs (tw w) !! x) as [m|] eqn:Hm; [|by destruct w].
  destruct (joinable_ m) eqn:Hj; cbn [negb andb] in *; [|by destruct w].
  destruct (rc =? 0); cbn [negb snd] in *; [|by destruct w].
  apply change_astray_inv; [done| | | | | | |].
  - eapply Owned_mono; [|exact Hw]. set_solver.
  - intros y. cbn. rewrite retire_objs, lookup_insert. case_decide; [subst; rewrite <-(oi_held _ HI), Hm; by split|apply HI].
  - by eauto.
  - intros t Ht. rewrite lookup_insert. by case_decide.
  - intros t. rewrite lookup_insert. by case_decide.
  - intros t Ht. apply (retire_ended Detached (thread_ m)) in Ht. done.
  - intros y t k _ Hy Hyk. destruct (decide (y = x)) as [->|Hne].
    + left. destruct Hy as (m' & Hm' & _ & <- & _). simplify_eq. by rewrite lookup_insert_eq.
    + right; right; right. exists y. split; [|done]. eapply owner_objs; [|done]. cbn. by rewrite lookup_insert_ne, retire_objs.
Qed.

Lemma owner_step_inv w w' : owner_step w w' → OInv w → OInv w'.
Proof.
  intros Hstep HI. destruct Hstep as [topo rc ok x t k name task a w Hx Ht Htk Hk|x w|x y w Hx Hy|rc x y w Hx Hy Hrc|x w|rc x w Hrc|rc x w|t stopped threw w].
  - by apply owner_construct_inv.
  - by apply owner_destroy_inv.
  - by apply owner_move_construct_inv.
  - by apply owner_move_assign_inv.
  - by apply ask_object_inv.
  - by apply owner_join_inv.
  - by apply owner_detach_inv.
  - assert (Hob : objs (entryPoint_end t (wrapped_task stopped threw) (tw w)) = objs (tw w))
      by (unfold entryPoint_end; by case_match).
    apply change_inv; [done|by apply entryPoint_end_owned, HI| |by eauto| |].
    + intros x. rewrite Hob. apply HI.
    + intros u (p & Hp & Hf). unfold entryPoint_end. destruct (pthreads (tw w) !! t) as [q|] eqn:Hq; [|by exists p].
      unfold ended. cbn. rewrite lookup_insert. case_decide; [by eexists|by exists p].
    + intros x u k _ Hx Hxk. right; right. exists x. split; [|done]. eapply owner_objs; [|done]. by rewrite Hob.
Qed.

(** C36: Cancellable and pausable threads do not run away unless they are let go.
    However their objects are built, moved, assigned over, joined, detached and
    destroyed, with observers that return or throw, no system thread is joined or
    detached twice.  Every thread that has not ended has been asked to stop or
    belongs to an object that can still ask it, except a thread built with
    [attributes.detached], one left by a constructor whose Created observer
    threw, and one detached by a call; nobody has asked or can ask the second
    kind. *)
Theorem no_runaway_thread w :
  rtc owner_step newOWorld w →
  misuse (tw w) = false ∧
  (∀ t k, token_of w !! t = Some k → astray w !! t = None → looked_after w t k) ∧
  (∀ t, astray w !! t = Some ObserverThrew → ∃ k, token_of w !! t = Some k ∧ out_of_reach w k).
Proof.
  intros Hr. assert (HI : OInv w).
  { eapply rtc_invariant; [apply owner_step_inv|done|]. split; [|by intros x; split; intros []|done..].
    split; [done|by intros ? ?|by intros ? ? (? & ? & _)|by intros ? ? ? (? & ? & _)|done]. }
  split_and!; [apply (ow_misuse _ _ (oi_owned _ HI))| |].
  - intros t k Hk Ha. destruct (oi_token _ HI t k Hk) as [_ [Hs|]]; [rewrite Ha in Hs; by destruct Hs|done].
  - intros t Ht. destruct (oi_lost _ HI t Ht) as (k & Hk & _ & Hr'). by exists k.
Qed.

(** A thread is let go only by the calls the names say. *)
Lemma owner_step_astray w w' t :
  owner_step w w' → astray w' !! t ≠ astray w !! t →
  (∃ topo rc ok x k name task a, w' = (owner_construct topo rc ok x t k name task a w).2 ∧
     astray w' !! t = Some (if ok then BuiltDetached else ObserverThrew) ∧ (ok = true → detached a = true)) ∨
  (∃ x m, w' = (owner_detach 0 x w).2 ∧ objs (tw w) !! x = Some m ∧ joinable_ m = true ∧ thread_ m = t).
Proof.
  intros Hstep Hne.
  destruct Hstep as [topo rc ok x u k name task a w Hx Ht Htk Hk|x w|x y w Hx Hy|rc x y w Hx Hy Hrc|x w|rc x w Hrc|rc x w|u stopped threw w].
  - left. unfold owner_construct in Hne |- *. exists topo, rc, ok, x, k, name, task, a.
    unfold construct in *. rewrite resolve_detached in *. destruct (start_calls rc _).1; cbn in *.
    2,3: rewrite decide_False in Hne by (rewrite Ht; by intros []); done.
    destruct ok; cbn in *.
    + destruct (detached a) eqn:Hd; [|done]. destruct (decide (u = t)) as [->|]; [|by rewrite lookup_insert_ne in Hne].
      by rewrite lookup_insert_eq.
    + rewrite decide_True in Hne |- * by (by rewrite lookup_insert_eq). cbn in *.
      destruct (decide (u = t)) as [->|]; [|by rewrite lookup_insert_ne in Hne]. rewrite decide_True by (by rewrite lookup_insert_eq). cbn.
      by rewrite lookup_insert_eq.
  - unfold owner_destroy, ask_if_running in Hne. cbn in Hne. case_match; [|done]. by rewrite (proj2 (proj2 (proj2 (ask_object_tw x w)))) in Hne.
  - done.
  - unfold owner_move_assign in Hne. repeat case_match; cbn in Hne; try done.
    all: by rewrite (proj2 (proj2 (proj2 (ask_object_tw x w)))) in Hne.
  - by rewrite (proj2 (proj2 (proj2 (ask_object_tw x w)))) in Hne.
  - unfold owner_join in Hne. by destruct (join rc x (tw w)).
  - right. unfold owner_detach in Hne. destruct (detach rc x (tw w)) as [r w'] eqn:E. cbn in Hne.
    destruct (objs (tw w) !! x) as [m|] eqn:Hm; [|done]. destruct (Z.eqb_spec rc 0) as [->|]; [|by rewrite andb_false_r in Hne].
    destruct (joinable_ m) eqn:Hj; cbn in Hne; [|done]. exists x, m. split_and!; [done|done|done|].
    destruct (decide (thread_ m = t)); [done|]. by rewrite lookup_insert_ne in Hne.
  - done.
Qed.
End owners.

(** A cancellable thread whose object is destroyed while it runs, beside one
    whose constructor threw after the thread was made. *)
Definition abandoned : OWorld (C := Cancel.State) :=
  owner_destroy 1
    (owner_construct no_topology (λ _, 0) false 2 8 6 [] 7 no_attrs
      (owner_construct no_topology (λ _, 0) true 1 9 5 [] 7 no_attrs newOWorld).2).2.

Lemma no_runaway_thread_witness :
  status (tw abandoned) 9 = Some Detached ∧ misuse (tw abandoned) = false ∧ looked_after abandoned 9 5 ∧
  ∃ k, token_of abandoned !! 8 = Some k ∧ out_of_reach abandoned k.
Proof.
  assert (Hr : rtc owner_step newOWorld abandoned).
  { eapply rtc_l; [by apply (O_construct no_topology (λ _, 0) true 1 9 5 [] 7 no_attrs)|].
    eapply rtc_l; [by apply (O_construct no_topology (λ _, 0) false 2 8 6 [] 7 no_attrs)|]. apply rtc_once, O_destroy. }
  split; [by vm_compute|]. destruct (no_runaway_thread abandoned Hr) as (H1 & H2 & H3).
  split_and!; [exact H1|apply H2; by vm_compute|apply H3; by vm_compute].
Defined.

(** A thread that nobody looks after: it runs, was not asked, and no object is left. *)
Ltac run_away :=
  split; [by vm_compute|]; intros [(p & Hp & Hf)|[(c & Hc & Ha)|(x & Hx & Hxk)]];
  [ vm_compute in Hp; by simplify_eq
  | vm_compute in Hc; injection Hc as <-; change (asked new_control = true) in Ha; by rewrite asked_new in Ha
  | match type of Hxk with held ?w !! _ = _ => assert (held w = ∅) as E by (by vm_compute); by rewrite E, lookup_empty in Hxk end ].

(** Each way of letting a thread go gives up on asking it: its object, when
    destroyed, no longer asks, and the thread is left alone with nobody who
    could. *)
Lemma detached_runs_away {C} `{!Control C} :
  let w := owner_destroy 1 (owner_detach 0 1 (owner_construct (C := C) no_topology (λ _, 0) true 1 9 5 [] 7 no_attrs newOWorld).2).2 in
  token_of w !! 9 = Some 5 ∧ ¬ looked_after w 9 5.
Proof. intros w. run_away. Qed.

Lemma built_detached_runs_away {C} `{!Control C} :
  let w := owner_destroy 1 (owner_construct (C := C) no_topology (λ _, 0) true 1 9 5 [] 7
             (MkAttrs None None None None None None true) newOWorld).2 in
  token_of w !! 9 = Some 5 ∧ ¬ looked_after w 9 5.
Proof. intros w. run_away. Qed.

Lemma observer_throw_runs_away {C} `{!Control C} :
  let r := owner_construct (C := C) no_topology (λ _, 0) false 1 9 5 [] 7 no_attrs newOWorld in
  r.1 = Throw RuntimeError ∧ token_of r.2 !! 9 = Some 5 ∧ ¬ looked_after r.2 9 5.
Proof. intros r. split; [by vm_compute|]. run_away. Qed.
