(* ===== verification/CleanupGuards.v ===== *)
(** * Cleanup guards as objects (src/src/cancellable_thread.cpp)

    [ThreadControl.Cancel] treats a guard as an entry of a list.  In the code it
    is a movable object with an [active_] flag, whose destructor and assignment
    dismiss it.  Programs over guard objects refine the system of
    [ThreadControl.Cancel]: a move is a stutter, and the active objects are the
    guards of that system. *)

From S2P Require Import Prelude ThreadControl.
Import Cancel.

(** The guards of one cancellation state; [handler] is the handler a guard was
    returned for, which the code need not know. *)
Record CleanupGuard := MkGuard { index_ : nat; active_ : bool; handler : Z }.

Record GWorld := MkGWorld { cstate : State; gobjs : gmap Z CleanupGuard; gone : list Z }.

Definition set_guard (x : Z) (g : CleanupGuard) (w : GWorld) : GWorld := MkGWorld (cstate w) (<[x := g]> (gobjs w)) (gone w).

Definition inactive (g : CleanupGuard) : CleanupGuard := MkGuard (index_ g) false (handler g).

(** [onCancel] and the guard it returns: the default one if the handler has been
    run at once. *)
Definition token_onCancel (x h : Z) (w : GWorld) : GWorld :=
  let '(g, s) := onCancel h (cstate w) in
  MkGWorld s (<[x := match g with Some i => MkGuard i true h | None => MkGuard 0 false h end]> (gobjs w)) (gone w).

(** [dismiss] of a guard. *)
Definition guard_dismiss (g : CleanupGuard) (w : GWorld) : GWorld :=
  if active_ g then MkGWorld (dismiss (index_ g) (cstate w)) (gobjs w) (handler g :: gone w) else w.

Definition dismiss_at (x : Z) (w : GWorld) : GWorld :=
  match gobjs w !! x with Some g => set_guard x (inactive g) (guard_dismiss g w) | None => w end.

Definition guard_destroy (x : Z) (w : GWorld) : GWorld :=
  let w1 := dismiss_at x w in MkGWorld (cstate w1) (delete x (gobjs w1)) (gone w1).

Definition guard_move_construct (x y : Z) (w : GWorld) : GWorld :=
  match gobjs w !! y with Some g => set_guard x g (set_guard y (inactive g) w) | None => w end.

Definition guard_move_assign (x y : Z) (w : GWorld) : GWorld :=
  if x =? y then w else guard_move_construct x y (dismiss_at x w).

Inductive guard_step : relation GWorld :=
  | G_onCancel x h w : gobjs w !! x = None → h ∉ registered (cstate w) → guard_step w (token_onCancel x h w)
  | G_dismiss x w : guard_step w (dismiss_at x w)
  | G_destroy x w : guard_step w (guard_destroy x w)
  | G_move x y w : gobjs w !! x = None → guard_step w (guard_move_construct x y w)
  | G_assign x y w : is_Some (gobjs w !! x) → guard_step w (guard_move_assign x y w)
  | G_cancel w : guard_step w (MkGWorld (cancel (cstate w)) (gobjs w) (gone w))
  | G_take k w : guard_step w (MkGWorld (take_handlers k (cstate w)) (gobjs w) (gone w))
  | G_run k w : guard_step w (MkGWorld (run_next k (cstate w)) (gobjs w) (gone w)).

(** ** The refinement *)

Definition active_pair (g : CleanupGuard) : option (nat * Z) := if active_ g then Some (index_ g, handler g) else None.

(** The guards that are active. *)
Definition actives (m : gmap Z CleanupGuard) : list (nat * Z) := omap (λ p, active_pair p.2) (map_to_list m).

Lemma guards_insert x g m : m !! x = None → actives (<[x := g]> m) ≡ₚ option_list (active_pair g) ++ actives m.
Proof. intros Hx. unfold actives. rewrite map_to_list_insert by done. cbn. by destruct (active_pair g). Qed.

Lemma actives_delete x g m : m !! x = Some g → actives m ≡ₚ option_list (active_pair g) ++ actives (delete x m).
Proof. intros Hx. rewrite <- (insert_delete_id m x g Hx) at 1. by apply guards_insert, lookup_delete_eq. Qed.

Lemma actives_replace x g g' m :
  m !! x = Some g → actives (<[x := g']> m) ≡ₚ option_list (active_pair g') ++ actives (delete x m).
Proof. intros Hx. rewrite <- insert_delete_eq. by apply guards_insert, lookup_delete_eq. Qed.

(** A system of [ThreadControl.Cancel] in the same state, whose guards are the
    active objects. *)
Definition implements (w : GWorld) (y : System) : Prop :=
  st y = cstate w ∧ guards y ≡ₚ actives (gobjs w) ∧ dropped y = gone w.

(** Replacing inactive objects, or moving one, changes nothing. *)
Lemma implements_perm w m y : implements w y → actives m ≡ₚ actives (gobjs w) → implements (MkGWorld (cstate w) m (gone w)) y.
Proof. intros (H1 & H2 & H3) Hm. split_and!; [done|cbn; by rewrite Hm|done]. Qed.

Lemma dismiss_refines x w y : implements w y → ∃ y', rtc step y y' ∧ implements (dismiss_at x w) y'.
Proof.
  intros HI. unfold dismiss_at, guard_dismiss. destruct (gobjs w !! x) as [g|] eqn:Hx; [|exists y; by split].
  pose proof (actives_replace x g (inactive g) _ Hx) as Hr. pose proof (actives_delete x g _ Hx) as Hd.
  unfold active_pair in Hr, Hd. cbn in Hr. destruct (active_ g) eqn:Ha.
  - destruct HI as (H1 & H2 & H3). rewrite Hd in H2. cbn in H2. destruct y as [s gs ds]. cbn in *. subst s ds.
    assert (Hin : (index_ g, handler g) ∈ gs) by (rewrite H2; apply list_elem_of_here).
    apply list_elem_of_split in Hin as (gs1 & gs2 & ->).
    exists (MkSystem (dismiss (index_ g) (cstate w)) (gs1 ++ gs2) (handler g :: gone w)).
    split; [apply rtc_once, S_dismiss|]. split_and!; [done| |done]. cbn. rewrite Hr.
    rewrite <- Permutation_middle in H2. by apply Permutation_cons_inv in H2.
  - exists y. split; [done|]. apply (implements_perm w); [done|]. cbn in Hd. by rewrite Hr, Hd.
Qed.

(** Moving a guard to an object that is new or inactive keeps the active ones. *)
Lemma actives_move x y g m :
  x ≠ y → m !! y = Some g → match m !! x with Some gx => active_ gx = false | None => True end →
  actives (<[x := g]> (<[y := inactive g]> m)) ≡ₚ actives m.
Proof.
  intros Hxy Hy Hx. destruct (m !! x) as [gx|] eqn:Hmx.
  - assert (Hx' : <[y := inactive g]> m !! x = Some gx) by (by rewrite lookup_insert_ne).
    assert (Hy' : delete x m !! y = Some g) by (by rewrite lookup_delete_ne).
    rewrite (actives_replace x gx g _ Hx'), delete_insert_ne by done.
    rewrite (actives_replace y g (inactive g) _ Hy'), (actives_delete x gx m Hmx), (actives_delete y g _ Hy').
    unfold active_pair at 2 3. cbn. by rewrite Hx.
  - rewrite guards_insert by (by rewrite lookup_insert_ne). by rewrite (actives_replace y g (inactive g) m Hy), (actives_delete y g m Hy).
Qed.

Lemma move_refines x y w s :
  x ≠ y → match gobjs w !! x with Some gx => active_ gx = false | None => True end →
  implements w s → implements (guard_move_construct x y w) s.
Proof.
  intros Hxy Hx HI. unfold guard_move_construct. destruct (gobjs w !! y) as [g|] eqn:Hy; [|done].
  apply (implements_perm w); [done|]. by apply actives_move.
Qed.

Lemma dismissed_inactive x w : match gobjs (dismiss_at x w) !! x with Some g => active_ g = false | None => True end.
Proof.
  unfold dismiss_at. destruct (gobjs w !! x) as [g|] eqn:Hx; [|by rewrite Hx]. cbn. by rewrite lookup_insert_eq.
Qed.

Lemma guard_step_refines w w' y : guard_step w w' → implements w y → ∃ y', rtc step y y' ∧ implements w' y'.
Proof.
  intros Hstep HI. destruct Hstep as [x h w Hx Hh|x w|x w|x z w Hx|x z w Hx|w|k w|k w].
  - destruct HI as (H1 & H2 & H3). destruct y as [s gs ds]. cbn in *. subst s ds. unfold token_onCancel.
    eexists. split; [by apply rtc_once, (S_onCancel h)|]. destruct (onCancel h (cstate w)) as [g s'].
    split_and!; [done| |done]. cbn. rewrite guards_insert by done. destruct g; cbn; [by rewrite H2, Permutation_app_comm|done].
  - by apply dismiss_refines.
  - destruct (dismiss_refines x w y HI) as (y' & Hr & H'). exists y'. split; [done|]. unfold guard_destroy.
    pose proof (dismissed_inactive x w) as Hd. destruct (gobjs (dismiss_at x w) !! x) as [g|] eqn:Hg.
    + apply (implements_perm (dismiss_at x w)); [done|]. rewrite (actives_delete x g _ Hg). unfold active_pair. by rewrite Hd.
    + rewrite delete_id by done. by destruct (dismiss_at x w).
  - exists y. split; [done|]. destruct (decide (x = z)) as [<-|Hne].
    + unfold guard_move_construct. by rewrite Hx.
    + apply move_refines; [done|by rewrite Hx|done].
  - unfold guard_move_assign. destruct (Z.eqb_spec x z); [by exists y|].
    destruct (dismiss_refines x w y HI) as (y' & Hr & H'). exists y'. split; [done|].
    apply move_refines; [done|apply dismissed_inactive|done].
  - destruct HI as (H1 & H2 & H3). destruct y as [s gs ds]. cbn in *. subst. eexists. split; [apply rtc_once, S_cancel|done].
  - destruct HI as (H1 & H2 & H3). destruct y as [s gs ds]. cbn in *. subst. eexists. split; [apply rtc_once, (S_take k)|done].
  - destruct HI as (H1 & H2 & H3). destruct y as [s gs ds]. cbn in *. subst. eexists. split; [apply rtc_once, (S_run k)|done].
Qed.

(** Guard objects.  However guards are returned, moved, assigned, dismissed and
    destroyed while threads cancel, the program is a run of the abstract system
    in which each active guard object is one guard: a guard is dismissed once,
    by its last owner, and a moved-from one does nothing. *)
Theorem guard_objects_refine w :
  rtc guard_step (MkGWorld newState ∅ []) w →
  ∃ y, rtc step (MkSystem newState [] []) y ∧ implements w y.
Proof.
  intros Hr. eapply (rtc_ind_r (λ w, ∃ y, rtc step (MkSystem newState [] []) y ∧ implements w y)); [|clear w Hr|exact Hr].
  - exists (MkSystem newState [] []). split; [done|]. by split_and!.
  - intros w w' _ Hs (y & Hy & HI). destruct (guard_step_refines w w' y Hs HI) as (y' & Hy' & HI').
    exists y'. split; [by etrans|done].
Qed.

(** A guard that is moved and then destroyed, at both places. *)
Definition moved_guard : GWorld :=
  guard_destroy 1 (guard_destroy 2 (guard_move_construct 2 1 (token_onCancel 1 7 (MkGWorld newState ∅ [])))).

Lemma guard_objects_refine_witness :
  dismissed (cstate moved_guard) = [7] ∧ gone moved_guard = [7] ∧
  ∃ y, rtc step (MkSystem newState [] []) y ∧ implements moved_guard y.
Proof.
  split; [by vm_compute|]. split; [by vm_compute|]. apply guard_objects_refine.
  eapply rtc_l; [by apply (G_onCancel 1 7); [|apply not_elem_of_nil]|].
  eapply rtc_l; [by apply (G_move 2 1)|]. eapply rtc_l; [apply (G_destroy 2)|]. apply rtc_once, (G_destroy 1).
Defined.
