(* ===== verification/PoolPlacement.v ===== *)
(** * Placing worker threads
      (src/src/thread_pool.cpp, enhanced_thread_pool.cpp, thread_group.cpp)

    The loops of the pools and of [ThreadGroup] that set the processors and the
    scheduling of their threads, over the [ManagedThread]s of [Threads] and the
    topology of [Topology], and the pool's counters as its clients see them. *)

From S2P Require Import Prelude Text ThreadPool Topology Threads.

(** ** Affinity and scheduling *)

(** What the system has been told of each thread. *)
Record Placement := MkPlacement { masks : gmap Z CpuSet; scheds : gmap Z (Z * Z) }.

Section placement.
(** What the pthread calls answer for a thread. *)
Context (aff_rc : Z → CpuSet → Z) (sched_rc : Z → Z).

Definition set_mask (m : ManagedThread) (s : CpuSet) (p : Placement) : outcome unit * Placement :=
  match setCpuAffinity (aff_rc (thread_ m) s) m with
  | Ok _ => (Ok tt, MkPlacement (<[thread_ m := s]> (masks p)) (scheds p))
  | r => (r, p)
  end.

Definition set_sched (policy priority : Z) (m : ManagedThread) (p : Placement) : outcome unit * Placement :=
  match setScheduling (sched_rc (thread_ m)) m with
  | Ok _ => (Ok tt, MkPlacement (masks p) (<[thread_ m := (policy, priority)]> (scheds p)))
  | r => (r, p)
  end.

(** A loop over the workers; an exception leaves the rest as they are. *)
Fixpoint each_worker (f : nat → ManagedThread → Placement → outcome unit * Placement) (i : nat) (ws : list ManagedThread) (p : Placement)
  : outcome unit * Placement :=
  match ws with
  | [] => (Ok tt, p)
  | m :: ws' => match f i m p with (Ok _, p') => each_worker f (S i) ws' p' | r => r end
  end.

(** Workers that are not joinable are passed over. *)
Definition if_joinable (f : ManagedThread → Placement → outcome unit * Placement) (m : ManagedThread) (p : Placement)
  : outcome unit * Placement :=
  if joinable_ m then f m p else (Ok tt, p).

Definition setAffinity (s : CpuSet) (ws : list ManagedThread) (p : Placement) : outcome unit * Placement :=
  each_worker (λ _, if_joinable (λ m, set_mask m s)) 0 ws p.

Definition pool_setScheduling (policy priority : Z) (ws : list ManagedThread) (p : Placement) : outcome unit * Placement :=
  each_worker (λ _, if_joinable (set_sched policy priority)) 0 ws p.

Definition pinWorkersToNode (topo : SystemTopology) (node : Z) (ws : list ManagedThread) (p : Placement) : outcome unit * Placement :=
  match cpuSetForNode node topo with
  | Ok s => setAffinity s ws p
  | Throw e => (Throw e, p)
  | Hang => (Hang, p)
  end.

(** [distributeByTopology]: worker [i] to processor [i % cpus.size()]; the set
    is built before the worker is looked at. *)
Definition distributeByTopology (topo : SystemTopology) (ws : list ManagedThread) (p : Placement) : outcome unit * Placement :=
  match cpuIds topo with
  | [] => (Ok tt, p)
  | cpus =>
      each_worker (λ i m p,
        match Topology.add (default 0 (cpus !! (i mod length cpus)%nat)) newCpuSet with
        | Ok s => if_joinable (λ m, set_mask m s) m p
        | Throw e => (Throw e, p)
        | Hang => (Hang, p)
        end) 0 ws p
  end.

(** The group's loops do not look whether a thread is joinable. *)
Definition setAffinityAll (s : CpuSet) (ts : list ManagedThread) (p : Placement) : outcome unit * Placement :=
  each_worker (λ _ m, set_mask m s) 0 ts p.

Definition setSchedulingAll (policy priority : Z) (ts : list ManagedThread) (p : Placement) : outcome unit * Placement :=
  each_worker (λ _, set_sched policy priority) 0 ts p.

(** [ThreadGroup::add]: the new thread at the end of the group, whose members
    are addresses. *)
Definition thread_group_add (topo : SystemTopology) (rc : pcall → Z) (x t : Z) (name : text) (task : option Z) (a : ThreadAttributes)
  (xs : list Z) (w : World) : outcome (list Z) * World :=
  match construct topo rc true x t name task a w with
  | (Ok _, w') => (Ok (xs ++ [x]), w')
  | (Throw e, w') => (Throw e, w')
  | (Hang, w') => (Hang, w')
  end.

(** ** What the loops do *)

(** A worker that can be placed. *)
Definition placeable (m : ManagedThread) : Prop := joinable_ m = true ∧ started_ m = true.

(** The loop over placeable workers, when the system accepts every set: worker
    [i] gets the set [g i], and nobody else is touched. *)
Lemma each_worker_masks f (g : nat → CpuSet) i ws p :
  (∀ j m p, placeable m → f j m p = (Ok tt, MkPlacement (<[thread_ m := g j]> (masks p)) (scheds p))) →
  Forall placeable ws → NoDup (thread_ <$> ws) →
  ∃ p', each_worker f i ws p = (Ok tt, p') ∧ scheds p' = scheds p ∧
    (∀ j m, ws !! j = Some m → masks p' !! thread_ m = Some (g (i + j)%nat)) ∧
    (∀ t, t ∉ thread_ <$> ws → masks p' !! t = masks p !! t).
Proof.
  intros Hf. revert i p. induction ws as [|m ws IH]; intros i p Hw Hnd; [by exists p|].
  apply Forall_cons in Hw as [Hm Hw]. cbn in Hnd. apply NoDup_cons in Hnd as [Hn Hnd].
  cbn. rewrite Hf by done. destruct (IH (S i) (MkPlacement (<[thread_ m := g i]> (masks p)) (scheds p)) Hw Hnd) as (p' & E & Hs & Hj & Ho).
  exists p'. split_and!; [done|done| |].
  - intros [|j] m' Hl; [|rewrite Nat.add_succ_r; by apply Hj]. cbn in Hl. injection Hl as <-. rewrite Nat.add_0_r.
    rewrite Ho by done. cbn. apply lookup_insert_eq.
  - intros t [Ht Hts]%not_elem_of_cons. rewrite Ho by done. cbn. by apply lookup_insert_ne.
Qed.

Lemma set_mask_ok m s p : (∀ t s, aff_rc t s = 0) → placeable m →
  if_joinable (λ m, set_mask m s) m p = (Ok tt, MkPlacement (<[thread_ m := s]> (masks p)) (scheds p)).
Proof. intros Hrc [Hj Hs]. unfold if_joinable, set_mask, setCpuAffinity. by rewrite Hj, Hs, Hrc. Qed.
End placement.

(** How often [j] comes up among 0 % n, 1 % n, ... *)
Lemma count_residues n j N :
  (0 < n)%nat → (j < n)%nat → length (filter (λ i, (i mod n)%nat = j) (seq 0 N)) = ((N + (n - 1 - j)) / n)%nat.
Proof.
  intros Hn Hj. induction N as [|N IH].
  { cbn. symmetry. apply Nat.div_small. lia. }
  rewrite seq_S, filter_app, length_app, IH, Nat.add_0_l, filter_cons, filter_nil.
  pose proof (Nat.div_mod_eq N n) as HN. pose proof (Nat.mod_upper_bound N n ltac:(lia)) as Hb.
  set (q := (N / n)%nat) in *. set (r := (N mod n)%nat) in *.
  assert (E1 : ((N + (n - 1 - j)) / n)%nat = if (j <? r)%nat then S q else q).
  { destruct (Nat.ltb_spec j r); symmetry; [apply Nat.div_unique with (r := (r - 1 - j)%nat)|apply Nat.div_unique with (r := (r + (n - 1 - j))%nat)]; nia. }
  assert (E2 : ((S N + (n - 1 - j)) / n)%nat = if (j <? S r)%nat then S q else q).
  { destruct (Nat.ltb_spec j (S r)); symmetry; [apply Nat.div_unique with (r := (r - j)%nat)|apply Nat.div_unique with (r := (S r + (n - 1 - j))%nat)]; nia. }
  rewrite E1, E2. fold r. case_decide as E; destruct (Nat.ltb_spec j r), (Nat.ltb_spec j (S r)); cbn; try lia.
Qed.

(** Distribution over the processors.  When the system accepts every set and the
    processor numbers fit one, every worker that can be placed is pinned to
    exactly one processor of the topology, in turn; threads that are not workers
    are not touched; and the processors get the workers evenly, their loads
    differing by at most one. *)
Theorem distribute_balanced aff_rc topo ws p :
  (∀ t s, aff_rc t s = 0) → cpuIds topo ≠ [] → Forall (λ c, in_set_range c = true) (cpuIds topo) →
  Forall placeable ws → NoDup (thread_ <$> ws) →
  let n := length (cpuIds topo) in
  ∃ p', distributeByTopology aff_rc topo ws p = (Ok tt, p') ∧ scheds p' = scheds p ∧
    (∀ t, t ∉ thread_ <$> ws → masks p' !! t = masks p !! t) ∧
    (∀ i m c, ws !! i = Some m → cpuIds topo !! (i mod n)%nat = Some c →
       ∃ s, masks p' !! thread_ m = Some s ∧ ∀ x, contains x s = (x =? c)) ∧
    (∀ j, (j < n)%nat →
       let load := length (filter (λ i, (i mod n)%nat = j) (seq 0 (length ws))) in
       (load = length ws / n ∨ load = S (length ws / n))%nat).
Proof.
  intros Hrc Hne Hall Hw Hnd n. unfold distributeByTopology. destruct (cpuIds topo) as [|c0 cs] eqn:Ecpu; [done|].
  set (cpus := c0 :: cs) in *. assert (Hn : (0 < n)%nat) by (unfold n; cbn; lia).
  assert (Hin : ∀ i, in_set_range (default 0 (cpus !! (i mod n)%nat)) = true).
  { intros i. destruct (lookup_lt_is_Some_2 cpus (i mod n)%nat) as [c Hc]; [by apply Nat.mod_upper_bound; lia|].
    rewrite Hc. cbn. by eapply (Forall_lookup_1 _ _ _ _ Hall). }
  set (g := λ i, MkCpuSet (Z.setbit 0 (default 0 (cpus !! (i mod n)%nat)))).
  assert (Hadd : ∀ i, Topology.add (default 0 (cpus !! (i mod n)%nat)) newCpuSet = Ok (g i)).
  { intros i. unfold Topology.add. by rewrite Hin. }
  edestruct (each_worker_masks (λ i m p,
        match Topology.add (default 0 (cpus !! (i mod length cpus)%nat)) newCpuSet with
        | Ok s => if_joinable (λ m, set_mask aff_rc m s) m p
        | Throw e => (Throw e, p)
        | Hang => (Hang, p)
        end) g 0 ws p) as (p' & E & Hs & Hm & Ho); [|done|done|].
  { intros j m q Hpl. rewrite Hadd. by apply set_mask_ok. }
  exists p'. split_and!; [exact E|done|done| |].
  - intros i m c Hi Hc. exists (g i). split; [by rewrite (Hm i m Hi)|]. intros x.
    specialize (Hadd i). rewrite Hc in Hadd. cbn in Hadd. rewrite (contains_add c x newCpuSet (g i) Hadd).
    unfold contains, newCpuSet. cbn. rewrite Z.testbit_0_l. case_match; by rewrite orb_false_r.
  - intros j Hj. rewrite count_residues by lia.
    pose proof (Nat.div_mod_eq (length ws) n) as HN. pose proof (Nat.mod_upper_bound (length ws) n ltac:(lia)) as Hb.
    set (q := (length ws / n)%nat) in *. set (r := (length ws mod n)%nat) in *.
    destruct (Nat.ltb_spec j r); [right; symmetry; apply Nat.div_unique with (r := (r - 1 - j)%nat)
      |left; symmetry; apply Nat.div_unique with (r := (r + (n - 1 - j))%nat)]; nia.
Qed.

(** Five workers on three processors. *)
Definition three_cpus : SystemTopology := MkTopo [MkNode 0 [4; 5]; MkNode 1 [6]] [] ∅ ∅.
Definition five_workers : list ManagedThread := (λ t, MkManaged t true true [] None (Some t)) <$> [11; 12; 13; 14; 15].

Lemma distribute_balanced_witness :
  ∃ p', distributeByTopology (λ _ _, 0) three_cpus five_workers (MkPlacement ∅ ∅) = (Ok tt, p') ∧
    ∃ s, masks p' !! 15 = Some s ∧ ∀ x, contains x s = (x =? 5).
Proof.
  assert (Hw : Forall placeable five_workers) by (unfold five_workers; repeat constructor).
  assert (Hnd : NoDup (thread_ <$> five_workers)) by (apply (bool_decide_unpack _); vm_compute; exact I).
  destruct (distribute_balanced (λ _ _, 0) three_cpus five_workers (MkPlacement ∅ ∅)) as (p' & E & _ & _ & Hm & _).
  - done.
  - by vm_compute.
  - repeat constructor.
  - exact Hw.
  - exact Hnd.
  - exists p'. split; [exact E|]. by apply (Hm 4%nat (MkManaged 15 true true [] None (Some 15)) 5).
Defined.

(** ** Counters *)

(** [metrics]: the counters with the current depth and activity; [resetMetrics]
    forgets the counters only. *)
Definition metrics (s : Pool) : PoolMetrics * Z * Z := (metrics_ s, Z.of_nat (length (queue_ s)), activeWorkers_ s).

Definition resetMetrics (s : Pool) : Pool := set_metrics (MkMetrics 0 0 0 0) s.

Definition workerCount (s : Pool) : nat := length (workers_ s).
Definition queueSize (s : Pool) : nat := length (queue_ s).
Definition activeWorkerCount (s : Pool) : Z := activeWorkers_ s.

(** [TaskHandle::isCancelled] and [isComplete]. *)
Definition handle_isCancelled (i : Z) (s : Pool) : bool := bool_decide (i ∈ cancelled s).
Definition handle_isComplete (i : Z) (s : Pool) : bool := bool_decide (i ∈ completed s).

(** [cancel] of a handle tells what [isComplete] told, and cancels otherwise. *)
Lemma handle_cancel_spec i s :
  (handle_cancel i s).1 = negb (handle_isComplete i s) ∧
  handle_isCancelled i (handle_cancel i s).2 = handle_isCancelled i s || negb (handle_isComplete i s) ∧
  handle_isComplete i (handle_cancel i s).2 = handle_isComplete i s.
Proof.
  unfold handle_cancel, handle_isComplete, handle_isCancelled. destruct (bool_decide (i ∈ completed s)) eqn:E; cbn.
  - by rewrite E, orb_false_r.
  - rewrite E. split_and!; [done| |done]. rewrite orb_true_r. by apply bool_decide_true, elem_of_union_l, elem_of_singleton.
Qed.

(** The constructor of the plain pool. *)
Definition newPlain (workerCount : nat) : outcome PlainPool :=
  if Nat.eqb workerCount 0 then Throw InvalidArgument else Ok (MkPlain [] false []).
