(* ===== verification/NumaAlloc.v ===== *)
(** * The NUMA allocator and nested memory policies (include/pman/numa.hpp)

    [NumaAllocator] allocates under a [ScopedMemoryPolicy] of [Topology]; the
    thread's policy is what the last call of [set_mempolicy] has left. *)

From S2P Require Import Prelude Text Topology.

Record NumaAllocator := MkAllocator { node_ : Z; policy_ : MemoryPolicy }.

Definition defaultAllocator : NumaAllocator := MkAllocator (-1) Default.

#[export] Instance policy_eq_dec : EqDecision MemoryPolicy.
Proof. solve_decision. Defined.

Definition allocator_eq (a b : NumaAllocator) : bool := (node_ a =? node_ b) && bool_decide (policy_ a = policy_ b).

(** How [allocate] ends: with a block of so many bytes, [std::bad_alloc], the
    exception of [set_mempolicy], or the program ends because the guard's
    destructor threw. *)
Inductive allocation := Allocated (bytes : Z) | BadAlloc | Failed (e : exn) | Terminated.

(** [allocate(n)] for elements of [size] bytes; the answers of the two
    [set_mempolicy] calls and whether [operator new] finds room. *)
Definition allocate (size n : Z) (rc1 errno1 rc2 errno2 : Z) (room : bool) (a : NumaAllocator) : allocation * list mempolicy_call :=
  if n >? (2 ^ 64 - 1) / size then (BadAlloc, [])
  else
    match newScopedMemoryPolicy (policy_ a) (if node_ a >=? 0 then [node_ a] else []) rc1 errno1 with
    | (Ok active, cs) =>
        match endScopedMemoryPolicy active rc2 errno2 with
        | Some cs' => (if room then Allocated (u64 (n * size)) else BadAlloc, cs ++ cs')
        | None => (Terminated, cs)
        end
    | (Throw e, cs) => (Failed e, cs)
    | (Hang, cs) => (Failed LogicError, cs)
    end.

(** The policy a thread has after successful calls. *)
Definition policy_after (p0 : mempolicy_call) (cs : list mempolicy_call) : mempolicy_call := default p0 (last cs).

Definition default_policy : mempolicy_call := MkCall (toMode Default) None 0.

(** The call a scope makes. *)
Lemma scoped_calls p nodes rc errno :
  p ≠ Default →
  newScopedMemoryPolicy p nodes rc errno =
    (let* _ := callSetMempolicy rc errno in Ok true,
     [MkCall (toMode p) (match buildNodeMask nodes with [] => None | _ => Some (buildNodeMask nodes) end)
        (Z.of_nat (List.length (buildNodeMask nodes)) * 64)]).
Proof. by destruct p. Qed.

Lemma node_mask_bit node k :
  0 <= k →
  let mask := buildNodeMask (if node >=? 0 then [node] else []) in
  mask_bit (default [] (match mask with [] => None | _ => Some mask end)) k = bool_decide (k = node).
Proof.
  intros Hk mask. assert (default [] (match mask with [] => None | _ => Some mask end) = mask) as -> by (by destruct mask).
  unfold mask. rewrite buildNodeMask_bits by done. apply bool_decide_ext.
  destruct (Z.geb_spec node 0); [by rewrite list_elem_of_singleton|]. rewrite elem_of_nil. split; [done|lia].
Qed.

(** Allocation.  A block that is returned has the size of its elements, without
    overflow; it was allocated under the allocator's policy for its node, and
    afterwards the thread has the default policy, whichever it had before, or,
    for an allocator with the default policy, the one it had. *)
Theorem allocate_spec size n rc1 errno1 rc2 errno2 room a p0 b cs :
  0 < size → 0 <= n → allocate size n rc1 errno1 rc2 errno2 room a = (Allocated b, cs) →
  b = n * size ∧ b < 2 ^ 64 ∧
  if decide (policy_ a = Default) then cs = []
  else ∃ c, cs = [c; default_policy] ∧ c_mode c = toMode (policy_ a) ∧ policy_after p0 cs = default_policy ∧
    ∀ k, 0 <= k → mask_bit (default [] (c_mask c)) k = bool_decide (k = node_ a).
Proof.
  intros Hs Hn. unfold allocate. destruct (n >? (2 ^ 64 - 1) / size) eqn:Hbig; [done|].
  assert (Hb : n * size < 2 ^ 64).
  { rewrite Z.gtb_ltb in Hbig. apply Z.ltb_ge in Hbig. pose proof (Z.mul_div_le (2 ^ 64 - 1) size Hs). nia. }
  assert (Hu : u64 (n * size) = n * size) by (apply wrap_small; nia).
  destruct (decide (policy_ a = Default)) as [Hp|Hp].
  { rewrite Hp. cbn. destruct room; [|done]. intros [= <- <-]. by rewrite Hu. }
  rewrite (scoped_calls _ _ _ _ Hp). unfold endScopedMemoryPolicy, callSetMempolicy.
  destruct (negb (rc1 =? 0)); [done|]. destruct (negb (rc2 =? 0)); [done|]. destruct room; [|done].
  intros [= <- <-]. rewrite Hu. split_and!; [done|done|]. eexists. split_and!; [done|done|done|].
  intros k Hk. cbn [c_mask]. apply node_mask_bit. done.
Qed.

Lemma allocate_spec_witness :
  let r := allocate 8 10 0 0 0 0 true (MkAllocator 3 Bind) in
  r.1 = Allocated 80 ∧ policy_after (MkCall 3 None 0) r.2 = default_policy.
Proof.
  split; [by vm_compute|].
  destruct (allocate_spec 8 10 0 0 0 0 true (MkAllocator 3 Bind) (MkCall 3 None 0) 80
              [MkCall 2 (Some [8]) 64; default_policy]) as (_ & _ & H); [lia|lia|by vm_compute|].
  rewrite decide_False in H by done. by destruct H as (c & _ & _ & H & _).
Defined.

(** A policy inside another one: when the inner scope ends the thread has the
    default policy, although the outer scope is still open. *)
Lemma nested_policy_lost p nodes p' nodes' :
  p ≠ Default → p' ≠ Default →
  let outer := (newScopedMemoryPolicy p nodes 0 0).2 in
  let inner := (newScopedMemoryPolicy p' nodes' 0 0).2 ++ default [] (endScopedMemoryPolicy true 0 0) in
  c_mode (policy_after default_policy outer) = toMode p ∧ policy_after default_policy (outer ++ inner) = default_policy.
Proof.
  intros Hp Hp'. rewrite !scoped_calls by done. done.
Qed.
