(* ===== verification/CondVar.v ===== *)
(** * The futex condition variable at work (src/src/futex.cpp)

    [FutexCondVar] together with the mutex it is used with, as a monitor:
    consumers take the mutex, wait until there is an item and take it; producers
    take the mutex, add an item, release it and notify.  The waits and the
    notifications are the code's, the mutex is [FutexMutex] of FutexMutex.v,
    operation by operation, and each of its calls is a call of the same machine
    (Futex.v) with a continuation.  The items are the condition of the monitor. *)

From S2P Require Import Prelude Futex FutexMutex.

(** [state_] of the mutex, [seq_] of the condition variable, and the items the
    mutex protects. *)
Record mstate := MkMon { mtx : Z; seq_ : Z; items : Z }.

Definition with_mtx (s : mstate) (m : Z) : mstate := MkMon m (seq_ s) (items s).

(** What follows a call of the mutex: of [lock] by a consumer, of [unlock] and
    [lock] in [wait_impl], of [unlock] by a consumer, of [lock] and [unlock] by
    a producer that will notify one or all. *)
Inductive after :=
  | KEnter | KUnlock (seq : Z) | KRelock (seq : Z) | KLeave
  | KProduce (all : bool) | KPublish (all : bool).

(** Program counters: inside a call of the mutex; outside; a consumer about to
    test the items, with the result of [wait_impl] if it has waited;
    [wait_impl] before its first read, before and in the futex wait and at its
    second read; a producer about to add an item, in [notify_one] or
    [notify_all] before the increment, and before the wake. *)
Inductive cpc :=
  | COut
  | CMtx (k : after) (p : mpc)
  | CTest (waited : option bool)
  | CRead | CWait (seq : Z) | CAsleep (seq : Z) | CBack (seq : Z)
  | PAdd (all : bool) | PNotify (all : bool) | PWake (all : bool).

(** Where a call of the mutex starts and returns to. *)
Definition enter (k : after) : cpc :=
  CMtx k (match k with KEnter | KRelock _ | KProduce _ => MLock | _ => MUnlock end).

Definition return_to (k : after) (p : mpc) : cpc :=
  match k, p with
  | KEnter, MHolding => CTest None
  | KUnlock v, MIdle => CWait v
  | KRelock v, MHolding => CBack v
  | KLeave, MIdle => COut
  | KProduce a, MHolding => PAdd a
  | KPublish a, MIdle => PNotify a
  | _, _ => CMtx k p
  end.

(** The mutex's next action, inside the monitor. *)
Definition inside (k : after) (a : faction mpc Z) : faction cpc mstate :=
  match a with
  | Atomic f => Atomic (λ b s, (return_to k (f b (mtx s)).1, with_mtx s (f b (mtx s)).2))
  | FWait w e p p' => FWait (λ s, w (mtx s)) e (return_to k p) (return_to k p')
  | FWake addr n p => FWake addr n (return_to k p)
  | Asleep addr w e => Asleep addr (return_to k w) (return_to k <$> e)
  | AtRest _ => AtRest []
  end.

(** [FutexCondVar::wait_impl] without a timeout.  A signal (EINTR) sends the
    sleeper back to the futex wait; any other end of the wait goes on to lock
    the mutex.  The result compares the two reads of [seq_]. *)
Definition cv_wait (p : cpc) : option (faction cpc mstate) :=
  match p with
  | CRead => Some (Atomic (λ _ s, (enter (KUnlock (seq_ s)), s)))
  | CWait v => Some (FWait seq_ v (CAsleep v) (enter (KRelock v)))
  | CAsleep v => Some (Asleep 1 (enter (KRelock v)) (Some (CWait v)))
  | CBack v => Some (Atomic (λ _ s, (CTest (Some (negb (v =? seq_ s))), s)))
  | _ => None
  end.

(** [notify_one] and [notify_all]. *)
Definition notify_one (p : cpc) : option (faction cpc mstate) :=
  match p with
  | PNotify false => Some (Atomic (λ _ s, (PWake false, MkMon (mtx s) (i32 (seq_ s + 1)) (items s))))
  | PWake false => Some (FWake 1 1 COut)
  | _ => None
  end.

Definition notify_all (p : cpc) : option (faction cpc mstate) :=
  match p with
  | PNotify true => Some (Atomic (λ _ s, (PWake true, MkMon (mtx s) (i32 (seq_ s + 1)) (items s))))
  | PWake true => Some (FWake 1 wake_all COut)
  | _ => None
  end.

(** The clients between the calls. *)
Definition client (p : cpc) : faction cpc mstate :=
  match p with
  | CTest _ =>
      Atomic (λ _ s, if 0 <? items s
                     then (enter KLeave, MkMon (mtx s) (seq_ s) (items s - 1)) else (CRead, s))
  | PAdd a => Atomic (λ _ s, (enter (KPublish a), MkMon (mtx s) (seq_ s) (items s + 1)))
  | _ => AtRest [enter KEnter; enter (KProduce false); enter (KProduce true)]
  end.

#[export] Instance monitor_prog : FutexProg cpc mstate := λ p,
  match p with
  | CMtx k q => inside k (action q)
  | _ => match cv_wait p with
         | Some a => a
         | None => match notify_one p with
                   | Some a => a
                   | None => match notify_all p with Some a => a | None => client p end
                   end
         end
  end.

Definition monitor_init (n : nat) : config cpc mstate := MkConf (MkMon Unlocked 0 0) (replicate n COut).

(** ** The mutex inside the monitor *)

Definition holds_in (p : cpc) : bool :=
  match p with
  | CMtx _ q => holds q
  | CTest _ | CRead | CBack _ | PAdd _ => true
  | _ => false
  end.

Lemma holds_return k q : holds_in (return_to k q) = holds q.
Proof. by destruct k, q. Qed.

(** A step of a thread inside the mutex is a step of the mutex's own code. *)
Lemma inside_local k q s p' s' :
  local_step (CMtx k q) s p' s' →
  ∃ q', local_step q (mtx s) q' (mtx s') ∧ p' = return_to k q' ∧ seq_ s' = seq_ s ∧ items s' = items s.
Proof.
  intros Hl.
  inversion Hl as [? ? ? b Ha|? ? ? ? ? ? Ha|? ? ? ? ? Ha|? ? ? ? ? Ha|? ? ? ? ? Ha|? ? ? ? Ha Hin]; subst; clear Hl;
    change (action (CMtx k q)) with (inside k (action q)) in Ha;
    destruct (action q) as [gg|ww ee aa kk|aa nn kk|aa ww ee|cs] eqn:Eq; simpl in Ha; simplify_eq.
  - eexists. split_and!; [by apply (ls_atomic _ _ _ b Eq)|done..].
  - eexists. split_and!; [by apply (ls_wait _ _ _ _ _ _ Eq)| |done..]. by case_match.
  - eexists. split_and!; [by eapply ls_wake|done..].
  - eexists. split_and!; [by eapply ls_woken|done..].
  - destruct ee as [q'|]; simplify_eq/=. exists q'. split_and!; [by eapply ls_expired|done..].
  - by apply elem_of_nil in Hin.
Qed.

(** ** Waiters and notifications *)

(** A waiter that would sleep, or sleeps, on the current value of [seq_]. *)
Definition fresh (seq : Z) (p : cpc) : bool :=
  match p with CMtx (KUnlock v) _ | CWait v | CAsleep v => v =? seq | _ => false end.

Definition asleep (p : cpc) : bool := match p with CAsleep _ => true | _ => false end.

(** A producer that has added its item and has not yet incremented [seq_]. *)
Definition unnotified (p : cpc) : bool :=
  match p with CMtx (KPublish _) _ | PNotify _ => true | _ => false end.

(** A thread on its way to test the items, or to make another one do so. *)
Definition coming (seq : Z) (p : cpc) : bool :=
  match p with
  | CMtx (KUnlock v) _ | CWait v => negb (v =? seq)
  | CMtx (KRelock _) _ | CBack _ | CTest _ | PWake _ => true
  | _ => unnotified p
  end.

(** A thread inside a call of the mutex is where that call can be, and the value
    a waiter has read is not ahead of [seq_]. *)
Definition running (k : after) (q : mpc) : bool :=
  match k, q with
  | (KEnter | KRelock _ | KProduce _), (MLock | MSpin _ | MSpinCas _ | MWait | MAsleep) => true
  | (KUnlock _ | KLeave | KPublish _), (MUnlock | MWake) => true
  | _, _ => false
  end.

Definition read_before (seq : Z) (p : cpc) : Prop :=
  match p with
  | CMtx k q => running k q = true ∧ match k with KUnlock v => v <= seq | _ => True end
  | CWait v | CAsleep v => v <= seq
  | _ => True
  end.

(** What a step of one thread, other than a wake, does to these. *)
Inductive thread_move (p : cpc) (s : mstate) (p' : cpc) (s' : mstate) : Prop :=
  | TQuiet :
      seq_ s' = seq_ s → items s' = items s → p' ≠ CRead → unnotified p' = unnotified p →
      (fresh (seq_ s) p' = true → fresh (seq_ s) p = true) →
      (asleep p' = true → fresh (seq_ s) p = true ∨ asleep p = true) →
      (coming (seq_ s) p = true → coming (seq_ s) p' = true) →
      (read_before (seq_ s) p → read_before (seq_ s) p') → thread_move p s p' s'
  | TRead : p = CRead → p' = enter (KUnlock (seq_ s)) → s' = s → thread_move p s p' s'
  | TEmpty w : p = CTest w → items s <= 0 → p' = CRead → s' = s → thread_move p s p' s'
  | TTake w :
      p = CTest w → 0 < items s → p' = enter KLeave →
      s' = MkMon (mtx s) (seq_ s) (items s - 1) → thread_move p s p' s'
  | TAdd a :
      p = PAdd a → p' = enter (KPublish a) → s' = MkMon (mtx s) (seq_ s) (items s + 1) →
      thread_move p s p' s'
  | TNotify a :
      p = PNotify a → p' = PWake a → s' = MkMon (mtx s) (i32 (seq_ s + 1)) (items s) →
      thread_move p s p' s'.

Lemma return_sane seq k q m q' m' :
  local_step q m q' m' → read_before seq (CMtx k q) → read_before seq (return_to k q').
Proof. intros Hl [Hr Hk]. destruct k; local_cases Hl; try done; simpl; repeat case_match; done. Qed.

Lemma return_quiet k q q' s s' :
  local_step q (mtx s) q' (mtx s') → seq_ s' = seq_ s → items s' = items s →
  thread_move (CMtx k q) s (return_to k q') s'.
Proof. intros Hl E1 E2. apply TQuiet; try done; [by destruct k, q'..|by eapply return_sane]. Qed.

(** Case analysis of a local step at a program counter already known. *)
Ltac local_at Hl :=
  let Ha := fresh "Ha" in let Hin := fresh "Hin" in
  inversion Hl as [? ? ? ? Ha|? ? ? ? ? ? Ha|? ? ? ? ? Ha|? ? ? ? ? Ha|? ? ? ? ? Ha|? ? ? ? Ha Hin]; subst; clear Hl;
  hnf_action Ha; try discriminate Ha; injection Ha; clear Ha; intros; subst;
  try match type of Hin with _ ∈ _ => solve_member Hin end.

Lemma monitor_local p s p' s' :
  local_step p s p' s' → (∀ a n k, action p ≠ FWake a n k) → thread_move p s p' s'.
Proof.
  intros Hl Hnw. destruct p as [|k q|w| |v|v|v|a|a|a]; [| |..|destruct a|destruct a].
  2: { destruct (inside_local k q s p' s' Hl) as (q' & Hq & -> & E1 & E2). by apply return_quiet. }
  all: local_at Hl; cbn [fst snd]; try (by destruct (Hnw _ _ _ eq_refl)); try (by econstructor).
  - destruct (0 <? items s) eqn:Ei; bool_hyps; [by eapply TTake|by eapply TEmpty].
  - case_match; bool_hyps; apply TQuiet; try done; simpl; intros; bool_hyps; auto; try lia.
    all: left; by apply Z.eqb_eq.
Qed.

(** ** The invariant *)

Record MonInv (c : config cpc mstate) : Prop := {
  mi_word : mutex_word (mtx (shared c));
  mi_holder : tally holds_in (threads c) = locked (mtx (shared c));
  mi_items : 0 <= items (shared c);
  mi_seq : 0 <= seq_ (shared c);
  mi_read : Forall (read_before (seq_ (shared c))) (threads c);
  mi_empty : CRead ∈ threads c → items (shared c) = 0;
  mi_fresh : ∀ p, p ∈ threads c → fresh (seq_ (shared c)) p = true →
    items (shared c) <= tally unnotified (threads c);
  mi_asleep : ∀ p, p ∈ threads c → asleep p = true →
    items (shared c) <= tally (coming (seq_ (shared c))) (threads c) }.

(** [seq_] has not reached the end of its range. *)
Definition seq_room (c : config cpc mstate) : Prop := seq_ (shared c) < 2 ^ 31 - 1.

Lemma holder_step p s p' s' :
  local_step p s p' s' → mutex_word (mtx s) → (holds_in p = true → mtx s ≠ Unlocked) →
  mutex_word (mtx s') ∧ Z.b2z (holds_in p') - Z.b2z (holds_in p) = locked (mtx s') - locked (mtx s).
Proof.
  intros Hl Hw Hh. destruct p as [|k q|w| |v|v|v|a|a|a]; [| |..|destruct a|destruct a].
  2: { destruct (inside_local k q s p' s' Hl) as (q' & Hq & -> & _). rewrite holds_return.
       by apply (mutex_local q (mtx s) q' (mtx s')). }
  all: local_at Hl; cbn [fst snd]; repeat case_match; simpl; split; try done; lia.
Qed.

Lemma insert_cases {A} (l : list A) i p q : q ∈ <[i := p]> l → q = p ∨ q ∈ l.
Proof.
  intros (j & Hj)%list_elem_of_lookup. destruct (decide (i = j)) as [->|Hij].
  - left. apply list_lookup_insert_Some in Hj as [(_ & -> & _)|[? _]]; done.
  - right. rewrite list_lookup_insert_ne in Hj by done. by eapply list_elem_of_lookup_2.
Qed.

Lemma tally_mono h h' (l : list cpc) :
  (∀ p, p ∈ l → h p = true → h' p = true) → tally h l <= tally h' l.
Proof.
  intros Hh. rewrite <- !total_tally. unfold total. induction l as [|p l IH]; cbn; [lia|].
  assert (Z.b2z (h p) <= Z.b2z (h' p)).
  { pose proof (Hh p (list_elem_of_here _ _)). destruct (h p); simpl; [|destruct (h' p); simpl; lia]. by rewrite H. }
  assert (∀ q, q ∈ l → h q = true → h' q = true) by (intros q Hq; apply Hh; by right). specialize (IH H0). lia.
Qed.

Lemma tally_unnotified_coming seq l : tally unnotified l <= tally (coming seq) l.
Proof. apply tally_mono. intros [|[]| | | | | | | |] _ H; try done. Qed.

(** When the step leaves items and sequence alone. *)
Lemma quiet_step s l i p p' s' :
  MonInv (MkConf s l) → l !! i = Some p → seq_ s' = seq_ s → items s' = items s →
  mutex_word (mtx s') → tally holds_in (<[i := p']> l) = locked (mtx s') →
  p' ≠ CRead → unnotified p' = unnotified p →
  (fresh (seq_ s) p' = true → fresh (seq_ s) p = true) →
  (asleep p' = true → fresh (seq_ s) p = true ∨ asleep p = true) →
  (coming (seq_ s) p = true → coming (seq_ s) p' = true) →
  (read_before (seq_ s) p → read_before (seq_ s) p') → MonInv (MkConf s' (<[i := p']> l)).
Proof.
  intros [Hw Hh Hn Hs Hr He Hf Ha] Hi E1 E2 Hw' Hh' Hc Hu Hfr Has Hco Hrb. cbn [shared threads] in *.
  assert (Hin : p ∈ l) by by eapply list_elem_of_lookup_2.
  assert (Hco' : tally (coming (seq_ s)) l <= tally (coming (seq_ s)) (<[i := p']> l)).
  { rewrite (tally_insert _ _ _ _ p' Hi). destruct (coming (seq_ s) p); simpl; [rewrite Hco by done; simpl; lia|].
    destruct (coming _ p'); simpl; lia. }
  assert (Hu' : tally unnotified (<[i := p']> l) = tally unnotified l) by (rewrite (tally_insert _ _ _ _ p' Hi), Hu; lia).
  pose proof (tally_unnotified_coming (seq_ s) l).
  split; cbn [shared threads]; rewrite ?E1, ?E2, ?Hu'; try done.
  - apply Forall_insert; [done|]. apply Hrb. by eapply Forall_lookup_1 in Hr.
  - intros [?|?]%insert_cases; [congruence|auto].
  - intros q [->|Hq]%insert_cases Hfq; [eauto|by eapply Hf].
  - intros q [->|Hq]%insert_cases Haq; [|specialize (Ha q Hq Haq); lia].
    destruct (Has Haq) as [Hfp|Hap]; [specialize (Hf p Hin Hfp); lia|specialize (Ha p Hin Hap); lia].
Qed.

(** The other threads, when one takes an item, adds one, or notifies. *)
Lemma take_step s l i w :
  MonInv (MkConf s l) → l !! i = Some (CTest w) → 0 < items s →
  tally holds_in (<[i := enter KLeave]> l) = locked (mtx s) →
  MonInv (MkConf (MkMon (mtx s) (seq_ s) (items s - 1)) (<[i := enter KLeave]> l)).
Proof.
  intros [Hw Hh Hn Hs Hr He Hf Ha] Hi Hpos Hh'. cbn [shared threads] in *.
  split; cbn [shared threads seq_ items mtx] in *; try done; try lia; rewrite ?(tally_insert _ _ _ _ (enter KLeave) Hi).
  - by apply Forall_insert.
  - intros [?|Hc]%insert_cases; [done|]. specialize (He Hc). lia.
  - intros q [->|Hq]%insert_cases Hfq; [done|]. specialize (Hf q Hq Hfq). simpl. lia.
  - intros q [->|Hq]%insert_cases Haq; [done|]. specialize (Ha q Hq Haq). simpl. lia.
Qed.

Lemma add_step s l i a :
  MonInv (MkConf s l) → l !! i = Some (PAdd a) →
  tally holds_in (<[i := enter (KPublish a)]> l) = locked (mtx s) →
  MonInv (MkConf (MkMon (mtx s) (seq_ s) (items s + 1)) (<[i := enter (KPublish a)]> l)).
Proof.
  intros [Hw Hh Hn Hs Hr He Hf Ha] Hi Hh'. cbn [shared threads] in *.
  split; cbn [shared threads seq_ items mtx] in *; try done; try lia;
    rewrite ?(tally_insert _ _ _ _ (enter (KPublish a)) Hi).
  - by apply Forall_insert.
  - intros [?|Hc]%insert_cases; [done|]. exfalso. apply list_elem_of_lookup in Hc as [j Hj].
    assert (i ≠ j) by (intros ->; congruence).
    pose proof (tally_two holds_in l i j _ _ Hi Hj eq_refl eq_refl ltac:(done)) as H2.
    rewrite Hh in H2. unfold locked in H2. case_match; lia.
  - intros q [->|Hq]%insert_cases Hfq; [done|]. specialize (Hf q Hq Hfq). simpl. lia.
  - intros q [->|Hq]%insert_cases Haq; [done|]. specialize (Ha q Hq Haq). simpl. lia.
Qed.

Lemma notify_step s l i a :
  MonInv (MkConf s l) → l !! i = Some (PNotify a) →
  tally holds_in (<[i := PWake a]> l) = locked (mtx s) →
  MonInv (MkConf (MkMon (mtx s) (seq_ s + 1) (items s)) (<[i := PWake a]> l)).
Proof.
  intros [Hw Hh Hn Hs Hr He Hf Ha] Hi Hh'. cbn [shared threads] in *. rewrite Forall_forall in Hr.
  split; cbn [shared threads seq_ items mtx] in *; try done; try lia.
  - apply Forall_insert; [|done]. apply Forall_forall. intros q Hq. specialize (Hr q Hq).
    destruct q as [|[]| | | | | | | |]; simpl in *; try done; try lia. destruct Hr; split; [done|lia].
  - intros [?|Hc]%insert_cases; [done|auto].
  - intros q [->|Hq]%insert_cases Hfq; [done|]. exfalso. specialize (Hr q Hq).
    destruct q as [|[]| | | | | | | |]; simpl in *; try done; bool_hyps; lia.
  - intros q [->|Hq]%insert_cases Haq; [done|]. specialize (Ha q Hq Haq).
    rewrite (tally_insert _ _ _ _ (PWake a) Hi). simpl.
    assert (tally (coming (seq_ s)) l <= tally (coming (seq_ s + 1)) l); [|lia].
    apply tally_mono. intros r Hrl Hc. specialize (Hr r Hrl).
    destruct r as [|[]| | | | | | | |]; simpl in *; try done; apply negb_true_iff, Z.eqb_neq; lia.
Qed.

(** A step that finds no item. *)
Lemma empty_step s l i p' :
  MonInv (MkConf s l) → items s = 0 → read_before (seq_ s) p' →
  tally holds_in (<[i := p']> l) = locked (mtx s) → MonInv (MkConf s (<[i := p']> l)).
Proof.
  intros [Hw Hh Hn Hs Hr He Hf Ha] H0 Hp' Hh'. cbn [shared threads] in *.
  split; cbn [shared threads]; rewrite ?H0; try done; try (intros; apply tally_nonneg).
  by apply Forall_insert.
Qed.

Lemma monitor_step s l i p p' s' :
  MonInv (MkConf s l) → seq_room (MkConf s l) → l !! i = Some p → local_step p s p' s' →
  (∀ a n k, action p ≠ FWake a n k) → MonInv (MkConf s' (<[i := p']> l)).
Proof.
  intros HI Hroom Hi Hl Hnw. pose proof HI as [Hw Hh Hn Hs Hr He Hf Ha].
  unfold seq_room in Hroom. cbn [shared threads] in *.
  destruct (holder_step p s p' s' Hl Hw) as [Hw' Hb].
  { intros Hp E. pose proof (tally_pos holds_in l i p Hi Hp). rewrite Hh, E in *. unfold locked in *. simpl in *. lia. }
  assert (Hh' : tally holds_in (<[i := p']> l) = locked (mtx s')) by (rewrite (tally_insert _ _ _ _ p' Hi); lia).
  destruct (monitor_local p s p' s' Hl Hnw) as [| -> -> ->|w -> ? -> ->|w -> ? -> ->|a -> -> ->|a -> -> ->].
  - by eapply quiet_step.
  - apply empty_step; try done. apply He. by eapply list_elem_of_lookup_2.
  - apply empty_step; try done. lia.
  - by eapply take_step.
  - by apply add_step.
  - rewrite i32_small in * by lia. by apply notify_step.
Qed.

(** ** Wakes *)

Lemma rouse_mtx k q : rouse (CMtx k q) = CMtx k (if decide (q = MAsleep) then MSpin 1000 else q).
Proof.
  unfold rouse. change (action (CMtx k q)) with (inside k (action q)).
  destruct q as [| | |n| | | | | |]; try done; [|by destruct k].
  unfold action, mutex_prog. simpl. by destruct (n >? 0).
Qed.

Lemma rouse_all_elem us (l : list cpc) q : q ∈ rouse_all us l → ∃ r, r ∈ l ∧ (q = r ∨ q = rouse r).
Proof.
  revert q. induction us as [|u us IH]; simpl; intros q Hq; [eauto|].
  apply list_elem_of_lookup in Hq as [j Hj]. destruct (decide (u = j)) as [->|Hn].
  - rewrite list_lookup_alter_eq in Hj. apply fmap_Some in Hj as (r & Hr & ->).
    destruct (IH r (list_elem_of_lookup_2 _ _ _ Hr)) as (r0 & Hr0 & [->| ->]); [eauto|].
    exists r0. split; [done|]. right. destruct r0 as [|k q| | | | | | |[]|[]]; try done. rewrite !rouse_mtx. by destruct q.
  - rewrite list_lookup_alter_ne in Hj by done. apply IH. by eapply list_elem_of_lookup_2.
Qed.

(** What a wake leaves of a thread it may have reached. *)
Lemma rouse_keeps seq r :
  (fresh seq (rouse r) = true → fresh seq r = true) ∧ asleep (rouse r) = false ∧
  (rouse r = CRead → r = CRead) ∧ (read_before seq r → read_before seq (rouse r)).
Proof. destruct r as [|k q| | | | | | |[]|[]]; try done. rewrite rouse_mtx. by destruct k, q. Qed.

Lemma woken_inv s l l' :
  MonInv (MkConf s l) →
  (∀ q, q ∈ l' → ∃ r, r ∈ l ∧ (fresh (seq_ s) q = true → fresh (seq_ s) r = true) ∧
     (asleep q = true → asleep r = true) ∧ (q = CRead → r = CRead) ∧
     (read_before (seq_ s) r → read_before (seq_ s) q)) →
  tally holds_in l' = tally holds_in l → tally unnotified l <= tally unnotified l' →
  (∀ r, r ∈ l → asleep r = true → tally (coming (seq_ s)) l <= tally (coming (seq_ s)) l') →
  MonInv (MkConf s l').
Proof.
  intros [Hw Hh Hn Hs Hr He Hf Ha] Hq Hhe Hu Hc. cbn [shared threads] in *. rewrite Forall_forall in Hr.
  split; cbn [shared threads]; try done; try congruence.
  - apply Forall_forall. intros q (r & Hrl & _ & _ & _ & Hb)%Hq. auto.
  - intros (r & Hrl & _ & _ & Hrc & _)%Hq. rewrite (Hrc eq_refl) in Hrl. auto.
  - intros q (r & Hrl & Hfr & _)%Hq Hfq. specialize (Hf r Hrl (Hfr Hfq)). lia.
  - intros q (r & Hrl & _ & Har & _)%Hq Haq. specialize (Ha r Hrl (Har Haq)). specialize (Hc r Hrl (Har Haq)). lia.
Qed.

Lemma asleep_mtx addr k q : asleep_at addr (CMtx k q) = bool_decide (q = MAsleep) && Nat.eqb 0 addr.
Proof.
  unfold asleep_at. change (action (CMtx k q)) with (inside k (action q)).
  destruct q as [| | |n| | | | | |]; try done.
  unfold action, mutex_prog. simpl. by destruct (n >? 0).
Qed.

(** A woken sleeper of the mutex counts as before, one of the condition
    variable is on its way. *)
Lemma rouse_counts seq p addr :
  asleep_at addr p = true →
  Z.b2z (holds_in (rouse p)) = Z.b2z (holds_in p) + 0 ∧
  Z.b2z (unnotified (rouse p)) = Z.b2z (unnotified p) + 0 ∧
  Z.b2z (coming seq (rouse p)) = Z.b2z (coming seq p) + Z.of_nat addr.
Proof.
  destruct p as [|k q| | | |v| | |[]|[]]; try done.
  - rewrite asleep_mtx, rouse_mtx. intros [E1 E2]%andb_true_iff. apply bool_decide_eq_true in E1 as ->.
    apply Nat.eqb_eq in E2 as <-. simpl. split_and!; [done|lia..].
  - intros E. unfold asleep_at in E. simpl in E. destruct addr as [|[|]]; done.
Qed.

Lemma wake_cases p addr n k :
  action p = FWake addr n k →
  (∃ k0, p = CMtx k0 MWake ∧ addr = 0%nat ∧ n = 1 ∧ k = return_to k0 MIdle) ∨
  (∃ a, p = PWake a ∧ addr = 1%nat ∧ 1 <= n ∧ k = COut).
Proof.
  destruct p as [|k0 q| | | | | | |[]|[]]; try done; intros Ha.
  - left. change (action (CMtx k0 q)) with (inside k0 (action q)) in Ha.
    destruct q as [| | |m| | | | | |]; try done; [|simpl in Ha; by simplify_eq; eauto].
    unfold action, mutex_prog in Ha. simpl in Ha. by destruct (m >? 0).
  - right. hnf_action Ha. simplify_eq. by exists true.
  - right. hnf_action Ha. simplify_eq. exists false. done.
Qed.

Lemma wake_step s l i p addr n k us :
  MonInv (MkConf s l) → l !! i = Some p → action p = FWake addr n k → wakeable addr n us l = true →
  MonInv (MkConf s (<[i := k]> (rouse_all us l))).
Proof.
  intros HI Hi Ha Hus. pose proof (λ w d, wake_total addr n us l i p k w d Hi Ha Hus) as Hw.
  assert (Hin : p ∈ l) by by eapply list_elem_of_lookup_2.
  assert (Hh := Hw (λ q, Z.b2z (holds_in q)) 0 (λ q Hq, proj1 (rouse_counts 0 q addr Hq))).
  assert (Hu := Hw (λ q, Z.b2z (unnotified q)) 0 (λ q Hq, proj1 (proj2 (rouse_counts 0 q addr Hq)))).
  assert (Hc := Hw (λ q, Z.b2z (coming (seq_ s) q)) (Z.of_nat addr) (λ q Hq, proj2 (proj2 (rouse_counts (seq_ s) q addr Hq)))).
  rewrite !total_tally in Hh, Hu, Hc.
  apply (woken_inv s l); [done| | | |].
  - intros q [->|(r & Hr & Hqr)%rouse_all_elem]%insert_cases.
    + exists p. split; [done|].
      destruct (wake_cases p addr n k Ha) as [(k0 & -> & _ & _ & ->)|(a & -> & _ & _ & ->)]; [destruct k0; naive_solver|done].
    + exists r. split; [done|]. destruct Hqr as [->| ->]; [done|].
      destruct (rouse_keeps (seq_ s) r) as (H1 & H2 & H3 & H4). rewrite H2. done.
  - rewrite Hh. destruct (wake_cases p addr n k Ha) as [(k0 & -> & _ & _ & ->)|(a & -> & _ & _ & ->)]; [|simpl; lia].
    rewrite holds_return. simpl. lia.
  - rewrite Hu. destruct (wake_cases p addr n k Ha) as [(k0 & -> & _ & _ & ->)|(a & -> & _ & _ & ->)]; [destruct k0; simpl; lia|simpl; lia].
  - intros r Hr Hra. rewrite Hc.
    destruct (wake_cases p addr n k Ha) as [(k0 & -> & -> & _ & ->)|(a & -> & -> & Hn & ->)]; [destruct k0; simpl; lia|].
    destruct r; try done. apply list_elem_of_lookup in Hr as [j Hj].
    pose proof (tally_pos (asleep_at 1) l j _ Hj eq_refl). simpl. lia.
Qed.

Lemma monitor_reachable n c : rtc (fstep_while seq_room) (monitor_init n) c → MonInv c.
Proof.
  intros Hr. refine (fstep_wake_invariant seq_room MonInv _ _ _ _ Hr _).
  - intros s l i p p' s' Hok HI Hi Hl Hnw. by eapply monitor_step.
  - intros s l i p addr m k us _ HI Hi Ha Hus. by eapply wake_step.
  - split; simpl; try done; [by left|by apply tally_replicate|by apply Forall_replicate|..].
    all: intros; apply tally_nonneg.
Qed.

(** A thread asleep in the mutex's [lock]. *)
Definition in_lock (p : cpc) : bool := match p with CMtx _ MAsleep => true | _ => false end.

(** C14: While the sequence number has room, in every interleaving of consumers and
    producers that notify one or all, with signals and spurious wake-ups: the
    mutex excludes; while a consumer sleeps in [wait] there are at least as
    many threads on their way to an item as there are items; so when no thread
    has a step of its own to take and nobody is stuck in the mutex's [lock], no
    consumer sleeps while there is an item. *)
Theorem condvar_no_lost_notification n c :
  rtc (fstep_while seq_room) (monitor_init n) c →
  (∀ i j p q, threads c !! i = Some p → threads c !! j = Some q →
     holds_in p = true → holds_in q = true → i = j) ∧
  (∀ v, CAsleep v ∈ threads c → items (shared c) <= tally (coming (seq_ (shared c))) (threads c)) ∧
  ((∀ p, p ∈ threads c → busy p = false ∧ in_lock p = false) →
     ∀ v, CAsleep v ∈ threads c → items (shared c) = 0).
Proof.
  intros Hr. destruct (monitor_reachable n c Hr) as [Hw Hh Hn _ Hs _ _ Ha]. split_and!.
  - intros i j p q Hi Hj Hp Hq. destruct (decide (i = j)) as [|Hij]; [done|].
    pose proof (tally_two holds_in _ i j p q Hi Hj Hp Hq Hij) as H2. rewrite Hh in H2.
    unfold locked in H2. case_match; lia.
  - intros v Hv. by apply (Ha (CAsleep v)).
  - intros Hq v Hv. specialize (Ha (CAsleep v) Hv eq_refl).
    rewrite <- total_tally, total_zero in Ha; [lia|]. apply Forall_forall. intros p Hp.
    rewrite Forall_forall in Hs. specialize (Hs p Hp). destruct (Hq p Hp) as [Hb Hl]. destruct p as [|k q| | | | | | |[]|[]]; try done.
    unfold busy in Hb. change (action (CMtx k q)) with (inside k (action q)) in Hb.
    destruct k, q as [| | |m| | | | | |]; try (by destruct Hs); try done.
    all: unfold action, mutex_prog in Hb; simpl in Hb; by destruct (m >? 0).
Qed.

(** A consumer goes to sleep, a producer adds an item and has yet to notify;
    then it does, and the consumer takes the item. *)
Definition consumer_waits : list move := Call 0 0 :: replicate 5 (Step 0 false).
Definition producer_adds : list move := Call 1 1 :: replicate 3 (Step 1 false).
Definition handed_over : list move := [Step 1 false; Wake 1 [0%nat]] ++ replicate 4 (Step 0 false).

Definition seq_roomb (c : config cpc mstate) : bool := seq_ (shared c) <? 2 ^ 31 - 1.

Lemma seq_roomb_ok c : seq_roomb c = true → seq_room c.
Proof. unfold seq_roomb, seq_room. intros. by apply Z.ltb_lt. Qed.

Lemma condvar_no_lost_notification_witness :
  ∃ c, rtc (fstep_while seq_room) (monitor_init 2) c ∧
    c = MkConf (MkMon Unlocked 0 1) [CAsleep 0; PNotify false] ∧
    items (shared c) <= tally (coming (seq_ (shared c))) (threads c) ∧
    run_moves handed_over c = Some (MkConf (MkMon Unlocked 1 0) [COut; COut]).
Proof.
  assert (E : run_while seq_roomb (consumer_waits ++ producer_adds) (monitor_init 2) =
              Some (MkConf (MkMon Unlocked 0 1) [CAsleep 0; PNotify false])) by (vm_compute; reflexivity).
  pose proof (run_moves_while seq_roomb seq_room _ _ _ seq_roomb_ok E) as Hr.
  eexists. split; [exact Hr|]. split; [reflexivity|]. split; [|vm_compute; reflexivity].
  apply (proj1 (proj2 (condvar_no_lost_notification 2 _ Hr)) 0). left.
Defined.
