(* ===== verification/AsyncGuards.v ===== *)
(** * Guards of the coroutine locks as objects
    (src/include/pman/async/mutex.hpp, semaphore.hpp, rwlock.hpp)

    AsyncSync.v has one lock and lists of owners.  In the code an acquisition
    belongs to a guard object ([Mutex::LockGuard], [Semaphore::Guard],
    [RwLock::ReadGuard], [RwLock::WriteGuard]) that is returned by an awaiter or
    a try call, moved, assigned over and destroyed, with guards of many locks
    about; and a permit of a semaphore may be taken and given back by hand.
    Programs over such objects refine, lock by lock, the system of AsyncSync.v:
    a move is a stutter, and the owners of a lock are the guards that point to
    it, with the permits taken by hand.  The four guard classes are the same
    text up to the name of the pointer and of the release they call, so they are
    one definition over the class [AsyncPrim]. *)

From S2P Require Import Prelude AsyncSync.

Section guards.
Context {P M : Type} `{!AsyncPrim P M, !EqDecision M}.

(** A guard: [lock_], null after a move.  [mode] is its class (a read guard or
    a write guard); [tag] is the acquisition it stands for, which the code need
    not know. *)
Record Guard := MkGuard { lock_ : option Z; mode : M; tag : Z }.

(** [posts]: handles posted to the event loop, with the lock they own.
    [permits]: acquisitions made without a guard. *)
Record World := MkWorld {
  locks : gmap Z P;
  posts : list (Z * (Z * M));
  objs : gmap Z Guard;
  permits : list (Z * (Z * M))
}.

Definition set_lock (i : Z) (p : P) (w : World) : World := MkWorld (<[i := p]> (locks w)) (posts w) (objs w) (permits w).
Definition set_obj (x : Z) (g : Guard) (w : World) : World := MkWorld (locks w) (posts w) (<[x := g]> (objs w)) (permits w).

(** New guards for coroutines resumed at once, under the names [xs]. *)
Definition resumed (i : Z) (xs : list Z) (hs : list (Z * M)) (m : gmap Z Guard) : gmap Z Guard :=
  foldr (λ '(x, (h, md)), <[x := MkGuard (Some i) md h]>) m (zip xs hs).

(** [unlock], [release], [unlockRead], [unlockWrite] of lock [i]: the handles it
    wakes are posted, or resumed when there is no current loop. *)
Definition unlock (loop : bool) (xs : list Z) (i : Z) (md : M) (w : World) : World :=
  match locks w !! i with
  | Some p =>
      let '(hs, p') := release md p in
      if loop
      then MkWorld (<[i := p']> (locks w)) (posts w ++ ((λ a, (i, a)) <$> hs)) (objs w) (permits w)
      else MkWorld (<[i := p']> (locks w)) (posts w) (resumed i xs hs (objs w)) (permits w)
  | None => w
  end.

(** [if (lock_) lock_->unlock();] of the destructor and the assignment. *)
Definition give_back (loop : bool) (xs : list Z) (g : Guard) (w : World) : World :=
  match lock_ g with Some i => unlock loop xs i (mode g) w | None => w end.

Definition null (g : Guard) : Guard := MkGuard None (mode g) (tag g).

Definition guard_destroy (loop : bool) (xs : list Z) (x : Z) (w : World) : World :=
  match objs w !! x with
  | Some g => give_back loop xs g (MkWorld (locks w) (posts w) (delete x (objs w)) (permits w))
  | None => w
  end.

Definition guard_move_construct (x y : Z) (w : World) : World :=
  match objs w !! y with Some g => set_obj x g (set_obj y (null g) w) | None => w end.

Definition guard_move_assign (loop : bool) (xs : list Z) (x y : Z) (w : World) : World :=
  if x =? y then w
  else match objs w !! x with
       | Some g => guard_move_construct x y (give_back loop xs g (set_obj x (null g) w))
       | None => w
       end.

(** [lock], [acquireGuard], [readLock], [writeLock] that succeed in
    [await_ready], and the try calls: [await_resume] returns a guard. *)
Definition acquire_guard (x i h : Z) (md : M) (w : World) : option World :=
  p ← locks w !! i;
  match await_ready md p with
  | (true, p') => Some (set_obj x (MkGuard (Some i) md h) (set_lock i p' w))
  | (false, _) => None
  end.

(** [acquire] and [tryAcquire] of a semaphore, that succeed. *)
Definition acquire_permit (i h : Z) (md : M) (w : World) : option World :=
  p ← locks w !! i;
  match await_ready md p with
  | (true, p') => Some (MkWorld (<[i := p']> (locks w)) (posts w) (objs w) ((i, (h, md)) :: permits w))
  | (false, _) => None
  end.

(** The coroutine [h] is queued. *)
Definition suspend (i h : Z) (md : M) (w : World) : option World :=
  p ← locks w !! i;
  match await_ready md p with
  | (false, p') => Some (set_lock i (await_suspend md h p') w)
  | (true, _) => None
  end.

(** The loop resumes the handle it posted first: [await_resume] of an awaiter
    that returns a guard, or of one that does not. *)
Definition resume_guard (x : Z) (w : World) : option World :=
  match posts w with
  | (i, (h, md)) :: q => Some (MkWorld (locks w) q (<[x := MkGuard (Some i) md h]> (objs w)) (permits w))
  | [] => None
  end.

Definition resume_permit (w : World) : option World :=
  match posts w with
  | a :: q => Some (MkWorld (locks w) q (objs w) (a :: permits w))
  | [] => None
  end.

(** What lock [i] is owed: by the guards that point to it and the permits taken
    by hand. *)
Definition owes (i : Z) (g : Guard) : option (Z * M) := if decide (lock_ g = Some i) then Some (tag g, mode g) else None.
Definition at_lock (i : Z) (a : Z * (Z * M)) : option (Z * M) := if decide (a.1 = i) then Some a.2 else None.
Definition guards_of (i : Z) (m : gmap Z Guard) : list (Z * M) := omap (λ a, owes i a.2) (map_to_list m).
Definition owners (i : Z) (w : World) : list (Z * M) := guards_of i (objs w) ++ omap (at_lock i) (permits w).
Definition posted_to (i : Z) (w : World) : list (Z * M) := omap (at_lock i) (posts w).

(** The tag is not in use at the lock. *)
Definition unused (i h : Z) (w : World) : Prop :=
  ∀ p, locks w !! i = Some p → h ∉ (owners i w ++ posted_to i w ++ waiting p).*1.

(** Names for the guards of the coroutines a release resumes at once. *)
Definition new_names (xs : list Z) (w : World) : Prop :=
  NoDup xs ∧ Forall (λ x, objs w !! x = None) xs ∧
  ∀ i md p, locks w !! i = Some p → (length (release md p).1 <= length xs)%nat.

(** Steps of a program.  [manual] says whether the locks have acquisitions
    without a guard: only semaphores do. *)
Context (manual : bool).

Inductive gstep : relation World :=
  | G_acquire x i h md w w' :
      objs w !! x = None → unused i h w → acquire_guard x i h md w = Some w' → gstep w w'
  | G_suspend i h md w w' : unused i h w → suspend i h md w = Some w' → gstep w w'
  | G_resume x w w' : objs w !! x = None → resume_guard x w = Some w' → gstep w w'
  | G_destroy loop xs x w : new_names xs w → gstep w (guard_destroy loop xs x w)
  | G_move x y w : objs w !! x = None → gstep w (guard_move_construct x y w)
  | G_assign loop xs x y gx gy w :
      new_names xs w → objs w !! x = Some gx → objs w !! y = Some gy → mode gx = mode gy →
      gstep w (guard_move_assign loop xs x y w)
  | G_permit i h md w w' :
      manual = true → unused i h w → acquire_permit i h md w = Some w' → gstep w w'
  | G_resume_permit w w' : manual = true → resume_permit w = Some w' → gstep w w'
  | G_release loop xs l1 i h md l2 w :
      manual = true → permits w = l1 ++ (i, (h, md)) :: l2 → new_names xs w →
      gstep w (unlock loop xs i md (MkWorld (locks w) (posts w) (objs w) (l1 ++ l2))).

(** ** The owners of a lock *)

Lemma guards_of_insert i x g m :
  m !! x = None → guards_of i (<[x := g]> m) ≡ₚ option_list (owes i g) ++ guards_of i m.
Proof. intros Hx. unfold guards_of. rewrite map_to_list_insert by done. cbn. by destruct (owes i g). Qed.

Lemma guards_of_delete i x g m :
  m !! x = Some g → guards_of i m ≡ₚ option_list (owes i g) ++ guards_of i (delete x m).
Proof. intros Hx. rewrite <- (insert_delete_id m x g Hx) at 1. by apply guards_of_insert, lookup_delete_eq. Qed.

Lemma guards_of_replace i x g g' m :
  m !! x = Some g → guards_of i (<[x := g']> m) ≡ₚ option_list (owes i g') ++ guards_of i (delete x m).
Proof. intros Hx. rewrite <- insert_delete_eq. by apply guards_of_insert, lookup_delete_eq. Qed.

Lemma guards_of_null i x g m :
  m !! x = Some g → guards_of i (<[x := null g]> m) ≡ₚ guards_of i (delete x m).
Proof. intros Hx. by rewrite (guards_of_replace i x g _ m Hx). Qed.

(** Moving a guard to an object that is new or null keeps the owners. *)
Lemma guards_of_move i x y g m :
  x ≠ y → m !! y = Some g → match m !! x with Some gx => lock_ gx = None | None => True end →
  guards_of i (<[x := g]> (<[y := null g]> m)) ≡ₚ guards_of i m.
Proof.
  intros Hxy Hy Hx. destruct (m !! x) as [gx|] eqn:Hmx.
  - assert (Hx' : <[y := null g]> m !! x = Some gx) by (by rewrite lookup_insert_ne).
    assert (Hy' : delete x m !! y = Some g) by (by rewrite lookup_delete_ne).
    rewrite (guards_of_replace i x gx g _ Hx'), delete_insert_ne by done.
    rewrite (guards_of_null i y g _ Hy'), (guards_of_delete i x gx m Hmx), (guards_of_delete i y g _ Hy').
    unfold owes at 2. rewrite Hx. by case_decide.
  - rewrite guards_of_insert by (by rewrite lookup_insert_ne).
    by rewrite (guards_of_null i y g m Hy), (guards_of_delete i y g m Hy).
Qed.

Lemma resumed_cons i x xs h md hs m :
  resumed i (x :: xs) ((h, md) :: hs) m = <[x := MkGuard (Some i) md h]> (resumed i xs hs m).
Proof. done. Qed.

Lemma resumed_other i xs hs m x : x ∉ xs → resumed i xs hs m !! x = m !! x.
Proof.
  revert hs. induction xs as [|y xs IH]; intros [|[h md] hs] Hx; try done. rewrite resumed_cons. apply not_elem_of_cons in Hx as [? ?].
  rewrite lookup_insert_ne by done. by apply IH.
Qed.

Lemma guards_of_resumed i j xs hs m :
  NoDup xs → Forall (λ x, m !! x = None) xs → (length hs <= length xs)%nat →
  guards_of j (resumed i xs hs m) ≡ₚ (if decide (i = j) then hs else []) ++ guards_of j m.
Proof.
  intros Hn Hf. revert hs. induction xs as [|x xs IH]; intros [|[h md] hs] Hl; simpl in Hl; try lia.
  1-2: cbn; by case_decide.
  apply NoDup_cons in Hn as [Hx Hn]. apply Forall_cons in Hf as [Hxm Hf].
  rewrite resumed_cons, guards_of_insert by (by rewrite resumed_other). rewrite (IH Hn Hf) by lia.
  unfold owes. cbn. by repeat (case_decide; simplify_eq).
Qed.

Lemma at_lock_map i j (hs : list (Z * M)) :
  omap (at_lock j) ((λ a, (i, a)) <$> hs) = if decide (i = j) then hs else [].
Proof.
  induction hs as [|a hs IH]; cbn; [by case_decide|]. unfold at_lock at 1. cbn. rewrite IH. by case_decide.
Qed.

(** ** The refinement *)

Definition implements (i : Z) (w : World) (s : Sys P M) : Prop :=
  locks w !! i = Some (prim s) ∧ held s ≡ₚ owners i w ∧ posted s = posted_to i w.

(** Giving back an acquisition: for the lock it is a release, for another
    nothing. *)
Lemma unlock_refines loop xs i h md w s :
  NoDup xs → Forall (λ x, objs w !! x = None) xs →
  (length (release md (prim s)).1 <= length xs)%nat →
  locks w !! i = Some (prim s) → held s ≡ₚ (h, md) :: owners i w → posted s = posted_to i w →
  ∃ s', sys_step s s' ∧ implements i (unlock loop xs i md w) s'.
Proof.
  intros Hn Hf Hl Hi Hh Hp. unfold unlock. rewrite Hi. destruct (release md (prim s)) as [hs p'] eqn:Er.
  assert (Hin : (h, md) ∈ held s) by (rewrite Hh; left). apply list_elem_of_split in Hin as (l1 & l2 & El).
  rewrite El, <- Permutation_middle in Hh. apply Permutation_cons_inv in Hh. destruct loop.
  - exists (MkSys p' (l1 ++ l2) (posted s ++ hs)). split; [by eapply step_release|].
    unfold implements, posted_to, owners in *. cbn. rewrite lookup_insert_eq. split_and!; [done|done|].
    by rewrite omap_app, at_lock_map, decide_True, Hp.
  - exists (MkSys p' (hs ++ l1 ++ l2) (posted s)). split; [by eapply step_release_direct|].
    unfold implements, posted_to, owners in *. cbn in *. rewrite lookup_insert_eq. split_and!; [done| |done].
    rewrite guards_of_resumed, decide_True by done. by rewrite Hh, app_assoc.
Qed.

Lemma unlock_other loop xs i j md w s :
  NoDup xs → Forall (λ x, objs w !! x = None) xs →
  (∀ p, locks w !! i = Some p → length (release md p).1 <= length xs)%nat →
  i ≠ j → implements j w s → implements j (unlock loop xs i md w) s.
Proof.
  intros Hn Hf Hl Hij (H1 & H2 & H3). unfold unlock. destruct (locks w !! i) as [p|] eqn:Hi; [|done].
  specialize (Hl p eq_refl). destruct (release md p) as [hs p'].
  destruct loop; unfold implements, owners, posted_to in *; cbn in *; rewrite lookup_insert_ne by done; split_and!; try done.
  - by rewrite omap_app, at_lock_map, decide_False, app_nil_r.
  - by rewrite guards_of_resumed, decide_False.
Qed.

(** An acquisition [o] of lock [i] leaves the world and is given back. *)
Lemma release_refines loop xs i j h md w s :
  NoDup xs → Forall (λ x, objs w !! x = None) xs →
  (∀ p, locks w !! i = Some p → length (release md p).1 <= length xs)%nat →
  locks w !! j = Some (prim s) → posted s = posted_to j w →
  held s ≡ₚ (if decide (i = j) then [(h, md)] else []) ++ owners j w →
  ∃ s', rtc sys_step s s' ∧ implements j (unlock loop xs i md w) s'.
Proof.
  intros Hn Hf Hl Hj Hp Hh. case_decide as Hij.
  - subst j. destruct (unlock_refines loop xs i h md w s Hn Hf (Hl _ Hj) Hj Hh Hp) as (s' & Hs & HI).
    exists s'. split; [by apply rtc_once|done].
  - exists s. split; [done|]. by apply unlock_other.
Qed.

Lemma give_back_refines loop xs g j w s :
  NoDup xs → Forall (λ x, objs w !! x = None) xs →
  (∀ i md p, locks w !! i = Some p → length (release md p).1 <= length xs)%nat →
  locks w !! j = Some (prim s) → posted s = posted_to j w → held s ≡ₚ option_list (owes j g) ++ owners j w →
  ∃ s', rtc sys_step s s' ∧ implements j (give_back loop xs g w) s'.
Proof.
  intros Hn Hf Hl Hj Hp Hh. unfold give_back. destruct (lock_ g) as [i|] eqn:Hg.
  - apply (release_refines loop xs i j (tag g) (mode g)); [done|done|by apply Hl|done|done|]. rewrite Hh. unfold owes. rewrite Hg.
    by repeat case_decide; simplify_eq.
  - exists s. split; [done|]. split_and!; [done| |done]. rewrite Hh. unfold owes. rewrite Hg. by case_decide.
Qed.

Lemma give_back_objs loop xs g x w : x ∉ xs → objs (give_back loop xs g w) !! x = objs w !! x.
Proof.
  intros Hx. unfold give_back, unlock. destruct (lock_ g) as [i|]; [|done]. destruct (locks w !! i) as [p|]; [|done].
  destruct (release _ p) as [hs p']. destruct loop; cbn; [done|]. by apply resumed_other.
Qed.

Lemma move_implements x y j w s :
  x ≠ y → match objs w !! x with Some gx => lock_ gx = None | None => True end →
  implements j w s → implements j (guard_move_construct x y w) s.
Proof.
  intros Hxy Hx (H1 & H2 & H3). unfold guard_move_construct. destruct (objs w !! y) as [g|] eqn:Hy; [|done].
  split_and!; [done| |done]. unfold owners in *. cbn. by rewrite guards_of_move.
Qed.

Lemma unused_handles i h w s : unused i h w → implements i w s → h ∉ handles s.
Proof.
  intros Hu (H1 & H2 & H3). unfold handles. rewrite H2, H3. by apply Hu.
Qed.

Lemma names_new xs x (w : World) g : new_names xs w → objs w !! x = Some g → x ∉ xs.
Proof. intros (_ & Hf & _) Hx Hin. rewrite Forall_forall in Hf. specialize (Hf x Hin). congruence. Qed.

Lemma destroy_refines loop xs x j w s :
  new_names xs w → implements j w s →
  ∃ s', rtc sys_step s s' ∧ implements j (guard_destroy loop xs x w) s'.
Proof.
  intros Hx (H1 & H2 & H3). unfold guard_destroy. destruct (objs w !! x) as [g|] eqn:Hg; [|by exists s].
  destruct Hx as (Hn & Hf & Hl). apply give_back_refines; cbn; try done.
  - eapply Forall_impl; [exact Hf|]. intros z Hz. cbn. rewrite lookup_delete_None. by right.
  - unfold owners in *. cbn. by rewrite H2, (guards_of_delete j x g _ Hg), app_assoc.
Qed.

Lemma assign_refines loop xs x y j w s :
  new_names xs w → implements j w s →
  ∃ s', rtc sys_step s s' ∧ implements j (guard_move_assign loop xs x y w) s'.
Proof.
  intros Hx (H1 & H2 & H3). unfold guard_move_assign. destruct (Z.eqb_spec x y) as [|Hxy]; [by exists s|].
  destruct (objs w !! x) as [g|] eqn:Hg; [|by exists s]. pose proof (names_new xs x w g Hx Hg) as Hni.
  destruct Hx as (Hn & Hf & Hl).
  destruct (give_back_refines loop xs g j (set_obj x (null g) w) s) as (s' & Hr & HI); cbn; try done.
  - apply Forall_forall. intros z Hz. rewrite lookup_insert_ne by (by intros ->).
    rewrite Forall_forall in Hf. by apply Hf.
  - unfold owners in *. cbn. by rewrite H2, (guards_of_null j x g _ Hg), app_assoc, <- (guards_of_delete j x g _ Hg).
  - exists s'. split; [done|]. apply move_implements; [done| |done].
    rewrite give_back_objs by done. cbn. by rewrite lookup_insert_eq.
Qed.

Lemma acquire_refines x i h md j w w' s :
  objs w !! x = None → unused i h w → acquire_guard x i h md w = Some w' → implements j w s →
  ∃ s', rtc sys_step s s' ∧ implements j w' s'.
Proof.
  intros Hx Hu Ha HI. pose proof HI as (H1 & H2 & H3). unfold acquire_guard in Ha. apply bind_Some in Ha as (p & Hp & Ha).
  destruct (await_ready md p) as [[] p'] eqn:Er; simplify_eq.
  pose proof (guards_of_insert j x (MkGuard (Some i) md h) _ Hx) as Ho. unfold owes in Ho. cbn in Ho.
  unfold implements, owners, posted_to in *. cbn. case_decide as Hij; simplify_eq.
  - exists (MkSys p' ((h, md) :: held s) (posted s)). split.
    + apply rtc_once, step_acquire; [|done]. by eapply unused_handles.
    + rewrite lookup_insert_eq. cbn. by rewrite Ho, H2.
  - exists s. split; [done|]. rewrite lookup_insert_ne, Ho by congruence. done.
Qed.

Lemma permit_refines i h md j w w' s :
  unused i h w → acquire_permit i h md w = Some w' → implements j w s →
  ∃ s', rtc sys_step s s' ∧ implements j w' s'.
Proof.
  intros Hu Ha HI. pose proof HI as (H1 & H2 & H3). unfold acquire_permit in Ha. apply bind_Some in Ha as (p & Hp & Ha).
  destruct (await_ready md p) as [[] p'] eqn:Er; simplify_eq.
  unfold implements, owners, posted_to in *. cbn. unfold at_lock at 1. cbn.
  case_decide as Hij; simplify_eq.
  - exists (MkSys p' ((h, md) :: held s) (posted s)). split.
    + apply rtc_once, step_acquire; [|done]. by eapply unused_handles.
    + rewrite lookup_insert_eq. cbn. by rewrite H2, Permutation_middle.
  - exists s. split; [done|]. rewrite lookup_insert_ne by congruence. done.
Qed.

Lemma suspend_refines i h md j w w' s :
  unused i h w → suspend i h md w = Some w' → implements j w s →
  ∃ s', rtc sys_step s s' ∧ implements j w' s'.
Proof.
  intros Hu Ha HI. pose proof HI as (H1 & H2 & H3). unfold suspend in Ha. apply bind_Some in Ha as (p & Hp & Ha).
  destruct (await_ready md p) as [[] p'] eqn:Er; simplify_eq. destruct (decide (i = j)) as [->|Hij].
  - simplify_eq. exists (MkSys (await_suspend md h p') (held s) (posted s)). split.
    + apply rtc_once, step_suspend; [|done]. by eapply unused_handles.
    + split_and!; [|done|done]. cbn. by rewrite lookup_insert_eq.
  - exists s. split; [done|]. split_and!; [|done|done]. cbn. by rewrite lookup_insert_ne.
Qed.

(** The handle posted first becomes a guard or a permit. *)
Lemma resumption_refines i h md q j w w' s :
  posts w = (i, (h, md)) :: q → locks w' = locks w → posts w' = q →
  owners j w' ≡ₚ (if decide (i = j) then [(h, md)] else []) ++ owners j w → implements j w s →
  ∃ s', rtc sys_step s s' ∧ implements j w' s'.
Proof.
  intros Hq Hl Hp Ho (H1 & H2 & H3). unfold posted_to in H3. rewrite Hq in H3. cbn in H3.
  unfold at_lock at 1 in H3. cbn in H3. case_decide.
  - exists (MkSys (prim s) ((h, md) :: held s) (omap (at_lock j) q)). split; [by apply rtc_once, step_resume|].
    unfold implements, posted_to. cbn. by rewrite Hl, Hp, Ho, H2.
  - exists s. split; [done|]. unfold implements, posted_to. by rewrite Hl, Hp, Ho.
Qed.

Lemma gstep_refines j w w' s :
  gstep w w' → implements j w s → ∃ s', rtc sys_step s s' ∧ implements j w' s'.
Proof.
  intros Hs HI. destruct Hs as [x i h md w w' Hx Hu Ha|i h md w w' Hu Ha|x w w' Hx Ha|loop xs x w Hx|x y w Hx
    |loop xs x y gx gy w Hx Hgx Hgy Hm|i h md w w' Hm Hu Ha|w w' Hm Ha|loop xs l1 i h md l2 w Hm Hp Hx].
  - by eapply acquire_refines.
  - by eapply suspend_refines.
  - unfold resume_guard in Ha. destruct (posts w) as [|[i [h md]] q] eqn:Hq; simplify_eq.
    eapply resumption_refines; [done..| |done]. unfold owners. cbn. rewrite guards_of_insert by done.
    unfold owes. cbn. by repeat case_decide; simplify_eq.
  - by apply destroy_refines.
  - exists s. split; [done|]. destruct (decide (x = y)) as [<-|Hxy].
    + unfold guard_move_construct. by rewrite Hx.
    + apply move_implements; [done|by rewrite Hx|done].
  - by apply assign_refines.
  - by eapply permit_refines.
  - unfold resume_permit in Ha. destruct (posts w) as [|[i [h md]] q] eqn:Hq; simplify_eq.
    eapply resumption_refines; [done..| |done]. unfold owners. cbn. unfold at_lock at 1. cbn.
    case_decide; [by rewrite <- Permutation_middle|done].
  - destruct HI as (H1 & H2 & H3), Hx as (Hn & Hf & Hl). apply (release_refines loop xs i j h md); cbn; try done.
    + intros p. apply Hl.
    + rewrite H2. unfold owners. cbn. rewrite Hp, !omap_app. cbn. unfold at_lock at 2. cbn.
      case_decide; [by rewrite <- !Permutation_middle|done].
Qed.
End guards.
Arguments World P M : clear implicits.
Arguments Guard M : clear implicits.

(** New locks, and no guards. *)
Definition fresh_locks {P M} (ls : gmap Z P) : World P M := MkWorld ls [] ∅ [].

Section refinement.
Context {P M : Type} `{!AsyncPrim P M, !AsyncPrimLaws P M, !EqDecision M}.

Lemma guards_implement manual (ls : gmap Z P) (w : World P M) j p0 :
  rtc (gstep manual) (fresh_locks ls) w → ls !! j = Some p0 → ∃ s, rtc sys_step (MkSys p0 [] []) s ∧ implements j w s.
Proof.
  intros Hr Hj. revert w Hr. apply rtc_ind_r; [exists (MkSys p0 [] []); by split|].
  intros w1 w2 _ Hs (s & Hs1 & HI). destruct (gstep_refines manual j w1 w2 s Hs HI) as (s' & Hs2 & HI').
  exists s'. split; [by etrans|done].
Qed.

Lemma owners_consistent (w : World P M) j p0 s :
  SysInv (MkSys (M := M) p0 [] []) → rtc sys_step (MkSys p0 [] []) s → implements j w s →
  consistent (prim s) (owners j w ++ posted_to j w).*2.
Proof.
  intros H0 Hs (_ & H2 & H3). destruct (sys_reachable_inv _ _ Hs H0) as [Hc _]. unfold modes in Hc.
  eapply consistent_perm; [|exact Hc]. by rewrite H2, H3.
Qed.

(** C10: However guards of any number of coroutine locks are returned by awaiters and
    try calls, moved, assigned over and destroyed, and permits of semaphores
    taken and given back by hand, each lock goes through states of the system of
    one lock, whose owners are at each moment the guards that point to the lock
    and the permits out: no guard gives its lock back twice, a moved-from one
    does nothing, and while a coroutine is suspended on the lock some guard,
    permit or posted handle owns it, unless the lock is a semaphore made with no
    permits. *)
Theorem guards_refine_owners manual (ls : gmap Z P) (w : World P M) j p0 :
  rtc (gstep manual) (fresh_locks ls) w → ls !! j = Some p0 → constructed p0 →
  ∃ s, rtc sys_step (MkSys p0 [] []) s ∧ locks w !! j = Some (prim s) ∧
       held s ≡ₚ owners j w ∧ posted s = posted_to j w ∧
       consistent (prim s) (owners j w ++ posted_to j w).*2 ∧
       (waiting (prim s) ≠ [] → owners j w ++ posted_to j w ≠ [] ∨ barren (prim s)).
Proof.
  intros Hr Hj H0. destruct (guards_implement manual ls w j p0 Hr Hj) as (s & Hs & HI). exists s.
  pose proof (owners_consistent w j p0 s (constructed_sys_inv p0 H0) Hs HI) as Hc. destruct HI as (H1 & H2 & H3).
  split_and!; try done. intros Hw. destruct (waiting_has_owner _ _ Hc Hw) as [Hg|]; [left|by right].
  intros E. by rewrite E in Hg.
Qed.
End refinement.

#[export] Instance rw_mode_eq_dec : EqDecision rw_mode.
Proof. solve_decision. Defined.

(** A write guard of a reader-writer lock is the only guard of its lock. *)
Corollary write_guard_alone (ls : gmap Z RwLock) (w : World RwLock rw_mode) j x g :
  rtc (gstep false) (fresh_locks ls) w → ls !! j = Some RwLock_init →
  objs w !! x = Some g → lock_ g = Some j → mode g = Write →
  ∀ y g', objs w !! y = Some g' → lock_ g' = Some j → y = x.
Proof.
  intros Hr Hj Hx Hl Hm y g' Hy Hl'. destruct (decide (y = x)) as [|Hxy]; [done|exfalso].
  destruct (guards_implement false ls w j RwLock_init Hr Hj) as (s & Hs & HI).
  pose proof (owners_consistent w j _ s rwlock_sys_inv Hs HI) as Hc.
  assert (Hy' : delete x (objs w) !! y = Some g') by (by rewrite lookup_delete_ne).
  assert (Ho : owners j w ≡ₚ (tag g, Write) :: (tag g', mode g') :: guards_of j (delete y (delete x (objs w))) ++ omap (at_lock j) (permits w)).
  { unfold owners. rewrite (guards_of_delete j x g _ Hx), (guards_of_delete j y g' _ Hy').
    unfold owes. rewrite Hl, Hl', !decide_True, Hm by done. done. }
  eapply consistent_perm in Hc; [|by rewrite Ho]. cbn in Hc. destruct Hc as [[? _]|(_ & Hf & _)]; [done|].
  by apply Forall_cons in Hf as [? _].
Qed.

(** A read guard is taken, moved, and a writer is suspended. *)
Definition one_lock : gmap Z RwLock := {[0 := RwLock_init]}.
Definition sample_guards : World RwLock rw_mode :=
  MkWorld {[0 := MkRwLock 1 [] [7]]} [] (<[2 := MkGuard (Some 0) Read 5]> {[1 := MkGuard None Read 5]}) [].

Lemma sample_guards_reachable : rtc (gstep false) (fresh_locks one_lock) sample_guards.
Proof.
  eapply rtc_l; [eapply (G_acquire _ 1 0 5 Read); [done| |by vm_compute]|].
  { intros p Hp Hin. vm_compute in Hp. simplify_eq. by apply elem_of_nil in Hin. }
  eapply rtc_l; [by apply (G_move _ 2 1)|].
  eapply rtc_l; [eapply (G_suspend _ 0 7 Write); [|by vm_compute]|].
  { intros p Hp Hin. vm_compute in Hp. simplify_eq. vm_compute in Hin.
    apply elem_of_cons in Hin as [?|Hin]; [done|by apply elem_of_nil in Hin]. }
  apply rtc_refl.
Qed.

Lemma guards_refine_owners_witness :
  waiting (MkRwLock 1 [] [7]) ≠ [] ∧ owners 0 sample_guards ++ posted_to 0 sample_guards ≠ [].
Proof.
  split; [done|].
  assert (Hc : constructed RwLock_init) by done.
  destruct (guards_refine_owners false one_lock sample_guards 0 RwLock_init sample_guards_reachable eq_refl Hc)
    as (s & _ & Hp & _ & _ & _ & Hw).
  destruct Hw as [Hw|Hw]; [|exact Hw|destruct Hw].
  assert (E : locks sample_guards !! 0 = Some (MkRwLock 1 [] [7])) by (vm_compute; reflexivity).
  rewrite E in Hp. injection Hp as <-. done.
Defined.
