(* ===== verification/ChannelHandles.v ===== *)
(** * The ends of a channel (src/include/pman/async/channel.hpp)

    Channel.v models one [ChannelImpl].  [Sender] and [Receiver] are copyable
    handles that share it through a [shared_ptr]: the implementation object is
    destroyed, and closed by its destructor, when the last of them goes.  A
    coroutine suspended in [send] or [recv] keeps only a plain pointer to it.
    [send] and [recv] are coroutines that start suspended: the call only keeps
    the address of the handle, and the body reads the handle when it is started,
    by when the handle may have changed or gone.  This file models the handles of
    any number of channels, with the empty ones that moves leave, and the tasks
    their calls have made. *)

From S2P Require Import Prelude Channel.

Section ends.
Context {T : Type} (moved_from : T → T).

(** A [Sender] or a [Receiver]; [impl_] is the channel it shares, null after a
    move. *)
Inductive role := SenderEnd | ReceiverEnd.
Record End := MkEnd { kind : role; impl_ : option Z }.

(** The body of a task that has not been started. *)
Inductive call := CSend (v : T) | CRecv.

(** [orphans]: resumptions that the loop still has to run for channels that are
    gone; [tasks]: the tasks not yet started, with the handle each was called
    on. *)
Record World := MkWorld {
  impls : gmap Z (ChannelImpl (T := T));
  ends : gmap Z End;
  orphans : list (Z * (Z * side));
  tasks : gmap Z (Z * call)
}.

Definition refers (i : Z) (e : End) : bool := bool_decide (impl_ e = Some i).

(** Whether any handle still shares channel [i]. *)
Definition shared_by (i : Z) (m : gmap Z End) : bool := existsb (λ p, refers i p.2) (map_to_list m).

(** A [shared_ptr] to channel [i] went: if it was the last one,
    [~ChannelImpl] closes the channel and the object is freed; what the close
    posted, and what was posted before, stays with the loop. *)
Definition drop_ref (o : option Z) (w : World) : World :=
  match o with
  | Some i =>
      if shared_by i (ends w) then w
      else match impls w !! i with
           | Some c => MkWorld (delete i (impls w)) (ends w) (orphans w ++ ((λ p, (i, p)) <$> posted (close c))) (tasks w)
           | None => w
           end
  | None => w
  end.

Definition set_end (x : Z) (e : End) (w : World) : World := MkWorld (impls w) (<[x := e]> (ends w)) (orphans w) (tasks w).

(** [channel<T>(capacity)]: a new implementation object and its two handles. *)
Definition make_channel (i tx rx : Z) (capacity : nat) (w : World) : World :=
  MkWorld (<[i := channel capacity]> (impls w))
    (<[rx := MkEnd ReceiverEnd (Some i)]> (<[tx := MkEnd SenderEnd (Some i)]> (ends w))) (orphans w) (tasks w).

(** The implicit copy and move operations of a handle, and its destructor. *)
Definition end_copy (x y : Z) (w : World) : World :=
  match ends w !! y with Some e => set_end x e w | None => w end.

Definition end_move (x y : Z) (w : World) : World :=
  match ends w !! y with Some e => set_end x e (set_end y (MkEnd (kind e) None) w) | None => w end.

Definition end_copy_assign (x y : Z) (w : World) : World :=
  match ends w !! x with Some e => drop_ref (impl_ e) (end_copy x y w) | None => w end.

Definition end_move_assign (x y : Z) (w : World) : World :=
  if x =? y then w
  else match ends w !! x with Some e => drop_ref (impl_ e) (end_move x y w) | None => w end.

Definition end_destroy (x : Z) (w : World) : World :=
  match ends w !! x with
  | Some e => drop_ref (impl_ e) (MkWorld (impls w) (delete x (ends w)) (orphans w) (tasks w))
  | None => w
  end.

(** A call through handle [x]: [None] is a use of an object that is gone; a
    handle without a channel gives [d]. *)
Definition through {A} (x : Z) (d : A) (f : ChannelImpl (T := T) → A * ChannelImpl (T := T)) (w : World) : option (A * World) :=
  e ← ends w !! x;
  match impl_ e with
  | None => Some (d, w)
  | Some i => c ← impls w !! i;
              let '(a, c') := f c in Some (a, MkWorld (<[i := c']> (impls w)) (ends w) (orphans w) (tasks w))
  end.

Definition set_tasks (m : gmap Z (Z * call)) (w : World) : World := MkWorld (impls w) (ends w) (orphans w) m.

(** The methods of [Sender].  [send] makes the task [h]; its body runs when the
    task is started. *)
Definition Sender_send (x h : Z) (v : T) (w : World) : World := set_tasks (<[h := (x, CSend v)]> (tasks w)) w.
Definition send_body (x h : Z) (v : T) := through x (Done false) (send moved_from h v).
Definition Sender_trySend (x : Z) (v : T) := through x false (trySend v).
Definition Sender_close (x : Z) := through x tt (λ c, (tt, close c)).
Definition Sender_isClosed (x : Z) := through x true (λ c, (closed_ c, c)).
Definition Sender_size (x : Z) := through x 0%nat (λ c, (length (buffer_ c), c)).
Definition Sender_capacity (x : Z) := through x 0%nat (λ c, (capacity_ c, c)).

(** The methods of [Receiver]. *)
Definition Receiver_recv (x h : Z) (w : World) : World := set_tasks (<[h := (x, CRecv)]> (tasks w)) w.
Definition recv_body (x h : Z) := through x (Done None) (recv h).
Definition Receiver_tryRecv (x : Z) := through x None tryRecv.
Definition Receiver_isClosed (x : Z) := through x true (λ c, (closed_ c, c)).
Definition Receiver_size (x : Z) := through x 0%nat (λ c, (length (buffer_ c), c)).
Definition Receiver_capacity (x : Z) := through x 0%nat (λ c, (capacity_ c, c)).

(** A task is started: its body reads the handle it was called on. *)
Definition start (h : Z) (w : World) : option ((co bool + co (option T)) * World) :=
  '(x, c) ← tasks w !! h;
  let w1 := set_tasks (delete h (tasks w)) w in
  match c with
  | CSend v => '(r, w') ← send_body x h v w1; Some (inl r, w')
  | CRecv => '(r, w') ← recv_body x h w1; Some (inr r, w')
  end.

(** The loop resumes the oldest handle posted for channel [i], if it is alive. *)
Definition resume_on (i : Z) (w : World) : option (Z * resumed (T := T) * World) :=
  c ← impls w !! i;
  '(r, c') ← resume c;
  Some (r, MkWorld (<[i := c']> (impls w)) (ends w) (orphans w) (tasks w)).

(** Programs over handles; a task may also be destroyed before it starts. *)
Inductive end_step : relation World :=
  | E_make i tx rx n w :
      impls w !! i = None → ends w !! tx = None → ends w !! rx = None → tx ≠ rx → end_step w (make_channel i tx rx n w)
  | E_copy x y w : ends w !! x = None → end_step w (end_copy x y w)
  | E_move x y w : ends w !! x = None → end_step w (end_move x y w)
  | E_copy_assign x y ex ey w :
      ends w !! x = Some ex → ends w !! y = Some ey → kind ex = kind ey → end_step w (end_copy_assign x y w)
  | E_move_assign x y ex ey w :
      ends w !! x = Some ex → ends w !! y = Some ey → kind ex = kind ey → end_step w (end_move_assign x y w)
  | E_destroy x w : end_step w (end_destroy x w)
  | E_send x h v w : is_Some (ends w !! x) → tasks w !! h = None → end_step w (Sender_send x h v w)
  | E_trySend x v r w w' : Sender_trySend x v w = Some (r, w') → end_step w w'
  | E_close x r w w' : Sender_close x w = Some (r, w') → end_step w w'
  | E_recv x h w : is_Some (ends w !! x) → tasks w !! h = None → end_step w (Receiver_recv x h w)
  | E_start h r w w' : start h w = Some (r, w') → end_step w w'
  | E_forget h w : end_step w (set_tasks (delete h (tasks w)) w)
  | E_tryRecv x r w w' : Receiver_tryRecv x w = Some (r, w') → end_step w w'
  | E_resume i r w w' : resume_on i w = Some (r, w') → end_step w w'.

(** ** Who keeps a channel alive *)

Lemma shared_by_spec i m : shared_by i m = true ↔ ∃ x e, m !! x = Some e ∧ impl_ e = Some i.
Proof.
  unfold shared_by. rewrite existsb_exists. split.
  - intros ([x e] & Hin & Hr). apply list_elem_of_In, elem_of_map_to_list in Hin.
    unfold refers in Hr. apply bool_decide_eq_true in Hr. eauto.
  - intros (x & e & Hx & He). exists (x, e). split; [by apply list_elem_of_In, elem_of_map_to_list|].
    by apply bool_decide_eq_true.
Qed.

Lemma shared_insert j x e m : m !! x = None → shared_by j (<[x := e]> m) = refers j e || shared_by j m.
Proof.
  intros Hx. apply eq_true_iff_eq. rewrite orb_true_iff, !shared_by_spec. unfold refers. rewrite bool_decide_eq_true.
  split.
  - intros (y & e' & [[<- <-]|[_ Hy]]%lookup_insert_Some & He); eauto.
  - intros [He|(y & e' & Hy & He)]; [exists x, e; by rewrite lookup_insert_eq|].
    exists y, e'. rewrite lookup_insert_ne by congruence. done.
Qed.

Lemma shared_delete j x e m : m !! x = Some e → shared_by j m = refers j e || shared_by j (delete x m).
Proof. intros Hx. rewrite <- (insert_delete_id m x e Hx) at 1. apply shared_insert, lookup_delete_eq. Qed.

Lemma shared_replace j x e e' m :
  m !! x = Some e → shared_by j (<[x := e']> m) = refers j e' || shared_by j (delete x m).
Proof. intros Hx. rewrite <- insert_delete_eq. apply shared_insert, lookup_delete_eq. Qed.

(** A null handle shares nothing, and a move shares what its source did. *)
Lemma shared_move j x y e m :
  x ≠ y → m !! y = Some e → m !! x = None →
  shared_by j (<[x := e]> (<[y := MkEnd (kind e) None]> m)) = shared_by j m.
Proof.
  intros Hxy Hy Hx. rewrite shared_insert by (by rewrite lookup_insert_ne).
  by rewrite (shared_replace j y e _ m Hy), (shared_delete j y e m Hy).
Qed.

(** A channel is alive exactly while a handle shares it, and in a state its
    operations lead to. *)
Definition EndInv (w : World) : Prop :=
  (∀ i, is_Some (impls w !! i) ↔ shared_by i (ends w) = true) ∧
  (∀ i c, impls w !! i = Some c → ∃ n, rtc (chan_step moved_from) (channel n) c).

Lemma end_init_inv : EndInv (MkWorld ∅ ∅ [] ∅).
Proof. split; [|done]. intros i. split; [intros [? ?]; done|intros (? & ? & ? & ?)%shared_by_spec; done]. Qed.

(** Changing handles so that no channel but [o] loses its last one. *)
Lemma drop_ref_inv o w m :
  EndInv w →
  (∀ i, Some i ≠ o → shared_by i m = shared_by i (ends w)) →
  (∀ i, Some i = o → is_Some (impls w !! i)) →
  EndInv (drop_ref o (MkWorld (impls w) m (orphans w) (tasks w))).
Proof.
  intros [H1 H2] Hm Ho. unfold drop_ref. cbn. destruct o as [i|].
  2: { split; [|done]. intros j. cbn. rewrite (Hm j) by done. apply H1. }
  destruct (Ho i eq_refl) as [c Hc]. rewrite Hc. destruct (shared_by i m) eqn:Es; split; cbn.
  - intros j. destruct (decide (i = j)) as [<-|Hij]; [by rewrite Es, Hc|]. rewrite (Hm j) by congruence. apply H1.
  - done.
  - intros j. destruct (decide (i = j)) as [<-|Hij].
    + rewrite lookup_delete_eq, Es. split; [by intros [? ?]|done].
    + rewrite lookup_delete_ne, (Hm j) by congruence. apply H1.
  - intros j d [_ Hd]%lookup_delete_Some. by eapply H2.
Qed.

Lemma through_inv {A} x (d : A) f w r w' :
  (∀ c, rtc (chan_step moved_from) c (f c).2) → through x d f w = Some (r, w') → EndInv w → EndInv w'.
Proof.
  intros Hf Ht [H1 H2]. unfold through in Ht. apply bind_Some in Ht as (e & He & Ht).
  destruct (impl_ e) as [i|]; simplify_eq; [|done]. apply bind_Some in Ht as (c & Hc & Ht).
  specialize (Hf c). destruct (f c) as [a c'] eqn:Ef. simplify_eq/=. split; cbn.
  - intros j. rewrite <- H1. destruct (decide (i = j)) as [<-|Hij]; [by rewrite lookup_insert_eq, Hc|by rewrite lookup_insert_ne].
  - intros j d' Hd. apply lookup_insert_Some in Hd as [[<- <-]|[_ Hd]]; [|by eapply H2].
    destruct (H2 i c Hc) as [n Hn]. exists n. by etrans.
Qed.

Lemma handle_lives w x e i : EndInv w → ends w !! x = Some e → impl_ e = Some i → is_Some (impls w !! i).
Proof. intros [H1 _] Hx He. apply H1, shared_by_spec. eauto. Qed.

(** Replacing or destroying a handle lets its channel go, and no other. *)
Lemma copy_assign_inv x y ex ey w :
  EndInv w → ends w !! x = Some ex → ends w !! y = Some ey → EndInv (end_copy_assign x y w).
Proof.
  intros HI Hx Hy. unfold end_copy_assign, end_copy. rewrite Hx, Hy. apply (drop_ref_inv _ w); [done| |].
  - intros j Hj. rewrite (shared_replace j x ex _ _ Hx), (shared_delete j x ex _ Hx).
    assert (refers j ex = false) as -> by (apply bool_decide_eq_false; congruence).
    destruct (decide (x = y)) as [<-|Hxy]; [simplify_eq|].
    + by assert (refers j ex = false) as -> by (apply bool_decide_eq_false; congruence).
    + rewrite (shared_delete j y ey (delete x (ends w))) by (by rewrite lookup_delete_ne).
      by destruct (refers j ey).
  - intros i Hi. symmetry in Hi. exact (handle_lives _ _ _ _ HI Hx Hi).
Qed.

Lemma move_assign_inv x y ex ey w :
  EndInv w → ends w !! x = Some ex → ends w !! y = Some ey → EndInv (end_move_assign x y w).
Proof.
  intros HI Hx Hy. unfold end_move_assign, end_move. destruct (Z.eqb_spec x y) as [|Hxy]; [done|]. rewrite Hx, Hy.
  apply (drop_ref_inv _ w); [done| |].
  - intros j Hj. assert (Hx' : <[y := MkEnd (kind ey) None]> (ends w) !! x = Some ex) by (by rewrite lookup_insert_ne).
    assert (Hy' : delete x (ends w) !! y = Some ey) by (by rewrite lookup_delete_ne).
    cbn. rewrite (shared_replace j x ex _ _ Hx'), delete_insert_ne, (shared_replace j y ey _ _ Hy') by done.
    rewrite (shared_delete j x ex _ Hx), (shared_delete j y ey _ Hy').
    by assert (refers j ex = false) as -> by (apply bool_decide_eq_false; congruence).
  - intros i Hi. symmetry in Hi. exact (handle_lives _ _ _ _ HI Hx Hi).
Qed.

Lemma end_destroy_inv x w : EndInv w → EndInv (end_destroy x w).
Proof.
  intros HI. unfold end_destroy. destruct (ends w !! x) as [e|] eqn:Hx; [|done]. apply (drop_ref_inv _ w); [done| |].
  - intros j Hj. rewrite (shared_delete j x e _ Hx).
    by assert (refers j e = false) as -> by (apply bool_decide_eq_false; congruence).
  - intros i Hi. symmetry in Hi. exact (handle_lives _ _ _ _ HI Hx Hi).
Qed.

Lemma make_channel_inv i tx rx n w :
  impls w !! i = None → ends w !! tx = None → ends w !! rx = None → tx ≠ rx →
  EndInv w → EndInv (make_channel i tx rx n w).
Proof.
  intros Hi Ht Hr Hne [H1 H2]. split; cbn.
  - intros j. rewrite shared_insert by (by rewrite lookup_insert_ne). rewrite shared_insert by done. unfold refers. cbn.
    destruct (decide (i = j)) as [<-|Hij]; [by rewrite lookup_insert_eq, bool_decide_eq_true_2|].
    rewrite lookup_insert_ne, H1, bool_decide_eq_false_2 by congruence. done.
  - intros j c [[<- <-]|[_ Hc]]%lookup_insert_Some; [by exists n|by eapply H2].
Qed.

Lemma start_task_inv h r w w' : start h w = Some (r, w') → EndInv w → EndInv w'.
Proof.
  intros Hc HI. unfold start in Hc. apply bind_Some in Hc as ([x [v|]] & _ & Hc); apply bind_Some in Hc as ([r1 w1] & Hc & [= _ <-]);
    (eapply through_inv; [|exact Hc|exact HI]); intros c; apply rtc_once; [apply st_send|apply st_recv].
Qed.

Lemma end_step_inv w w' : end_step w w' → EndInv w → EndInv w'.
Proof.
  intros Hs HI. destruct Hs as [i tx rx n w|x y w Hx|x y w Hx|x y ex ey w Hx Hy Hk|x y ex ey w Hx Hy Hk|x w
    |x h v w Hx Hh|x v r w w' Hc|x r w w' Hc|x h w Hx Hh|h r w w' Hc|h w|x r w w' Hc|i r w w' Hc].
  - by apply make_channel_inv.
  - unfold end_copy. destruct (ends w !! y) as [e|] eqn:Hy; [|done]. destruct HI as [H1 H2]. split; [|done].
    intros j. cbn. rewrite H1, shared_insert by done. rewrite (shared_delete j y e _ Hy). by destruct (refers j e).
  - unfold end_move. destruct (ends w !! y) as [e|] eqn:Hy; [|done]. destruct HI as [H1 H2]. split; [|done].
    intros j. cbn. rewrite H1. rewrite shared_move by (congruence || done). done.
  - by eapply copy_assign_inv.
  - by eapply move_assign_inv.
  - by apply end_destroy_inv.
  - done.
  - eapply through_inv; [|exact Hc|done]. intros c. apply rtc_once, st_trySend.
  - unfold Sender_close in Hc. eapply through_inv; [|exact Hc|done]. intros c. apply rtc_once, st_close.
  - done.
  - by eapply start_task_inv.
  - done.
  - eapply through_inv; [|exact Hc|done]. intros c. apply rtc_once, st_tryRecv.
  - unfold resume_on in Hc. apply bind_Some in Hc as (c & Hi & Hc). apply bind_Some in Hc as ([[h r'] c'] & Er & Hc).
    simplify_eq. destruct HI as [H1 H2]. split; cbn.
    + intros j. rewrite <- H1. destruct (decide (i = j)) as [<-|Hij]; [by rewrite lookup_insert_eq, Hi|by rewrite lookup_insert_ne].
    + intros j d Hd. apply lookup_insert_Some in Hd as [[<- <-]|[_ Hd]]; [|by eapply H2].
      destruct (H2 i c Hi) as [n Hn]. exists n. eapply rtc_r; [done|]. by eapply st_resume.
Qed.
End ends.
Arguments World T : clear implicits.

Section safety.
Context {T : Type} (moved_from : T → T).
Implicit Types w : World T.

Definition no_channels : World T := MkWorld ∅ ∅ [] ∅.

Lemma through_defined {A} x (d : A) f w e :
  EndInv moved_from w → ends w !! x = Some e →
  is_Some (through x d f w) ∧ (impl_ e = None → through x d f w = Some (d, w)).
Proof.
  intros HI Hx. unfold through. rewrite Hx. cbn. destruct (impl_ e) as [i|] eqn:He; [|by split].
  destruct (handle_lives moved_from w x e i HI Hx He) as [c ->]. cbn. destruct (f c). split; [eauto|done].
Qed.

(** What the methods of the two handles answer at once, through handle [x]. *)
Definition answers_like_closed (x : Z) (v : T) w : Prop :=
  Sender_trySend x v w = Some (false, w) ∧ Sender_close x w = Some (tt, w) ∧ Sender_isClosed x w = Some (true, w) ∧
  Sender_size x w = Some (0%nat, w) ∧ Sender_capacity x w = Some (0%nat, w) ∧ Receiver_tryRecv x w = Some (None, w) ∧
  Receiver_isClosed x w = Some (true, w) ∧ Receiver_size x w = Some (0%nat, w) ∧ Receiver_capacity x w = Some (0%nat, w).

Definition methods_defined (x : Z) (v : T) w : Prop :=
  is_Some (Sender_trySend x v w) ∧ is_Some (Sender_close x w) ∧ is_Some (Sender_isClosed x w) ∧
  is_Some (Sender_size x w) ∧ is_Some (Sender_capacity x w) ∧ is_Some (Receiver_tryRecv x w) ∧
  is_Some (Receiver_isClosed x w) ∧ is_Some (Receiver_size x w) ∧ is_Some (Receiver_capacity x w).


(** A handle that is destroyed while another one shares its channel leaves the
    channel as it is, whatever the kind of the other: when the last sender goes
    the channel stays open, and the receivers queued on it stay queued. *)
Theorem sender_gone_stays_open x y ex ey i w :
  ends w !! x = Some ex → ends w !! y = Some ey → x ≠ y → impl_ ex = Some i → impl_ ey = Some i →
  impls (end_destroy x w) = impls w ∧ orphans (end_destroy x w) = orphans w.
Proof.
  intros Hx Hy Hxy He Hf. unfold end_destroy, drop_ref. rewrite Hx, He. cbn.
  assert (shared_by i (delete x (ends w)) = true) as ->; [|done].
  apply shared_by_spec. exists y, ey. by rewrite lookup_delete_ne.
Qed.

(** When the last handle goes, the channel is closed and freed, and every
    coroutine that was suspended on it or posted for it is still to be resumed:
    each such resumption uses the freed object. *)
Theorem last_handle_orphans x e i c w :
  ends w !! x = Some e → impl_ e = Some i → impls w !! i = Some c →
  shared_by i (delete x (ends w)) = false →
  impls (end_destroy x w) !! i = None ∧ resume_on i (end_destroy x w) = None ∧
  orphans (end_destroy x w) = orphans w ++ ((λ p, (i, p)) <$> posted (close c)) ∧
  (closed_ c = false → ∀ h, h ∈ recvWaiters_ c ∨ h ∈ sw_handle <$> sendWaiters_ c →
     ∃ k, (i, (h, k)) ∈ orphans (end_destroy x w)).
Proof.
  intros Hx He Hc Hs.
  assert (E : end_destroy x w = MkWorld (delete i (impls w)) (delete x (ends w)) (orphans w ++ ((λ p, (i, p)) <$> posted (close c))) (tasks w)).
  { unfold end_destroy, drop_ref. rewrite Hx, He. cbn. by rewrite Hs, Hc. }
  rewrite E. unfold resume_on. cbn. rewrite !lookup_delete_eq. split_and!; try done.
  intros Hcl h Hh. setoid_rewrite elem_of_app. setoid_rewrite list_elem_of_fmap. unfold close. rewrite Hcl. cbn.
  destruct Hh as [Hh|(sw & -> & Hsw)%list_elem_of_fmap].
  - exists RecvSide. right. exists (h, RecvSide). split; [done|]. apply elem_of_app. right. apply elem_of_app. left.
    apply list_elem_of_fmap. eauto.
  - exists SendSide. right. exists (sw_handle sw, SendSide). split; [done|]. apply elem_of_app. right. apply elem_of_app. right.
    apply list_elem_of_fmap. eauto.
Qed.
End safety.

(** A channel of capacity 1 with a receiver suspended on it; then both handles
    go. *)
Definition waiting_world : World Z :=
  MkWorld {[0 := RecvAwaiter_suspend 7 (channel 1)]}
    (<[2 := MkEnd ReceiverEnd (Some 0)]> {[1 := MkEnd SenderEnd (Some 0)]}) [] ∅.

Lemma waiting_world_reachable : rtc (end_step (λ v, v)) no_channels waiting_world.
Proof.
  eapply rtc_l; [apply (E_make _ 0 1 2 1); done|].
  eapply rtc_l; [apply (E_recv _ 2 7); [by eexists|done]|].
  eapply rtc_l; [eapply (E_start _ 7); vm_compute; reflexivity|]. apply rtc_refl.
Qed.

(** A task made by [recv] whose handle is destroyed before the task starts. *)
Definition late_world : World Z := end_destroy 2 (Receiver_recv 2 8 waiting_world).

Lemma late_world_reachable : rtc (end_step (λ v, v)) no_channels late_world.
Proof.
  eapply rtc_r; [|apply E_destroy]. eapply rtc_r; [apply waiting_world_reachable|].
  apply E_recv; [by eexists|done].
Qed.


Lemma sender_gone_stays_open_witness : impls (end_destroy 1 waiting_world) = impls waiting_world.
Proof. by apply (sender_gone_stays_open 1 2 (MkEnd SenderEnd (Some 0)) (MkEnd ReceiverEnd (Some 0)) 0). Defined.

Lemma last_handle_orphans_witness :
  ∃ k, (0, (7, k)) ∈ orphans (end_destroy 2 (end_destroy 1 waiting_world)).
Proof.
  apply (last_handle_orphans 2 (MkEnd ReceiverEnd (Some 0)) 0 (RecvAwaiter_suspend 7 (channel 1))
    (end_destroy 1 waiting_world)); try (vm_compute; reflexivity). left. left.
Defined.
