(* ===== verification/ThreadEvents.v ===== *)
(** * The events of threads (src/src/thread.cpp, diagnostics.cpp)

    What a thread observer sees.  [dispatchEvent] copies the observer under a
    lock and calls the copy outside it, so an emission is two steps, between
    which another thread may replace the observer.  The constructor of a
    [ManagedThread] emits Created after the thread exists, and the thread emits
    its own events from [entryPoint]: the two run side by side.  An observer may
    throw: in the constructor the exception goes to the caller, in the entry
    point, which is [noexcept], it ends the program. *)

From S2P Require Import Prelude Text.

Inductive ThreadEventType := Created | Started | Finished | Exception.

#[export] Instance ThreadEventType_eq_dec : EqDecision ThreadEventType.
Proof. solve_decision. Defined.

(** An event without its time; [message] says whether it is the empty one, the
    one of an exception, or the one of a thread that ended with one. *)
Inductive note := NoMessage | UnhandledException | CompletedWithException.

Record ThreadEvent := MkThreadEvent { type : ThreadEventType; ev_name : text; handle : Z; message : note }.

(** Where the constructor is after [pthread_create]: about to copy the observer,
    about to call its copy, returned, or left by the observer's exception. *)
Inductive ppc := AtCreated | CallCreated (o : option Z) | Built | Failed.

(** Where the entry point is. *)
Inductive epc :=
  | AtStarted | CallStarted (o : option Z)
  | Running
  | AtException | CallException (o : option Z)
  | AtFinished (threw : bool) | CallFinished (threw : bool) (o : option Z)
  | Returned (threw : bool).

Record ThreadRun := MkRun { run_name : text; creator : ppc; entry : epc }.

(** [log]: the emissions in the order of their calls, with the observer each
    went to; [terminated]: an exception left the entry point. *)
Record State := MkState {
  threadObserver : option Z;
  runs : gmap Z ThreadRun;
  log : list (option Z * ThreadEvent);
  terminated : bool
}.

Section events.
(** Which calls of an observer throw. *)
Context (throws : Z → ThreadEvent → bool).

Definition setThreadObserver (o : option Z) (s : State) : State := MkState o (runs s) (log s) (terminated s).

(** The second half of [dispatchEvent]: [if (copy) copy(event);], and whether it
    throws. *)
Definition call_copy (o : option Z) (e : ThreadEvent) (s : State) : bool * State :=
  (match o with Some x => throws x e | None => false end,
   MkState (threadObserver s) (runs s) (log s ++ [(o, e)]) (terminated s)).

Definition set_run (t : Z) (r : ThreadRun) (s : State) : State :=
  MkState (threadObserver s) (<[t := r]> (runs s)) (log s) (terminated s).

(** [start], when [pthread_create] has made thread [t]. *)
Definition thread_created (t : Z) (name : text) (s : State) : State := set_run t (MkRun name AtCreated AtStarted) s.

(** [emitThreadEvent] of the Created event in [start], step by step. *)
Definition emit_created (t : Z) (s : State) : option State :=
  r ← runs s !! t;
  match creator r with
  | AtCreated => Some (set_run t (MkRun (run_name r) (CallCreated (threadObserver s)) (entry r)) s)
  | CallCreated o =>
      let '(ex, s1) := call_copy o (MkThreadEvent Created (run_name r) t NoMessage) s in
      Some (set_run t (MkRun (run_name r) (if ex then Failed else Built) (entry r)) s1)
  | _ => None
  end.

(** One of the calls of an observer in [entryPoint]: the next place, or the end
    of the program. *)
Definition entry_call (t : Z) (r : ThreadRun) (o : option Z) (e : ThreadEvent) (next : epc) (s : State) : State :=
  let '(ex, s1) := call_copy o e s in
  if ex then MkState (threadObserver s1) (runs s1) (log s1) true
  else set_run t (MkRun (run_name r) (creator r) next) s1.

(** [entryPoint]; [task_throws] is how the task ends when it does. *)
Definition entryPoint (t : Z) (task_throws : bool) (s : State) : option State :=
  r ← runs s !! t;
  let go p := set_run t (MkRun (run_name r) (creator r) p) s in
  let ev ty m := MkThreadEvent ty (run_name r) t m in
  match entry r with
  | AtStarted => Some (go (CallStarted (threadObserver s)))
  | CallStarted o => Some (entry_call t r o (ev Started NoMessage) Running s)
  | Running => Some (go (if task_throws then AtException else AtFinished false))
  | AtException => Some (go (CallException (threadObserver s)))
  | CallException o => Some (entry_call t r o (ev Exception UnhandledException) (AtFinished true) s)
  | AtFinished threw => Some (go (CallFinished threw (threadObserver s)))
  | CallFinished threw o =>
      Some (entry_call t r o (ev Finished (if threw then CompletedWithException else NoMessage)) (Returned threw) s)
  | Returned _ => None
  end.

Inductive ev_step : relation State :=
  | Ev_set o s : terminated s = false → ev_step s (setThreadObserver o s)
  | Ev_create t name s : terminated s = false → runs s !! t = None → ev_step s (thread_created t name s)
  | Ev_creator t s s' : terminated s = false → emit_created t s = Some s' → ev_step s s'
  | Ev_entry t b s s' : terminated s = false → entryPoint t b s = Some s' → ev_step s s'.

Definition ev_init : State := MkState None ∅ [] false.

(** ** What has been emitted for a thread *)

(** The events of thread [t] so far, those of its creator and its own. *)
Definition events_of (t : Z) (s : State) : list ThreadEvent := filter (λ e, handle e = t) (snd <$> log s).
Definition by_creator (t : Z) (s : State) : list ThreadEvent := filter (λ e, type e = Created) (events_of t s).
Definition by_entry (t : Z) (s : State) : list ThreadEvent := filter (λ e, type e ≠ Created) (events_of t s).

Definition creator_done (t : Z) (r : ThreadRun) : list ThreadEvent :=
  match creator r with Built | Failed => [MkThreadEvent Created (run_name r) t NoMessage] | _ => [] end.

(** A thread's own events: started, then its exception if the task threw, then
    finished. *)
Definition whole_run (t : Z) (name : text) (threw : bool) : list ThreadEvent :=
  MkThreadEvent Started name t NoMessage ::
  (if threw then [MkThreadEvent Exception name t UnhandledException] else []) ++
  [MkThreadEvent Finished name t (if threw then CompletedWithException else NoMessage)].

Definition entry_done (t : Z) (r : ThreadRun) : list ThreadEvent :=
  match entry r with
  | AtStarted | CallStarted _ => []
  | Running | AtException | CallException _ => take 1 (whole_run t (run_name r) true)
  | AtFinished threw | CallFinished threw _ => take (if threw then 2 else 1) (whole_run t (run_name r) threw)
  | Returned threw => whole_run t (run_name r) threw
  end.

Definition EvInv (s : State) : Prop :=
  (∀ t r, runs s !! t = Some r →
     by_creator t s = creator_done t r ∧ (terminated s = false → by_entry t s = entry_done t r)) ∧
  (∀ t, runs s !! t = None → events_of t s = []).

Lemma events_of_call t o e s : events_of t (call_copy o e s).2 = events_of t s ++ (if decide (handle e = t) then [e] else []).
Proof.
  unfold events_of. cbn [call_copy snd log]. rewrite fmap_app, filter_app.
  change (snd <$> [(o, e)]) with [e]. by rewrite filter_cons, filter_nil.
Qed.

(** Changing only where thread [t] is, with no event. *)
Lemma set_run_inv t r r' s :
  EvInv s → runs s !! t = Some r → creator_done t r' = creator_done t r → entry_done t r' = entry_done t r →
  EvInv (set_run t r' s).
Proof.
  intros [H1 H2] Ht Hc He. destruct (H1 t r Ht) as [Ha Hb]. split.
  - intros u q Hu. cbn in Hu. apply lookup_insert_Some in Hu as [[<- <-]|[_ Hu]]; [|by apply (H1 u)].
    rewrite Hc, He. by split.
  - intros u Hu. cbn in Hu. apply lookup_insert_None in Hu as [Hu _]. by apply H2.
Qed.

(** Calling an observer, and going on. *)
Lemma observer_call_inv t r r' o e s :
  EvInv s → terminated s = false → runs s !! t = Some r → handle e = t →
  creator_done t r' = creator_done t r ++ (if decide (type e = Created) then [e] else []) →
  entry_done t r' = entry_done t r ++ (if decide (type e = Created) then [] else [e]) →
  EvInv (set_run t r' (call_copy o e s).2).
Proof.
  intros [H1 H2] Hn Ht He Hc Hd. destruct (H1 t r Ht) as [Ha Hb]. specialize (Hb Hn). split.
  - intros u q Hu. unfold by_creator, by_entry in *.
    change (events_of u (set_run t r' (call_copy o e s).2)) with (events_of u (call_copy o e s).2).
    rewrite events_of_call, !filter_app. cbn in Hu. apply lookup_insert_Some in Hu as [[<- <-]|[Hne Hu]].
    + rewrite decide_True, !filter_cons, !filter_nil, Ha, Hb, Hc, Hd by done.
      repeat case_decide; try done; naive_solver.
    + rewrite decide_False, !filter_nil, !app_nil_r by congruence. apply (H1 u q Hu).
  - intros u Hu. cbn in Hu. apply lookup_insert_None in Hu as [Hu Hne]. change (events_of u (set_run t r' (call_copy o e s).2)) with (events_of u (call_copy o e s).2).
    rewrite events_of_call, decide_False, app_nil_r by congruence. by apply H2.
Qed.


(** An exception out of the entry point: the event was delivered, nothing else
    happens. *)
Lemma crash_inv t r o e s :
  EvInv s → runs s !! t = Some r → handle e = t → type e ≠ Created →
  EvInv (MkState (threadObserver s) (runs s) (log s ++ [(o, e)]) true).
Proof.
  intros [H1 H2] Ht He Hty.
  assert (E : ∀ u, events_of u (MkState (threadObserver s) (runs s) (log s ++ [(o, e)]) true) =
                   events_of u s ++ (if decide (handle e = u) then [e] else [])) by (intros u; apply (events_of_call u o e s)).
  split; cbn [runs terminated].
  - intros u q Hu. split; [|done]. unfold by_creator. rewrite E, filter_app. destruct (H1 u q Hu) as [Ha _].
    unfold by_creator in Ha. rewrite Ha. case_decide; [|by rewrite app_nil_r].
    by rewrite filter_cons, decide_False, filter_nil, app_nil_r.
  - intros u Hu. rewrite E, decide_False by congruence. by rewrite H2.
Qed.

Lemma entry_call_inv t r o e next s :
  EvInv s → terminated s = false → runs s !! t = Some r → handle e = t → type e ≠ Created →
  entry_done t (MkRun (run_name r) (creator r) next) = entry_done t r ++ [e] →
  EvInv (entry_call t r o e next s).
Proof.
  intros HI Hn Ht He Hty Hd. unfold entry_call. cbn. destruct (match o with Some x => throws x e | None => false end).
  - by eapply crash_inv.
  - apply (observer_call_inv t r _ o e s); try done; by rewrite decide_False, ?app_nil_r.
Qed.

Lemma ev_step_inv s s' : ev_step s s' → EvInv s → EvInv s'.
Proof.
  intros Hs HI. destruct Hs as [o s Hn|t name s Hn Ht|t s s' Hn He|t b s s' Hn He].
  - done.
  - destruct HI as [H1 H2]. split.
    + intros u r Hu. cbn in Hu. apply lookup_insert_Some in Hu as [[<- <-]|[_ Hu]]; [|by apply (H1 u)].
      assert (E : events_of t (thread_created t name s) = []) by apply (H2 t Ht).
      unfold by_creator, by_entry. by rewrite E.
    + intros u Hu. cbn in Hu. apply lookup_insert_None in Hu as [Hu _]. by apply H2.
  - unfold emit_created in He. apply bind_Some in He as ([name c p] & Ht & He). cbn in He.
    destruct c as [|o| |]; simplify_eq; [by eapply set_run_inv|].
    apply (observer_call_inv t (MkRun name (CallCreated o) p) _ o _ s); try done; [|by rewrite app_nil_r].
    unfold creator_done. cbn. by destruct (match o with Some x => _ | None => _ end).
  - unfold entryPoint in He. apply bind_Some in He as ([name c p] & Ht & He). cbn [entry run_name creator] in He.
    destruct p as [|o| | |o|threw|threw o|threw]; simplify_eq.
    + by eapply set_run_inv.
    + by apply entry_call_inv.
    + eapply set_run_inv; [done|done|done|]. by destruct b.
    + by eapply set_run_inv.
    + by apply entry_call_inv.
    + eapply set_run_inv; [done|done|done|]. by destruct threw.
    + apply entry_call_inv; try done. by destruct threw.
Qed.

(** C28: However observers are replaced and throw, and however threads and their
    creators interleave, while the program has not been ended by an exception
    from an entry point: a thread has emitted exactly the events of where it
    is, in order, under its own name and handle.  A thread that has returned
    has emitted Started, Exception if its task threw, and Finished, once each;
    Created has been emitted exactly when the constructor has returned or
    failed; and nothing is emitted for a thread that was not created. *)
Theorem thread_events_exact s t :
  rtc ev_step ev_init s →
  match runs s !! t with
  | None => events_of t s = []
  | Some r =>
      by_creator t s = creator_done t r ∧
      (terminated s = false → by_entry t s = entry_done t r) ∧
      (∀ threw, terminated s = false → entry r = Returned threw →
         by_entry t s = whole_run t (run_name r) threw)
  end.
Proof.
  intros Hr. assert (HI : EvInv s).
  { refine (rtc_invariant _ EvInv _ _ _ Hr _); [apply ev_step_inv|by split]. }
  destruct HI as [H1 H2]. destruct (runs s !! t) as [r|] eqn:Ht; [|by apply H2].
  destruct (H1 t r Ht) as [Ha Hb]. split_and!; [done|done|].
  intros threw Hn He. rewrite (Hb Hn). unfold entry_done. by rewrite He.
Qed.

End events.

(** A thread may have finished before its creator says it was created. *)
Definition quiet : Z → ThreadEvent → bool := λ _ _, false.

Definition drive (s : option State) (f : State → option State) : option State := s ≫= f.

Definition late_created : option State :=
  foldl drive (Some (thread_created 7 [] (setThreadObserver (Some 1) ev_init)))
    (replicate 5 (entryPoint quiet 7 false) ++ replicate 2 (emit_created quiet 7)).

Example created_after_finished :
  (λ s, (type ∘ snd) <$> log s) <$> late_created = Some [Started; Finished; Created].
Proof. vm_compute. reflexivity. Qed.

(** An observer that was replaced can still be called: its copy was taken
    before. *)
Example replaced_observer_called :
  (λ s, (threadObserver s, fst <$> log s)) <$>
    foldl drive (Some (thread_created 7 [] (setThreadObserver (Some 1) ev_init)))
      [entryPoint quiet 7 false; (λ s, Some (setThreadObserver None s)); entryPoint quiet 7 false]
  = Some (None, [Some 1]).
Proof. vm_compute. reflexivity. Qed.

Definition sample_events : State :=
  MkState (Some 1) {[7 := MkRun [] AtCreated (CallStarted (Some 1))]} [] false.

Lemma thread_events_exact_witness :
  rtc (ev_step quiet) ev_init sample_events ∧ by_entry 7 sample_events = [].
Proof.
  assert (Hr : rtc (ev_step quiet) ev_init sample_events).
  { eapply rtc_l; [by apply (Ev_set _ (Some 1))|]. eapply rtc_l; [by apply (Ev_create _ 7 [])|].
    eapply rtc_l; [by eapply (Ev_entry _ 7 false)|]. apply rtc_refl. }
  split; [exact Hr|]. pose proof (thread_events_exact quiet sample_events 7 Hr) as H.
  assert (E : runs sample_events !! 7 = Some (MkRun [] AtCreated (CallStarted (Some 1)))) by reflexivity.
  rewrite E in H. apply (proj1 (proj2 H)). reflexivity.
Defined.
