(* ===== verification/LockOrder.v ===== *)
(** * Lock order (src/src/enhanced_thread_pool.cpp)

    Operations that lock more than one mutex, as the sequences of locks they
    take and release.  The first part is general: threads that run such
    sequences over ordinary mutexes can be blocked for ever only if the
    sequences do not follow one order.  The second part is the thread pool,
    whose operations use [mutex_] and [metricsMutex_]. *)

From S2P Require Import Prelude.

(** ** Threads that lock mutexes *)

Inductive lock_op := Lock (m : nat) | Unlock (m : nat).

#[export] Instance lock_op_eq_dec : EqDecision lock_op.
Proof. solve_decision. Defined.

(** A thread: the mutexes it holds, latest first, and what it has still to do. *)
Record lthread := MkL { holds : list nat; todo : list lock_op }.

(** [m] is held by one of the threads. *)
Definition taken (m : nat) (ts : list lthread) : bool := existsb (λ t, bool_decide (m ∈ holds t)) ts.

(** The next step of thread [i]: a lock waits until the mutex is free. *)
Definition lock_step (i : nat) (ts : list lthread) : option (list lthread) :=
  t ← ts !! i;
  match todo t with
  | [] => None
  | Lock m :: r => if taken m ts then None else Some (<[i := MkL (m :: holds t) r]> ts)
  | Unlock m :: r => Some (<[i := MkL (filter (λ k, k ≠ m) (holds t)) r]> ts)
  end.

Definition lstep (ts ts' : list lthread) : Prop := ∃ i, lock_step i ts = Some ts'.

Definition spawn (progs : list (list lock_op)) : list lthread := MkL [] <$> progs.

(** No thread can move although one has work left. *)
Definition stuck (ts : list lthread) : Prop :=
  (∃ t, t ∈ ts ∧ todo t ≠ []) ∧ ∀ i, lock_step i ts = None.

(** A sequence that takes mutexes in the order of [rank], and ends with none. *)
Fixpoint ordered (rank : nat → nat) (hs : list nat) (p : list lock_op) : bool :=
  match p with
  | [] => bool_decide (hs = [])
  | Lock m :: r => forallb (λ k, Nat.ltb (rank k) (rank m)) hs && ordered rank (m :: hs) r
  | Unlock m :: r => ordered rank (filter (λ k, k ≠ m) hs) r
  end.

Section order.
Context (rank : nat → nat).

Definition Ordered (ts : list lthread) : Prop := Forall (λ t, ordered rank (holds t) (todo t) = true) ts.

Lemma taken_spec m ts : taken m ts = true ↔ ∃ t, t ∈ ts ∧ m ∈ holds t.
Proof.
  unfold taken. rewrite existsb_exists. setoid_rewrite <- list_elem_of_In. by setoid_rewrite bool_decide_eq_true.
Qed.

Lemma ordered_step i ts ts' : Ordered ts → lock_step i ts = Some ts' → Ordered ts'.
Proof.
  intros Ho E. unfold lock_step in E. apply bind_Some in E as (t & Hi & E).
  pose proof (Forall_lookup_1 _ _ _ _ Ho Hi) as Ht. cbn in Ht.
  destruct (todo t) as [|[m|m] r]; [done| |]; cbn in Ht.
  - destruct (taken m ts); simplify_eq. apply andb_true_iff in Ht as [_ Ht]. by apply Forall_insert.
  - simplify_eq. by apply Forall_insert.
Qed.

(** In a blocked system the mutex a thread waits for is held by a thread that
    waits for one of higher rank. *)
Lemma blocked_chain ts t m r :
  Ordered ts → (∀ i, lock_step i ts = None) → t ∈ ts → todo t = Lock m :: r →
  ∃ t' m' r', t' ∈ ts ∧ todo t' = Lock m' :: r' ∧ (rank m < rank m')%nat.
Proof.
  intros Ho Hs Ht Em. apply list_elem_of_lookup in Ht as [i Hi].
  pose proof (Hs i) as Hn. unfold lock_step in Hn. rewrite Hi in Hn. cbn in Hn. rewrite Em in Hn.
  destruct (taken m ts) eqn:Hm; [|done]. apply taken_spec in Hm as (t' & Ht' & Hh).
  pose proof Ht' as Hin. apply list_elem_of_lookup in Hin as [j Hj].
  pose proof (Forall_lookup_1 _ _ _ _ Ho Hj) as Hot. cbn in Hot.
  pose proof (Hs j) as Hnj. unfold lock_step in Hnj. rewrite Hj in Hnj. cbn in Hnj.
  destruct (todo t') as [|[m'|m'] r'] eqn:Et'; [|exists t', m', r'|done].
  - cbn in Hot. apply bool_decide_eq_true in Hot. rewrite Hot in Hh. by apply elem_of_nil in Hh.
  - cbn in Hot. apply andb_true_iff in Hot as [Hf _]. rewrite forallb_forall in Hf.
    specialize (Hf m (proj1 (list_elem_of_In _ _) Hh)). apply Nat.ltb_lt in Hf. done.
Qed.

(** Ranks of the mutexes the threads wait for are bounded. *)
Definition wanted (t : lthread) : nat := match todo t with Lock m :: _ => rank m | _ => 0 end.

Lemma ordered_not_stuck ts : Ordered ts → ¬ stuck ts.
Proof.
  intros Ho [(t & Ht & Hne) Hs].
  assert (Hw : ∃ m r, todo t = Lock m :: r).
  { apply list_elem_of_lookup in Ht as [i Hi]. pose proof (Hs i) as Hn. unfold lock_step in Hn.
    rewrite Hi in Hn. cbn in Hn. destruct (todo t) as [|[m|m] r]; [done|eauto|done]. }
  assert (Hb : ∀ t, t ∈ ts → (wanted t <= max_list (wanted <$> ts))%nat).
  { intros u Hu. apply max_list_elem_of_le. by apply list_elem_of_fmap_2. }
  remember (max_list (wanted <$> ts) - wanted t)%nat as d eqn:Ed. revert t Ht Hne Hw Ed.
  induction d as [d IH] using lt_wf_ind. intros t Ht Hne (m & r & Em) Ed.
  destruct (blocked_chain ts t m r Ho Hs Ht Em) as (t' & m' & r' & Ht' & Em' & Hr).
  pose proof (Hb t' Ht') as Hbt. assert (Et : wanted t = rank m) by (unfold wanted; by rewrite Em).
  assert (Et' : wanted t' = rank m') by (unfold wanted; by rewrite Em').
  apply (IH (max_list (wanted <$> ts) - wanted t')%nat) with (t := t'); [lia|done|congruence|eauto|done].
Qed.
End order.

(** Threads that each take mutexes in one order never block each other for ever. *)
Lemma ordered_programs_run rank progs ts :
  Forall (λ p, ordered rank [] p = true) progs → rtc lstep (spawn progs) ts → ¬ stuck ts.
Proof.
  intros Hp Hr. apply (ordered_not_stuck rank). refine (rtc_invariant lstep (Ordered rank) _ _ _ Hr _).
  - intros a b [i Hi] Ha. by eapply ordered_step.
  - unfold Ordered, spawn. apply Forall_fmap. exact Hp.
Qed.

Lemma ordered_app rank hs p q :
  ordered rank hs p = true → ordered rank [] q = true → ordered rank hs (p ++ q) = true.
Proof.
  revert hs. induction p as [|[m|m] p IH]; intros hs Hp Hq; cbn in *.
  - by apply bool_decide_eq_true in Hp as ->.
  - apply andb_true_iff in Hp as [H1 H2]. rewrite H1. cbn. auto.
  - auto.
Qed.

Lemma ordered_concat rank ps : Forall (λ p, ordered rank [] p = true) ps → ordered rank [] (concat ps) = true.
Proof. induction 1; [done|]. by apply ordered_app. Qed.

(** ** The thread pool *)

Definition mutex_ : nat := 0.
Definition metricsMutex_ : nat := 1.

Definition section_of (m : nat) : list lock_op := [Lock m; Unlock m].

(** The locks of each operation.  A wait on a condition variable releases and
    takes [mutex_] again each time the thread wakes up. *)
Definition submit_locks (refused : bool) : list lock_op :=
  section_of mutex_ ++ (if refused then [] else section_of metricsMutex_).

Definition cancelAll_locks (queued : nat) : list lock_op :=
  Lock mutex_ :: concat (replicate queued (section_of metricsMutex_)) ++ section_of metricsMutex_ ++ [Unlock mutex_].

Definition waitIdle_locks (wakeups : nat) : list lock_op := concat (replicate (S wakeups) (section_of mutex_)).

Definition metrics_locks : list lock_op := [Lock metricsMutex_; Lock mutex_; Unlock mutex_; Unlock metricsMutex_].

(** One turn of [workerLoop]: the wait, then the metrics of a task that was
    skipped or has run. *)
Definition worker_locks (wakeups : nat) : list lock_op := waitIdle_locks wakeups ++ section_of metricsMutex_.

Inductive pool_op :=
  | OSubmit (refused : bool) | OCancelAll (queued : nat) | OWaitIdle (wakeups : nat) | OMetrics
  | OResetMetrics | OQueueSize | OWorker (wakeups : nat).

#[export] Instance pool_op_eq_dec : EqDecision pool_op.
Proof. solve_decision. Defined.

Definition locks_of (o : pool_op) : list lock_op :=
  match o with
  | OSubmit r => submit_locks r
  | OCancelAll n => cancelAll_locks n
  | OWaitIdle k => waitIdle_locks k
  | OMetrics => metrics_locks
  | OResetMetrics => section_of metricsMutex_
  | OQueueSize => section_of mutex_
  | OWorker k => worker_locks k
  end.

(** Threads that perform operations one after the other. *)
Definition pool_threads (progs : list (list pool_op)) : list lthread := spawn ((λ p, concat (locks_of <$> p)) <$> progs).

Definition is_metrics (o : pool_op) : bool := match o with OMetrics => true | _ => false end.
Definition is_cancelAll (o : pool_op) : bool := match o with OCancelAll _ => true | _ => false end.

Lemma sections_ordered rank m n : ordered rank [] (concat (replicate n (section_of m))) = true.
Proof. apply ordered_concat, Forall_replicate. cbn. by case_decide. Qed.

(** Every operation but [metrics] takes [mutex_] first; every one but
    [cancelAll] takes [metricsMutex_] first. *)
Lemma mutex_first o : is_metrics o = false → ordered id [] (locks_of o) = true.
Proof.
  destruct o as [[]|n|k| | | |k]; intros Hm; try done; cbn [locks_of].
  - unfold cancelAll_locks. cbn. clear Hm. induction n as [|n IH]; [done|]. exact IH.
  - apply (sections_ordered id mutex_ (S k)).
  - apply ordered_app; [apply (sections_ordered id mutex_ (S k))|done].
Qed.

Lemma metrics_first o : is_cancelAll o = false → ordered (λ m, 1 - m)%nat [] (locks_of o) = true.
Proof.
  destruct o as [[]|n|k| | | |k]; intros Hm; try done; cbn [locks_of].
  - apply (sections_ordered (λ m, 1 - m)%nat mutex_ (S k)).
  - apply ordered_app; [apply (sections_ordered (λ m, 1 - m)%nat mutex_ (S k))|done].
Qed.

Lemma pool_runs rank (bad : pool_op → bool) progs ts :
  (∀ o, bad o = false → ordered rank [] (locks_of o) = true) →
  Forall (Forall (λ o, bad o = false)) progs → rtc lstep (pool_threads progs) ts → ¬ stuck ts.
Proof.
  intros Hb Hp. apply (ordered_programs_run rank). apply Forall_fmap. eapply Forall_impl; [exact Hp|].
  intros p Ho. cbn. apply ordered_concat, Forall_fmap. eapply Forall_impl; [exact Ho|]. apply Hb.
Qed.

(** A thread in [metrics] and one in [cancelAll], each with its first mutex. *)
Definition embrace (queued : nat) : list lthread :=
  [MkL [metricsMutex_] (tail metrics_locks); MkL [mutex_] (tail (cancelAll_locks queued))].

(** C34: The operations of the pool never block each other for ever as long as
    [metrics] is not called, or [cancelAll] is not, whatever else the threads do
    and in whatever order; but [metrics] and [cancelAll] take the two mutexes in
    opposite orders, so a thread in each can end up waiting for the other. *)
Theorem pool_lock_order :
  (∀ progs ts, Forall (Forall (λ o, is_metrics o = false)) progs → rtc lstep (pool_threads progs) ts → ¬ stuck ts) ∧
  (∀ progs ts, Forall (Forall (λ o, is_cancelAll o = false)) progs → rtc lstep (pool_threads progs) ts → ¬ stuck ts) ∧
  (∀ queued, rtc lstep (pool_threads [[OMetrics]; [OCancelAll queued]]) (embrace queued) ∧ stuck (embrace queued)).
Proof.
  split_and!.
  - intros progs ts. by apply (pool_runs id), mutex_first.
  - intros progs ts. by apply (pool_runs (λ m, 1 - m)%nat), metrics_first.
  - intros n. split.
    + eapply rtc_l; [by exists 0%nat|]. eapply rtc_l; [|apply rtc_refl]. exists 1%nat. cbn. by rewrite app_nil_r.
    + split; [eexists; split; [left|done]|]. intros [|[|i]]; [done| |done].
      destruct n; done.
Qed.

Lemma pool_lock_order_witness :
  ¬ stuck (pool_threads [[OSubmit false; OWaitIdle 0]; [OCancelAll 1]]) ∧ stuck (embrace 0).
Proof.
  destruct pool_lock_order as (H1 & _ & H3). split; [|apply H3].
  apply (H1 [[OSubmit false; OWaitIdle 0]; [OCancelAll 1]]); [repeat constructor|apply rtc_refl].
Defined.
