(* ===== verification/PoolTimes.v ===== *)
(** * The times among the metrics of the thread pool
    (src/src/enhanced_thread_pool.cpp)

    ThreadPool.v models the pool without its clock.  Here each entry has its
    submit time, a worker takes the time before and after the task, and
    [updateMetricsOnComplete] adds the differences up.  The timed pool is the
    pool of ThreadPool.v with this besides, and its clock does not go back. *)

From S2P Require Import Prelude ThreadPool.

(** What a worker knows of the task in its hands: its submit, start and end. *)
Record timing := MkTiming { t_task : Z; t_submit : Z; t_start : Z; t_end : Z }.

(** [counted] are the tasks whose times are in the totals. *)
Record TimedPool := MkTimed {
  pool : Pool;
  now : Z;
  submitTime : gmap Z Z;
  timings : gmap nat timing;
  totalWaitTime : Z;
  totalExecutionTime : Z;
  lastActivity : Z;
  counted : list timing
}.

Definition with_pool (p : Pool) (s : TimedPool) : TimedPool :=
  MkTimed p (now s) (submitTime s) (timings s) (totalWaitTime s) (totalExecutionTime s) (lastActivity s) (counted s).

Definition set_timing (i : nat) (t : timing) (s : TimedPool) : TimedPool :=
  MkTimed (pool s) (now s) (submitTime s) (<[i := t]> (timings s)) (totalWaitTime s) (totalExecutionTime s)
    (lastActivity s) (counted s).

(** The clock moves. *)
Definition timed_tick (t : Z) (s : TimedPool) : TimedPool :=
  MkTimed (pool s) t (submitTime s) (timings s) (totalWaitTime s) (totalExecutionTime s) (lastActivity s) (counted s).

(** [submitWithPriority] takes [entry.submitTime] with the sequence number, before
    the critical section. *)
Definition timed_sequence (k : nat) (s : TimedPool) : TimedPool :=
  let p := takeSequence k (pool s) in
  match arriving (pool s) !! k with
  | Some (Numbered i _ _) =>
      MkTimed p (now s) (<[i := now s]> (submitTime s)) (timings s) (totalWaitTime s)
        (totalExecutionTime s) (lastActivity s) (counted s)
  | _ => with_pool p s
  end.

(** [updateMetricsOnComplete] for the times: the difference between start and
    submit, and between end and start. *)
Definition add_times (t : timing) (s : TimedPool) : TimedPool :=
  MkTimed (pool s) (now s) (submitTime s) (timings s)
    (totalWaitTime s + (t_start t - t_submit t)) (totalExecutionTime s + (t_end t - t_start t)) (now s)
    (counted s ++ [t]).

(** A step of [workerLoop] with the times it takes. *)
Definition timed_worker (ok : bool) (i : nat) (w : stage) (s : TimedPool) : option TimedPool :=
  p ← workerStep ok i w (pool s);
  let s1 := with_pool p s in
  Some (match w with
        | Checked e =>
            set_timing i (MkTiming (ThreadPool.id e) (default 0 (submitTime s !! ThreadPool.id e)) (now s) (now s)) s1
        | Running e =>
            match timings s !! i with
            | Some t => set_timing i (MkTiming (t_task t) (t_submit t) (t_start t) (now s)) s1
            | None => s1
            end
        | Metrics _ => match timings s !! i with Some t => add_times t s1 | None => s1 end
        | _ => s1
        end).

(** [resetMetrics]. *)
Definition timed_reset (s : TimedPool) : TimedPool :=
  MkTimed (set_metrics (MkMetrics 0 0 0 0) (pool s)) (now s) (submitTime s) (timings s) 0 0 0 [].

Definition timed_init (p : Pool) : TimedPool := MkTimed p 0 ∅ ∅ 0 0 0 [].

(** The other operations take no time. *)
Inductive timed_step : relation TimedPool :=
  | TS_tick t s : now s <= t → timed_step s (timed_tick t s)
  | TS_create prio job s : nextTaskId_ (pool s) < 2 ^ 64 - 1 → timed_step s (with_pool (createTaskHandle prio job (pool s)).2 s)
  | TS_sequence k s : timed_step s (timed_sequence k s)
  | TS_push k s : timed_step s (with_pool (pushEntry k (pool s)).2 s)
  | TS_worker ok i w s s' : workers_ (pool s) !! i = Some w → timed_worker ok i w s = Some s' → timed_step s s'
  | TS_reset s : timed_step s (timed_reset s)
  | TS_count s : timed_step s (with_pool (countSubmitted (pool s)) s)
  | TS_cancel j s : timed_step s (with_pool (cancel_store j (pool s)) s)
  | TS_cancelAll s : timed_step s (with_pool (cancelAll (pool s)) s)
  | TS_resize n s : timed_step s (with_pool (resize n (pool s)).2 s)
  | TS_shutDown s : timed_step s (with_pool (shutDown (pool s)) s).

(** ** The totals *)

Definition waited (l : list timing) : Z := foldr (λ t acc, t_start t - t_submit t + acc) 0 l.
Definition executed (l : list timing) : Z := foldr (λ t acc, t_end t - t_start t + acc) 0 l.

Lemma waited_snoc l t : waited (l ++ [t]) = waited l + (t_start t - t_submit t).
Proof. unfold waited. rewrite foldr_app. cbn. induction l as [|u l IH]; cbn in *; [lia|]. rewrite IH. lia. Qed.

Lemma executed_snoc l t : executed (l ++ [t]) = executed l + (t_end t - t_start t).
Proof. unfold executed. rewrite foldr_app. cbn. induction l as [|u l IH]; cbn in *; [lia|]. rewrite IH. lia. Qed.

(** Times that belong to a submitted task and are in order. *)
Definition timely (s : TimedPool) (t : timing) : Prop :=
  submitTime s !! t_task t = Some (t_submit t) ∧ t_submit t <= t_start t <= t_end t ∧ t_end t <= now s.

(** A worker that has taken its start time. *)
Definition clocked (w : stage) : bool :=
  match w with Running _ | Returned _ _ | Stored _ | Metrics _ => true | _ => false end.

(** The ids whose entries have no submit time yet. *)
Definition unstamped (l : list arrival) : list Z :=
  l ≫= λ a, match a with Numbered i _ _ => [i] | Sequenced _ => [] end.

Definition stamped (p : Pool) (j : Z) : Prop := 0 < j < nextTaskId_ p ∧ j ∉ unstamped (arriving p).

Record TimesInv (s : TimedPool) : Prop := {
  ti_pool : PoolInv (pool s);
  ti_now : 0 <= now s;
  ti_submitted : ∀ j, stamped (pool s) j → ∃ t, submitTime s !! j = Some t ∧ t <= now s;
  ti_fresh : ∀ j, ¬ stamped (pool s) j → submitTime s !! j = None;
  ti_timings : ∀ i t, timings s !! i = Some t → timely s t;
  ti_workers : ∀ i w, workers_ (pool s) !! i = Some w → clocked w = true → is_Some (timings s !! i);
  ti_counted : Forall (timely s) (counted s);
  ti_wait : totalWaitTime s = waited (counted s);
  ti_exec : totalExecutionTime s = executed (counted s);
  ti_number : tasksCompleted (metrics_ (pool s)) + tasksFailed (metrics_ (pool s)) = Z.of_nat (length (counted s));
  ti_last : 0 <= lastActivity s <= now s }.

(** A step of the pool that issues no id, counts no task and lets no worker past
    its start. *)
Lemma untimed_inv p s :
  TimesInv s → PoolInv p → (∀ j, stamped p j ↔ stamped (pool s) j) →
  tasksCompleted (metrics_ p) + tasksFailed (metrics_ p) =
    tasksCompleted (metrics_ (pool s)) + tasksFailed (metrics_ (pool s)) →
  (∀ i w, workers_ p !! i = Some w → clocked w = true →
     ∃ w', workers_ (pool s) !! i = Some w' ∧ clocked w' = true) →
  TimesInv (with_pool p s).
Proof.
  intros [] Hp Hn Hm Hw. split; cbn; rewrite ?Hm; try done.
  - intros j Hj. by apply ti_submitted0, Hn.
  - intros j Hj. apply ti_fresh0. by rewrite <- Hn.
  - intros i w Hi Hc. destruct (Hw i w Hi Hc) as (w' & Hi' & Hc'). by eapply ti_workers0.
Qed.

Lemma elem_of_unstamped j l : j ∈ unstamped l ↔ ∃ prio job, Numbered j prio job ∈ l.
Proof.
  unfold unstamped. rewrite list_elem_of_bind. split.
  - intros ([i prio job|e] & Hj & Ha); [|by apply elem_of_nil in Hj]. apply list_elem_of_singleton in Hj as ->. eauto.
  - intros (prio & job & Ha). exists (Numbered j prio job). split; [by left|done].
Qed.

Lemma unstamped_arriving j l : j ∈ unstamped l → j ∈ arrival_id <$> l.
Proof. intros (prio & job & Ha)%elem_of_unstamped. apply list_elem_of_fmap. by exists (Numbered j prio job). Qed.

Lemma issued_range n j : j ∈ issued n → 0 < j < n.
Proof. unfold issued. intros (k & -> & Hk)%list_elem_of_fmap. apply elem_of_seq in Hk. lia. Qed.

Lemma hand_issued i w s e :
  PoolInv s → workers_ s !! i = Some w → hand w = [ThreadPool.id e] → stamped s (ThreadPool.id e).
Proof.
  intros HI Hi Hh. pose proof (PoolInv_nodup s HI) as Hnd. destruct HI as (Hn & Hp & _).
  assert (Hh' : ThreadPool.id e ∈ in_hand (workers_ s)).
  { unfold in_hand. apply list_elem_of_In, in_concat.
    exists (hand w). split; [|rewrite Hh; by left]. apply list_elem_of_In, list_elem_of_fmap_2. by eapply list_elem_of_lookup_2. }
  split.
  - apply issued_range. rewrite <- Hp. unfold places. rewrite !elem_of_app. tauto.
  - intros Hu%unstamped_arriving. unfold places in Hnd. apply NoDup_app in Hnd as (_ & Hnd & _). apply (Hnd _ Hu).
    rewrite !elem_of_app. tauto.
Qed.

Lemma insert_clocked i w' (p : Pool) j w :
  <[i := w']> (workers_ p) !! j = Some w → clocked w = true →
  (j = i ∧ clocked w' = true) ∨ workers_ p !! j = Some w.
Proof.
  intros Hj Hc. apply list_lookup_insert_Some in Hj as [(<- & <- & _)|[_ Hj]]; [by left|by right].
Qed.

Lemma checked_inv ok i e s s' :
  TimesInv s → workers_ (pool s) !! i = Some (Checked e) → timed_worker ok i (Checked e) s = Some s' → TimesInv s'.
Proof.
  intros [] Hi Hs. unfold timed_worker in Hs. cbn in Hs. simplify_eq.
  destruct (ti_submitted0 (ThreadPool.id e)) as (t & Ht & Hle); [by eapply (hand_issued i (Checked e))|].
  split; cbn; try done.
  - by eapply (worker_inv ok i (Checked e)).
  - intros j u Hj. apply lookup_insert_Some in Hj as [[<- <-]|[_ Hj]]; [|by apply (ti_timings0 j)].
    unfold timely. cbn. rewrite Ht. cbn. split_and!; [done|lia..].
  - intros j w Hj Hc. destruct (insert_clocked i _ _ j w Hj Hc) as [[-> _]|Hj'].
    + rewrite lookup_insert_eq. eauto.
    + destruct (ti_workers0 j w Hj' Hc) as [u Hu]. destruct (decide (i = j)) as [<-|]; [rewrite lookup_insert_eq; eauto|].
      rewrite lookup_insert_ne by done. eauto.
Qed.

Lemma running_inv ok i e s s' :
  TimesInv s → workers_ (pool s) !! i = Some (Running e) → timed_worker ok i (Running e) s = Some s' → TimesInv s'.
Proof.
  intros [] Hi Hs. unfold timed_worker in Hs. cbn in Hs.
  destruct (ti_workers0 i _ Hi eq_refl) as [t Ht]. rewrite Ht in Hs. simplify_eq.
  destruct (ti_timings0 i t Ht) as (Hsub & Hord & Hnow). split; cbn; try done.
  - by eapply (worker_inv ok i (Running e)).
  - intros j u Hj. apply lookup_insert_Some in Hj as [[<- <-]|[_ Hj]]; [|by apply (ti_timings0 j)].
    unfold timely. cbn. split_and!; [done|lia..].
  - intros j w Hj Hc. destruct (decide (i = j)) as [<-|]; [rewrite lookup_insert_eq; eauto|].
    rewrite lookup_insert_ne by done. destruct (insert_clocked i _ _ j w Hj Hc) as [[-> _]|Hj']; [done|by eapply ti_workers0].
Qed.

Lemma metrics_inv ok i b s s' :
  TimesInv s → workers_ (pool s) !! i = Some (Metrics b) → timed_worker ok i (Metrics b) s = Some s' → TimesInv s'.
Proof.
  intros [] Hi Hs. unfold timed_worker in Hs. cbn in Hs.
  destruct (ti_workers0 i _ Hi eq_refl) as [t Ht]. rewrite Ht in Hs. simplify_eq.
  pose proof (ti_timings0 i t Ht) as Ht'. split; cbn; try done.
  - by eapply (worker_inv ok i (Metrics b)).
  - intros j w Hj Hc. destruct (insert_clocked i _ _ j w Hj Hc) as [[-> ?]|Hj']; [done|by eapply ti_workers0].
  - apply Forall_app. by rewrite Forall_singleton.
  - by rewrite waited_snoc, ti_wait0.
  - by rewrite executed_snoc, ti_exec0.
  - rewrite length_app. cbn. destruct b; cbn; lia.
Qed.

(** The stages at which a worker takes no time. *)
Lemma plain_inv ok i w s s' :
  TimesInv s → workers_ (pool s) !! i = Some w → timed_worker ok i w s = Some s' →
  match w with Checked _ | Running _ | Metrics _ => False | _ => True end → TimesInv s'.
Proof.
  intros HI Hi Hs Hw. unfold timed_worker in Hs. apply bind_Some in Hs as (p & Hp & Hs).
  assert (Hpi : PoolInv p) by (eapply (worker_inv ok i w); [apply HI|done|done]).
  assert (Es : s' = with_pool p s) by (destruct w; by simplify_eq). subst s'. clear Hs.
  destruct w as [|e|e|e|e b|b|b|]; try done; cbn in Hp; repeat case_match; simplify_eq; apply untimed_inv; try done.
  all: intros j w Hj Hc; destruct (insert_clocked i _ _ j w Hj Hc) as [[-> ?]|Hj']; try done; eauto.
Qed.

(** Taking a sequence number stamps just this id. *)
Lemma sequence_stamps k i prio job p :
  PoolInv p → arriving p !! k = Some (Numbered i prio job) →
  (0 < i < nextTaskId_ p ∧ ¬ stamped p i) ∧ ∀ j, stamped (takeSequence k p) j ↔ stamped p j ∨ j = i.
Proof.
  intros HI Hk. pose proof (PoolInv_nodup p HI) as Hnd. destruct HI as (Hn & Hp & _).
  assert (Hin : Numbered i prio job ∈ arriving p) by by eapply list_elem_of_lookup_2.
  assert (Hr : 0 < i < nextTaskId_ p).
  { apply issued_range. rewrite <- Hp. unfold places. rewrite elem_of_app. left. apply list_elem_of_fmap. by exists (Numbered i prio job). }
  split; [split; [done|]; intros [_ Hu]; apply Hu, elem_of_unstamped; eauto|].
  intros j. unfold stamped, takeSequence. rewrite Hk. cbn [nextTaskId_ arriving]. rewrite !elem_of_unstamped.
  assert (Hnum : ∀ a b, Numbered j a b ∈ <[k:=Sequenced (MkEntry i prio (sequenceCounter_ p) job)]> (arriving p) ↔ Numbered j a b ∈ arriving p ∧ j ≠ i).
  { intros a b. rewrite !list_elem_of_lookup. split.
    - intros (m & [(? & ? & _)|[Hm Hl]]%list_lookup_insert_Some); [done|]. split; [by exists m|]. intros ->.
      apply Hm. unfold places in Hnd. apply NoDup_app in Hnd as (Hnd & _). apply (NoDup_lookup _ k m i Hnd); by rewrite list_lookup_fmap, ?Hk, ?Hl.
    - intros [(m & Hm) Hne]. exists m. rewrite list_lookup_insert_ne; [done|]. intros <-. rewrite Hk in Hm. congruence. }
  split.
  - intros [Hj Hu]. destruct (decide (j = i)) as [->|Hne]; [by right|left]. split; [done|]. intros (a & b & Ha). apply Hu. exists a, b. by apply Hnum.
  - intros [[Hj Hu]| ->]; (split; [done|]); intros (a & b & [Ha Hne]%Hnum); [apply Hu; eauto|done].
Qed.

Lemma push_unstamped k e l j : l !! k = Some (Sequenced e) → j ∈ unstamped (delete k l) ↔ j ∈ unstamped l.
Proof.
  intros Hk. rewrite !elem_of_unstamped. split; intros (a & b & Hin); exists a, b.
  - rewrite (delete_Permutation _ _ _ Hk). by right.
  - rewrite (delete_Permutation _ _ _ Hk) in Hin. by apply elem_of_cons in Hin as [?|?].
Qed.

Lemma sequence_inv k s : TimesInv s → TimesInv (timed_sequence k s).
Proof.
  intros HI. pose proof (pool_step_inv (pool s) _ (ps_sequence k (pool s)) (ti_pool s HI)) as Hp. unfold timed_sequence.
  destruct (arriving (pool s) !! k) as [[i prio job|e]|] eqn:Ek;
    [|assert (takeSequence k (pool s) = pool s) as -> by (unfold takeSequence; by rewrite Ek); by destruct HI..].
  destruct (sequence_stamps k i prio job (pool s) (ti_pool s HI) Ek) as [[Hi Hni] Hst]. destruct HI.
  assert (Ht : ∀ t, timely s t → submitTime s !! t_task t = Some (t_submit t) → i ≠ t_task t) by (intros t _ E ->; by rewrite ti_fresh0 in E).
  assert (Hm : ∀ t, timely s t → <[i := now s]> (submitTime s) !! t_task t = Some (t_submit t)).
  { intros t Hu. pose proof Hu as (E & _). rewrite lookup_insert_ne; [done|by apply Ht]. }
  assert (Ew : workers_ (takeSequence k (pool s)) = workers_ (pool s) ∧ metrics_ (takeSequence k (pool s)) = metrics_ (pool s)) by (unfold takeSequence; by rewrite Ek).
  destruct Ew as [Ew Em]. split; cbn; rewrite ?Ew, ?Em; try done.
  - intros j [Hj| ->]%Hst; [|exists (now s); by rewrite lookup_insert_eq].
    rewrite lookup_insert_ne; [by apply ti_submitted0|]. intros <-. done.
  - intros j Hj. rewrite Hst in Hj. rewrite lookup_insert_ne by (intros ->; tauto). apply ti_fresh0. tauto.
  - intros m t Hu. pose proof (ti_timings0 m t Hu) as Hu'. split; [by apply Hm|apply Hu'].
  - eapply Forall_impl; [exact ti_counted0|]. intros t Hu. split; [by apply Hm|apply Hu].
Qed.

Lemma timed_create_inv prio job s :
  nextTaskId_ (pool s) < 2 ^ 64 - 1 → TimesInv s → TimesInv (with_pool (createTaskHandle prio job (pool s)).2 s).
Proof.
  intros Hb HI. apply untimed_inv; [done|eapply pool_step_inv; [by apply ps_create|apply HI]| |done|by eauto].
  destruct HI as [(Hpos & Hpl & _) _ _ _]. intros j. unfold stamped. cbn [createTaskHandle snd nextTaskId_ arriving].
  unfold u64. rewrite wrap_small by lia. rewrite !elem_of_unstamped. setoid_rewrite elem_of_app. setoid_rewrite list_elem_of_singleton. split.
  - intros [Hj Hu]. assert (j ≠ nextTaskId_ (pool s)) by (intros ->; apply Hu; eauto). split; [lia|]. intros (a & b & Ha). apply Hu. eauto.
  - intros [Hj Hu]. split; [lia|]. intros (a & b & [Ha|[= -> _ _]]); [apply Hu; eauto|lia].
Qed.

Lemma timed_push_inv k s : TimesInv s → TimesInv (with_pool (pushEntry k (pool s)).2 s).
Proof.
  intros HI. pose proof (pool_step_inv (pool s) _ (ps_push k (pool s)) (ti_pool s HI)) as Hp. unfold pushEntry in *.
  destruct (arriving (pool s) !! k) as [[|e]|] eqn:Ek; [by destruct HI| |by destruct HI].
  destruct (shuttingDown_ (pool s)); (apply untimed_inv; [done|done| |done|by eauto]);
    intros j; unfold stamped; cbn [snd nextTaskId_ arriving]; by rewrite (push_unstamped k e _ j Ek).
Qed.

Lemma timed_step_inv s s' : timed_step s s' → TimesInv s → TimesInv s'.
Proof.
  intros Hs HI. destruct Hs as [t s Ht|prio job s Hn|k s|k s|ok i w s s' Hi Hw|s|s|j s|s|n s|s].
  - destruct HI. unfold timely in *. split; cbn; try done; try lia.
    + intros j Hj. destruct (ti_submitted0 j Hj) as (u & Hu & ?). exists u. split; [done|lia].
    + intros i u Hu. destruct (ti_timings0 i u Hu) as (? & ? & ?). split_and!; try done; cbn; lia.
    + eapply Forall_impl; [exact ti_counted0|]. intros u (? & ? & ?). split_and!; try done; cbn; lia.
  - by apply timed_create_inv.
  - by apply sequence_inv.
  - by apply timed_push_inv.
  - destruct w as [|e|e|e|e b|b|b|] eqn:Ew; try (eapply plain_inv; [exact HI|exact Hi|exact Hw|done]).
    + by eapply checked_inv.
    + by eapply running_inv.
    + by eapply metrics_inv.
  - destruct HI. split; cbn; try done; try lia.
  - apply untimed_inv; try done; [by apply (pool_step_inv (pool s)); [apply ps_count|apply HI]|eauto].
  - apply untimed_inv; try done; [by apply (pool_step_inv (pool s)); [apply ps_cancel|apply HI]|eauto].
  - apply untimed_inv; try done; [by apply (pool_step_inv (pool s)); [apply ps_cancelAll|apply HI]|eauto].
  - pose proof (pool_step_inv (pool s) _ (ps_resize n (pool s)) (ti_pool s HI)) as Hp. unfold resize in *.
    repeat case_match; apply untimed_inv; try done; eauto.
    cbn. intros i w Hi Hc. apply lookup_app_Some in Hi as [Hi|[_ Hi]]; [eauto|].
    apply lookup_replicate in Hi as [-> _]. done.
  - apply untimed_inv; try done; [by apply (pool_step_inv (pool s)); [apply ps_shutDown|apply HI]|eauto].
Qed.

Lemma waited_pos l :
  Forall (λ t, t_submit t <= t_start t <= t_end t) l → 0 <= waited l ∧ 0 <= executed l.
Proof. induction 1; cbn in *; [lia|]. unfold waited, executed in *. lia. Qed.

(** On a clock that does not go back, in every interleaving of clients and
    workers: the total wait and execution times are the sums, over the tasks
    counted as completed or failed since the last reset, of start minus submit
    and of end minus start; each of these is the time of a submitted task and
    not negative; and the last activity is not in the future. *)
Theorem pool_times_exact n p s :
  newPool n = Ok p → rtc timed_step (timed_init p) s →
  totalWaitTime s = waited (counted s) ∧ totalExecutionTime s = executed (counted s) ∧
  tasksCompleted (metrics_ (pool s)) + tasksFailed (metrics_ (pool s)) = Z.of_nat (length (counted s)) ∧
  (∀ t, t ∈ counted s → submitTime s !! t_task t = Some (t_submit t) ∧ t_submit t <= t_start t <= t_end t) ∧
  0 <= totalWaitTime s ∧ 0 <= totalExecutionTime s ∧ lastActivity s <= now s.
Proof.
  intros Hp Hr. assert (HI : TimesInv s).
  { refine (rtc_invariant timed_step TimesInv _ _ timed_step_inv Hr _). pose proof (newPool_inv _ _ Hp) as Hpi.
    unfold newPool in Hp. case_match; simplify_eq. split; cbn; try done; try lia; try (by constructor).
    - intros j [Hj _]. cbn in Hj. lia.
    - intros i w Hi Hc. apply lookup_replicate in Hi as [-> _]. done. }
  destruct HI. rewrite Forall_forall in ti_counted0. split_and!; try done; try lia.
  - intros t Ht. destruct (ti_counted0 t Ht) as (? & ? & _). done.
  - rewrite ti_wait0. apply waited_pos, Forall_forall. intros t Ht. by destruct (ti_counted0 t Ht) as (_ & ? & _).
  - rewrite ti_exec0. apply waited_pos, Forall_forall. intros t Ht. by destruct (ti_counted0 t Ht) as (_ & ? & _).
Qed.

(** One task, submitted at 0, started at 3 and finished at 10. *)
Definition one_worker : Pool := MkPool [] [Waiting] ∅ ∅ false 0 1 0 (MkMetrics 0 0 0 0) [] [] [] [].

Lemma one_task_run :
  ∃ s, rtc timed_step (timed_init one_worker) s ∧ counted s = [MkTiming 1 0 3 10] ∧
       totalWaitTime s = 3 ∧ totalExecutionTime s = 7.
Proof.
  eexists. split.
  { eapply rtc_l; [by apply (TS_create 0 4)|]. eapply rtc_l; [by apply (TS_sequence 0)|].
    eapply rtc_l; [by apply (TS_push 0)|]. eapply rtc_l; [by apply (TS_tick 3)|].
    do 3 (eapply rtc_l; [eapply (TS_worker true 0); vm_compute; reflexivity|]).
    eapply rtc_l; [by apply (TS_tick 10)|].
    do 4 (eapply rtc_l; [eapply (TS_worker true 0); vm_compute; reflexivity|]). apply rtc_refl. }
  split_and!; vm_compute; reflexivity.
Qed.

Lemma pool_times_exact_witness : ∃ s, counted s = [MkTiming 1 0 3 10] ∧ totalWaitTime s = waited (counted s).
Proof.
  destruct one_task_run as (s & Hr & Hc & _). exists s. split; [exact Hc|].
  apply (pool_times_exact 1 one_worker s eq_refl Hr).
Defined.
