(* ===== verification/SysCalls.v ===== *)
(** * System call wrappers
    (src/src/futex.cpp, rw_mutex.cpp, recursive_mutex.cpp, once.cpp, latch.cpp,
     semaphore.cpp, shared_sync.cpp, message_queue.cpp,
     src/src/async/io_uring_syscalls.hpp)

    Each of these files has its own wrappers of the futex call.  The models of
    the primitives (Futex.v and its users) take a wait and a wake as single
    actions; here are the calls the wrappers make for them, with the kernel's
    answers as input: which arguments, how often, and with what result. *)

From S2P Require Import Prelude FutexMutex.

Definition FUTEX_WAIT : Z := 0.
Definition FUTEX_WAKE : Z := 1.
Definition FUTEX_PRIVATE_FLAG : Z := 128.

(** The arguments of a futex call that are not null or zero. *)
Record futex_call := MkCall { uaddr : Z; op : Z; val : Z; timeout : option (Z * Z) }.

(** What the call returns: -1 with an error number, or not. *)
Record reply := MkReply { rc : Z; errno : Z }.

(** ** Waiting *)

(** The loop of the wrappers that do not return the result: a call, until it
    succeeds, finds the word changed, or fails for another reason than a signal.
    The calls made and how it ends; past the replies it is still in the last
    call. *)
Fixpoint wait_loop (c : futex_call) (rs : list reply) : list futex_call * outcome unit :=
  match rs with
  | [] => ([c], Hang)
  | r :: rs' =>
      if (rc r =? 0) || (errno r =? EAGAIN) then ([c], Ok tt)
      else if negb (errno r =? EINTR) then ([c], Throw (SystemError (errno r)))
      else let '(cs, o) := wait_loop c rs' in (c :: cs, o)
  end.

Definition private_wait (addr expected : Z) : futex_call := MkCall addr (Z.lor FUTEX_WAIT FUTEX_PRIVATE_FLAG) expected None.

Definition rw_futex_wait (addr expected : Z) : list reply → list futex_call * outcome unit := wait_loop (private_wait addr expected).
Definition recursive_futex_wait (addr expected : Z) : list reply → list futex_call * outcome unit := wait_loop (private_wait addr expected).
Definition once_futex_wait (addr expected : Z) : list reply → list futex_call * outcome unit := wait_loop (private_wait addr expected).
Definition latch_futex_wait (addr expected : Z) : list reply → list futex_call * outcome unit := wait_loop (private_wait addr expected).

(** The wrappers that make one call and return its result. *)
Definition sem_futex_wait (addr expected : Z) (t : option (Z * Z)) : futex_call :=
  MkCall addr (Z.lor FUTEX_WAIT FUTEX_PRIVATE_FLAG) expected t.
Definition shared_futex_wait (addr expected : Z) (t : option (Z * Z)) : futex_call := MkCall addr FUTEX_WAIT expected t.
Definition mq_shared_futex_wait (addr expected : Z) : futex_call := MkCall addr FUTEX_WAIT expected None.

(** ** Waking; the results are ignored *)

Definition INT_MAX : Z := 2 ^ 31 - 1.

Definition private_wake (addr count : Z) : futex_call := MkCall addr (Z.lor FUTEX_WAKE FUTEX_PRIVATE_FLAG) count None.

Definition rw_futex_wake_one (addr : Z) : futex_call := private_wake addr 1.
Definition rw_futex_wake_all (addr : Z) : futex_call := private_wake addr INT_MAX.
Definition recursive_futex_wake_one (addr : Z) : futex_call := private_wake addr 1.
Definition once_futex_wake_all (addr : Z) : futex_call := private_wake addr INT_MAX.
Definition latch_futex_wake_all (addr : Z) : futex_call := private_wake addr INT_MAX.
Definition sem_futex_wake (addr count : Z) : futex_call := private_wake addr count.
Definition shared_futex_wake (addr count : Z) : futex_call := MkCall addr FUTEX_WAKE count None.
Definition mq_shared_futex_wake (addr count : Z) : futex_call := MkCall addr FUTEX_WAKE count None.

(** [futex_wake_internal] of futex.cpp throws when the call fails. *)
Definition futex_wake_internal (addr count : Z) (r : reply) : futex_call * outcome unit :=
  (private_wake addr count, if rc r =? -1 then Throw (SystemError (errno r)) else Ok tt).

(** ** io_uring *)

(** A raw system call: its number and arguments. *)
Record raw_call := MkRaw { nr : Z; args : list Z }.

Definition NR_io_uring_setup : Z := 425.
Definition NR_io_uring_enter : Z := 426.
Definition NR_io_uring_register : Z := 427.
(** Of <signal.h>; the kernel counts one less. *)
Definition NSIG : Z := 65.

Definition io_uring_setup (entries params : Z) : raw_call := MkRaw NR_io_uring_setup [entries; params].
Definition io_uring_enter (fd to_submit min_complete flags sig : Z) : raw_call :=
  MkRaw NR_io_uring_enter [fd; to_submit; min_complete; flags; sig; NSIG ÷ 8].
Definition io_uring_register (fd opcode arg nr_args : Z) : raw_call := MkRaw NR_io_uring_register [fd; opcode; arg; nr_args].

(** ** What the wrappers do *)

Lemma wait_loop_interrupted c k r rs :
  ¬ (rc r ≠ 0 ∧ errno r = EINTR) →
  wait_loop c (replicate k (MkReply (-1) EINTR) ++ r :: rs) =
    (replicate (S k) c, if (rc r =? 0) || (errno r =? EAGAIN) then Ok tt else Throw (SystemError (errno r))).
Proof.
  intros Hr. induction k as [|k IH]; cbn.
  - destruct (Z.eqb_spec (rc r) 0); cbn; [done|]. destruct (Z.eqb_spec (errno r) EAGAIN); cbn; [done|].
    destruct (Z.eqb_spec (errno r) EINTR); [tauto|done].
  - cbn in IH. by rewrite IH.
Qed.

(** The operation without its flag, and whether the flag is set: two calls meet
    in the kernel when they agree on the address and on the flag. *)
Definition command (c : futex_call) : Z := Z.land (op c) (Z.lnot FUTEX_PRIVATE_FLAG).
Definition is_private (c : futex_call) : bool := Z.testbit (op c) 7.
Definition meet (c d : futex_call) : Prop := uaddr c = uaddr d ∧ is_private c = is_private d.

(** The files with their waits and wakes. *)
Inductive file := RwMutexCpp | RecursiveMutexCpp | OnceCpp | LatchCpp | SemaphoreCpp | SharedSyncCpp | MessageQueueCpp.

Definition wait_of (f : file) (addr expected : Z) (t : option (Z * Z)) : list futex_call :=
  match f with
  | RwMutexCpp => (rw_futex_wait addr expected [MkReply 0 0]).1
  | RecursiveMutexCpp => (recursive_futex_wait addr expected [MkReply 0 0]).1
  | OnceCpp => (once_futex_wait addr expected [MkReply 0 0]).1
  | LatchCpp => (latch_futex_wait addr expected [MkReply 0 0]).1
  | SemaphoreCpp => [sem_futex_wait addr expected t]
  | SharedSyncCpp => [shared_futex_wait addr expected t]
  | MessageQueueCpp => [mq_shared_futex_wait addr expected]
  end.

Definition wakes_of (f : file) (addr count : Z) : list futex_call :=
  match f with
  | RwMutexCpp => [rw_futex_wake_one addr; rw_futex_wake_all addr]
  | RecursiveMutexCpp => [recursive_futex_wake_one addr]
  | OnceCpp => [once_futex_wake_all addr]
  | LatchCpp => [latch_futex_wake_all addr]
  | SemaphoreCpp => [sem_futex_wake addr count]
  | SharedSyncCpp => [shared_futex_wake addr count]
  | MessageQueueCpp => [mq_shared_futex_wake addr count]
  end.

(** Only the primitives for several processes leave the private flag out. *)
Definition across_processes (f : file) : bool := match f with SharedSyncCpp | MessageQueueCpp => true | _ => false end.

(** The futex wrappers: a wait that signals interrupt [k] times makes the same
    call [k + 1] times and then returns if it was woken or the word had changed,
    and throws the error otherwise, in each of the four files with such a loop
    and as [futex_wait_internal] without a timeout does; and in every file each
    wake meets each wait on the same word, with the operation it should have,
    private exactly for the primitives of one process. *)
Theorem futex_wrappers :
  (∀ addr e k r rs, ¬ (rc r ≠ 0 ∧ errno r = EINTR) →
     let expected := (replicate (S k) (private_wait addr e),
                      if (rc r =? 0) || (errno r =? EAGAIN) then Ok tt else Throw (SystemError (errno r))) in
     let replies := replicate k (MkReply (-1) EINTR) ++ r :: rs in
     rw_futex_wait addr e replies = expected ∧ recursive_futex_wait addr e replies = expected ∧
     once_futex_wait addr e replies = expected ∧ latch_futex_wait addr e replies = expected ∧
     futex_wait_internal false ((λ r, if rc r =? 0 then Woken else WaitErr (errno r)) <$> replies) = expected.2) ∧
  (∀ f addr e t n c d, c ∈ wait_of f addr e t → d ∈ wakes_of f addr n →
     meet c d ∧ command c = FUTEX_WAIT ∧ command d = FUTEX_WAKE ∧ is_private c = negb (across_processes f)).
Proof.
  split.
  - intros addr e k r rs Hr expected replies.
    assert (E : wait_loop (private_wait addr e) replies = expected) by by apply wait_loop_interrupted.
    split_and!; [done..|]. unfold replies, expected. cbn [snd]. rewrite fmap_app. clear E replies expected.
    induction k as [|k IH]; cbn in *; [|exact IH].
    destruct (Z.eqb_spec (rc r) 0); cbn; [done|]. destruct (Z.eqb_spec (errno r) EAGAIN); cbn; [done|].
    destruct (Z.eqb_spec (errno r) EINTR); [tauto|done].
  - intros f addr e t n c d Hc Hd. destruct f; cbn in Hc, Hd; repeat (apply elem_of_cons in Hc as [->|Hc]; [|try by apply elem_of_nil in Hc]); repeat (apply elem_of_cons in Hd as [->|Hd]; [|try by apply elem_of_nil in Hd]); done.
Qed.
