(* ===== verification/AsyncSleep.v ===== *)
(** * Sleeping coroutines (include/pman/async/sleep.hpp, time.hpp)

    [sleep], [sleepUntil] and [yieldNow] over the timers of EpollLoop.v, by any
    number of coroutines on one loop.  The awaiter lives in the coroutine's
    frame: it is there while the coroutine sleeps, and its destructor cancels
    the timer when the frame is destroyed before.  The callback of a timer uses
    the awaiter and resumes the coroutine.  A pass of the loop first takes the
    callbacks of all expired timers into a batch and then runs them; a coroutine
    that is resumed may sleep again, and may destroy others that sleep, also
    those whose callbacks are in the batch. *)

From S2P Require Import Prelude EpollLoop AsyncTime.
Import Time.

(** [SleepAwaiter] and [SleepUntilAwaiter] after [await_suspend]; [expiry] is
    where its timer stands and [asked] the time the coroutine wanted to sleep
    until, which the code need not know. *)
Record Sleeper := MkSleeper { timerId_ : Z; expiry : Z; asked : Z }.

(** The awaiters are named: every [co_await] has one with a new name.  [batch]:
    the callbacks the loop has taken and not yet run, with the time of the pass.
    [woken]: the awaiters whose coroutines were resumed, with the time they asked
    for and the time of the pass that resumed them.  [doomed]: the awaiters
    destroyed while their callbacks were in the batch.  [dangling]: a callback
    found no awaiter. *)
Record World := MkWorld {
  loop : EpollLoop;
  sleepers : gmap Z Sleeper;
  batch : list (Z * Z);
  woken : list (Z * Z * Z);
  doomed : list Z;
  dangling : bool
}.

(** [await_suspend] of both awaiters: a timer whose callback resumes coroutine
    [h]; without a loop, neither given nor current, it throws. *)
Definition suspend_for (has_loop : bool) (h now : Z) (d : Duration) (until : Z) (w : World) : outcome unit * World :=
  if has_loop then
    let '(id, l) := addTimer now (asNanos d) (Some h) (loop w) in
    (Ok tt, MkWorld l (<[h := MkSleeper id (now + asNanos d) until]> (sleepers w)) (batch w) (woken w) (doomed w) (dangling w))
  else (Throw RuntimeError, w).

(** [co_await sleep(d)]: it never goes on at once. *)
Definition sleep (has_loop : bool) (h now : Z) (d : Duration) (w : World) : outcome unit * World :=
  suspend_for has_loop h now d (now + asNanos d) w.

Definition yieldNow (has_loop : bool) (h now : Z) (w : World) : outcome unit * World :=
  sleep has_loop h now (fromNanos 0) w.

(** [co_await sleepUntil(deadline)]: the clock is read by [await_ready], by
    [durationUntil] and by [addTimer].  The result says whether it went on at
    once. *)
Definition sleepUntil (has_loop : bool) (h now1 now2 now3 : Z) (deadline : Instant) (w : World) : outcome bool * World :=
  if hasPassed now1 deadline then (Ok true, w)
  else match suspend_for has_loop h now3 (durationUntil now2 deadline) (tp_ deadline) w with
       | (Ok _, w') => (Ok false, w')
       | (Throw e, w') => (Throw e, w')
       | (Hang, w') => (Hang, w')
       end.

(** The callback for awaiter [h]: the awaiter is marked and the coroutine goes
    on; its awaiter is gone. *)
Definition fired (now h : Z) (w : World) : World :=
  match sleepers w !! h with
  | Some a => MkWorld (loop w) (delete h (sleepers w)) (batch w) (woken w ++ [(h, asked a, now)]) (doomed w) (dangling w)
  | None => MkWorld (loop w) (sleepers w) (batch w) (woken w) (doomed w) true
  end.

(** The destructor of an awaiter whose frame is destroyed. *)
Definition destroy_frame (h : Z) (w : World) : World :=
  match sleepers w !! h with
  | Some a =>
      let doomed' := if bool_decide (h ∈ (batch w).*1) then doomed w ++ [h] else doomed w in
      let w1 := MkWorld (loop w) (delete h (sleepers w)) (batch w) (woken w) doomed' (dangling w) in
      if negb (timerId_ a =? 0) then
        match cancelTimer (timerId_ a) (loop w) with
        | Some (_, l) => MkWorld l (sleepers w1) (batch w1) (woken w1) (doomed w1) (dangling w1)
        | None => MkWorld (loop w1) (sleepers w1) (batch w1) (woken w1) (doomed w1) true
        end
      else w1
  | None => w
  end.

(** [processTimers] up to its last loop.  A pass inside of a callback runs its
    own batch first. *)
Definition collect_pass (now : Z) (w : World) : World :=
  let '(hs, l) := collectTimers now (loop w) in
  MkWorld l (sleepers w) (((λ h, (h, now)) <$> hs) ++ batch w) (woken w) (doomed w) (dangling w).

(** The next callback of the batch. *)
Definition fire_next (w : World) : World :=
  match batch w with
  | [] => w
  | (h, now) :: b => fired now h (MkWorld (loop w) (sleepers w) b (woken w) (doomed w) (dangling w))
  end.

(** A whole pass in which the resumed coroutines do nothing. *)
Definition timers_pass (now : Z) (w : World) : World :=
  let w1 := collect_pass now w in Nat.iter (length (batch w1)) fire_next w1.

(** The name is new to everything. *)
Definition fresh (h : Z) (w : World) : Prop :=
  sleepers w !! h = None ∧ (h ∉ (batch w).*1) ∧ h ∉ doomed w.

(** Coroutines sleep and are destroyed at any time, also within a pass. *)
Inductive sleep_step : relation World :=
  | SL_sleep h now d w :
      fresh h w → nextTimerId_ (loop w) + 1 < 2 ^ 64 → sleep_step w (sleep true h now d w).2
  | SL_until h now1 now2 now3 i w :
      fresh h w → nextTimerId_ (loop w) + 1 < 2 ^ 64 → now1 <= now2 <= now3 →
      sleep_step w (sleepUntil true h now1 now2 now3 i w).2
  | SL_destroy h w : sleep_step w (destroy_frame h w)
  | SL_collect now w : sleep_step w (collect_pass now w)
  | SL_fire w : sleep_step w (fire_next w).

Definition sleep_init : World := MkWorld initLoop ∅ [] [] [] false.

(** ** The invariant *)

(** The timer of a sleeper. *)
Definition timer_of (h : Z) (a : Sleeper) (n : Node) : Prop :=
  node_entry n = MkTimerEntry (timerId_ a) (Some h) 0 ∧ node_key n = expiry a.

(** The timers of the loop are those of the sleepers that no batch is about to
    resume, and nobody asked for a time after its timer. *)
Record SleepInv (w : World) : Prop := {
  si_loop : LoopInv (loop w);
  si_timers : ∀ n, n ∈ timersByExpiry_ (loop w) → ∃ h a, sleepers w !! h = Some a ∧ timer_of h a n ∧ h ∉ (batch w).*1;
  si_sleepers : ∀ h a, sleepers w !! h = Some a →
    0 < timerId_ a < nextTimerId_ (loop w) ∧ asked a <= expiry a ∧
    (h ∉ (batch w).*1 → ∃ n, n ∈ timersByExpiry_ (loop w) ∧ timer_of h a n);
  si_ids : ∀ h h' a a', sleepers w !! h = Some a → sleepers w !! h' = Some a' → timerId_ a = timerId_ a' → h = h';
  si_batch : NoDup (batch w).*1;
  si_live : ∀ h now, (h, now) ∈ batch w → (∃ a, sleepers w !! h = Some a ∧ expiry a <= now) ∨ h ∈ doomed w;
  si_doomed : ∀ h, h ∈ doomed w → sleepers w !! h = None;
  si_woken : Forall (λ x, x.1.2 <= x.2) (woken w);
  si_dangling : dangling w = true ↔ ∃ h, h ∈ doomed w ∧ h ∉ (batch w).*1 }.

Lemma suspend_inv h now d until w :
  SleepInv w → fresh h w → nextTimerId_ (loop w) + 1 < 2 ^ 64 → until <= now + asNanos d →
  SleepInv (suspend_for true h now d until w).2.
Proof.
  intros [Hl Ht Hs Hi Hb Hv Hx Hw Hd] (Hh & Hhb & Hhd) Hn Hu. cbn.
  set (n0 := MkNode (now + asNanos d) (nextNode (loop w)) (MkTimerEntry (nextTimerId_ (loop w)) (Some h) 0)).
  assert (Hp : multimap_emplace n0 (timersByExpiry_ (loop w)) ≡ₚ n0 :: timersByExpiry_ (loop w)) by apply multimap_emplace_perm.
  assert (Hu64 : u64 (nextTimerId_ (loop w) + 1) = nextTimerId_ (loop w) + 1) by (apply wrap_small; pose proof (inv_next _ Hl); lia).
  split; cbn; try done.
  - by apply addTimer_inv_gen.
  - intros n Hin. fold n0 in Hin. rewrite Hp in Hin. apply elem_of_cons in Hin as [->|Hin].
    + eexists h, _. by rewrite lookup_insert_eq.
    + destruct (Ht n Hin) as (h' & a & Ha & Hta). exists h', a. rewrite lookup_insert_ne by congruence. done.
  - intros h' a Ha. fold n0. setoid_rewrite Hp. setoid_rewrite elem_of_cons. rewrite Hu64.
    apply lookup_insert_Some in Ha as [[<- <-]|[_ Ha]]; cbn.
    + split_and!; [apply Hl|lia|done|]. intros _. exists n0. split; [by left|done].
    + destruct (Hs h' a Ha) as (? & ? & Hnode). split_and!; [lia|lia|done|]. intros Hnb. destruct (Hnode Hnb) as (n & Hin & Hta). exists n. split; [by right|done].
  - intros h1 h2 a1 a2 [[<- <-]|[_ H1]]%lookup_insert_Some [[<- <-]|[_ H2]]%lookup_insert_Some E; cbn in E; [done| | |by eapply Hi].
    + destruct (Hs h2 a2 H2) as (? & _). lia.
    + destruct (Hs h1 a1 H1) as (? & _). lia.
  - intros h' t Hin. destruct (Hv h' t Hin) as [(a & Ha & Hle)|]; [|by right]. left. exists a. rewrite lookup_insert_ne by congruence. done.
  - intros h' Hin. rewrite lookup_insert_ne by congruence. by apply Hx.
Qed.

(** Two sleepers have different timers. *)
Lemma timer_of_id h a n : timer_of h a n → node_id n = timerId_ a.
Proof. intros [E _]. unfold node_id. by rewrite E. Qed.

Lemma same_node w n m :
  LoopInv (loop w) → n ∈ timersByExpiry_ (loop w) → m ∈ timersByExpiry_ (loop w) → node_id n = node_id m → n = m.
Proof.
  intros Hl Hn Hm E. pose proof (inv_ids _ Hl) as Hd.
  apply list_elem_of_lookup in Hn as [i Hi]. apply list_elem_of_lookup in Hm as [j Hj].
  assert (i = j); [|congruence]. eapply (NoDup_lookup _ i j (node_id n) Hd).
  - by rewrite list_lookup_fmap, Hi.
  - rewrite list_lookup_fmap, Hj. cbn. by rewrite E.
Qed.

Lemma cancel_next i l b l' : cancelTimer i l = Some (b, l') → nextTimerId_ l' = nextTimerId_ l.
Proof. unfold cancelTimer. case_match; [|by intros [= _ <-]]. intros (x & _ & [= _ <-])%bind_Some. done. Qed.

Lemma destroy_sleeper_inv h w : SleepInv w → SleepInv (destroy_frame h w).
Proof.
  intros HI. pose proof HI as [Hl Ht Hs Hi Hb Hv Hx Hw Hd]. unfold destroy_frame. destruct (sleepers w !! h) as [a|] eqn:Ha; [|done].
  destruct (Hs h a Ha) as (Hid & _ & _). destruct (Z.eqb_spec (timerId_ a) 0) as [|Hne]; [lia|]. cbn [negb].
  destruct (cancelTimer_spec (timerId_ a) (loop w) Hl) as (l & E & Hrem & _). rewrite E.
  destruct (cancelTimer_inv (timerId_ a) (loop w) Hl) as (b & l' & E' & Hl'). simplify_eq. pose proof (cancel_next _ _ _ _ E) as En.
  set (dm := if bool_decide (h ∈ (batch w).*1) then doomed w ++ [h] else doomed w).
  assert (Hdm : ∀ k, k ∈ dm ↔ k ∈ doomed w ∨ (k = h ∧ h ∈ (batch w).*1)).
  { intros k. unfold dm. destruct (bool_decide_reflect (h ∈ (batch w).*1)); [rewrite elem_of_app, list_elem_of_singleton|]; naive_solver. }
  split; cbn; rewrite ?En; try done.
  - intros m [Hm Hne']%Hrem. destruct (Ht m Hm) as (h' & a' & Ha' & Hta' & Hnb). exists h', a'.
    rewrite lookup_delete_ne; [done|]. intros <-. simplify_eq. by rewrite (timer_of_id _ _ _ Hta') in Hne'.
  - intros h' a' [Hne' Ha']%lookup_delete_Some. destruct (Hs h' a' Ha') as (? & ? & Hnode). split_and!; [lia|lia|done|].
    intros Hnb. destruct (Hnode Hnb) as (m & Hm & Hta'). exists m. split; [|done]. apply Hrem. split; [done|].
    rewrite (timer_of_id _ _ _ Hta'). intros E'. apply Hne'. by apply (Hi h h' a a').
  - intros h1 h2 a1 a2 [_ H1]%lookup_delete_Some [_ H2]%lookup_delete_Some. by apply Hi.
  - intros k t Hin. destruct (decide (k = h)) as [->|Hkh].
    + right. apply Hdm. right. split; [done|]. apply list_elem_of_fmap. by exists (h, t).
    + destruct (Hv k t Hin) as [(a' & Ha' & Hle)|]; [left; exists a'; by rewrite lookup_delete_ne|right; apply Hdm; by left].
  - intros k [Hk|[-> _]]%Hdm; [|by rewrite lookup_delete_eq]. apply lookup_delete_None. right. by apply Hx.
  - rewrite Hd. setoid_rewrite Hdm. naive_solver.
Qed.

(** ** A pass *)

Lemma NoDup_omap_inj {A B} (f : A → option B) (l : list A) :
  NoDup l → (∀ x y b, x ∈ l → y ∈ l → f x = Some b → f y = Some b → x = y) → NoDup (omap f l).
Proof.
  intros Hn Hf. induction Hn as [|x l Hx Hn IH]; [constructor|]. cbn.
  assert (IH' : NoDup (omap f l)) by (apply IH; intros y z b Hy Hz; apply Hf; by right).
  destruct (f x) as [b|] eqn:E; [|done]. constructor; [|done]. intros (y & Hy & Ey)%list_elem_of_omap.
  assert (x = y) as -> by (apply (Hf x y b); [left|by right|done|done]). done.
Qed.

Lemma fire_next_inv w : SleepInv w → SleepInv (fire_next w).
Proof.
  intros HI. pose proof HI as [Hl Ht Hs Hi Hb Hv Hx Hw Hd]. unfold fire_next. destruct (batch w) as [|[h now] b] eqn:Eb; [done|].
  cbn in Hb. apply NoDup_cons in Hb as [Hhb Hb]. unfold fired. cbn.
  destruct (Hv h now) as [(a & Ha & Hle)|Hdm]; [left| |].
  - rewrite Ha. destruct (Hs h a Ha) as (_ & Hask & _). split; cbn; try done.
    + intros n Hn. destruct (Ht n Hn) as (h' & a' & Ha' & Hta & Hnb). cbn in Hnb. apply not_elem_of_cons in Hnb as [Hne Hnb].
      exists h', a'. by rewrite lookup_delete_ne.
    + intros h' a' [Hne Ha']%lookup_delete_Some. destruct (Hs h' a' Ha') as (? & ? & Hnode). split_and!; try lia.
      intros Hnb. apply Hnode. cbn. by apply not_elem_of_cons.
    + intros h1 h2 a1 a2 [_ H1]%lookup_delete_Some [_ H2]%lookup_delete_Some. by apply Hi.
    + intros k t Hin. destruct (Hv k t) as [(a' & Ha' & ?)|]; [by right| |by right]. left. exists a'. rewrite lookup_delete_ne; [done|].
      intros <-. apply Hhb, list_elem_of_fmap. by exists (h, t).
    + intros k Hk. apply lookup_delete_None. right. by apply Hx.
    + apply Forall_app. split; [done|]. apply Forall_singleton. cbn. lia.
    + rewrite Hd. split; intros (k & Hk & Hnb); exists k; (split; [done|]); cbn in *; [by apply not_elem_of_cons in Hnb as [_ ?]|].
      apply not_elem_of_cons. split; [|done]. intros ->. by rewrite (Hx h Hk) in Ha.
  - rewrite (Hx h Hdm). split; cbn; try done.
    + intros n Hn. destruct (Ht n Hn) as (h' & a' & Ha' & Hta & Hnb). cbn in Hnb. apply not_elem_of_cons in Hnb as [Hne Hnb]. by exists h', a'.
    + intros h' a' Ha'. destruct (Hs h' a' Ha') as (? & ? & Hnode). split_and!; try lia. intros Hnb. apply Hnode. cbn. apply not_elem_of_cons.
      split; [|done]. intros ->. by rewrite (Hx h Hdm) in Ha'.
    + intros k t Hin. apply Hv. by right.
    + split; [|done]. intros _. by exists h.
Qed.

(** The coroutines whose timers a pass finds expired. *)
Definition due_sleepers (now : Z) (w : World) : list Z := callbacks (filter (λ n, node_key n <= now) (timersByExpiry_ (loop w))).

Lemma due_sleepers_spec now w :
  SleepInv w → NoDup (due_sleepers now w) ∧
  ∀ h, h ∈ due_sleepers now w ↔ (h ∉ (batch w).*1) ∧ ∃ a, sleepers w !! h = Some a ∧ expiry a <= now.
Proof.
  intros [Hl Ht Hs _ _ _ _ _ _]. pose proof (inv_ids _ Hl) as Hd. apply NoDup_fmap_1 in Hd. split.
  - apply NoDup_omap_inj; [by apply NoDup_filter|]. intros n m h Hn Hm En Em.
    apply list_elem_of_filter in Hn as [_ Hn]. apply list_elem_of_filter in Hm as [_ Hm].
    destruct (Ht n Hn) as (h1 & a1 & Ha1 & [E1 _] & _). destruct (Ht m Hm) as (h2 & a2 & Ha2 & [E2 _] & _).
    rewrite E1 in En. rewrite E2 in Em. cbn in En, Em. simplify_eq.
    apply (same_node w); try done. unfold node_id. by rewrite E1, E2.
  - intros h. unfold due_sleepers, callbacks. rewrite list_elem_of_omap. split.
    + intros (n & [Hk Hn]%list_elem_of_filter & En). destruct (Ht n Hn) as (h' & a & Ha & [E Ek] & Hnb).
      rewrite E in En. cbn in En. simplify_eq. split; [done|]. exists a. split; [done|]. lia.
    + intros (Hnb & a & Ha & Hle). destruct (Hs h a Ha) as (_ & _ & Hnode). destruct (Hnode Hnb) as (n & Hn & E & Ek). exists n. split.
      * apply list_elem_of_filter. split; [lia|done].
      * by rewrite E.
Qed.

Lemma collect_next now l : nextTimerId_ (collectTimers now l).2 = nextTimerId_ l.
Proof.
  unfold collectTimers. destruct (EpollLoop.collect now _ _ [] []) as [[[l1 ix] b] rs]. cbn.
  assert (H : ∀ rs l0, nextTimerId_ (foldl (λ st p, emplaceTimer p.1 p.2 st) l0 rs) = nextTimerId_ l0).
  { clear. induction rs as [|p rs IH]; intros l0; [done|]. cbn. by rewrite IH. }
  by rewrite H.
Qed.

(** What a pass takes into its batch. *)
Lemma collect_pass_eq now w :
  SleepInv w →
  collect_pass now w = MkWorld (collectTimers now (loop w)).2 (sleepers w) (((λ h, (h, now)) <$> due_sleepers now w) ++ batch w)
                         (woken w) (doomed w) (dangling w).
Proof.
  intros HI. destruct (collectTimers_batch now (loop w) (si_loop w HI)) as [Hb _]. unfold collect_pass.
  destruct (collectTimers now (loop w)) as [hs l]. cbn in Hb. by subst.
Qed.

Lemma collect_pass_inv now w : SleepInv w → SleepInv (collect_pass now w).
Proof.
  intros HI. destruct (due_sleepers_spec now w HI) as [Hnd Hdue]. rewrite (collect_pass_eq now w HI).
  pose proof HI as [Hl Ht Hs Hi Hb Hv Hx Hw Hd].
  destruct (collectTimers_batch now (loop w) Hl) as [_ Hleft]. pose proof (collectTimers_inv now (loop w) Hl) as Hl'. pose proof (collect_next now (loop w)) as En.
  destruct (collectTimers now (loop w)) as [hs l] eqn:Ec. cbn in Hleft, Hl', En |- *.
  assert (Hfst : (((λ h, (h, now)) <$> due_sleepers now w) ++ batch w).*1 = due_sleepers now w ++ (batch w).*1).
  { rewrite fmap_app, <- list_fmap_compose. f_equal. apply list_fmap_id. }
  split; cbn; rewrite ?Hfst, ?En; try done.
  - intros n Hn. destruct (proj1 (Hleft (node_key n) (node_entry n)) (ex_intro _ n (conj Hn (conj eq_refl eq_refl))))
      as (m & Hm & Em & Hcase). destruct (Ht m Hm) as (h & a & Ha & [Ea Ek] & Hnb).
    destruct Hcase as [[Hlt Hk]|(_ & Hp & _)]; [|rewrite <- Em, Ea in Hp; cbn in Hp; lia].
    exists h, a. split_and!; [done|split; [by rewrite <- Em|lia]|]. rewrite elem_of_app, Hdue. intros [(_ & a' & Ha' & ?)|?]; [simplify_eq; lia|done].
  - intros h a Ha. destruct (Hs h a Ha) as (? & ? & Hnode). split_and!; [lia|lia|done|]. rewrite elem_of_app, Hdue. intros Hn.
    assert (Hnb : h ∉ (batch w).*1) by tauto. destruct (Hnode Hnb) as (n & Hin & E & Ek).
    assert (now < expiry a) by (destruct (Z.le_gt_cases (expiry a) now); [exfalso; apply Hn; left; eauto|lia]).
    destruct (proj2 (Hleft (node_key n) (node_entry n))) as (m & Hm & Ekm & Em).
    { exists n. split_and!; [done|done|]. left. split; [lia|done]. }
    exists m. split; [done|]. split; [congruence|lia].
  - apply NoDup_app. split_and!; [done| |done]. intros h [Hh _]%Hdue. done.
  - intros h t [(h' & [= -> ->] & (_ & a & Ha & Hle)%Hdue)%list_elem_of_fmap|Hin]%elem_of_app; [left; eauto|by apply Hv].
  - rewrite Hd. split; intros (h & Hh & Hnb); exists h; (split; [done|]).
    + rewrite elem_of_app, Hdue. intros [(_ & a & Ha & _)|?]; [by rewrite (Hx h Hh) in Ha|done].
    + set_solver.
Qed.

(** Running a batch in which every awaiter is there. *)
Lemma fire_all w n :
  SleepInv w → doomed w = [] → length (batch w) = n →
  let w' := Nat.iter n fire_next w in
  batch w' = [] ∧ (λ x, x.1.1) <$> woken w' = ((λ x, x.1.1) <$> woken w) ++ (batch w).*1 ∧
  ∀ h, sleepers w' !! h = if decide (h ∈ (batch w).*1) then None else sleepers w !! h.
Proof.
  revert w. induction n as [|n IH]; intros w HI Hdm Hn.
  - apply nil_length_inv in Hn. rewrite Hn. cbn. split_and!; [done|by rewrite app_nil_r|done].
  - rewrite Nat.iter_succ_r. pose proof (fire_next_inv w HI) as HI'. destruct (batch w) as [|[h now] b] eqn:Eb; [done|]. cbn in Hn. injection Hn as Hn.
    destruct (si_live w HI h now) as [(a & Ha & Hle)|Hin]; [rewrite Eb; left| |rewrite Hdm in Hin; by apply elem_of_nil in Hin].
    assert (E : fire_next w = MkWorld (loop w) (delete h (sleepers w)) b (woken w ++ [(h, asked a, now)]) (doomed w) (dangling w))
      by (unfold fire_next; rewrite Eb; unfold fired; cbn; by rewrite Ha).
    rewrite E in *. destruct (IH _ HI' Hdm Hn) as (H1 & H2 & H3). cbn in *. split_and!; [done|by rewrite H2, fmap_app, <- app_assoc|].
    intros k. rewrite H3. pose proof (si_batch w HI) as Hnd. rewrite Eb in Hnd. cbn in Hnd. apply NoDup_cons in Hnd as [Hhb _].
    destruct (decide (k = h)) as [->|Hkh].
    + rewrite lookup_delete_eq, (decide_True (P := h ∈ h :: b.*1)) by left. by case_decide.
    + rewrite lookup_delete_ne by done. repeat case_decide; try done; set_solver.
Qed.

Lemma timers_pass_spec now w :
  SleepInv w → batch w = [] → doomed w = [] →
  (∀ h, sleepers (timers_pass now w) !! h =
        match sleepers w !! h with Some a => if expiry a <=? now then None else Some a | None => None end) ∧
  (λ x, x.1.1) <$> woken (timers_pass now w) = ((λ x, x.1.1) <$> woken w) ++ due_sleepers now w.
Proof.
  intros HI Hb Hdm. destruct (due_sleepers_spec now w HI) as [_ Hdue]. pose proof (collect_pass_inv now w HI) as HI'.
  unfold timers_pass. rewrite (collect_pass_eq now w HI) in *.
  destruct (fire_all _ _ HI' Hdm eq_refl) as (_ & H2 & H3). cbn in H2, H3 |- *. rewrite Hb, app_nil_r in *.
  assert (Hfst : ((λ h, (h, now)) <$> due_sleepers now w).*1 = due_sleepers now w) by (rewrite <- list_fmap_compose; apply list_fmap_id).
  rewrite Hfst in *. split; [|done]. intros h. rewrite H3. case_decide as Hh.
  - apply Hdue in Hh as (_ & a & -> & Hle). by rewrite (proj2 (Z.leb_le _ _) Hle).
  - destruct (sleepers w !! h) as [a|] eqn:Ha; [|done]. destruct (Z.leb_spec (expiry a) now); [|done].
    destruct Hh. apply Hdue. split; [|eauto]. apply not_elem_of_nil.
Qed.

Lemma until_reached now2 now3 i : now2 <= now3 → tp_ i <= now3 + asNanos (durationUntil now2 i) <= Z.max (tp_ i) now2 + (now3 - now2).
Proof. intros H. unfold durationUntil. destruct (Z.geb_spec now2 (tp_ i)); cbn; lia. Qed.

Lemma sleep_step_inv w w' : sleep_step w w' → SleepInv w → SleepInv w'.
Proof.
  intros Hs HI. destruct Hs as [h now d w Hh Hn|h now1 now2 now3 i w Hh Hn Hc|h w|now w|w].
  - by apply suspend_inv.
  - unfold sleepUntil. destruct (hasPassed now1 i); [done|].
    pose proof (suspend_inv h now3 (durationUntil now2 i) (tp_ i) w HI Hh Hn) as H. cbn in *. apply H.
    pose proof (until_reached now2 now3 i). lia.
  - by apply destroy_sleeper_inv.
  - by apply collect_pass_inv.
  - by apply fire_next_inv.
Qed.

(** C26: However coroutines sleep, sleep until an instant, are resumed by passes of
    the loop or have their frames destroyed, also by the coroutines a pass has
    resumed: a callback has used an awaiter that is gone exactly when a coroutine
    was destroyed while its callback was in the batch of a pass and the batch has
    run on past it; nobody is resumed before the time it asked for; a pass takes
    into its batch exactly the sleepers whose timers have expired and that no
    batch has yet, each once, and if nothing else is done meanwhile and nobody was
    destroyed so before, it resumes exactly these; and [sleepUntil] goes on at once
    exactly when its instant has passed, and otherwise sleeps until the instant,
    later by no more than the time between its reads of the clock. *)
Theorem sleepers_wake w :
  rtc sleep_step sleep_init w →
  (dangling w = true ↔ ∃ h, h ∈ doomed w ∧ h ∉ (batch w).*1) ∧ Forall (λ x, x.1.2 <= x.2) (woken w) ∧
  (∀ now, ∃ hs, NoDup hs ∧ batch (collect_pass now w) = ((λ h, (h, now)) <$> hs) ++ batch w ∧
     (∀ h, h ∈ hs ↔ (h ∉ (batch w).*1) ∧ ∃ a, sleepers w !! h = Some a ∧ expiry a <= now) ∧
     (batch w = [] → doomed w = [] →
        let w' := timers_pass now w in
        (λ x, x.1.1) <$> woken w' = ((λ x, x.1.1) <$> woken w) ++ hs ∧
        ∀ h a, sleepers w' !! h = Some a ↔ sleepers w !! h = Some a ∧ now < expiry a)) ∧
  (∀ h now1 now2 now3 i, now1 <= now2 <= now3 →
     match sleepUntil true h now1 now2 now3 i w with
     | (Ok true, w') => tp_ i <= now1 ∧ w' = w
     | (Ok false, w') => now1 < tp_ i ∧ ∃ a, sleepers w' !! h = Some a ∧
                         tp_ i <= expiry a <= Z.max (tp_ i) now2 + (now3 - now2)
     | _ => False
     end).
Proof.
  intros Hr. assert (HI : SleepInv w).
  { refine (rtc_invariant _ SleepInv _ _ sleep_step_inv Hr _). split; cbn; try done; [apply initLoop_inv|..].
    - intros n Hn. by apply elem_of_nil in Hn.
    - constructor.
    - intros h now Hn. by apply elem_of_nil in Hn.
    - split; [done|]. intros (h & Hh & _). by apply elem_of_nil in Hh. }
  split_and!; [apply HI|apply HI| |].
  - intros now. destruct (due_sleepers_spec now w HI) as [Hnd Hdue].
    exists (due_sleepers now w). split_and!; [done|by rewrite (collect_pass_eq now w HI)|done|]. intros Hb Hdm. cbn zeta.
    destruct (timers_pass_spec now w HI Hb Hdm) as [Hp Hw]. split; [done|]. intros h a. rewrite Hp.
    destruct (sleepers w !! h) as [a'|]; [|naive_solver]. destruct (Z.leb_spec (expiry a') now); split; intros; [done| | |]; naive_solver lia.
  - intros h now1 now2 now3 i Hc. unfold sleepUntil, hasPassed. destruct (Z.geb_spec now1 (tp_ i)); [split; [lia|done]|].
    cbn. split; [lia|]. eexists. rewrite lookup_insert_eq. split; [done|]. cbn. apply until_reached. lia.
Qed.

(** A coroutine that has asked for 5 ns at time 2, with another one asleep. *)
Definition two_asleep : World := (sleepUntil true 8 1 1 1 (MkInstant 20) (sleep true 7 2 (fromNanos 5) sleep_init).2).2.

Lemma two_asleep_reachable : rtc sleep_step sleep_init two_asleep.
Proof.
  eapply rtc_l; [apply (SL_sleep 7 2 (fromNanos 5)); [by split_and!; [|apply not_elem_of_nil..]|done]|].
  eapply rtc_l; [apply (SL_until 8 1 1 1 (MkInstant 20)); [by split_and!; [|apply not_elem_of_nil..]|done|lia]|]. apply rtc_refl.
Qed.

(** Both are due; the first of them to be resumed destroys the other. *)
Definition destroyed_in_pass : World := fire_next (destroy_frame 8 (fire_next (collect_pass 30 two_asleep))).

Lemma destroyed_in_pass_reachable : rtc sleep_step sleep_init destroyed_in_pass.
Proof.
  eapply rtc_r; [|apply SL_fire]. eapply rtc_r; [|apply SL_destroy]. eapply rtc_r; [|apply SL_fire].
  eapply rtc_r; [apply two_asleep_reachable|apply SL_collect].
Qed.

Lemma sleepers_wake_witness :
  (∃ hs, (λ x, x.1.1) <$> woken (timers_pass 9 two_asleep) = hs ∧ 7 ∈ hs ∧ 8 ∉ hs) ∧ dangling destroyed_in_pass = true.
Proof.
  split.
  - destruct (sleepers_wake two_asleep two_asleep_reachable) as (_ & _ & Hp & _).
    destruct (Hp 9) as (hs & _ & _ & Hin & Hw). exists hs. split; [exact (proj1 (Hw eq_refl eq_refl))|]. rewrite !Hin. split.
    + split; [apply not_elem_of_nil|]. exists (MkSleeper 1 7 7). split; [vm_compute; reflexivity|cbn; lia].
    + intros (_ & a & Ha & Hle). vm_compute in Ha. simplify_eq. cbn in Hle. lia.
  - apply (sleepers_wake destroyed_in_pass destroyed_in_pass_reachable). exists 8. split; [vm_compute; by left|vm_compute; apply not_elem_of_nil].
Defined.
