(* ===== verification/TimeoutResults.v ===== *)
(** * What timeouts give (src/include/pman/async/timeout.hpp)

    [timeout], [tryTimeout], [withDeadline] and [race] around any task: one that
    ends before its first suspension, one that ends later with a value or an
    exception, one that never ends.  AsyncTime.v has the timers of a timeout
    around a sleep on the epoll loop; here the task is any, the end of the task and
    the two moments of the timer are events: a pass of the loop takes the expired
    timer into its batch, after which it cannot be cancelled, and later in the
    pass the batch runs its callback.  The question is what the awaiting coroutine gets, and what becomes of the
    task and of the awaiter.  The four awaiter classes differ in where they start
    the task, with which continuation, in who owns it and in [await_resume]. *)

From S2P Require Import Prelude AsyncTime.
Import Time.

Section timeouts.
Context {T : Type}.

(** What is thrown: by the timeout (a task may throw it too, when it uses a
    timeout itself), for want of a loop, or by the task. *)
Inductive texn := TimeoutError | NoEventLoop | TaskError (e : Z).

Inductive ending := Returns (v : T) | Throws (e : texn).

(** What [co_await] gives: a value, nothing, an empty optional, a flag, or an
    exception. *)
Inductive answer := Value (v : T) | Void | Nullopt | Flag (b : bool) | Raise (e : texn).

Inductive tstate := Suspended | Ended (r : ending) | Destroyed.

(** The fields the four classes share; [timerId_] and [handle_] are zero and
    null until [await_suspend]. *)
Record Awaiter := MkAwaiter { completed_ : bool; timedOut_ : bool; timerId_ : bool; handle_ : bool }.

(** Where the timer is: not in the loop; in it; expired, with its callback in the
    batch that the loop is running, where [cancelTimer] does not find it. *)
Inductive tmstate := TOut | TInLoop | TInBatch.

Definition cancel_in_loop (t : tmstate) : tmstate := match t with TInLoop => TOut | _ => t end.

(** [awaiter] is gone when the coroutine has gone on; [dangling]: a callback used an awaiter that was gone. *)
Record World := MkWorld {
  awaiter : option Awaiter;
  task : tstate;
  timer : tmstate;
  got : option answer;
  dangling : bool
}.

(** ** [await_resume] of the four classes *)

Definition task_result (t : tstate) : answer :=
  match t with Ended (Returns v) => Value v | Ended (Throws e) => Raise e | _ => Nullopt end.

Definition timeout_await_resume (a : Awaiter) (t : tstate) : answer :=
  if timedOut_ a then Raise TimeoutError else task_result t.

Definition timeout_void_await_resume (a : Awaiter) (t : tstate) : answer :=
  if timedOut_ a then Raise TimeoutError else Void.

Definition race_await_resume (a : Awaiter) (t : tstate) : answer :=
  if timedOut_ a then Nullopt else Nullopt.

Definition race_void_await_resume (a : Awaiter) (t : tstate) : answer := Flag (negb (timedOut_ a)).

(** ** The classes *)

(** [KRace kept]: whether the task given to [race] is a variable of the caller,
    which outlives the awaiter, or a temporary, which goes with it. *)
Inductive class := KTimeout | KTimeoutVoid | KRace (kept : bool) | KRaceVoid.

Definition await_resume (k : class) : Awaiter → tstate → answer :=
  match k with
  | KTimeout => timeout_await_resume
  | KTimeoutVoid => timeout_void_await_resume
  | KRace _ => race_await_resume
  | KRaceVoid => race_void_await_resume
  end.

(** The task is destroyed with the awaiter: it is a member, or a temporary of
    the same expression.  A [void] task given to [race] owns itself. *)
Definition ends_with_awaiter (k : class) : bool :=
  match k with KTimeout | KTimeoutVoid => true | KRace kept => negb kept | KRaceVoid => false end.

(** [handle_.resume()]: [await_resume] cancels the timer, the awaiter goes, and
    the task with it when it is owned by the expression. *)
Definition resume (k : class) (a : Awaiter) (w : World) : World :=
  if handle_ a then
    MkWorld None (if ends_with_awaiter k then Destroyed else task w)
      (if timerId_ a then cancel_in_loop (timer w) else timer w) (Some (await_resume k a (task w))) (dangling w)
  else MkWorld (Some a) (task w) (timer w) (got w) (dangling w).

(** [onTimeout] and [onTaskComplete]: the first of them to take [completed_]
    resumes the coroutine. *)
Definition complete (timed_out : bool) (k : class) (w : World) : World :=
  match awaiter w with
  | None => MkWorld None (task w) (timer w) (got w) true
  | Some a => if completed_ a then w else resume k (MkAwaiter true timed_out (timerId_ a) (handle_ a)) w
  end.

Definition timer_completes : class → World → World := complete true.
Definition task_completes : class → World → World := complete false.

(** The task has ended: its continuation runs.  A [void] task given to [race]
    has none but its own deletion. *)
Definition task_ended (k : class) (r : ending) (w : World) : World :=
  let w1 := MkWorld (awaiter w) (Ended r) (timer w) (got w) (dangling w) in
  match k with KRaceVoid => w1 | _ => task_completes k w1 end.

(** [start]: [first] is how the task ends if it does not suspend. *)
Definition start_task (k : class) (first : option ending) (w : World) : World :=
  match first with Some r => task_ended k r w | None => w end.

Definition starts_in_constructor (k : class) : bool := match k with KRace _ | KRaceVoid => true | _ => false end.

(** The constructor throws without a loop; [race] starts the task in it. *)
Definition awaiter_construct (k : class) (has_loop : bool) (first : option ending) : World + texn :=
  if negb has_loop then inr NoEventLoop
  else
    let w := MkWorld (Some (MkAwaiter false false false false)) Suspended TOut None false in
    inl (if starts_in_constructor k then start_task k first w else w).

(** [await_suspend]: the handle is stored, the timer added, and by [timeout] the
    task started. *)
Definition await_suspend (k : class) (first : option ending) (w : World) : World :=
  match awaiter w with
  | None => w
  | Some a =>
      let w1 := MkWorld (Some (MkAwaiter (completed_ a) (timedOut_ a) true true)) (task w) TInLoop (got w) (dangling w) in
      if starts_in_constructor k then w1 else start_task k first w1
  end.

(** ** Runs *)

Inductive event := TimerExpires | TimerFires | TaskEnds (r : ending).

(** A pass of the loop finds the timer if it is in the loop; only a callback in
    the batch runs, and it runs though the timer was cancelled meanwhile; a task
    that has ended or is gone does not end. *)
Definition happens (k : class) (w : World) (e : event) : World :=
  match e with
  | TimerExpires =>
      match timer w with TInLoop => MkWorld (awaiter w) (task w) TInBatch (got w) (dangling w) | _ => w end
  | TimerFires =>
      match timer w with
      | TInBatch => timer_completes k (MkWorld (awaiter w) (task w) TOut (got w) (dangling w))
      | _ => w
      end
  | TaskEnds r => match task w with Suspended => task_ended k r w | _ => w end
  end.

Definition run (k : class) (first : option ending) (es : list event) : World + texn :=
  match awaiter_construct k true first with
  | inl w => inl (foldl (happens k) (await_suspend k first w) es)
  | inr e => inr e
  end.

(** [tryTimeout]: a [TimeoutError] becomes an empty optional, whoever threw it. *)
Definition try_timeout (o : option answer) : option answer :=
  match o with Some (Raise TimeoutError) => Some Nullopt | _ => o end.

(** [withDeadline] compares whole milliseconds. *)
Definition with_deadline_run (now : Z) (deadline : Instant) (first : option ending) (es : list event) : World + texn :=
  match Time.withDeadline now deadline with Ok _ => run KTimeout first es | _ => inr TimeoutError end.

(** ** The reference: the first of the two decides *)

Inductive winner := TheTask (r : ending) | TheTimer.

(** Who is first, whether the timer's callback is left in the batch then, and
    what comes after; [batch]: the timer has expired. *)
Fixpoint settle (batch : bool) (es : list event) : option (winner * bool * list event) :=
  match es with
  | [] => None
  | TimerExpires :: es' => settle true es'
  | TimerFires :: es' => if batch then Some (TheTimer, false, es') else settle batch es'
  | TaskEnds r :: es' => Some (TheTask r, batch, es')
  end.

Definition decided (first : option ending) (es : list event) : option winner :=
  match first with Some r => Some (TheTask r) | None => (λ x, x.1.1) <$> settle false es end.

Definition is_end (e : event) : bool := match e with TaskEnds _ => true | _ => false end.
Definition is_fire (e : event) : bool := match e with TimerFires => true | _ => false end.

(** The task ends while the callback of its timer is in the batch, and then the
    batch runs that. *)
Definition overtaken (first : option ending) (es : list event) : bool :=
  match first, settle false es with
  | None, Some (TheTask _, true, es') => existsb is_fire es'
  | _, _ => false
  end.

Definition value_or_timeout (o : winner) : answer :=
  match o with TheTask (Returns v) => Value v | TheTask (Throws e) => Raise e | TheTimer => Raise TimeoutError end.

Definition done_or_timeout (o : winner) : answer :=
  match o with TheTask _ => Void | TheTimer => Raise TimeoutError end.

(** Once the coroutine has its answer and the task is gone, nothing happens. *)
Lemma settled k w es :
  task w ≠ Suspended → timer w = TOut → foldl (happens k) w es = w.
Proof. intros Ht Ha. induction es as [|[| |r] es IH]; cbn; rewrite ?Ha; [done..|]. by destruct (task w). Qed.

(** ... unless the callback is still in the batch, which uses the awaiter. *)
Lemma leftover k w es :
  task w ≠ Suspended → timer w = TInBatch → awaiter w = None →
  let w' := foldl (happens k) w es in
  got w' = got w ∧ task w' = task w ∧ awaiter w' = None ∧ timer w' ≠ TInLoop ∧ dangling w' = dangling w || existsb is_fire es.
Proof.
  intros Ht Ha Hn. induction es as [|[| |r] es IH]; cbn; rewrite ?Ha; cbn.
  - by rewrite Hn, orb_false_r.
  - done.
  - unfold timer_completes, complete. cbn. rewrite Hn, settled by done. cbn. by rewrite orb_true_r.
  - by destruct (task w).
Qed.

(** The state before anything has happened to the awaiter. *)
Definition pending (batch : bool) : World :=
  MkWorld (Some (MkAwaiter false false true true)) Suspended (if batch then TInBatch else TInLoop) None false.

(** Up to the first end of the task or run of the timer, nothing happens. *)
Lemma pending_run k batch es :
  foldl (happens k) (pending batch) es =
  match settle batch es with
  | None => pending (batch || existsb (λ e, match e with TimerExpires => true | _ => false end) es)
  | Some (TheTimer, _, es') => foldl (happens k) (happens k (pending true) TimerFires) es'
  | Some (TheTask r, b, es') => foldl (happens k) (happens k (pending b) (TaskEnds r)) es'
  end.
Proof.
  revert batch. induction es as [|[| |r] es IH]; intros batch; cbn [foldl settle existsb].
  - by rewrite orb_false_r.
  - assert (E : happens k (pending batch) TimerExpires = pending true) by (by destruct batch). rewrite E, IH. cbn.
    rewrite orb_true_r. done.
  - destruct batch; [done|]. assert (E : happens k (pending false) TimerFires = pending false) by done. rewrite E, IH. done.
  - done.
Qed.

(** The reference answers of [timeout] for tasks with a value and without. *)
Definition timeout_reference (k : class) : winner → answer :=
  match k with KTimeout => value_or_timeout | _ => done_or_timeout end.

(** C23: [timeout] is the race it promises to be: the coroutine gets the end of the
    task if that comes first and [TimeoutError] if the timer's callback does, once;
    then the timer is out of the loop, the task destroyed and the awaiter gone,
    whatever comes later.  A later callback uses the awaiter that is gone exactly
    when the task ended within a pass of the loop that had already taken the
    expired timer into its batch, and the batch then runs the timer's callback.  A
    [void] task that throws gives the same as one that returns: the exception is
    dropped.  [tryTimeout] gives an empty optional exactly when the timer was first
    or the task itself threw a [TimeoutError]; and [withDeadline] is that timeout
    unless less than a millisecond is left. *)
Theorem timeout_decides k first es now deadline :
  k = KTimeout ∨ k = KTimeoutVoid →
  (∃ w, run k first es = inl w ∧
     got w = timeout_reference k <$> decided first es ∧ dangling w = overtaken first es ∧
     (is_Some (got w) → timer w ≠ TInLoop ∧ task w = Destroyed ∧ awaiter w = None) ∧
     (k = KTimeout → try_timeout (got w) = Some Nullopt ↔
        decided first es = Some TheTimer ∨ decided first es = Some (TheTask (Throws TimeoutError)))) ∧
  with_deadline_run now deadline first es =
    if 1000000 <=? tp_ deadline - now then run KTimeout first es else inr TimeoutError.
Proof.
  intros Hk. split.
  - eexists. split; [destruct Hk as [-> | ->]; reflexivity|]. destruct first as [res|].
    + destruct Hk as [-> | ->]; cbn; rewrite ?settled by done; destruct res as [v|e]; cbn;
        (split_and!; [done|done|done|]); intros ?; try done; try (match goal with e : texn |- _ => destruct e end); naive_solver.
    + unfold await_suspend. replace (match awaiter _ with Some _ => _ | None => _ end) with (pending false) by (by destruct Hk as [-> | ->]).
      rewrite pending_run. unfold decided, overtaken. destruct (settle false es) as [[[[res|] b] es']|].
      * destruct b; [edestruct (leftover k (happens k (pending true) (TaskEnds res)) es') as (-> & -> & -> & Hi & ->);
          [by destruct Hk as [-> | ->]..|]|rewrite settled by (by destruct Hk as [-> | ->])];
          destruct Hk as [-> | ->], res as [v|e]; cbn; (split_and!; [done|done|by try (intros _; split_and!)|]); intros ?; try done; try (match goal with e : texn |- _ => destruct e end); naive_solver.
      * rewrite settled by (by destruct Hk as [-> | ->]). destruct Hk as [-> | ->]; cbn; (split_and!; [done|done|done|]); intros ?; try done; naive_solver.
      * cbn. split_and!; [done|done|by intros [? ?]|]. intros _. naive_solver.
  - unfold with_deadline_run, Time.withDeadline, asMillis, since. cbn.
    destruct (Z.leb_spec 1000000 (tp_ deadline - now)) as [H|H]; destruct (Z.leb_spec ((tp_ deadline - now) ÷ 1000000) 0) as [H'|H'];
      try done; exfalso; Z.to_euclidean_division_equations; lia.
Qed.

(** ** [race] *)

(** The awaiter of a task that ended in the constructor: nobody is resumed. *)
Lemma taken_stuck kept w a es :
  awaiter w = Some a → completed_ a = true → task w ≠ Suspended →
  got (foldl (happens (KRace kept)) w es) = got w ∧ dangling (foldl (happens (KRace kept)) w es) = dangling w.
Proof.
  intros Ha Hc. revert w Ha. induction es as [|[| |r] es IH]; intros w Ha Ht; [done| | |]; cbn.
  - destruct (timer w); [by apply IH| |by apply IH]. by edestruct (IH (MkWorld (awaiter w) (task w) TInBatch (got w) (dangling w))) as [-> ->].
  - destruct (timer w); [by apply IH..|]. unfold timer_completes, complete. cbn. rewrite Ha, Hc.
    by edestruct (IH (MkWorld (Some a) (task w) TOut (got w) (dangling w))) as [-> ->].
  - destruct (task w) eqn:E; [done|by apply IH; rewrite ?E..].
Qed.

(** The timer came first and the task lives on. *)
Lemma late_end es w :
  awaiter w = None → timer w = TOut → task w = Suspended →
  got (foldl (happens (KRace true)) w es) = got w ∧
  dangling (foldl (happens (KRace true)) w es) = dangling w || existsb is_end es.
Proof.
  intros Hw Ha Ht. induction es as [|[| |r] es IH]; cbn; rewrite ?Ha; [by rewrite orb_false_r|done|done|].
  rewrite Ht. unfold task_ended, task_completes, complete. cbn. rewrite Hw, settled by done. by rewrite orb_true_r.
Qed.

(** The timer's callback runs. *)
Fixpoint fires (batch : bool) (es : list event) : bool :=
  match es with
  | [] => false
  | TimerExpires :: es' => fires true es'
  | TimerFires :: es' => batch || fires batch es'
  | TaskEnds _ :: es' => fires batch es'
  end.

(** A [void] task runs beside the awaiter, which waits for the timer. *)
Lemma race_void_fired es w :
  awaiter w = None → timer w = TOut →
  got (foldl (happens KRaceVoid) w es) = got w ∧ dangling (foldl (happens KRaceVoid) w es) = dangling w.
Proof.
  revert w. induction es as [|[| |r] es IH]; intros w Ha Ht; [done| | |]; cbn.
  1, 2: rewrite Ht; by apply IH.
  destruct (task w); [|by apply IH..]. exact (IH (task_ended KRaceVoid r w) Ha Ht).
Qed.

Lemma race_void_run es (batch : bool) w :
  awaiter w = Some (MkAwaiter false false true true) → timer w = (if batch then TInBatch else TInLoop) →
  let w' := foldl (happens KRaceVoid) w es in
  got w' = (if fires batch es then Some (Flag false) else got w) ∧ dangling w' = dangling w.
Proof.
  revert batch w. induction es as [|[| |r] es IH]; intros batch w Ha Ht; [done| | |]; cbn.
  - destruct batch; rewrite Ht; [by apply IH|]. by edestruct (IH true (MkWorld (awaiter w) (task w) TInBatch (got w) (dangling w))) as [-> ->].
  - destruct batch; rewrite Ht; cbn; [|by apply IH]. unfold timer_completes, complete. cbn. rewrite Ha. cbn.
    by edestruct (race_void_fired es) as [-> ->].
  - destruct (task w); [|by apply IH..]. exact (IH batch (task_ended KRaceVoid r w) Ha Ht).
Qed.

(** What [race] gives.  With a value: never the value, but an empty optional
    whoever was first, and nothing at all, for ever, when the task ends inside
    the constructor.  The awaiter is used after it is gone when a batch runs the
    timer after the task has ended in it, and when a task that is a variable of
    the caller ends after the timeout; one that is a temporary is destroyed with
    the awaiter instead of going on.  Without a value: the caller always waits for
    the timer and is told that the task was late. *)
Theorem race_outcomes kept first es :
  (∃ w, run (KRace kept) first es = inl w ∧
     got w = match first with Some _ => None | None => (λ _, Nullopt) <$> decided None es end ∧
     dangling w = match first, settle false es with
                  | None, Some (TheTask _, true, es') => existsb is_fire es'
                  | None, Some (TheTimer, _, es') => kept && existsb is_end es'
                  | _, _ => false
                  end ∧
     (kept = false → first = None → is_Some (decided None es) → task w = Destroyed)) ∧
  (∃ w, run KRaceVoid first es = inl w ∧ dangling w = false ∧
     got w = (if fires false es then Some (Flag false) else None)).
Proof.
  split.
  - destruct first as [r|].
    + eexists. split; [reflexivity|]. edestruct (taken_stuck kept (await_suspend (KRace kept) (Some r)
        (start_task (KRace kept) (Some r) (MkWorld (Some (MkAwaiter false false false false)) Suspended TOut None false)))) as [H1 H2];
        [reflexivity|done|done|]. cbn in *. by rewrite H1, H2.
    + eexists. split; [reflexivity|]. change (await_suspend _ _ _) with (pending false). rewrite pending_run.
      unfold decided. destruct (settle false es) as [[[[res|] b] es']|]; [|destruct kept|].
      * destruct b.
        -- destruct (leftover (KRace kept) (happens (KRace kept) (pending true) (TaskEnds res)) es') as (-> & -> & _ & _ & ->);
             [by destruct kept|by destruct kept|by destruct kept|]. destruct kept; by split_and!.
        -- rewrite settled by (by destruct kept). destruct kept; by split_and!.
      * edestruct (late_end es' (happens (KRace true) (pending true) TimerFires)) as [-> ->]; [by cbn..|]. by split_and!.
      * rewrite settled by done. by split_and!.
      * split_and!; [done|done|by intros _ _ [? ?]].
  - eexists. split; [reflexivity|].
    destruct (race_void_run es false (await_suspend KRaceVoid first (start_task KRaceVoid first
      (MkWorld (Some (MkAwaiter false false false false)) Suspended TOut None false)))) as [H1 H2]; [by destruct first..|].
    cbn in *. rewrite H1, H2. by destruct first.
Qed.

End timeouts.

(** A [void] task that throws: the caller cannot tell. *)
Example void_exception_dropped :
  run (T := Z) KTimeoutVoid None [TaskEnds (Throws (TaskError 5))] = run KTimeoutVoid None [TaskEnds (Returns 0)].
Proof. reflexivity. Qed.

Lemma timeout_decides_witness :
  (∃ w, run KTimeout None [TaskEnds (Returns 3); TimerExpires; TimerFires] = inl w ∧ got w = Some (Value 3) ∧ dangling w = false) ∧
  (∃ w, run KTimeout None [TimerExpires; TaskEnds (Returns 3); TimerFires] = inl w ∧ got w = Some (Value 3) ∧ dangling w = true).
Proof.
  split.
  - destruct (timeout_decides (T := Z) KTimeout None [TaskEnds (Returns 3); TimerExpires; TimerFires] 0 (MkInstant 5) (or_introl eq_refl))
      as [(w & Hr & Hg & Hd & _) _]. exists w. split; [exact Hr|]. rewrite Hg, Hd. by split.
  - destruct (timeout_decides (T := Z) KTimeout None [TimerExpires; TaskEnds (Returns 3); TimerFires] 0 (MkInstant 5) (or_introl eq_refl))
      as [(w & Hr & Hg & Hd & _) _]. exists w. split; [exact Hr|]. rewrite Hg, Hd. by split.
Defined.
