(* ===== verification/CombinatorCalls.v ===== *)
(** * Awaiting combinators (src/include/pman/async/combinators.hpp)

    [co_await all(tasks)], [any] and [first] as calls: [await_ready] for an empty
    vector, the awaiters of Combinators.v, and what the caller gets.  The
    specialisations for tasks without a value have their own states and wrappers;
    they are shown to be the general awaiters with the values forgotten, step by
    step, so that what holds of the general ones holds of them. *)

From S2P Require Import Prelude Combinators.

(** ** Morphisms of awaiters *)

Section morphism.
Context {St St' : Type} `{Combinator St, Combinator St'} (f : St → St').

(** [f] commutes with the end of a task and keeps the number of resumptions. *)
Class Forgets : Prop := {
  forgets_wrapper idx r s : f (wrapper idx r s) = wrapper idx r (f s);
  forgets_resumed s : resumed (f s) = resumed s
}.

Definition forget (a : Awaiter St) : Awaiter St' :=
  MkAwaiter (f (shared a)) (ntasks a) (next a) (under_way a) (log a) (at_once a) (dangling a).

Context `{!Forgets}.

Lemma forget_start r a : start_next r (forget a) = forget (start_next r a).
Proof. destruct r as [r|]; unfold start_next, forget; cbn; by rewrite ?forgets_wrapper, <- ?forgets_wrapper, forgets_resumed. Qed.

Lemma forget_finish i r a : finish i r (forget a) = forget (finish i r a).
Proof. unfold finish, forget. cbn. by rewrite forgets_wrapper. Qed.

(** Every run of the image is the image of a run. *)
Lemma forget_runs a b' :
  rtc astep (forget a) b' → ∃ b, rtc astep a b ∧ b' = forget b.
Proof.
  intros Hr. revert b' Hr. apply rtc_ind_r; [by exists a|]. intros b1 b2 _ Hs (b & Hb & ->).
  inversion Hs as [r x Hlt E1 E2|i r x Hd Hi E1 E2]; subst.
  - exists (start_next r b). split; [eapply rtc_r; [exact Hb|by constructor]|apply forget_start].
  - exists (finish i r b). split; [eapply rtc_r; [exact Hb|by constructor]|apply forget_finish].
Qed.
End morphism.

(** ** The states without values *)

(** [AllState<void>] and [AnyState<void>]: the fields [results] and [result] are
    not there, which is the empty one here. *)
Record AllVoid := MkAllVoid { all_void : AllState }.
Record AnyVoid := MkAnyVoid { any_void : AnyState }.

Definition newAllVoid (n : nat) : AllVoid := MkAllVoid (MkAll 0 false [] None n 0).
Definition newAnyVoid : AnyVoid := MkAnyVoid newAnyState.

Definition thrown (r : result) : option exn := match r with Failure e => Some e | Value _ => None end.

#[export] Instance all_void_combinator : Combinator AllVoid :=
  {| wrapper _ r s := MkAllVoid (all_void_wrapper (thrown r) (all_void s)); resumed s := all_resumed (all_void s) |}.
#[export] Instance any_void_combinator : Combinator AnyVoid :=
  {| wrapper idx r s := MkAnyVoid (any_void_wrapper idx (thrown r) (any_void s)); resumed s := any_resumed (any_void s) |}.

Definition forget_results (s : AllState) : AllVoid :=
  MkAllVoid (MkAll (completed s) (hasError s) [] (error s) (total s) (all_resumed s)).
Definition forget_result (s : AnyState) : AnyVoid :=
  MkAnyVoid (MkAny (done_ s) (winnerIndex s) None (any_error s) (any_resumed s)).

#[export] Instance all_forgets : Forgets forget_results.
Proof.
  split; [|done]. intros idx r s. cbn. unfold forget_results, all_wrapper, all_void_wrapper, all_store.
  destruct r as [v|e]; cbn; [by rewrite orb_false_r|]. destruct (hasError s) eqn:E; cbn; by rewrite ?E.
Qed.

#[export] Instance any_forgets : Forgets forget_result.
Proof.
  split; [|done]. intros idx r s. cbn. unfold forget_result, any_wrapper, any_void_wrapper.
  destruct (done_ s) eqn:E; cbn; [by rewrite E|]. by destruct r.
Qed.

(** ** The calls *)

(** What [co_await] gives: [None] while the caller is suspended.  An empty vector
    is ready at once.  The inner [None] of [any] is the read of an empty
    optional. *)
Definition co_await {St A} `{Combinator St} (await_resume : St → A) (a : Awaiter St) : option A :=
  if (ntasks a =? 0)%nat || (0 <? resumed (shared a))%nat then Some (await_resume (shared a)) else None.

Definition all (a : Awaiter AllState) : option (outcome (list Z)) := co_await all_await_resume a.
Definition all_of_void (a : Awaiter AllVoid) : option (outcome unit) := co_await (all_void_await_resume ∘ all_void) a.
Definition any (a : Awaiter AnyState) : option (option (outcome (nat * Z))) := co_await any_await_resume a.
Definition any_of_void (a : Awaiter AnyVoid) : option (outcome nat) := co_await (any_void_await_resume ∘ any_void) a.

Definition map_ok {A B} (g : A → B) (o : outcome A) : outcome B :=
  match o with Ok v => Ok (g v) | Throw e => Throw e | Hang => Hang end.

(** [first]: the value alone; without values, nothing. *)
Definition first (a : Awaiter AnyState) : option (option (outcome Z)) := option_map (option_map (map_ok snd)) (any a).
Definition first_of_void (a : Awaiter AnyVoid) : option (outcome unit) := option_map (map_ok (λ _, tt)) (any_of_void a).

(** ** What the calls give *)

Lemma ntasks_runs {St} `{Combinator St} (a b : Awaiter St) : rtc astep a b → ntasks b = ntasks a.
Proof. induction 1 as [|a b c Hs _ ->]; [done|]. by destruct Hs as [[]|]. Qed.

Lemma all_of_void_forgets b : all_of_void (forget forget_results b) = option_map (map_ok (λ _, tt)) (all b).
Proof.
  unfold all_of_void, all, co_await. cbn. destruct (_ || _); [|done]. cbn. f_equal.
  unfold all_void_await_resume, all_await_resume. cbn. by destruct (error (shared b)).
Qed.

Lemma any_of_void_kept n b :
  rtc astep (newAwaiter newAnyState n) b → (0 < n)%nat →
  any b = (λ e, Some (match e with (i, Value v) => Ok (i, v) | (_, Failure e) => Throw e end)) <$> last (log b) ∧
  any_of_void (forget forget_result b) =
    (λ e, match e with (i, Value v) => Ok i | (_, Failure e) => Throw e end) <$> last (log b).
Proof.
  intros Hr Hn. destruct (rtc_invariant astep _ _ b any_step_inv Hr) as [Hk _]; [done|].
  unfold any, any_of_void, co_await. cbn. rewrite (ntasks_runs _ _ Hr). cbn.
  rewrite (any_kept_resumed _ _ Hk). unfold any_kept in Hk. destruct (Nat.eqb_spec n 0); [lia|].
  destruct (log b) as [|x l]; [done|]. rewrite last_cons in *. cbn -[last] in *.
  destruct (default x (last l)) as [i [v|e]] eqn:E; destruct (last l) as [y|]; cbn in E; subst; by rewrite Hk.
Qed.

(** The calls for tasks without a value are those for tasks with one, with the
    values forgotten: every run of a [void] awaiter is the image of a run of the
    general one, with the same ends, and its caller gets the image of that
    answer.  [all] answers when the last task has ended, with the first failure
    if there is one; [first] answers with the first task to end, whether it
    returned or failed.  On an empty vector [all] answers at once; [any] and
    [first] read an empty optional, and [any] of [void] tasks answers with index
    0 although there is no task. *)
Theorem void_combinators_forget n :
  (∀ a, rtc astep (newAwaiter (newAllVoid n) n) a →
     (∃ b, rtc astep (newAwaiter (newAllState n) n) b ∧ a = forget forget_results b ∧
           all_of_void a = option_map (map_ok (λ _, tt)) (all b)) ∧
     all_of_void a = if decide (length (log a) = n)
                     then Some (match first_failure (log a) with Some e => Throw e | None => Ok tt end) else None) ∧
  (∀ a, rtc astep (newAwaiter newAnyVoid n) a → (0 < n)%nat →
     ∃ b, rtc astep (newAwaiter newAnyState n) b ∧ a = forget forget_result b ∧
          any_of_void a = (λ e, match e with (i, Value v) => Ok i | (_, Failure e) => Throw e end) <$> last (log a) ∧
          first b = (λ e, Some (match e with (_, Value v) => Ok v | (_, Failure e) => Throw e end)) <$> last (log a) ∧
          first_of_void a = option_map (map_ok (λ _, tt)) (first b ≫= id)) ∧
  all (newAwaiter (newAllState 0) 0) = Some (Ok []) ∧ first (newAwaiter newAnyState 0) = Some None ∧
  any_of_void (newAwaiter newAnyVoid 0) = Some (Ok 0%nat).
Proof.
  split_and!; [| |done..].
  - intros a Hr. destruct (forget_runs forget_results (newAwaiter (newAllState n) n) a Hr) as (b & Hb & ->).
    split; [exists b; by split_and!; [done| |apply all_of_void_forgets]|].
    destruct (rtc_invariant astep (AllInv n) _ b (all_step_inv n) Hb (all_inv_init n)) as [_ (Hnt & _) _ _ [He _] Hres _].
    rewrite all_of_void_forgets. unfold all, co_await. cbn [resumed all_combinator]. rewrite Hnt, Hres. cbn.
    assert (Hl : n = 0%nat → length (log b) = 0%nat).
    { intros ->. clear -Hb Hnt. remember (newAwaiter (newAllState 0) 0) as a0 eqn:E.
      assert (Hp : Places b) by (refine (rtc_invariant astep Places _ _ places_step Hb _); subst; by split).
      destruct Hp as [H1 H2%Permutation_length]. rewrite length_app, length_fmap, length_seq in H2. lia. }
    destruct (Nat.eqb_spec n 0) as [->|Hn]; cbn.
    + rewrite decide_True by auto. cbn. unfold all_await_resume. rewrite He. by destruct (first_failure (log b)).
    + case_decide as Hd; case_decide; try lia; cbn; [|done]. unfold all_await_resume. rewrite He. by destruct (first_failure (log b)).
  - intros a Hr Hn. destruct (forget_runs forget_result (newAwaiter newAnyState n) a Hr) as (b & Hb & ->).
    destruct (any_of_void_kept n b Hb Hn) as [H1 H2]. exists b. unfold first, first_of_void. rewrite H1, H2. cbn.
    split_and!; [done..| |]; destruct (last (log b)) as [[i [v|e]]|]; done.
Qed.
