(* ===== verification/ActorLifetime.v ===== *)
(** * The life of an actor (src/include/pman/async/actor.hpp)

    Actor.v keeps every actor object on a heap.  In the code an actor is owned by
    [shared_ptr]s: one in the registry, one in the frame of each
    [ProcessRegistry::send] that is under way, and temporaries.  [exit] removes
    it from the registry, so unless a send is under way the object is destroyed,
    with its mailbox; but closing the mailbox has posted the resumption of the
    coroutine that waits in [receive].  This file composes the exits of Actor.v
    with the ends of the mailbox's channel (ChannelHandles.v), and adds the
    operations of [ActorContext]. *)

From S2P Require Import Prelude Channel Actor ChannelHandles.

(** ** [ActorContext] *)

(** [registry] may be null, before [start]. *)
Definition context_send (has_registry : bool) (self_pid to : Z) (p : Payload) (s : Registry) : co bool * Registry :=
  if has_registry then sendTo to self_pid p s else (Done false, s).

Definition context_link (has_registry : bool) (self_pid other : Z) (s : Registry) : Registry :=
  if has_registry then link self_pid other s else s.

Definition context_monitor (has_registry : bool) (self_pid other : Z) (s : Registry) : Z * Registry :=
  if has_registry then monitor self_pid other s else (INVALID_PID, s).

(** A link joins both ways, a monitor one way; without a registry, and to an
    actor the registry does not know, nothing happens and the caller is told. *)
Lemma context_ops self other p s a b :
  self ≠ other → getActor self s = Some a → getActor other s = Some b →
  (traps b = false → edge (context_link true self other s) self other) ∧
  (traps a = false → edge (context_link true self other s) other self) ∧
  (∃ b', heap (context_monitor true self other s).2 !! other = Some b' ∧ self ∈ monitors_ b') ∧
  (context_monitor true self other s).1 = self ∧
  context_link false self other s = s ∧ context_monitor false self other s = (INVALID_PID, s) ∧
  context_send false self other p s = (Done false, s) ∧
  (∀ x, getActor x s = None → context_send true self x p s = (Done false, s) ∧
     context_monitor true self x s = (INVALID_PID, s) ∧ context_link true self x s = s).
Proof.
  intros Hne Ha Hb. destruct (getActor_Some _ _ _ Ha) as [_ Hha], (getActor_Some _ _ _ Hb) as [_ Hhb].
  unfold context_link, context_monitor, context_send, link, monitor, sendTo, edge. rewrite Ha, Hb. cbn.
  assert (E1 : alter (add_link self) other (alter (add_link other) self (heap s)) !! self = Some (add_link other a)).
  { by rewrite lookup_alter_ne, lookup_alter_eq, Hha. }
  assert (E2 : alter (add_link self) other (alter (add_link other) self (heap s)) !! other = Some (add_link self b)).
  { by rewrite lookup_alter_eq, lookup_alter_ne, Hhb by congruence. }
  rewrite E1, E2, lookup_alter_eq, Hhb. cbn. split_and!; try done.
  - intros Ht. exists (add_link other a), (add_link self b). split_and!; try done. set_solver.
  - intros Ht. exists (add_link self b), (add_link other a). split_and!; try done. set_solver.
  - eexists. split; [done|]. set_solver.
  - intros x ->. done.
Qed.

(** ** Who owns an actor *)

(** Sends to the actor that are under way: suspended, or posted to go on. *)
Definition sends_under_way (a : Actor) : nat :=
  length (sendWaiters_ (mailbox a)) + length (filter (λ x, x.2 = SendSide) (posted (mailbox a))).

Definition owners (q : Z) (s : Registry) : nat :=
  match heap s !! q with
  | Some a => (if decide (q ∈ actors_ s) then 1 else 0) + sends_under_way a
  | None => 0
  end.

(** [~Actor]: [stop], then the members go: [mailbox_rx_], [mailbox_tx_] and
    [mailbox_impl_], which share the channel. *)
Definition mailbox_ends (c : ChannelImpl) : World Message :=
  MkWorld {[0 := c]}
    (<[3 := MkEnd ReceiverEnd (Some 0)]> (<[2 := MkEnd SenderEnd (Some 0)]> {[1 := MkEnd SenderEnd (Some 0)]})) [] ∅.

Definition destroy_actor (a : Actor) : World Message :=
  end_destroy 1 (end_destroy 2 (end_destroy 3 (mailbox_ends (mailbox (stop_actor a))))).

Lemma destroy_actor_spec a :
  stopped_ a = true →
  impls (destroy_actor a) = ∅ ∧ orphans (destroy_actor a) = (λ p, (0, p)) <$> posted (close (mailbox a)).
Proof. intros Hs. unfold destroy_actor, stop_actor. rewrite Hs. by vm_compute. Qed.

(** ** Actors that only get stopped *)

Section lifetime.
Context (walk : gset Z → list Z) (walk_elements : ∀ X, walk X ≡ₚ elements X).

(** [q] monitors nobody, so that exits send it nothing. *)
Definition silent (q : Z) (s : Registry) : Prop := ∀ p a, heap s !! p = Some a → q ∉ monitors_ a.

Definition only_stopped (q : Z) (s s' : Registry) : Prop :=
  heap s' !! q = heap s !! q ∨ heap s' !! q = stop_actor <$> heap s !! q.

Lemma stop_twice a : stop_actor (stop_actor a) = stop_actor a.
Proof. unfold stop_actor at 2 3. destruct (stopped_ a) eqn:E; unfold stop_actor; cbn; by rewrite ?E. Qed.

#[local] Instance only_stopped_trans q : Transitive (only_stopped q).
Proof.
  intros s1 s2 s3 [H1|H1] [H2|H2]; unfold only_stopped; rewrite H2, H1; auto.
  right. rewrite <- option_fmap_compose. apply option_fmap_ext. intros a. apply stop_twice.
Qed.

Lemma silent_Frame q s s' : Frame s s' → silent q s → silent q s'.
Proof. intros HF Hq p a' Hp. destruct (Frame_lookup _ _ _ _ HF Hp) as (a & Ha & (_ & -> & _)). by eapply Hq. Qed.

Lemma stop_only q l s : only_stopped q s (on_actor stop_actor l s).
Proof.
  unfold only_stopped, on_actor. cbn. destruct (decide (q = l)) as [->|Hq].
  - right. apply lookup_alter_eq.
  - left. by apply lookup_alter_ne.
Qed.

Lemma downs_elsewhere pid r q ms s :
  q ∉ ms → heap (foldl (λ s m, send_down pid r m s) s ms) !! q = heap s !! q.
Proof.
  revert s. induction ms as [|m ms IH]; intros s Hq; [done|]. apply not_elem_of_cons in Hq as [Hqm Hq]. cbn.
  rewrite IH by done. unfold send_down, sendTo. destruct (getActor m s) as [a|]; [|done].
  destruct (sendMessage _ _ a). cbn. by rewrite lookup_insert_ne.
Qed.

Lemma visit_only notify q ls s s' :
  notify_ok notify →
  (∀ l s s', RegWf s → silent q s → notify l s = Some s' → only_stopped q s s') →
  RegWf s → silent q s → visit_links notify ls s = Some s' → only_stopped q s s'.
Proof.
  intros Hok Hn. revert s. induction ls as [|l ls IH]; intros s Hwf Hq E; cbn in E; [simplify_eq; by left|].
  destruct (getActor l s) as [b|]; [|by apply IH]. destruct (traps b); [by apply IH|].
  apply bind_Some in E as (s1 & E1 & E2). pose proof (alter_Frame stop_actor l s stop_kept) as HF.
  assert (Hwf0 : RegWf (on_actor stop_actor l s)) by by eapply RegWf_Frame.
  pose proof (silent_Frame q _ _ HF Hq) as Hq0. destruct (Hok l _ s1 Hwf0 E1) as ((F1 & S1 & _) & _).
  etrans; [apply (stop_only q l)|]. etrans; [by apply (Hn l _ s1)|].
  apply IH; [by eapply RegWf_Frame|by eapply silent_Frame|done].
Qed.

Lemma notify_only q fuel r pid s s' :
  RegWf s → silent q s → notifyExit_ walk fuel pid r s = Some s' → only_stopped q s s'.
Proof.
  revert r pid s s'. induction fuel as [|fuel IH]; intros r pid s s' Hwf Hq E; cbn in E; [done|].
  destruct (drop_name_props pid (with_actors (actors_ s ∖ {[pid]}) s)) as [Hh Ha].
  set (s1 := drop_name pid _) in *. cbn in Hh, Ha.
  assert (H1 : only_stopped q s s1) by (left; by rewrite Hh).
  destruct (getActor pid s) as [a|] eqn:Ea; [|by simplify_eq].
  apply getActor_Some in Ea as [_ Hp]. apply bind_Some in E as (s2 & E2 & E3). simplify_eq. etrans; [exact H1|].
  assert (Hwf1 : RegWf s1) by (intros x Hx; rewrite Hh; apply Hwf; rewrite Ha in Hx; set_solver).
  assert (Hq1 : silent q s1) by (intros x b Hx; rewrite Hh in Hx; by eapply Hq).
  unfold only_stopped. rewrite downs_elsewhere; [|by rewrite walk_elements, elem_of_elements; apply (Hq pid)].
  eapply visit_only; [by apply notifyExit_ok| |done..|exact E2]. intros l t t'. apply IH.
Qed.

Lemma crash_only q pid r s : RegWf s → silent q s → only_stopped q s (handleCrash walk pid r s).
Proof.
  intros Hwf Hq. pose proof (alter_Frame stop_actor pid s stop_kept) as HF. unfold handleCrash, notifyExit.
  etrans; [apply (stop_only q pid)|].
  destruct (notifyExit_ _ _ _ _ _) as [s'|] eqn:E; [|by left]. cbn.
  eapply notify_only; [by eapply RegWf_Frame|by eapply silent_Frame|exact E].
Qed.

(** C29: An actor that waits for a message is destroyed under its own feet: when an
    actor exits, every actor connected to it by links that waits in [receive],
    has no send under way and monitors nobody, has no owner left.  Its
    destruction frees the mailbox, while the loop is still to resume the waiting
    coroutine, which then reads the freed mailbox and goes on in the [run] of an
    actor that is gone. *)
Theorem linked_receiver_orphaned pid r s q a h :
  RegWf s → pid ∈ actors_ s → rtc (live_edge s) pid q → q ∈ actors_ s → silent q s →
  heap s !! q = Some a → stopped_ a = false → mail_ok a →
  h ∈ recvWaiters_ (mailbox a) → sends_under_way a = 0%nat →
  let s' := handleCrash walk pid r s in
  owners q s' = 0%nat ∧
  ∃ a', heap s' !! q = Some a' ∧ impls (destroy_actor a') = ∅ ∧ (0, (h, RecvSide)) ∈ orphans (destroy_actor a').
Proof.
  intros Hwf Hpid Hr Hqs Hq Ha Hst Hok Hh Hno s'.
  destruct (handleCrash_ok walk walk_elements pid r s Hwf) as (HE & Hn & Hall). fold s' in HE, Hn, Hall.
  pose proof (component_forgotten pid q s s' HE Hpid Hn Hr) as Hgone.
  destruct (Hall q Hqs Hgone) as [_ (a' & Ha' & Hs')].
  assert (E : a' = stop_actor a).
  { destruct (crash_only q pid r s Hwf Hq) as [E|E]; fold s' in E; rewrite Ha', Ha in E; cbn in E; simplify_eq; congruence. }
  unfold mail_ok in Hok. rewrite Hst in Hok. unfold sends_under_way in Hno.
  assert (Hm : mailbox a' = close (mailbox a)) by (rewrite E; unfold stop_actor; by rewrite Hst).
  split.
  - unfold owners. rewrite Ha', decide_False by done. unfold sends_under_way. rewrite Hm. unfold close. rewrite Hok. cbn.
    destruct (sendWaiters_ (mailbox a)); [|cbn in Hno; lia]. cbn. rewrite app_nil_r, filter_app, length_app.
    assert (filter (λ x, x.2 = SendSide) ((λ h, (h, RecvSide)) <$> recvWaiters_ (mailbox a)) = []) as ->.
    { clear Hh. induction (recvWaiters_ (mailbox a)) as [|x l IH]; [done|]. exact IH. }
    cbn in *. lia.
  - exists a'. split; [done|]. destruct (destroy_actor_spec a' Hs') as [-> ->]. split; [done|].
    apply list_elem_of_fmap. exists (h, RecvSide). split; [done|]. rewrite Hm. unfold close. rewrite Hok. cbn.
    apply elem_of_app. right. apply elem_of_app. left. apply list_elem_of_fmap. eauto.
Qed.
End lifetime.

(** Actors 1 and 2 linked, 2 waiting for a message; 1 returns. *)
Definition waiting_pair : Registry :=
  let sp s := (spawn elements false waits_for_mail s).2 in
  let s := (context_link true 1 2 (sp (sp newRegistry))) in
  on_actor (λ a, (receive 50 a).2) 2 s.

Lemma linked_receiver_orphaned_witness :
  ∃ a', heap (handleCrash elements 1 Normal waiting_pair) !! 2 = Some a' ∧ (0, (50, RecvSide)) ∈ orphans (destroy_actor a').
Proof.
  assert (Hwf : RegWf waiting_pair).
  { intros x Hx. assert (Hs : actors_ waiting_pair = {[1; 2]}) by (vm_compute; reflexivity). rewrite Hs in Hx.
    apply elem_of_union in Hx as [Hx|Hx]; apply elem_of_singleton in Hx as ->; vm_compute; eauto. }
  destruct (heap waiting_pair !! 2) as [a|] eqn:Ha; [|vm_compute in Ha; discriminate].
  destruct (heap waiting_pair !! 1) as [b|] eqn:Hb; [|vm_compute in Hb; discriminate].
  assert (He : live_edge waiting_pair 1 2).
  { split; [|by_decision]. exists b, a. split_and!; [done| |done|].
    - vm_compute in Hb. injection Hb as <-. by_decision.
    - vm_compute in Ha. injection Ha as <-. reflexivity. }
  assert (Hq : silent 2 waiting_pair).
  { intros p c Hp. assert (Hd : p = 1 ∨ p = 2).
    { assert (Hs : dom (heap waiting_pair) = {[1; 2]}) by (vm_compute; reflexivity).
      apply elem_of_dom_2 in Hp. rewrite Hs in Hp. set_solver. }
    destruct Hd as [->| ->]; vm_compute in Hp; injection Hp as <-; by_decision. }
  destruct (linked_receiver_orphaned elements ltac:(done) 1 Normal waiting_pair 2 a 50 Hwf) as (_ & a' & H1 & _ & H2);
    [by_decision|by eapply rtc_l; [exact He|apply rtc_refl]|by_decision|exact Hq|exact Ha|..|exists a'; by split].
  all: vm_compute in Ha; injection Ha as <-; try reflexivity. left.
Defined.
